(* ===== verification/_CoqProject ===== *)
-Q . S2P
Prelude.v
GoInt.v
GoStr.v
GoTime.v
GoSort.v
Resp.v
RespSpec.v
Config.v
Json.v
GoNet.v
GoCrypto.v
ConfigValid.v
ConfigSpec.v
NetId.v
NetIdSpec.v
JsonSpec.v
StoreBase.v
Eviction.v
StoreString.v
StoreHash.v
StoreList.v
StoreSet.v
StoreKeys.v
StoreOps.v
StoreHoare.v
StoreView.v
StoreInvOps.v
StoreWf.v
StoreExec.v
StoreMem.v
StoreWatch.v
EvictSpec.v
StoreSpec.v
StoreRefine.v
StoreRefineColl.v
StoreRefineKeys.v
StoreTrace.v
StoreQuirks.v
Session.v
Repl.v
ReplApply.v
CmdBase.v
CmdString.v
CmdHash.v
CmdList.v
CmdSet.v
CmdGeneric.v
CmdServer.v
CmdTxn.v
Conn.v
CmdFrame.v
CmdWithin.v
ConnInv.v
CmdReply.v
ConnSpec.v
TxnSpec.v
Sync.v
Converge.v
ConvergeAll.v
PeerWire.v
PeerWireSpec.v
PeerLinks.v
PeerLinksSpec.v
PeerGap.v
PeerGapSpec.v
PeerMembers.v
PeerMembersSpec.v
PeerAuth.v
PeerAuthSpec.v
PeerBoot.v
PeerBootSpec.v
PeerSession.v
PeerSessionSpec.v
Stats.v
Discovery.v
Lifecycle.v
LifecycleSpec.v
Mgmt.v
MgmtSpec.v
Program.v
