(* ===== verification/Prelude.v ===== *)
(** * Super-Cache, verified: a replicated in-memory cache, from its protocol to its programs.

    Super-Cache is a Redis-compatible in-memory cache in Go.  Clients speak RESP (internal/resp) over
    TCP; a connection (internal/server/conn.go) hands each request to the command handlers
    (internal/commands), which keep per-client state (internal/client) and call the sharded store
    (internal/store), whose limits come from the configuration (internal/config).  Handlers replicate
    what they change to the peers (internal/peer), which authenticate each other, transfer snapshots to
    nodes that join, and notice what gets lost.  The server (internal/server) decides when a node may
    serve; it finds its own address (internal/netid) and other nodes (internal/discovery), and is managed
    over a socket (internal/mgmt) by a command-line client (cmd/supercache-cli).  This development models
    those packages as Rocq functions and proves what makes them correct.

    ** Files

    The language and its library, as far as the sources use them:
    - [Prelude]: scopes, tactics, hint databases, generic lemmas.
    - [GoInt], [GoStr], [GoTime], [GoSort]: wrapping integers, [strconv], [strings], errors, [path.Match],
      [time], sorting.  [Json] and [JsonSpec]: [encoding/json], and that what it prints it reads back.
      [GoNet]: addresses of [net].  [GoCrypto]: SHA-256, HMAC and MD5, executable.

    The protocol and the settings:
    - [Resp] (internal/resp): the parser on a buffered stream, the writer.  [RespSpec]: the parser is total
      and inverts the writer, on pipelined input too.
    - [Config], [ConfigValid] (internal/config): settings, defaults, validation, peer lists, reload.
      [ConfigSpec]: what a configuration that loads guarantees, and what a reload cannot change.

    The store:
    - [StoreBase] (store.go, store_watch.go): shards, entries, LRU lists, byte counter, watch versions; the
      state monad [M].  [Eviction] (eviction.go, expiry.go): policies, memory guard, active expiry.
      [StoreString], [StoreHash], [StoreList], [StoreSet], [StoreKeys]: one definition per exported method
      of [Store], snapshots included.  [StoreOps]: the methods as one type [op] with [exec].
    - [StoreHoare], [StoreView], [StoreInvOps]: Hoare rules for [M] and the preservation lemmas of every
      operation, for any invariant of the classes [LooseInv] and [EvictInv].  Instances: [StoreWf]
      (well-formed shards), [StoreMem] (exact byte accounting), [StoreWatch] (watch versions).
      [StoreExec] composes them over sequences of calls.  [EvictSpec]: what the eviction policies and the
      memory guard do.
    - [StoreSpec]: the store as a relation on one finite map from keys to values with expiries;
      [StoreRefine], [StoreRefineColl], [StoreRefineKeys]: each method implements it; [StoreTrace]:
      sequences of calls, types kept apart, snapshots.  [StoreQuirks]: behaviour that surprises.

    Commands and connections:
    - [Session] (internal/client), [Repl] (internal/peer/replicator.go, apply.go), [CmdBase], [CmdString],
      [CmdHash], [CmdList], [CmdSet], [CmdGeneric], [CmdServer], [CmdTxn] (internal/commands): every handler, over
      a world of store, session, subscriptions, replicated payloads and output.  [Conn]
      (internal/server/conn.go): dispatch and the loop of a connection.
    - [CmdFrame], [CmdWithin], [CmdReply], [ConnInv]: every command stays within a frame and writes one reply.
      [ConnSpec]: a connection is a conversation of requests and replies, invariants whatever a client
      sends, nothing but counters moved without the password.  [TxnSpec]: MULTI, EXEC and WATCH.
    - [ReplApply], [Sync], [Converge], [ConvergeAll]: a relational logic for a primary and its replica, and
      that the payloads of a request reproduce its effect.

    Peers:
    - [PeerWire] (wire.go, protocol.go): messages and frames; [PeerWireSpec]: they read back as sent.
    - [PeerLinks] (service.go, shutdown_repl.go): links, queues, the choice of one link per node;
      [PeerLinksSpec]: a write is queued once per node.
    - [PeerGap] (resync.go): sequence numbers; [PeerGapSpec]: over arrivals and sweeps in any order,
      what does not come is reported and reordering is not.
    - [PeerMembers] (service.go, forget.go, peer_state.go): the peer list; [PeerMembersSpec].
    - [PeerAuth] (auth_crypto.go, service.go): both sides of the handshake; [PeerAuthSpec]: honest nodes meet,
      others do not get in.
    - [PeerBoot] (bootstrap.go, service.go): streaming and pulling snapshots; [PeerBootSpec]: the keyspace is
      transferred.
    - [PeerSession] (service.go, outbound.go, backoff.go): accepted and dialled connections, the worker pool;
      [PeerSessionSpec]: events keep their order, and a replica that reads a primary's frames converges.

    The server and the programs:
    - [NetId] (internal/netid, internal/server/nodeid.go), [NetIdSpec]: the address and identity of a node.
    - [Stats] (stats.go, metrics.go), [Discovery] (internal/discovery, internal/server/discovery.go).
    - [Lifecycle] (server.go, discovery.go): when clients are served, resyncs, reload, accept loop, shutdown.
      [LifecycleSpec]: the synchronisations that run side by side as a step relation that remembers how the
      last one ended; a node serves only when that entitles it to, and owes no resync it forgets.
    - [Mgmt] (internal/mgmt, internal/server/mgmt.go): the handlers over the classes [Handler] and
      [ExtendedHandler], their instance for a node, the client.  [MgmtSpec]: nothing without the secret,
      and a call brings back what the handler answered.
    - [Program] (cmd, internal/logging, internal/tlsconfig): start, logging, TLS, the command-line client.

    ** State, locks and time

    A [Store] is a record of 256 shards, the byte counter, the watch table, the eviction cursor, the policy
    and the limit.  The watch table holds the number of increments of each key; the 64-bit version is that
    number modulo 2^64.  Code under a shard lock is a function on the state.  Where a function holds no lock
    ([yield]), the environment [env] takes a step: its [tape] lists the steps other goroutines take, each an
    arbitrary function the theorems constrain to keep the invariant at hand.  Reading the clock and drawing
    random numbers consume further streams of the environment, and Go's map iteration order is the class
    [MapOrder]: any permutation.  Locks themselves are not state: that a critical section is atomic is the
    reading of [sync.Mutex].  The goroutines of the peer layer and of the server are steps of relations
    ([linkStep], [memberStep], [sysStep] and the like), in any order.

    Integers are [Z] with [wrap64], [wrapU64] and [wrapU32] where Go wraps.  A byte slice is an
    [option string]: nil differs from empty.  A run-time panic is a value of the model.  A connection is the
    bytes the other side sends until it closes, and the bytes written; writing to one never fails.

    ** Parameters

    What the sources get from outside is an argument: [MapOrder]; [Floats], the arithmetic and printing of
    float64 for INCRBYFLOAT and HINCRBYFLOAT, and [refloat], how a number literal comes out of one;
    [FileSystem]; [Host], what the system reports of interfaces, routes and names; [fetch], the cloud
    service; opening log files, loading certificates, dialling.

    ** Bounds

    The parsers of RESP and JSON recurse on the remaining bytes, which each call shortens.  The eviction
    loop, which in the code has no bound, ends here because the other goroutines take the steps of a finite
    tape: its two counters, the steps left on the tape and the keys left to evict, never run out.  That a
    longer tape means more turns, without limit, is a lemma of [EvictSpec].  The sampling loops and the
    pages of a cloud listing keep the source's bounds.  The loops that read frames take fuel of at least the
    length of the stream, since a frame is not empty.

    ** Not modelled

    Opening and accepting sockets, deadlines (one that passes is a stream that ends), TLS records, the
    goroutine of a link's writer and its drain deadline, tickers and cancelled contexts, the parsing of
    flags and of TOML and YAML files, signals, the HTTP server of the metrics: they are calls into
    libraries and the operating system.  Case mapping and comparison without case are those of ASCII, and
    the texts of JSON errors are one fixed text.  Memory exhaustion of the process, the fairness of the
    scheduler and steps of the wall clock are outside the model. *)

From stdpp Require Export gmap strings list fin_maps sets sorting.
From Stdlib Require Export ZArith Lia Ascii String.

#[global] Open Scope Z_scope.

(** ** Scopes, hint databases and tactics of the development *)

Declare Scope cache_scope.
Delimit Scope cache_scope with cache.
#[global] Open Scope cache_scope.

(** [cache] holds the lemmas that automate the common cases: preservation of invariants by the
    primitive operations, side conditions on shard indices and string facts. *)
Create HintDb cache discriminated.
Create HintDb cachedb.

(** Concatenation of byte strings, as Go's [+] on strings. *)
Notation "x +++ y" := (String.append x%string y%string)
  (at level 60, right associativity) : cache_scope.

(** Case analysis on every [match]/[if] head occurring in the goal or in a hypothesis. *)
Ltac split_match :=
  match goal with
  | |- context [match ?x with _ => _ end] => destruct x eqn:?
  | H : context [match ?x with _ => _ end] |- _ => destruct x eqn:?
  end.

(** Same, but only on the goal. *)
Ltac split_goal :=
  match goal with
  | |- context [match ?x with _ => _ end] => destruct x eqn:?
  end.

(** Turn boolean tests on [Z] and [nat] into propositions and call [lia]. *)
Ltac zify_bool :=
  repeat match goal with
  | H : (_ && _)%bool = true |- _ => apply andb_true_iff in H; destruct H
  | H : (_ || _)%bool = false |- _ => apply orb_false_iff in H; destruct H
  | H : negb _ = true |- _ => apply negb_true_iff in H
  | H : negb _ = false |- _ => apply negb_false_iff in H
  | H : (_ <=? _)%Z = true |- _ => apply Z.leb_le in H
  | H : (_ <=? _)%Z = false |- _ => apply Z.leb_gt in H
  | H : (_ <? _)%Z = true |- _ => apply Z.ltb_lt in H
  | H : (_ <? _)%Z = false |- _ => apply Z.ltb_ge in H
  | H : (_ =? _)%Z = true |- _ => apply Z.eqb_eq in H
  | H : (_ =? _)%Z = false |- _ => apply Z.eqb_neq in H
  | H : (_ >? _)%Z = true |- _ => apply Z.gtb_lt in H
  | H : (_ >? _)%Z = false |- _ => rewrite Z.gtb_ltb in H; apply Z.ltb_ge in H
  | H : (_ >=? _)%Z = true |- _ => apply Z.geb_le in H
  | H : (_ >=? _)%Z = false |- _ => rewrite Z.geb_leb in H; apply Z.leb_gt in H
  | H : (_ =? _)%string = true |- _ => apply String.eqb_eq in H
  | H : (_ =? _)%string = false |- _ => apply String.eqb_neq in H
  end.

Ltac zlia := zify_bool; lia.

(** ** Byte strings *)

#[global] Arguments String.append !_ _ / : simpl nomatch.

Section strings.
Implicit Types s t u : string.

Lemma sapp_nil_l s : EmptyString +++ s = s.
Proof. reflexivity. Qed.

Lemma sapp_nil_r s : s +++ EmptyString = s.
Proof. induction s as [|c s IH]; simpl; congruence. Qed.

Lemma sapp_assoc s t u : (s +++ t) +++ u = s +++ (t +++ u).
Proof. induction s as [|c s IH]; simpl; congruence. Qed.

Lemma sapp_cons c s t : String c s +++ t = String c (s +++ t).
Proof. reflexivity. Qed.

Lemma slength_app s t :
  String.length (s +++ t) = (String.length s + String.length t)%nat.
Proof. induction s as [|c s IH]; simpl; congruence. Qed.

Lemma slength_zero s : String.length s = 0%nat -> s = EmptyString.
Proof. destruct s; simpl; [done | lia]. Qed.

Lemma sapp_inj_l s t u : s +++ t = s +++ u -> t = u.
Proof. induction s as [|c s IH]; simpl; [done | intros [=]; auto]. Qed.
End strings.

#[export] Hint Rewrite sapp_nil_l sapp_nil_r sapp_assoc sapp_cons slength_app : cachedb.

(** Number of bytes of a string, as Go's [len]. *)
Definition len (s : string) : Z := Z.of_nat (String.length s).

Lemma len_nonneg s : 0 <= len s.
Proof. unfold len; lia. Qed.

Lemma len_app s t : len (s +++ t) = len s + len t.
Proof. unfold len; rewrite slength_app; lia. Qed.

Lemma len_zero s : len s = 0 -> s = EmptyString.
Proof. unfold len; intros; apply slength_zero; lia. Qed.

(** A predicate on every byte of a string. *)
Fixpoint sall (p : ascii -> bool) (s : string) : bool :=
  match s with
  | EmptyString => true
  | String c s => p c && sall p s
  end.

Lemma sall_app p s t : sall p (s +++ t) = sall p s && sall p t.
Proof. induction s as [|c s IH]; simpl; [done | rewrite IH; by rewrite andb_assoc]. Qed.

Lemma sall_impl (p q : ascii -> bool) s :
  (forall c, p c = true -> q c = true) -> sall p s = true -> sall q s = true.
Proof.
  intros Hpq; induction s as [|c s IH]; simpl; [done|].
  intros [Hc Hs]%andb_true_iff. rewrite (Hpq _ Hc). auto.
Qed.

(** ** Sublists *)

Lemma filter_sublist {A} (p : A -> bool) l : sublist (List.filter p l) l.
Proof. induction l as [|x l IH]; cbn; [done|]. destruct (p x); by constructor. Qed.

Lemma Forall_sublist {A} (P : A -> Prop) l k : sublist l k -> Forall P k -> Forall P l.
Proof. induction 1; rewrite ?Forall_cons; naive_solver. Qed.

(** ** Sums of integers over lists and finite maps *)

Definition zsum (l : list Z) : Z := foldr Z.add 0 l.

Lemma zsum_app l k : zsum (l ++ k) = zsum l + zsum k.
Proof. induction l as [|x l IH]; simpl; lia. Qed.

Lemma zsum_perm l k : l ≡ₚ k -> zsum l = zsum k.
Proof. induction 1; simpl; lia. Qed.

Lemma zsum_nonneg l : Forall (Z.le 0) l -> 0 <= zsum l.
Proof. induction 1; simpl; lia. Qed.

(** Sum of [f k v] over the bindings of a map. *)
Definition msum {V} (f : string -> V -> Z) (m : gmap string V) : Z :=
  zsum (map (fun kv => f (fst kv) (snd kv)) (map_to_list m)).

Section msum.
Context {V : Type} (f : string -> V -> Z).
Implicit Types m : gmap string V.

Lemma msum_empty : msum f ∅ = 0.
Proof. unfold msum. by rewrite map_to_list_empty. Qed.

Lemma msum_insert_new m k v :
  m !! k = None -> msum f (<[k:=v]> m) = f k v + msum f m.
Proof.
  intros Hk. unfold msum.
  by rewrite (zsum_perm _ _ (Permutation_map _ (map_to_list_insert m k v Hk))).
Qed.

Lemma msum_delete m k v :
  m !! k = Some v -> msum f (delete k m) = msum f m - f k v.
Proof.
  intros Hk.
  assert (msum f m = f k v + msum f (delete k m)) as ->.
  { rewrite <- msum_insert_new by apply lookup_delete_eq.
    by rewrite insert_delete_eq, insert_id. }
  lia.
Qed.

Lemma msum_insert m k v :
  msum f (<[k:=v]> m) =
    f k v + msum f m - match m !! k with Some v0 => f k v0 | None => 0 end.
Proof.
  destruct (m !! k) as [v0|] eqn:Hk.
  - rewrite <- insert_delete_eq, msum_insert_new by apply lookup_delete_eq.
    rewrite (msum_delete _ _ _ Hk). lia.
  - rewrite msum_insert_new by done. lia.
Qed.

Lemma msum_nonneg m : (forall k v, 0 <= f k v) -> 0 <= msum f m.
Proof.
  intros Hf. apply zsum_nonneg, Forall_map, Forall_true. intros [k v]; apply Hf.
Qed.

(** Any single binding is bounded by the sum of nonnegative weights. *)
Lemma msum_ge m k v :
  (forall k v, 0 <= f k v) -> m !! k = Some v -> f k v <= msum f m.
Proof.
  intros Hf Hk. pose proof (msum_delete _ _ _ Hk).
  pose proof (msum_nonneg (delete k m) Hf). lia.
Qed.
End msum.
