(* ===== verification/GoInt.v ===== *)
(** * Machine integers and [strconv], as the Go sources use them.

    [int], [int64] and [uint64] values are [Z] with the wrap-around written out where the source
    can overflow; [ParseInt], [ParseUint] and [FormatInt] follow the loops of package [strconv]
    for base 10 and 64 bits. *)

From S2P Require Import Prelude.

(** ** Widths *)

Definition MaxInt64 : Z := 9223372036854775807.
Definition MinInt64 : Z := -9223372036854775808.
Definition MaxUint64 : Z := 18446744073709551615.

(** Two's complement reading of the low 64 bits, as Go's conversion to [int64]. *)
Definition wrap64 (z : Z) : Z := (z + 2 ^ 63) mod 2 ^ 64 - 2 ^ 63.
Definition wrapU64 (z : Z) : Z := z mod 2 ^ 64.
Definition wrapU32 (z : Z) : Z := z mod 2 ^ 32.

Definition is_int64 (z : Z) : bool := (MinInt64 <=? z) && (z <=? MaxInt64).

Lemma wrap64_id z : is_int64 z = true -> wrap64 z = z.
Proof.
  unfold is_int64, wrap64, MinInt64, MaxInt64. intros H; zify_bool.
  rewrite Z.mod_small; lia.
Qed.

Lemma wrap64_range z : is_int64 (wrap64 z) = true.
Proof.
  unfold is_int64, wrap64, MinInt64, MaxInt64.
  pose proof (Z.mod_pos_bound (z + 2 ^ 63) (2 ^ 64) ltac:(lia)).
  apply andb_true_iff; rewrite !Z.leb_le; lia.
Qed.

(** ** Bytes *)

Definition code (c : ascii) : Z := Z.of_N (N_of_ascii c).
Definition chr (z : Z) : ascii := ascii_of_N (Z.to_N z).

Lemma code_chr z : 0 <= z < 256 -> code (chr z) = z.
Proof.
  intros H. unfold code, chr. rewrite N_ascii_embedding by lia. lia.
Qed.

Lemma code_range c : 0 <= code c < 256.
Proof. unfold code. pose proof (N_ascii_bounded c). lia. Qed.

Lemma code_inj c d : code c = code d -> c = d.
Proof.
  unfold code. intros H.
  rewrite <- (ascii_N_embedding c), <- (ascii_N_embedding d). f_equal. lia.
Qed.

(** ** [strconv] *)

Definition is_digit (c : ascii) : bool := (48 <=? code c) && (code c <=? 57).

Inductive numErr := ErrSyntax | ErrRange.

#[global] Instance numErr_eq_dec : EqDecision numErr.
Proof. solve_decision. Defined.

Definition cutoffU64 : Z := 1844674407370955162.  (* MaxUint64/10 + 1 *)

(** The digit loop of [strconv.ParseUint(s, 10, 64)]. *)
Fixpoint parseUintLoop (s : string) (n : Z) : numErr + Z :=
  match s with
  | EmptyString => inr n
  | String c s =>
      if is_digit c then
        if n >=? cutoffU64 then inl ErrRange
        else
          let n1 := n * 10 + (code c - 48) in
          if n1 >? MaxUint64 then inl ErrRange else parseUintLoop s n1
      else inl ErrSyntax
  end.

Definition ParseUint (s : string) : numErr + Z :=
  match s with
  | EmptyString => inl ErrSyntax
  | _ => parseUintLoop s 0
  end.

Definition cutoffInt64 : Z := 9223372036854775808.

(** [strconv.ParseInt(s, 10, 64)]: optional sign, then the unsigned loop and a range check. *)
Definition ParseInt (s : string) : numErr + Z :=
  match s with
  | EmptyString => inl ErrSyntax
  | String c r =>
      let neg := (code c =? 45) in
      let digits := if neg || (code c =? 43) then r else s in
      match ParseUint digits with
      | inl ErrSyntax => inl ErrSyntax
      | inl ErrRange => inl ErrRange
      | inr un =>
          if negb neg && (un >=? cutoffInt64) then inl ErrRange
          else if neg && (un >? cutoffInt64) then inl ErrRange
          else inr (if neg then - un else un)
      end
  end.

(** [strconv.FormatUint]/[FormatInt] in base 10; 20 digits cover 64 bits. *)
Fixpoint fmtDigits (fuel : nat) (n : Z) (acc : string) : string :=
  match fuel with
  | O => acc
  | S fuel =>
      let acc := String (chr (48 + n mod 10)) acc in
      if n <? 10 then acc else fmtDigits fuel (n / 10) acc
  end.

Definition FormatUint (n : Z) : string := fmtDigits 20 n EmptyString.

Definition FormatInt (n : Z) : string :=
  if n <? 0 then String "-" (FormatUint (- n)) else FormatUint n.

(** *** Round trip *)

Lemma is_digit_chr d : 0 <= d < 10 -> is_digit (chr (48 + d)) = true.
Proof.
  intros. unfold is_digit. rewrite code_chr by lia.
  apply andb_true_iff; rewrite !Z.leb_le; lia.
Qed.

Lemma parseUintLoop_digit d s n :
  0 <= d < 10 -> 0 <= n -> n * 10 + d <= MaxUint64 ->
  parseUintLoop (String (chr (48 + d)) s) n = parseUintLoop s (n * 10 + d).
Proof.
  unfold MaxUint64. intros Hd Hn Hmax. simpl. rewrite is_digit_chr, code_chr by lia.
  unfold cutoffU64, MaxUint64.
  replace (48 + d - 48) with d by lia.
  destruct (n >=? _) eqn:E1; [zlia|]. destruct (_ >? _) eqn:E2; [zlia|]. done.
Qed.

Lemma parseUintLoop_fmtDigits fuel n acc :
  (0 < fuel)%nat -> 0 <= n < 10 ^ Z.of_nat fuel -> n <= MaxUint64 ->
  parseUintLoop (fmtDigits fuel n acc) 0 = parseUintLoop acc n.
Proof.
  revert n acc. induction fuel as [|fuel IH]; intros n acc Hf Hn Hmax; [lia|].
  simpl fmtDigits. pose proof (Z.mod_pos_bound n 10 ltac:(lia)).
  destruct (n <? 10) eqn:E; zify_bool.
  - rewrite parseUintLoop_digit by (unfold MaxUint64; lia).
    rewrite Z.mod_small by lia. f_equal; lia.
  - pose proof (Z.div_mod n 10 ltac:(lia)).
    assert (0 < fuel)%nat.
    { destruct fuel; [|lia]. change (10 ^ Z.of_nat 1) with 10 in Hn. lia. }
    replace (Z.of_nat (S fuel)) with (Z.succ (Z.of_nat fuel)) in Hn by lia.
    rewrite Z.pow_succ_r in Hn by lia.
    rewrite IH; [|done| split; [apply Z.div_pos; lia | apply Z.div_lt_upper_bound; lia]
                 | unfold MaxUint64 in *; lia].
    rewrite parseUintLoop_digit by (unfold MaxUint64 in *; lia). f_equal; lia.
Qed.

Lemma fmtDigits_digits fuel n acc :
  0 <= n -> sall is_digit acc = true -> sall is_digit (fmtDigits fuel n acc) = true.
Proof.
  revert n acc. induction fuel as [|fuel IH]; intros n acc Hn Hacc; simpl; [done|].
  pose proof (Z.mod_pos_bound n 10 ltac:(lia)).
  assert (sall is_digit (String (chr (48 + n mod 10)) acc) = true) as Hd.
  { simpl. rewrite is_digit_chr by lia. done. }
  destruct (n <? 10); [done|]. apply IH; [apply Z.div_pos; lia | done].
Qed.

Lemma fmtDigits_cons fuel n acc :
  exists c s, fmtDigits (S fuel) n acc = String c s.
Proof.
  revert n acc. induction fuel as [|fuel IH]; intros n acc.
  - simpl. destruct (n <? 10); eauto.
  - change (fmtDigits (S (S fuel)) n acc) with
      (let acc := String (chr (48 + n mod 10)) acc in
       if n <? 10 then acc else fmtDigits (S fuel) (n / 10) acc).
    cbv zeta. destruct (n <? 10); [eauto|]. apply IH.
Qed.

Lemma FormatUint_digits n : 0 <= n -> sall is_digit (FormatUint n) = true.
Proof. intros. by apply fmtDigits_digits. Qed.

Lemma FormatUint_cons n : exists c s, FormatUint n = String c s.
Proof. apply fmtDigits_cons. Qed.

Lemma ParseUint_FormatUint n :
  0 <= n <= MaxUint64 -> ParseUint (FormatUint n) = inr n.
Proof.
  intros Hn. unfold ParseUint. destruct (FormatUint_cons n) as (c & s & E).
  rewrite E, <- E. unfold FormatUint. rewrite parseUintLoop_fmtDigits; [done|lia| |lia].
  change (10 ^ Z.of_nat 20) with 100000000000000000000. unfold MaxUint64 in Hn. lia.
Qed.

Lemma FormatUint_head n :
  0 <= n -> exists c s, FormatUint n = String c s /\ is_digit c = true.
Proof.
  intros Hn. destruct (FormatUint_cons n) as (c & s & E).
  pose proof (FormatUint_digits n Hn) as Hd. rewrite E in Hd. simpl in Hd.
  apply andb_true_iff in Hd as [Hc _]. eauto.
Qed.

Lemma ParseInt_FormatInt n : is_int64 n = true -> ParseInt (FormatInt n) = inr n.
Proof.
  unfold is_int64, MinInt64, MaxInt64. intros Hn; zify_bool.
  unfold FormatInt. destruct (n <? 0) eqn:E; zify_bool.
  - simpl ParseInt. rewrite ParseUint_FormatUint by (unfold MaxUint64; lia).
    unfold cutoffInt64. simpl. destruct (_ >? _) eqn:E2; [zlia|]. f_equal; lia.
  - destruct (FormatUint_head n ltac:(lia)) as (c & s & Hs & Hc).
    unfold ParseInt. rewrite Hs. unfold is_digit in Hc. zify_bool.
    destruct (code c =? 45) eqn:E1; [zlia|]. destruct (code c =? 43) eqn:E2; [zlia|].
    cbn [orb negb andb]. rewrite <- Hs, ParseUint_FormatUint by (unfold MaxUint64; lia).
    unfold cutoffInt64. destruct (_ >=? _) eqn:E3; [zlia|]. done.
Qed.

(** Every successful parse yields a value of the type. *)
Lemma parseUintLoop_range s n r :
  0 <= n -> parseUintLoop s n = inr r -> 0 <= r <= MaxUint64 \/ r = n.
Proof.
  revert n. induction s as [|c s IH]; simpl; intros n Hn H; [right; congruence|].
  destruct (is_digit c) eqn:Ec; [|done]. unfold is_digit in Ec. zify_bool.
  destruct (n >=? cutoffU64) eqn:E1; [done|]. destruct (_ >? MaxUint64) eqn:E2; [done|].
  zify_bool. apply IH in H; lia.
Qed.

Lemma ParseUint_range s r : ParseUint s = inr r -> 0 <= r <= MaxUint64.
Proof.
  unfold ParseUint. destruct s as [|c s]; [done|]. intros H.
  apply parseUintLoop_range in H; unfold MaxUint64 in *; lia.
Qed.

Lemma ParseInt_range s r : ParseInt s = inr r -> is_int64 r = true.
Proof.
  unfold ParseInt. destruct s as [|c s]; [done|].
  destruct (ParseUint _) as [[]|un] eqn:E; try done.
  apply ParseUint_range in E. unfold is_int64, MinInt64, MaxInt64, cutoffInt64, MaxUint64 in *.
  destruct (code c =? 45); simpl.
  - destruct (un >? _) eqn:E2; [done|]. intros [= <-]. zify_bool.
    apply andb_true_iff; rewrite !Z.leb_le; lia.
  - destruct (un >=? _) eqn:E2; [done|]. intros [= <-]. zify_bool.
    apply andb_true_iff; rewrite !Z.leb_le; lia.
Qed.
