(* ===== verification/GoStr.v ===== *)
(** * Package [strings], byte slices and errors, as the Go sources use them.

    A Go [string] is a [string] of bytes.  A [[]byte] is an [option string]: [None] is the nil
    slice, which the handlers distinguish from an empty one.  Case mapping is that of ASCII
    letters; white space is Unicode's [White_Space] in UTF-8, the set [strings.TrimSpace] and
    [strings.Fields] use. *)

From S2P Require Import Prelude GoInt.

(** ** Byte slices *)

Definition slice : Type := option string.

(** The bytes of a slice; a nil slice has none. *)
Definition sbytes (b : slice) : string := default EmptyString b.

(** [append([]byte(nil), b...)]: the copy is nil when there is nothing to append. *)
Definition cloneBytes (b : slice) : slice :=
  match sbytes b with
  | EmptyString => None
  | s => Some s
  end.

Definition slen (b : slice) : Z := len (sbytes b).

Lemma cloneBytes_bytes b : sbytes (cloneBytes b) = sbytes b.
Proof. unfold cloneBytes. by destruct (sbytes b). Qed.

Lemma cloneBytes_nil b : cloneBytes b = None <-> sbytes b = EmptyString.
Proof. unfold cloneBytes. destruct (sbytes b); by split. Qed.

Lemma cloneBytes_idemp b : cloneBytes (cloneBytes b) = cloneBytes b.
Proof. unfold cloneBytes. destruct (sbytes b) eqn:E; [done|]. simpl. by destruct s. Qed.

(** Slices the store keeps: copies, so nil exactly when empty. *)
Definition slice_wf (b : slice) : Prop := cloneBytes b = b.

Lemma slice_wf_clone b : slice_wf (cloneBytes b).
Proof. apply cloneBytes_idemp. Qed.

Lemma slen_clone b : slen (cloneBytes b) = slen b.
Proof. unfold slen. by rewrite cloneBytes_bytes. Qed.

(** [bytes.Equal]. *)
Definition bytesEqual (a b : slice) : bool := (sbytes a =? sbytes b)%string.

(** ** Substrings *)

Fixpoint sdrop (n : nat) (s : string) : string :=
  match n, s with
  | O, _ => s
  | S n, EmptyString => EmptyString
  | S n, String _ s => sdrop n s
  end.

Fixpoint stake (n : nat) (s : string) : string :=
  match n, s with
  | O, _ => EmptyString
  | S n, EmptyString => EmptyString
  | S n, String c s => String c (stake n s)
  end.

Fixpoint srev_onto (s acc : string) : string :=
  match s with
  | EmptyString => acc
  | String c s => srev_onto s (String c acc)
  end.

Definition srev (s : string) : string := srev_onto s EmptyString.

Fixpoint hasPrefix (p s : string) : bool :=
  match p, s with
  | EmptyString, _ => true
  | String a p, String b s => Ascii.eqb a b && hasPrefix p s
  | _, EmptyString => false
  end.

(** [strings.Contains]. *)
Fixpoint contains (sub s : string) : bool :=
  hasPrefix sub s || match s with
                     | EmptyString => false
                     | String _ s => contains sub s
                     end.

(** [strings.IndexByte(s, c) >= 0]. *)
Fixpoint containsByte (c : ascii) (s : string) : bool :=
  match s with
  | EmptyString => false
  | String d s => Ascii.eqb c d || containsByte c s
  end.

Lemma srev_onto_app s t acc : srev_onto (s +++ t) acc = srev_onto t (srev_onto s acc).
Proof. revert acc. induction s as [|c s IH]; intros acc; simpl; auto. Qed.

Lemma srev_onto_spec s acc : srev_onto s acc = srev s +++ acc.
Proof.
  revert acc. unfold srev. induction s as [|c s IH]; intros acc; simpl; [done|].
  rewrite (IH (String c acc)), (IH (String c EmptyString)), sapp_assoc. done.
Qed.

Lemma srev_cons c s : srev (String c s) = srev s +++ String c EmptyString.
Proof. unfold srev. simpl. apply srev_onto_spec. Qed.

Lemma srev_app s t : srev (s +++ t) = srev t +++ srev s.
Proof. unfold srev at 1. rewrite srev_onto_app. apply srev_onto_spec. Qed.

Lemma srev_involutive s : srev (srev s) = s.
Proof.
  induction s as [|c s IH]; [done|]. rewrite srev_cons, srev_app, IH. done.
Qed.

Lemma sall_srev p s : sall p (srev s) = sall p s.
Proof.
  induction s as [|c s IH]; [done|]. rewrite srev_cons, sall_app, IH. simpl.
  rewrite andb_true_r, andb_comm. done.
Qed.

Lemma stake_app s t : stake (String.length s) (s +++ t) = s.
Proof. induction s as [|c s IH]; simpl; congruence. Qed.

Lemma sdrop_app s t : sdrop (String.length s) (s +++ t) = t.
Proof. induction s as [|c s IH]; simpl; congruence. Qed.

Lemma stake_sdrop n s : stake n s +++ sdrop n s = s.
Proof. revert s. induction n as [|n IH]; intros [|c s]; simpl; try done. by rewrite IH. Qed.

Lemma slength_sdrop n s :
  String.length (sdrop n s) = (String.length s - n)%nat.
Proof. revert s. induction n as [|n IH]; intros [|c s]; simpl; auto. Qed.

Lemma slength_stake n s :
  String.length (stake n s) = Nat.min n (String.length s).
Proof. revert s. induction n as [|n IH]; intros [|c s]; simpl; auto. Qed.

(** ** Case mapping *)

Definition upperByte (c : ascii) : ascii :=
  if (97 <=? code c) && (code c <=? 122) then chr (code c - 32) else c.
Definition lowerByte (c : ascii) : ascii :=
  if (65 <=? code c) && (code c <=? 90) then chr (code c + 32) else c.

Fixpoint smap (f : ascii -> ascii) (s : string) : string :=
  match s with
  | EmptyString => EmptyString
  | String c s => String (f c) (smap f s)
  end.

Definition ToUpper : string -> string := smap upperByte.
Definition ToLower : string -> string := smap lowerByte.

Definition EqualFold (s t : string) : bool := (ToLower s =? ToLower t)%string.

Lemma smap_idemp f s : (forall c, f (f c) = f c) -> smap f (smap f s) = smap f s.
Proof. intros Hf. induction s as [|c s IH]; simpl; [done|]. by rewrite Hf, IH. Qed.

Lemma lowerByte_idemp c : lowerByte (lowerByte c) = lowerByte c.
Proof.
  unfold lowerByte at 2 3. destruct (_ && _)%bool eqn:E; zify_bool.
  - unfold lowerByte. rewrite code_chr by lia.
    destruct (_ && _)%bool eqn:E2; zify_bool; [lia|done].
  - unfold lowerByte. by rewrite E.
Qed.

Lemma lowerByte_upperByte c : lowerByte (upperByte c) = lowerByte c.
Proof.
  unfold upperByte. destruct ((97 <=? code c) && _)%bool eqn:E; [|done]; zify_bool.
  unfold lowerByte. rewrite code_chr by lia.
  destruct ((65 <=? code c - 32) && _)%bool eqn:E1; zify_bool.
  - destruct ((65 <=? code c) && _)%bool eqn:E2; zify_bool; [lia|].
    apply code_inj. rewrite code_chr by lia. lia.
  - apply andb_false_iff in E1 as [E1|E1]; zify_bool; lia.
Qed.

Lemma ToLower_idemp s : ToLower (ToLower s) = ToLower s.
Proof. apply smap_idemp, lowerByte_idemp. Qed.

Lemma ToLower_ToUpper s : ToLower (ToUpper s) = ToLower s.
Proof.
  unfold ToLower, ToUpper. induction s as [|c s IH]; simpl; [done|].
  by rewrite lowerByte_upperByte, IH.
Qed.

(** ** White space *)

Definition asciiSpace (c : ascii) : bool :=
  ((9 <=? code c) && (code c <=? 13)) || (code c =? 32).

(** Two- and three-byte encodings of the other [White_Space] runes: U+0085, U+00A0, U+1680,
    U+2000..U+200A, U+2028, U+2029, U+202F, U+205F and U+3000. *)
Definition space2 (a b : ascii) : bool :=
  (code a =? 0xC2) && ((code b =? 0x85) || (code b =? 0xA0)).
Definition space3 (a b c : ascii) : bool :=
  ((code a =? 0xE1) && (code b =? 0x9A) && (code c =? 0x80)) ||
  ((code a =? 0xE2) && (code b =? 0x80) &&
     (((0x80 <=? code c) && (code c <=? 0x8A)) || (code c =? 0xA8) || (code c =? 0xA9)
      || (code c =? 0xAF))) ||
  ((code a =? 0xE2) && (code b =? 0x81) && (code c =? 0x9F)) ||
  ((code a =? 0xE3) && (code b =? 0x80) && (code c =? 0x80)).

(** Number of bytes of the white-space rune at the start of [s], 0 when there is none. *)
Definition spaceLen (s : string) : nat :=
  match s with
  | EmptyString => 0
  | String a r =>
      if asciiSpace a then 1
      else match r with
           | EmptyString => 0
           | String b r =>
               if space2 a b then 2
               else match r with
                    | EmptyString => 0
                    | String c _ => if space3 a b c then 3 else 0
                    end
           end
  end%nat.

(** The same at the end of a string given reversed. *)
Definition spaceLenRev (s : string) : nat :=
  match s with
  | EmptyString => 0
  | String a r =>
      if asciiSpace a then 1
      else match r with
           | EmptyString => 0
           | String b r =>
               if space2 b a then 2
               else match r with
                    | EmptyString => 0
                    | String c _ => if space3 c b a then 3 else 0
                    end
           end
  end%nat.

Fixpoint trimWith (f : string -> nat) (fuel : nat) (s : string) : string :=
  match fuel with
  | O => s
  | S fuel => match f s with
              | O => s
              | n => trimWith f fuel (sdrop n s)
              end
  end.

(** [strings.TrimSpace]; one rune goes per step, so the length is fuel enough. *)
Definition TrimSpace (s : string) : string :=
  let l := trimWith spaceLen (String.length s) s in
  srev (trimWith spaceLenRev (String.length l) (srev l)).

(** The field read so far, held reversed. *)
Definition flushField (cur : string) : list string :=
  match cur with EmptyString => [] | _ => [srev cur] end.

(** [strings.Fields]. *)
Fixpoint fieldsLoop (fuel : nat) (s cur : string) : list string :=
  match fuel with
  | O => flushField cur
  | S fuel =>
      match s with
      | EmptyString => flushField cur
      | String c r =>
          match spaceLen s with
          | O => fieldsLoop fuel r (String c cur)
          | n => flushField cur ++ fieldsLoop fuel (sdrop n s) EmptyString
          end
      end
  end.

Definition Fields (s : string) : list string :=
  fieldsLoop (S (String.length s)) s EmptyString.

Lemma slength_srev s : String.length (srev s) = String.length s.
Proof.
  induction s as [|c s IH]; [done|]. rewrite srev_cons, slength_app, IH. simpl. lia.
Qed.

Lemma flushField_total cur :
  Forall (fun f => 0 < len f) (flushField cur) /\ zsum (map len (flushField cur)) = len cur.
Proof.
  destruct cur as [|c cur]; [by split; [constructor|]|]. unfold len; simpl.
  rewrite slength_srev. simpl. split; [constructor; [|constructor]|]; rewrite ?slength_srev; simpl; lia.
Qed.

(** Fields are not empty and together no longer than the input. *)
Lemma fieldsLoop_total fuel s cur :
  Forall (fun f => 0 < len f) (fieldsLoop fuel s cur) /\
  zsum (map len (fieldsLoop fuel s cur)) <= len s + len cur.
Proof.
  revert s cur. induction fuel as [|fuel IH]; intros s cur; cbn [fieldsLoop];
    destruct (flushField_total cur) as [Hf Hz]; pose proof (len_nonneg s).
  { split; [done|lia]. }
  destruct s as [|c s]; [split; [done|lia]|].
  destruct (spaceLen (String c s)) as [|n] eqn:Hn.
  - destruct (IH s (String c cur)) as [? Hs]. split; [done|]. unfold len in *; simpl in *; lia.
  - destruct (IH (sdrop (S n) (String c s)) EmptyString) as [? Hs]. split; [by apply Forall_app|].
    rewrite map_app, zsum_app, Hz. unfold len in *. rewrite slength_sdrop in Hs. simpl in *; lia.
Qed.

Lemma trimWith_length f fuel s : (String.length (trimWith f fuel s) <= String.length s)%nat.
Proof.
  revert s. induction fuel as [|fuel IH]; intros s; cbn [trimWith]; [done|].
  destruct (f s) as [|n]; [done|]. etransitivity; [apply IH|]. rewrite slength_sdrop. lia.
Qed.

Lemma TrimSpace_length s : len (TrimSpace s) <= len s.
Proof.
  unfold TrimSpace, len. rewrite slength_srev.
  pose proof (trimWith_length spaceLen (String.length s) s).
  match goal with |- context [trimWith spaceLenRev ?n ?x] =>
    pose proof (trimWith_length spaceLenRev n x) as H1 end.
  rewrite slength_srev in H1. lia.
Qed.

(** Printable ASCII other than the space: bytes no trimming touches. *)
Definition graphic (c : ascii) : bool := (33 <=? code c) && (code c <=? 126).

Lemma graphic_not_space c : graphic c = true -> asciiSpace c = false.
Proof.
  unfold graphic, asciiSpace. intros H; zify_bool.
  apply orb_false_iff; split; [apply andb_false_iff; right; apply Z.leb_gt; lia|].
  apply Z.eqb_neq; lia.
Qed.

Lemma spaceLen_graphic c s : graphic c = true -> spaceLen (String c s) = 0%nat.
Proof.
  intros Hc. simpl. rewrite (graphic_not_space _ Hc). unfold graphic in Hc. zify_bool.
  destruct s as [|b s]; [done|]. unfold space2.
  assert (code c =? 0xC2 = false) as -> by (apply Z.eqb_neq; lia). simpl.
  destruct s as [|d s]; [done|]. unfold space3.
  assert (code c =? 0xE1 = false) as -> by (apply Z.eqb_neq; lia).
  assert (code c =? 0xE2 = false) as -> by (apply Z.eqb_neq; lia).
  assert (code c =? 0xE3 = false) as -> by (apply Z.eqb_neq; lia). done.
Qed.

Lemma spaceLenRev_graphic c s : graphic c = true -> spaceLenRev (String c s) = 0%nat.
Proof.
  intros Hc. simpl. rewrite (graphic_not_space _ Hc). unfold graphic in Hc. zify_bool.
  destruct s as [|b s]; [done|]. unfold space2.
  assert (code c =? 0x85 = false) as -> by (apply Z.eqb_neq; lia).
  assert (code c =? 0xA0 = false) as -> by (apply Z.eqb_neq; lia).
  rewrite andb_false_r. destruct s as [|d s]; [done|]. unfold space3.
  assert (code c =? 0x80 = false) as -> by (apply Z.eqb_neq; lia).
  assert (0x80 <=? code c = false) as -> by (apply Z.leb_gt; lia).
  assert (code c =? 0xA8 = false) as -> by (apply Z.eqb_neq; lia).
  assert (code c =? 0xA9 = false) as -> by (apply Z.eqb_neq; lia).
  assert (code c =? 0xAF = false) as -> by (apply Z.eqb_neq; lia).
  assert (code c =? 0x9F = false) as -> by (apply Z.eqb_neq; lia).
  by rewrite !andb_false_r.
Qed.

Lemma trimWith_graphic f fuel s :
  (forall c r, graphic c = true -> f (String c r) = 0%nat) -> f EmptyString = 0%nat ->
  sall graphic s = true -> trimWith f fuel s = s.
Proof.
  intros Hf H0 Hs. destruct fuel as [|fuel]; [done|]. simpl.
  destruct s as [|c s]; [by rewrite H0|]. simpl in Hs.
  apply andb_true_iff in Hs as [Hc _]. by rewrite Hf.
Qed.

Lemma TrimSpace_graphic s : sall graphic s = true -> TrimSpace s = s.
Proof.
  intros Hs. unfold TrimSpace.
  rewrite (trimWith_graphic spaceLen) by (done || auto using spaceLen_graphic).
  rewrite (trimWith_graphic spaceLenRev)
    by (done || auto using spaceLenRev_graphic || by rewrite sall_srev).
  apply srev_involutive.
Qed.

Lemma FormatInt_graphic n : is_int64 n = true -> sall graphic (FormatInt n) = true.
Proof.
  unfold is_int64, MinInt64, MaxInt64. intros Hn; zify_bool.
  assert (forall c, is_digit c = true -> graphic c = true) as Hd.
  { intros c. unfold is_digit, graphic. intros Hc; zify_bool.
    apply andb_true_iff; rewrite !Z.leb_le; lia. }
  unfold FormatInt. destruct (n <? 0) eqn:E; zify_bool; simpl;
    apply (sall_impl is_digit graphic _ Hd), FormatUint_digits; lia.
Qed.

Lemma TrimSpace_FormatInt n : is_int64 n = true -> TrimSpace (FormatInt n) = FormatInt n.
Proof. intros. by apply TrimSpace_graphic, FormatInt_graphic. Qed.

(** ** [strconv.Quote] on the bytes the error messages quote

    ASCII is exact; a byte above 0x7F is written as an escape. *)

Definition hexDigit (n : Z) : ascii := chr (if n <? 10 then 48 + n else 87 + n).

Definition quoteByte (c : ascii) : string :=
  let x := code c in
  if (x =? 34) || (x =? 92) then String "\" (String c EmptyString)
  else if (32 <=? x) && (x <=? 126) then String c EmptyString
  else if x =? 7 then "\a" else if x =? 8 then "\b" else if x =? 12 then "\f"
  else if x =? 10 then "\n" else if x =? 13 then "\r" else if x =? 9 then "\t"
  else if x =? 11 then "\v"
  else String "\" (String "x" (String (hexDigit (x / 16)) (String (hexDigit (x mod 16)) EmptyString))).

Definition quoteMark : string := String (chr 34) EmptyString.

Fixpoint quoteBytes (s : string) : string :=
  match s with
  | EmptyString => EmptyString
  | String c s => quoteByte c +++ quoteBytes s
  end.

Definition Quote (s : string) : string := quoteMark +++ quoteBytes s +++ quoteMark.

(** ** Errors: a text and the sentinel the chain wraps

    [errors.Is] looks for a sentinel along the chain of [%w] wrappings and [err.Error()] is the
    text with every wrapper's prefix: an error is the pair of the two. *)

(** The sentinel errors of the sources and of the standard library they test for. *)
Inductive sentinel :=
  | EOF | ErrUnexpectedEOF
  | ErrNumSyntax | ErrNumRange
  | ErrWrongType | ErrOOM | ErrNoSuchKey | ErrListRange
  | ErrNoPeerLink.

#[global] Instance sentinel_eq_dec : EqDecision sentinel.
Proof. solve_decision. Defined.

Record error := mkError { errText : string; errIs : option sentinel }.

#[global] Instance error_eq_dec : EqDecision error.
Proof. solve_decision. Defined.

(** [errors.New] / [fmt.Errorf] without a wrapped error. *)
Definition New (s : string) : error := mkError s None.

(** [fmt.Errorf(prefix + "%w", err)]. *)
Definition wrapErr (prefix : string) (e : error) : error :=
  mkError (prefix +++ errText e) (errIs e).

(** [errors.Is]. *)
Definition Is (e : error) (s : sentinel) : bool := bool_decide (errIs e = Some s).

Definition io_EOF : error := mkError "EOF" (Some EOF).
Definition io_ErrUnexpectedEOF : error := mkError "unexpected EOF" (Some ErrUnexpectedEOF).

(** [*strconv.NumError] of [ParseInt(s, 10, 64)]. *)
Definition numError (s : string) (e : numErr) : error :=
  match e with
  | ErrSyntax =>
      mkError ("strconv.ParseInt: parsing " +++ Quote s +++ ": invalid syntax") (Some ErrNumSyntax)
  | ErrRange =>
      mkError ("strconv.ParseInt: parsing " +++ Quote s +++ ": value out of range") (Some ErrNumRange)
  end.

(** Results of fallible code. *)
Notation res A := (error + A)%type.

Definition rbind {A B} (x : res A) (f : A -> res B) : res B :=
  match x with inl e => inl e | inr a => f a end.

(** [if err != nil { return fmt.Errorf(prefix + "%w", err) }]. *)
Definition rwrap {A} (prefix : string) (x : res A) : res A :=
  match x with inl e => inl (wrapErr prefix e) | inr a => inr a end.

(** Code that may panic; no handler of the sources recovers, so a panic ends the process. *)
Inductive outcome (A : Type) := Ret (a : A) | Panic.
Arguments Ret {A} a.
Arguments Panic {A}.

(** [make([]T, 0, cap)] for a [T] of [size] bytes panics when the array cannot be addressed; the
    runtime's limit on 64-bit platforms is 2^48 bytes. *)
Definition maxAlloc : Z := 2 ^ 48.
Definition canMake (size cap : Z) : bool := (0 <=? cap) && (size * cap <=? maxAlloc).
