(* ===== verification/GoTime.v ===== *)
(** * Package [time] and [path.Match], as the Go sources use them. *)

From S2P Require Import Prelude GoInt GoStr.

(** ** Instants and durations

    An instant is the number of nanoseconds since Go's zero time, a duration an [int64] number
    of nanoseconds. *)

Definition Time : Type := Z.

Definition Millisecond : Z := 1000000.
Definition Second : Z := 1000000000.

(** Seconds between the zero time and the Unix epoch. *)
Definition unixToInternal : Z := 62135596800.

Definition IsZero (t : Time) : bool := t =? 0.
Definition After (t u : Time) : bool := u <? t.
Definition Before (t u : Time) : bool := t <? u.

(** [time.Unix(sec, nsec)] with its normalisation of [nsec]. *)
Definition Unix (sec nsec : Z) : Time :=
  let '(sec, nsec) :=
    if (nsec <? 0) || (nsec >=? 1000000000) then
      let n := Z.quot nsec 1000000000 in
      let sec := wrap64 (sec + n) in
      let nsec := nsec - n * 1000000000 in
      if nsec <? 0 then (wrap64 (sec - 1), nsec + 1000000000) else (sec, nsec)
    else (sec, nsec) in
  wrap64 (sec + unixToInternal) * Second + nsec.

Definition UnixMilli (ms : Z) : Time :=
  Unix (Z.quot ms 1000) (Z.rem ms 1000 * 1000000).

(** [t.Add(d)] and [t.Sub(u)], the latter saturating to the range of a duration. *)
Definition Add (t : Time) (d : Z) : Time := t + d.
Definition Sub (t u : Time) : Z := Z.max MinInt64 (Z.min MaxInt64 (t - u)).

(** [time.Duration(n) * unit] wraps at 64 bits. *)
Definition DurationMul (n unit : Z) : Z := wrap64 (n * unit).

Definition Milliseconds (d : Z) : Z := Z.quot d Millisecond.

(** [t.UnixMilli()]. *)
Definition ToUnixMilli (t : Time) : Z := wrap64 ((t - unixToInternal * Second) / Millisecond).

Lemma Milliseconds_bound d : 0 <= d -> 0 <= Milliseconds d * Millisecond <= d.
Proof.
  intros Hd. unfold Milliseconds, Millisecond.
  rewrite Z.quot_div_nonneg by lia. pose proof (Z.div_pos d 1000000 ltac:(lia) ltac:(lia)).
  pose proof (Z.mul_div_le d 1000000 ltac:(lia)). lia.
Qed.

(** ** [path.Match] *)

Definition sempty (s : string) : bool := match s with EmptyString => true | _ => false end.

Definition RuneError : Z := 0xFFFD.

Definition between (lo x hi : Z) : bool := (lo <=? x) && (x <=? hi).

Definition byteAt (n : nat) (s : string) : option Z :=
  match sdrop n s with
  | EmptyString => None
  | String c _ => Some (code c)
  end.

Definition cont (o : option Z) (lo hi : Z) : option Z :=
  match o with
  | Some x => if between lo x hi then Some (Z.land x 0x3F) else None
  | None => None
  end.

(** [utf8.DecodeRuneInString]: the rune and its width. *)
Definition decodeRune (s : string) : Z * nat :=
  match s with
  | EmptyString => (RuneError, 0%nat)
  | String c _ =>
      let p0 := code c in
      let bad := (RuneError, 1%nat) in
      if p0 <? 0x80 then (p0, 1%nat)
      else if between 0xC2 p0 0xDF then
        match cont (byteAt 1 s) 0x80 0xBF with
        | Some b1 => (Z.lor (Z.shiftl (Z.land p0 0x1F) 6) b1, 2%nat)
        | None => bad
        end
      else if between 0xE0 p0 0xEF then
        let lo := if p0 =? 0xE0 then 0xA0 else 0x80 in
        let hi := if p0 =? 0xED then 0x9F else 0xBF in
        match cont (byteAt 1 s) lo hi, cont (byteAt 2 s) 0x80 0xBF with
        | Some b1, Some b2 =>
            (Z.lor (Z.lor (Z.shiftl (Z.land p0 0x0F) 12) (Z.shiftl (Z.land b1 0x3F) 6)) b2, 3%nat)
        | _, _ => bad
        end
      else if between 0xF0 p0 0xF4 then
        let lo := if p0 =? 0xF0 then 0x90 else 0x80 in
        let hi := if p0 =? 0xF4 then 0x8F else 0xBF in
        match cont (byteAt 1 s) lo hi, cont (byteAt 2 s) 0x80 0xBF, cont (byteAt 3 s) 0x80 0xBF with
        | Some b1, Some b2, Some b3 =>
            (Z.lor (Z.lor (Z.lor (Z.shiftl (Z.land p0 0x07) 18) (Z.shiftl b1 12))
                          (Z.shiftl b2 6)) b3, 4%nat)
        | _, _, _ => bad
        end
      else bad
  end.

(** [None] is [path.ErrBadPattern]. *)
Definition getEsc (chunk : string) : option (Z * string) :=
  let body :=
    match chunk with
    | EmptyString => None
    | String c r =>
        if (code c =? 45) || (code c =? 93) then None
        else if code c =? 92 then
          match r with EmptyString => None | _ => Some r end
        else Some chunk
    end in
  match body with
  | None => None
  | Some chunk =>
      let '(r, n) := decodeRune chunk in
      if (r =? RuneError) && (n =? 1)%nat then None
      else match sdrop n chunk with
           | EmptyString => None
           | nchunk => Some (r, nchunk)
           end
  end.

(** The ranges of a character class; [r] is [None] once the match has failed. *)
Fixpoint classLoop (fuel : nat) (r : option Z) (chunk : string) (matched : bool) (nrange : nat)
    : option (bool * string) :=
  match fuel with
  | O => None
  | S fuel =>
      match chunk with
      | String "]" rest => if (0 <? nrange)%nat then Some (matched, rest) else None
      | _ =>
          match getEsc chunk with
          | None => None
          | Some (lo, chunk) =>
              let hi_chunk :=
                match chunk with
                | String "-" rest => getEsc rest
                | _ => Some (lo, chunk)
                end in
              match hi_chunk with
              | None => None
              | Some (hi, chunk) =>
                  let x := default 0 r in
                  classLoop fuel r chunk (matched || ((lo <=? x) && (x <=? hi))) (S nrange)
              end
          end
      end
  end.

(** [matchChunk]: [None] is a bad pattern, [Some None] no match, [Some (Some rest)] a match. *)
Fixpoint matchChunk (fuel : nat) (chunk s : string) (failed : bool) : option (option string) :=
  match fuel with
  | O => None
  | S fuel =>
      match chunk with
      | EmptyString => Some (if failed then None else Some s)
      | String c crest =>
          let failed := failed || match s with EmptyString => true | _ => false end in
          if code c =? 91 then (* '[' *)
            let '(r, n) := decodeRune s in
            let s := if failed then s else sdrop n s in
            let rr := if failed then None else Some r in
            let '(negated, body) :=
              match crest with
              | String "^" rest => (true, rest)
              | _ => (false, crest)
              end in
            match classLoop (S (String.length body)) rr body false 0 with
            | None => None
            | Some (matched, rest) =>
                matchChunk fuel rest s (failed || Bool.eqb matched negated)
            end
          else if code c =? 63 then (* '?' *)
            if failed then matchChunk fuel crest s true
            else
              let slash := match s with String d _ => code d =? 47 | _ => false end in
              matchChunk fuel crest (sdrop (snd (decodeRune s)) s) slash
          else
            let lit := if code c =? 92 then crest else chunk in (* '\' *)
            match lit with
            | EmptyString => None
            | String d rest =>
                if failed then matchChunk fuel rest s true
                else match s with
                     | EmptyString => matchChunk fuel rest s true
                     | String e s => matchChunk fuel rest s (negb (Ascii.eqb d e))
                     end
            end
      end
  end.

(** The scan of [scanChunk] for the first unescaped ['*'] outside a class. *)
Fixpoint scanBody (s : string) (inrange escaped : bool) : string * string :=
  match s with
  | EmptyString => (EmptyString, EmptyString)
  | String c r =>
      let keep (p : string * string) := (String c (fst p), snd p) in
      if escaped then keep (scanBody r inrange false)
      else if code c =? 92 then keep (scanBody r inrange true)
      else if code c =? 91 then keep (scanBody r true false)
      else if code c =? 93 then keep (scanBody r false false)
      else if (code c =? 42) && negb inrange then (EmptyString, s)
      else keep (scanBody r inrange false)
  end.

Fixpoint dropStars (s : string) : bool * string :=
  match s with
  | String c r => if code c =? 42 then (true, snd (dropStars r)) else (false, s)
  | EmptyString => (false, s)
  end.

Definition scanChunk (pattern : string) : bool * string * string :=
  let '(star, pattern) := dropStars pattern in
  let '(chunk, rest) := scanBody pattern false false in
  (star, chunk, rest).

Definition chunkMatch (chunk s : string) : option (option string) :=
  matchChunk (S (String.length chunk)) chunk s false.

(** The search for a later position of [chunk] after a star; it may not skip a ['/']. *)
Fixpoint starLoop (chunk name : string) (last : bool) : option (option string) :=
  match name with
  | EmptyString => Some None
  | String c name =>
      if code c =? 47 then Some None
      else match chunkMatch chunk name with
           | None => None
           | Some (Some t) =>
               if last && negb (sempty t) then starLoop chunk name last
               else Some (Some t)
           | Some None => starLoop chunk name last
           end
  end.

(** The well-formedness check of the rest of the pattern before a failure is returned. *)
Fixpoint checkRest (fuel : nat) (pattern : string) : bool :=
  match fuel with
  | O => false
  | S fuel =>
      match pattern with
      | EmptyString => true
      | _ =>
          let '(_, chunk, rest) := scanChunk pattern in
          match chunkMatch chunk EmptyString with
          | None => false
          | Some _ => checkRest fuel rest
          end
      end
  end.

Fixpoint matchLoop (fuel : nat) (pattern name : string) : option bool :=
  match fuel with
  | O => None
  | S fuel =>
      match pattern with
      | EmptyString => Some (sempty name)
      | _ =>
          let '(star, chunk, rest) := scanChunk pattern in
          let last := sempty rest in
          let failure :=
            if checkRest (S (String.length rest)) rest then Some false else None in
          if star && sempty chunk then Some (negb (containsByte "/" name))
          else match chunkMatch chunk name with
               | None => None
               | Some t =>
                   let here := match t with
                               | Some t => if sempty t || negb last then Some t else None
                               | None => None
                               end in
                   match here with
                   | Some t => matchLoop fuel rest t
                   | None =>
                       if star then
                         match starLoop chunk name last with
                         | None => None
                         | Some (Some t) => matchLoop fuel rest t
                         | Some None => failure
                         end
                       else failure
                   end
               end
      end
  end.

(** [path.Match]; [None] is [ErrBadPattern].  Each round drops at least one byte of the pattern. *)
Definition pathMatch (pattern name : string) : option bool :=
  matchLoop (S (String.length pattern)) pattern name.

Example pathMatch_ex :
  pathMatch "h[a-c]l*?o" "hbl123o" = Some true /\
  pathMatch "user:*" "user:1/2" = Some false /\
  pathMatch "[" "a" = None /\ pathMatch "a\*b" "a*b" = Some true.
Proof. vm_compute. auto. Qed.
