(* ===== verification/GoSort.v ===== *)
(** * Sorting: byte order on strings, [sort.Strings] and the exchange sorts of the store. *)

From S2P Require Import Prelude GoInt GoStr.

(** ** Byte-wise lexicographic order *)

Fixpoint sltb (s t : string) : bool :=
  match s, t with
  | EmptyString, EmptyString => false
  | EmptyString, String _ _ => true
  | String _ _, EmptyString => false
  | String a s, String b t =>
      (code a <? code b) || ((code a =? code b) && sltb s t)
  end.

Definition slt (s t : string) : Prop := sltb s t = true.
Definition sle (s t : string) : Prop := sltb t s = false.

#[global] Instance slt_dec : RelDecision slt.
Proof. intros s t. apply bool_eq_dec. Defined.
#[global] Instance sle_dec : RelDecision sle.
Proof. intros s t. apply bool_eq_dec. Defined.

Lemma sltb_irrefl s : sltb s s = false.
Proof. induction s as [|a s IH]; simpl; [done|]. rewrite Z.ltb_irrefl, Z.eqb_refl. done. Qed.

Lemma sltb_trans s t u : sltb s t = true -> sltb t u = true -> sltb s u = true.
Proof.
  revert t u. induction s as [|a s IH]; intros [|b t] [|c u]; simpl; try done.
  rewrite !orb_true_iff, !andb_true_iff, !Z.ltb_lt, !Z.eqb_eq.
  intros [?|[? ?]] [?|[? ?]]; [left; lia..|]. right; split; [lia|eauto].
Qed.

Lemma sltb_total s t : sltb s t = false -> sltb t s = false -> s = t.
Proof.
  revert t. induction s as [|a s IH]; intros [|b t]; simpl; try done.
  rewrite !orb_false_iff, !andb_false_iff, !Z.ltb_ge, !Z.eqb_neq.
  intros [? H1] [? H2].
  assert (code a = code b) as Hab by lia. apply code_inj in Hab as ->.
  destruct H1 as [|H1]; [lia|]. destruct H2 as [|H2]; [lia|]. f_equal; auto.
Qed.

#[global] Instance sle_total : Total sle.
Proof.
  intros s t. unfold sle. destruct (sltb t s) eqn:E; [right|by left].
  destruct (sltb s t) eqn:E2; [|done].
  pose proof (sltb_trans _ _ _ E E2) as E3. by rewrite sltb_irrefl in E3.
Qed.

#[global] Instance sle_trans : Transitive sle.
Proof.
  intros s t u Hst Htu. unfold sle in *. destruct (sltb u s) eqn:E; [|done].
  destruct (sltb s t) eqn:E2.
  - by rewrite (sltb_trans _ _ _ E E2) in Htu.
  - rewrite (sltb_total _ _ E2 Hst) in E. congruence.
Qed.

#[global] Instance sle_refl : Reflexive sle.
Proof. intros s. apply sltb_irrefl. Qed.

#[global] Instance sle_antisym : AntiSymm eq sle.
Proof. intros s t H1 H2. by apply sltb_total. Qed.

(** [sort.Strings]. *)
Definition sortStrings (l : list string) : list string := merge_sort sle l.

Lemma sortStrings_perm l : sortStrings l ≡ₚ l.
Proof. apply merge_sort_Permutation. Qed.

Lemma sortStrings_sorted l : StronglySorted sle (sortStrings l).
Proof. apply (StronglySorted_merge_sort sle); apply _. Qed.

(** The result depends on the elements only. *)
Lemma sortStrings_unique l l' : l ≡ₚ l' -> sortStrings l = sortStrings l'.
Proof.
  intros Hl. apply (StronglySorted_unique sle); try apply sortStrings_sorted. by rewrite !sortStrings_perm.
Qed.

(** ** The exchange sort of [sortShardIndices] and [sortedKeys]

    [for i { for j > i { if a[j] < a[i] { swap } } }]: the inner loop leaves at [i] the least of
    the remaining elements. *)

Section exchange.
Context {A : Type} (ltb : A -> A -> bool).

Fixpoint exchangeInner (x : A) (l : list A) : A * list A :=
  match l with
  | [] => (x, [])
  | y :: l =>
      if ltb y x then let '(z, r) := exchangeInner y l in (z, x :: r)
      else let '(z, r) := exchangeInner x l in (z, y :: r)
  end.

Fixpoint exchangeOuter (fuel : nat) (l : list A) : list A :=
  match fuel, l with
  | S fuel, x :: l => let '(z, r) := exchangeInner x l in z :: exchangeOuter fuel r
  | _, _ => l
  end.

Definition exchangeSort (l : list A) : list A := exchangeOuter (List.length l) l.

Lemma exchangeInner_perm x l :
  let '(z, r) := exchangeInner x l in z :: r ≡ₚ x :: l.
Proof.
  revert x. induction l as [|y l IH]; intros x; simpl; [done|].
  destruct (ltb y x).
  - specialize (IH y). destruct (exchangeInner y l) as [z r].
    rewrite (Permutation_swap x z), IH. done.
  - specialize (IH x). destruct (exchangeInner x l) as [z r].
    rewrite (Permutation_swap y z), IH. apply Permutation_swap.
Qed.

Lemma exchangeInner_length x l : List.length (snd (exchangeInner x l)) = List.length l.
Proof.
  pose proof (exchangeInner_perm x l) as H. destruct (exchangeInner x l) as [z r].
  apply Permutation_length in H. simpl in *. lia.
Qed.

Lemma exchangeSort_perm l : exchangeSort l ≡ₚ l.
Proof.
  unfold exchangeSort. remember (List.length l) as n eqn:Hn. revert l Hn.
  induction n as [|n IH]; intros [|x l] Hn; simpl in *; try done.
  pose proof (exchangeInner_perm x l) as H. pose proof (exchangeInner_length x l) as Hl.
  destruct (exchangeInner x l) as [z r]. simpl in Hl. rewrite IH by lia. done.
Qed.

Context (Htrans : forall x y z, ltb y x = false -> ltb z y = false -> ltb z x = false).
Context (Hasym : forall x y, ltb x y = true -> ltb y x = false).

Definition xle (x y : A) : Prop := ltb y x = false.

Lemma exchangeInner_least x l :
  let '(z, r) := exchangeInner x l in xle z x /\ Forall (xle z) r.
Proof.
  revert x. induction l as [|y l IH]; intros x; simpl.
  - split; [|done]. unfold xle. destruct (ltb x x) eqn:E; [|done].
    pose proof (Hasym _ _ E). congruence.
  - destruct (ltb y x) eqn:E.
    + specialize (IH y). destruct (exchangeInner y l) as [z r]. destruct IH as [Hz Hr].
      pose proof (Hasym _ _ E). assert (xle z x) by (eapply Htrans; eauto).
      split; [done | by constructor].
    + specialize (IH x). destruct (exchangeInner x l) as [z r]. destruct IH as [Hz Hr].
      split; [done|]. constructor; [|done]. unfold xle in *. eapply Htrans; eauto.
Qed.

Lemma exchangeSort_sorted l : StronglySorted xle (exchangeSort l).
Proof.
  unfold exchangeSort. remember (List.length l) as n eqn:Hn. revert l Hn.
  induction n as [|n IH]; intros [|x l] Hn; simpl in *; try (constructor; done).
  pose proof (exchangeInner_least x l) as H. pose proof (exchangeInner_length x l) as Hl.
  destruct (exchangeInner x l) as [z r]. destruct H as [_ Hr]. simpl in Hl.
  constructor; [apply IH; lia|].
  pose proof (exchangeSort_perm r) as Hp. unfold exchangeSort in Hp.
  replace (List.length r) with n in Hp by lia. by rewrite Hp.
Qed.
End exchange.
