(* ===== verification/Resp.v ===== *)
(** * Package [resp]: the RESP2 parser and writer (internal/resp).

    The parser's [bufio.Reader] is the bytes still to be read followed by the error that ends the
    stream; the writer's buffer is the bytes written so far. *)

From S2P Require Import Prelude GoInt GoStr GoTime.

Definition MaxBulkBytes : Z := 512 * 1024 * 1024.
Definition MaxArrayElements : Z := 2 ^ 20.
Definition maxLineBytes : Z := 64 * 1024.

Definition CR : ascii := chr 13.
Definition LF : ascii := chr 10.
Definition CRLF : string := String CR (String LF EmptyString).

(** ** Values *)

Inductive Value := mkValue
  { vType : ascii; vStr : string; vInteger : Z; vArray : list Value; vIsNull : bool }.

Definition vSimple (s : string) : Value := mkValue "+" s 0 [] false.
Definition vError (s : string) : Value := mkValue "-" s 0 [] false.
Definition vInt (n : Z) : Value := mkValue ":" EmptyString n [] false.
Definition vBulk (s : string) : Value := mkValue "$" s 0 [] false.
Definition vNullBulk : Value := mkValue "$" EmptyString 0 [] true.
Definition vArr (l : list Value) : Value := mkValue "*" EmptyString 0 l false.
Definition vNullArr : Value := mkValue "*" EmptyString 0 [] true.

(** ** Streams *)

Record stream := mkStream { s_bytes : string; s_end : error }.

(** A reader: a result and the rest of the stream. *)
Definition Reader (A : Type) : Type := stream -> res A * stream.

Definition ReadByte : Reader ascii := fun s =>
  match s_bytes s with
  | EmptyString => (inl (s_end s), s)
  | String c r => (inr c, mkStream r (s_end s))
  end.

(** [io.ReadFull(br, make([]byte, n))]. *)
Definition ReadFull (n : Z) : Reader string := fun s =>
  if len (s_bytes s) <? n then
    (inl (if (0 <? len (s_bytes s)) && Is (s_end s) EOF then io_ErrUnexpectedEOF else s_end s),
     mkStream EmptyString (s_end s))
  else (inr (stake (Z.to_nat n) (s_bytes s)), mkStream (sdrop (Z.to_nat n) (s_bytes s)) (s_end s)).

(** ** Line reading *)

(** [trimSpaceBytes]: blanks and tabs only. *)
Definition blank (c : ascii) : bool := (code c =? 32) || (code c =? 9).

Fixpoint trimLeftBlank (s : string) : string :=
  match s with
  | String c r => if blank c then trimLeftBlank r else s
  | EmptyString => s
  end.

Definition trimSpaceBytes (b : string) : string :=
  srev (trimLeftBlank (srev (trimLeftBlank b))).

Definition consLine (b : ascii) (p : res string * string) : res string * string :=
  (match fst p with inl e => inl e | inr l => inr (String b l) end, snd p).

(** What follows a carriage return inside a line. *)
Definition endOfLine (e : error) (s : string) : res string * string :=
  match s with
  | EmptyString => (inl (wrapErr "read line: " e), EmptyString)
  | String nl r =>
      if code nl =? 10 then (inr EmptyString, r) else (inl (New "expected LF after CR"), r)
  end.

(** The loop on the growing buffer, entered with [buflen] bytes already read. *)
Fixpoint readLong (e : error) (s : string) (buflen : Z) : res string * string :=
  if maxLineBytes <? buflen then
    (inl (New ("line too long (exceeds " +++ FormatInt maxLineBytes +++ " bytes)")), s)
  else match s with
       | EmptyString => (inl (wrapErr "read line: " e), EmptyString)
       | String b r =>
           if code b =? 13 then endOfLine e r
           else consLine b (readLong e r (buflen + 1))
       end.

(** The loop on the 4096-byte stack buffer, of which [pos] bytes are used. *)
Fixpoint readStack (e : error) (s : string) (pos : Z) : res string * string :=
  match s with
  | EmptyString => (inl (wrapErr "read line: " e), EmptyString)
  | String b r =>
      if code b =? 13 then endOfLine e r
      else if 4096 <=? pos then consLine b (readLong e r (pos + 1))
      else consLine b (readStack e r (pos + 1))
  end.

Definition readLineBytes : Reader string := fun s =>
  let '(r, rest) := readStack (s_end s) (s_bytes s) 0 in (r, mkStream rest (s_end s)).

Definition expectCRLF : Reader unit := fun s =>
  match ReadByte s with
  | (inl e, s) => (inl (wrapErr "expect CRLF: " e), s)
  | (inr cr, s) =>
      match ReadByte s with
      | (inl e, s) => (inl (wrapErr "expect CRLF: " e), s)
      | (inr lf, s) =>
          if negb (code cr =? 13) || negb (code lf =? 10)
          then (inl (New "expected CRLF after bulk"), s)
          else (inr tt, s)
      end
  end.

(** ** The value parsers *)

Definition parseSimpleStringValue : Reader Value := fun s =>
  match readLineBytes s with
  | (inl e, s) => (inl (wrapErr "simple string: " e), s)
  | (inr line, s) =>
      if 65536 <? len line then (inl (New "simple string: line too long"), s)
      else (inr (vSimple line), s)
  end.

Definition parseErrorValue : Reader Value := fun s =>
  match readLineBytes s with
  | (inl e, s) => (inl (wrapErr "error string: " e), s)
  | (inr line, s) =>
      if maxLineBytes <? len line then (inl (New "error string: line too long"), s)
      else (inr (vError line), s)
  end.

Definition isRange (e : numErr) : bool :=
  match e with ErrRange => true | ErrSyntax => false end.

Definition parseIntegerValue : Reader Value := fun s =>
  match readLineBytes s with
  | (inl e, s) => (inl (wrapErr "integer line: " e), s)
  | (inr line, s) =>
      let t := trimSpaceBytes line in
      if len t =? 0 then (inl (New "empty integer"), s)
      else match ParseInt t with
           | inl e =>
               (inl (wrapErr (if isRange e then "integer overflow: " else "parse integer: ")
                             (numError t e)), s)
           | inr n => (inr (vInt n), s)
           end
  end.

(** [bulkBodyPool] only decides which buffer receives the body; the value is a copy of it. *)
Definition parseBulkString : Reader Value := fun s =>
  match readLineBytes s with
  | (inl e, s) => (inl (wrapErr "bulk length line: " e), s)
  | (inr line, s) =>
      let t := trimSpaceBytes line in
      if len t =? 0 then (inl (New "empty bulk length"), s)
      else match ParseInt t with
           | inl e =>
               (inl (wrapErr (if isRange e then "bulk length overflow: " else "parse bulk length: ")
                             (numError t e)), s)
           | inr n64 =>
               if n64 <? -1 then (inl (New ("invalid bulk length " +++ FormatInt n64)), s)
               else if n64 =? -1 then (inr vNullBulk, s)
               else if MaxBulkBytes <? n64
                    then (inl (New "ERR Protocol error: invalid bulk length"), s)
               else match ReadFull n64 s with
                    | (inl e, s) => (inl (wrapErr "read bulk body: " e), s)
                    | (inr body, s) =>
                        match expectCRLF s with
                        | (inl e, s) => (inl e, s)
                        | (inr _, s) => (inr (vBulk body), s)
                        end
                    end
           end
  end.

(** The element loop of [parseArray], with [n] elements left and [i] the next index. *)
Fixpoint parseElems (parse : stream -> option (res Value * stream)) (n : nat) (i : Z) (s : stream)
    : option (res (list Value) * stream) :=
  match n with
  | O => Some (inr [], s)
  | S n =>
      match parse s with
      | None => None
      | Some (inl e, s) => Some (inl (wrapErr ("array element " +++ FormatInt i +++ ": ") e), s)
      | Some (inr v, s) =>
          match parseElems parse n (i + 1) s with
          | None => None
          | Some (inl e, s) => Some (inl e, s)
          | Some (inr vs, s) => Some (inr (v :: vs), s)
          end
      end
  end.

Definition parseArrayWith (parse : stream -> option (res Value * stream)) (s : stream)
    : option (res Value * stream) :=
  match readLineBytes s with
  | (inl e, s) => Some (inl (wrapErr "array count line: " e), s)
  | (inr line, s) =>
      let t := trimSpaceBytes line in
      if len t =? 0 then Some (inl (New "empty array count"), s)
      else match ParseInt t with
           | inl e =>
               Some (inl (wrapErr (if isRange e then "array count overflow: " else "parse array count: ")
                                  (numError t e)), s)
           | inr n64 =>
               if n64 <? -1 then Some (inl (New ("invalid array count " +++ FormatInt n64)), s)
               else if n64 =? -1 then Some (inr vNullArr, s)
               else if MaxArrayElements <? n64 then Some (inl (New "array count too large"), s)
               else match parseElems parse (Z.to_nat n64) 0 s with
                    | None => None
                    | Some (inl e, s) => Some (inl e, s)
                    | Some (inr out, s) => Some (inr (vArr out), s)
                    end
           end
  end.

(** The literal [%q] prints for the type byte: a byte as a rune of the Latin-1 block. *)
Definition quoteRune (c : ascii) : string :=
  let x := code c in
  let hex2 := String (hexDigit (x / 16)) (String (hexDigit (x mod 16)) EmptyString) in
  let body :=
    if x =? 39 then String (chr 92) (String (chr 39) EmptyString)
    else if x =? 34 then String c EmptyString
    else if (x <? 128) then quoteByte c
    else if (x <? 160) || (x =? 160) || (x =? 173) then "\u00" +++ hex2
    else String (chr (192 + x / 64)) (String (chr (128 + x mod 64)) EmptyString) in
  "'" +++ body +++ "'".

(** [parseRESPValue], recursive through [parseArray]; every level reads at least its type byte.
    [None] is out of fuel. *)
Fixpoint parseRESPValue (fuel : nat) (s : stream) : option (res Value * stream) :=
  match fuel with
  | O => None
  | S fuel =>
      match ReadByte s with
      | (inl e, s) => Some (inl (wrapErr "read type: " e), s)
      | (inr typ, s) =>
          if Ascii.eqb typ "+" then Some (parseSimpleStringValue s)
          else if Ascii.eqb typ "-" then Some (parseErrorValue s)
          else if Ascii.eqb typ ":" then Some (parseIntegerValue s)
          else if Ascii.eqb typ "$" then Some (parseBulkString s)
          else if Ascii.eqb typ "*" then parseArrayWith (parseRESPValue fuel) s
          else Some (inl (New ("invalid RESP type byte " +++ quoteRune typ)), s)
      end
  end.

Definition parseInlineCommand : Reader Value := fun s =>
  match readLineBytes s with
  | (inl e, s) => (inl (wrapErr "inline line: " e), s)
  | (inr line, s) =>
      let t := TrimSpace line in
      if sempty t then (inl (New "empty inline command"), s)
      else
        let fields := Fields t in
        if bool_decide (fields = []) then (inl (New "empty inline command"), s)
        else (inr (vArr (map vBulk fields)), s)
  end.

(** [skipIdleNoise], on the bytes; [peek] of an empty stream passes a bare [io.EOF] on. *)
Fixpoint skipNoise (e : error) (s : string) : res unit * string :=
  match s with
  | EmptyString =>
      (inl (if bool_decide (e = io_EOF) then io_EOF else wrapErr "peek: " e), EmptyString)
  | String b r =>
      if code b =? 13 then
        match r with
        | EmptyString => (inl (wrapErr "skip crlf: " e), EmptyString)
        | String nl r =>
            if negb (code nl =? 10) then (inl (New "expected LF after CR"), r)
            else skipNoise e r
        end
      else if code b =? 10 then skipNoise e r
      else (inr tt, s)
  end.

Definition skipIdleNoise : Reader unit := fun s =>
  let '(r, rest) := skipNoise (s_end s) (s_bytes s) in (r, mkStream rest (s_end s)).

Definition isRespType (b : ascii) : bool :=
  Ascii.eqb b "+" || Ascii.eqb b "-" || Ascii.eqb b ":" || Ascii.eqb b "$" || Ascii.eqb b "*".

(** [Parser.Parse]; the fuel is one more than the bytes of the stream. *)
Definition Parse (s : stream) : option (res Value * stream) :=
  match skipIdleNoise s with
  | (inl e, s) => Some (inl e, s)
  | (inr _, s) =>
      match ReadByte s with
      | (inl e, s') => Some (inl (wrapErr "read first byte: " e), s')
      | (inr b, _) =>
          if isRespType b then parseRESPValue (S (String.length (s_bytes s))) s
          else Some (parseInlineCommand s)
      end
  end.

(** ** The writer *)

(** Bytes written and the error, if any.  The underlying connection accepts every byte. *)
Definition Written : Type := string * option error.

Definition WriteSimpleString (w s : string) : Written := (w +++ "+" +++ s +++ CRLF, None).
Definition WriteError (w s : string) : Written := (w +++ "-" +++ s +++ CRLF, None).
Definition WriteInteger (w : string) (n : Z) : Written := (w +++ ":" +++ FormatInt n +++ CRLF, None).

Definition writeBulkBytes (w : string) (b : slice) : Written :=
  let w := w +++ "$" +++ FormatInt (slen b) +++ CRLF in
  let w := if 0 <? slen b then w +++ sbytes b else w in
  (w +++ CRLF, None).

Definition WriteBulkString (w : string) (b : slice) : Written := writeBulkBytes w b.
Definition WriteNullBulkString (w : string) : Written := (w +++ "$-1" +++ CRLF, None).
Definition WriteNull (w : string) : Written := (w +++ "*-1" +++ CRLF, None).
Definition writeArrayHeader (w : string) (n : Z) : Written :=
  (w +++ "*" +++ FormatInt n +++ CRLF, None).

Section write.
Context (WriteValue : string -> Value -> Written).

(** The element loop of [WriteArray]; it stops at the first error. *)
Fixpoint writeElems (w : string) (i : Z) (l : list Value) : Written :=
  match l with
  | [] => (w, None)
  | v :: l =>
      match WriteValue w v with
      | (w, Some e) => (w, Some (wrapErr ("write array element " +++ FormatInt i +++ ": ") e))
      | (w, None) => writeElems w (i + 1) l
      end
  end.
End write.

Fixpoint WriteValue (w : string) (v : Value) : Written :=
  match v with
  | mkValue typ s n l isnull =>
      if Ascii.eqb typ "+" then WriteSimpleString w s
      else if Ascii.eqb typ "-" then WriteError w s
      else if Ascii.eqb typ ":" then WriteInteger w n
      else if Ascii.eqb typ "$" then
        if isnull then WriteNullBulkString w else WriteBulkString w (Some s)
      else if Ascii.eqb typ "*" then
        if isnull then WriteNull w
        else
          let '(w, _) := writeArrayHeader w (Z.of_nat (List.length l)) in
          writeElems WriteValue w 0 l
      else (w, Some (New ("unknown value type " +++ quoteRune typ)))
  end.

Definition WriteArray (w : string) (l : list Value) : Written :=
  let '(w, _) := writeArrayHeader w (Z.of_nat (List.length l)) in writeElems WriteValue w 0 l.
