(* ===== verification/RespSpec.v ===== *)
(** * What the RESP parser and writer promise each other.

    Framing of lines, totality of the parser, the limits every parsed value respects, and the
    round trip between [WriteValue] and [Parse], pipelined commands included. *)

From S2P Require Import Prelude GoInt GoStr GoTime Resp.

(** ** Induction on nested values *)

Section value_ind.
Context (P : Value -> Prop)
  (Hstep : forall t s n l b, Forall P l -> P (mkValue t s n l b)).

Fixpoint Value_nested_ind (v : Value) : P v :=
  match v with
  | mkValue t s n l b =>
      Hstep t s n l b
        ((fix go (l : list Value) : Forall P l :=
            match l with
            | [] => List.Forall_nil _
            | v :: l => List.Forall_cons _ _ _ (Value_nested_ind v) (go l)
            end) l)
  end.
End value_ind.

(** ** Lines *)

Definition notCR (c : ascii) : bool := negb (code c =? 13).

(** A line the protocol can frame. *)
Definition lineOk (l : string) : bool := sall notCR l && (len l <=? maxLineBytes).

Lemma readLong_spec e s n l rest :
  readLong e s n = (inr l, rest) <->
  s = l +++ CRLF +++ rest /\ sall notCR l = true /\ n + len l <= maxLineBytes.
Proof.
  revert n l. induction s as [|b s IH]; intros n l; simpl.
  - split; [repeat split_match; done|]. intros (H & _). by destruct l.
  - split.
    + destruct (maxLineBytes <? n) eqn:Hn; [done|]. zify_bool.
      destruct (code b =? 13) eqn:Hb.
      * destruct s as [|nl r]; simpl; [done|]. destruct (code nl =? 10) eqn:Hl; [|done].
        intros [= <- <-]. zify_bool. repeat split; [|unfold len; simpl; lia].
        rewrite (code_inj b CR), (code_inj nl LF) by done. done.
      * unfold consLine. destruct (readLong e s (n + 1)) as [[?|l'] r'] eqn:Hr; simpl; [done|].
        intros [= <- <-]. apply IH in Hr as (-> & Hc & Hlen). cbn [sall]. rewrite Hc. unfold notCR at 1. rewrite Hb.
        repeat split. unfold len in *; simpl; lia.
    + intros (Hs & Hc & Hlen). unfold len in Hlen.
      assert (maxLineBytes <? n = false) as -> by (apply Z.ltb_ge; lia).
      destruct l as [|c l]; simpl in *.
      * injection Hs as -> ->. simpl. done.
      * injection Hs as -> ->. apply andb_true_iff in Hc as [Hc Hc'].
        unfold notCR in Hc. apply negb_true_iff in Hc as ->.
        unfold consLine. assert (readLong e (l +++ CRLF +++ rest) (n + 1) = (inr l, rest)) as H.
        { apply IH. repeat split; [done|]. unfold len; lia. }
        simpl in H. by rewrite H.
Qed.

Lemma readStack_spec e s n l rest :
  n <= 4096 ->
  readStack e s n = (inr l, rest) <->
  s = l +++ CRLF +++ rest /\ sall notCR l = true /\ n + len l <= maxLineBytes.
Proof.
  revert n l. induction s as [|b s IH]; intros n l Hn; cbn [readStack].
  - split; [done|]. intros (H & _). by destruct l.
  - split.
    + destruct (code b =? 13) eqn:Hb.
      * destruct s as [|nl r]; simpl; [done|]. destruct (code nl =? 10) eqn:Hl; [|done].
        intros [= <- <-]. zify_bool. repeat split; [|unfold len, maxLineBytes; simpl; lia].
        rewrite (code_inj b CR), (code_inj nl LF) by done. done.
      * intros H.
        assert (exists l', l = String b l' /\ s = l' +++ CRLF +++ rest /\ sall notCR l' = true
                  /\ n + 1 + len l' <= maxLineBytes) as (l' & -> & -> & Hc & Hl).
        { unfold consLine in H. destruct (4096 <=? n) eqn:Hk; zify_bool.
          - destruct (readLong e s (n + 1)) as [[?|l'] r'] eqn:Hr; [done|].
            injection H as <- <-. apply readLong_spec in Hr. eauto.
          - destruct (readStack e s (n + 1)) as [[?|l'] r'] eqn:Hr; [done|].
            injection H as <- <-. apply IH in Hr; [|lia]. eauto. }
        repeat split; [|unfold len in *; simpl; lia]. cbn [sall]. rewrite Hc. unfold notCR. by rewrite Hb.
    + intros (Hs & Hc & Hlen). destruct l as [|c l]; simpl in *.
      * injection Hs as -> ->. done.
      * injection Hs as -> ->. apply andb_true_iff in Hc as [Hc Hc'].
        unfold notCR in Hc. apply negb_true_iff in Hc as ->. unfold consLine, len in *.
        destruct (4096 <=? n) eqn:Hk; zify_bool.
        -- assert (readLong e (l +++ CRLF +++ rest) (n + 1) = (inr l, rest)) as H
             by (apply readLong_spec; unfold len; repeat split; [done|simpl in *; lia]).
           simpl in H. by rewrite H.
        -- assert (readStack e (l +++ CRLF +++ rest) (n + 1) = (inr l, rest)) as H
             by (apply IH; [lia|]; unfold len; repeat split; [done|simpl in *; lia]).
           simpl in H. by rewrite H.
Qed.

(** [readLineBytes] succeeds on exactly the lines ended by the first CRLF, of at most 64 KiB. *)
Lemma readLineBytes_spec s l s' :
  readLineBytes s = (inr l, s') <->
  s = mkStream (l +++ CRLF +++ s_bytes s') (s_end s') /\ lineOk l = true.
Proof.
  unfold readLineBytes, lineOk. destruct s as [b e], s' as [b' e']; simpl.
  rewrite andb_true_iff, Z.leb_le. split.
  - destruct (readStack e b 0) as [r rest] eqn:Hr. intros [= -> -> ->].
    apply readStack_spec in Hr as (-> & ? & ?); [|lia]. done.
  - intros [[= -> ->] [Hc Hl]].
    assert (readStack e' (l +++ CRLF +++ b') 0 = (inr l, b')) as H
      by (apply readStack_spec; [lia|done]).
    simpl in H. by rewrite H.
Qed.

Definition suffix_of (t s : string) : Prop := exists c, s = c +++ t.

#[global] Instance suffix_of_refl : Reflexive suffix_of.
Proof. intros s. by exists EmptyString. Qed.

#[global] Instance suffix_of_trans : Transitive suffix_of.
Proof. intros s t u [c ->] [d ->]. exists (d +++ c). by rewrite sapp_assoc. Qed.

Lemma suffix_of_cons c t s : suffix_of t s -> suffix_of t (String c s).
Proof. intros [d ->]. by exists (String c d). Qed.

Lemma suffix_of_nil s : suffix_of EmptyString s.
Proof. exists s. by rewrite sapp_nil_r. Qed.

Lemma suffix_of_sdrop n s : suffix_of (sdrop n s) s.
Proof. exists (stake n s). by rewrite stake_sdrop. Qed.

Lemma suffix_of_length t s : suffix_of t s -> (String.length t <= String.length s)%nat.
Proof. intros [c ->]. rewrite slength_app. lia. Qed.

#[export] Hint Resolve suffix_of_refl suffix_of_cons suffix_of_nil suffix_of_sdrop : cache.

Lemma endOfLine_suffix e s : suffix_of (snd (endOfLine e s)) s.
Proof. unfold endOfLine. repeat split_goal; simpl; auto with cache. Qed.

Lemma readLong_suffix e s n : suffix_of (snd (readLong e s n)) s.
Proof.
  revert n. induction s as [|b s IH]; intros n; simpl; repeat split_goal; simpl;
    auto using endOfLine_suffix with cache.
Qed.

Lemma readStack_suffix e s n : suffix_of (snd (readStack e s n)) s.
Proof.
  revert n. induction s as [|b s IH]; intros n; simpl; repeat split_goal; simpl;
    auto using endOfLine_suffix, readLong_suffix with cache.
Qed.

(** The stream [s'] is what is left of [s] after reading a prefix of it. *)
Definition after (s s' : stream) : Prop :=
  s_end s' = s_end s /\ suffix_of (s_bytes s') (s_bytes s).

#[global] Instance after_refl : Reflexive after.
Proof. intros s. split; reflexivity. Qed.

#[global] Instance after_trans : Transitive after.
Proof.
  intros s t u [H1 H2] [H3 H4]. split; [congruence|]. by transitivity (s_bytes t).
Qed.

Lemma readLineBytes_after s : after s (snd (readLineBytes s)).
Proof.
  unfold readLineBytes. pose proof (readStack_suffix (s_end s) (s_bytes s) 0) as H.
  destruct (readStack _ _ _) as [r rest]. by split.
Qed.

(** ** Limits of parsed values *)

(** The values the wire format can carry: the fields the type does not use are zero, lines and
    payloads respect the parser's limits. *)
Fixpoint wire (v : Value) : bool :=
  match v with
  | mkValue t s n l b =>
      if Ascii.eqb t "+" || Ascii.eqb t "-" then
        lineOk s && (n =? 0) && bool_decide (l = []) && negb b
      else if Ascii.eqb t ":" then
        is_int64 n && (len s =? 0) && bool_decide (l = []) && negb b
      else if Ascii.eqb t "$" then
        (n =? 0) && bool_decide (l = []) && (if b then len s =? 0 else len s <=? MaxBulkBytes)
      else if Ascii.eqb t "*" then
        (n =? 0) && (len s =? 0) &&
        (if b then bool_decide (l = [])
         else (Z.of_nat (List.length l) <=? MaxArrayElements) && forallb wire l)
      else false
  end.

(** Every reader leaves a suffix of its stream, and what it returns satisfies [P]. *)
Definition reads {A} (P : A -> Prop) (s : stream) (p : res A * stream) : Prop :=
  after s (snd p) /\ (forall v, fst p = inr v -> P v).

Lemma reads_err {A} (P : A -> Prop) s e s' : after s s' -> reads P s (inl e, s').
Proof. by split. Qed.

Lemma reads_ok {A} (P : A -> Prop) s v s' : after s s' -> P v -> reads P s (inr v, s').
Proof. split; [done|]. by intros ? [= <-]. Qed.

Lemma ReadByte_reads s : reads (fun _ => True) s (ReadByte s).
Proof.
  unfold ReadByte. destruct s as [[|c b] e]; simpl; split; simpl; try done.
  split; simpl; auto with cache.
Qed.

Lemma ReadFull_reads n s : 0 <= n -> reads (fun b => len b = n) s (ReadFull n s).
Proof.
  intros Hn. unfold ReadFull. destruct (len (s_bytes s) <? n) eqn:E; zify_bool.
  - apply reads_err. split; simpl; auto with cache.
  - apply reads_ok; [split; simpl; auto with cache|].
    unfold len in *. rewrite slength_stake. lia.
Qed.

Lemma expectCRLF_reads s : reads (fun _ => True) s (expectCRLF s).
Proof.
  unfold expectCRLF. pose proof (ReadByte_reads s) as [Ha _].
  destruct (ReadByte s) as [[e|cr] s1]; simpl in *; [by apply reads_err|].
  pose proof (ReadByte_reads s1) as [Hb _].
  destruct (ReadByte s1) as [[e|lf] s2]; simpl in *; (assert (after s s2) by by transitivity s1);
    [by apply reads_err|]. split_goal; [by apply reads_err|by apply reads_ok].
Qed.

Lemma readLine_reads s : reads (fun l => lineOk l = true) s (readLineBytes s).
Proof.
  split; [apply readLineBytes_after|]. destruct (readLineBytes s) as [r s'] eqn:H; simpl.
  intros l ->. by apply readLineBytes_spec in H as [_ ?].
Qed.

(** Start of the proof for a reader that begins with a line. *)
Ltac read_line :=
  match goal with
  | |- context [readLineBytes ?s] =>
      let Ha := fresh "Ha" in let Hl := fresh "Hl" in let l := fresh "line" in
      pose proof (readLine_reads s) as [Ha Hl];
      destruct (readLineBytes s) as [[?e|l] ?s1] eqn:?; simpl in Ha, Hl;
      [by apply reads_err | specialize (Hl l eq_refl)]
  end.

Lemma parseSimpleStringValue_reads s : reads wire s (parseSimpleStringValue s).
Proof.
  unfold parseSimpleStringValue. read_line. split_goal; [by apply reads_err|].
  apply reads_ok; [done|]. simpl. by rewrite Hl.
Qed.

Lemma parseErrorValue_reads s : reads wire s (parseErrorValue s).
Proof.
  unfold parseErrorValue. read_line. split_goal; [by apply reads_err|].
  apply reads_ok; [done|]. simpl. by rewrite Hl.
Qed.

Lemma parseIntegerValue_reads s : reads wire s (parseIntegerValue s).
Proof.
  unfold parseIntegerValue. read_line. repeat split_goal; try by apply reads_err.
  apply reads_ok; [done|]. simpl. by erewrite ParseInt_range.
Qed.

Lemma parseBulkString_reads s : reads wire s (parseBulkString s).
Proof.
  unfold parseBulkString. read_line. destruct (len _ =? 0); [by apply reads_err|].
  destruct (ParseInt _) as [?|n]; [by apply reads_err|].
  destruct (n <? -1) eqn:?; [by apply reads_err|].
  destruct (n =? -1) eqn:?; [by apply reads_ok|].
  destruct (MaxBulkBytes <? n) eqn:?; [by apply reads_err|]. zify_bool.
  pose proof (ReadFull_reads n s1 ltac:(lia)) as [Hb Hn].
  destruct (ReadFull n s1) as [[?|body] s2]; simpl in *;
    (assert (after s s2) by by transitivity s1); [by apply reads_err|].
  pose proof (expectCRLF_reads s2) as [Hc _].
  destruct (expectCRLF s2) as [[?|[]] s3]; simpl in *;
    (assert (after s s3) by by transitivity s2); [by apply reads_err|].
  apply reads_ok; [done|]. simpl. apply Is_true_true, Z.leb_le. rewrite (Hn body eq_refl). lia.
Qed.

Lemma parseElems_reads parse n i s fuel :
  (forall s, (String.length (s_bytes s) < fuel)%nat -> exists p, parse s = Some p /\ reads wire s p) ->
  (String.length (s_bytes s) < fuel)%nat ->
  exists p, parseElems parse n i s = Some p /\
    reads (fun l => List.length l = n /\ forallb wire l = true) s p.
Proof.
  intros Hp. revert i s. induction n as [|n IH]; intros i s Hs; simpl.
  { eexists; split; [done|]. by apply reads_ok. }
  destruct (Hp s Hs) as ([[e|v] s1] & -> & [Ha Hv]); simpl in *.
  { eexists; split; [done|]. by apply reads_err. }
  assert (String.length (s_bytes s1) < fuel)%nat as Hs1
    by (destruct Ha as [_ ?%suffix_of_length]; lia).
  destruct (IH (i + 1) s1 Hs1) as ([[e|vs] s2] & -> & [Hb Hvs]); simpl in *;
    (assert (after s s2) by by transitivity s1); (eexists; split; [done|]).
  - by apply reads_err.
  - destruct (Hvs vs eq_refl) as [<- Hw]. apply reads_ok; [done|]. simpl. split; [done|].
    rewrite Hw, andb_true_r. by apply Is_true_true, Hv.
Qed.

Ltac done_reads := eexists; split; [done|]; first [by apply reads_err | by apply reads_ok].

Lemma parseArrayWith_reads parse s fuel :
  (forall s, (String.length (s_bytes s) < fuel)%nat -> exists p, parse s = Some p /\ reads wire s p) ->
  (String.length (s_bytes s) < fuel)%nat ->
  exists p, parseArrayWith parse s = Some p /\ reads wire s p.
Proof.
  intros Hp Hs. unfold parseArrayWith. pose proof (readLine_reads s) as [Hb _].
  destruct (readLineBytes s) as [[?|line] s2]; simpl in Hb; [done_reads|].
  destruct (len _ =? 0); [done_reads|].
  destruct (ParseInt _) as [?|n]; [done_reads|].
  destruct (n <? -1) eqn:?; [done_reads|].
  destruct (n =? -1) eqn:?; [done_reads|].
  destruct (MaxArrayElements <? n) eqn:?; [done_reads|].
  destruct (parseElems_reads parse (Z.to_nat n) 0 s2 fuel Hp) as (p & -> & [Hc Hv]).
  { destruct Hb as [_ ?%suffix_of_length]. lia. }
  destruct p as [[?|out] s3]; simpl in *; (assert (after s s3) by by transitivity s2);
    [done_reads|].
  eexists; split; [done|]. apply reads_ok; [done|].
  destruct (Hv out eq_refl) as [Hl Hw]. simpl. rewrite Hw, Hl.
  zify_bool. rewrite andb_true_r. apply Is_true_true, Z.leb_le. lia.
Qed.

(** A successful read that consumed at least one byte. *)
Definition progress {A} (s : stream) (p : res A * stream) : Prop :=
  forall v, fst p = inr v -> (String.length (s_bytes (snd p)) < String.length (s_bytes s))%nat.

Lemma parseRESPValue_reads fuel s :
  (String.length (s_bytes s) < fuel)%nat ->
  exists p, parseRESPValue fuel s = Some p /\ reads wire s p /\ progress s p.
Proof.
  revert s. induction fuel as [|fuel IH]; intros s Hs; [lia|]. simpl.
  destruct s as [[|typ b] e]; unfold ReadByte; simpl in *;
    [eexists; split; [done|]; split; [by apply reads_err|by intros ?]|].
  set (s1 := mkStream b e).
  assert (after (mkStream (String typ b) e) s1) as Ha by (split; simpl; auto with cache).
  assert (forall p, reads wire s1 p -> reads wire (mkStream (String typ b) e) p /\
                    progress (mkStream (String typ b) e) p) as Hlift.
  { intros p [Hp ?]. split; [split; [by transitivity s1|done]|].
    intros v _. destruct Hp as [_ ?%suffix_of_length]. simpl in *. lia. }
  repeat (destruct (Ascii.eqb typ _);
    [try (eexists; split; [done|]; apply Hlift; solve [auto using parseSimpleStringValue_reads,
       parseErrorValue_reads, parseIntegerValue_reads, parseBulkString_reads])|]).
  - destruct (parseArrayWith_reads (parseRESPValue fuel) s1 fuel) as (p & -> & Hp);
      [|simpl; lia|by eauto].
    intros s' Hs'. destruct (IH s' Hs') as (p & ? & ? & _). eauto.
  - eexists; split; [done|]. by apply Hlift, reads_err.
Qed.

Lemma zsum_bounds (l : list Z) :
  Forall (fun x => 0 < x) l -> Z.of_nat (List.length l) <= zsum l /\ Forall (fun x => x <= zsum l) l.
Proof.
  induction 1 as [|x l Hx Hl [IH1 IH2]]; simpl; [by split|].
  assert (0 <= zsum l) by lia. split; [lia|]. constructor; [lia|].
  eapply Forall_impl; [exact IH2|]. simpl. lia.
Qed.

Lemma Fields_wire t :
  len t <= maxLineBytes -> wire (vArr (map vBulk (Fields t))) = true.
Proof.
  intros Ht. unfold Fields.
  destruct (fieldsLoop_total (S (String.length t)) t EmptyString) as [Hpos Hsum].
  set (fs := fieldsLoop _ _ _) in *. unfold len in Hsum at 3. simpl in Hsum.
  assert (Forall (fun x => 0 < x) (map len fs)) as Hpos' by by apply Forall_map.
  destruct (zsum_bounds _ Hpos') as [Hn Hle].
  rewrite length_map in Hn. simpl. rewrite length_map. apply andb_true_iff; split.
  - apply Z.leb_le. unfold maxLineBytes, MaxArrayElements in *. lia.
  - apply forallb_forall. intros v (f & <- & Hin)%in_map_iff. simpl. apply Z.leb_le.
    rewrite Forall_map, Forall_forall in Hle. specialize (Hle f). simpl in Hle.
    unfold maxLineBytes, MaxBulkBytes in *. rewrite list_elem_of_In in Hle. specialize (Hle Hin). lia.
Qed.

Lemma parseInlineCommand_reads s :
  reads wire s (parseInlineCommand s) /\ progress s (parseInlineCommand s).
Proof.
  unfold parseInlineCommand. pose proof (readLine_reads s) as [Ha Hl].
  destruct (readLineBytes s) as [[e|line] s1] eqn:Hr; simpl in *;
    [split; [by apply reads_err|by intros ?]|]. specialize (Hl line eq_refl).
  repeat (split_goal; [split; [by apply reads_err|by intros ?]|]). split.
  - apply reads_ok; [done|]. apply Is_true_true, Fields_wire. unfold lineOk in Hl. zify_bool.
    pose proof (TrimSpace_length line). lia.
  - intros v _. simpl. apply readLineBytes_spec in Hr as [-> _]. simpl.
    rewrite slength_app. simpl. lia.
Qed.

Lemma skipNoise_suffix e s : suffix_of (snd (skipNoise e s)) s.
Proof.
  enough (forall n s, (String.length s <= n)%nat -> suffix_of (snd (skipNoise e s)) s) by eauto.
  clear. induction n as [|n IH]; intros [|b s] Hs; simpl in *; try lia; auto with cache.
  destruct (code b =? 13).
  - destruct s as [|nl r]; simpl in *; auto with cache.
    destruct (negb _); simpl; [auto with cache|]. do 2 apply suffix_of_cons. apply IH. lia.
  - destruct (code b =? 10); simpl; [|auto with cache]. apply suffix_of_cons, IH. lia.
Qed.

Lemma Parse_returns s :
  exists r s', Parse s = Some (r, s') /\ after s s' /\
    forall v, r = inr v ->
      wire v = true /\ (String.length (s_bytes s') < String.length (s_bytes s))%nat.
Proof.
  unfold Parse. unfold skipIdleNoise.
  pose proof (skipNoise_suffix (s_end s) (s_bytes s)) as Hsk.
  destruct (skipNoise _ _) as [[e|[]] rest]; simpl in *;
    [do 2 eexists; split; [done|]; by split; [split|]|].
  set (s1 := mkStream rest (s_end s)).
  assert (after s s1) as Ha by by split.
  unfold ReadByte. simpl. destruct rest as [|b rest]; simpl.
  { do 2 eexists; split; [done|]. by split. }
  assert (exists p, (if isRespType b then parseRESPValue (S (S (String.length rest))) s1
            else Some (parseInlineCommand s1)) = Some p /\ reads wire s1 p /\ progress s1 p)
    as ([r s2] & Hp & [Hb Hw] & Hpr).
  { destruct (isRespType b).
    - apply parseRESPValue_reads. simpl. lia.
    - eexists. split; [done|]. apply parseInlineCommand_reads. }
  exists r, s2. split; [exact Hp|]. split; [by transitivity s1|]. simpl in *.
  intros v ->. split; [by apply Is_true_true, Hw|].
  specialize (Hpr v eq_refl). apply suffix_of_length in Hsk. simpl in *. lia.
Qed.

(** C17: [Parser.Parse] always returns.  It leaves a suffix of the input; a value it returns
    respects every limit of the protocol (64-bit integers, lines of at most 64 KiB without CR,
    bulk strings of at most 512 MiB, arrays of at most 2^20 elements, at every depth) and costs
    at least one byte of input. *)
Theorem Parse_total s :
  exists r s', Parse s = Some (r, s') /\ after s s' /\
    forall v, r = inr v ->
      wire v = true /\ (String.length (s_bytes s') < String.length (s_bytes s))%nat.
Proof. apply Parse_returns. Qed.

(** ** Round trip *)

Fixpoint sconcat (l : list string) : string :=
  match l with
  | [] => EmptyString
  | s :: l => s +++ sconcat l
  end.

(** The bytes [WriteValue] sends for a value. *)
Definition encode (v : Value) : string := fst (WriteValue EmptyString v).

Lemma writeElems_wire l w i :
  Forall (fun v => forall w, WriteValue w v = (w +++ encode v, None)) l ->
  writeElems WriteValue w i l = (w +++ sconcat (map encode l), None).
Proof.
  intros Hl. revert w i. induction Hl as [|v l Hv Hl IH]; intros w i; simpl.
  - by rewrite sapp_nil_r.
  - by rewrite Hv, IH, sapp_assoc.
Qed.

Ltac wire_fields :=
  repeat match goal with
  | H : bool_decide (_ = []) = true |- _ => apply bool_decide_eq_true in H; subst
  | H : (len _ =? 0) = true |- _ => apply Z.eqb_eq, len_zero in H; subst
  | H : (_ && _)%bool = true |- _ => apply andb_true_iff in H; destruct H
  end; zify_bool; subst.

(** Case analysis on a value the wire format can carry. *)
Lemma wire_cases v :
  wire v = true ->
  (exists s, lineOk s = true /\ (v = vSimple s \/ v = vError s)) \/
  (exists n, is_int64 n = true /\ v = vInt n) \/
  v = vNullBulk \/ v = vNullArr \/
  (exists s, len s <= MaxBulkBytes /\ v = vBulk s) \/
  (exists l, Z.of_nat (List.length l) <= MaxArrayElements /\ forallb wire l = true /\ v = vArr l).
Proof.
  destruct v as [t s n l b]. cbn [wire].
  destruct (Ascii.eqb t "+") eqn:E1; [apply Ascii.eqb_eq in E1 as ->|]; cbn [orb].
  { intros H; wire_fields. left; eauto. }
  destruct (Ascii.eqb t "-") eqn:E2; [apply Ascii.eqb_eq in E2 as ->|].
  { intros H; wire_fields. left; eauto. }
  destruct (Ascii.eqb t ":") eqn:E3; [apply Ascii.eqb_eq in E3 as ->|].
  { intros H; wire_fields. right; left; eauto. }
  destruct (Ascii.eqb t "$") eqn:E4; [apply Ascii.eqb_eq in E4 as ->|].
  { destruct b; intros H; wire_fields; [tauto|]. do 4 right; left; eauto. }
  destruct (Ascii.eqb t "*") eqn:E5; [apply Ascii.eqb_eq in E5 as ->|done].
  destruct b; intros H; wire_fields; [tauto|]. do 5 right; eauto.
Qed.

Lemma forallb_Forall {A} (f : A -> bool) l : forallb f l = true -> Forall (fun x => f x = true) l.
Proof.
  rewrite forallb_forall, Forall_forall. intros H x Hx. apply H. by apply list_elem_of_In.
Qed.

Lemma WriteBulk_Some w s :
  WriteBulkString w (Some s) = (w +++ "$" +++ FormatInt (len s) +++ CRLF +++ s +++ CRLF, None).
Proof.
  unfold WriteBulkString, writeBulkBytes, slen. simpl.
  destruct (0 <? len s) eqn:E; zify_bool; repeat (rewrite !sapp_assoc; simpl); [done|].
  rewrite (len_zero s) by (pose proof (len_nonneg s); lia). done.
Qed.

(** What the writer sends for each kind of value. *)
Lemma WriteValue_wire v w :
  wire v = true -> WriteValue w v = (w +++ encode v, None).
Proof.
  revert w. induction v as [t s n l b IH] using Value_nested_ind. intros w Hw.
  apply wire_cases in Hw as [(s' & _ & [Hv|Hv])|[(n' & _ & Hv)|[Hv|[Hv|[(s' & _ & Hv)|(l' & _ & Hl & Hv)]]]]];
    injection Hv as -> -> -> -> ->; unfold encode; try done.
  - cbn [WriteValue Ascii.eqb Bool.eqb]. by rewrite !WriteBulk_Some.
  - cbn [WriteValue Ascii.eqb Bool.eqb]. unfold writeArrayHeader.
    apply forallb_Forall in Hl.
    assert (Forall (fun v => forall w, WriteValue w v = (w +++ encode v, None)) l') as HF.
    { clear -IH Hl. induction IH; inversion Hl; subst; constructor; auto. }
    rewrite !writeElems_wire by done. simpl. repeat (rewrite !sapp_assoc; simpl). done.
Qed.

Lemma encode_arr l :
  forallb wire l = true ->
  encode (vArr l) =
    "*" +++ FormatInt (Z.of_nat (List.length l)) +++ CRLF +++ sconcat (map encode l).
Proof.
  intros Hl%forallb_Forall. unfold encode at 1. cbn [WriteValue vArr Ascii.eqb Bool.eqb].
  unfold writeArrayHeader. rewrite writeElems_wire.
  - simpl. by rewrite !sapp_assoc.
  - eapply Forall_impl; [exact Hl|]. simpl. intros v Hv w. by apply WriteValue_wire.
Qed.

(** Reading back a length or integer line. *)
Lemma trimLeftBlank_graphic s : sall graphic s = true -> trimLeftBlank s = s.
Proof.
  destruct s as [|c s]; simpl; [done|]. intros [Hc _]%andb_true_iff.
  unfold blank, graphic in *. zify_bool.
  by assert ((code c =? 32) || (code c =? 9) = false) as ->
    by (apply orb_false_iff; rewrite !Z.eqb_neq; lia).
Qed.

Lemma trimSpaceBytes_graphic s : sall graphic s = true -> trimSpaceBytes s = s.
Proof.
  intros H. unfold trimSpaceBytes. rewrite (trimLeftBlank_graphic s) by done.
  rewrite trimLeftBlank_graphic by (by rewrite sall_srev). apply srev_involutive.
Qed.

Lemma fmtDigits_length fuel n acc :
  (String.length (fmtDigits fuel n acc) <= fuel + String.length acc)%nat.
Proof.
  revert n acc. induction fuel as [|fuel IH]; intros n acc; simpl; [done|].
  destruct (n <? 10); simpl; [lia|]. etransitivity; [apply IH|]. simpl. lia.
Qed.

Lemma FormatInt_len n : 0 < len (FormatInt n) <= 21.
Proof.
  assert (forall m, 0 < len (FormatUint m) <= 20) as H.
  { intros m. unfold len. pose proof (fmtDigits_length 20 m EmptyString) as Hl.
    fold (FormatUint m) in Hl. destruct (FormatUint_cons m) as (c & s & Hm).
    rewrite Hm in *. simpl in *. lia. }
  unfold FormatInt. destruct (n <? 0); [specialize (H (- n))|specialize (H n)];
    unfold len in *; simpl String.length; lia.
Qed.

Lemma FormatInt_line n rest e :
  is_int64 n = true ->
  readLineBytes (mkStream (FormatInt n +++ CRLF +++ rest) e) = (inr (FormatInt n), mkStream rest e).
Proof.
  intros Hn. apply readLineBytes_spec. split; [done|]. unfold lineOk.
  apply andb_true_iff; split.
  - apply (sall_impl graphic); [|by apply FormatInt_graphic].
    intros c. unfold graphic, notCR. intros Hc; zify_bool. apply negb_true_iff, Z.eqb_neq. lia.
  - apply Z.leb_le. pose proof (FormatInt_len n). unfold maxLineBytes. lia.
Qed.

Lemma FormatInt_field n :
  is_int64 n = true ->
  trimSpaceBytes (FormatInt n) = FormatInt n /\ (len (FormatInt n) =? 0) = false.
Proof.
  intros Hn. split; [by apply trimSpaceBytes_graphic, FormatInt_graphic|].
  apply Z.eqb_neq. pose proof (FormatInt_len n). lia.
Qed.

Lemma parse_int_roundtrip n rest e :
  is_int64 n = true ->
  parseIntegerValue (mkStream (FormatInt n +++ CRLF +++ rest) e) = (inr (vInt n), mkStream rest e).
Proof.
  intros Hn. unfold parseIntegerValue. rewrite FormatInt_line by done.
  destruct (FormatInt_field n Hn) as [-> ->]. by rewrite ParseInt_FormatInt.
Qed.

Lemma parse_bulk_roundtrip b rest e :
  len b <= MaxBulkBytes ->
  parseBulkString (mkStream (FormatInt (len b) +++ CRLF +++ b +++ CRLF +++ rest) e)
  = (inr (vBulk b), mkStream rest e).
Proof.
  intros Hb. pose proof (len_nonneg b) as H0.
  assert (is_int64 (len b) = true) as Hn
    by (unfold is_int64, MinInt64, MaxInt64, MaxBulkBytes in *; apply andb_true_iff; rewrite !Z.leb_le; lia).
  unfold parseBulkString. rewrite FormatInt_line by done.
  destruct (FormatInt_field _ Hn) as [-> ->]. rewrite ParseInt_FormatInt by done.
  assert (len b <? -1 = false) as -> by (apply Z.ltb_ge; lia).
  assert (len b =? -1 = false) as -> by (apply Z.eqb_neq; lia).
  assert (MaxBulkBytes <? len b = false) as -> by (apply Z.ltb_ge; lia).
  unfold ReadFull. cbn [s_bytes s_end]. rewrite len_app.
  assert (len b + len (CRLF +++ rest) <? len b = false) as ->
    by (apply Z.ltb_ge; pose proof (len_nonneg (CRLF +++ rest)); lia).
  unfold len at 1 2. rewrite Nat2Z.id, stake_app, sdrop_app. done.
Qed.

Lemma parseElems_roundtrip parse l i rest e :
  Forall (fun v => forall rest, parse (mkStream (encode v +++ rest) e) = Some (inr v, mkStream rest e)) l ->
  parseElems parse (List.length l) i (mkStream (sconcat (map encode l) +++ rest) e)
  = Some (inr l, mkStream rest e).
Proof.
  intros Hl. revert i. induction Hl as [|v l Hv Hl IH]; intros i; simpl; [done|].
  by rewrite sapp_assoc, Hv, IH.
Qed.

Lemma encode_cons v :
  wire v = true -> exists t r, encode v = String t r /\ isRespType t = true.
Proof.
  intros Hw. pose proof Hw as Hw'.
  apply wire_cases in Hw as [(s' & _ & [->| ->])|[(n' & _ & ->)|[->|[->|[(s' & _ & ->)|(l' & _ & Hl & ->)]]]]];
    try (by do 2 eexists).
  - unfold encode. cbn [WriteValue vBulk Ascii.eqb Bool.eqb]. rewrite WriteBulk_Some. by do 2 eexists.
  - rewrite encode_arr by done. by do 2 eexists.
Qed.

Lemma sconcat_elem_length f l :
  In f l -> (String.length f <= String.length (sconcat l))%nat.
Proof.
  induction l as [|s l IH]; simpl; [done|]. rewrite slength_app. intros [->|H]; [lia|].
  specialize (IH H). lia.
Qed.

Lemma parse_array_roundtrip l rest e fuel :
  Z.of_nat (List.length l) <= MaxArrayElements ->
  Forall (fun v => forall rest,
    parseRESPValue fuel (mkStream (encode v +++ rest) e) = Some (inr v, mkStream rest e)) l ->
  parseArrayWith (parseRESPValue fuel)
    (mkStream (FormatInt (Z.of_nat (List.length l)) +++ CRLF +++ sconcat (map encode l) +++ rest) e)
  = Some (inr (vArr l), mkStream rest e).
Proof.
  intros Hl HF. set (n := Z.of_nat (List.length l)) in *.
  assert (is_int64 n = true) as Hn
    by (unfold is_int64, MinInt64, MaxInt64, MaxArrayElements in *; apply andb_true_iff; rewrite !Z.leb_le; lia).
  unfold parseArrayWith. rewrite FormatInt_line by done.
  destruct (FormatInt_field _ Hn) as [-> ->]. rewrite ParseInt_FormatInt by done.
  assert (n <? -1 = false) as -> by (apply Z.ltb_ge; lia).
  assert (n =? -1 = false) as -> by (apply Z.eqb_neq; lia).
  assert (MaxArrayElements <? n = false) as -> by (apply Z.ltb_ge; lia).
  unfold n. by rewrite Nat2Z.id, parseElems_roundtrip.
Qed.

Lemma parse_line_roundtrip s rest e :
  lineOk s = true ->
  parseSimpleStringValue (mkStream (s +++ CRLF +++ rest) e) = (inr (vSimple s), mkStream rest e) /\
  parseErrorValue (mkStream (s +++ CRLF +++ rest) e) = (inr (vError s), mkStream rest e).
Proof.
  intros Hs. unfold parseSimpleStringValue, parseErrorValue.
  assert (readLineBytes (mkStream (s +++ CRLF +++ rest) e) = (inr s, mkStream rest e)) as ->
    by by apply readLineBytes_spec.
  unfold lineOk, maxLineBytes in *. zify_bool.
  assert (65536 <? len s = false) as -> by (apply Z.ltb_ge; lia).
  by assert (64 * 1024 <? len s = false) as -> by (apply Z.ltb_ge; lia).
Qed.

Lemma parseRESPValue_roundtrip v rest e fuel :
  wire v = true -> (String.length (encode v) <= fuel)%nat ->
  parseRESPValue fuel (mkStream (encode v +++ rest) e) = Some (inr v, mkStream rest e).
Proof.
  revert rest fuel. induction v as [t s n l b IH] using Value_nested_ind. intros rest fuel Hw Hf.
  pose proof Hw as Hw'. destruct (encode_cons _ Hw) as (t0 & r0 & Henc & _).
  destruct fuel as [|fuel]; [rewrite Henc in Hf; simpl in Hf; lia|]. clear t0 r0 Henc.
  apply wire_cases in Hw as [(s' & Hs & [Hv|Hv])|[(n' & Hn & Hv)|[Hv|[Hv|[(s' & Hs & Hv)|(l' & Hn & Hl & Hv)]]]]];
    injection Hv as -> -> -> -> ->.
  - unfold encode. simpl. f_equal. rewrite sapp_assoc. by apply parse_line_roundtrip.
  - unfold encode. simpl. f_equal. rewrite sapp_assoc. by apply parse_line_roundtrip.
  - unfold encode. simpl. f_equal. rewrite sapp_assoc. by apply parse_int_roundtrip.
  - done.
  - done.
  - fold (vBulk s'). unfold encode. cbn [WriteValue vBulk Ascii.eqb Bool.eqb].
    rewrite WriteBulk_Some. cbn [fst]. rewrite !sapp_assoc. simpl. f_equal.
    exact (parse_bulk_roundtrip s' rest e Hs).
  - fold (vArr l') in *. rewrite encode_arr in * by done. simpl in Hf.
    rewrite !sapp_assoc. simpl. apply (parse_array_roundtrip l'); [done|].
    apply forallb_Forall in Hl. rewrite Forall_forall in *. intros v Hv rest'.
    apply IH; auto. rewrite !slength_app in Hf. simpl in Hf.
    pose proof (sconcat_elem_length (encode v) (map encode l')) as Hle.
    specialize (Hle (in_map encode l' v (proj1 (list_elem_of_In l' v) Hv))). lia.
Qed.

(** Reading [n] values in a row, as the connection loop does with pipelined commands. *)
Fixpoint parseMany (n : nat) (s : stream) : option (list Value * stream) :=
  match n with
  | O => Some ([], s)
  | S n =>
      match Parse s with
      | Some (inr v, s) =>
          match parseMany n s with
          | Some (vs, s) => Some (v :: vs, s)
          | None => None
          end
      | _ => None
      end
  end.

Lemma Parse_encode v rest e :
  wire v = true -> Parse (mkStream (encode v +++ rest) e) = Some (inr v, mkStream rest e).
Proof.
  intros Hw. unfold Parse, skipIdleNoise. cbn [s_bytes s_end].
  destruct (encode_cons v Hw) as (t & r & Henc & Ht).
  assert (skipNoise e (encode v +++ rest) = (inr tt, encode v +++ rest)) as ->.
  { rewrite Henc. simpl. unfold isRespType in Ht.
    destruct (code t =? 13) eqn:E1; [|destruct (code t =? 10) eqn:E2; [|done]]; zify_bool.
    - assert (t = CR) as -> by by apply code_inj. done.
    - assert (t = LF) as -> by by apply code_inj. done. }
  unfold ReadByte. cbn [s_bytes s_end]. rewrite Henc at 1. cbn [String.append].
  rewrite Ht. apply parseRESPValue_roundtrip; [done|]. rewrite slength_app. lia.
Qed.

(** C12: What [WriteValue] sends, [Parse] reads back: any sequence of representable values written
    one after the other (pipelined requests, or a batch of replies) is read back value by value,
    nested arrays, nulls and binary payloads with CRLF included, and the parser stops exactly at
    the end of the last one. *)
Theorem Parse_pipeline vs rest e :
  forallb wire vs = true ->
  parseMany (List.length vs)
    (mkStream (fold_left (fun w v => fst (WriteValue w v)) vs EmptyString +++ rest) e)
  = Some (vs, mkStream rest e).
Proof.
  intros Hvs%forallb_Forall.
  assert (forall w, fold_left (fun w v => fst (WriteValue w v)) vs w = w +++ sconcat (map encode vs)) as ->.
  { induction Hvs as [|v vs Hv Hvs IH]; intros w; simpl; [by rewrite sapp_nil_r|].
    rewrite IH, WriteValue_wire by done. simpl. by rewrite sapp_assoc. }
  simpl. induction Hvs as [|v vs Hv Hvs IH]; simpl; [done|].
  by rewrite sapp_assoc, Parse_encode, IH.
Qed.

Lemma Parse_pipeline_witness :
  let vs := [vArr [vBulk "SET"; vBulk "k"; vBulk CRLF]; vInt (-5); vNullArr; vArr []] in
  parseMany 4 (mkStream (fold_left (fun w v => fst (WriteValue w v)) vs EmptyString +++ "PING") io_EOF)
  = Some (vs, mkStream "PING" io_EOF).
Proof. intros vs. apply (Parse_pipeline vs "PING" io_EOF). reflexivity. Defined.
