(* ===== verification/Config.v ===== *)
(** * Package [config]: settings, defaults, memory limits, hot reload and peer lists. *)

From S2P Require Import Prelude GoInt GoStr GoTime GoSort.

(** The [Config] record; a [*bool] is an [option bool]. *)
Record Config := mkConfig {
  ClientBind : string; ClientPort : Z; PeerBind : string; PeerPort : Z; Peers : list string;
  NodeID : string; AdvertiseAddr : string; BootstrapPeer : string; SharedSecret : string;
  ClusterID : string; MaxMemory : string; MaxMemoryPolicy : string; AuthPassword : string;
  ClientIdleTimeout : Z; LogLevel : string; LogOutput : string; LogFormat : string;
  MetricsBind : string; MetricsPort : Z; BootstrapQueueDepth : Z; PeerQueueDepth : Z;
  HeartbeatInterval : Z; HeartbeatTimeout : Z; MgmtSocket : string; MgmtTCPBind : string;
  MgmtTCPPort : Z; GossipPeers : bool; AutoDiscoverPeers : option bool; DiscoveryInterval : Z;
  HetznerAPIToken : string; HetznerLabelSelector : string; HetznerNetworkID : Z;
  HetznerAPIURL : string; AnnounceLeave : option bool; ResyncOnGap : option bool;
  ResyncMinInterval : Z; PeerForgetAfter : Z; PeerStateFile : string;
  ReplShutdownSpillPath : string; ClientTLSCertFile : string; ClientTLSKeyFile : string;
  ClientTLSMinVersion : string; PeerTLSCertFile : string; PeerTLSKeyFile : string;
  PeerTLSCAFile : string; PeerTLSMinVersion : string }.

(** The zero value of the struct, with a memory limit and an eviction policy. *)
Definition memConfig (maxMemory pol : string) : Config :=
  let e := EmptyString in
  mkConfig e 0 e 0 [] e e e e e maxMemory pol e 0 e e e e 0 0 0 0 0 e e 0 false None 0 e e 0 e None None
    0 0 e e e e e e e e e.

Definition zeroConfig : Config := memConfig EmptyString EmptyString.

(** ** Defaults *)

Definition DefaultClientBind : string := "0.0.0.0".
Definition DefaultClientPort : Z := 6379.
Definition DefaultPeerBind : string := "0.0.0.0".
Definition DefaultPeerPort : Z := 7379.
Definition DefaultBootstrapQueueDepth : Z := 100000.
Definition DefaultPeerQueueDepth : Z := 50000.
Definition DefaultHeartbeatInterval : Z := 5.
Definition DefaultDiscoveryInterval : Z := 60.
Definition DefaultPeerForgetAfter : Z := 3600.
Definition DefaultResyncMinInterval : Z := 300.
Definition DefaultHeartbeatTimeout : Z := 15.
Definition DefaultMgmtSocket : string := "/var/run/supercache.sock".
Definition DefaultMgmtTCPBind : string := "127.0.0.1".
Definition DefaultClientIdleTimeout : Z := 3600.

Definition orStr (s d : string) : string := if sempty s then d else s.
Definition orInt (n d : Z) : Z := if n =? 0 then d else n.

Definition ApplyDefaults (c : Config) : Config :=
  mkConfig
    (orStr (ClientBind c) DefaultClientBind) (orInt (ClientPort c) DefaultClientPort)
    (orStr (PeerBind c) DefaultPeerBind) (orInt (PeerPort c) DefaultPeerPort)
    (Peers c) (NodeID c) (AdvertiseAddr c) (BootstrapPeer c) (SharedSecret c) (ClusterID c)
    (orStr (MaxMemory c) "0") (orStr (MaxMemoryPolicy c) "noeviction") (AuthPassword c)
    (orInt (ClientIdleTimeout c) DefaultClientIdleTimeout) (orStr (LogLevel c) "info")
    (orStr (LogOutput c) "stdout") (LogFormat c) (MetricsBind c) (MetricsPort c)
    (orInt (BootstrapQueueDepth c) DefaultBootstrapQueueDepth)
    (orInt (PeerQueueDepth c) DefaultPeerQueueDepth)
    (orInt (HeartbeatInterval c) DefaultHeartbeatInterval)
    (orInt (HeartbeatTimeout c) DefaultHeartbeatTimeout)
    (orStr (MgmtSocket c) DefaultMgmtSocket)
    (if (0 <? MgmtTCPPort c) && sempty (TrimSpace (MgmtTCPBind c)) then DefaultMgmtTCPBind
     else MgmtTCPBind c)
    (MgmtTCPPort c) (GossipPeers c) (AutoDiscoverPeers c)
    (orInt (DiscoveryInterval c) DefaultDiscoveryInterval)
    (HetznerAPIToken c) (HetznerLabelSelector c) (HetznerNetworkID c) (HetznerAPIURL c)
    (AnnounceLeave c) (ResyncOnGap c) (orInt (ResyncMinInterval c) DefaultResyncMinInterval)
    (orInt (PeerForgetAfter c) DefaultPeerForgetAfter) (PeerStateFile c) (ReplShutdownSpillPath c)
    (ClientTLSCertFile c) (ClientTLSKeyFile c) (ClientTLSMinVersion c) (PeerTLSCertFile c)
    (PeerTLSKeyFile c) (PeerTLSCAFile c) (PeerTLSMinVersion c).

(** ** Flags that default to enabled; [None] as receiver is the nil pointer *)

Definition ResyncOnGapEnabled (c : option Config) : bool :=
  match c with Some c => default true (ResyncOnGap c) | None => true end.
Definition AnnounceLeaveEnabled (c : option Config) : bool :=
  match c with Some c => default true (AnnounceLeave c) | None => true end.
Definition AutoDiscoverPeersEnabled (c : option Config) : bool :=
  match c with Some c => default true (AutoDiscoverPeers c) | None => true end.

(** ** Memory limits *)

(** Trailing bytes that are not digits: the number and its suffix. *)
Fixpoint splitSuffix (rs suffix : string) : string * string :=
  match rs with
  | EmptyString => (EmptyString, suffix)
  | String c r => if is_digit c then (srev rs, suffix) else splitSuffix r (String c suffix)
  end.

Definition suffixMul (suffix : string) : option Z :=
  if sempty suffix || (suffix =? "b")%string then Some 1
  else if (suffix =? "k")%string || (suffix =? "kb")%string then Some 1024
  else if (suffix =? "m")%string || (suffix =? "mb")%string then Some (1024 * 1024)
  else if (suffix =? "g")%string || (suffix =? "gb")%string then Some (1024 * 1024 * 1024)
  else None.

(** [*strconv.NumError] of [ParseUint]. *)
Definition numErrorU (s : string) (e : numErr) : error :=
  match e with
  | ErrSyntax =>
      mkError ("strconv.ParseUint: parsing " +++ Quote s +++ ": invalid syntax") (Some ErrNumSyntax)
  | ErrRange =>
      mkError ("strconv.ParseUint: parsing " +++ Quote s +++ ": value out of range") (Some ErrNumRange)
  end.

Definition parseMemoryBytes (s : string) : res Z :=
  let s := TrimSpace (ToLower s) in
  if (s =? "0")%string || sempty s then inr 0
  else
    let '(numStr, suffix) := splitSuffix (srev s) EmptyString in
    if sempty numStr then inl (New "invalid max_memory format")
    else
      let suffix := TrimSpace suffix in
      match ParseUint numStr with
      | inl e => inl (wrapErr "parse max_memory number: " (numErrorU numStr e))
      | inr n =>
          match suffixMul suffix with
          | None => inl (New ("unknown max_memory suffix " +++ Quote suffix))
          | Some mul =>
              if n >? MaxUint64 / mul then inl (New "max_memory value overflow")
              else inr (n * mul)
          end
      end.

Definition validateMaxMemoryString (s : string) : option error :=
  let s := TrimSpace (ToLower s) in
  if (s =? "0")%string || sempty s then None
  else match parseMemoryBytes s with inl e => Some e | inr _ => None end.

Definition MaxMemoryBytes (c : Config) : res Z := parseMemoryBytes (MaxMemory c).
Definition NormalizeMaxMemoryPolicy (c : Config) : string := ToLower (TrimSpace (MaxMemoryPolicy c)).
Definition NormalizeLogLevel (c : Config) : string := ToLower (TrimSpace (LogLevel c)).

(** ** Peer lists *)

Fixpoint peersEqual (a b : list string) : bool :=
  match a, b with
  | [], [] => true
  | x :: a, y :: b => (x =? y)%string && peersEqual a b
  | _, _ => false
  end.

Definition countMap (l : list string) : gmap string Z :=
  fold_left (fun m p => <[p := default 0 (m !! p) + 1]> m) l ∅.

Fixpoint subsetLoop (m : gmap string Z) (old : list string) : bool :=
  match old with
  | [] => true
  | p :: old =>
      if default 0 (m !! p) =? 0 then false
      else subsetLoop (<[p := default 0 (m !! p) - 1]> m) old
  end.

Definition peersMultisetSubset (old new : list string) : bool :=
  if (List.length new <? List.length old)%nat then false
  else subsetLoop (countMap new) old.

(** The body of the two loops of [MergePeerLists], and of [add] in [BootstrapCandidates]. *)
Definition addPeer (st : list string * gset string) (p : string) : list string * gset string :=
  let '(out, seen) := st in
  let p := TrimSpace p in
  if sempty p then (out, seen)
  else if bool_decide (p ∈ seen) then (out, seen)
  else (out ++ [p], {[ p ]} ∪ seen).

Definition MergePeerLists (base extra : list string) : list string :=
  fst (fold_left addPeer extra (fold_left addPeer base ([], ∅))).

Definition BootstrapCandidates (c : option Config) : list string :=
  match c with
  | None => []
  | Some c => fst (fold_left addPeer (Peers c) (addPeer ([], ∅) (BootstrapPeer c)))
  end.

(** ** Hot reload *)

Definition ne (s t : string) : bool := negb (s =? t)%string.
Definition neTrim (s t : string) : bool := ne (TrimSpace s) (TrimSpace t).
Definition neZ (a b : Z) : bool := negb (a =? b).
Definition neB (a b : bool) : bool := xorb a b.

Definition when (b : bool) (name : string) : list string := if b then [name] else [].

(** [diffConfigs]: the hot-reloadable fields that differ, and the ones that block a reload. *)
Definition diffHot (a b : Config) : list string :=
  when (neB (AnnounceLeaveEnabled (Some a)) (AnnounceLeaveEnabled (Some b))) "announce_leave" ++
  when (neB (ResyncOnGapEnabled (Some a)) (ResyncOnGapEnabled (Some b))) "resync_on_gap" ++
  when (neZ (ResyncMinInterval a) (ResyncMinInterval b)) "resync_min_interval" ++
  when (negb (peersEqual (Peers a) (Peers b)) && peersMultisetSubset (Peers a) (Peers b)) "peers" ++
  when (ne (LogLevel a) (LogLevel b)) "log_level" ++
  when (ne (LogOutput a) (LogOutput b)) "log_output" ++
  when (ne (ToLower (TrimSpace (LogFormat a))) (ToLower (TrimSpace (LogFormat b)))) "log_format" ++
  when (ne (MaxMemory a) (MaxMemory b)) "max_memory" ++
  when (ne (MaxMemoryPolicy a) (MaxMemoryPolicy b)) "max_memory_policy" ++
  when (ne (AuthPassword a) (AuthPassword b)) "auth_password" ++
  when (neZ (ClientIdleTimeout a) (ClientIdleTimeout b)) "client_idle_timeout" ++
  when (neZ (HeartbeatInterval a) (HeartbeatInterval b)) "heartbeat_interval" ++
  when (neZ (HeartbeatTimeout a) (HeartbeatTimeout b)) "heartbeat_timeout" ++
  when (neZ (PeerQueueDepth a) (PeerQueueDepth b)) "peer_queue_depth" ++
  when (neB (AutoDiscoverPeersEnabled (Some a)) (AutoDiscoverPeersEnabled (Some b)))
    "auto_discover_peers".

Definition diffBlocked (a b : Config) : list string :=
  when (ne (ClientBind a) (ClientBind b)) "client_bind" ++
  when (neZ (ClientPort a) (ClientPort b)) "client_port" ++
  when (ne (PeerBind a) (PeerBind b)) "peer_bind" ++
  when (neZ (PeerPort a) (PeerPort b)) "peer_port" ++
  when (ne (SharedSecret a) (SharedSecret b)) "shared_secret" ++
  when (neTrim (ClusterID a) (ClusterID b)) "cluster_id" ++
  when (ne (MgmtSocket a) (MgmtSocket b)) "mgmt_socket" ++
  when (neZ (DiscoveryInterval a) (DiscoveryInterval b)) "discovery_interval" ++
  when (ne (HetznerAPIToken a) (HetznerAPIToken b)) "hetzner_api_token" ++
  when (neTrim (HetznerLabelSelector a) (HetznerLabelSelector b)) "hetzner_label_selector" ++
  when (neZ (HetznerNetworkID a) (HetznerNetworkID b)) "hetzner_network_id" ++
  when (neTrim (HetznerAPIURL a) (HetznerAPIURL b)) "hetzner_api_url" ++
  when (neZ (PeerForgetAfter a) (PeerForgetAfter b)) "peer_forget_after" ++
  when (neTrim (MgmtTCPBind a) (MgmtTCPBind b)) "mgmt_tcp_bind" ++
  when (neZ (MgmtTCPPort a) (MgmtTCPPort b)) "mgmt_tcp_port" ++
  when (negb (peersEqual (Peers a) (Peers b)) && negb (peersMultisetSubset (Peers a) (Peers b)))
    "peers" ++
  when (neTrim (BootstrapPeer a) (BootstrapPeer b)) "bootstrap_peer" ++
  when (neTrim (NodeID a) (NodeID b)) "node_id" ++
  when (neTrim (AdvertiseAddr a) (AdvertiseAddr b)) "advertise_addr" ++
  when (neZ (BootstrapQueueDepth a) (BootstrapQueueDepth b)) "bootstrap_queue_depth" ++
  when (neTrim (MetricsBind a) (MetricsBind b)) "metrics_bind" ++
  when (neZ (MetricsPort a) (MetricsPort b)) "metrics_port" ++
  when (neTrim (ClientTLSCertFile a) (ClientTLSCertFile b)) "client_tls_cert_file" ++
  when (neTrim (ClientTLSKeyFile a) (ClientTLSKeyFile b)) "client_tls_key_file" ++
  when (neTrim (ClientTLSMinVersion a) (ClientTLSMinVersion b)) "client_tls_min_version" ++
  when (neTrim (PeerTLSCertFile a) (PeerTLSCertFile b)) "peer_tls_cert_file" ++
  when (neTrim (PeerTLSKeyFile a) (PeerTLSKeyFile b)) "peer_tls_key_file" ++
  when (neTrim (PeerTLSCAFile a) (PeerTLSCAFile b)) "peer_tls_ca_file" ++
  when (neTrim (PeerTLSMinVersion a) (PeerTLSMinVersion b)) "peer_tls_min_version" ++
  when (neB (GossipPeers a) (GossipPeers b)) "gossip_peers" ++
  when (neTrim (PeerStateFile a) (PeerStateFile b)) "peer_state_file" ++
  when (neTrim (ReplShutdownSpillPath a) (ReplShutdownSpillPath b)) "repl_shutdown_spill_path".

Definition diffConfigs (a b : Config) : list string * list string := (diffHot a b, diffBlocked a b).

Fixpoint join (sep : string) (l : list string) : string :=
  match l with
  | [] => EmptyString
  | [x] => x
  | x :: l => x +++ sep +++ join sep l
  end.

(** [Reload], after the file has been loaded and validated. *)
Definition Reload (current : option Config) (loaded : res Config) : res (Config * list string) :=
  match loaded with
  | inl e => inl (wrapErr "reload config: " e)
  | inr newCfg =>
      match current with
      | None => inr (newCfg, [])
      | Some cur =>
          let '(changed, blocked) := diffConfigs cur newCfg in
          if bool_decide (blocked = []) then inr (newCfg, changed)
          else inl (New ("cannot hot-reload changed fields: " +++ join ", " blocked))
      end
  end.
