(* ===== verification/Json.v ===== *)
(** * Package [encoding/json], as the peer and management protocols use it.

    A document is a value of [json]; [print] is [json.Marshal]'s text of it (compact, with the HTML
    characters escaped) and [parse] the scanner and the unquoting of [json.Unmarshal].  A
    [json.RawMessage] is the value it denotes.  Decoding into a struct goes through the members of
    the object in order; a member of the wrong type is an error, reported after the others have been
    stored. *)

From S2P Require Import Prelude GoInt GoStr GoTime GoSort Config.

Inductive json :=
  | JNull
  | JBool (b : bool)
  | JNum (lit : string)
  | JStr (s : string)
  | JArr (l : list json)
  | JObj (l : list (string * json)).

(** ** Printing *)

Definition one (c : ascii) : string := String c EmptyString.
Definition byte1 (n : Z) : string := one (chr n).

Definition hexDigit (n : Z) : ascii := chr (if n <? 10 then 48 + n else 87 + n).

(** The replacement character U+FFFD in UTF-8. *)
Definition replacement : string := byte1 0xEF +++ byte1 0xBF +++ byte1 0xBD.

(** [htmlSafeSet]: the bytes below 0x80 a string holds unescaped. *)
Definition htmlSafe (c : ascii) : bool :=
  (32 <=? code c) && negb (code c =? 34) && negb (code c =? 92) && negb (code c =? 60)
  && negb (code c =? 62) && negb (code c =? 38).

Definition backslash : string := byte1 92.
Definition dquote : string := byte1 34.

(** A byte below 0x80 that is not safe. *)
Definition escapeByte (c : ascii) : string :=
  let n := code c in
  if (n =? 34) || (n =? 92) then backslash +++ one c
  else if n =? 8 then backslash +++ "b"
  else if n =? 12 then backslash +++ "f"
  else if n =? 10 then backslash +++ "n"
  else if n =? 13 then backslash +++ "r"
  else if n =? 9 then backslash +++ "t"
  else backslash +++ "u00" +++ one (hexDigit (n / 16)) +++ one (hexDigit (n mod 16)).

(** U+2028 or U+2029 at the start of the string; the last byte tells which. *)
Definition lineSeparator (s : string) : option string :=
  if hasPrefix (byte1 0xE2 +++ byte1 0x80 +++ byte1 0xA8) s then Some "8"%string
  else if hasPrefix (byte1 0xE2 +++ byte1 0x80 +++ byte1 0xA9) s then Some "9"%string
  else None.

(** The bytes of the string from a rune at 0x80 or above on: whether they start a valid encoding. *)
Definition badRune (s : string) : bool :=
  let '(r, n) := decodeRune s in (r =? RuneError) && (n =? 1)%nat.
Definition runeWidth (s : string) : nat := snd (decodeRune s).

(** [appendString] without the quotes. *)
Fixpoint escape (fuel : nat) (s : string) : string :=
  match fuel, s with
  | S fuel, String c r =>
      if code c <? 0x80 then (if htmlSafe c then one c else escapeByte c) +++ escape fuel r
      else if badRune s then backslash +++ "ufffd" +++ escape fuel r
      else match lineSeparator s with
           | Some d => backslash +++ "u202" +++ d +++ escape fuel (sdrop 3 s)
           | None => stake (runeWidth s) s +++ escape fuel (sdrop (runeWidth s) s)
           end
  | _, _ => EmptyString
  end.

Definition quoted (s : string) : string := dquote +++ escape (String.length s) s +++ dquote.

Fixpoint print (j : json) : string :=
  match j with
  | JNull => "null"
  | JBool b => if b then "true" else "false"
  | JNum lit => lit
  | JStr s => quoted s
  | JArr l => "[" +++ join "," (map print l) +++ "]"
  | JObj l => "{" +++ join "," (map (fun kv => quoted (fst kv) +++ ":" +++ print (snd kv)) l) +++ "}"
  end.

(** ** Parsing *)

Definition jsonSpace (c : ascii) : bool :=
  (code c =? 32) || (code c =? 9) || (code c =? 13) || (code c =? 10).

Fixpoint skipWs (s : string) : string :=
  match s with
  | String c r => if jsonSpace c then skipWs r else s
  | EmptyString => EmptyString
  end.

Definition hexVal (c : ascii) : option Z :=
  let n := code c in
  if is_digit c then Some (n - 48)
  else if (97 <=? n) && (n <=? 102) then Some (n - 87)
  else if (65 <=? n) && (n <=? 70) then Some (n - 55)
  else None.

(** Four hexadecimal digits. *)
Definition hex4 (s : string) : option (Z * string) :=
  match s with
  | String a (String b (String c (String d r))) =>
      match hexVal a, hexVal b, hexVal c, hexVal d with
      | Some a, Some b, Some c, Some d => Some (((a * 16 + b) * 16 + c) * 16 + d, r)
      | _, _, _, _ => None
      end
  | _ => None
  end.

(** [getu4]: an escape backslash-u and its digits. *)
Definition getu4 (s : string) : option (Z * string) :=
  match s with
  | String a (String b r) => if (code a =? 92) && (code b =? 117) then hex4 r else None
  | _ => None
  end.

(** [utf8.AppendRune] of a rune that is not a surrogate. *)
Definition encodeRune (r : Z) : string :=
  if r <? 0x80 then byte1 r
  else if r <? 0x800 then byte1 (0xC0 + r / 64) +++ byte1 (0x80 + r mod 64)
  else if r <? 0x10000 then
    byte1 (0xE0 + r / 4096) +++ byte1 (0x80 + r / 64 mod 64) +++ byte1 (0x80 + r mod 64)
  else
    byte1 (0xF0 + r / 262144) +++ byte1 (0x80 + r / 4096 mod 64) +++ byte1 (0x80 + r / 64 mod 64)
    +++ byte1 (0x80 + r mod 64).

Definition surrogate (r : Z) : bool := between 0xD800 r 0xDFFF.

(** What [unquote] appends for an escaped code unit, and where it goes on: a pair of surrogates is
    one rune, a lone one is replaced. *)
Definition unquoteUnit (u : Z) (rest : string) : string * string :=
  if surrogate u then
    match getu4 rest with
    | Some (u2, rest2) =>
        if between 0xD800 u 0xDBFF && between 0xDC00 u2 0xDFFF
        then (encodeRune ((u - 0xD800) * 1024 + (u2 - 0xDC00) + 0x10000), rest2)
        else (replacement, rest)
    | None => (replacement, rest)
    end
  else (encodeRune u, rest).

Definition prepend (p : string) (x : option (string * string)) : option (string * string) :=
  match x with Some (s, r) => Some (p +++ s, r) | None => None end.

Definition simpleEscape (c : ascii) : option string :=
  let n := code c in
  if (n =? 34) || (n =? 92) || (n =? 47) then Some (one c)
  else if n =? 98 then Some (byte1 8)
  else if n =? 102 then Some (byte1 12)
  else if n =? 110 then Some (byte1 10)
  else if n =? 114 then Some (byte1 13)
  else if n =? 116 then Some (byte1 9)
  else None.

(** The rest of a string literal after the opening quote: its value and what follows. *)
Fixpoint scanStr (fuel : nat) (s : string) : option (string * string) :=
  match fuel, s with
  | S fuel, String c r =>
      let n := code c in
      if n =? 34 then Some (EmptyString, r)
      else if n =? 92 then
        match r with
        | EmptyString => None
        | String e r1 =>
            if code e =? 117 then
              match hex4 r1 with
              | None => None
              | Some (u, r2) => let '(out, r3) := unquoteUnit u r2 in prepend out (scanStr fuel r3)
              end
            else match simpleEscape e with
                 | None => None
                 | Some out => prepend out (scanStr fuel r1)
                 end
        end
      else if n <? 32 then None
      else if n <? 0x80 then prepend (one c) (scanStr fuel r)
      else if badRune s then prepend replacement (scanStr fuel r)
      else prepend (stake (runeWidth s) s) (scanStr fuel (sdrop (runeWidth s) s))
  | _, _ => None
  end.

Fixpoint takeDigits (s : string) : string * string :=
  match s with
  | String c r => if is_digit c then let '(d, r) := takeDigits r in (String c d, r) else (EmptyString, s)
  | EmptyString => (EmptyString, EmptyString)
  end.

Definition byteIs (n : Z) (s : string) : bool := match byteAt 0 s with Some m => m =? n | None => false end.

(** The parts of a number after its sign. *)
Definition scanInt (s : string) : option (string * string) :=
  if byteIs 48 s then Some ("0"%string, sdrop 1 s)
  else let '(d, r) := takeDigits s in if sempty d then None else Some (d, r).

Definition scanFrac (s : string) : option (string * string) :=
  if byteIs 46 s then
    let '(d, r) := takeDigits (sdrop 1 s) in if sempty d then None else Some ("." +++ d, r)
  else Some (EmptyString, s).

Definition scanExp (s : string) : option (string * string) :=
  if byteIs 101 s || byteIs 69 s then
    let e := stake 1 s in
    let s := sdrop 1 s in
    let '(sg, s) := if byteIs 43 s || byteIs 45 s then (stake 1 s, sdrop 1 s) else (EmptyString, s) in
    let '(d, r) := takeDigits s in if sempty d then None else Some (e +++ sg +++ d, r)
  else Some (EmptyString, s).

Definition scanNum (s : string) : option (string * string) :=
  let '(sg, s) := if byteIs 45 s then ("-"%string, sdrop 1 s) else (EmptyString, s) in
  match scanInt s with
  | None => None
  | Some (i, s) =>
      match scanFrac s with
      | None => None
      | Some (f, s) => match scanExp s with
                       | None => None
                       | Some (e, s) => Some (sg +++ i +++ f +++ e, s)
                       end
      end
  end.

Definition maxNestingDepth : Z := 10000.

Definition keyword (word : string) (v : json) (s : string) : option (json * string) :=
  if hasPrefix word s then Some (v, sdrop (String.length word) s) else None.

(** [depth] is the nesting at this point.  Every call reads a byte or hands over to one that does. *)
Fixpoint parseValue (fuel : nat) (depth : Z) (s : string) {struct fuel} : option (json * string) :=
  match fuel with
  | O => None
  | S fuel =>
      let s := skipWs s in
      if byteIs 34 s then
        match scanStr (String.length s) (sdrop 1 s) with Some (x, r) => Some (JStr x, r) | None => None end
      else if byteIs 91 s then
        if maxNestingDepth <=? depth then None
        else
          let r := skipWs (sdrop 1 s) in
          if byteIs 93 r then Some (JArr [], sdrop 1 r)
          else match parseElems fuel (depth + 1) r with Some (l, r) => Some (JArr l, r) | None => None end
      else if byteIs 123 s then
        if maxNestingDepth <=? depth then None
        else
          let r := skipWs (sdrop 1 s) in
          if byteIs 125 r then Some (JObj [], sdrop 1 r)
          else match parseMembers fuel (depth + 1) r with Some (l, r) => Some (JObj l, r) | None => None end
      else if byteIs 110 s then keyword "null" JNull s
      else if byteIs 116 s then keyword "true" (JBool true) s
      else if byteIs 102 s then keyword "false" (JBool false) s
      else match scanNum s with Some (lit, r) => Some (JNum lit, r) | None => None end
  end

with parseElems (fuel : nat) (depth : Z) (s : string) {struct fuel} : option (list json * string) :=
  match fuel with
  | O => None
  | S fuel =>
      match parseValue fuel depth s with
      | None => None
      | Some (v, r) =>
          let r := skipWs r in
          if byteIs 44 r then
            match parseElems fuel depth (sdrop 1 r) with Some (l, r) => Some (v :: l, r) | None => None end
          else if byteIs 93 r then Some ([v], sdrop 1 r)
          else None
      end
  end

with parseMembers (fuel : nat) (depth : Z) (s : string) {struct fuel} : option (list (string * json) * string) :=
  match fuel with
  | O => None
  | S fuel =>
      let s := skipWs s in
      if byteIs 34 s then
        match scanStr (String.length s) (sdrop 1 s) with
        | None => None
        | Some (k, r) =>
            let r := skipWs r in
            if byteIs 58 r then
              match parseValue fuel depth (sdrop 1 r) with
              | None => None
              | Some (v, r) =>
                  let r := skipWs r in
                  if byteIs 44 r then
                    match parseMembers fuel depth (sdrop 1 r) with
                    | Some (l, r) => Some ((k, v) :: l, r)
                    | None => None
                    end
                  else if byteIs 125 r then Some ([(k, v)], sdrop 1 r)
                  else None
              end
            else None
        end
      else None
  end.

(** The document of a text, which nothing but white space follows. *)
Definition parse (s : string) : option json :=
  match parseValue (2 * String.length s + 2) 0 s with
  | Some (j, r) => if sempty (skipWs r) then Some j else None
  | None => None
  end.

(** ** Base64, standard alphabet with padding *)

Definition b64char (n : Z) : ascii :=
  chr (if n <? 26 then 65 + n else if n <? 52 then 71 + n else if n <? 62 then n - 4
       else if n =? 62 then 43 else 47).

Definition b64val (c : ascii) : option Z :=
  let n := code c in
  if between 65 n 90 then Some (n - 65)
  else if between 97 n 122 then Some (n - 71)
  else if between 48 n 57 then Some (n + 4)
  else if n =? 43 then Some 62
  else if n =? 47 then Some 63
  else None.

Fixpoint encode64 (s : string) : string :=
  match s with
  | EmptyString => EmptyString
  | String a EmptyString =>
      one (b64char (code a / 4)) +++ one (b64char (code a mod 4 * 16)) +++ "=="
  | String a (String b EmptyString) =>
      one (b64char (code a / 4)) +++ one (b64char (code a mod 4 * 16 + code b / 16))
      +++ one (b64char (code b mod 16 * 4)) +++ "="
  | String a (String b (String c r)) =>
      one (b64char (code a / 4)) +++ one (b64char (code a mod 4 * 16 + code b / 16))
      +++ one (b64char (code b mod 16 * 4 + code c / 64)) +++ one (b64char (code c mod 64)) +++ encode64 r
  end.

Definition padding (c : ascii) : bool := code c =? 61.

Fixpoint decodeGroups (s : string) : option string :=
  match s with
  | EmptyString => Some EmptyString
  | String a (String b (String c (String d r))) =>
      match b64val a, b64val b with
      | Some x, Some y =>
          let b0 := byte1 (x * 4 + y / 16) in
          if padding c then if padding d && sempty r then Some b0 else None
          else match b64val c with
               | None => None
               | Some z =>
                   let b1 := byte1 (y mod 16 * 16 + z / 4) in
                   if padding d then if sempty r then Some (b0 +++ b1) else None
                   else match b64val d with
                        | None => None
                        | Some w =>
                            match decodeGroups r with
                            | None => None
                            | Some t => Some (b0 +++ b1 +++ byte1 (z mod 4 * 64 + w) +++ t)
                            end
                        end
               end
      | _, _ => None
      end
  | _ => None
  end.

(** Line breaks are skipped anywhere. *)
Fixpoint dropBreaks (s : string) : string :=
  match s with
  | EmptyString => EmptyString
  | String c r => if (code c =? 10) || (code c =? 13) then dropBreaks r else String c (dropBreaks r)
  end.

Definition decode64 (s : string) : option string := decodeGroups (dropBreaks s).

(** ** Encoding Go values *)

Definition jInt (n : Z) : json := JNum (FormatInt n).
Definition jUint (n : Z) : json := JNum (FormatUint n).
Definition jBytes (b : slice) : json := match b with None => JNull | Some s => JStr (encode64 s) end.
Definition jStrings (l : list string) : json := JArr (map JStr l).

(** A map goes in the order of its keys. *)
Definition jMap (m : gmap string slice) : json :=
  JObj (map (fun k => (k, jBytes (default None (m !! k)))) (sortStrings (map fst (map_to_list m)))).

(** [omitempty]. *)
Definition unless (empty : bool) (name : string) (v : json) : list (string * json) :=
  if empty then [] else [(name, v)].

(** ** Decoding into Go values

    A decoder takes the present value and returns the new one, and whether the JSON value had the
    right type.  [null] leaves scalars and structs as they are and makes slices and maps nil. *)

Definition decoder (A : Type) : Type := A -> json -> A * bool.

Definition dString : decoder string := fun cur j =>
  match j with JStr s => (s, true) | JNull => (cur, true) | _ => (cur, false) end.
Definition dBool : decoder bool := fun cur j =>
  match j with JBool b => (b, true) | JNull => (cur, true) | _ => (cur, false) end.
Definition dInt : decoder Z := fun cur j =>
  match j with
  | JNum lit => match ParseInt lit with inr n => (n, true) | inl _ => (cur, false) end
  | JNull => (cur, true)
  | _ => (cur, false)
  end.
Definition dUint (max : Z) : decoder Z := fun cur j =>
  match j with
  | JNum lit =>
      match ParseUint lit with inr n => if n <=? max then (n, true) else (cur, false) | inl _ => (cur, false) end
  | JNull => (cur, true)
  | _ => (cur, false)
  end.

Definition dRaw : decoder (option json) := fun _ j => (Some j, true).

(** Elements of a slice, each decoded into its zero value. *)
Fixpoint dElems {A} (zero : A) (d : decoder A) (l : list json) : list A * bool :=
  match l with
  | [] => ([], true)
  | j :: l => let '(x, ok) := d zero j in let '(xs, oks) := dElems zero d l in (x :: xs, ok && oks)
  end.

Definition dSlice {A} (zero : A) (d : decoder A) : decoder (list A) := fun cur j =>
  match j with JArr l => dElems zero d l | JNull => ([], true) | _ => (cur, false) end.

Definition stringOfBytes (l : list Z) : string := foldr (fun n s => String (chr n) s) EmptyString l.

(** A byte slice is base64 text; an array of numbers is accepted too. *)
Definition dBytes : decoder slice := fun cur j =>
  match j with
  | JStr s => match decode64 s with Some b => (Some b, true) | None => (cur, false) end
  | JArr l => let '(xs, ok) := dElems 0 (dUint 255) l in (Some (stringOfBytes xs), ok)
  | JNull => (None, true)
  | _ => (cur, false)
  end.

(** Members of an object, in order, into the map so far. *)
Fixpoint dEntries (m : gmap string slice) (l : list (string * json)) : gmap string slice * bool :=
  match l with
  | [] => (m, true)
  | (k, j) :: l =>
      let '(v, ok) := dBytes None j in
      let '(m, oks) := dEntries (<[k := v]> m) l in (m, ok && oks)
  end.

Definition dMap : decoder (gmap string slice) := fun cur j =>
  match j with JObj l => dEntries cur l | JNull => (∅, true) | _ => (cur, false) end.

(** Member names match field names regardless of case; besides the ASCII letters, U+017F folds to S
    and U+212A to K. *)
Fixpoint foldName (s : string) : string :=
  match s with
  | EmptyString => EmptyString
  | String a r =>
      match r with
      | String b r2 =>
          if (code a =? 0xC5) && (code b =? 0xBF) then String "S"%char (foldName r2)
          else match r2 with
               | String c r3 =>
                   if (code a =? 0xE2) && (code b =? 0x84) && (code c =? 0xAA)
                   then String "K"%char (foldName r3)
                   else String (upperByte a) (foldName r)
               | EmptyString => String (upperByte a) (foldName r)
               end
      | EmptyString => one (upperByte a)
      end
  end.

(** A field of a struct: its name and how a member is stored into it. *)
Definition field (S : Type) : Type := string * (S -> json -> S * bool).

Definition into {S A} (get : S -> A) (set : A -> S -> S) (d : decoder A) : S -> json -> S * bool :=
  fun s j => let '(a, ok) := d (get s) j in (set a s, ok).

(** One member; a name no field has is ignored. *)
Fixpoint dMember {S} (fs : list (field S)) (s : S) (k : string) (j : json) : S * bool :=
  match fs with
  | [] => (s, true)
  | (name, store) :: fs =>
      if (foldName k =? foldName name)%string then store s j else dMember fs s k j
  end.

Fixpoint dMembers {S} (fs : list (field S)) (s : S) (l : list (string * json)) : S * bool :=
  match l with
  | [] => (s, true)
  | (k, j) :: l =>
      let '(s, ok) := dMember fs s k j in let '(s, oks) := dMembers fs s l in (s, ok && oks)
  end.

Definition dStruct {S} (fs : list (field S)) : decoder S := fun s j =>
  match j with JObj l => dMembers fs s l | JNull => (s, true) | _ => (s, false) end.

(** [json.Unmarshal] of a raw message into the zero value: the value stored, and whether there was no
    error.  [None] is the empty message. *)
Definition Unmarshal {S} (zero : S) (fs : list (field S)) (raw : option json) : S * bool :=
  match raw with Some j => dStruct fs zero j | None => (zero, false) end.
