(* ===== verification/GoNet.v ===== *)
(** * Packages [net], [net/netip] and [encoding/hex], as the sources use them.

    An IP address is its 16 bytes, an IPv4 address in the mapped form [::ffff:a.b.c.d], which is how
    [net.ParseIP] returns it; a 4-byte slice denotes the same address. *)

From S2P Require Import Prelude GoInt GoStr GoTime Config Json.

(** ** Host and port *)

(** The index of the first, and of the last, occurrence of a byte. *)
Fixpoint indexByte (c : Z) (s : string) : option nat :=
  match s with
  | EmptyString => None
  | String d s => if code d =? c then Some 0%nat else S <$> indexByte c s
  end.

Fixpoint lastIndexByte (c : Z) (s : string) : option nat :=
  match s with
  | EmptyString => None
  | String d s =>
      match lastIndexByte c s with
      | Some i => Some (S i)
      | None => if code d =? c then Some 0%nat else None
      end
  end.

Definition hasByte (c : Z) (s : string) : bool := match indexByte c s with Some _ => true | None => false end.

Definition addrError (addr why : string) : error :=
  New (if sempty addr then why else "address " +++ addr +++ ": " +++ why).

(** [net.SplitHostPort]. *)
Definition SplitHostPort (hostport : string) : res (string * string) :=
  let fail why := inl (addrError hostport why) in
  let missingPort := "missing port in address"%string in
  let tooManyColons := "too many colons in address"%string in
  let finish host i j k :=
    if hasByte 91 (sdrop j hostport) then fail "unexpected '[' in address"%string
    else if hasByte 93 (sdrop k hostport) then fail "unexpected ']' in address"%string
    else inr (host, sdrop (S i) hostport) in
  match lastIndexByte 58 hostport with
  | None => fail missingPort
  | Some i =>
      if byteIs 91 hostport then
        match indexByte 93 hostport with
        | None => fail "missing ']' in address"%string
        | Some e =>
            if (S e =? String.length hostport)%nat then fail missingPort
            else if (S e =? i)%nat then finish (stake (e - 1) (sdrop 1 hostport)) i 1%nat (S e)
            else if byteIs 58 (sdrop (S e) hostport) then fail tooManyColons
            else fail missingPort
        end
      else
        let host := stake i hostport in
        if hasByte 58 host then fail tooManyColons else finish host i 0%nat 0%nat
  end.

(** [net.JoinHostPort]. *)
Definition JoinHostPort (host port : string) : string :=
  if hasByte 58 host then "[" +++ host +++ "]:" +++ port else host +++ ":" +++ port.

(** ** IP addresses *)

Definition IP : Type := list Z.

Definition v4Prefix : list Z := [0; 0; 0; 0; 0; 0; 0; 0; 0; 0; 255; 255].

Definition To4 (ip : IP) : option (list Z) :=
  if bool_decide (take 12 ip = v4Prefix) then Some (drop 12 ip) else None.

(** One decimal field of an IPv4 address: digits without a leading zero, at most 255. *)
Definition octet (s : string) : option Z :=
  match s with
  | EmptyString => None
  | String c r =>
      if sall is_digit s && (negb (code c =? 48) || sempty r) && (String.length s <=? 3)%nat then
        match ParseUint s with inr n => if n <=? 255 then Some n else None | inl _ => None end
      else None
  end.

(** The pieces of a string between separators. *)
Fixpoint splitByte (c : Z) (s : string) : list string :=
  match s with
  | EmptyString => [EmptyString]
  | String d s =>
      if code d =? c then EmptyString :: splitByte c s
      else match splitByte c s with [] => [one d] | x :: l => String d x :: l end
  end.

Definition parseIPv4 (s : string) : option (list Z) :=
  match map octet (splitByte 46 s) with
  | [Some a; Some b; Some c; Some d] => Some [a; b; c; d]
  | _ => None
  end.

(** The leading hexadecimal digits: at most four, or [None]; their value and what follows. *)
Fixpoint hexGroup (s : string) (off : nat) (acc : Z) : option (nat * Z * string) :=
  match s with
  | EmptyString => Some (off, acc, s)
  | String c r =>
      match hexVal c with
      | None => Some (off, acc, s)
      | Some d => if (3 <? off)%nat then None else hexGroup r (S off) (acc * 16 + d)
      end
  end.

(** The loop of [parseIPv6] over the fields: the bytes so far, the position of the ellipsis, the text
    left.  [None] is an error. *)
Fixpoint ipv6Fields (fuel : nat) (ip : list Z) (ellipsis : option nat) (s : string)
    : option (list Z * option nat * string) :=
  match fuel with
  | O => Some (ip, ellipsis, s)
  | S fuel =>
      if (16 <=? List.length ip)%nat then Some (ip, ellipsis, s)
      else match hexGroup s 0 0 with
           | None | Some (O, _, _) => None
           | Some (_, acc, rest) =>
               if byteIs 46 rest then
                 if match ellipsis with None => negb (List.length ip =? 12)%nat | Some _ => false end then None
                 else if (16 <? List.length ip + 4)%nat then None
                 else match parseIPv4 s with
                      | None => None
                      | Some v4 => Some (ip ++ v4, ellipsis, EmptyString)
                      end
               else
                 let ip := ip ++ [acc / 256; acc mod 256] in
                 if sempty rest then Some (ip, ellipsis, rest)
                 else if negb (byteIs 58 rest) || (String.length rest =? 1)%nat then None
                 else
                   let s := sdrop 1 rest in
                   if byteIs 58 s then
                     match ellipsis with
                     | Some _ => None
                     | None =>
                         let s := sdrop 1 s in
                         if sempty s then Some (ip, Some (List.length ip), s)
                         else ipv6Fields fuel ip (Some (List.length ip)) s
                     end
                   else ipv6Fields fuel ip ellipsis s
           end
  end.

(** [parseIPv6] of a text without a zone. *)
Definition parseIPv6 (s : string) : option IP :=
  let '(ellipsis, s) :=
    if hasPrefix "::" s then (Some 0%nat, sdrop 2 s) else (None, s) in
  if match ellipsis with Some _ => sempty s | None => false end then Some (replicate 16 0)
  else match ipv6Fields 8 [] ellipsis s with
       | None => None
       | Some (ip, ellipsis, s) =>
           if negb (sempty s) then None
           else if (List.length ip <? 16)%nat then
             match ellipsis with
             | None => None
             | Some e => Some (take e ip ++ replicate (16 - List.length ip) 0 ++ drop e ip)
             end
           else match ellipsis with Some _ => None | None => Some ip end
       end.

(** [net.ParseIP]: which parser is decided by the first of dot and colon; a zone is refused. *)
Fixpoint addrKind (s : string) : option bool :=
  match s with
  | EmptyString => None
  | String c s =>
      if code c =? 46 then Some true
      else if code c =? 58 then Some false
      else if code c =? 37 then None
      else addrKind s
  end.

Definition ParseIP (s : string) : option IP :=
  match addrKind s with
  | Some true => app v4Prefix <$> parseIPv4 s
  | Some false => if hasByte 37 s then None else parseIPv6 s
  | None => None
  end.

(** *** Printing *)

Definition dotted (v4 : list Z) : string := join "." (map FormatInt v4).

(** A 16-bit group in hexadecimal, without leading zeros. *)
Definition hexWord (n : Z) : string :=
  (if n >=? 4096 then one (hexDigit (n / 4096)) else EmptyString)
  +++ (if n >=? 256 then one (hexDigit (n / 256 mod 16)) else EmptyString)
  +++ (if n >=? 16 then one (hexDigit (n / 16 mod 16)) else EmptyString)
  +++ one (hexDigit (n mod 16)).

Fixpoint groupsOf (ip : IP) : list Z :=
  match ip with
  | a :: b :: ip => a * 256 + b :: groupsOf ip
  | _ => []
  end.

Fixpoint zeroRun (l : list Z) : nat :=
  match l with
  | 0 :: l => S (zeroRun l)
  | _ => O
  end.

(** The first longest run of at least two zero groups: its start and length. *)
Fixpoint longestRun (i : nat) (l : list Z) (best : nat * nat) : nat * nat :=
  match l with
  | [] => best
  | _ :: r =>
      let n := zeroRun l in
      longestRun (S i) r (if (2 <=? n)%nat && (snd best <? n)%nat then (i, n) else best)
  end.

Definition groups16 (ip : IP) : string :=
  let gs := groupsOf ip in
  let '(start, n) := longestRun 0 gs (0%nat, 0%nat) in
  let show l := join ":" (map hexWord l) in
  if (n =? 0)%nat then show gs else show (take start gs) +++ "::" +++ show (drop (start + n) gs).

(** [ip.String()]. *)
Definition ipString (ip : IP) : string :=
  match To4 ip with Some v4 => dotted v4 | None => groups16 ip end.

(** *** Classes *)

Definition ipByte (n : nat) (ip : IP) : Z := default 0 (ip !! n).

Definition IsLoopback (ip : IP) : bool :=
  match To4 ip with
  | Some v4 => ipByte 0 v4 =? 127
  | None => bool_decide (ip = replicate 15 0 ++ [1])
  end.
Definition IsUnspecified (ip : IP) : bool :=
  bool_decide (ip = v4Prefix ++ [0; 0; 0; 0]) || bool_decide (ip = replicate 16 0).
Definition IsPrivate (ip : IP) : bool :=
  match To4 ip with
  | Some v4 =>
      (ipByte 0 v4 =? 10) || ((ipByte 0 v4 =? 172) && (ipByte 1 v4 / 16 =? 1))
      || ((ipByte 0 v4 =? 192) && (ipByte 1 v4 =? 168))
  | None => ipByte 0 ip / 2 =? 0xFC / 2
  end.
Definition IsMulticast (ip : IP) : bool :=
  match To4 ip with
  | Some v4 => ipByte 0 v4 / 16 =? 14
  | None => ipByte 0 ip =? 255
  end.
Definition IsLinkLocalUnicast (ip : IP) : bool :=
  match To4 ip with
  | Some v4 => (ipByte 0 v4 =? 169) && (ipByte 1 v4 =? 254)
  | None => (ipByte 0 ip =? 254) && (ipByte 1 ip / 64 =? 2)
  end.
Definition IsLinkLocalMulticast (ip : IP) : bool :=
  match To4 ip with
  | Some v4 => (ipByte 0 v4 =? 224) && (ipByte 1 v4 =? 0) && (ipByte 2 v4 =? 0)
  | None => (ipByte 0 ip =? 255) && (ipByte 1 ip mod 16 =? 2)
  end.

(** ** Hexadecimal text *)

Fixpoint hexEncode (s : string) : string :=
  match s with
  | EmptyString => EmptyString
  | String c s => String (hexDigit (code c / 16)) (String (hexDigit (code c mod 16)) (hexEncode s))
  end.

Fixpoint hexDecode (s : string) : option string :=
  match s with
  | EmptyString => Some EmptyString
  | String a (String b r) =>
      match hexVal a, hexVal b, hexDecode r with
      | Some x, Some y, Some t => Some (String (chr (x * 16 + y)) t)
      | _, _, _ => None
      end
  | _ => None
  end.
