(* ===== verification/GoCrypto.v ===== *)
(** * Packages [crypto/sha256], [crypto/hmac] and [crypto/md5], as the sources use them: the digests on
    32-bit words kept in [Z] with the wrap-around written out. *)

From S2P Require Import Prelude GoInt GoStr GoTime Config Json.

(** ** SHA-256 *)

Definition w32 (n : Z) : Z := n mod 2 ^ 32.
Definition rotr (k n : Z) : Z := Z.lor (Z.shiftr n k) (w32 (Z.shiftl n (32 - k))).

(** The constants are the first 32 bits of the fractional parts of roots of the first primes. *)
Definition isPrime (n : nat) : bool := forallb (fun d => negb (n mod d =? 0)%nat) (seq 2 (n - 2)).
Definition primes : list Z := Eval vm_compute in map Z.of_nat (List.filter isPrime (seq 2 310)).

(** The greatest [r] below [2 ^ bits] with [r ^ 3 <= n], bit by bit from the top. *)
Fixpoint cubeRoot (bits : nat) (r n : Z) : Z :=
  match bits with
  | O => r
  | S bits => let r' := r + 2 ^ Z.of_nat bits in cubeRoot bits (if r' * r' * r' <=? n then r' else r) n
  end.

Definition roundConstants : list Z := Eval vm_compute in map (fun p => w32 (cubeRoot 40 0 (p * 2 ^ 96))) primes.

Record sha := mkSha { h0 : Z; h1 : Z; h2 : Z; h3 : Z; h4 : Z; h5 : Z; h6 : Z; h7 : Z }.

Definition initial : sha := Eval vm_compute in
  let h n := w32 (Z.sqrt (nth n primes 0 * 2 ^ 64)) in
  mkSha (h 0%nat) (h 1%nat) (h 2%nat) (h 3%nat) (h 4%nat) (h 5%nat) (h 6%nat) (h 7%nat).

(** The next word of the schedule, from the last sixteen, newest first. *)
Definition nextWord (ws : list Z) : Z :=
  let w n := nth n ws 0 in
  let s0 := Z.lxor (Z.lxor (rotr 7 (w 14%nat)) (rotr 18 (w 14%nat))) (Z.shiftr (w 14%nat) 3) in
  let s1 := Z.lxor (Z.lxor (rotr 17 (w 1%nat)) (rotr 19 (w 1%nat))) (Z.shiftr (w 1%nat) 10) in
  w32 (w 15%nat + s0 + w 6%nat + s1).

Fixpoint extend (n : nat) (ws : list Z) : list Z :=
  match n with
  | O => rev ws
  | S n => extend n (nextWord ws :: ws)
  end.

Definition round (s : sha) (kw : Z * Z) : sha :=
  let '(k, w) := kw in
  let s1 := Z.lxor (Z.lxor (rotr 6 (h4 s)) (rotr 11 (h4 s))) (rotr 25 (h4 s)) in
  let ch := Z.lxor (Z.land (h4 s) (h5 s)) (Z.land (2 ^ 32 - 1 - h4 s) (h6 s)) in
  let t1 := h7 s + s1 + ch + k + w in
  let s0 := Z.lxor (Z.lxor (rotr 2 (h0 s)) (rotr 13 (h0 s))) (rotr 22 (h0 s)) in
  let maj := Z.lxor (Z.lxor (Z.land (h0 s) (h1 s)) (Z.land (h0 s) (h2 s))) (Z.land (h1 s) (h2 s)) in
  mkSha (w32 (t1 + s0 + maj)) (h0 s) (h1 s) (h2 s) (w32 (h3 s + t1)) (h4 s) (h5 s) (h6 s).

Definition word (a b c d : ascii) : Z := ((code a * 256 + code b) * 256 + code c) * 256 + code d.

(** The words of a text, four bytes each. *)
Fixpoint words (s : string) : list Z :=
  match s with
  | String a (String b (String c (String d s))) => word a b c d :: words s
  | _ => []
  end.

Definition block (s : sha) (ws : list Z) : sha :=
  let r := fold_left round (combine roundConstants (extend 48 (rev ws))) s in
  mkSha (w32 (h0 s + h0 r)) (w32 (h1 s + h1 r)) (w32 (h2 s + h2 r)) (w32 (h3 s + h3 r))
    (w32 (h4 s + h4 r)) (w32 (h5 s + h5 r)) (w32 (h6 s + h6 r)) (w32 (h7 s + h7 r)).

Fixpoint blocks (fuel : nat) (s : sha) (ws : list Z) : sha :=
  match fuel, ws with
  | S fuel, _ :: _ => blocks fuel (block s (take 16 ws)) (drop 16 ws)
  | _, _ => s
  end.

Fixpoint zeros (n : nat) : string := match n with O => EmptyString | S n => String (chr 0) (zeros n) end.

(** The big-endian bytes of a word. *)
Definition wordBytes (n : Z) : string :=
  byte1 (n / 2 ^ 24) +++ byte1 (n / 2 ^ 16 mod 256) +++ byte1 (n / 2 ^ 8 mod 256) +++ byte1 (n mod 256).

Definition pad (s : string) : string :=
  let bits := len s * 8 in
  s +++ byte1 0x80 +++ zeros (Z.to_nat ((55 - len s) mod 64)) +++ wordBytes (bits / 2 ^ 32 mod 2 ^ 32) +++ wordBytes (w32 bits).

Definition Sum256 (s : string) : string :=
  let ws := words (pad s) in
  let r := blocks (List.length ws) initial ws in
  wordBytes (h0 r) +++ wordBytes (h1 r) +++ wordBytes (h2 r) +++ wordBytes (h3 r)
  +++ wordBytes (h4 r) +++ wordBytes (h5 r) +++ wordBytes (h6 r) +++ wordBytes (h7 r).

(** ** HMAC *)

Definition BlockSize : nat := 64.

Fixpoint xorBytes (n : Z) (s : string) : string :=
  match s with EmptyString => EmptyString | String c s => String (chr (Z.lxor (code c) n)) (xorBytes n s) end.

Definition hmacSHA256 (key msg : string) : string :=
  let key := if (BlockSize <? String.length key)%nat then Sum256 key else key in
  let key := key +++ zeros (BlockSize - String.length key) in
  Sum256 (xorBytes 0x5c key +++ Sum256 (xorBytes 0x36 key +++ msg)).

Lemma wordBytes_length n : String.length (wordBytes n) = 4%nat.
Proof. done. Qed.

Lemma Sum256_length s : String.length (Sum256 s) = 32%nat.
Proof. unfold Sum256. by rewrite !slength_app, !wordBytes_length. Qed.

Lemma hmac_length key msg : String.length (hmacSHA256 key msg) = 32%nat.
Proof. apply Sum256_length. Qed.

(** The value of FIPS 180-4 for the text "abc". *)
Example Sum256_abc : words (Sum256 "abc") =
  [0xba7816bf; 0x8f01cfea; 0x414140de; 0x5dae2223; 0xb00361a3; 0x96177a9c; 0xb410ff61; 0xf20015ad].
Proof. vm_compute. reflexivity. Qed.

(** ** MD5 *)

(** The sine of an integer number of radians, scaled by [2 ^ 200]: [n] terms of its series. *)
Fixpoint sineSeries (n : nat) (k x term acc : Z) : Z :=
  match n with
  | O => acc
  | S n => sineSeries n (k + 2) x (- (term * x * x) / ((k + 1) * (k + 2))) (acc + term)
  end.

Definition sineConstants : list Z := Eval vm_compute in
  map (fun i => let x := Z.of_nat i in Z.abs (sineSeries 180 1 x (x * 2 ^ 200) 0) / 2 ^ 168) (seq 1 64).

Definition shifts : list Z :=
  List.concat (map (fun r => List.concat (repeat r 4)) [[7; 12; 17; 22]; [5; 9; 14; 20]; [4; 11; 16; 23]; [6; 10; 15; 21]]).

Definition rotl (k n : Z) : Z := rotr (32 - k) n.

Record md5 := mkMd5 { ma : Z; mb : Z; mc : Z; md : Z }.

Definition md5Round (ws : list Z) (s : md5) (ik : nat * (Z * Z)) : md5 :=
  let '(i, (k, r)) := ik in
  let neg n := 2 ^ 32 - 1 - n in
  let '(f, g) :=
    match (i / 16)%nat with
    | 0%nat => (Z.lor (Z.land (mb s) (mc s)) (Z.land (neg (mb s)) (md s)), i)
    | 1%nat => (Z.lor (Z.land (md s) (mb s)) (Z.land (neg (md s)) (mc s)), (5 * i + 1)%nat)
    | 2%nat => (Z.lxor (Z.lxor (mb s) (mc s)) (md s), (3 * i + 5)%nat)
    | _ => (Z.lxor (mc s) (Z.lor (mb s) (neg (md s))), (7 * i)%nat)
    end in
  let f := w32 (f + ma s + k + nth (g mod 16) ws 0) in
  mkMd5 (md s) (w32 (mb s + rotl r f)) (mb s) (mc s).

Definition md5Block (s : md5) (ws : list Z) : md5 :=
  let r := fold_left (md5Round ws) (combine (seq 0 64) (combine sineConstants shifts)) s in
  mkMd5 (w32 (ma s + ma r)) (w32 (mb s + mb r)) (w32 (mc s + mc r)) (w32 (md s + md r)).

(** Words are little-endian here. *)
Fixpoint wordsLE (s : string) : list Z :=
  match s with
  | String a (String b (String c (String d s))) => word d c b a :: wordsLE s
  | _ => []
  end.

Definition wordBytesLE (n : Z) : string :=
  byte1 (n mod 256) +++ byte1 (n / 2 ^ 8 mod 256) +++ byte1 (n / 2 ^ 16 mod 256) +++ byte1 (n / 2 ^ 24).

Definition md5Pad (s : string) : string :=
  let bits := len s * 8 in
  s +++ byte1 0x80 +++ zeros (Z.to_nat ((55 - len s) mod 64)) +++ wordBytesLE (w32 bits) +++ wordBytesLE (bits / 2 ^ 32 mod 2 ^ 32).

Fixpoint md5Blocks (fuel : nat) (s : md5) (ws : list Z) : md5 :=
  match fuel, ws with
  | S fuel, _ :: _ => md5Blocks fuel (md5Block s (take 16 ws)) (drop 16 ws)
  | _, _ => s
  end.

(** [md5.Sum]. *)
Definition md5Sum (s : string) : string :=
  let ws := wordsLE (md5Pad s) in
  let r := md5Blocks (List.length ws) (mkMd5 0x67452301 0xefcdab89 0x98badcfe 0x10325476) ws in
  wordBytesLE (ma r) +++ wordBytesLE (mb r) +++ wordBytesLE (mc r) +++ wordBytesLE (md r).

(** The value of RFC 1321 for the text "abc". *)
Example md5Sum_abc : words (md5Sum "abc") = [0x90015098; 0x3cd24fb0; 0xd6963f7d; 0x28e17f72].
Proof. vm_compute. reflexivity. Qed.
