(* ===== verification/ConfigValid.v ===== *)
(** * Package [config], part 2: validation, peer addresses and where the file is looked for
    (internal/config/config.go and resolve.go).

    The file system is a parameter of the checks that ask it. *)

From S2P Require Import Prelude GoInt GoStr GoTime GoSort Config Json GoNet.

(** ** The operating system *)

(** [os.Stat] tells whether a path is a directory; [os.CreateTemp] fails or not; [os.IsNotExist]
    classifies an error of [Stat]. *)
Class FileSystem := {
  fsStat : string -> res bool;
  fsCreateTemp : string -> option error;
  fsIsNotExist : error -> bool;
}.

(** [filepath.Clean] on the elements of a slash-separated path. *)
Fixpoint cleanElems (rooted : bool) (out : list string) (l : list string) : list string :=
  match l with
  | [] => out
  | x :: l =>
      if sempty x || (x =? ".")%string then cleanElems rooted out l
      else if (x =? "..")%string then
        match last out with
        | Some y => if (y =? "..")%string then cleanElems rooted (out ++ [x]) l
                    else cleanElems rooted (removelast out) l
        | None => cleanElems rooted (if rooted then out else [x]) l
        end
      else cleanElems rooted (out ++ [x]) l
  end.

Definition Clean (path : string) : string :=
  let rooted := byteIs 47 path in
  let body := join "/" (cleanElems rooted [] (splitByte 47 path)) in
  if rooted then "/" +++ body else if sempty body then "." else body.

Definition Dir (path : string) : string :=
  match lastIndexByte 47 path with
  | Some i => Clean (stake (S i) path)
  | None => "."
  end.

(** [*strconv.NumError] of [Atoi]. *)
Definition numErrorA (s : string) (e : numErr) : error :=
  match e with
  | ErrSyntax => mkError ("strconv.Atoi: parsing " +++ Quote s +++ ": invalid syntax") (Some ErrNumSyntax)
  | ErrRange => mkError ("strconv.Atoi: parsing " +++ Quote s +++ ": value out of range") (Some ErrNumRange)
  end.

(** ** Peer addresses *)

Definition ValidatePeerAddr (s : string) : option error :=
  match SplitHostPort (TrimSpace s) with
  | inl err => Some (wrapErr "parse host:port: " err)
  | inr (host, portStr) =>
      if sempty host then Some (New "host must be non-empty")
      else match ParseInt portStr with
           | inl e => Some (wrapErr "invalid port: " (numErrorA portStr e))
           | inr port =>
               if (port <? 1) || (port >? 65535) then Some (New "port must be between 1 and 65535")
               else None
           end
  end.

Definition NormalizePeerAddr (addr : string) : string :=
  let addr := TrimSpace addr in
  match SplitHostPort addr with
  | inl _ => addr
  | inr (host, port) =>
      let host := match ParseIP host with
                  | Some ip => match To4 ip with Some v4 => dotted v4 | None => ipString ip end
                  | None => ToLower host
                  end in
      JoinHostPort host port
  end.

(** ** Identifiers *)

Definition MaxNodeIDLen : Z := 128.
Definition MaxClusterIDLen : Z := 128.

(** The loops go over runes.  A rune outside ASCII, valid or not, is above every bound they test, and
    so is each of its bytes. *)
Definition validateClusterID (s : string) : option error :=
  let s := TrimSpace s in
  if sempty s then None
  else if len s >? MaxClusterIDLen then
    Some (New ("cluster_id must be at most " +++ FormatInt MaxClusterIDLen +++ " characters"))
  else if sall (fun c => negb ((code c <? 0x21) || (code c >? 0x7e))) s then None
  else Some (New "cluster_id must contain only printable non-space ASCII").

Definition validateNodeID (s : string) : option error :=
  let s := TrimSpace s in
  if sempty s then None
  else if len s >? MaxNodeIDLen then
    Some (New ("must be at most " +++ FormatInt MaxNodeIDLen +++ " characters"))
  else if sall (fun c => negb ((code c <? 0x20) || (code c =? 0x7f))) s then None
  else Some (New "must not contain control characters").

(** ** Single settings *)

Definition allowedMaxMemoryPolicies : list string :=
  ["noeviction"; "allkeys-lru"; "volatile-lru"; "allkeys-random"; "volatile-random"; "volatile-ttl"]%string.
Definition allowedLogLevels : list string := ["debug"; "info"; "warn"; "error"]%string.

Definition parseTLSMinVersionString (s : string) : res string :=
  let s := TrimSpace (ToLower s) in
  if sempty s || (s =? "1.2")%string || (s =? "1.3")%string then inr s else inl (New "must be 1.2 or 1.3").

Definition validateMgmtTCPBind (bind : string) : option error :=
  let b := TrimSpace bind in
  if sempty b then None
  else if EqualFold b "localhost" then None
  else if match ParseIP b with Some ip => IsLoopback ip | None => false end then None
  else Some (New "must be a loopback address (127.0.0.1, ::1, localhost)").

Definition LogOutputIsFile (c : Config) : bool :=
  let lo := TrimSpace (ToLower (LogOutput c)) in
  negb (lo =? "stdout")%string && negb (lo =? "stderr")%string.

Section validate.
Context `{FileSystem}.

Definition validateReadableFile (path : string) : option error :=
  match fsStat path with
  | inl err => Some err
  | inr true => Some (New "not a regular file")
  | inr false => None
  end.

Definition validateLogOutputPath (logOutput : string) : option error :=
  let lo := TrimSpace (ToLower logOutput) in
  if (lo =? "stdout")%string || (lo =? "stderr")%string then None
  else
    let dir := Dir logOutput in
    match fsStat dir with
    | inl err =>
        Some (wrapErr (if fsIsNotExist err then "parent directory does not exist: " else "stat parent directory: ") err)
    | inr false => Some (New ("parent path " +++ Quote dir +++ " is not a directory"))
    | inr true => wrapErr "parent directory not writable: " <$> fsCreateTemp dir
    end.

(** ** [Validate] *)

(** A check that fails ends the validation. *)
Definition refuse (bad : bool) (why : string) (rest : option error) : option error :=
  if bad then Some (New why) else rest.
Definition within (prefix : string) (e : option error) (rest : option error) : option error :=
  match e with Some err => Some (wrapErr prefix err) | None => rest end.

Fixpoint validatePeers (i : Z) (peers : list string) (rest : option error) : option error :=
  match peers with
  | [] => rest
  | p :: peers => within ("peers[" +++ FormatInt i +++ "]: ") (ValidatePeerAddr p) (validatePeers (i + 1) peers rest)
  end.

Definition unsetOr (s : string) (check : string -> option error) : option error :=
  if sempty (TrimSpace s) then None else check s.

Definition badPort (n : Z) : bool := (n <? 1) || (n >? 65535).
Definition isSet (s : string) : bool := negb (sempty (TrimSpace s)).
Definition asError {A} (r : res A) : option error := match r with inl err => Some err | inr _ => None end.

Definition validateMetrics (c : Config) (rest : option error) : option error :=
  if MetricsPort c =? 0 then rest
  else refuse (badPort (MetricsPort c)) "metrics_port must be 0 or between 1 and 65535"
    (refuse ((MetricsPort c =? ClientPort c) || (MetricsPort c =? PeerPort c))
       "metrics_port must not equal client_port or peer_port" rest).

Definition validateMgmtTCP (c : Config) (rest : option error) : option error :=
  if negb (MgmtTCPPort c =? 0) then
    refuse (badPort (MgmtTCPPort c)) "mgmt_tcp_port must be 0 or between 1 and 65535"
      (refuse ((MgmtTCPPort c =? ClientPort c) || (MgmtTCPPort c =? PeerPort c))
         "mgmt_tcp_port must not equal client_port or peer_port"
         (refuse (negb (MetricsPort c =? 0) && (MgmtTCPPort c =? MetricsPort c))
            "mgmt_tcp_port must not equal metrics_port"
            (within "mgmt_tcp_bind: " (validateMgmtTCPBind (MgmtTCPBind c)) rest)))
  else refuse (isSet (MgmtTCPBind c)) "mgmt_tcp_bind is set but mgmt_tcp_port is 0" rest.

Definition validateClientTLS (c : Config) (rest : option error) : option error :=
  let cc := TrimSpace (ClientTLSCertFile c) in
  let ck := TrimSpace (ClientTLSKeyFile c) in
  refuse (xorb (negb (sempty cc)) (negb (sempty ck)))
    "client_tls_cert_file and client_tls_key_file must both be set or both empty"
    (within "client_tls_cert_file: " (if sempty cc then None else validateReadableFile cc)
       (within "client_tls_key_file: " (if sempty cc then None else validateReadableFile ck)
          (within "client_tls_min_version: "
             (unsetOr (ClientTLSMinVersion c) (fun v => asError (parseTLSMinVersionString (TrimSpace v)))) rest))).

Definition validatePeerTLS (c : Config) (rest : option error) : option error :=
  let pc := TrimSpace (PeerTLSCertFile c) in
  let pk := TrimSpace (PeerTLSKeyFile c) in
  let ca := TrimSpace (PeerTLSCAFile c) in
  let version := within "peer_tls_min_version: "
                   (unsetOr (PeerTLSMinVersion c) (fun v => asError (parseTLSMinVersionString (TrimSpace v)))) rest in
  refuse (xorb (negb (sempty pc)) (negb (sempty pk)))
    "peer_tls_cert_file and peer_tls_key_file must both be set or both empty"
    (if negb (sempty pc) then
       within "peer_tls_cert_file: " (validateReadableFile pc)
         (within "peer_tls_key_file: " (validateReadableFile pk)
            (refuse (sempty ca) "peer_tls_ca_file is required when peer TLS is enabled"
               (within "peer_tls_ca_file: " (validateReadableFile ca) version)))
     else refuse (negb (sempty ca)) "peer_tls_ca_file is set but peer TLS certificate files are not configured" version).

Definition Validate (c : Config) : option error :=
  let policy := TrimSpace (MaxMemoryPolicy c) in
  let lf := ToLower (TrimSpace (LogFormat c)) in
  within EmptyString (validateClusterID (ClusterID c))
  (refuse (len (TrimSpace (SharedSecret c)) <? 32) "shared_secret must be non-empty and at least 32 characters"
  (refuse (badPort (ClientPort c)) "client_port must be between 1 and 65535"
  (refuse (badPort (PeerPort c)) "peer_port must be between 1 and 65535"
  (refuse (ClientPort c =? PeerPort c) "client_port and peer_port must not be equal"
  (refuse (negb (bool_decide (ToLower policy ∈ allowedMaxMemoryPolicies)))
     ("max_memory_policy " +++ Quote policy +++ " is invalid: must be one of noeviction, allkeys-lru, volatile-lru, allkeys-random, volatile-random, volatile-ttl")
  (refuse (negb (bool_decide (ToLower (TrimSpace (LogLevel c)) ∈ allowedLogLevels)))
     "log_level must be one of debug, info, warn, error"
  (refuse (HeartbeatInterval c <? 1) "heartbeat_interval must be 1 or greater"
  (refuse (HeartbeatTimeout c <=? HeartbeatInterval c) "heartbeat_timeout must be greater than heartbeat_interval"
  (validatePeers 0 (Peers c)
  (within "bootstrap_peer: " (unsetOr (BootstrapPeer c) ValidatePeerAddr)
  (within "advertise_addr: " (unsetOr (AdvertiseAddr c) ValidatePeerAddr)
  (within "node_id: " (validateNodeID (NodeID c))
  (within "max_memory: " (validateMaxMemoryString (MaxMemory c))
  (within "log_output: " (validateLogOutputPath (LogOutput c))
  (refuse (negb (sempty (LogFormat c)) && negb (lf =? "text")%string && negb (lf =? "json")%string && negb (lf =? "logfmt")%string)
     "log_format must be text, json, or logfmt"
  (validateMetrics c
  (validateMgmtTCP c
  (validateClientTLS c
  (validatePeerTLS c None))))))))))))))))))).

(** [Load], given what reading and parsing the file gave (the error already wrapped). *)
Definition Load (parsed : res Config) : res Config :=
  match parsed with
  | inl err => inl err
  | inr cfg =>
      let cfg := ApplyDefaults cfg in
      match Validate cfg with
      | Some err => inl (wrapErr "validate config: " err)
      | None => inr cfg
      end
  end.

(** ** Where the file is *)

Definition DefaultConfigPath : string := "/etc/supercache/supercache.toml".
Definition DefaultConfigPathAlt : string := "/etc/supercache/supercache.conf".
Definition defaultConfigPathCandidates : list string := [DefaultConfigPath; DefaultConfigPathAlt].

Definition isFile (path : string) : bool := match fsStat path with inr false => true | _ => false end.

Definition FirstExistingDefaultConfigPath : string :=
  default EmptyString (head (List.filter isFile defaultConfigPathCandidates)).

Definition ResolveConfigPathForLoad (explicit : string) : string :=
  if isSet explicit then explicit
  else let p := FirstExistingDefaultConfigPath in if sempty p then DefaultConfigPath else p.
End validate.
