(* ===== verification/ConfigSpec.v ===== *)
(** * What the settings guarantee: memory limits, peer lists, validation and hot reload. *)

From S2P Require Import Prelude GoInt GoStr GoTime GoSort Config Json GoNet ConfigValid.

(** ** Memory limits *)

Definition memorySuffixes : list (string * Z) :=
  [(EmptyString, 1); ("b", 1); ("k", 1024); ("kb", 1024); ("m", 1048576); ("mb", 1048576); ("g", 1073741824); ("gb", 1073741824)]%string.

Lemma smap_app f s t : smap f (s +++ t) = smap f s +++ smap f t.
Proof. induction s as [|c s IH]; [done|]. rewrite !sapp_cons. cbn. by rewrite IH. Qed.

Lemma lower_digits s : sall is_digit s = true -> ToLower s = s.
Proof.
  unfold ToLower. induction s as [|c s IH]; [done|]. cbn [sall smap]. intros [Hc Hs]%andb_true_iff. rewrite IH by done. f_equal.
  unfold lowerByte, is_digit in *. zify_bool. destruct (_ && _) eqn:E; [zify_bool; lia|done].
Qed.

Lemma digits_graphic s : sall is_digit s = true -> sall graphic s = true.
Proof.
  apply sall_impl. unfold is_digit, graphic. intros c Hc. zify_bool. apply andb_true_iff; rewrite !Z.leb_le; lia.
Qed.

Lemma splitSuffix_digits r d acc : sall is_digit d = true -> d <> EmptyString ->
  sall (fun c => negb (is_digit c)) r = true -> splitSuffix (r +++ srev d) acc = (d, srev r +++ acc).
Proof.
  intros Hd Hne. revert acc. induction r as [|c r IH]; intros acc Hr.
  - rewrite sapp_nil_l. rewrite <- sall_srev in Hd. destruct (srev d) as [|c t] eqn:E.
    { destruct Hne. by rewrite <- (srev_involutive d), E. }
    cbn [splitSuffix sall] in *. apply andb_true_iff in Hd as [-> _]. by rewrite <- E, srev_involutive.
  - cbn [sall] in Hr. apply andb_true_iff in Hr as [Hc%negb_true_iff Hr]. rewrite sapp_cons. cbn [splitSuffix]. rewrite Hc, IH by done.
    by rewrite srev_cons, sapp_assoc.
Qed.

(** A memory limit is the number times its unit, and a limit that does not fit 64 bits is refused
    rather than wrapped: for every 64-bit number and every unit, the parser returns the exact product
    when it is representable and an error otherwise. *)
Theorem memory_limit_exact n suffix mul :
  0 < n <= MaxUint64 -> In (suffix, mul) memorySuffixes ->
  parseMemoryBytes (FormatUint n +++ suffix) =
    if n * mul <=? MaxUint64 then inr (n * mul) else inl (New "max_memory value overflow").
Proof.
  intros Hn Hin.
  assert (suffixMul suffix = Some mul /\ ToLower suffix = suffix /\ sall graphic suffix = true /\
          sall (fun c => negb (is_digit c)) suffix = true /\ 0 < mul) as (Hm & Hl & Hg & Hd & Hpos).
  { cbn in Hin. repeat destruct Hin as [[= <- <-]|Hin]; done. }
  pose proof (FormatUint_digits n ltac:(lia)) as Hdig. destruct (FormatUint_cons n) as (c & t & E).
  unfold parseMemoryBytes. unfold ToLower in *. rewrite smap_app, Hl. fold (ToLower (FormatUint n)). rewrite lower_digits by done.
  rewrite TrimSpace_graphic by (rewrite sall_app, digits_graphic; done).
  assert ((FormatUint n +++ suffix =? "0")%string = false) as ->.
  { apply String.eqb_neq. intros Hz. assert (FormatUint n = "0"%string) as H0.
    { rewrite E in *. rewrite sapp_cons in Hz. injection Hz as -> Hz. by destruct t. }
    pose proof (ParseUint_FormatUint n ltac:(lia)) as Hp. rewrite H0 in Hp. vm_compute in Hp. injection Hp as <-. lia. }
  rewrite srev_app, (splitSuffix_digits (srev suffix)) by (rewrite ?sall_srev; try done; by rewrite E).
  rewrite srev_involutive, sapp_nil_r, TrimSpace_graphic by done.
  rewrite E at 1. cbn [sempty orb]. rewrite sapp_cons. cbn [sempty]. rewrite E at 1. cbn [sempty].
  rewrite ParseUint_FormatUint, Hm by lia.
  destruct (n >? MaxUint64 / mul) eqn:E1, (n * mul <=? MaxUint64) eqn:E2; zify_bool; try done; exfalso.
  - assert (n <= MaxUint64 / mul) by (apply Z.div_le_lower_bound; lia). lia.
  - pose proof (Z.mul_div_le MaxUint64 mul Hpos). nia.
Qed.

Lemma memory_limit_exact_witness : parseMemoryBytes "17592186044416mb" = inl (New "max_memory value overflow").
Proof. apply (memory_limit_exact 17592186044416 "mb" 1048576); [done|cbn; tauto]. Defined.

(** ** Peer lists *)

Definition occurrences (p : string) (l : list string) : Z := Z.of_nat (List.length (filter (.= p) l)).

Lemma occurrences_cons p x l : occurrences p (x :: l) = (if decide (x = p) then 1 else 0) + occurrences p l.
Proof. unfold occurrences. rewrite filter_cons. case_decide; cbn [List.length]; lia. Qed.

Lemma occurrences_nonneg p l : 0 <= occurrences p l.
Proof. unfold occurrences. lia. Qed.

Lemma occurrences_pos p l : 0 < occurrences p l -> p ∈ l.
Proof.
  induction l as [|x l IH]; [done|]. rewrite occurrences_cons, elem_of_cons. case_decide; [by left|]. intros. right. apply IH. lia.
Qed.

#[export] Instance occurrences_proper p : Proper ((≡ₚ) ==> (=)) (occurrences p).
Proof. intros l k Hl. unfold occurrences. by rewrite Hl. Qed.

Lemma submseteq_occurrences l k : l ⊆+ k <-> forall p, occurrences p l <= occurrences p k.
Proof.
  split.
  - induction 1 as [|x l k _ IH|x y l|x l k _ IH|l1 l2 l3 _ IH1 _ IH2]; intros p; rewrite ?occurrences_cons; try lia.
    + specialize (IH p). lia.
    + specialize (IH p). case_decide; lia.
    + specialize (IH1 p). specialize (IH2 p). lia.
  - revert k. induction l as [|x l IH]; intros k Hk; [apply submseteq_nil_l|].
    assert (x ∈ k) as [k' Hk']%elem_of_Permutation.
    { apply occurrences_pos. specialize (Hk x). rewrite occurrences_cons, decide_True in Hk by done.
      pose proof (occurrences_nonneg x l). lia. }
    rewrite Hk'. apply submseteq_skip, IH. intros p. specialize (Hk p). rewrite Hk', !occurrences_cons in Hk. lia.
Qed.

Lemma countMap_from l (m : gmap string Z) p :
  default 0 (fold_left (fun m p => <[p := default 0 (m !! p) + 1]> m) l m !! p) = default 0 (m !! p) + occurrences p l.
Proof.
  revert m. induction l as [|x l IH]; intros m; [unfold occurrences; cbn; lia|]. cbn [fold_left]. rewrite IH, occurrences_cons.
  case_decide as E; [subst; rewrite lookup_insert_eq|rewrite lookup_insert_ne by done]; cbn; lia.
Qed.

Lemma subsetLoop_occurrences old (m : gmap string Z) :
  (forall p, 0 <= default 0 (m !! p)) -> subsetLoop m old = true <-> forall p, occurrences p old <= default 0 (m !! p).
Proof.
  revert m. induction old as [|x old IH]; intros m Hm; cbn [subsetLoop].
  { split; [|done]. intros _ p. unfold occurrences. cbn. apply Hm. }
  destruct (default 0 (m !! x) =? 0) eqn:E; zify_bool.
  - split; [done|]. intros H. specialize (H x). rewrite occurrences_cons, decide_True in H by done.
    pose proof (occurrences_nonneg x old). lia.
  - assert (forall p, default 0 (<[x := default 0 (m !! x) - 1]> m !! p) = default 0 (m !! p) - (if decide (x = p) then 1 else 0)) as Hi.
    { intros p. case_decide as Ep; [subst; rewrite lookup_insert_eq|rewrite lookup_insert_ne by done]; cbn; lia. }
    rewrite IH.
    + split; intros H p; specialize (H p); rewrite ?occurrences_cons, ?Hi in *; lia.
    + intros p. rewrite Hi. specialize (Hm p) as Hp. case_decide; [subst; lia|lia].
Qed.

Lemma peersMultisetSubset_iff old new : peersMultisetSubset old new = true <-> old ⊆+ new.
Proof.
  assert (forall p, default 0 (countMap new !! p) = occurrences p new) as Hc.
  { intros p. unfold countMap. by rewrite countMap_from, lookup_empty. }
  rewrite submseteq_occurrences. unfold peersMultisetSubset. destruct (_ <? _)%nat eqn:E.
  - split; [done|]. intros H. apply submseteq_occurrences, submseteq_length in H. apply Nat.ltb_lt in E. lia.
  - rewrite subsetLoop_occurrences by (intros p; rewrite Hc; apply occurrences_nonneg). by setoid_rewrite Hc.
Qed.

(** The hot-reload test on peer lists is multiset inclusion: it accepts the new list exactly when it
    is the old one with addresses added, in any order and counting repetitions. *)
Theorem peersMultisetSubset_submseteq old new : peersMultisetSubset old new = true <-> old ⊆+ new.
Proof. apply peersMultisetSubset_iff. Qed.

(** ** Trimming *)

Lemma trimWith_stuck f fuel s : f EmptyString = 0%nat -> (String.length s <= fuel)%nat -> f (trimWith f fuel s) = 0%nat.
Proof.
  intros Hf. revert s. induction fuel as [|fuel IH]; intros s Hs; cbn [trimWith]; [by rewrite (slength_zero s) by lia|].
  destruct (f s) as [|n] eqn:E; [done|]. destruct s as [|c s]; [by rewrite Hf in E|]. apply IH. rewrite slength_sdrop. simpl in *. lia.
Qed.

Lemma trimWith_done f fuel s : f s = 0%nat -> trimWith f fuel s = s.
Proof. intros Hs. destruct fuel; [done|]. cbn. by rewrite Hs. Qed.

Lemma sdrop_suffix n s : exists a, s = a +++ sdrop n s.
Proof. exists (stake n s). by rewrite stake_sdrop. Qed.

Lemma trimWith_suffix f fuel s : exists a, s = a +++ trimWith f fuel s.
Proof.
  revert s. induction fuel as [|fuel IH]; intros s; cbn [trimWith]; [by exists EmptyString|].
  destruct (f s) as [|n]; [by exists EmptyString|]. destruct (IH (sdrop (S n) s)) as [a Ha]. exists (stake (S n) s +++ a).
  by rewrite sapp_assoc, <- Ha, stake_sdrop.
Qed.

Lemma spaceLen_prefix a b : spaceLen (a +++ b) = 0%nat -> spaceLen a = 0%nat.
Proof.
  destruct a as [|x [|y [|z a]]]; [done|..]; rewrite ?sapp_cons, ?sapp_nil_l; cbn [spaceLen];
    (destruct (asciiSpace x); [done|]); [done|destruct (space2 x y); [done|]; done|done].
Qed.

Lemma TrimSpace_idemp s : TrimSpace (TrimSpace s) = TrimSpace s.
Proof.
  unfold TrimSpace. set (l := trimWith spaceLen _ s). set (t := trimWith spaceLenRev _ (srev l)).
  assert (spaceLen l = 0%nat) as Hl by (apply trimWith_stuck; done).
  assert (spaceLenRev t = 0%nat) as Ht by (apply trimWith_stuck; [done|by rewrite slength_srev]).
  assert (spaceLen (srev t) = 0%nat) as Hs.
  { destruct (trimWith_suffix spaceLenRev (String.length l) (srev l)) as [a Ha]. fold t in Ha.
    apply (spaceLen_prefix _ (srev a)). by rewrite <- srev_app, <- Ha, srev_involutive. }
  rewrite (trimWith_done spaceLen) by done. by rewrite srev_involutive, trimWith_done.
Qed.

Lemma sall_TrimSpace p s : sall p s = true -> sall p (TrimSpace s) = true.
Proof.
  intros Hs. unfold TrimSpace. rewrite sall_srev. set (l := trimWith spaceLen _ s).
  destruct (trimWith_suffix spaceLenRev (String.length l) (srev l)) as [a Ha].
  destruct (trimWith_suffix spaceLen (String.length s) s) as [b Hb]. fold l in Hb.
  rewrite Hb, sall_app in Hs. apply andb_true_iff in Hs as [_ Hs]. rewrite <- sall_srev, Ha, sall_app in Hs.
  by apply andb_true_iff in Hs as [_ ?].
Qed.

Lemma lower_fixed s : ToLower s = s <-> sall (fun c => bool_decide (lowerByte c = c)) s = true.
Proof.
  unfold ToLower. induction s as [|c s IH]; [done|]. cbn [smap sall]. rewrite andb_true_iff, bool_decide_eq_true, <- IH. naive_solver congruence.
Qed.

Lemma ToLower_TrimSpace_lower s : ToLower (TrimSpace (ToLower s)) = TrimSpace (ToLower s).
Proof. apply lower_fixed, sall_TrimSpace, lower_fixed, ToLower_idemp. Qed.

Lemma parseMemoryBytes_trim s : parseMemoryBytes (TrimSpace (ToLower s)) = parseMemoryBytes s.
Proof. unfold parseMemoryBytes. by rewrite ToLower_TrimSpace_lower, TrimSpace_idemp. Qed.

(** ** Validated settings *)

Section sound.
Context `{FileSystem}.

Lemma refuse_none b why rest : refuse b why rest = None <-> b = false /\ rest = None.
Proof. destruct b; cbn; naive_solver. Qed.
Lemma within_none p e rest : within p e rest = None <-> e = None /\ rest = None.
Proof. destruct e; cbn; naive_solver. Qed.
Lemma validatePeers_none i l rest :
  validatePeers i l rest = None <-> Forall (fun p => ValidatePeerAddr p = None) l /\ rest = None.
Proof.
  revert i. induction l as [|p l IH]; intros i; cbn [validatePeers]; [rewrite Forall_nil; naive_solver|].
  rewrite within_none, IH, Forall_cons. naive_solver.
Qed.

(** A peer address names a host and a port in range. *)
Definition dialable (p : string) : Prop :=
  exists host portStr port, SplitHostPort (TrimSpace p) = inr (host, portStr) /\ host <> EmptyString /\
    ParseInt portStr = inr port /\ 1 <= port <= 65535.

Lemma ValidatePeerAddr_dialable p : ValidatePeerAddr p = None -> dialable p.
Proof.
  unfold ValidatePeerAddr, dialable. destruct (SplitHostPort _) as [?|[host portStr]]; [done|].
  destruct host as [|ch host]; [done|]. cbn [sempty]. destruct (ParseInt portStr) as [?|port] eqn:Ep; [done|].
  destruct (_ || _) eqn:E; [done|]. intros _. exists (String ch host), portStr, port. zify_bool. split_and!; [done..|lia|lia].
Qed.

Definition port (n : Z) : Prop := 1 <= n <= 65535.

(** The management port is bound to this host only. *)
Definition localBind (s : string) : Prop :=
  sempty (TrimSpace s) = true \/ EqualFold (TrimSpace s) "localhost" = true \/
  exists ip, ParseIP (TrimSpace s) = Some ip /\ IsLoopback ip = true.

Definition regular (path : string) : Prop := fsStat (TrimSpace path) = inr false.

Record sound (c : Config) : Prop := {
  so_secret : 32 <= len (TrimSpace (SharedSecret c));
  so_client : port (ClientPort c);
  so_peer : port (PeerPort c);
  so_distinct : ClientPort c <> PeerPort c;
  so_policy : NormalizeMaxMemoryPolicy c ∈ allowedMaxMemoryPolicies;
  so_heartbeat : 1 <= HeartbeatInterval c < HeartbeatTimeout c;
  so_peers : Forall dialable (Peers c);
  so_memory : exists n, MaxMemoryBytes c = inr n;
  so_metrics : MetricsPort c <> 0 -> port (MetricsPort c) /\ MetricsPort c <> ClientPort c /\ MetricsPort c <> PeerPort c;
  so_mgmt : MgmtTCPPort c <> 0 ->
    port (MgmtTCPPort c) /\ MgmtTCPPort c <> ClientPort c /\ MgmtTCPPort c <> PeerPort c /\
    MgmtTCPPort c <> MetricsPort c /\ localBind (MgmtTCPBind c);
  so_clientTLS : isSet (ClientTLSCertFile c) = true -> regular (ClientTLSCertFile c) /\ regular (ClientTLSKeyFile c);
  so_peerTLS : isSet (PeerTLSCertFile c) = true ->
    regular (PeerTLSCertFile c) /\ regular (PeerTLSKeyFile c) /\ regular (PeerTLSCAFile c);
}.

Lemma readable_regular path : validateReadableFile (TrimSpace path) = None -> regular path.
Proof. unfold validateReadableFile, regular. by destruct (fsStat _) as [|[]]. Qed.

Lemma badPort_false n : badPort n = false -> port n.
Proof. unfold badPort, port. intros E. zify_bool. lia. Qed.

Lemma validateMgmtTCPBind_local s : validateMgmtTCPBind s = None -> localBind s.
Proof.
  unfold validateMgmtTCPBind, localBind. destruct (sempty _); [by left|]. destruct (EqualFold _ _); [by right; left|].
  destruct (ParseIP _) as [ip|]; [|done]. destruct (IsLoopback ip) eqn:E; [|done]. intros _. right; right. eauto.
Qed.

Lemma memory_parses s : validateMaxMemoryString s = None -> exists n, parseMemoryBytes s = inr n.
Proof.
  unfold validateMaxMemoryString. destruct (_ || _) eqn:E.
  - intros _. exists 0. unfold parseMemoryBytes. by rewrite E.
  - rewrite parseMemoryBytes_trim. destruct (parseMemoryBytes s); [done|eauto].
Qed.

Lemma metrics_sound c rest : validateMetrics c rest = None ->
  (MetricsPort c <> 0 -> port (MetricsPort c) /\ MetricsPort c <> ClientPort c /\ MetricsPort c <> PeerPort c) /\ rest = None.
Proof.
  unfold validateMetrics. destruct (MetricsPort c =? 0) eqn:E; zify_bool; [done|].
  rewrite !refuse_none. intros (Hp & Hd & ->). split; [|done]. intros _. split; [by apply badPort_false|]. zify_bool. done.
Qed.

Lemma mgmt_sound c rest : validateMgmtTCP c rest = None ->
  (MgmtTCPPort c <> 0 -> port (MgmtTCPPort c) /\ MgmtTCPPort c <> ClientPort c /\ MgmtTCPPort c <> PeerPort c /\
    MgmtTCPPort c <> MetricsPort c /\ localBind (MgmtTCPBind c)) /\ rest = None.
Proof.
  unfold validateMgmtTCP. destruct (MgmtTCPPort c =? 0) eqn:E; cbn [negb]; rewrite ?refuse_none, ?within_none; zify_bool; [naive_solver|].
  intros (Hp & Hd & Hm & Hb & ->). split; [|done]. intros _.
  split; [by apply badPort_false|]. zify_bool. split_and!; [done|done| |by apply validateMgmtTCPBind_local].
  intros Hq. rewrite Hq in *. rewrite Z.eqb_refl in Hm. destruct (MetricsPort c =? 0) eqn:Ez; [|done]. zify_bool. lia.
Qed.

Lemma clientTLS_sound c rest : validateClientTLS c rest = None ->
  (isSet (ClientTLSCertFile c) = true -> regular (ClientTLSCertFile c) /\ regular (ClientTLSKeyFile c)) /\ rest = None.
Proof.
  unfold validateClientTLS. cbv zeta. rewrite refuse_none, !within_none. intros (_ & Hc & Hk & _ & ->). split; [|done].
  unfold isSet. intros Hs%negb_true_iff. rewrite Hs in *. by split; apply readable_regular.
Qed.

Lemma peerTLS_sound c rest : validatePeerTLS c rest = None ->
  (isSet (PeerTLSCertFile c) = true ->
    regular (PeerTLSCertFile c) /\ regular (PeerTLSKeyFile c) /\ regular (PeerTLSCAFile c)) /\ rest = None.
Proof.
  unfold validatePeerTLS, isSet. cbv zeta. rewrite refuse_none. intros [_ Hr].
  destruct (negb (sempty (TrimSpace (PeerTLSCertFile c)))); repeat (rewrite refuse_none in Hr || rewrite within_none in Hr).
  - destruct Hr as (Hc & Hk & _ & Ha & _ & ->). split; [|done]. intros _. split_and!; by apply readable_regular.
  - by destruct Hr as (_ & _ & ->).
Qed.

Lemma Validate_sound c : Validate c = None -> sound c.
Proof.
  unfold Validate. cbv zeta. rewrite within_none, !refuse_none, validatePeers_none, !within_none.
  intros (_ & Hs & Hc & Hp & Hd & Hpol & _ & Hi & Ht & Hpeers & _ & _ & _ & Hmem & _ & Hr).
  rewrite refuse_none in Hr. destruct Hr as (_ & Hr).
  apply metrics_sound in Hr as [Hmet [Hmg [Hct [Hpt _]%peerTLS_sound]%clientTLS_sound]%mgmt_sound].
  zify_bool. apply bool_decide_eq_true in Hpol.
  constructor; auto using badPort_false, memory_parses.
  - eapply Forall_impl; [exact Hpeers|]. apply ValidatePeerAddr_dialable.
  - by apply memory_parses.
Qed.

(** C36: A node never starts on settings outside their bounds: whatever the file holds, settings that
    load have a secret of 32 bytes or more, ports in range that do not collide, a heartbeat timeout
    above its interval, peers that can be dialled, a memory limit and policy the store understands, a
    management port bound to loopback only, and the key files TLS needs. *)
Theorem load_sound parsed c : Load parsed = inr c -> sound c.
Proof.
  unfold Load. destruct parsed as [|cfg]; [done|]. destruct (Validate _) eqn:E; [done|]. intros [= <-]. by apply Validate_sound.
Qed.

(** ** Hot reload *)

Lemma when_nil b name : when b name = [] <-> b = false.
Proof. by destruct b. Qed.

Lemma ne_false s t : ne s t = false -> s = t.
Proof. unfold ne. rewrite negb_false_iff. apply String.eqb_eq. Qed.

Lemma peersEqual_eq a b : peersEqual a b = true -> a = b.
Proof.
  revert b. induction a as [|x a IH]; intros [|y b]; try done. cbn. intros [->%String.eqb_eq Hb]%andb_true_iff. by rewrite (IH b).
Qed.

(** The settings a running node cannot change without a restart: some are compared as they stand, some without the
    white space around them. *)
Definition fixedTexts (c : Config) : list string := [ClientBind c; PeerBind c; SharedSecret c; MgmtSocket c; HetznerAPIToken c].
Definition fixedNumbers (c : Config) : list Z :=
  [ClientPort c; PeerPort c; DiscoveryInterval c; HetznerNetworkID c; PeerForgetAfter c; MgmtTCPPort c; BootstrapQueueDepth c; MetricsPort c].
Definition fixedTrimmed (c : Config) : list string :=
  [ClusterID c; HetznerLabelSelector c; HetznerAPIURL c; MgmtTCPBind c; BootstrapPeer c; NodeID c; AdvertiseAddr c; MetricsBind c;
   ClientTLSCertFile c; ClientTLSKeyFile c; ClientTLSMinVersion c; PeerTLSCertFile c; PeerTLSKeyFile c; PeerTLSCAFile c;
   PeerTLSMinVersion c; PeerStateFile c; ReplShutdownSpillPath c].

Definition sameNode (a b : Config) : Prop :=
  fixedTexts a = fixedTexts b /\ fixedNumbers a = fixedNumbers b /\
  map TrimSpace (fixedTrimmed a) = map TrimSpace (fixedTrimmed b) /\ GossipPeers a = GossipPeers b.

Lemma not_blocked_same a b : diffBlocked a b = [] -> sameNode a b /\ Peers a ⊆+ Peers b.
Proof.
  unfold diffBlocked. rewrite !app_nil, !when_nil. intros. destruct_and!.
  unfold neTrim, neZ, neB in *. zify_bool. split.
  - unfold sameNode, fixedTexts, fixedNumbers, fixedTrimmed. cbn [map].
    split_and!; [repeat (apply f_equal2; [auto using ne_false|])..|by destruct (GossipPeers a), (GossipPeers b)]; reflexivity.
  - destruct (peersEqual (Peers a) (Peers b)) eqn:E; [by rewrite (peersEqual_eq _ _ E)|].
    apply peersMultisetSubset_iff. by destruct (peersMultisetSubset _ _).
Qed.

(** C37: A reload that is accepted installs settings as sound as those of a start, leaves every setting that only a
    restart can change as it is (the node's identity, secret, listeners, management and metrics endpoints, discovery,
    TLS files and the paths it writes to), and drops no peer of the configuration that was loaded before. *)
Theorem reload_safe cur parsed new changed :
  Reload (Some cur) (Load parsed) = inr (new, changed) -> sound new /\ sameNode cur new /\ Peers cur ⊆+ Peers new.
Proof.
  unfold Reload. destruct (Load parsed) as [|c] eqn:El; [done|]. unfold diffConfigs. case_bool_decide as Hb; [|done].
  intros [= <- _]. split; [|by apply not_blocked_same]. 
  unfold Load in El. destruct parsed as [|cfg]; [done|]. destruct (Validate _) eqn:E; [done|]. injection El as <-. by apply Validate_sound.
Qed.
End sound.

(** ** Witnesses *)

#[local] Instance demoFS : FileSystem := {| fsStat := fun _ => inr true; fsCreateTemp := fun _ => None; fsIsNotExist := fun _ => true |}.

(** The file of a node that names its secret and one peer. *)
Definition fileConfig (peers : list string) : Config :=
  let e := EmptyString in
  mkConfig e 0 e 0 peers e e e "0123456789abcdef0123456789abcdef" e "512mb" e e 0 e e e e 0 0 0 0 0 e e 0 false None 0 e e 0 e None None
    0 0 e e e e e e e e e.

Lemma load_sound_witness : sound (ApplyDefaults (fileConfig ["10.0.0.2:7379"%string])).
Proof. apply (load_sound (inr (fileConfig ["10.0.0.2:7379"%string]))). vm_compute. reflexivity. Defined.

Lemma reload_safe_witness :
  let cur := ApplyDefaults (fileConfig ["10.0.0.2:7379"%string]) in
  let new := ApplyDefaults (fileConfig ["10.0.0.3:7379"; "10.0.0.2:7379"]%string) in
  sound new /\ sameNode cur new /\ Peers cur ⊆+ Peers new.
Proof.
  intros cur new. apply (reload_safe cur (inr (fileConfig ["10.0.0.3:7379"; "10.0.0.2:7379"]%string)) new ["peers"%string]).
  vm_compute. reflexivity.
Defined.
