(* ===== verification/NetId.v ===== *)
(** * Node identity (internal/netid/netid.go and internal/server/nodeid.go).

    What the operating system tells is a [Host]: its interfaces, the source addresses of the two route
    probes, the resolver and the random bytes.  An IP address is its 16 bytes, so [normalize] is the
    identity and [Equal] is equality. *)

From S2P Require Import Prelude GoInt GoStr GoTime GoSort Config Json GoNet GoCrypto ConfigValid.

Record Interface := mkInterface {
  if_name : string; if_up : bool; if_loopback : bool;
  (** [Addrs]: an error, or addresses, those of a type without an IP as [None]. *)
  if_addrs : option (list (option IP)) }.

Record Host := mkHost {
  ho_ifaces : option (list Interface);
  ho_routes : list (option IP);
  ho_lookup : string -> option (list IP);
  ho_random : option string }.

(** ** Classes *)

Definition bridgePrefixes : list string := ["docker"; "br-"; "veth"; "cni"; "flannel"; "virbr"; "vmnet"; "tun"; "tap"; "kube"]%string.

Definition classPrivateV4 : Z := 0.
Definition classCGNATV4 : Z := 1.
Definition classULAV6 : Z := 2.
Definition classGlobalV4 : Z := 3.
Definition classGlobalV6 : Z := 4.
Definition classUnusable : Z := 5.

(** [cgnatNet.Contains], 100.64.0.0/10. *)
Definition inCGNAT (v4 : list Z) : bool := (ipByte 0 v4 =? 100) && (ipByte 1 v4 / 64 =? 1).

Definition classify (ip : option IP) : Z :=
  match ip with
  | None => classUnusable
  | Some ip =>
      if IsLoopback ip || IsLinkLocalUnicast ip || IsLinkLocalMulticast ip || IsMulticast ip || IsUnspecified ip then classUnusable
      else match To4 ip with
           | Some v4 =>
               if IsPrivate ip then classPrivateV4
               else if inCGNAT v4 then classCGNATV4
               else classGlobalV4
           | None => if IsPrivate ip then classULAV6 else classGlobalV6
           end
  end.

Definition isBridgeInterface (name : string) : bool :=
  let n := ToLower name in existsb (fun p => hasPrefix p n) bridgePrefixes.

(** ** Candidates *)

Record candidate := mkCandidate { ca_ip : IP; ca_class : Z }.

Definition usable (ip : option IP) : list candidate :=
  let cls := classify ip in
  if cls =? classUnusable then [] else match ip with Some ip => [mkCandidate ip cls] | None => [] end.

Definition candidatesOf (i : Interface) : list candidate :=
  if negb (if_up i) || if_loopback i then []
  else if isBridgeInterface (if_name i) then []
  else match if_addrs i with
       | None => []
       | Some addrs => List.concat (map usable addrs)
       end.

Definition before (a b : candidate) : bool :=
  if negb (ca_class a =? ca_class b) then ca_class a <? ca_class b else sltb (ipString (ca_ip a)) (ipString (ca_ip b)).

Definition notAfter (a b : candidate) : Prop := before b a = false.
#[global] Instance notAfter_dec a b : Decision (notAfter a b).
Proof. unfold notAfter. apply _. Defined.

Definition localCandidates (h : Host) : list candidate :=
  match ho_ifaces h with
  | None => []
  | Some ifaces => merge_sort notAfter (List.concat (map candidatesOf ifaces))
  end.

Definition routeSourceIP (h : Host) : option IP :=
  List.find (fun ip => negb (classify (Some ip) =? classUnusable)) (omap id (ho_routes h)).

(** [selectPrimary]: the loop over the candidates of the best class. *)
Fixpoint matchSource (cands : list candidate) (best : Z) (src : IP) : option IP :=
  match cands with
  | [] => None
  | c :: cands =>
      if negb (ca_class c =? best) then None
      else if bool_decide (ca_ip c = src) then Some (ca_ip c)
      else matchSource cands best src
  end.

Definition selectPrimary (first : candidate) (rest : list candidate) (src : option IP) : IP :=
  match src ≫= matchSource (first :: rest) (ca_class first) with
  | Some ip => ip
  | None => ca_ip first
  end.

Definition PrimaryIP (h : Host) : res IP :=
  match localCandidates h with
  | [] => inl (New "netid: no usable non-loopback address found")
  | first :: rest => inr (selectPrimary first rest (routeSourceIP h))
  end.

(** ** What this machine holds *)

Definition allLocalIPs (h : Host) : list IP :=
  match ho_ifaces h with
  | None => []
  | Some ifaces => List.concat (map (fun i => match if_addrs i with None => [] | Some addrs => omap id addrs end) ifaces)
  end.

Definition containsIP (have : list IP) (want : IP) : bool := existsb (fun ip => bool_decide (ip = want)) have.

Definition IsLocalIP (h : Host) (ip : option IP) : bool :=
  match ip with
  | None => false
  | Some ip => if IsLoopback ip then true else containsIP (allLocalIPs h) ip
  end.

(** Whether the host is this machine, and whether that is known. *)
Definition IsLocalHost (h : Host) (host : string) : bool * bool :=
  let host := TrimSpace host in
  if sempty host then (false, false)
  else
    let local := allLocalIPs h in
    match ParseIP host with
    | Some ip => (containsIP local ip, true)
    | None =>
        match ho_lookup h host with
        | None | Some [] => (false, false)
        | Some ips => (existsb (containsIP local) ips, true)
        end
    end.

(** ** Identity *)

Definition NodeIDFromIP (ip : IP) : string := hexEncode (md5Sum (ipString ip)).

Definition RandomNodeID (h : Host) : string :=
  match ho_random h with None => "unknown"%string | Some b => hexEncode b end.

Definition DeriveNodeID (h : Host) : string * option IP :=
  match PrimaryIP h with
  | inl _ => (RandomNodeID h, None)
  | inr ip => (NodeIDFromIP ip, Some ip)
  end.

Definition staleSelfAddr (h : Host) (cfg : Config) : string :=
  let configured := TrimSpace (AdvertiseAddr cfg) in
  if sempty configured then EmptyString
  else match ValidatePeerAddr configured with
       | Some _ => EmptyString
       | None =>
           match SplitHostPort configured with
           | inl _ => EmptyString
           | inr (host, _) =>
               match IsLocalHost h host with
               | (_, false) => EmptyString
               | (true, true) => EmptyString
               | (false, true) => configured
               end
           end
       end.

(** The address derived from the primary IP. *)
Definition derivedAddr (h : Host) (cfg : Config) : string :=
  match PrimaryIP h with
  | inl _ => EmptyString
  | inr ip => JoinHostPort (ipString ip) (FormatInt (PeerPort cfg))
  end.

(** [resolveIdentity]: the node's identifier, the address it advertises, and the seeds. *)
Definition resolveIdentity (h : Host) (cfg : Config) : string * string * list string :=
  let derived := derivedAddr h cfg in
  let stale := staleSelfAddr h cfg in
  let nodeID := TrimSpace (NodeID cfg) in
  let nodeID :=
    if negb (sempty nodeID) then nodeID
    else match PrimaryIP h with inr ip => NodeIDFromIP ip | inl _ => RandomNodeID h end in
  let advertise := TrimSpace (AdvertiseAddr cfg) in
  let advertise :=
    if negb (sempty stale) then derived
    else if negb (sempty advertise) then advertise
    else derived in
  let advertise :=
    if sempty advertise then advertise
    else match ValidatePeerAddr advertise with Some _ => EmptyString | None => advertise end in
  (nodeID, advertise, if sempty stale then [] else [stale]).
