(* ===== verification/NetIdSpec.v ===== *)
(** * Node identity: the address chosen is the best the machine has, the identity does not depend on the
    order interfaces are listed in, and a copied configuration is recognised. *)

From S2P Require Import Prelude GoInt GoStr GoTime GoSort Config Json GoNet GoCrypto ConfigValid ConfigSpec NetId.

(** ** The order of candidates *)

Definition rank (c : candidate) : Z * string := (ca_class c, ipString (ca_ip c)).

Lemma notAfter_iff a b : notAfter a b <-> ca_class a < ca_class b \/ (ca_class a = ca_class b /\ sle (ipString (ca_ip a)) (ipString (ca_ip b))).
Proof.
  unfold notAfter, before, sle. destruct (ca_class b =? ca_class a) eqn:E; cbn [negb]; zify_bool.
  - split; [by right|]. intros [?|[_ ?]]; [lia|done].
  - rewrite Z.ltb_ge. lia.
Qed.

#[local] Instance notAfter_total : Total notAfter.
Proof.
  intros a b. rewrite !notAfter_iff. destruct (Z.lt_trichotomy (ca_class a) (ca_class b)) as [?|[E|?]]; [auto| |auto].
  destruct (total sle (ipString (ca_ip a)) (ipString (ca_ip b))); auto.
Qed.

#[local] Instance notAfter_trans : Transitive notAfter.
Proof.
  intros a b c. rewrite !notAfter_iff. intros [?|[? ?]] [?|[? ?]]; [left; lia|left; lia|left; lia|right; split; [lia|by etrans]].
Qed.

Definition collect (ifaces : list Interface) : list candidate := List.concat (map candidatesOf ifaces).

Lemma candidates_perm h ifaces : ho_ifaces h = Some ifaces -> localCandidates h ≡ₚ collect ifaces.
Proof. intros E. unfold localCandidates. rewrite E. apply merge_sort_Permutation. Qed.

Lemma candidates_sorted h : StronglySorted notAfter (localCandidates h).
Proof. unfold localCandidates. destruct (ho_ifaces h); [apply (StronglySorted_merge_sort notAfter); apply _|constructor]. Qed.

Lemma collect_perm l l' : l ≡ₚ l' -> collect l ≡ₚ collect l'.
Proof.
  unfold collect. induction 1 as [|x l l' _ IH|x y l|l l' l'' _ IH1 _ IH2]; cbn [map List.concat]; [done|by rewrite IH| |by etrans].
  rewrite !app_assoc. f_equiv. apply Permutation_app_comm.
Qed.

(** ** What is selected *)

Definition fromBest (best : Z) (src : IP) (c : candidate) : Prop := ca_class c = best /\ ca_ip c = src.

Lemma matchSource_spec l best src : StronglySorted notAfter l -> Forall (fun c => best <= ca_class c) l ->
  (matchSource l best src = Some src /\ Exists (fromBest best src) l) \/ (matchSource l best src = None /\ ~ Exists (fromBest best src) l).
Proof.
  induction 1 as [|c l Hs IH Hc]; intros Hb; cbn [matchSource]; [right; split; [done|intros He; inversion He]|].
  inversion Hb as [|? ? Hcb Hb']; subst. destruct (ca_class c =? best) eqn:E; cbn [negb]; zify_bool.
  - case_bool_decide as Hip; [left; split; [by rewrite Hip|by left]|].
    destruct (IH Hb') as [[-> ?]|[-> Hno]]; [left; split; [done|by right]|right; split; [done|]].
    rewrite Exists_cons. intros [[_ ?]|?]; [done|by apply Hno].
  - right. split; [done|]. rewrite Exists_exists. intros (x & Hx & Hcl & _). apply elem_of_cons in Hx as [->|Hx]; [done|].
    rewrite Forall_forall in Hc. specialize (Hc x Hx). rewrite notAfter_iff in Hc. lia.
Qed.

Lemma sorted_least c l : StronglySorted notAfter (c :: l) -> Forall (fun x => ca_class c <= ca_class x) (c :: l).
Proof.
  intros Hs. apply StronglySorted_inv in Hs as [_ Hc]. constructor; [lia|]. eapply Forall_impl; [exact Hc|].
  intros x. rewrite notAfter_iff. lia.
Qed.

(** The candidates the choice falls on: of the least class, and the source of the default route when
    that is one of them. *)
Lemma primary_choice c l src : StronglySorted notAfter (c :: l) ->
  exists x, In x (c :: l) /\ selectPrimary c l src = ca_ip x /\ Forall (fun y => ca_class x <= ca_class y) (c :: l) /\
    (forall s, src = Some s -> Exists (fromBest (ca_class x) s) (c :: l) -> ca_ip x = s).
Proof.
  intros Hs. pose proof (sorted_least _ _ Hs) as Hl. unfold selectPrimary. destruct src as [s|]; cbn [mbind option_bind].
  - destruct (matchSource_spec (c :: l) (ca_class c) s Hs Hl) as [[-> He]|[-> Hno]].
    + apply Exists_exists in He as (x & Hx & Hcl & Hip). exists x. rewrite Hcl, Hip. apply list_elem_of_In in Hx. split_and!; [done|done|done|].
      intros s' [= <-] _. done.
    + exists c. split_and!; [by left|done|done|]. intros s' [= <-] He. by destruct Hno.
  - exists c. split_and!; [by left|done|done|]. done.
Qed.

Lemma primary_perm l l' c c' src : StronglySorted notAfter (c :: l) -> StronglySorted notAfter (c' :: l') -> c :: l ≡ₚ c' :: l' ->
  ipString (selectPrimary c l src) = ipString (selectPrimary c' l' src).
Proof.
  intros Hs Hs' Hp. assert (rank c = rank c') as Hr.
  { assert (notAfter c c' /\ notAfter c' c) as [H1 H2].
    { assert (forall a b m n, StronglySorted notAfter (a :: m) -> a :: m ≡ₚ b :: n -> notAfter a b) as Hleast.
      { intros a b m n [_ Ha]%StronglySorted_inv Hp'. assert (b ∈ a :: m) as [->|Hin]%elem_of_cons by (rewrite Hp'; apply elem_of_cons; by left);
          [destruct (total notAfter a a); done|]. rewrite Forall_forall in Ha. by apply Ha. }
      split; by eapply Hleast. }
    rewrite notAfter_iff in H1, H2. assert (ca_class c = ca_class c') as Hcl by lia. assert (ipString (ca_ip c) = ipString (ca_ip c')) as Hst.
    { apply (anti_symm sle); [destruct H1 as [?|[_ ?]]|destruct H2 as [?|[_ ?]]]; [lia|done|lia|done]. }
    unfold rank. by rewrite Hcl, Hst. }
  injection Hr as Hc Hstr. unfold selectPrimary. destruct src as [s|]; cbn [mbind option_bind]; [|done].
  destruct (matchSource_spec (c :: l) (ca_class c) s Hs (sorted_least _ _ Hs)) as [[-> He]|[-> Hno]],
    (matchSource_spec (c' :: l') (ca_class c') s Hs' (sorted_least _ _ Hs')) as [[-> He']|[-> Hno']]; try done;
    rewrite Exists_exists in *; exfalso.
  - destruct He as (x & Hx & Hf). apply Hno'. exists x. rewrite <- Hc. by rewrite <- Hp.
  - destruct He' as (x & Hx & Hf). apply Hno. exists x. rewrite Hc. by rewrite Hp.
Qed.

(** ** The address chosen *)

(** An address peers could use: on an interface that is up and is neither loopback nor a bridge. *)
Definition offered (h : Host) (ip : IP) : Prop :=
  exists ifaces i addrs, ho_ifaces h = Some ifaces /\ i ∈ ifaces /\ if_up i = true /\ if_loopback i = false /\
    isBridgeInterface (if_name i) = false /\ if_addrs i = Some addrs /\ Some ip ∈ addrs /\ classify (Some ip) <> classUnusable.

Lemma elem_of_flat {A B} (f : A -> list B) l y : y ∈ List.concat (map f l) <-> exists x, x ∈ l /\ y ∈ f x.
Proof.
  rewrite list_elem_of_In, <- List.flat_map_concat_map, in_flat_map. split; intros (x & ? & ?); exists x;
    [rewrite !list_elem_of_In|rewrite <- !list_elem_of_In]; done.
Qed.

Lemma elem_of_usable a c : c ∈ usable a <-> exists ip, a = Some ip /\ classify a <> classUnusable /\ c = mkCandidate ip (classify a).
Proof.
  unfold usable. destruct (classify a =? classUnusable) eqn:E; zify_bool.
  - split; [by intros ?%elem_of_nil|]. by intros (ip & _ & ? & _).
  - destruct a as [ip|]; [|done]. rewrite list_elem_of_singleton. split; [intros ->; by exists ip|by intros (? & [= <-] & _ & ->)].
Qed.

Lemma elem_of_candidates h c : c ∈ localCandidates h <-> offered h (ca_ip c) /\ ca_class c = classify (Some (ca_ip c)).
Proof.
  unfold offered. destruct (ho_ifaces h) as [ifaces|] eqn:E.
  2: { unfold localCandidates. rewrite E, elem_of_nil. split; [done|]. by intros [(? & ? & ? & [=] & _) _]. }
  rewrite (candidates_perm h ifaces E). unfold collect. rewrite elem_of_flat. split.
  - intros (i & Hi & Hc). unfold candidatesOf in Hc. destruct (if_up i) eqn:Eu, (if_loopback i) eqn:El; cbn [negb orb] in Hc; try by apply elem_of_nil in Hc.
    destruct (isBridgeInterface _) eqn:Eb; [by apply elem_of_nil in Hc|]. destruct (if_addrs i) as [addrs|] eqn:Ea; [|by apply elem_of_nil in Hc].
    apply elem_of_flat in Hc as (a & Ha & Hc). apply elem_of_usable in Hc as (ip & -> & Hu & ->). cbn [ca_ip ca_class]. split; [|done]. by exists ifaces, i, addrs.
  - intros [(ifs & i & addrs & [= <-] & Hi & Hu & Hl & Hb & Ha & Hin & Hc) Hcl]. exists i. split; [done|].
    unfold candidatesOf. rewrite Hu, Hl, Hb, Ha. cbn [negb orb]. apply elem_of_flat. exists (Some (ca_ip c)). split; [done|].
    apply elem_of_usable. exists (ca_ip c). split_and!; [done|done|]. destruct c as [ip cl]. cbn [ca_ip ca_class] in *. by subst.
Qed.

(** C34: A node identifies itself by the best address it has.  The primary address is one an interface
    that is up holds, never of loopback, a bridge or an unusable range; no other such address is of a
    better class, so it is a private IPv4 address whenever there is one; among those of its class it
    is the source of the default route when that is one of them; and there is none only when no
    interface offers any. *)
Theorem primary_ip_best h :
  match PrimaryIP h with
  | inr ip => offered h ip /\ (forall a, offered h a -> classify (Some ip) <= classify (Some a)) /\
      (forall src, routeSourceIP h = Some src -> offered h src -> classify (Some src) = classify (Some ip) -> ip = src)
  | inl _ => forall a, ~ offered h a
  end.
Proof.
  unfold PrimaryIP. destruct (localCandidates h) as [|c l] eqn:E.
  - intros a Ha. assert (mkCandidate a (classify (Some a)) ∈ localCandidates h) as Hin by by apply elem_of_candidates.
    rewrite E in Hin. by apply elem_of_nil in Hin.
  - pose proof (candidates_sorted h) as Hs. rewrite E in Hs.
    destruct (primary_choice c l (routeSourceIP h) Hs) as (x & Hx & -> & Hl & Hsrc). rewrite <- E in Hl, Hsrc.
    rewrite <- E in Hx. apply list_elem_of_In, elem_of_candidates in Hx as [Hoff Hcl]. rewrite <- Hcl, Forall_forall in *. split_and!; [done| |].
    + intros a Ha. apply (Hl (mkCandidate a (classify (Some a)))). by apply elem_of_candidates.
    + intros src Hr Ha Hc. apply Hsrc; [done|]. apply Exists_exists. exists (mkCandidate src (classify (Some src))). split; [by apply elem_of_candidates|done].
Qed.

(** ** Stability *)

(** The same machine, its interfaces listed in another order. *)
Definition relisted (h h' : Host) : Prop :=
  option_Forall2 (≡ₚ) (ho_ifaces h) (ho_ifaces h') /\ ho_routes h = ho_routes h' /\
  (forall n, ho_lookup h n = ho_lookup h' n) /\ ho_random h = ho_random h'.

Lemma relisted_primary h h' : relisted h h' ->
  match PrimaryIP h, PrimaryIP h' with
  | inr ip, inr ip' => ipString ip = ipString ip'
  | inl e, inl e' => e = e'
  | _, _ => False
  end.
Proof.
  intros (Hi & Hr & _ & _). assert (localCandidates h ≡ₚ localCandidates h') as Hp.
  { inversion Hi as [l l' Hl E E'|E E']; [|unfold localCandidates; by rewrite <- E, <- E'].
    rewrite (candidates_perm h l), (candidates_perm h' l') by done. by apply collect_perm. }
  unfold PrimaryIP. unfold routeSourceIP. rewrite <- Hr. fold (routeSourceIP h).
  pose proof (candidates_sorted h) as Hs. pose proof (candidates_sorted h') as Hs'.
  destruct (localCandidates h) as [|c l], (localCandidates h') as [|c' l'];
    [done|by apply Permutation_nil_l in Hp|by symmetry in Hp; apply Permutation_nil_l in Hp|]. by apply primary_perm.
Qed.

Lemma containsIP_iff have want : containsIP have want = true <-> want ∈ have.
Proof.
  unfold containsIP. rewrite existsb_exists. setoid_rewrite bool_decide_eq_true. setoid_rewrite <- list_elem_of_In. naive_solver.
Qed.

Lemma containsIP_perm l l' ip : l ≡ₚ l' -> containsIP l ip = containsIP l' ip.
Proof. intros Hp. apply eq_true_iff_eq. by rewrite !containsIP_iff, Hp. Qed.

Lemma relisted_local h h' : relisted h h' -> allLocalIPs h ≡ₚ allLocalIPs h'.
Proof.
  intros (Hi & _). unfold allLocalIPs. inversion Hi as [l l' Hl E E'|E E']; [|done].
  rewrite <- !List.flat_map_concat_map. by apply Permutation_flat_map.
Qed.

Lemma relisted_localhost h h' n : relisted h h' -> IsLocalHost h n = IsLocalHost h' n.
Proof.
  intros Hh. pose proof (relisted_local h h' Hh) as Hl. destruct Hh as (_ & _ & Hn & _). unfold IsLocalHost. destruct (sempty _); [done|].
  destruct (ParseIP _) as [ip|]; [by rewrite (containsIP_perm _ _ ip Hl)|]. rewrite <- Hn. destruct (ho_lookup h _) as [[|ip ips]|]; [done| |done].
  f_equal. apply eq_true_iff_eq. rewrite !existsb_exists. by setoid_rewrite (containsIP_perm _ _ _ Hl).
Qed.

(** A node keeps its identity.  Whatever order the system lists the interfaces in, the node derives
    the same identifier, advertises the same address and looks for the cluster at the same seeds, for
    every configuration. *)
Theorem identity_stable h h' cfg : relisted h h' -> resolveIdentity h cfg = resolveIdentity h' cfg.
Proof.
  intros Hh. pose proof (relisted_primary h h' Hh) as Hp.
  assert (staleSelfAddr h cfg = staleSelfAddr h' cfg) as Hs.
  { unfold staleSelfAddr. destruct (sempty _); [done|]. destruct (ValidatePeerAddr _); [done|]. destruct (SplitHostPort _) as [|[host port]]; [done|].
    by rewrite (relisted_localhost h h' host Hh). }
  unfold resolveIdentity, derivedAddr, RandomNodeID. rewrite <- Hs. destruct Hh as (_ & _ & _ & <-).
  destruct (PrimaryIP h) as [e|ip], (PrimaryIP h') as [e'|ip']; try done. unfold NodeIDFromIP. by rewrite Hp.
Qed.





(** ** Witnesses, and an alias of loopback *)

Definition v4 (a b c d : Z) : option IP := Some (v4Prefix ++ [a; b; c; d]).
Definition demoIfaces : list Interface :=
  [mkInterface "lo" true true (Some [v4 127 0 0 1]); mkInterface "docker0" true false (Some [v4 172 17 0 1]);
   mkInterface "eth0" true false (Some [v4 203 0 113 5; None]); mkInterface "eth1" true false (Some [v4 10 0 0 7])].
Definition demoHost (l : list Interface) : Host := mkHost (Some l) [v4 203 0 113 5; None] (fun _ => None) None.

Lemma identity_stable_witness :
  resolveIdentity (demoHost demoIfaces) zeroConfig = resolveIdentity (demoHost (rev demoIfaces)) zeroConfig.
Proof. apply identity_stable. split_and!; [|done|done|done]. constructor. apply Permutation_rev. Defined.

(** A private address is chosen although the default route leaves over the public one. *)
Example demo_primary : ipString <$> (match PrimaryIP (demoHost demoIfaces) with inr ip => Some ip | inl _ => None end) = Some "10.0.0.7"%string.
Proof. vm_compute. reflexivity. Qed.

(** [IsLocalIP] knows that all of 127.0.0.0/8 is this machine; [IsLocalHost], the function
    [staleSelfAddr] asks, does not, so an address there is taken for another machine's. *)
Lemma loopback_alias_is_foreign :
  IsLocalIP (demoHost demoIfaces) (ParseIP "127.0.0.2") = true /\ IsLocalHost (demoHost demoIfaces) "127.0.0.2" = (false, true).
Proof. vm_compute. done. Qed.
