(* ===== verification/JsonSpec.v ===== *)
(** * JSON round trips: what [json.Marshal] prints, [json.Unmarshal] reads back. *)

From S2P Require Import Prelude GoInt GoStr GoTime GoSort Config Json.

(** ** Base64 *)

Lemma b64val_char n : 0 <= n < 64 -> b64val (b64char n) = Some n.
Proof.
  intros Hn. unfold b64val, b64char, between.
  destruct (n <? 26) eqn:E1; [|destruct (n <? 52) eqn:E2; [|destruct (n <? 62) eqn:E3; [|destruct (n =? 62) eqn:E4]]];
    zify_bool; rewrite code_chr by lia; repeat case_match; zify_bool; try done; try (f_equal; lia); exfalso;
    repeat match goal with H : (_ && _)%bool = false |- _ => apply andb_false_iff in H as [H|H] end; zify_bool; lia.
Qed.

Lemma b64char_text n : 0 <= n < 64 ->
  padding (b64char n) = false /\ (code (b64char n) <? 0x80) = true /\ (code (b64char n) =? 10) || (code (b64char n) =? 13) = false.
Proof.
  intros Hn. unfold padding, b64char.
  destruct (n <? 26) eqn:E1; [|destruct (n <? 52) eqn:E2; [|destruct (n <? 62) eqn:E3; [|destruct (n =? 62) eqn:E4]]];
    zify_bool; rewrite code_chr by lia; split_and!; try (apply Z.eqb_neq; lia); try (apply Z.ltb_lt; lia); apply orb_false_iff; split; apply Z.eqb_neq; lia.
Qed.

Definition b64text (c : ascii) : bool := (code c <? 0x80) && negb ((code c =? 10) || (code c =? 13)).

Lemma dropBreaks_text s : sall b64text s = true -> dropBreaks s = s.
Proof.
  induction s as [|c s IH]; simpl; [done|]. intros [Hc Hs]%andb_true_iff. unfold b64text in Hc.
  apply andb_true_iff in Hc as [_ Hc%negb_true_iff]. rewrite Hc. by rewrite IH.
Qed.

(** Induction three bytes at a time. *)
Lemma string_ind3 (P : string -> Prop) :
  P EmptyString -> (forall a, P (one a)) -> (forall a b, P (String a (one b))) ->
  (forall a b c s, P s -> P (String a (String b (String c s)))) -> forall s, P s.
Proof.
  intros H0 H1 H2 H3 s. assert (P s /\ (forall a, P (String a s)) /\ forall a b, P (String a (String b s))) as [? _]; [|done].
  induction s as [|c s (IH0 & IH1 & IH2)]; [done|]. split_and!; eauto.
Qed.

Lemma encode64_text s : sall b64text (encode64 s) = true.
Proof.
  assert (forall n, 0 <= n < 64 -> b64text (b64char n) = true) as Ht.
  { intros n Hn. unfold b64text. by destruct (b64char_text n Hn) as (_ & -> & ->). }
  induction s as [|a|a b|a b c s IH] using string_ind3; [done|..];
    pose proof (code_range a); try pose proof (code_range b); try pose proof (code_range c); cbn [encode64 one]; unfold one;
    rewrite !sapp_cons, ?sapp_nil_l; cbn [sall];
    rewrite !Ht by (Z.to_euclidean_division_equations; lia); cbn [andb]; [reflexivity..|exact IH].
Qed.

Lemma decodeGroups_encode64 s : decodeGroups (encode64 s) = Some s.
Proof.
  assert (forall n, 0 <= n < 256 -> forall a, code a = n -> byte1 n = one a) as Hb.
  { intros n Hn a Ha. unfold byte1, one. f_equal. apply code_inj. by rewrite code_chr. }
  assert (forall n, 0 <= n < 64 -> padding (b64char n) = false) as Hp by apply b64char_text.
  induction s as [|a|a b|a b c s IH] using string_ind3; [done|..];
    pose proof (code_range a); try pose proof (code_range b); try pose proof (code_range c); cbn [encode64 one]; unfold one;
    rewrite !sapp_cons, ?sapp_nil_l; cbn [decodeGroups];
    rewrite !b64val_char by (Z.to_euclidean_division_equations; lia).
  - change (padding "="%char) with true. cbn [andb sempty]. f_equal.
    rewrite (Hb _) with (a := a) by (Z.to_euclidean_division_equations; lia). done.
  - rewrite Hp by (Z.to_euclidean_division_equations; lia). change (padding "="%char) with true. cbn [andb sempty]. f_equal.
    rewrite (Hb _) with (a := a) by (Z.to_euclidean_division_equations; lia).
    rewrite (Hb _) with (a := b) by (Z.to_euclidean_division_equations; lia). done.
  - rewrite !Hp, IH by (Z.to_euclidean_division_equations; lia).
    rewrite (Hb _) with (a := a) by (Z.to_euclidean_division_equations; lia).
    rewrite (Hb _) with (a := b) by (Z.to_euclidean_division_equations; lia).
    rewrite (Hb _) with (a := c) by (Z.to_euclidean_division_equations; lia). done.
Qed.

Lemma decode64_encode64 s : decode64 (encode64 s) = Some s.
Proof. unfold decode64. rewrite dropBreaks_text by apply encode64_text. apply decodeGroups_encode64. Qed.

(** ** Strings *)

(** The valid UTF-8 encodings. *)
Fixpoint utf8Loop (fuel : nat) (s : string) : bool :=
  match fuel, s with
  | S fuel, String c r =>
      if code c <? 0x80 then utf8Loop fuel r
      else if badRune s then false
      else utf8Loop fuel (sdrop (runeWidth s) s)
  | _, _ => true
  end.
Definition utf8 (s : string) : bool := utf8Loop (String.length s) s.

(** A rune above ASCII is decoded from its own bytes. *)
Lemma byteAt_length k s b : byteAt k s = Some b -> (k < String.length s)%nat.
Proof.
  unfold byteAt. intros H. assert (String.length (sdrop k s) <> 0)%nat as Hl by (by destruct (sdrop k s)).
  rewrite slength_sdrop in Hl. lia.
Qed.

Lemma byteAt_stake k n s t : (k < n)%nat -> (n <= String.length s)%nat -> byteAt k (stake n s +++ t) = byteAt k s.
Proof.
  revert k s. induction n as [|n IH]; intros k s Hk Hn; [lia|]. destruct s as [|c s]; simpl in Hn; [lia|].
  destruct k as [|k]; [done|]. apply (IH k s); lia.
Qed.

Lemma cont_some o lo hi x : cont o lo hi = Some x -> exists b, o = Some b.
Proof. destruct o; [eauto|done]. Qed.

Lemma decodeRune_stake c r t : code c <? 0x80 = false -> badRune (String c r) = false ->
  (2 <= runeWidth (String c r) <= String.length (String c r))%nat /\
  decodeRune (stake (runeWidth (String c r)) (String c r) +++ t) = decodeRune (String c r).
Proof.
  intros Hc Hb. set (s := String c r) in *. unfold badRune, runeWidth in *. remember (decodeRune s) as d eqn:Hd.
  assert (forall s', hasPrefix (one c) s' = true -> exists r', s' = String c r') as Hs'.
  { intros [|c' r'] H; [done|]. simpl in H. apply andb_true_iff in H as [->%Ascii.eqb_eq _]. eauto. }
  assert (forall v n b lo hi x, d = (v, n) -> (2 <= n)%nat -> cont b lo hi = Some x -> b = byteAt (n - 1) s ->
    (forall r', (forall k, (k < n)%nat -> byteAt k (String c r') = byteAt k s) -> decodeRune (String c r') = d) ->
    (2 <= snd d <= String.length s)%nat /\ decodeRune (stake (snd d) s +++ t) = d) as Hgo.
  { intros v n b lo hi x Hv Hn Hx Hbn Hk. rewrite Hv at 1 2 3. cbn [snd].
    destruct (cont_some _ _ _ _ Hx) as [y Hy]. rewrite Hbn in Hy. apply byteAt_length in Hy. split; [lia|].
    destruct (Hs' (stake n s +++ t)) as [r' Hr']; [destruct n; [lia|]; simpl; by rewrite Ascii.eqb_refl|].
    rewrite Hr'. apply Hk. intros k Hkn. rewrite <- Hr'. apply byteAt_stake; lia. }
  unfold s, decodeRune in Hd. fold s in Hd. rewrite Hc in Hd. cbv zeta in Hd.
  destruct (between 0xC2 (code c) 0xDF) eqn:E2; [|destruct (between 0xE0 (code c) 0xEF) eqn:E3;
    [|destruct (between 0xF0 (code c) 0xF4) eqn:E4; [|by subst d]]].
  - destruct (cont (byteAt 1 s) _ _) as [b1|] eqn:C1; [|by subst d].
    eapply (Hgo _ 2%nat); [exact Hd|lia|exact C1|done|]. intros r' Hk. unfold decodeRune. rewrite Hc, E2, Hk, C1 by lia. done.
  - destruct (cont (byteAt 1 s) _ _) as [b1|] eqn:C1; [|by subst d]. destruct (cont (byteAt 2 s) _ _) as [b2|] eqn:C2; [|by subst d].
    eapply (Hgo _ 3%nat); [exact Hd|lia|exact C2|done|]. intros r' Hk. unfold decodeRune. rewrite Hc, E2, E3, !Hk, C1, C2 by lia. done.
  - destruct (cont (byteAt 1 s) _ _) as [b1|] eqn:C1; [|by subst d]. destruct (cont (byteAt 2 s) _ _) as [b2|] eqn:C2; [|by subst d].
    destruct (cont (byteAt 3 s) _ _) as [b3|] eqn:C3; [|by subst d].
    eapply (Hgo _ 4%nat); [exact Hd|lia|exact C3|done|]. intros r' Hk. unfold decodeRune.
    rewrite Hc, E2, E3, E4, !Hk, C1, C2, C3 by lia. done.
Qed.

Lemma scan_escapeByte c fuel t : code c <? 0x80 = true -> htmlSafe c = false ->
  scanStr (S fuel) (escapeByte c +++ t) = prepend (one c) (scanStr fuel t).
Proof. destruct c as [[] [] [] [] [] [] [] []]; intros H1 H2; first [discriminate H1 | discriminate H2 | reflexivity]. Qed.

Lemma scan_safe c fuel t : code c <? 0x80 = true -> htmlSafe c = true ->
  scanStr (S fuel) (String c t) = prepend (one c) (scanStr fuel t).
Proof.
  unfold htmlSafe. intros Hc H. zify_bool. cbn [scanStr].
  destruct (code c =? 34) eqn:?, (code c =? 92) eqn:?, (code c <? 32) eqn:?; zify_bool; try lia. by rewrite (proj2 (Z.ltb_lt _ _)) by done.
Qed.

Lemma hasPrefix_split p s : hasPrefix p s = true -> s = p +++ sdrop (String.length p) s.
Proof.
  revert s. induction p as [|a p IH]; intros s; [done|]. destruct s as [|b s]; simpl; [done|].
  intros [->%Ascii.eqb_eq H]%andb_true_iff. by rewrite <- (IH s H).
Qed.

Lemma scan_separator d s fuel t : lineSeparator s = Some d ->
  scanStr (S fuel) (backslash +++ "u202" +++ d +++ t) = prepend (stake 3 s) (scanStr fuel t) /\
  (3 <= String.length s)%nat /\ runeWidth s = 3%nat.
Proof.
  unfold lineSeparator. intros H.
  destruct (hasPrefix _ s) eqn:E; [|destruct (hasPrefix (byte1 0xE2 +++ byte1 0x80 +++ byte1 0xA9) s) eqn:E2; [|done]];
    injection H as <-; [apply hasPrefix_split in E as ->|apply hasPrefix_split in E2 as ->];
    (split_and!; [reflexivity|rewrite slength_app; simpl; lia|reflexivity]).
Qed.

Lemma prepend_some p s r : prepend p (Some (s, r)) = Some (p +++ s, r).
Proof. done. Qed.

Lemma scan_rune c r fuel t : code c <? 0x80 = false -> badRune (String c r) = false ->
  (2 <= runeWidth (String c r) <= String.length (String c r))%nat /\
  scanStr (S fuel) (stake (runeWidth (String c r)) (String c r) +++ t) =
  prepend (stake (runeWidth (String c r)) (String c r)) (scanStr fuel t).
Proof.
  intros Hc Hb. destruct (decodeRune_stake c r t Hc Hb) as [Hw Hd].
  set (w := runeWidth (String c r)) in *. split; [done|].
  assert (String.length (stake w (String c r)) = w) as Hlen by (rewrite slength_stake; lia).
  destruct (stake w (String c r)) as [|c' r'] eqn:E; [simpl in Hlen; lia|].
  assert (c' = c) as -> by (destruct w; [lia|simpl in E; congruence]).
  set (s := String c r') in *.
  assert (badRune (s +++ t) = false /\ runeWidth (s +++ t) = w) as [Hb' Hw'] by (unfold badRune, runeWidth; by rewrite Hd).
  unfold s at 1. rewrite sapp_cons. cbn [scanStr]. rewrite <- sapp_cons. fold s. rewrite Hb', Hw', Hc.
  destruct (code c =? 34) eqn:?, (code c =? 92) eqn:?, (code c <? 32) eqn:?; zify_bool; try lia.
  rewrite <- Hlen at 1 2. by rewrite stake_app, sdrop_app.
Qed.

(** A valid string reads back as itself. *)
Lemma scan_escape n s fuel rest :
  (String.length s <= n)%nat -> utf8Loop n s = true -> (String.length (escape n s) < fuel)%nat ->
  scanStr fuel (escape n s +++ dquote +++ rest) = Some (s, rest).
Proof.
  revert s fuel. induction n as [|n IH]; intros s fuel Hn Hu Hf.
  { destruct s; [|simpl in Hn; lia]. destruct fuel; [lia|done]. }
  destruct s as [|c r]; [destruct fuel; [lia|done]|]. cbn [escape utf8Loop] in *. simpl in Hn.
  destruct fuel as [|fuel]; [lia|]. destruct (code c <? 0x80) eqn:Hc.
  - destruct (htmlSafe c) eqn:Hs; rewrite slength_app in Hf.
    + unfold one at 1. rewrite !sapp_cons, sapp_nil_l, (scan_safe _ _ _ Hc Hs), IH, prepend_some; [done|lia|done|simpl in Hf; lia].
    + rewrite sapp_assoc, (scan_escapeByte _ _ _ Hc Hs), IH, prepend_some; [done|lia|done|].
      assert (0 < String.length (escapeByte c))%nat by (unfold escapeByte; repeat case_match; simpl; lia). lia.
  - destruct (badRune (String c r)) eqn:Hb; [done|]. set (s := String c r) in *.
    destruct (lineSeparator s) as [d|] eqn:Hl.
    + rewrite !sapp_assoc. destruct (scan_separator d s fuel (escape n (sdrop 3 s) +++ dquote +++ rest) Hl)
        as (-> & H3 & Hw). rewrite !slength_app in Hf. change (String.length backslash) with 1%nat in Hf. rewrite Hw in Hu.
      rewrite IH, prepend_some; [by rewrite stake_sdrop| |done|lia]. rewrite slength_sdrop. simpl. lia.
    + destruct (scan_rune c r fuel (escape n (sdrop (runeWidth s) s) +++ dquote +++ rest) Hc Hb) as [Hw Hd].
      fold s in Hw, Hd. rewrite sapp_assoc, Hd, IH, prepend_some; [by rewrite stake_sdrop| |done|].
      * rewrite slength_sdrop. simpl. lia.
      * rewrite slength_app, slength_stake in Hf. lia.
Qed.

Lemma text_utf8 s : sall (fun c => code c <? 0x80) s = true -> utf8 s = true.
Proof.
  unfold utf8. induction s as [|c s IH]; [done|]. cbn [sall utf8Loop String.length]. intros [Hc Hs]%andb_true_iff. rewrite Hc. auto.
Qed.

Lemma encode64_utf8 s : utf8 (encode64 s) = true.
Proof.
  apply text_utf8, (sall_impl b64text); [|apply encode64_text]. by intros c [Hc _]%andb_true_iff.
Qed.

(** ** Numbers *)

(** What may follow a value: the end of the text, a separator or a closing bracket. *)
Definition ends (t : string) : bool :=
  match byteAt 0 t with None => true | Some b => (b =? 44) || (b =? 93) || (b =? 125) end.

Lemma ends_not t n : ends t = true -> n ≠ 44 -> n ≠ 93 -> n ≠ 125 -> byteIs n t = false.
Proof. unfold ends, byteIs. destruct (byteAt 0 t) as [b|]; [|done]. intros. destruct (b =? 44) eqn:?, (b =? 93) eqn:?, (b =? 125) eqn:?; zify_bool; try done; lia. Qed.

Lemma ends_digits t : ends t = true -> takeDigits t = (EmptyString, t).
Proof.
  destruct t as [|c t]; [done|]. unfold ends, byteAt. cbn. unfold is_digit. intros.
  destruct (48 <=? code c) eqn:?, (code c <=? 57) eqn:?; try done.
  destruct (code c =? 44) eqn:?, (code c =? 93) eqn:?, (code c =? 125) eqn:?; zify_bool; try done; lia.
Qed.

Lemma takeDigits_app d t : sall is_digit d = true -> ends t = true -> takeDigits (d +++ t) = (d, t).
Proof.
  intros Hd Ht. induction d as [|c d IH]; [by apply ends_digits|]. cbn in Hd. apply andb_true_iff in Hd as [Hc Hd].
  rewrite sapp_cons. cbn. by rewrite Hc, IH.
Qed.

Lemma fmtDigits_lead fuel n acc : 0 < n < 10 ^ Z.of_nat fuel ->
  exists c s, fmtDigits fuel n acc = String c s /\ 48 < code c <= 57.
Proof.
  revert n acc. induction fuel as [|fuel IH]; intros n acc Hn; [simpl in Hn; lia|]. cbn [fmtDigits].
  destruct (n <? 10) eqn:E; zify_bool.
  - rewrite Z.mod_small by lia. do 2 eexists. split; [done|]. rewrite code_chr; lia.
  - apply IH. replace (Z.of_nat (S fuel)) with (Z.succ (Z.of_nat fuel)) in Hn by lia. rewrite Z.pow_succ_r in Hn by lia.
    Z.to_euclidean_division_equations; lia.
Qed.

Lemma scanInt_FormatUint n t : 0 <= n <= MaxUint64 -> ends t = true -> scanInt (FormatUint n +++ t) = Some (FormatUint n, t).
Proof.
  intros Hn Ht. destruct (decide (n = 0)) as [->|]; [done|].
  destruct (fmtDigits_lead 20 n EmptyString) as (c & s & E & Hc).
  { change (10 ^ Z.of_nat 20) with 100000000000000000000. unfold MaxUint64 in Hn. lia. }
  pose proof (FormatUint_digits n (proj1 Hn)) as Hd. unfold scanInt.
  rewrite takeDigits_app by done. unfold FormatUint in *. rewrite E, sapp_cons. unfold byteIs, byteAt. cbn.
  destruct (code c =? 48) eqn:?; [zify_bool; lia|done].
Qed.

Lemma scan_rest t : ends t = true -> scanFrac t = Some (EmptyString, t) /\ scanExp t = Some (EmptyString, t).
Proof. intros. unfold scanFrac, scanExp. by rewrite !(ends_not t) by done. Qed.

(** The literals the encoder writes read back whole. *)
Definition numLit (lit : string) : Prop :=
  (exists c s, lit = String c s /\ (code c = 45 \/ 48 <= code c <= 57)) /\
  forall t, ends t = true -> scanNum (lit +++ t) = Some (lit, t).

Lemma numLit_uint n : 0 <= n <= MaxUint64 -> numLit (FormatUint n).
Proof.
  intros Hn. destruct (FormatUint_head n (proj1 Hn)) as (c & s & E & Hc). unfold is_digit in Hc. zify_bool. split; [eauto 10|].
  intros t Ht. unfold scanNum.
  assert (byteIs 45 (FormatUint n +++ t) = false) as ->.
  { rewrite E, sapp_cons. unfold byteIs, byteAt. cbn. apply Z.eqb_neq. lia. }
  rewrite scanInt_FormatUint by done. destruct (scan_rest t Ht) as [-> ->]. by rewrite !sapp_nil_r.
Qed.

Lemma numLit_int n : is_int64 n = true -> numLit (FormatInt n).
Proof.
  unfold is_int64, MinInt64, MaxInt64. intros Hn. zify_bool. unfold FormatInt. destruct (n <? 0) eqn:E; zify_bool;
    [|apply numLit_uint; unfold MaxUint64; lia].
  split; [do 2 eexists; split; [done|by left]|]. intros t Ht. unfold scanNum. rewrite sapp_cons.
  change (byteIs 45 (String "-" (FormatUint (- n) +++ t))) with true. change (sdrop 1 (String "-" ?x)) with x.
  cbn [sdrop]. rewrite scanInt_FormatUint; [|unfold MaxUint64; lia|done]. destruct (scan_rest t Ht) as [-> ->]. by rewrite !sapp_nil_r.
Qed.

(** ** Documents *)

Section json_induction.
  Variable P : json -> Prop.
  Hypotheses (Hnull : P JNull) (Hbool : forall b, P (JBool b)) (Hnum : forall lit, P (JNum lit)) (Hstr : forall s, P (JStr s))
    (Harr : forall l, Forall P l -> P (JArr l)) (Hobj : forall l, Forall (fun kv => P (snd kv)) l -> P (JObj l)).

Fixpoint json_rect' (j : json) : P j :=
  match j with
  | JNull => Hnull
  | JBool b => Hbool b
  | JNum lit => Hnum lit
  | JStr s => Hstr s
  | JArr l => Harr l ((fix all (l : list json) : Forall P l :=
                         match l with [] => Forall_nil_2 _ | x :: l => Forall_cons_2 _ _ _ (json_rect' x) (all l) end) l)
  | JObj l => Hobj l ((fix all (l : list (string * json)) : Forall (fun kv => P (snd kv)) l :=
                         match l with [] => Forall_nil_2 _ | x :: l => Forall_cons_2 _ _ _ (json_rect' (snd x)) (all l) end) l)
  end.
End json_induction.

(** The documents that have a faithful text: valid strings, numbers the encoder writes, and a
    nesting of at most [d]. *)
Fixpoint wfJson (d : nat) (j : json) : Prop :=
  match j, d with
  | JNum lit, _ => numLit lit
  | JStr s, _ => utf8 s = true
  | JArr l, S d => Forall (wfJson d) l
  | JObj l, S d => Forall (fun kv => utf8 (fst kv) = true /\ wfJson d (snd kv)) l
  | JArr _, O | JObj _, O => False
  | _, _ => True
  end.

(** A text that starts with a byte which is neither white space nor a closing bracket. *)
Definition solid (s : string) : Prop :=
  exists c r, s = String c r /\ jsonSpace c = false /\ (code c =? 93) = false /\ (code c =? 125) = false.

Lemma skipWs_solid s t : solid s -> skipWs (s +++ t) = s +++ t.
Proof. intros (c & r & -> & Hc & _). rewrite sapp_cons. cbn. by rewrite Hc. Qed.

Lemma solid_number lit : numLit lit -> solid lit.
Proof.
  intros [(c & s & -> & Hc) _]. exists c, s. split; [done|]. rewrite !Z.eqb_neq. split; [|lia]. unfold jsonSpace.
  destruct (code c =? 32) eqn:?, (code c =? 9) eqn:?, (code c =? 10) eqn:?, (code c =? 13) eqn:?; zify_bool; try done; lia.
Qed.

Lemma solid_print d j : wfJson d j -> solid (print j).
Proof.
  destruct j as [|b|lit|s|l|l]; cbn [print]; intros H;
    [| |by apply solid_number; destruct d| | |]; try (destruct b); do 2 eexists; (split; [reflexivity|done]).
Qed.

Lemma solid_length s : solid s -> (0 < String.length s)%nat.
Proof. intros (c & r & -> & _). simpl. lia. Qed.

Lemma print_length d j : wfJson d j -> (0 < String.length (print j))%nat.
Proof. intros. eapply solid_length, solid_print; eauto. Qed.

Lemma scan_quoted s t : utf8 s = true ->
  exists r, quoted s +++ t = String (chr 34) r /\ scanStr (String.length (quoted s +++ t)) r = Some (s, t).
Proof.
  intros Hs. unfold quoted. exists (escape (String.length s) s +++ dquote +++ t). split; [by rewrite !sapp_assoc|].
  apply scan_escape; [lia|done|]. rewrite !slength_app. change (String.length dquote) with 1%nat. lia.
Qed.

Lemma parse_string d s t : utf8 s = true -> forall fuel, parseValue (S fuel) d (quoted s +++ t) = Some (JStr s, t).
Proof.
  intros Hs fuel. destruct (scan_quoted s t Hs) as (r & E & Hr). cbn [parseValue].
  rewrite skipWs_solid by (do 2 eexists; split; [reflexivity|done]).
  rewrite E in *. change (byteIs 34 (String (chr 34) r)) with true. cbn [sdrop]. by rewrite Hr.
Qed.

Lemma parse_number d lit t : numLit lit -> ends t = true -> forall fuel, parseValue (S fuel) d (lit +++ t) = Some (JNum lit, t).
Proof.
  intros Hl Ht fuel. cbn [parseValue]. rewrite skipWs_solid by by apply solid_number.
  destruct Hl as [(c & s & E & Hc) Hl]. pose proof (Hl t Ht) as Hs.
  assert (forall n, n ≠ 45 -> ~ (48 <= n <= 57) -> byteIs n (lit +++ t) = false) as Hb.
  { intros. rewrite E, sapp_cons. unfold byteIs, byteAt. cbn. apply Z.eqb_neq. lia. }
  rewrite !Hb by lia. by rewrite Hs.
Qed.

Definition readsBack (d : nat) (j : json) : Prop :=
  forall fuel depth t, (2 * String.length (print j) <= fuel)%nat -> depth + Z.of_nat d <= maxNestingDepth -> ends t = true ->
    parseValue fuel depth (print j +++ t) = Some (j, t).

Lemma parse_elems d l fuel depth t :
  l ≠ [] -> Forall (fun j => wfJson d j /\ readsBack d j) l ->
  (2 * String.length (join "," (map print l)) + 1 <= fuel)%nat -> depth + Z.of_nat d <= maxNestingDepth ->
  parseElems fuel depth (join "," (map print l) +++ "]" +++ t) = Some (l, t).
Proof.
  revert fuel. induction l as [|j l IH]; intros fuel Hl HF Hf Hd; [done|].
  apply Forall_cons in HF as [[Hw Hj] HF]. destruct fuel as [|fuel]; [lia|].
  destruct l as [|j' l]; cbn [map join] in *.
  - cbn [parseElems]. rewrite Hj by (try done; lia). done.
  - rewrite !slength_app in Hf. pose proof (print_length d j Hw). change (String.length ",") with 1%nat in Hf.
    rewrite !sapp_assoc. cbn [parseElems]. rewrite Hj by (try done; lia).
    match goal with |- context [skipWs (?a +++ ?b)] => change (skipWs (a +++ b)) with (a +++ b) end.
    match goal with |- context [byteIs 44 (?a +++ ?b)] => change (byteIs 44 (a +++ b)) with true; change (sdrop 1 (a +++ b)) with b end.
    cbv iota. rewrite IH; [done|done|done|lia|done].
Qed.

Definition member (kv : string * json) : string := quoted (fst kv) +++ ":" +++ print (snd kv).

Lemma parse_member d kv fuel depth t :
  utf8 (fst kv) = true -> readsBack d (snd kv) -> wfJson d (snd kv) ->
  (2 * String.length (print (snd kv)) <= fuel)%nat -> depth + Z.of_nat d <= maxNestingDepth -> ends t = true ->
  parseMembers (S fuel) depth (member kv +++ t) =
    let r := skipWs t in
    if byteIs 44 r then
      match parseMembers fuel depth (sdrop 1 r) with Some (l, r) => Some (kv :: l, r) | None => None end
    else if byteIs 125 r then Some ([kv], sdrop 1 r)
    else None.
Proof.
  intros Hk Hj Hw Hf Hd Ht. unfold member. rewrite !sapp_assoc.
  destruct (scan_quoted (fst kv) (":" +++ print (snd kv) +++ t) Hk) as (r & E & Hr). cbn [parseMembers].
  rewrite skipWs_solid by (do 2 eexists; split; [reflexivity|done]).
  rewrite E in *. change (byteIs 34 (String (chr 34) r)) with true. cbn [sdrop]. rewrite Hr.
  match goal with |- context [skipWs (":" +++ ?b)] => change (skipWs (":" +++ b)) with (":" +++ b) end.
  match goal with |- context [byteIs 58 (?a +++ ?b)] => change (byteIs 58 (a +++ b)) with true end.
  change (":" +++ print (snd kv) +++ t) with (String ":" (print (snd kv) +++ t)). cbv iota. rewrite Hj by done. by destruct kv.
Qed.

Lemma parse_members d l fuel depth t :
  l ≠ [] -> Forall (fun kv => (utf8 (fst kv) = true /\ wfJson d (snd kv)) /\ readsBack d (snd kv)) l ->
  (2 * String.length (join "," (map member l)) + 1 <= fuel)%nat -> depth + Z.of_nat d <= maxNestingDepth ->
  parseMembers fuel depth (join "," (map member l) +++ "}" +++ t) = Some (l, t).
Proof.
  revert fuel. induction l as [|j l IH]; intros fuel Hl HF Hf Hd; [done|].
  apply Forall_cons in HF as [[[Hu Hw] Hj] HF]. destruct fuel as [|fuel]; [lia|].
  assert (String.length (print (snd j)) + 3 <= String.length (member j))%nat as Hlen.
  { unfold member, quoted. rewrite !slength_app. change (String.length ":") with 1%nat. change (String.length dquote) with 1%nat. lia. }
  destruct l as [|j' l]; cbn [map join] in *.
  - by rewrite (parse_member d) by (try done; lia).
  - rewrite !slength_app in Hf. pose proof (print_length d _ Hw). change (String.length ",") with 1%nat in Hf.
    rewrite !sapp_assoc, (parse_member d) by (try done; lia). cbv zeta.
    match goal with |- context [skipWs (?a +++ ?b)] => change (skipWs (a +++ b)) with (a +++ b) end.
    match goal with |- context [byteIs 44 (?a +++ ?b)] => change (byteIs 44 (a +++ b)) with true; change (sdrop 1 (a +++ b)) with b end.
    cbv iota. rewrite IH; [done|done|done|lia|done].
Qed.

Lemma solid_closing s t : solid s -> byteIs 93 (s +++ t) = false /\ byteIs 125 (s +++ t) = false.
Proof. intros (c & r & -> & _ & H). by rewrite sapp_cons. Qed.

Lemma solid_join (x : string) (l : list string) : solid x -> solid (join "," (x :: l)).
Proof. intros (c & r & -> & H). destruct l; [|cbn [join]; rewrite sapp_cons]; unfold solid; eauto. Qed.

Lemma parse_brackets d l fuel depth t : Forall (fun j => wfJson d j /\ readsBack d j) l ->
  (2 * String.length (print (JArr l)) <= S fuel)%nat -> depth + Z.of_nat (S d) <= maxNestingDepth ->
  parseValue (S fuel) depth (print (JArr l) +++ t) = Some (JArr l, t).
Proof.
  intros HF Hf Hd. assert (maxNestingDepth <=? depth = false) as Hm by (apply Z.leb_gt; lia).
  cbn [print] in *. rewrite !sapp_assoc, !slength_app in *. change (String.length "[") with 1%nat in Hf. change (String.length "]") with 1%nat in Hf.
  destruct l as [|j l]; [cbn; by rewrite Hm|]. assert (solid (join "," (map print (j :: l)))) as Hs.
  { apply Forall_cons in HF as [[Hw _] _]. by apply solid_join, (solid_print d). }
  pose proof (parse_elems d (j :: l) fuel (depth + 1) t) as HE. set (body := join "," (map print (j :: l))) in *.
  cbn [parseValue]. change (skipWs ("[" +++ body +++ "]" +++ t)) with (String "[" (body +++ "]" +++ t)).
  change (byteIs 34 (String "[" (body +++ "]" +++ t))) with false. change (byteIs 91 (String "[" (body +++ "]" +++ t))) with true.
  cbn [sdrop]. rewrite Hm, skipWs_solid, (proj1 (solid_closing _ _ Hs)), HE; [done|done|done|lia|lia|done].
Qed.

Lemma parse_braces d l fuel depth t : Forall (fun kv => (utf8 (fst kv) = true /\ wfJson d (snd kv)) /\ readsBack d (snd kv)) l ->
  (2 * String.length (print (JObj l)) <= S fuel)%nat -> depth + Z.of_nat (S d) <= maxNestingDepth ->
  parseValue (S fuel) depth (print (JObj l) +++ t) = Some (JObj l, t).
Proof.
  intros HF Hf Hd. assert (maxNestingDepth <=? depth = false) as Hm by (apply Z.leb_gt; lia).
  cbn [print] in *. fold member in *. rewrite !sapp_assoc, !slength_app in *. change (String.length "{") with 1%nat in Hf. change (String.length "}") with 1%nat in Hf.
  destruct l as [|j l]; [cbn; by rewrite Hm|]. assert (solid (join "," (map member (j :: l)))) as Hs.
  { apply solid_join. do 2 eexists. split; [reflexivity|done]. }
  pose proof (parse_members d (j :: l) fuel (depth + 1) t) as HE. set (body := join "," (map member (j :: l))) in *.
  cbn [parseValue]. change (skipWs ("{" +++ body +++ "}" +++ t)) with (String "{" (body +++ "}" +++ t)).
  change (byteIs 34 (String "{" (body +++ "}" +++ t))) with false. change (byteIs 91 (String "{" (body +++ "}" +++ t))) with false.
  change (byteIs 123 (String "{" (body +++ "}" +++ t))) with true.
  cbn [sdrop]. rewrite Hm, skipWs_solid, (proj2 (solid_closing _ _ Hs)), HE; [done|done|done|lia|lia|done].
Qed.

Lemma print_parse j d : wfJson d j -> readsBack d j.
Proof.
  revert d. induction j as [|b|lit|s|l IH|l IH] using json_rect'; intros d Hw fuel depth t Hf Hd Ht;
    (destruct fuel as [|fuel]; [pose proof (print_length d _ Hw); lia|]).
  - reflexivity.
  - by destruct b.
  - apply parse_number; [by destruct d|done].
  - apply parse_string. by destruct d.
  - destruct d as [|d]; [done|]. apply (parse_brackets d); [|done|done]. cbn in Hw.
    rewrite Forall_forall in *. eauto.
  - destruct d as [|d]; [done|]. apply (parse_braces d); [|done|done]. cbn in Hw.
    rewrite Forall_forall in *. intros kv Hkv. split; [by apply Hw|]. apply IH, Hw; done.
Qed.

(** A document the encoder can write is the one the decoder reads. *)
Lemma parse_print j d : wfJson d j -> Z.of_nat d <= maxNestingDepth -> parse (print j) = Some j.
Proof.
  intros Hw Hd. unfold parse. rewrite <- (sapp_nil_r (print j)) at 2. by rewrite (print_parse j d Hw) by (try done; lia).
Qed.
