(* ===== verification/StoreBase.v ===== *)
(** * Package [store], part 1: data, the state monad and the primitives under a shard lock.

    internal/store/store.go (types, accounting, purge and replace), internal/store/eviction.go
    (LRU bookkeeping) and internal/store/store_watch.go (version bump).  [mem] is an unbounded
    integer: the estimate of what fits in a machine's memory is far from 2^63. *)

From S2P Require Import Prelude GoInt GoStr GoTime GoSort Config.

Definition NumShards : nat := 256.

(** ** Data *)

Inductive DataType := TypeNone | TypeString | TypeHash | TypeList | TypeSet.

#[global] Instance DataType_eq_dec : EqDecision DataType.
Proof. solve_decision. Defined.

(** [entry.value] with its dynamic type; [dtype] is the tag the source stores beside it. *)
Inductive gvalue :=
  | VString (b : slice)
  | VHash (h : gmap string slice)
  | VList (l : list slice)
  | VSet (st : gset string).

#[global] Instance gvalue_eq_dec : EqDecision gvalue.
Proof. solve_decision. Defined.

Definition dtypeOf (v : gvalue) : DataType :=
  match v with
  | VString _ => TypeString | VHash _ => TypeHash | VList _ => TypeList | VSet _ => TypeSet
  end.

(** [allElem] and [volElem] are true when the pointer to the LRU list element is not nil: a list
    holds at most one element per key, so the key identifies it. *)
Record entry := mkEntry {
  e_value : gvalue; e_expiresAt : Time; e_allElem : bool; e_volElem : bool }.

#[global] Instance entry_eq_dec : EqDecision entry.
Proof. solve_decision. Defined.

Definition e_dtype (e : entry) : DataType := dtypeOf (e_value e).

(** [&entry{value: v, expiresAt: at}]. *)
Definition newEntry (v : gvalue) (at_ : Time) : entry := mkEntry v at_ false false.

Definition setAll (b : bool) (e : entry) : entry :=
  mkEntry (e_value e) (e_expiresAt e) b (e_volElem e).
Definition setVol (b : bool) (e : entry) : entry :=
  mkEntry (e_value e) (e_expiresAt e) (e_allElem e) b.
Definition setValue (v : gvalue) (e : entry) : entry :=
  mkEntry v (e_expiresAt e) (e_allElem e) (e_volElem e).

(** LRU lists are held front first; [allElems]/[volElems] are the keys of the element maps. *)
Record shard := mkShard {
  sh_m : gmap string entry;
  allList : list string; allElems : gset string;
  volList : list string; volElems : gset string }.

Definition emptyShard : shard := mkShard ∅ [] ∅ [] ∅.

Record Store := mkStore {
  shards : list shard;
  mem : Z;
  policyCache : string;
  maxMemCache : Z;
  readLRUTick : Z;
  evictCursor : Z;
  watch : gmap string Z }.

Definition setShards (l : list shard) (s : Store) : Store :=
  mkStore l (mem s) (policyCache s) (maxMemCache s) (readLRUTick s) (evictCursor s) (watch s).
Definition setMem (n : Z) (s : Store) : Store :=
  mkStore (shards s) n (policyCache s) (maxMemCache s) (readLRUTick s) (evictCursor s) (watch s).
Definition setTick (n : Z) (s : Store) : Store :=
  mkStore (shards s) (mem s) (policyCache s) (maxMemCache s) n (evictCursor s) (watch s).
Definition setCursor (n : Z) (s : Store) : Store :=
  mkStore (shards s) (mem s) (policyCache s) (maxMemCache s) (readLRUTick s) n (watch s).
Definition setWatch (w : gmap string Z) (s : Store) : Store :=
  mkStore (shards s) (mem s) (policyCache s) (maxMemCache s) (readLRUTick s) (evictCursor s) w.

Definition shardAt (i : nat) (s : Store) : shard := default emptyShard (shards s !! i).
Definition putShard (i : nat) (sh : shard) (s : Store) : Store :=
  setShards (<[i := sh]> (shards s)) s.
Definition onShard (i : nat) (f : shard -> shard) (s : Store) : Store :=
  putShard i (f (shardAt i s)) s.

(** ** Shard routing: FNV-1a, 32 bits *)

Fixpoint fnv1a (h : Z) (s : string) : Z :=
  match s with
  | EmptyString => h
  | String c s => fnv1a (wrapU32 (Z.lxor h (code c) * 16777619)) s
  end.

Definition shardIndex (key : string) : nat :=
  Z.to_nat (fnv1a 2166136261 key mod Z.of_nat NumShards).

(** ** The outside world

    What the operations read besides the store: the clock, with the time that passes before each
    reading; the steps other goroutines take whenever a lock is released or not yet taken; the
    random numbers; and the order of each iteration over a Go map, any permutation of the
    bindings. *)

Class MapOrder := {
  mapOrder : forall A, nat -> list A -> list A;
  mapOrder_perm : forall A n (l : list A), mapOrder A n l ≡ₚ l }.

Record Env := mkEnv {
  clock : Time; delays : list Z; tape : list (Store -> Store); rnd : list Z; iters : nat }.

Record St := mkSt { db : Store; env : Env }.

Definition M (A : Type) : Type := St -> A * St.

#[global] Instance M_ret : MRet M := fun A a st => (a, st).
#[global] Instance M_bind : MBind M := fun A B f m st => let '(a, st) := m st in f a st.

Definition gets {A} (f : Store -> A) : M A := fun st => (f (db st), st).
Definition modify (f : Store -> Store) : M unit := fun st => (tt, mkSt (f (db st)) (env st)).

(** [time.Now()]. *)
Definition Now : M Time := fun st =>
  let e := env st in
  let d := Z.max 0 (default 0 (head (delays e))) in
  (clock e + d, mkSt (db st) (mkEnv (clock e + d) (tail (delays e)) (tape e) (rnd e) (iters e))).

(** A point where no lock is held: the next step of the other goroutines takes place. *)
Definition yield : M unit := fun st =>
  let e := env st in
  match tape e with
  | [] => (tt, st)
  | f :: t => (tt, mkSt (f (db st)) (mkEnv (clock e) (delays e) t (rnd e) (iters e)))
  end.

(** [rand.IntN(n)]. *)
Definition IntN (n : nat) : M nat := fun st =>
  let e := env st in
  (Z.to_nat (default 0 (head (rnd e)) mod Z.of_nat n),
   mkSt (db st) (mkEnv (clock e) (delays e) (tape e) (tail (rnd e)) (iters e))).

(** The order of one [range] loop. *)
Definition ranged `{MapOrder} {A} (l : list A) : M (list A) := fun st =>
  let e := env st in
  (mapOrder A (iters e) l,
   mkSt (db st) (mkEnv (clock e) (delays e) (tape e) (rnd e) (S (iters e)))).

(** ** Memory accounting *)

(** [unsafe.Sizeof(entry{})] is 64: interface 16, [time.Time] 24, [DataType] 8, two pointers 16. *)
Definition entryOverhead : Z := 64 + 64.

Definition hashMem (h : gmap string slice) : Z := msum (fun k v => len k + slen v) h.
Definition setSum (st : gset string) : Z := zsum (map len (elements st)).

Definition valueMem (v : gvalue) : Z :=
  match v with
  | VString b => slen b
  | VHash h => hashMem h
  | VList l => Z.of_nat (List.length l) * 32
  | VSet st => setSum st
  end.

Definition estimateMem (key : string) (e : entry) : Z :=
  entryOverhead + len key + valueMem (e_value e).

Definition addMem (delta : Z) (s : Store) : Store :=
  if delta =? 0 then s
  else
    let newVal := mem s + delta in
    setMem (if newVal <? 0 then 0 else newVal) s.

(** ** Configuration *)

Definition policy (s : Store) : string :=
  if sempty (policyCache s) then "noeviction" else policyCache s.

Definition maxMemBytes (s : Store) : Z := maxMemCache s.

Definition refreshConfigCache (cfg : option Config) (s : Store) : Store :=
  let put pol m :=
    mkStore (shards s) (mem s) pol m (readLRUTick s) (evictCursor s) (watch s) in
  match cfg with
  | None => put "noeviction" 0
  | Some c =>
      put (NormalizeMaxMemoryPolicy c) (match MaxMemoryBytes c with inl _ => 0 | inr n => n end)
  end.

Definition ReplaceConfig (cfg : option Config) (s : Store) : Store :=
  match cfg with
  | Some _ => refreshConfigCache cfg s
  | None => s
  end.

(** The shards of [NewStore], before the configuration is read. *)
Definition emptyStore : Store :=
  mkStore (replicate NumShards emptyShard) 0 EmptyString 0 0 0 ∅.

(** [NewStore]; the expiry goroutine it starts is the [OSampleExpiry] step of StoreOps.v. *)
Definition NewStore (cfg : option Config) : res Store :=
  match cfg with
  | None => inl (wrapErr "nil config: " (New "invalid argument"))
  | Some _ =>
      inr (refreshConfigCache cfg emptyStore)
  end.

(** ** LRU bookkeeping *)

Definition hasTTL (e : entry) : bool := negb (IsZero (e_expiresAt e)).

(** [list.List]: [Remove] of the element of a key, [MoveToFront], [PushFront]. *)
Definition listRemove (key : string) (l : list string) : list string := filter (fun k => k <> key) l.
Definition moveToFront (key : string) (l : list string) : list string := key :: listRemove key l.

Definition dropAll (key : string) (sh : shard) : shard :=
  mkShard (sh_m sh) (listRemove key (allList sh)) (allElems sh ∖ {[ key ]}) (volList sh) (volElems sh).
Definition dropVol (key : string) (sh : shard) : shard :=
  mkShard (sh_m sh) (allList sh) (allElems sh) (listRemove key (volList sh)) (volElems sh ∖ {[ key ]}).
Definition frontAll (key : string) (sh : shard) : shard :=
  mkShard (sh_m sh) (moveToFront key (allList sh)) (allElems sh) (volList sh) (volElems sh).
Definition frontVol (key : string) (sh : shard) : shard :=
  mkShard (sh_m sh) (allList sh) (allElems sh) (moveToFront key (volList sh)) (volElems sh).
Definition pushAll (key : string) (sh : shard) : shard :=
  mkShard (sh_m sh) (key :: allList sh) ({[ key ]} ∪ allElems sh) (volList sh) (volElems sh).
Definition pushVol (key : string) (sh : shard) : shard :=
  mkShard (sh_m sh) (allList sh) (allElems sh) (key :: volList sh) ({[ key ]} ∪ volElems sh).
Definition setM (m : gmap string entry) (sh : shard) : shard :=
  mkShard m (allList sh) (allElems sh) (volList sh) (volElems sh).
Definition putEntry (key : string) (e : entry) (sh : shard) : shard := setM (<[key := e]> (sh_m sh)) sh.
Definition delEntry (key : string) (sh : shard) : shard := setM (delete key (sh_m sh)) sh.

(** [removeFromLRU], on the shard; the entry's two pointers become nil. *)
Definition removeFromLRU (key : string) (e : entry) (sh : shard) : shard :=
  let sh := if e_allElem e then dropAll key sh else sh in
  if e_volElem e then dropVol key sh else sh.
Definition clearElems (e : entry) : entry := setVol false (setAll false e).

(** [touchAllKeysLRU] and [touchVolatileLRU] return the entry they mutate, which is the one the
    map holds under [key]. *)
Definition touchAllKeysLRU (pol : string) (key : string) (e : entry) (sh : shard) : entry * shard :=
  if negb (pol =? "allkeys-lru")%string then (e, sh)
  else if bool_decide (key ∈ allElems sh) then (e, frontAll key sh)
  else let e := setAll true e in (e, putEntry key e (pushAll key sh)).

Definition touchVolatileLRU (pol : string) (key : string) (e : entry) (sh : shard) : entry * shard :=
  if negb (pol =? "volatile-lru")%string then (e, sh)
  else if negb (hasTTL e) then
    if e_volElem e then let e := setVol false e in (e, putEntry key e (dropVol key sh))
    else (e, sh)
  else if bool_decide (key ∈ volElems sh) then (e, frontVol key sh)
  else let e := setVol true e in (e, putEntry key e (pushVol key sh)).

(** [lruAfterSet], for an entry already stored under [key]. *)
Definition lruAfterSet (pol : string) (key : string) (e : entry) (sh : shard) : shard :=
  let '(e, sh) :=
    if (pol =? "allkeys-lru")%string then
      if bool_decide (key ∈ allElems sh) then (e, frontAll key sh)
      else let e := setAll true e in (e, putEntry key e (pushAll key sh))
    else (e, sh) in
  if (pol =? "volatile-lru")%string then
    if hasTTL e then
      if bool_decide (key ∈ volElems sh) then frontVol key sh
      else putEntry key (setVol true e) (pushVol key sh)
    else if e_volElem e then putEntry key (setVol false e) (dropVol key sh)
    else sh
  else sh.

(** ** Watch versions *)

(** The uint64 the table holds for a key is the number of its increments, modulo 2^64.  [watch] keeps the
    number itself, so that a version that went all the way round can be told from one that did not move;
    the width is applied where the version is read. *)
Definition watchCount (key : string) (s : Store) : Z := default 0 (watch s !! key).

Definition WatchVersion (key : string) (s : Store) : Z := wrapU64 (watchCount key s).

Definition bumpWatchKey (key : string) (s : Store) : Store :=
  setWatch (<[key := watchCount key s + 1]> (watch s)) s.

(** ** Purge and replace, on shard [i] *)

Definition purgeEntryLocked (i : nat) (key : string) (e : entry) (s : Store) : Store :=
  let delta := - estimateMem key e in
  let s := onShard i (removeFromLRU key e) s in
  let s := onShard i (delEntry key) s in
  bumpWatchKey key (addMem delta s).

Definition replaceEntry (i : nat) (key : string) (oldE : option entry) (newE : entry) (s : Store)
    : Store :=
  let s := match oldE with
           | Some o => addMem (- estimateMem key o) (onShard i (removeFromLRU key o) s)
           | None => s
           end in
  let s := onShard i (putEntry key newE) s in
  let s := addMem (estimateMem key newE) s in
  let s := onShard i (lruAfterSet (policy s) key newE) s in
  bumpWatchKey key s.

Definition touchLRU (i : nat) (key : string) (e : entry) (s : Store) : entry * Store :=
  let sh := shardAt i s in
  let '(e, sh) := touchAllKeysLRU (policy s) key e sh in
  let '(e, sh) := touchVolatileLRU (policy s) key e sh in
  (e, putShard i sh s).

(** ** Steps shared by the operations *)

(** [sh.m[key]] with [sh := s.shardFor(key)]. *)
Definition find (s : Store) (key : string) : option entry := sh_m (shardAt (shardIndex key) s) !! key.

Definition lookupKey (key : string) : M (option entry) := gets (fun s => find s key).

(** [s.isExpired(e)]: the clock is read only when there is an expiry. *)
Definition isExpired (e : entry) : M bool :=
  if IsZero (e_expiresAt e) then mret false
  else now ← Now; mret (After now (e_expiresAt e)).

Definition purge (key : string) (e : entry) : M unit :=
  modify (purgeEntryLocked (shardIndex key) key e).

Definition replace (key : string) (oldE : option entry) (newE : entry) : M unit :=
  modify (replaceEntry (shardIndex key) key oldE newE).

Definition touch (key : string) (e : entry) : M entry := fun st =>
  let '(e, s) := touchLRU (shardIndex key) key e (db st) in (e, mkSt s (env st)).

(** The guard that opens the operations on a key:
    [e, ok := sh.m[key]; if ok && s.isExpired(e) { s.purgeEntryLocked(sh, key, e); ok = false }],
    also written [if !ok || s.isExpired(e) { if ok { s.purgeEntryLocked(sh, key, e) }; ... }]. *)
Definition fetch (key : string) : M (option entry) :=
  o ← lookupKey key;
  match o with
  | None => mret None
  | Some e =>
      x ← isExpired e;
      if x : bool then _ ← purge key e; mret None else mret (Some e)
  end.
