(* ===== verification/Eviction.v ===== *)
(** * Package [store], part 2: eviction (internal/store/eviction.go), the memory guard of the
    write paths ([evictUntilFits], [ensureMemoryWithRetry] of internal/store/store.go) and active
    expiry (internal/store/expiry.go).

    Every [sh.mu.Lock()] of these functions is preceded by a [yield]: the caller holds no lock
    there and other goroutines run. *)

From S2P Require Import Prelude GoInt GoStr GoTime GoSort Config StoreBase.

(** ** Victims *)

Definition nextCursor : M nat := fun st =>
  let c := wrapU32 (evictCursor (db st) + 1) in
  (Z.to_nat (wrapU32 (c - 1) mod Z.of_nat NumShards), mkSt (setCursor c (db st)) (env st)).

Definition avoided (avoidKey victim : string) : bool :=
  negb (sempty avoidKey) && (victim =? avoidKey)%string.

(** The loop shared by [evictAllKeysLRU] and [evictVolatileLRU]: [lru] is the list of the shard
    and [ok] the condition on the victim's entry. *)
Fixpoint evictBack (lru : shard -> list string) (ok : entry -> bool) (avoidKey : string)
    (attempts : nat) : M bool :=
  match attempts with
  | O => mret false
  | S attempts =>
      let continue := evictBack lru ok avoidKey attempts in
      si ← nextCursor;
      _ ← yield;
      sh ← gets (shardAt si);
      match last (lru sh) with
      | None => continue
      | Some victim =>
          if avoided avoidKey victim then continue
          else match sh_m sh !! victim with
               | None => continue
               | Some e =>
                   if ok e then _ ← modify (purgeEntryLocked si victim e); mret true else continue
               end
      end
  end.

Definition evictAllKeysLRU (avoidKey : string) : M bool :=
  evictBack allList (fun _ => true) avoidKey (NumShards * 2).

Definition evictVolatileLRU (avoidKey : string) : M bool :=
  evictBack volList hasTTL avoidKey (NumShards * 2).

Section ordered.
Context `{MapOrder}.

(** The loop of [evictRandom]; [pred] is [fun _ => true] for the nil predicate. *)
Fixpoint randomLoop (pred : entry -> bool) (avoidKey : string) (tries : nat) : M bool :=
  match tries with
  | O => mret false
  | S tries =>
      let continue := randomLoop pred avoidKey tries in
      si ← IntN NumShards;
      _ ← yield;
      sh ← gets (shardAt si);
      if bool_decide (sh_m sh = ∅) then continue
      else
        kvs ← ranged (map_to_list (sh_m sh));
        let cand := map fst (List.filter (fun kv => pred (snd kv)) kvs) in
        if bool_decide (cand = []) then continue
        else
          r ← IntN (List.length cand);
          match cand !! r with
          | None => continue
          | Some victim =>
              if avoided avoidKey victim then continue
              else match sh_m sh !! victim with
                   | None => continue
                   | Some e => _ ← modify (purgeEntryLocked si victim e); mret true
                   end
          end
  end.

Definition evictRandom (pred : entry -> bool) (avoidKey : string) : M bool :=
  randomLoop pred avoidKey (NumShards * 8).

(** The best candidate so far: key, shard and expiry. *)
Definition ttlStep (avoidKey : string) (si : nat) (best : option (string * nat * Time))
    (kv : string * entry) : option (string * nat * Time) :=
  let '(k, e) := kv in
  if negb (hasTTL e) then best
  else if avoided avoidKey k then best
  else match best with
       | Some (_, _, bestAt) =>
           if Before (e_expiresAt e) bestAt then Some (k, si, e_expiresAt e) else best
       | None => Some (k, si, e_expiresAt e)
       end.

Fixpoint ttlScan (avoidKey : string) (n : nat) (si : nat) (best : option (string * nat * Time))
    : M (option (string * nat * Time)) :=
  match n with
  | O => mret best
  | S n =>
      _ ← yield;
      sh ← gets (shardAt si);
      kvs ← ranged (map_to_list (sh_m sh));
      ttlScan avoidKey n (S si) (fold_left (ttlStep avoidKey si) kvs best)
  end.

Definition evictVolatileTTL (avoidKey : string) : M bool :=
  best ← ttlScan avoidKey NumShards 0 None;
  match best with
  | None => mret false
  | Some (bestKey, bestSi, _) =>
      _ ← yield;
      sh ← gets (shardAt bestSi);
      match sh_m sh !! bestKey with
      | Some e =>
          if hasTTL e then _ ← modify (purgeEntryLocked bestSi bestKey e); mret true
          else mret false
      | None => mret false
      end
  end.

(** The switch of [evictFromStore]. *)
Definition evictPolicy (pol avoidKey : string) : M bool :=
  if (pol =? "noeviction")%string then mret false
  else if (pol =? "allkeys-lru")%string then evictAllKeysLRU avoidKey
  else if (pol =? "volatile-lru")%string then evictVolatileLRU avoidKey
  else if (pol =? "allkeys-random")%string then evictRandom (fun _ => true) avoidKey
  else if (pol =? "volatile-random")%string then evictRandom hasTTL avoidKey
  else if (pol =? "volatile-ttl")%string then evictVolatileTTL avoidKey
  else mret false.

Definition evictFromStore (avoidKey : string) : M bool :=
  pol ← gets policy; evictPolicy pol avoidKey.

(** ** The memory guard *)

Definition ErrOOMerr : error :=
  mkError "OOM command not allowed when used memory > 'maxmemory'" (Some ErrOOM).

(** Keys of the whole store: each successful eviction removes one. *)
Definition keyCount (s : Store) : nat := sum_list_with (fun sh => size (sh_m sh)) (shards s).

Definition overLimit (delta : Z) (s : Store) : bool := mem s + delta >? wrap64 (maxMemBytes s).

Definition outOfFuel : error := New "out of fuel".

(** One turn of the loops below: evict with no lock held, then take the lock again. *)
Definition evictStep (avoidKey : string) : M bool :=
  ok ← evictFromStore avoidKey; _ ← yield; mret ok.

(** [for s.mem.Load()+delta > int64(s.maxMemBytes()) { ... evictFromStore ... }].  The loop of the code has no
    bound: it goes on for as long as other goroutines fill the store up again ([guard_kept_busy]).  Here they
    take the steps of a finite tape; [a] bounds the steps left on it and [b] the keys left to evict since the
    last of them, and neither runs out ([evictLoop_outcome]). *)
Fixpoint evictLoop (a : nat) (avoidKey : string) (delta : Z) {struct a}
    : nat -> bool -> M (bool * option error) :=
  fix inner (b : nat) (evicted : bool) {struct b} : M (bool * option error) := fun st =>
    if overLimit delta (db st) then
      let '(ok, st1) := evictStep avoidKey st in
      if negb ok then ((true, Some (wrapErr "store: " ErrOOMerr)), st1)
      else if (List.length (tape (env st1)) <? List.length (tape (env st)))%nat then
        match a with
        | O => ((true, Some outOfFuel), st1)
        | S a => evictLoop a avoidKey delta (S (keyCount (db st1))) true st1
        end
      else match b with
           | O => ((true, Some outOfFuel), st1)
           | S b => inner b true st1
           end
    else ((evicted, None), st).

Lemma evictLoop_eq a avoidKey delta b evicted st :
  evictLoop a avoidKey delta b evicted st =
    if overLimit delta (db st) then
      let '(ok, st1) := evictStep avoidKey st in
      if negb ok then ((true, Some (wrapErr "store: " ErrOOMerr)), st1)
      else if (List.length (tape (env st1)) <? List.length (tape (env st)))%nat then
        match a with
        | O => ((true, Some outOfFuel), st1)
        | S a => evictLoop a avoidKey delta (S (keyCount (db st1))) true st1
        end
      else match b with
           | O => ((true, Some outOfFuel), st1)
           | S b => evictLoop a avoidKey delta b true st1
           end
    else ((evicted, None), st).
Proof. by destruct a, b. Qed.

Definition evictWhile (avoidKey : string) (delta : Z) : M (bool * option error) := fun st =>
  evictLoop (List.length (tape (env st))) avoidKey delta (S (keyCount (db st))) false st.

(** [evictUntilFits]; the caller holds no lock. *)
Definition evictUntilFits (delta : Z) : M (option error) :=
  mx ← gets maxMemBytes;
  if mx =? 0 then mret None
  else r ← evictWhile EmptyString delta; mret (snd r).

(** [ensureMemoryWithRetry]: whether the lock was released, and the error. *)
Definition ensureMemoryWithRetry (key : string) (delta : Z) : M (bool * option error) :=
  mx ← gets maxMemBytes;
  if (mx =? 0) || (delta <=? 0) then mret (false, None)
  else evictWhile key delta.

(** ** Active expiry *)

Definition expirySamplePerShard : nat := 20.
Definition maxResamples : nat := 16.

(** [randomSampleKeys]: up to [n] keys in iteration order. *)
Definition randomSampleKeys (m : gmap string entry) (n : nat) : M (list string) :=
  if bool_decide (m = ∅) then mret []
  else kvs ← ranged (map_to_list m);
       let keys := map fst kvs in
       mret (if (size m <=? n)%nat then keys else take n keys).

Fixpoint sampleLoop (si : nat) (keys : list string) (expired checked : Z) : M (Z * Z) :=
  match keys with
  | [] => mret (expired, checked)
  | k :: keys =>
      sh ← gets (shardAt si);
      match sh_m sh !! k with
      | None => sampleLoop si keys expired checked
      | Some e =>
          x ← isExpired e;
          if x : bool then
            _ ← modify (purgeEntryLocked si k e);
            sampleLoop si keys (expired + 1) (checked + 1)
          else sampleLoop si keys expired (checked + 1)
      end
  end.

Definition sampleOnceShard (si : nat) : M (Z * Z) :=
  _ ← yield;
  sh ← gets (shardAt si);
  if bool_decide (sh_m sh = ∅) then mret (0, 0)
  else keys ← randomSampleKeys (sh_m sh) expirySamplePerShard; sampleLoop si keys 0 0.

(** [float64(expired)/float64(checked) <= 0.25] on counts of at most 20, where the division's
    rounding cannot cross the exact quarter. *)
Definition quarterOrLess (expired checked : Z) : bool := 4 * expired <=? checked.

Fixpoint resample (si : nat) (iter : nat) : M unit :=
  match iter with
  | O => mret tt
  | S iter =>
      r ← sampleOnceShard si;
      let '(expired, checked) := r in
      if checked =? 0 then mret tt
      else if quarterOrLess expired checked then mret tt
      else resample si iter
  end.

Fixpoint sampleShards (n : nat) (si : nat) : M unit :=
  match n with
  | O => mret tt
  | S n => _ ← resample si maxResamples; sampleShards n (S si)
  end.

Definition sampleAllShards : M unit := sampleShards NumShards 0.

End ordered.

(** One eviction is a long search: proofs use its lemmas, never its unfolding. *)
#[global] Opaque evictStep.
