(* ===== verification/StoreString.v ===== *)
(** * Package [store], part 3: the operations on string values (internal/store/store.go).

    A [(T, error)] pair is a [res T]; an operation that runs under one shard lock is one
    definition over the state monad, and a loop that takes the lock once per key yields before
    each turn. *)

From S2P Require Import Prelude GoInt GoStr GoTime GoSort Config StoreBase Eviction.

Definition ErrWrongTypeErr : error := mkError "wrong type" (Some ErrWrongType).

Definition wrongType {A} (op : string) : res A := inl (wrapErr op ErrWrongTypeErr).

Definition noTTL : Time := 0.

(** Bytes held by the entry being replaced, 0 when there is none. *)
Definition oldBytes (key : string) (old : option entry) : Z :=
  match old with Some o => estimateMem key o | None => 0 end.

(** ** [Get] *)

Definition nextReadTick : M Z := fun st =>
  let t := wrapU64 (readLRUTick (db st) + 1) in (t, mkSt (setTick t (db st)) (env st)).

Definition Get (key : string) : M (res slice) :=
  o ← fetch key;
  match o with
  | None => mret (inr None)
  | Some e =>
      match e_value e with
      | VString b =>
          pol ← gets policy;
          if (pol =? "allkeys-lru")%string || (pol =? "volatile-lru")%string then
            _ ← touch key e; mret (inr b)
          else
            t ← nextReadTick;
            if t mod 16 =? 0 then _ ← touch key e; mret (inr b) else mret (inr b)
      | _ => mret (wrongType "get: ")
      end
  end.

Section ops.
Context `{MapOrder}.

(** ** [Set], [SetNX], [SetXX], [GetSet] *)

Definition setLocked (key : string) (val : slice) (at_ : Time) (nx xx : bool) : M (option error) :=
  old ← fetch key;
  let had (o : option entry) := bool_decide (is_Some o) in
  if nx && had old then mret None
  else if xx && negb (had old) then mret None
  else
    let ne := newEntry (VString (cloneBytes val)) at_ in
    r ← ensureMemoryWithRetry key (estimateMem key ne - oldBytes key old);
    match r with
    | (_, Some err) => mret (Some err)
    | (true, None) =>
        old ← fetch key;
        if nx && had old then mret None
        else if xx && negb (had old) then mret None
        else _ ← replace key old ne; mret None
    | (false, None) => _ ← replace key old ne; mret None
    end.

Definition Set_ (key : string) (val : slice) (at_ : Time) : M (option error) :=
  setLocked key val at_ false false.

Definition SetNX (key : string) (val : slice) (at_ : Time) : M (res bool) :=
  old ← fetch key;
  match old with
  | Some _ => mret (inr false)
  | None =>
      let ne := newEntry (VString (cloneBytes val)) at_ in
      r ← ensureMemoryWithRetry key (estimateMem key ne);
      match r with
      | (_, Some err) => mret (inl err)
      | (true, None) =>
          old ← fetch key;
          match old with
          | Some _ => mret (inr false)
          | None => _ ← replace key None ne; mret (inr true)
          end
      | (false, None) => _ ← replace key None ne; mret (inr true)
      end
  end.

Definition SetXX (key : string) (val : slice) (at_ : Time) : M (res bool) :=
  old ← fetch key;
  match old with
  | None => mret (inr false)
  | Some o =>
      let ne := newEntry (VString (cloneBytes val)) at_ in
      r ← ensureMemoryWithRetry key (estimateMem key ne - estimateMem key o);
      match r with
      | (_, Some err) => mret (inl err)
      | (true, None) =>
          old ← fetch key;
          match old with
          | None => mret (inr false)
          | Some o => _ ← replace key (Some o) ne; mret (inr true)
          end
      | (false, None) => _ ← replace key (Some o) ne; mret (inr true)
      end
  end.

(** The tail of the operations that clone a value, reserve memory and replace the entry; after an
    eviction window the entry to replace is read again, without looking at its expiry or type. *)
Definition reserveAndReplace {A} (key : string) (delta : Z) (old : option entry) (ne : entry)
    (result : A) : M (res A) :=
  r ← ensureMemoryWithRetry key delta;
  match r with
  | (_, Some err) => mret (inl err)
  | (true, None) => old ← lookupKey key; _ ← replace key old ne; mret (inr result)
  | (false, None) => _ ← replace key old ne; mret (inr result)
  end.

Definition GetSet (key : string) (val : slice) (at_ : Time) : M (res (slice * bool)) :=
  old ← fetch key;
  let go prev :=
    let ne := newEntry (VString (cloneBytes val)) at_ in
    reserveAndReplace key (estimateMem key ne - oldBytes key old) old ne (prev, true) in
  match old with
  | None => go None
  | Some o =>
      match e_value o with
      | VString b => go (cloneBytes b)
      | _ => mret (wrongType "getset: ")
      end
  end.

(** ** [Append] *)

(** [append(append([]byte(nil), old...), tail...)]. *)
Definition appendBytes (old tail : slice) : slice := cloneBytes (Some (sbytes old +++ sbytes tail)).

Definition Append (key : string) (tail : slice) : M (res Z) :=
  o ← fetch key;
  match o with
  | None =>
      let ne := newEntry (VString (cloneBytes tail)) noTTL in
      r ← ensureMemoryWithRetry key (estimateMem key ne);
      let fresh := _ ← replace key None ne; mret (inr (slen tail)) in
      match r with
      | (_, Some err) => mret (inl err)
      | (false, None) => fresh
      | (true, None) =>
          cur ← lookupKey key;
          match cur with
          | None => fresh
          | Some cur =>
              x ← isExpired cur;
              if x : bool then fresh
              else match e_value cur with
                   | VString old =>
                       let newVal := appendBytes old tail in
                       _ ← replace key (Some cur) (newEntry (VString newVal) (e_expiresAt cur));
                       mret (inr (slen newVal))
                   | _ => mret (wrongType "append: ")
                   end
          end
      end
  | Some e =>
      match e_value e with
      | VString old =>
          let newVal := appendBytes old tail in
          let ne := newEntry (VString newVal) (e_expiresAt e) in
          reserveAndReplace key (estimateMem key ne - estimateMem key e) (Some e) ne (slen newVal)
      | _ => mret (wrongType "append: ")
      end
  end.

(** ** [IncrBy], [DecrBy] *)

Definition addInt64 (a b : Z) : Z * bool :=
  if (b >? 0) && (a >? MaxInt64 - b) then (0, false)
  else if (b <? 0) && (a <? MinInt64 - b) then (0, false)
  else (a + b, true).

(** The number a string or hash field holds; blank counts as 0. *)
Definition readInt (b : slice) : res Z :=
  let s := TrimSpace (sbytes b) in
  if sempty s then inr 0
  else match ParseInt s with
       | inl e => inl (wrapErr "not an integer: " (numError s e))
       | inr v => inr v
       end.

Definition overflowErr : error :=
  wrapErr "increment or decrement would overflow: " (mkError "value out of range" (Some ErrNumRange)).

(** After a purge the source keeps the pointer [e] of the expired entry and hands it to
    [replaceEntry]; [stale] is that pointer. *)
Definition incrBy (key : string) (delta : Z) : M (res Z) :=
  o ← lookupKey key;
  '(live, stale) ←
    match o with
    | None => mret (None, None)
    | Some e =>
        x ← isExpired e;
        if x : bool then _ ← purge key e; mret (None, Some (clearElems e)) else mret (Some e, Some e)
    end;
  let go cur at_ :=
    match addInt64 cur delta with
    | (_, false) => mret (inl overflowErr)
    | (next, true) =>
        let ne := newEntry (VString (Some (FormatInt next))) at_ in
        reserveAndReplace key (estimateMem key ne - oldBytes key live) stale ne next
    end in
  match live with
  | None => go 0 noTTL
  | Some e =>
      match e_value e with
      | VString b =>
          match readInt b with
          | inl err => mret (inl err)
          | inr cur => go cur (e_expiresAt e)
          end
      | _ => mret (wrongType "incr: ")
      end
  end.

Definition IncrBy (key : string) (delta : Z) : M (res Z) := incrBy key delta.
Definition DecrBy (key : string) (delta : Z) : M (res Z) := incrBy key (wrap64 (- delta)).

(** ** Several keys *)

Fixpoint mgetLoop (keys : list string) : M (res (list slice)) :=
  match keys with
  | [] => mret (inr [])
  | k :: keys =>
      _ ← yield;
      v ← Get k;
      match v with
      | inl err => mret (inl (wrapErr "mget: " err))
      | inr v =>
          vs ← mgetLoop keys;
          match vs with
          | inl err => mret (inl err)
          | inr vs => mret (inr ((match v with Some _ => cloneBytes v | None => None end) :: vs))
          end
      end
  end.

Definition MGet (keys : list string) : M (res (list slice)) := mgetLoop keys.

(** [sortedKeys]: the keys in iteration order, then the exchange sort. *)
Definition sortedKeys (pairs : gmap string slice) : M (list string) :=
  kvs ← ranged (map_to_list pairs); mret (exchangeSort sltb (map fst kvs)).

Fixpoint msetLoop (pairs : gmap string slice) (keys : list string) : M (option error) :=
  match keys with
  | [] => mret None
  | k :: keys =>
      _ ← yield;
      r ← Set_ k (default None (pairs !! k)) noTTL;
      match r with
      | Some err => mret (Some (wrapErr "mset: " err))
      | None => msetLoop pairs keys
      end
  end.

Definition MSet (pairs : gmap string slice) : M (option error) :=
  keys ← sortedKeys pairs; msetLoop pairs keys.

(** *** Lock order: the mutexes of the shards of the keys, by ascending index *)

Definition sortShardIndices (idx : list nat) : list nat := exchangeSort Nat.ltb idx.

Fixpoint collectShards (keys : list string) (seen : gset nat) : list nat :=
  match keys with
  | [] => []
  | k :: keys =>
      let si := shardIndex k in
      if bool_decide (si ∈ seen) then collectShards keys seen
      else si :: collectShards keys ({[ si ]} ∪ seen)
  end.

Definition acquireShardsInOrderKeys (keys : list string) : list nat :=
  sortShardIndices (collectShards keys ∅).

Definition acquireShardsInOrder (pairs : gmap string slice) : M (list nat) :=
  kvs ← ranged (map_to_list pairs); mret (acquireShardsInOrderKeys (map fst kvs)).

(** *** [MSetNX] *)

(** [for k := range pairs { if e, ok := sh.m[k]; ok && !s.isExpired(e) { ... } }]. *)
Fixpoint anyLive (keys : list string) : M bool :=
  match keys with
  | [] => mret false
  | k :: keys =>
      o ← lookupKey k;
      match o with
      | None => anyLive keys
      | Some e => x ← isExpired e; if x : bool then anyLive keys else mret true
      end
  end.

(** The first pass: expired entries go and the new entries are sized.  [fetch] is
    [if old != nil && s.isExpired(old) { s.purgeEntryLocked(sh, k, old); old = nil }]. *)
Fixpoint purgeExpired (kvs : list (string * slice)) (delta : Z) : M Z :=
  match kvs with
  | [] => mret delta
  | (k, v) :: kvs =>
      _ ← fetch k;
      purgeExpired kvs (delta + estimateMem k (newEntry (VString (cloneBytes v)) noTTL))
  end.

Fixpoint storeAll (kvs : list (string * slice)) : M unit :=
  match kvs with
  | [] => mret tt
  | (k, v) :: kvs =>
      old ← fetch k;
      _ ← replace k old (newEntry (VString (cloneBytes v)) noTTL);
      storeAll kvs
  end.

(** The locks are held except around [evictUntilFits]. *)
Definition MSetNX (pairs : gmap string slice) : M (res bool) :=
  if bool_decide (pairs = ∅) then mret (inr true)
  else
    _ ← acquireShardsInOrder pairs;
    kvs ← ranged (map_to_list pairs);
    busy ← anyLive (map fst kvs);
    if busy : bool then mret (inr false)
    else
      kvs ← ranged (map_to_list pairs);
      delta ← purgeExpired kvs 0;
      err ← evictUntilFits delta;
      match err with
      | Some err => mret (inl (wrapErr "msetnx: " err))
      | None =>
          _ ← yield;
          kvs ← ranged (map_to_list pairs);
          busy ← anyLive (map fst kvs);
          if busy : bool then mret (inr false)
          else
            kvs ← ranged (map_to_list pairs);
            _ ← storeAll kvs;
            mret (inr true)
      end.

End ops.

Lemma addInt64_spec a b :
  is_int64 a = true -> is_int64 b = true ->
  addInt64 a b = if is_int64 (a + b) then (a + b, true) else (0, false).
Proof.
  unfold addInt64, is_int64, MinInt64, MaxInt64. intros Ha Hb. zify_bool.
  repeat split_goal; zify_bool; try done; try lia;
    repeat match goal with
    | H : (_ && _)%bool = false |- _ => apply andb_false_iff in H; destruct H; zify_bool
    end; lia.
Qed.
