(* ===== verification/StoreHash.v ===== *)
(** * Package [store], part 4: hashes (internal/store/store_collections.go, store_hash_incr.go). *)

From S2P Require Import Prelude GoInt GoStr GoTime GoSort Config StoreBase Eviction StoreString.

(** The prologue of the read operations: the hash held by [key], [None] when there is no key. *)
Definition readHash (op : string) (key : string) : M (res (option (gmap string slice))) :=
  o ← fetch key;
  match o with
  | None => mret (inr None)
  | Some e =>
      match e_value e with
      | VHash h => _ ← touch key e; mret (inr (Some h))
      | _ => mret (wrongType op)
      end
  end.

Definition HGet (key field : string) : M (res slice) :=
  r ← readHash "hget: " key;
  match r with
  | inl err => mret (inl err)
  | inr None => mret (inr None)
  | inr (Some h) =>
      match h !! field with
      | None => mret (inr None)
      | Some v => mret (inr (cloneBytes v))
      end
  end.

(** [None] is the nil map of a missing key. *)
Definition HGetAll (key : string) : M (res (option (gmap string slice))) :=
  r ← readHash "hgetall: " key;
  match r with
  | inl err => mret (inl err)
  | inr None => mret (inr None)
  | inr (Some h) => mret (inr (Some (cloneBytes <$> h)))
  end.

Definition HExists (key field : string) : M (res bool) :=
  r ← readHash "hexists: " key;
  match r with
  | inl err => mret (inl err)
  | inr None => mret (inr false)
  | inr (Some h) => mret (inr (bool_decide (is_Some (h !! field))))
  end.

Definition HLen (key : string) : M (res Z) :=
  r ← readHash "hlen: " key;
  match r with
  | inl err => mret (inl err)
  | inr None => mret (inr 0)
  | inr (Some h) => mret (inr (Z.of_nat (size h)))
  end.

(** [HDel]: the clone loses the fields one after the other; a repeated field counts once. *)
Fixpoint deleteFields (h : gmap string slice) (fields : list string) (n : Z) : gmap string slice * Z :=
  match fields with
  | [] => (h, n)
  | f :: fields =>
      match h !! f with
      | Some _ => deleteFields (delete f h) fields (n + 1)
      | None => deleteFields h fields n
      end
  end.

Definition HDel (key : string) (fields : list string) : M (res Z) :=
  o ← fetch key;
  match o with
  | None => mret (inr 0)
  | Some e =>
      match e_value e with
      | VHash oldH =>
          let '(h, n) := deleteFields oldH fields 0 in
          if bool_decide (h = ∅) then _ ← purge key e; mret (inr n)
          else _ ← replace key (Some e) (newEntry (VHash h) (e_expiresAt e)); mret (inr n)
      | _ => mret (wrongType "hdel: ")
      end
  end.

(** The prologue of the write operations: the live entry and a copy of its hash, empty when there
    is no key. *)
Definition writeHash (op : string) (key : string) : M (res (option entry * gmap string slice)) :=
  o ← fetch key;
  match o with
  | None => mret (inr (None, ∅))
  | Some e =>
      match e_value e with
      | VHash h => mret (inr (Some e, h))
      | _ => mret (wrongType op)
      end
  end.

(** [ne.expiresAt = e.expiresAt] when the key was there. *)
Definition keepTTL (old : option entry) : Time :=
  match old with Some e => e_expiresAt e | None => noTTL end.

Section ops.
Context `{MapOrder}.

(** The tail of the write operations: the entry with the new hash takes the place of [old]. *)
Definition storeHash {A} (key : string) (old : option entry) (h : gmap string slice) (result : A)
    : M (res A) :=
  let ne := newEntry (VHash h) (keepTTL old) in
  reserveAndReplace key (estimateMem key ne - oldBytes key old) old ne result.

(** [HSet]: the loop over [pairs] sets every field to a copy, whatever the iteration order, and
    counts the fields the hash did not have. *)
Definition HSet (key : string) (pairs : gmap string slice) : M (res Z) :=
  if bool_decide (pairs = ∅) then mret (inr 0)
  else
    r ← writeHash "hset: " key;
    match r with
    | inl err => mret (inl err)
    | inr (old, oldH) =>
        let newFields := Z.of_nat (size (pairs ∖ oldH)) in
        storeHash key old ((cloneBytes <$> pairs) ∪ oldH) newFields
    end.

Definition HSetNX (key field : string) (val : slice) : M (res Z) :=
  r ← writeHash "hsetnx: " key;
  match r with
  | inl err => mret (inl err)
  | inr (old, oldH) =>
      match oldH !! field with
      | Some _ => mret (inr 0)
      | None => storeHash key old (<[field := cloneBytes val]> oldH) 1
      end
  end.

Definition HIncrBy (key field : string) (delta : Z) : M (res Z) :=
  r ← writeHash "hincrby: " key;
  match r with
  | inl err => mret (inl err)
  | inr (old, oldH) =>
      match readInt (default None (oldH !! field)) with
      | inl err => mret (inl err)
      | inr cur =>
          match addInt64 cur delta with
          | (_, false) => mret (inl overflowErr)
          | (next, true) => storeHash key old (<[field := Some (FormatInt next)]> oldH) next
          end
      end
  end.

(** [HIncrByFloat], over the 64-bit floats of [strconv] and the hardware: a type [F] with its zero,
    addition, parser and shortest decimal printer. *)
Section floats.
Context {F : Type} (fzero : F) (fadd : F -> F -> F) (ParseFloat : string -> res F)
  (FormatFloat : F -> string).

Definition readFloat (b : slice) : res F :=
  let s := TrimSpace (sbytes b) in
  if sempty s then inr fzero
  else rwrap "not a float: " (ParseFloat s).

Definition HIncrByFloat (key field : string) (delta : F) : M (res F) :=
  r ← writeHash "hincrbyfloat: " key;
  match r with
  | inl err => mret (inl err)
  | inr (old, oldH) =>
      match readFloat (default None (oldH !! field)) with
      | inl err => mret (inl err)
      | inr cur =>
          let next := fadd cur delta in
          storeHash key old (<[field := Some (FormatFloat next)]> oldH) next
      end
  end.
End floats.
End ops.
