(* ===== verification/StoreList.v ===== *)
(** * Package [store], part 5: lists (internal/store/store_collections.go, store_list_extra.go).

    A [*list.List] is the list of its values.  [LPop], [RPop], [LRem] and [LSet] change the list
    the stored entry points to before they call [replaceEntry] or [purgeEntryLocked], so the "old"
    entry those functions measure already holds the changed list: [mutated]. *)

From S2P Require Import Prelude GoInt GoStr GoTime GoSort Config StoreBase Eviction StoreString.
From S2P Require Import StoreHash.

(** The entry after an in-place change of the list it points to. *)
Definition mutated (l : list slice) (e : entry) : entry := setValue (VList l) e.

Definition listLenLocked (key : string) : M (res Z) :=
  o ← fetch key;
  match o with
  | None => mret (inr 0)
  | Some e =>
      match e_value e with
      | VList l => mret (inr (Z.of_nat (List.length l)))
      | _ => mret (wrongType "list: ")
      end
  end.

Definition LLen (key : string) : M (res Z) := listLenLocked key.

(** [nl.PushFront] or [nl.PushBack] of a copy of each value in turn. *)
Definition pushVals (left : bool) (nl : list slice) (vals : list slice) : list slice :=
  fold_left (fun nl v => if left then cloneBytes v :: nl else nl ++ [cloneBytes v]) vals nl.

Section ops.
Context `{MapOrder}.

Definition listPush (key : string) (vals : list slice) (left : bool) : M (res Z) :=
  if bool_decide (vals = []) then listLenLocked key
  else
    o ← fetch key;
    let go old base :=
      let nl := pushVals left base vals in
      let ne := newEntry (VList nl) (keepTTL old) in
      reserveAndReplace key (estimateMem key ne - oldBytes key old) old ne
        (Z.of_nat (List.length nl)) in
    match o with
    | None => go None []
    | Some e =>
        match e_value e with
        | VList l => go (Some e) l
        | _ => mret (wrongType "list: ")
        end
    end.

Definition LPush (key : string) (vals : list slice) : M (res Z) := listPush key vals true.
Definition RPush (key : string) (vals : list slice) : M (res Z) := listPush key vals false.

Definition listPushX (key : string) (vals : list slice) (left : bool) : M (res Z) :=
  if bool_decide (vals = []) then listLenLocked key
  else
    o ← fetch key;
    match o with
    | None => mret (inr 0)
    | Some e =>
        match e_value e with
        | VList l =>
            let nl := pushVals left l vals in
            let ne := newEntry (VList nl) (e_expiresAt e) in
            reserveAndReplace key (estimateMem key ne - estimateMem key e) (Some e) ne
              (Z.of_nat (List.length nl))
        | _ => mret (wrongType "list: ")
        end
    end.

Definition LPushX (key : string) (vals : list slice) : M (res Z) := listPushX key vals true.
Definition RPushX (key : string) (vals : list slice) : M (res Z) := listPushX key vals false.

(** [LInsert]: position of the first element equal to the pivot. *)
Fixpoint pivotIndex (pivot : slice) (l : list slice) : option nat :=
  match l with
  | [] => None
  | x :: l => if bytesEqual x pivot then Some 0%nat else S <$> pivotIndex pivot l
  end.

Fixpoint insertAt (before : bool) (pivotIdx : nat) (ins : slice) (idx : nat) (l : list slice)
    : list slice :=
  match l with
  | [] => []
  | x :: l =>
      (if before && (idx =? pivotIdx)%nat then [ins] else []) ++ [x] ++
      (if negb before && (idx =? pivotIdx)%nat then [ins] else []) ++
      insertAt before pivotIdx ins (S idx) l
  end.

Definition LInsert (key : string) (before : bool) (pivot insert : slice) : M (res Z) :=
  o ← fetch key;
  match o with
  | None => mret (inr 0)
  | Some e =>
      match e_value e with
      | VList oldL =>
          e ← touch key e;
          match pivotIndex pivot oldL with
          | None => mret (inr (-1))
          | Some pivotIdx =>
              let nl := insertAt before pivotIdx (cloneBytes insert) 0 oldL in
              let ne := newEntry (VList nl) (e_expiresAt e) in
              reserveAndReplace key (estimateMem key ne - estimateMem key e) (Some e) ne
                (Z.of_nat (List.length nl))
          end
      | _ => mret (wrongType "linsert: ")
      end
  end.

End ops.

(** ** Pops *)

Definition popCount (count : Z) : Z := if count <=? 0 then 1 else count.

(** [for i := 0; i < count && l.Len() > 0; i++]: the values taken from the front, and the rest. *)
Fixpoint popLoop (l : list slice) (count : Z) : list slice * list slice :=
  match l with
  | [] => ([], [])
  | x :: r =>
      if count <=? 0 then ([], l)
      else let '(out, rest) := popLoop r (count - 1) in (cloneBytes x :: out, rest)
  end.

(** The same from the back. *)
Definition popBack (l : list slice) (count : Z) : list slice * list slice :=
  let '(out, rest) := popLoop (rev l) count in (out, rev rest).

(** Size of a [[]byte] value, the element type of [make([][]byte, 0, count)]. *)
Definition sliceHeader : Z := 24.

Definition popWith (op : string) (pop : list slice -> Z -> list slice * list slice)
    (key : string) (count : Z) : M (outcome (res (option (list slice)))) :=
  o ← fetch key;
  match o with
  | None => mret (Ret (inr None))
  | Some e =>
      match e_value e with
      | VList l =>
          e ← touch key e;
          if bool_decide (l = []) then mret (Ret (inr (Some [])))
          else if negb (canMake sliceHeader (popCount count)) then mret Panic
          else
            let '(out, l') := pop l (popCount count) in
            let old := mutated l' e in
            if bool_decide (l' = []) then _ ← purge key old; mret (Ret (inr (Some out)))
            else _ ← replace key (Some old) (newEntry (VList l') (e_expiresAt e));
                 mret (Ret (inr (Some out)))
      | _ => mret (Ret (wrongType op))
      end
  end.

(** [None] is the nil result of a missing key. *)
Definition LPop (key : string) (count : Z) : M (outcome (res (option (list slice)))) :=
  popWith "lpop: " popLoop key count.
Definition RPop (key : string) (count : Z) : M (outcome (res (option (list slice)))) :=
  popWith "rpop: " popBack key count.

(** ** Ranges and indices *)

Definition normalizeListIndex (idx n : Z) : Z :=
  let idx := if idx <? 0 then n + idx else idx in
  if idx <? 0 then 0 else if idx >=? n then n - 1 else idx.

(** [for el := l.Front(); ...; i++ { if i >= st && i <= en { copy } }]. *)
Fixpoint copyRange (l : list slice) (i st en : Z) : list slice :=
  match l with
  | [] => []
  | x :: l =>
      if (i >=? st) && (i <=? en) then cloneBytes x :: copyRange l (i + 1) st en
      else copyRange l (i + 1) st en
  end.

(** The loop of [LRange] also stops after [en], which leaves the same elements out. *)
Definition LRange (key : string) (start stop : Z) : M (res (option (list slice))) :=
  o ← fetch key;
  match o with
  | None => mret (inr None)
  | Some e =>
      match e_value e with
      | VList l =>
          _ ← touch key e;
          let n := Z.of_nat (List.length l) in
          if n =? 0 then mret (inr (Some []))
          else if (start >=? 0) && (start >=? n) then mret (inr (Some []))
          else
            let st := normalizeListIndex start n in
            let en := normalizeListIndex stop n in
            let st := if st <? 0 then 0 else st in
            let en := if en >=? n then n - 1 else en in
            if st >? en then mret (inr (Some []))
            else mret (inr (Some (copyRange l 0 st en)))
      | _ => mret (wrongType "lrange: ")
      end
  end.

Definition LTrim (key : string) (start stop : Z) : M (option error) :=
  o ← fetch key;
  match o with
  | None => mret None
  | Some e =>
      match e_value e with
      | VList l =>
          e ← touch key e;
          let n := Z.of_nat (List.length l) in
          if n =? 0 then mret None
          else
            let st := normalizeListIndex start n in
            let en := normalizeListIndex stop n in
            let st := if st <? 0 then 0 else st in
            let en := if en >=? n then n - 1 else en in
            if st >? en then _ ← purge key e; mret None
            else
              let nl := copyRange l 0 st en in
              if bool_decide (nl = []) then _ ← purge key e; mret None
              else _ ← replace key (Some e) (newEntry (VList nl) (e_expiresAt e)); mret None
      | _ => mret (Some (wrapErr "ltrim: " ErrWrongTypeErr))
      end
  end.

Definition listElemAt (l : list slice) (idx : Z) : option slice :=
  if (idx <? 0) || (idx >=? Z.of_nat (List.length l)) then None else l !! Z.to_nat idx.

Definition LIndex (key : string) (index : Z) : M (res slice) :=
  o ← fetch key;
  match o with
  | None => mret (inr None)
  | Some e =>
      match e_value e with
      | VList l =>
          _ ← touch key e;
          let n := Z.of_nat (List.length l) in
          if n =? 0 then mret (inr None)
          else if (index >=? 0) && (index >=? n) then mret (inr None)
          else
            let idx := normalizeListIndex index n in
            if (idx <? 0) || (idx >=? n) then mret (inr None)
            else match listElemAt l idx with
                 | None => mret (inr None)
                 | Some b => mret (inr (cloneBytes b))
                 end
      | _ => mret (wrongType "lindex: ")
      end
  end.

Definition ErrKeyNotFound : error := mkError "not found" (Some ErrNoSuchKey).
Definition ErrListIndex : error := mkError "list index out of range" (Some ErrListRange).

Definition LSet (key : string) (index : Z) (val : slice) : M (option error) :=
  o ← fetch key;
  match o with
  | None => mret (Some (wrapErr "lset: " ErrKeyNotFound))
  | Some e =>
      match e_value e with
      | VList l =>
          let n := Z.of_nat (List.length l) in
          let bad := mret (Some (wrapErr "lset: " ErrListIndex)) in
          if (index >=? 0) && (index >=? n) then bad
          else
            let idx := normalizeListIndex index n in
            if (idx <? 0) || (idx >=? n) then bad
            else match listElemAt l idx with
                 | None => bad
                 | Some _ =>
                     let l' := <[Z.to_nat idx := cloneBytes val]> l in
                     _ ← replace key (Some (mutated l' e)) (newEntry (VList l') (e_expiresAt e));
                     mret None
                 end
      | _ => mret (Some (wrapErr "lset: " ErrWrongTypeErr))
      end
  end.

(** ** [LRem] *)

(** Removal from the front of at most [limit] elements equal to [value] ([None]: all). *)
Fixpoint removeEqual (value : slice) (limit : option Z) (l : list slice) : list slice * Z :=
  match l with
  | [] => ([], 0)
  | x :: r =>
      if match limit with Some n => n <=? 0 | None => false end then (l, 0)
      else if bytesEqual x value then
        let '(l', n) := removeEqual value (Z.pred <$> limit) r in (l', n + 1)
      else let '(l', n) := removeEqual value limit r in (x :: l', n)
  end.

Definition remLoop (count : Z) (value : slice) (l : list slice) : list slice * Z :=
  if count =? 0 then removeEqual value None l
  else if count >? 0 then removeEqual value (Some count) l
  else let '(l', n) := removeEqual value (Some (wrap64 (- count))) (rev l) in (rev l', n).

Definition LRem (key : string) (count : Z) (value : slice) : M (res Z) :=
  o ← fetch key;
  match o with
  | None => mret (inr 0)
  | Some e =>
      match e_value e with
      | VList l =>
          e ← touch key e;
          if bool_decide (l = []) then mret (inr 0)
          else
            let '(l', removed) := remLoop count value l in
            let old := mutated l' e in
            if bool_decide (l' = []) then _ ← purge key old; mret (inr removed)
            else _ ← replace key (Some old) (newEntry (VList l') (e_expiresAt e));
                 mret (inr removed)
      | _ => mret (wrongType "lrem: ")
      end
  end.
