(* ===== verification/StoreSet.v ===== *)
(** * Package [store], part 6: sets (internal/store/store_collections.go). *)

From S2P Require Import Prelude GoInt GoStr GoTime GoSort Config StoreBase Eviction StoreString.
From S2P Require Import StoreHash.

Definition readSet (op : string) (key : string) : M (res (option (gset string))) :=
  o ← fetch key;
  match o with
  | None => mret (inr None)
  | Some e =>
      match e_value e with
      | VSet st => _ ← touch key e; mret (inr (Some st))
      | _ => mret (wrongType op)
      end
  end.

Definition SIsMember (key : string) (member : slice) : M (res bool) :=
  r ← readSet "sismember: " key;
  match r with
  | inl err => mret (inl err)
  | inr None => mret (inr false)
  | inr (Some st) => mret (inr (bool_decide (sbytes member ∈ st)))
  end.

Definition SCard (key : string) : M (res Z) :=
  r ← readSet "scard: " key;
  match r with
  | inl err => mret (inl err)
  | inr None => mret (inr 0)
  | inr (Some st) => mret (inr (Z.of_nat (size st)))
  end.

(** The loop of [SAdd]: how many members were new. *)
Fixpoint addMembers (st : gset string) (members : list slice) (n : Z) : gset string * Z :=
  match members with
  | [] => (st, n)
  | m :: members =>
      if bool_decide (sbytes m ∈ st) then addMembers st members n
      else addMembers ({[ sbytes m ]} ∪ st) members (n + 1)
  end.

(** The loop of [SRem]. *)
Fixpoint delMembers (st : gset string) (members : list slice) (n : Z) : gset string * Z :=
  match members with
  | [] => (st, n)
  | m :: members =>
      if bool_decide (sbytes m ∈ st) then delMembers (st ∖ {[ sbytes m ]}) members (n + 1)
      else delMembers st members n
  end.

Definition SRem (key : string) (members : list slice) : M (res Z) :=
  o ← fetch key;
  match o with
  | None => mret (inr 0)
  | Some e =>
      match e_value e with
      | VSet oldSt =>
          let '(st, n) := delMembers oldSt members 0 in
          if bool_decide (st = ∅) then _ ← purge key e; mret (inr n)
          else _ ← replace key (Some e) (newEntry (VSet st) (e_expiresAt e)); mret (inr n)
      | _ => mret (wrongType "srem: ")
      end
  end.

Section ops.
Context `{MapOrder}.

(** [None] is the nil result of a missing key; [[]byte(m)] is not nil even for the empty member. *)
Definition SMembers (key : string) : M (res (option (list slice))) :=
  r ← readSet "smembers: " key;
  match r with
  | inl err => mret (inl err)
  | inr None => mret (inr None)
  | inr (Some st) => ms ← ranged (elements st); mret (inr (Some (map Some ms)))
  end.

Definition SAdd (key : string) (members : list slice) : M (res Z) :=
  if bool_decide (members = []) then mret (inr 0)
  else
    o ← fetch key;
    let go old oldSt :=
      let '(st, added) := addMembers oldSt members 0 in
      let ne := newEntry (VSet st) (keepTTL old) in
      reserveAndReplace key (estimateMem key ne - oldBytes key old) old ne added in
    match o with
    | None => go None ∅
    | Some e =>
        match e_value e with
        | VSet oldSt => go (Some e) oldSt
        | _ => mret (wrongType "sadd: ")
        end
    end.

(** [ReplaceSet] keeps the expiry of whatever the key held, and stores the empty set as such. *)
Definition ReplaceSet (key : string) (members : list slice) : M (option error) :=
  let st := list_to_set (map sbytes members) : gset string in
  old ← fetch key;
  let ne := newEntry (VSet st) (keepTTL old) in
  r ← reserveAndReplace key (estimateMem key ne - oldBytes key old) old ne tt;
  mret (match r with inl err => Some err | inr _ => None end).

End ops.
