(* ===== verification/StoreKeys.v ===== *)
(** * Package [store], parts 7 and 8: operations on keys and on the whole keyspace (internal/store/store.go,
    store_scan.go, store_watch.go), snapshots (store_collections.go). *)

From S2P Require Import Prelude GoInt GoStr GoTime GoSort Config StoreBase Eviction StoreString.

(** ** Deletion, existence, type *)

Fixpoint delLoop (keys : list string) (n : Z) : M Z :=
  match keys with
  | [] => mret n
  | key :: keys =>
      _ ← yield;
      o ← fetch key;
      match o with
      | None => delLoop keys n
      | Some e => _ ← purge key e; delLoop keys (n + 1)
      end
  end.

Definition Del (keys : list string) : M Z := delLoop keys 0.

Fixpoint existsLoop (keys : list string) (n : Z) : M Z :=
  match keys with
  | [] => mret n
  | key :: keys =>
      _ ← yield;
      o ← fetch key;
      match o with
      | None => existsLoop keys n
      | Some _ => existsLoop keys (n + 1)
      end
  end.

Definition Exists (keys : list string) : M Z := existsLoop keys 0.

Definition typeName (t : DataType) : string :=
  match t with
  | TypeString => "string" | TypeHash => "hash" | TypeList => "list" | TypeSet => "set"
  | TypeNone => "none"
  end.

Definition Type_ (key : string) : M string :=
  o ← fetch key;
  mret (match o with None => "none"%string | Some e => typeName (e_dtype e) end).

(** ** Rename *)

Definition cloneValue (v : gvalue) : gvalue :=
  match v with
  | VString b => VString (cloneBytes b)
  | VHash h => VHash (cloneBytes <$> h)
  | VList l => VList (map cloneBytes l)
  | VSet st => VSet st
  end.

Definition cloneEntryForRename (e : entry) : entry := newEntry (cloneValue (e_value e)) (e_expiresAt e).

(** [removeFromLRU], [delete(shS.m, src)] and [addMem]: unlike a purge, no version bump. *)
Definition unlinkSrc (src : string) (e : entry) : M unit :=
  modify (fun s =>
    let i := shardIndex src in
    addMem (- estimateMem src e) (onShard i (delEntry src) (onShard i (removeFromLRU src e) s))).

Definition Rename (src dst : string) : M (option error) :=
  if (src =? dst)%string then mret None
  else
    o ← fetch src;
    match o with
    | None => mret (Some (wrapErr "no such key: " (New "not found")))
    | Some e =>
        d ← lookupKey dst;
        _ ← match d with
            | Some oldDst => _ ← isExpired oldDst; purge dst oldDst
            | None => mret tt
            end;
        _ ← unlinkSrc src e;
        _ ← replace dst None (cloneEntryForRename e);
        mret None
    end.

Definition RenameNX (src dst : string) : M (res bool) :=
  if (src =? dst)%string then mret (inr true)
  else
    o ← fetch src;
    match o with
    | None => mret (inr false)
    | Some e =>
        d ← fetch dst;
        match d with
        | Some _ => mret (inr false)
        | None =>
            _ ← unlinkSrc src e;
            _ ← replace dst None (cloneEntryForRename e);
            mret (inr true)
        end
    end.

(** ** Expiry *)

Definition ExpireAt (key : string) (at_ : Time) : M (res bool) :=
  o ← fetch key;
  match o with
  | None => mret (inr false)
  | Some e =>
      _ ← replace key (Some e) (newEntry (cloneValue (e_value e)) at_);
      mret (inr true)
  end.

Definition Expire (key : string) (sec : Z) : M (res bool) :=
  if sec <=? 0 then mret (inl (wrapErr "invalid expire: " (New "non-positive")))
  else
    now ← Now;
    _ ← yield;
    ExpireAt key (Add now (DurationMul sec Second)).

(** [TTL] and [TTLMs] differ in the unit. *)
Definition ttlWith (unit : Z) (key : string) : M Z :=
  o ← fetch key;
  match o with
  | None => mret (-2)
  | Some e =>
      if IsZero (e_expiresAt e) then mret (-1)
      else
        now ← Now;
        let d := Sub (e_expiresAt e) now in
        if d <=? 0 then _ ← purge key e; mret (-2)
        else mret (Z.quot d unit)
  end.

Definition TTL (key : string) : M Z := ttlWith Second key.
Definition TTLMs (key : string) : M Z := ttlWith Millisecond key.

Definition Persist (key : string) : M (res bool) :=
  o ← fetch key;
  match o with
  | None => mret (inr false)
  | Some e =>
      if IsZero (e_expiresAt e) then mret (inr false)
      else
        _ ← replace key (Some e) (newEntry (cloneValue (e_value e)) noTTL);
        mret (inr true)
  end.

(** ** The keyspace *)

Definition matchGlob (pattern key : string) : bool :=
  match pathMatch pattern key with Some b => b | None => false end.

Section ops.
Context `{MapOrder}.

(** The loop over the entries of one shard: the live ones, in iteration order. *)
Fixpoint liveEntries (kvs : list (string * entry)) : M (list (string * entry)) :=
  match kvs with
  | [] => mret []
  | (k, e) :: kvs =>
      x ← isExpired e;
      l ← liveEntries kvs;
      mret (if x : bool then l else (k, e) :: l)
  end.

Fixpoint scanShards (n si : nat) : M (list (string * entry)) :=
  match n with
  | O => mret []
  | S n =>
      _ ← yield;
      sh ← gets (shardAt si);
      kvs ← ranged (map_to_list (sh_m sh));
      l ← liveEntries kvs;
      rest ← scanShards n (S si);
      mret (l ++ rest)
  end.

Definition Keys (pattern : string) : M (list string) :=
  l ← scanShards NumShards 0;
  mret (List.filter (matchGlob pattern) (map fst l)).

Definition DBSize : M Z :=
  l ← scanShards NumShards 0; mret (Z.of_nat (List.length l)).

Definition ExpireKeyCount : M Z :=
  l ← scanShards NumShards 0;
  mret (Z.of_nat (List.length (List.filter (fun kv => hasTTL (snd kv)) l))).

(** Keys per shard, expired ones included. *)
Fixpoint statsLoop (n si : nat) : M (list Z) :=
  match n with
  | O => mret []
  | S n =>
      _ ← yield;
      sh ← gets (shardAt si);
      rest ← statsLoop n (S si);
      mret (Z.of_nat (size (sh_m sh)) :: rest)
  end.

Definition StoreStats : M (list Z) := statsLoop NumShards 0.

(** [for k, e := range sh.m { s.purgeEntryLocked(sh, k, e) }]. *)
Definition purgeAll (si : nat) (kvs : list (string * entry)) (s : Store) : Store :=
  fold_left (fun s kv => purgeEntryLocked si (fst kv) (snd kv) s) kvs s.

Fixpoint flushShards (n si : nat) : M unit :=
  match n with
  | O => mret tt
  | S n =>
      _ ← yield;
      sh ← gets (shardAt si);
      kvs ← ranged (map_to_list (sh_m sh));
      _ ← modify (purgeAll si kvs);
      flushShards n (S si)
  end.

Definition FlushDB : M unit :=
  _ ← flushShards NumShards 0;
  _ ← yield;
  modify (setWatch ∅).

Definition MemBytes : M Z := gets mem.

(** ** [Scan] *)

Fixpoint filterType (wantType : string) (keys : list string) : M (list string) :=
  match keys with
  | [] => mret []
  | k :: keys =>
      _ ← yield;
      t ← Type_ k;
      l ← filterType wantType keys;
      mret (if EqualFold t wantType then k :: l else l)
  end.

(** The window of the sorted key list; [all[start:end]] panics on a negative or inverted range. *)
Definition scanWindow (cursor count : Z) (all : list string) : outcome (Z * list string) :=
  let n := Z.of_nat (List.length all) in
  let start := wrap64 cursor in
  if start >=? n then Ret (0, [])
  else
    let end_ := wrap64 (start + count) in
    let end_ := if end_ >? n then n else end_ in
    if (start <? 0) || (end_ <? start) then Panic
    else Ret (if end_ <? n then end_ else 0, take (Z.to_nat (end_ - start)) (drop (Z.to_nat start) all)).

Definition Scan (cursor : Z) (match_ : string) (count : Z) (wantType : string)
    : M (outcome (Z * list string)) :=
  let match_ := if sempty match_ then "*"%string else match_ in
  let count := if count <=? 0 then 10 else count in
  all ← Keys match_;
  let all := sortStrings all in
  all ← (if sempty wantType then mret all else filterType (ToLower wantType) all);
  mret (scanWindow cursor count all).

(** ** [PruneWatch] *)

Fixpoint deadKeys (keys : list string) : M (list string) :=
  match keys with
  | [] => mret []
  | k :: keys =>
      _ ← yield;
      o ← lookupKey k;
      dead ← deadKeys keys;
      mret (match o with Some _ => dead | None => k :: dead end)
  end.

Definition PruneWatch : M unit :=
  w ← gets watch;
  kvs ← ranged (map_to_list w);
  dead ← deadKeys (map fst kvs);
  _ ← yield;
  modify (fun s => setWatch (fold_left (fun w k => delete k w) dead (watch s)) s).

End ops.

(** ** Part 8: snapshots (internal/store/store_collections.go) *)

(** [Fields], [Members] and [Elements] are only set for their own type. *)
Record SnapshotEntry := mkSnap {
  sn_Key : string; sn_Type : string; sn_Value : slice; sn_Fields : gmap string slice;
  sn_Members : list slice; sn_Elements : list slice; sn_TTLMs : Z }.

Section ops.
Context `{MapOrder}.

(** [time.Until(e.expiresAt).Milliseconds()], not below zero, 0 without expiry. *)
Definition snapTTL (e : entry) : M Z :=
  if IsZero (e_expiresAt e) then mret 0
  else now ← Now; mret (Z.max 0 (Milliseconds (Sub (e_expiresAt e) now))).

Definition buildSnapshotEntry (key : string) (e : entry) : M SnapshotEntry :=
  ttl ← snapTTL e;
  match e_value e with
  | VString b => mret (mkSnap key "string" (cloneBytes b) ∅ [] [] ttl)
  | VHash h => mret (mkSnap key "hash" None (cloneBytes <$> h) [] [] ttl)
  | VList l => mret (mkSnap key "list" None ∅ [] (map cloneBytes l) ttl)
  | VSet st => ms ← ranged (elements st); mret (mkSnap key "set" None ∅ (map Some ms) [] ttl)
  end.

(** The batch of one shard, built under its lock. *)
Fixpoint snapBatch (kvs : list (string * entry)) : M (list SnapshotEntry) :=
  match kvs with
  | [] => mret []
  | (k, e) :: kvs =>
      x ← isExpired e;
      if x : bool then snapBatch kvs
      else ent ← buildSnapshotEntry k e; rest ← snapBatch kvs; mret (ent :: rest)
  end.

Fixpoint snapShards (n si : nat) : M (list SnapshotEntry) :=
  match n with
  | O => mret []
  | S n =>
      _ ← yield;
      sh ← gets (shardAt si);
      kvs ← ranged (map_to_list (sh_m sh));
      batch ← snapBatch kvs;
      rest ← snapShards n (S si);
      mret (batch ++ rest)
  end.

(** The entries the channel of [SnapshotCtx] delivers when the consumer reads to the end. *)
Definition SnapshotCtx : M (list SnapshotEntry) := snapShards NumShards 0.

Definition snapValue (ent : SnapshotEntry) : option gvalue :=
  let t := sn_Type ent in
  if (t =? "string")%string then Some (VString (cloneBytes (sn_Value ent)))
  else if (t =? "hash")%string then Some (VHash (cloneBytes <$> sn_Fields ent))
  else if (t =? "list")%string then Some (VList (map cloneBytes (sn_Elements ent)))
  else if (t =? "set")%string then Some (VSet (list_to_set (map sbytes (sn_Members ent))))
  else None.

Definition applySnapshotEntry (ent : SnapshotEntry) : M (option error) :=
  at_ ← (if sn_TTLMs ent >? 0
         then now ← Now; mret (Add now (DurationMul (sn_TTLMs ent) Millisecond))
         else mret noTTL);
  match snapValue ent with
  | None =>
      mret (Some (wrapErr ("unknown snapshot type " +++ Quote (sn_Type ent) +++ ": ")
                          (New "invalid snapshot")))
  | Some v =>
      let key := sn_Key ent in
      let ne := newEntry v at_ in
      r ← ensureMemoryWithRetry key (estimateMem key ne);
      match r with
      | (_, Some err) => mret (Some err)
      | (_, None) => old ← lookupKey key; _ ← replace key old ne; mret None
      end
  end.

Definition ApplySnapshotEntry (ent : SnapshotEntry) : M (option error) := applySnapshotEntry ent.

Fixpoint applyLoop (entries : list SnapshotEntry) : M (option error) :=
  match entries with
  | [] => mret None
  | ent :: entries =>
      _ ← yield;
      r ← applySnapshotEntry ent;
      match r with
      | Some err => mret (Some (wrapErr "apply snapshot: " err))
      | None => applyLoop entries
      end
  end.

Definition ApplySnapshot (entries : list SnapshotEntry) : M (option error) :=
  _ ← FlushDB; applyLoop entries.

End ops.
