(* ===== verification/StoreOps.v ===== *)
(** * The interface of the store: the calls the rest of the program makes, with their replies.

    Two calls are not among them: [HIncrByFloat], whose argument is a float (the theorems on connections and on
    replication treat it, [ConnInv.h_HIncrByFloat], [Converge.d_HIncrByFloat]), and the management command's
    [SampleKeysForDebug], which is in [Mgmt]. *)

From S2P Require Import Prelude GoInt GoStr GoTime GoSort Config StoreBase Eviction StoreString.
From S2P Require Import StoreHash StoreList StoreSet StoreKeys.

Inductive op :=
  | OGet (k : string) | OSet (k : string) (v : slice) (at_ : Time)
  | OSetNX (k : string) (v : slice) (at_ : Time) | OSetXX (k : string) (v : slice) (at_ : Time)
  | OGetSet (k : string) (v : slice) (at_ : Time) | OAppend (k : string) (v : slice)
  | OIncrBy (k : string) (n : Z) | ODecrBy (k : string) (n : Z)
  | OMGet (ks : list string) | OMSet (ps : gmap string slice) | OMSetNX (ps : gmap string slice)
  | OHSet (k : string) (ps : gmap string slice) | OHGet (k f : string) | OHGetAll (k : string)
  | OHDel (k : string) (fs : list string) | OHExists (k f : string) | OHLen (k : string)
  | OHSetNX (k f : string) (v : slice) | OHIncrBy (k f : string) (n : Z)
  | OLPush (k : string) (vs : list slice) | ORPush (k : string) (vs : list slice)
  | OLPushX (k : string) (vs : list slice) | ORPushX (k : string) (vs : list slice)
  | OLPop (k : string) (n : Z) | ORPop (k : string) (n : Z) | OLLen (k : string)
  | OLRange (k : string) (a b : Z) | OLIndex (k : string) (i : Z)
  | OLSet (k : string) (i : Z) (v : slice) | OLRem (k : string) (n : Z) (v : slice)
  | OLTrim (k : string) (a b : Z) | OLInsert (k : string) (before : bool) (pivot v : slice)
  | OSAdd (k : string) (ms : list slice) | OSRem (k : string) (ms : list slice)
  | OSMembers (k : string) | OSIsMember (k : string) (m : slice) | OSCard (k : string)
  | OReplaceSet (k : string) (ms : list slice)
  | ODel (ks : list string) | OExists (ks : list string) | OType (k : string)
  | ORename (a b : string) | ORenameNX (a b : string)
  | OKeys (pat : string) | ODBSize | OExpireKeyCount | OStoreStats | OFlushDB
  | OExpire (k : string) (sec : Z) | OExpireAt (k : string) (at_ : Time)
  | OTTL (k : string) | OTTLMs (k : string) | OPersist (k : string)
  | OScan (cursor : Z) (m : string) (count : Z) (t : string)
  | OWatchVersion (k : string) | OPruneWatch | OMemBytes
  | OSnapshot | OApplySnapshotEntry (ent : SnapshotEntry) | OApplySnapshot (l : list SnapshotEntry)
  | OReplaceConfig (c : option Config) | OSampleExpiry.

Inductive reply :=
  | RUnit (e : option error) | RSlice (r : res slice) | RPrev (r : res (slice * bool))
  | RBool (r : res bool) | RInt (r : res Z) | RSlices (r : res (list slice))
  | RList (r : outcome (res (option (list slice)))) | RHash (r : res (option (gmap string slice)))
  | RNum (n : Z) | RName (s : string) | RKeys (l : list string) | RStats (l : list Z)
  | RScan (r : outcome (Z * list string)) | RSnapshot (l : list SnapshotEntry).

Definition mmap {A B} (f : A -> B) (m : M A) : M B := a ← m; mret (f a).

Definition done : reply := RUnit None.

Definition exec `{MapOrder} (o : op) : M reply :=
  match o with
  | OGet k => mmap RSlice (Get k)
  | OSet k v t => mmap RUnit (Set_ k v t)
  | OSetNX k v t => mmap RBool (SetNX k v t)
  | OSetXX k v t => mmap RBool (SetXX k v t)
  | OGetSet k v t => mmap RPrev (GetSet k v t)
  | OAppend k v => mmap RInt (Append k v)
  | OIncrBy k n => mmap RInt (IncrBy k n)
  | ODecrBy k n => mmap RInt (DecrBy k n)
  | OMGet ks => mmap RSlices (MGet ks)
  | OMSet ps => mmap RUnit (MSet ps)
  | OMSetNX ps => mmap RBool (MSetNX ps)
  | OHSet k ps => mmap RInt (HSet k ps)
  | OHGet k f => mmap RSlice (HGet k f)
  | OHGetAll k => mmap RHash (HGetAll k)
  | OHDel k fs => mmap RInt (HDel k fs)
  | OHExists k f => mmap RBool (HExists k f)
  | OHLen k => mmap RInt (HLen k)
  | OHSetNX k f v => mmap RInt (HSetNX k f v)
  | OHIncrBy k f n => mmap RInt (HIncrBy k f n)
  | OLPush k vs => mmap RInt (LPush k vs)
  | ORPush k vs => mmap RInt (RPush k vs)
  | OLPushX k vs => mmap RInt (LPushX k vs)
  | ORPushX k vs => mmap RInt (RPushX k vs)
  | OLPop k n => mmap RList (LPop k n)
  | ORPop k n => mmap RList (RPop k n)
  | OLLen k => mmap RInt (LLen k)
  | OLRange k a b => mmap (RList ∘ Ret) (LRange k a b)
  | OLIndex k i => mmap RSlice (LIndex k i)
  | OLSet k i v => mmap RUnit (LSet k i v)
  | OLRem k n v => mmap RInt (LRem k n v)
  | OLTrim k a b => mmap RUnit (LTrim k a b)
  | OLInsert k before p v => mmap RInt (LInsert k before p v)
  | OSAdd k ms => mmap RInt (SAdd k ms)
  | OSRem k ms => mmap RInt (SRem k ms)
  | OSMembers k => mmap (RList ∘ Ret) (SMembers k)
  | OSIsMember k m => mmap RBool (SIsMember k m)
  | OSCard k => mmap RInt (SCard k)
  | OReplaceSet k ms => mmap RUnit (ReplaceSet k ms)
  | ODel ks => mmap RNum (Del ks)
  | OExists ks => mmap RNum (Exists ks)
  | OType k => mmap RName (Type_ k)
  | ORename a b => mmap RUnit (Rename a b)
  | ORenameNX a b => mmap RBool (RenameNX a b)
  | OKeys p => mmap RKeys (Keys p)
  | ODBSize => mmap RNum DBSize
  | OExpireKeyCount => mmap RNum ExpireKeyCount
  | OStoreStats => mmap RStats StoreStats
  | OFlushDB => mmap (fun _ => done) FlushDB
  | OExpire k n => mmap RBool (Expire k n)
  | OExpireAt k t => mmap RBool (ExpireAt k t)
  | OTTL k => mmap RNum (TTL k)
  | OTTLMs k => mmap RNum (TTLMs k)
  | OPersist k => mmap RBool (Persist k)
  | OScan c m n t => mmap RScan (Scan c m n t)
  | OWatchVersion k => mmap RNum (gets (WatchVersion k))
  | OPruneWatch => mmap (fun _ => done) PruneWatch
  | OMemBytes => mmap RNum MemBytes
  | OSnapshot => mmap RSnapshot SnapshotCtx
  | OApplySnapshotEntry ent => mmap RUnit (ApplySnapshotEntry ent)
  | OApplySnapshot l => mmap RUnit (ApplySnapshot l)
  | OReplaceConfig c => mmap (fun _ => done) (modify (ReplaceConfig c))
  | OSampleExpiry => mmap (fun _ => done) sampleAllShards
  end.

(** A sequence of calls. *)
Fixpoint run `{MapOrder} (os : list op) : M (list reply) :=
  match os with
  | [] => mret []
  | o :: os => r ← exec o; rs ← run os; mret (r :: rs)
  end.

(** ** Concrete runs

    Iteration in key order of the map representation, nobody else at work, a clock that stands. *)

#[global] Instance idOrder : MapOrder :=
  {| mapOrder := fun _ _ l => l; mapOrder_perm := fun _ _ _ => reflexivity _ |}.

Definition calmEnv (now : Time) : Env := mkEnv now [] [] [] 0.

(** The state after some calls on an empty store. *)
Definition demo (os : list op) : St := snd (run os (mkSt emptyStore (calmEnv 1))).
