(* ===== verification/StoreHoare.v ===== *)
(** * Reasoning about store operations: invariants under concurrency.

    [hoare I P m Q]: from a state whose store satisfies the invariant [I] and [P], with other
    goroutines that keep [I], the operation [m] ends in a store that satisfies [I] and, with its
    result, [Q].  An invariant survives a lock window, [P] does not. *)

From S2P Require Import Prelude GoInt GoStr GoTime GoSort Config StoreBase Eviction StoreString.
From S2P Require Import StoreHash StoreList StoreSet StoreKeys StoreOps.

(** Every pending step of the other goroutines keeps [I]. *)
Definition stable (I : Store -> Prop) (e : Env) : Prop :=
  Forall (fun f : Store -> Store => forall s, I s -> I (f s)) (tape e).

(** Only steps that have taken place leave the tape. *)
Definition fewer (e e' : Env) : Prop := suffix (tape e') (tape e).

#[global] Instance fewer_refl : Reflexive fewer.
Proof. intros e. unfold fewer. reflexivity. Qed.

#[global] Instance fewer_trans : Transitive fewer.
Proof. intros e1 e2 e3 H1 H2. unfold fewer in *. by transitivity (tape e2). Qed.

Lemma fewer_same e e' : tape e' = tape e -> fewer e e'.
Proof. unfold fewer. by intros ->. Qed.

Lemma stable_fewer I e e' : stable I e -> fewer e e' -> stable I e'.
Proof. intros Hs [l Hl]. unfold stable in *. rewrite Hl in Hs. by apply Forall_app in Hs as [_ ?]. Qed.

#[export] Hint Resolve fewer_refl stable_fewer : cache.

Definition hoare (I : Store -> Prop) {A} (P : Store -> Prop) (m : M A) (Q : A -> Store -> Prop) : Prop :=
  forall st a st', m st = (a, st') -> I (db st) -> stable I (env st) -> P (db st) ->
    I (db st') /\ fewer (env st) (env st') /\ Q a (db st').

Definition T {A} : A -> Store -> Prop := fun _ _ => True.

Section rules.
Context (I : Store -> Prop).

Lemma h_ret {A} (P : Store -> Prop) (a : A) (Q : A -> Store -> Prop) :
  (forall s, I s -> P s -> Q a s) -> hoare I P (mret a) Q.
Proof. intros H st a' st' [= <- <-] HI Hs HP. auto with cache. Qed.

Lemma h_bind {A B} (P : Store -> Prop) (m : M A) (f : A -> M B) R Q :
  hoare I P m R -> (forall a, hoare I (R a) (f a) Q) -> hoare I P (m ≫= f) Q.
Proof.
  intros Hm Hf st b st' Heq HI Hs HP.
  unfold mbind, M_bind in Heq. destruct (m st) as [a st1] eqn:E.
  destruct (Hm _ _ _ E HI Hs HP) as (HI1 & Hs1 & HR).
  destruct (Hf _ _ _ _ Heq HI1 (stable_fewer _ _ _ Hs Hs1) HR) as (HI2 & Hs2 & HQ).
  split; [done|]. split; [by transitivity (env st1)|done].
Qed.

Lemma h_weaken {A} (P P' : Store -> Prop) (m : M A) (Q Q' : A -> Store -> Prop) :
  hoare I P' m Q' -> (forall s, I s -> P s -> P' s) -> (forall a s, I s -> Q' a s -> Q a s) ->
  hoare I P m Q.
Proof.
  intros Hm HP HQ st a st' Heq HI Hs Hp. destruct (Hm _ _ _ Heq HI Hs) as (?&?&?); auto.
Qed.

(** A fact that does not depend on the state may be taken out of the precondition. *)
Lemma h_pure (φ : Prop) {A} (P : Store -> Prop) (m : M A) Q :
  (forall s, I s -> P s -> φ) -> (φ -> hoare I P m Q) -> hoare I P m Q.
Proof. intros Hφ Hm st a st' Heq HI Hs HP. eapply Hm; eauto. Qed.

Lemma h_gets {A} (P : Store -> Prop) (f : Store -> A) : hoare I P (gets f) (fun a s => P s /\ a = f s).
Proof. intros st a st' [= <- <-] HI Hs HP. auto with cache. Qed.

Lemma h_modify (P : Store -> Prop) f (Q : unit -> Store -> Prop) :
  (forall s, I s -> P s -> I (f s) /\ Q tt (f s)) -> hoare I P (modify f) Q.
Proof. intros H st a st' [= <- <-] HI Hs HP. destruct (H _ HI HP). auto with cache. Qed.

Lemma h_now (P : Store -> Prop) : hoare I P Now (fun _ => P).
Proof. intros st a st' [= <- <-] HI Hs HP. split_and!; [done|by apply fewer_same|done]. Qed.

Lemma h_intn (P : Store -> Prop) n : hoare I P (IntN n) (fun _ => P).
Proof. intros st a st' [= <- <-] HI Hs HP. split_and!; [done|by apply fewer_same|done]. Qed.

Lemma h_ranged `{MapOrder} {A} (P : Store -> Prop) (l : list A) :
  hoare I P (ranged l) (fun r s => P s /\ r ≡ₚ l).
Proof.
  intros st a st' [= <- <-] HI Hs HP. split_and!; [done|by apply fewer_same|done|apply mapOrder_perm].
Qed.

Lemma h_yield (P : Store -> Prop) : hoare I P yield T.
Proof.
  intros st a st' Heq HI Hs HP. unfold yield, stable in *.
  destruct (tape (env st)) as [|f t] eqn:E; injection Heq as <- <-; simpl.
  - split; [done|]. by split.
  - inversion Hs; subst. split; [auto|]. split; [|done]. unfold fewer. rewrite E. by exists [f].
Qed.

Lemma h_isExpired (P : Store -> Prop) e : hoare I P (isExpired e) (fun _ => P).
Proof.
  unfold isExpired. destruct (IsZero _); [by apply h_ret|].
  eapply h_bind; [apply h_now|]. intros; by apply h_ret.
Qed.

Lemma h_lookup (P : Store -> Prop) key :
  hoare I P (lookupKey key) (fun o s => P s /\ o = find s key).
Proof. apply h_gets. Qed.
End rules.

(** ** What the eviction machinery asks of an invariant *)

(** A victim is never [avoid], and has an expiry when [ttlOnly]. *)
Definition victim (avoid : string) (ttlOnly : bool) (k : string) (e : entry) : Prop :=
  avoided avoid k = false /\ (ttlOnly = true -> hasTTL e = true).

Class EvictInv (avoid : string) (ttlOnly : bool) (I : Store -> Prop) := {
  evict_purge : forall s i k e,
    I s -> sh_m (shardAt i s) !! k = Some e -> victim avoid ttlOnly k e ->
    I (purgeEntryLocked i k e s);
  evict_cursor : forall s n, I s -> I (setCursor n s) }.

(** The policies that only evict keys with an expiry. *)
Definition volatilePolicy (pol : string) : bool :=
  (pol =? "volatile-lru")%string || (pol =? "volatile-random")%string || (pol =? "volatile-ttl")%string.

Section evict.
Context (avoid : string) (ttlOnly : bool) (I : Store -> Prop) `{EvictInv avoid ttlOnly I} `{MapOrder}.

(** What one eviction establishes besides the invariant. *)
Context (J : Store -> Prop).
Context (HJ : forall s i k e,
  I s -> sh_m (shardAt i s) !! k = Some e -> victim avoid ttlOnly k e -> J (purgeEntryLocked i k e s)).

Definition evicts (ok : bool) (s : Store) : Prop := ok = true -> J s.

Lemma h_failed P : hoare I P (mret false) evicts.
Proof. by apply h_ret. Qed.

Lemma h_evicted : hoare I J (mret true) evicts.
Proof. apply h_ret. by intros s _ HJs _. Qed.

Lemma h_nextCursor P : hoare I P nextCursor T.
Proof.
  intros st a st' [= <- <-] HI Hs HP. split; [by apply evict_cursor|]. split; [by apply fewer_same|done].
Qed.

Lemma h_purgeAt i k e :
  victim avoid ttlOnly k e ->
  hoare I (fun s => sh_m (shardAt i s) !! k = Some e) (modify (purgeEntryLocked i k e)) (fun _ => J).
Proof. intros Hv. apply h_modify. intros s HI Hk. split; [by apply evict_purge|by apply HJ]. Qed.

Lemma h_evictBack lru ok n P :
  (forall e, ok e = true -> ttlOnly = true -> hasTTL e = true) ->
  hoare I P (evictBack lru ok avoid n) evicts.
Proof.
  intros Hok. revert P. induction n as [|n IH]; intros P; simpl; [apply h_failed|].
  eapply h_bind; [apply h_nextCursor|]. intros si.
  eapply h_bind; [apply h_yield|]. intros [].
  eapply h_bind; [apply h_gets|]. intros sh. cbv beta.
  destruct (last (lru sh)) as [vic|]; [|apply IH].
  destruct (avoided avoid vic) eqn:Ea; [apply IH|].
  destruct (sh_m sh !! vic) as [e|] eqn:E; [|apply IH].
  destruct (ok e) eqn:Eo; [|apply IH].
  eapply h_bind with (R := fun _ => J); [|intros []; apply h_evicted].
  eapply h_weaken; [apply h_purgeAt; split; eauto| |done]. intros s _ [_ Hsh]. by subst sh.
Qed.

Lemma h_randomLoop pred n P :
  (forall e, pred e = true -> ttlOnly = true -> hasTTL e = true) ->
  hoare I P (randomLoop pred avoid n) evicts.
Proof.
  intros Hpred. revert P. induction n as [|n IH]; intros P; simpl; [apply h_failed|].
  eapply h_bind; [apply h_intn|]. intros si.
  eapply h_bind; [apply h_yield|]. intros [].
  eapply h_bind; [apply h_gets|]. intros sh. cbv beta.
  destruct (bool_decide _); [apply IH|].
  eapply h_bind; [apply h_ranged|]. intros kvs. cbv beta.
  destruct (bool_decide _); [apply IH|].
  eapply h_bind; [apply h_intn|]. intros r. cbv beta.
  destruct (_ !! r) as [vic|] eqn:Er; [|apply IH].
  destruct (avoided avoid vic) eqn:Ea; [apply IH|].
  destruct (sh_m sh !! vic) as [e|] eqn:E; [|apply IH].
  eapply h_bind with (R := fun _ => J); [|intros []; apply h_evicted].
  intros st a st' Heq HI Hs [[_ Hsh] Hperm].
  eapply (h_purgeAt si vic e); [split; [done|]|exact Heq|done|done|by subst sh].
  apply Hpred. apply list_elem_of_lookup_2, list_elem_of_In, in_map_iff in Er as ([k' e'] & Hk' & Hin).
  simpl in Hk'. subst k'. apply filter_In in Hin as [Hin Hp]. simpl in Hp.
  rewrite <- list_elem_of_In, Hperm, elem_of_map_to_list in Hin. congruence.
Qed.

Lemma ttlFold_ok si kvs best :
  (forall k j t, best = Some (k, j, t) -> avoided avoid k = false) ->
  forall k j t, fold_left (ttlStep avoid si) kvs best = Some (k, j, t) -> avoided avoid k = false.
Proof.
  revert best. induction kvs as [|[k e] kvs IH]; intros best Hb; simpl; [done|]. apply IH.
  unfold ttlStep. repeat split_goal; intros ??? [=]; subst; eauto.
Qed.

Lemma h_ttlScan n si best P :
  (forall k j t, best = Some (k, j, t) -> avoided avoid k = false) ->
  hoare I P (ttlScan avoid n si best)
    (fun r _ => forall k j t, r = Some (k, j, t) -> avoided avoid k = false).
Proof.
  revert si best P. induction n as [|n IH]; intros si best P Hb; simpl; [by apply h_ret|].
  eapply h_bind; [apply h_yield|]. intros [].
  eapply h_bind; [apply h_gets|]. intros sh.
  eapply h_bind; [apply h_ranged|]. intros kvs. apply IH. by apply ttlFold_ok.
Qed.

Lemma h_evictVolatileTTL P : hoare I P (evictVolatileTTL avoid) evicts.
Proof.
  eapply h_bind; [by apply h_ttlScan|]. intros [[[k si] at_]|]; [|apply h_failed].
  apply (h_pure I (avoided avoid k = false)); [by eauto|]. intros Hk.
  eapply h_bind; [apply h_yield|]. intros [].
  eapply h_bind; [apply h_gets|]. intros sh. cbv beta.
  destruct (sh_m sh !! k) as [e|] eqn:E; [|apply h_failed].
  destruct (hasTTL e) eqn:Et; [|apply h_failed].
  eapply h_bind with (R := fun _ => J); [|intros []; apply h_evicted].
  eapply h_weaken; [by apply h_purgeAt| |done]. intros s _ [_ Hsh]. by subst sh.
Qed.

Lemma h_evictPolicy pol P :
  (ttlOnly = true -> volatilePolicy pol = true) -> hoare I P (evictPolicy pol avoid) evicts.
Proof.
  intros Hvol. unfold evictPolicy.
  destruct (pol =? "noeviction")%string; [apply h_failed|].
  destruct (pol =? "allkeys-lru")%string eqn:E1.
  { apply String.eqb_eq in E1 as ->. apply h_evictBack. intros e _ Ht. discriminate (Hvol Ht). }
  destruct (pol =? "volatile-lru")%string; [by apply h_evictBack|].
  destruct (pol =? "allkeys-random")%string eqn:E2.
  { apply String.eqb_eq in E2 as ->. apply h_randomLoop. intros e _ Ht. discriminate (Hvol Ht). }
  destruct (pol =? "volatile-random")%string; [by apply h_randomLoop|].
  destruct (pol =? "volatile-ttl")%string; [apply h_evictVolatileTTL|apply h_failed].
Qed.

(** Under [ttlOnly] the policy must be one of the volatile ones. *)
Context (Hvol : forall s, I s -> ttlOnly = true -> volatilePolicy (policy s) = true).

Lemma h_evictFromStore P : hoare I P (evictFromStore avoid) evicts.
Proof.
  eapply h_bind; [apply h_gets|]. intros pol.
  apply (h_pure I (ttlOnly = true -> volatilePolicy pol = true)); [|apply h_evictPolicy].
  intros s HI [_ ->]. by apply Hvol.
Qed.

End evict.

Section guard.
Context (avoid : string) (ttlOnly : bool) (I : Store -> Prop) `{EvictInv avoid ttlOnly I} `{MapOrder}.
Context (Hvol : forall s, I s -> ttlOnly = true -> volatilePolicy (policy s) = true).

Lemma h_evictStep P : hoare I P (evictStep avoid) T.
Proof.
  Transparent evictStep. unfold evictStep. Opaque evictStep.
  eapply h_bind; [by apply (h_evictFromStore avoid ttlOnly I (fun _ => True))|]. intros ok.
  eapply h_bind; [apply h_yield|]. intros []. by apply h_ret.
Qed.

Lemma h_evictLoop a delta b ev P : hoare I P (evictLoop a avoid delta b ev) T.
Proof.
  revert b ev P. induction a as [|a IHa]; intros b; induction b as [|b IHb];
    intros ev P st r st' Heq HI Hs HP; rewrite evictLoop_eq in Heq;
    (destruct (overLimit delta (db st)); [|injection Heq as <- <-; by split]);
    destruct (evictStep avoid st) as [ok st1] eqn:E;
    destruct (h_evictStep P _ _ _ E HI Hs HP) as (HI1 & Hs1 & _);
    (destruct (negb ok); [injection Heq as <- <-; by split|]);
    pose proof (stable_fewer _ _ _ Hs Hs1) as Hst1;
    (destruct (_ <? _)%nat;
      [try destruct (IHa _ _ (fun _ => True) _ _ _ Heq HI1 Hst1 Logic.I) as (? & ? & ?)
      |try destruct (IHb _ (fun _ => True) _ _ _ Heq HI1 Hst1 Logic.I) as (? & ? & ?)]);
    first [by split_and!; [|transitivity (env st1)|] | injection Heq as <- <-; by split].
Qed.

Lemma h_evictWhile delta P : hoare I P (evictWhile avoid delta) T.
Proof. intros st r st' Heq. by eapply h_evictLoop. Qed.

(** The loop reports that it evicted as soon as it went round once. *)
Lemma evictLoop_untouched a delta b ev st o st' :
  evictLoop a avoid delta b ev st = ((false, o), st') -> ev = false /\ st' = st /\ o = None.
Proof.
  revert b ev st. induction a as [|a IHa]; intros b; induction b as [|b IHb];
    intros ev st Heq; rewrite evictLoop_eq in Heq;
    (destruct (overLimit delta (db st)); [|by injection Heq as <- <- <-]);
    destruct (evictStep avoid st) as [ok st1];
    destruct (negb ok); try discriminate;
    (destruct (_ <? _)%nat; [try apply IHa in Heq | try apply IHb in Heq]);
    first [discriminate | by destruct Heq].
Qed.

(** The memory guard: when it did not release the lock, nothing happened in between. *)
Lemma h_ensureMemory delta P :
  hoare I P (ensureMemoryWithRetry avoid delta) (fun r s => fst r = false -> P s).
Proof.
  intros st r st' Heq HI Hs HP. unfold ensureMemoryWithRetry in Heq.
  unfold mbind, M_bind, gets in Heq.
  destruct ((maxMemBytes (db st) =? 0) || (delta <=? 0)); [injection Heq as <- <-; by split|].
  destruct (h_evictWhile delta P _ _ _ Heq HI Hs HP) as (HI' & Hs' & _).
  split; [exact HI'|]. split; [exact Hs'|]. destruct r as [[|] o]; simpl; [discriminate|]. intros _.
  unfold evictWhile in Heq. apply evictLoop_untouched in Heq as (_ & -> & _). exact HP.
Qed.

End guard.

Lemma h_evictUntilFits I `{EvictInv EmptyString false I} `{MapOrder} delta P :
  hoare I P (evictUntilFits delta) T.
Proof.
  eapply h_bind; [apply h_gets|]. intros mx. destruct (mx =? 0); [by apply h_ret|].
  eapply h_bind; [by apply (h_evictWhile EmptyString false)|]. intros r. by apply h_ret.
Qed.

(** ** What the operations ask of an invariant *)

(** Slices are nil or not empty, as [append([]byte(nil), b...)] makes them. *)
Definition value_wf (v : gvalue) : Prop :=
  match v with
  | VString b => slice_wf b
  | VHash h => map_Forall (fun _ => slice_wf) h
  | VList l => Forall slice_wf l
  | VSet _ => True
  end.

(** A new entry: not in an LRU list yet. *)
Definition fresh (e : entry) : Prop :=
  e_allElem e = false /\ e_volElem e = false /\ value_wf (e_value e).

(** The entry handed to [replaceEntry] as the old one stands for the stored one: same list
    elements, same cost. *)
Definition sameCost (key : string) (o e : entry) : Prop :=
  e_allElem o = e_allElem e /\ e_volElem o = e_volElem e /\ estimateMem key o = estimateMem key e.

Definition replaces (s : Store) (key : string) (old : option entry) : Prop :=
  match find s key, old with
  | None, None => True
  | Some e, Some o => sameCost key o e
  | _, _ => False
  end.

Lemma replaces_find s key old : find s key = old -> replaces s key old.
Proof. unfold replaces. intros ->. by destruct old. Qed.

Definition unlinked (src : string) (e : entry) (s : Store) : Store :=
  let i := shardIndex src in
  addMem (- estimateMem src e) (onShard i (delEntry src) (onShard i (removeFromLRU src e) s)).

(** The interface of an invariant that every ordinary operation keeps. *)
Class StoreInv (I : Store -> Prop) := {
  inv_evict :: forall avoid, EvictInv avoid false I;
  inv_len : forall s, I s -> List.length (shards s) = NumShards;
  inv_value : forall s k e, I s -> find s k = Some e -> value_wf (e_value e);
  inv_tick : forall s n, I s -> I (setTick n s);
  inv_config : forall s c, I s -> I (ReplaceConfig c s);
  inv_touch : forall s k e, I s -> find s k = Some e -> I (snd (touchLRU (shardIndex k) k e s));
  inv_replace : forall s k old ne, I s -> replaces s k old -> fresh ne ->
    I (replaceEntry (shardIndex k) k old ne s) }.

(** In addition, for the operations that work on a list in place or on a stale entry: the old
    entry has the list elements of the stored one, or there is no stored entry and it has none. *)
Definition sameElems (o e : entry) : Prop :=
  e_allElem o = e_allElem e /\ e_volElem o = e_volElem e.

Definition loosely (s : Store) (key : string) (old : option entry) : Prop :=
  match find s key, old with
  | None, None => True
  | None, Some o => e_allElem o = false /\ e_volElem o = false
  | Some e, Some o => sameElems o e
  | Some _, None => False
  end.

Class LooseInv (I : Store -> Prop) := {
  loose_store :: StoreInv I;
  loose_replace : forall s k old ne, I s -> loosely s k old -> fresh ne ->
    I (replaceEntry (shardIndex k) k old ne s);
  loose_purge : forall s k e o, I s -> find s k = Some e -> sameElems o e ->
    I (purgeEntryLocked (shardIndex k) k o s) }.

(** And for those that drop a key, or the watch table, without a version bump. *)
Class QuietInv (I : Store -> Prop) := {
  inv_watch : forall s w, I s -> I (setWatch w s);
  inv_unlink : forall s k e, I s -> find s k = Some e -> I (unlinked k e s) }.
