(* ===== verification/StoreView.v ===== *)
(** * What the primitives of the store do to the key map.

    [find s k] is the entry of a key; [view s k] its value and expiry, without the LRU pointers.
    The lemmas hold for a store with all its shards. *)

From S2P Require Import Prelude GoInt GoStr GoTime GoSort Config StoreBase Eviction StoreString.
From S2P Require Import StoreHash StoreList StoreSet StoreKeys StoreOps StoreHoare.

Definition core (e : entry) : gvalue * Time := (e_value e, e_expiresAt e).
Definition view (s : Store) (k : string) : option (gvalue * Time) := core <$> find s k.

Definition full (s : Store) : Prop := List.length (shards s) = NumShards.

Lemma shardIndex_lt k : (shardIndex k < NumShards)%nat.
Proof.
  unfold shardIndex.
  pose proof (Z.mod_pos_bound (fnv1a 2166136261 k) (Z.of_nat NumShards) ltac:(done)) as H.
  apply Nat2Z.inj_lt. rewrite Z2Nat.id; lia.
Qed.

#[export] Hint Resolve shardIndex_lt : cache.

(** ** Shards *)

Lemma length_putShard i sh s : List.length (shards (putShard i sh s)) = List.length (shards s).
Proof. apply length_insert. Qed.

Lemma shardAt_put i sh s : full s -> (i < NumShards)%nat -> shardAt i (putShard i sh s) = sh.
Proof.
  intros Hf Hi. unfold shardAt, putShard. simpl. rewrite list_lookup_insert_eq; [done|].
  rewrite Hf. lia.
Qed.

Lemma shardAt_put_ne i j sh s : i <> j -> shardAt j (putShard i sh s) = shardAt j s.
Proof. intros H. unfold shardAt, putShard. simpl. by rewrite list_lookup_insert_ne. Qed.

(** A full store is determined by its 256 shards. *)
Lemma shards_eq s s' :
  full s -> full s' -> (forall i, shardAt i s = shardAt i s') -> shards s = shards s'.
Proof.
  intros Hf Hf' Heq. apply list_eq. intros i. specialize (Heq i). unfold shardAt in Heq.
  destruct (shards s !! i) eqn:E, (shards s' !! i) eqn:E'; simpl in Heq; try congruence.
  - apply lookup_lt_Some in E. apply lookup_ge_None_1 in E'. unfold full in *. lia.
  - apply lookup_lt_Some in E'. apply lookup_ge_None_1 in E. unfold full in *. lia.
Qed.

Lemma full_onShard i f s : full s -> full (onShard i f s).
Proof. unfold full, onShard. by rewrite length_putShard. Qed.

Lemma shards_addMem d s : shards (addMem d s) = shards s.
Proof. unfold addMem. by destruct (d =? 0). Qed.

Lemma shardAt_addMem i d s : shardAt i (addMem d s) = shardAt i s.
Proof. unfold shardAt. by rewrite shards_addMem. Qed.

Lemma policy_addMem d s : policy (addMem d s) = policy s.
Proof. unfold addMem, policy. by destruct (d =? 0). Qed.

Lemma find_addMem d s k : find (addMem d s) k = find s k.
Proof. unfold find. by rewrite shardAt_addMem. Qed.

Lemma find_bump key s k : find (bumpWatchKey key s) k = find s k.
Proof. done. Qed.

Lemma shardAt_bump key s i : shardAt i (bumpWatchKey key s) = shardAt i s.
Proof. done. Qed.

Lemma find_onShard i f s k :
  full s -> (i < NumShards)%nat ->
  find (onShard i f s) k =
    if decide (i = shardIndex k) then sh_m (f (shardAt i s)) !! k else find s k.
Proof.
  intros Hf Hi. unfold find, onShard. destruct (decide (i = shardIndex k)) as [<-|Hne].
  - by rewrite shardAt_put.
  - by rewrite shardAt_put_ne.
Qed.

Lemma shardAt_onShard i f s : full s -> (i < NumShards)%nat -> shardAt i (onShard i f s) = f (shardAt i s).
Proof. intros. unfold onShard. by rewrite shardAt_put. Qed.

Lemma onShard_onShard i f g s :
  full s -> (i < NumShards)%nat -> onShard i f (onShard i g s) = onShard i (fun sh => f (g sh)) s.
Proof.
  intros Hf Hi. unfold onShard at 1. rewrite shardAt_onShard by done.
  unfold onShard, putShard, setShards. simpl. by rewrite list_insert_insert_eq.
Qed.

(** ** The maps under the LRU steps *)

Lemma sh_m_removeFromLRU key e sh : sh_m (removeFromLRU key e sh) = sh_m sh.
Proof. unfold removeFromLRU. by destruct (e_allElem e), (e_volElem e). Qed.

(** A map whose binding of [key] changed at most in its LRU pointers. *)
Definition sameCore (key : string) (m m' : gmap string entry) : Prop :=
  (core <$> m' !! key) = (core <$> m !! key) /\ forall k, k <> key -> m' !! k = m !! k.

#[global] Instance sameCore_refl key : Reflexive (sameCore key).
Proof. by split. Qed.

#[global] Instance sameCore_trans key : Transitive (sameCore key).
Proof.
  intros m1 m2 m3 [H1 H2] [H3 H4]. split; [congruence|]. intros k Hk. by rewrite H4, H2.
Qed.

Lemma sameCore_put key e e' sh :
  sh_m sh !! key = Some e -> core e' = core e -> sameCore key (sh_m sh) (sh_m (putEntry key e' sh)).
Proof.
  intros He Hc. split; simpl.
  - by rewrite lookup_insert_eq, He; simpl; rewrite Hc.
  - intros k Hk. by rewrite lookup_insert_ne.
Qed.

Lemma touchAll_core pol key e sh :
  sh_m sh !! key = Some e ->
  let '(e', sh') := touchAllKeysLRU pol key e sh in
  sh_m sh' !! key = Some e' /\ core e' = core e /\ sameCore key (sh_m sh) (sh_m sh').
Proof.
  intros He. unfold touchAllKeysLRU. destruct (negb _); [done|].
  destruct (bool_decide _); [done|]. simpl. rewrite lookup_insert_eq.
  split; [done|]. split; [done|]. by apply (sameCore_put key e (setAll true e)).
Qed.

Lemma touchVol_core pol key e sh :
  sh_m sh !! key = Some e ->
  let '(e', sh') := touchVolatileLRU pol key e sh in
  sh_m sh' !! key = Some e' /\ core e' = core e /\ sameCore key (sh_m sh) (sh_m sh').
Proof.
  intros He. unfold touchVolatileLRU.
  destruct (negb (pol =? _)%string); [done|]. destruct (negb (hasTTL e)).
  - destruct (e_volElem e); [|done]. simpl. rewrite lookup_insert_eq.
    split; [done|]. split; [done|]. by apply (sameCore_put key e (setVol false e)).
  - destruct (bool_decide _); [done|]. simpl. rewrite lookup_insert_eq.
    split; [done|]. split; [done|]. by apply (sameCore_put key e (setVol true e)).
Qed.

Lemma lruAfterSet_core pol key e sh :
  sh_m sh !! key = Some e -> sameCore key (sh_m sh) (sh_m (lruAfterSet pol key e sh)).
Proof.
  intros He. unfold lruAfterSet.
  match goal with |- context [let '(_, _) := ?x in _] => set (p := x) end.
  assert (sh_m (snd p) !! key = Some (fst p) /\ core (fst p) = core e /\
          sameCore key (sh_m sh) (sh_m (snd p))) as (Hp & Hc & Hs).
  { unfold p. destruct (pol =? "allkeys-lru")%string; [|done].
    destruct (bool_decide _); [done|]. simpl. rewrite lookup_insert_eq.
    split; [done|]. split; [done|]. by apply (sameCore_put key e (setAll true e)). }
  destruct p as [e1 sh1]; simpl in *. etransitivity; [exact Hs|].
  destruct (pol =? "volatile-lru")%string; [|done].
  destruct (hasTTL e1); [destruct (bool_decide _); [done|]|destruct (e_volElem e1); [|done]].
  - by apply (sameCore_put key e1 (setVol true e1) (pushVol key sh1)).
  - by apply (sameCore_put key e1 (setVol false e1) (dropVol key sh1)).
Qed.

(** ** The keyspace after a purge, a replacement, a touch *)

Lemma full_purge i k e s : full s -> full (purgeEntryLocked i k e s).
Proof.
  unfold full, purgeEntryLocked. simpl. rewrite shards_addMem.
  intros. by do 2 apply full_onShard.
Qed.

Lemma find_purge i k e s k' :
  full s -> (i < NumShards)%nat ->
  find (purgeEntryLocked i k e s) k' =
    if decide (i = shardIndex k' /\ k = k') then None else find s k'.
Proof.
  intros Hf Hi. unfold purgeEntryLocked.
  rewrite find_bump, find_addMem, find_onShard by auto using full_onShard.
  rewrite shardAt_onShard, find_onShard by auto. simpl. rewrite sh_m_removeFromLRU.
  destruct (decide (i = shardIndex k')) as [->|Hne].
  - destruct (decide (_ /\ _)) as [[_ ->]|Hn]; [apply lookup_delete_eq|].
    rewrite lookup_delete_ne; [done|]. intros ->. by apply Hn.
  - destruct (decide (_ /\ _)) as [[? _]|_]; [done|]. done.
Qed.

Lemma find_purge_eq k e s : full s -> find (purgeEntryLocked (shardIndex k) k e s) k = None.
Proof. intros. rewrite find_purge by auto with cache. by rewrite decide_True. Qed.

Lemma find_purge_ne i k e s k' :
  full s -> (i < NumShards)%nat -> k <> k' -> find (purgeEntryLocked i k e s) k' = find s k'.
Proof. intros. rewrite find_purge by auto. rewrite decide_False; [done|]. by intros [_ ?]. Qed.

Lemma full_addMem d s : full s -> full (addMem d s).
Proof. unfold full. by rewrite shards_addMem. Qed.

#[export] Hint Resolve full_onShard full_addMem full_purge : cache.

Lemma full_replace i k old ne s : full s -> full (replaceEntry i k old ne s).
Proof.
  intros Hf. unfold replaceEntry. apply full_onShard, full_addMem, full_onShard. destruct old; auto with cache.
Qed.

Lemma shardAt_replace k old ne s :
  full s ->
  let i := shardIndex k in
  shardAt i (replaceEntry i k old ne s) =
    lruAfterSet (policy s) k ne
      (putEntry k ne (match old with
                      | Some o => removeFromLRU k o (shardAt i s)
                      | None => shardAt i s
                      end)).
Proof.
  intros Hf i. unfold replaceEntry. set (s1 := match old with Some _ => _ | None => s end).
  assert (full s1) as Hf1.
  { unfold s1. destruct old; [|done]. unfold full. rewrite shards_addMem. by apply full_onShard. }
  assert (policy s1 = policy s) as Hp by (unfold s1; destruct old; [by rewrite policy_addMem|done]).
  rewrite shardAt_bump.
  rewrite shardAt_onShard;
    [|unfold full; rewrite shards_addMem; by apply full_onShard | apply shardIndex_lt].
  rewrite policy_addMem, shardAt_addMem, shardAt_onShard by (done || apply shardIndex_lt).
  change (policy (onShard i (putEntry k ne) s1)) with (policy s1). rewrite Hp. do 2 f_equal.
  unfold s1. destruct old; [|done].
  by rewrite shardAt_addMem, shardAt_onShard by (done || apply shardIndex_lt).
Qed.

Lemma shardAt_replace_ne k old ne s j :
  j <> shardIndex k -> shardAt j (replaceEntry (shardIndex k) k old ne s) = shardAt j s.
Proof.
  intros Hj. unfold replaceEntry.
  rewrite shardAt_bump. unfold onShard at 1. rewrite shardAt_put_ne by done.
  rewrite shardAt_addMem. unfold onShard at 1. rewrite shardAt_put_ne by done.
  destruct old; [|done]. rewrite shardAt_addMem. unfold onShard. by rewrite shardAt_put_ne.
Qed.

Lemma view_replace k old ne s k' :
  full s ->
  view (replaceEntry (shardIndex k) k old ne s) k' =
    if decide (k = k') then Some (core ne) else view s k'.
Proof.
  intros Hf. unfold view, find.
  set (sh0 := match old with
              | Some o => removeFromLRU k o (shardAt (shardIndex k) s)
              | None => shardAt (shardIndex k) s
              end).
  assert (sh_m sh0 = sh_m (shardAt (shardIndex k) s)) as Hm
    by (unfold sh0; destruct old; [apply sh_m_removeFromLRU|done]).
  assert (sh_m (putEntry k ne sh0) !! k = Some ne) as Hput by apply lookup_insert_eq.
  destruct (lruAfterSet_core (policy s) k ne _ Hput) as [Hc Hother].
  destruct (decide (shardIndex k' = shardIndex k)) as [Hi|Hi].
  - rewrite Hi, shardAt_replace by done. fold sh0.
    destruct (decide (k = k')) as [<-|Hne].
    + rewrite Hc. by rewrite Hput.
    + rewrite Hother by done. simpl. rewrite lookup_insert_ne by done. by rewrite Hm.
  - rewrite shardAt_replace_ne by done. rewrite decide_False; [done|]. congruence.
Qed.

Lemma view_None s k : view s k = None <-> find s k = None.
Proof. unfold view. by destruct (find s k). Qed.

Lemma full_touch i k e s : full s -> full (snd (touchLRU i k e s)).
Proof.
  intros Hf. unfold touchLRU. destruct (touchAllKeysLRU _ _ _ _) as [e1 sh1].
  destruct (touchVolatileLRU _ _ _ _) as [e2 sh2]. simpl. unfold full. by rewrite length_putShard.
Qed.

Lemma find_touch k e s k' :
  full s -> find s k = Some e ->
  let '(e', s') := touchLRU (shardIndex k) k e s in
  find s' k = Some e' /\ core e' = core e /\ view s' k' = view s k'.
Proof.
  intros Hf He. unfold touchLRU.
  pose proof (touchAll_core (policy s) k e (shardAt (shardIndex k) s) He) as H1.
  destruct (touchAllKeysLRU _ _ _ _) as [e1 sh1]. destruct H1 as (H1 & Hc1 & Hs1).
  pose proof (touchVol_core (policy s) k e1 sh1 H1) as H2.
  destruct (touchVolatileLRU _ _ _ _) as [e2 sh2]. destruct H2 as (H2 & Hc2 & Hs2).
  assert (sameCore k (sh_m (shardAt (shardIndex k) s)) (sh_m sh2)) as [Ha Hb] by by etransitivity.
  split; [|split; [congruence|]].
  - unfold find. by rewrite shardAt_put by auto with cache.
  - unfold view, find. destruct (decide (shardIndex k' = shardIndex k)) as [Hi|Hi].
    + rewrite Hi, shardAt_put by auto with cache.
      destruct (decide (k' = k)) as [->|Hne]; [done|]. by rewrite Hb.
    + by rewrite shardAt_put_ne by done.
Qed.
