(* ===== verification/StoreInvOps.v ===== *)
(** * Every operation keeps a store invariant, whatever the other goroutines do in its windows.

    The operations are proved once against the interface [StoreInv]; the invariants of
    StoreWf.v are its instances. *)

From S2P Require Import Prelude GoInt GoStr GoTime GoSort Config StoreBase Eviction StoreString.
From S2P Require Import StoreHash StoreList StoreSet StoreKeys StoreOps StoreHoare StoreView.

Lemma h_seq (I : Store -> Prop) {A B} (P P' : Store -> Prop) (m : M A) (f : A -> M B) R Q :
  hoare I P' m R -> (forall s, I s -> P s -> P' s) -> (forall a, hoare I (R a) (f a) Q) ->
  hoare I P (m ≫= f) Q.
Proof. intros Hm HP Hf. eapply h_bind; [|exact Hf]. eapply h_weaken; eauto. Qed.

(** [hbind L]: run the first step of the operation by lemma [L]. *)
Ltac hbind L := eapply h_bind; [apply L | intros ?; cbv beta].

(** [hret]: the operation returns here. *)
Ltac hret := match goal with |- hoare _ _ (mret _) _ => by apply h_ret end.

(** [hcases]: split on the tests between two steps, closing the branches that return. *)
Ltac hcases :=
  repeat first
    [ match goal with |- hoare _ _ (mret _) _ => by apply h_ret end
    | match goal with |- hoare _ _ (match ?x with _ => _ end) _ => destruct x eqn:? end
    | match goal with |- hoare _ _ (let _ := _ in _) _ => cbv zeta end ].

(** ** Values built by the operations *)

Lemma value_wf_string b : value_wf (VString (cloneBytes b)).
Proof. apply slice_wf_clone. Qed.

Lemma value_wf_clone v : value_wf (cloneValue v).
Proof.
  destruct v; simpl; auto using slice_wf_clone.
  - intros k b. rewrite lookup_fmap. intros (c & _ & ->)%fmap_Some. apply slice_wf_clone.
  - apply Forall_map, Forall_true. intros b. apply slice_wf_clone.
Qed.

Lemma value_wf_format n : value_wf (VString (Some (FormatInt n))).
Proof.
  simpl. unfold slice_wf, cloneBytes. simpl.
  destruct (FormatInt n) as [|c r] eqn:E; [|done].
  unfold FormatInt in E. destruct (n <? 0); [done|]. by destruct (FormatUint_cons n) as (?&?&?); congruence.
Qed.

Lemma slice_wf_format n : slice_wf (Some (FormatInt n)).
Proof. apply (value_wf_format n). Qed.

Lemma fresh_new v at_ : value_wf v -> fresh (newEntry v at_).
Proof. by split. Qed.

#[export] Hint Resolve value_wf_string value_wf_clone value_wf_format fresh_new : cache.

Section ops.
Context (I : Store -> Prop) `{StoreInv I} `{MapOrder}.

(** ** Primitive steps *)

Lemma inv_purge s i k e : I s -> sh_m (shardAt i s) !! k = Some e -> I (purgeEntryLocked i k e s).
Proof. intros HI Hk. by apply (evict_purge (avoid:=EmptyString) (ttlOnly:=false)). Qed.

Lemma inv_cursor s n : I s -> I (setCursor n s).
Proof. apply (evict_cursor (avoid:=EmptyString) (ttlOnly:=false)). Qed.

Lemma h_ensure k delta P :
  hoare I P (ensureMemoryWithRetry k delta) (fun r s => fst r = false -> P s).
Proof. by apply (h_ensureMemory k false I). Qed.

Lemma h_purge k e : hoare I (fun s => find s k = Some e) (purge k e) (fun _ s => find s k = None).
Proof.
  apply h_modify. intros s HI Hk. split; [by apply inv_purge|]. apply find_purge_eq. by apply inv_len.
Qed.

Lemma h_fetch k P : hoare I P (fetch k) (fun o s => find s k = o).
Proof.
  unfold fetch. hbind h_lookup. destruct a as [e|].
  - hbind h_isExpired. destruct a.
    + eapply h_seq; [apply (h_purge k e)|by intros s _ [_ <-]|]. intros []. by apply h_ret.
    + apply h_ret. by intros s _ [_ <-].
  - apply h_ret. by intros s _ [_ <-].
Qed.

Lemma h_replace k old ne :
  fresh ne -> hoare I (fun s => replaces s k old) (replace k old ne) T.
Proof. intros Hf. apply h_modify. intros s HI Hr. split; [by apply inv_replace|done]. Qed.

Lemma h_touch k e :
  hoare I (fun s => find s k = Some e) (touch k e) (fun e' s => find s k = Some e' /\ core e' = core e).
Proof.
  intros st a st' Heq HI Hs Hk. unfold touch in Heq.
  pose proof (find_touch k e (db st) k (inv_len _ HI) Hk) as Ht.
  pose proof (inv_touch _ _ _ HI Hk) as HI'.
  destruct (touchLRU _ _ _ _) as [e' s']. injection Heq as <- <-. simpl in *.
  destruct Ht as (? & ? & _). split; [done|]. split; [by apply fewer_same|done].
Qed.

Lemma h_touch_ k e P : (forall s, I s -> P s -> find s k = Some e) -> hoare I P (touch k e) T.
Proof. intros HP. eapply h_weaken; [apply h_touch|done|done]. Qed.

Lemma h_tick k e : hoare I (fun s => find s k = Some e) nextReadTick (fun _ s => find s k = Some e).
Proof. intros st a st' [= <- <-] HI Hs HP. split; [by apply inv_tick|]. split; [by apply fewer_same|done]. Qed.

Lemma h_reserve {A} k delta old ne (r : A) :
  fresh ne -> hoare I (fun s => replaces s k old) (reserveAndReplace k delta old ne r) T.
Proof.
  intros Hne. unfold reserveAndReplace. hbind h_ensure.
  destruct a as [[] [err|]]; try by apply h_ret.
  - hbind h_lookup. eapply h_seq; [by apply h_replace| |intros []; by apply h_ret].
    intros s _ [_ ->]. by apply replaces_find.
  - eapply h_seq; [by apply h_replace| |intros []; by apply h_ret]. simpl. auto.
Qed.

Lemma h_mmap {A B} (f : A -> B) (m : M A) P : hoare I P m T -> hoare I P (mmap f m) T.
Proof. intros Hm. eapply h_bind; [exact Hm|]. intros a. by apply h_ret. Qed.

(** The entry of a fetch is well formed. *)
Lemma fetched_wf k e s : I s -> find s k = Some e -> value_wf (e_value e).
Proof. apply inv_value. Qed.
End ops.

(** [hreplace]: the operation ends by replacing the entry it fetched. *)
Ltac hreplace :=
  eapply h_seq; [apply h_replace; auto with cache
                | intros ???; simpl in *; auto using replaces_find
                | intros []; by apply h_ret].

Section strings.
Context (I : Store -> Prop) `{StoreInv I} `{MapOrder}.

Lemma h_Get k P : hoare I P (Get k) T.
Proof.
  unfold Get. hbind (h_fetch I k). destruct a as [e|]; [|by apply h_ret].
  destruct (e_value e); try by apply h_ret. hbind h_gets. destruct (_ || _).
  - eapply h_bind; [apply (h_touch_ I); by intros s _ [? _]|intros; by apply h_ret].
  - eapply h_seq; [apply (h_tick I)|by intros s _ [? _]|]. intros t. cbv beta.
    destruct (_ =? _); [|by apply h_ret].
    eapply h_bind; [by apply (h_touch_ I)|intros; by apply h_ret].
Qed.

Lemma h_setLocked k v at_ nx xx P : hoare I P (setLocked k v at_ nx xx) T.
Proof.
  unfold setLocked. hbind (h_fetch I k). do 2 (destruct (_ && _); [by apply h_ret|]).
  hbind (h_ensure I). destruct a0 as [[] [err|]]; try by apply h_ret.
  - hbind (h_fetch I k). do 2 (destruct (_ && _); [by apply h_ret|]). hreplace.
  - hreplace.
Qed.

Lemma h_SetNX k v at_ P : hoare I P (SetNX k v at_) T.
Proof.
  unfold SetNX. hbind (h_fetch I k). destruct a; [by apply h_ret|].
  hbind (h_ensure I). destruct a as [[] [err|]]; try by apply h_ret.
  - hbind (h_fetch I k). destruct a; [by apply h_ret|]. hreplace.
  - hreplace.
Qed.

Lemma h_SetXX k v at_ P : hoare I P (SetXX k v at_) T.
Proof.
  unfold SetXX. hbind (h_fetch I k). destruct a; [|by apply h_ret].
  hbind (h_ensure I). destruct a as [[] [err|]]; try by apply h_ret.
  - hbind (h_fetch I k). destruct a; [|by apply h_ret]. hreplace.
  - hreplace.
Qed.

(** The tail of the operations that clone, reserve and replace. *)
Lemma h_reserve_ {A} k delta old ne (r : A) (P : Store -> Prop) :
  fresh ne -> (forall s, I s -> P s -> find s k = old) ->
  hoare I P (reserveAndReplace k delta old ne r) T.
Proof.
  intros Hne HP. eapply h_weaken; [by apply (h_reserve I)| |done].
  intros s HI Hp. by apply replaces_find, HP.
Qed.

Lemma h_GetSet k v at_ P : hoare I P (GetSet k v at_) T.
Proof.
  unfold GetSet. hbind (h_fetch I k). destruct a as [o|]; [destruct (e_value o)|];
    first [by apply h_ret | apply h_reserve_; auto with cache].
Qed.

Lemma h_MGet ks P : hoare I P (MGet ks) T.
Proof.
  unfold MGet. revert P. induction ks as [|k ks IH]; intros P; simpl; [by apply h_ret|].
  hbind h_yield. hbind h_Get. destruct a0; [by apply h_ret|].
  hbind IH. destruct a0; by apply h_ret.
Qed.

Lemma h_MSet ps P : hoare I P (MSet ps) T.
Proof.
  unfold MSet. eapply h_bind with (R := T).
  { unfold sortedKeys. eapply h_bind; [apply h_ranged|]. intros; by apply h_ret. }
  intros ks. generalize (T (A:=list string) ks). induction ks as [|k ks IH]; intros P'; simpl;
    [by apply h_ret|].
  hbind h_yield. hbind h_setLocked. destruct a0; [by apply h_ret|]. apply IH.
Qed.

Lemma h_anyLive ks P : hoare I P (anyLive ks) (fun _ => P).
Proof.
  revert P. induction ks as [|k ks IH]; intros P; simpl; [by apply h_ret|].
  eapply h_bind; [apply h_lookup|]. intros [e|]; cbv beta.
  - eapply h_bind; [apply h_isExpired|]. intros [].
    + eapply h_weaken; [apply (IH P)|by intros s _ [? _]|done].
    + apply h_ret. by intros s _ [? _].
  - eapply h_weaken; [apply (IH P)|by intros s _ [? _]|done].
Qed.

Lemma h_purgeExpired kvs d P : hoare I P (purgeExpired kvs d) T.
Proof.
  revert d P. induction kvs as [|[k v] kvs IH]; intros d P; simpl; [by apply h_ret|].
  hbind (h_fetch I k). apply IH.
Qed.

Lemma h_storeAll kvs P : hoare I P (storeAll kvs) T.
Proof.
  revert P. induction kvs as [|[k v] kvs IH]; intros P; simpl; [by apply h_ret|].
  hbind (h_fetch I k). eapply h_seq; [apply h_replace; auto with cache| |intros; apply IH].
  intros s _ Hf. by apply replaces_find.
Qed.

Lemma h_MSetNX ps P : hoare I P (MSetNX ps) T.
Proof.
  unfold MSetNX. destruct (bool_decide _); [by apply h_ret|].
  eapply h_bind with (R := T).
  { unfold acquireShardsInOrder. eapply h_bind; [apply h_ranged|]. intros; by apply h_ret. }
  intros locks. hbind h_ranged. hbind h_anyLive. destruct a0; [by apply h_ret|].
  hbind h_ranged. hbind h_purgeExpired. hbind (h_evictUntilFits I).
  destruct a2; [by apply h_ret|]. hbind h_yield. hbind h_ranged. hbind h_anyLive.
  destruct a4; [by apply h_ret|]. hbind h_ranged. hbind h_storeAll. by apply h_ret.
Qed.
End strings.

Section hashes.
Context (I : Store -> Prop) `{StoreInv I} `{MapOrder}.

Lemma h_readHash opn k P : hoare I P (readHash opn k) T.
Proof.
  unfold readHash. hbind (h_fetch I k). destruct a as [e|]; [|by apply h_ret].
  destruct (e_value e); try by apply h_ret.
  eapply h_bind; [by apply (h_touch_ I)|intros; by apply h_ret].
Qed.

Lemma h_writeHash opn k P :
  hoare I P (writeHash opn k) (fun r s =>
    match r with
    | inr (old, h) => find s k = old /\ value_wf (VHash h)
    | inl _ => True
    end).
Proof.
  unfold writeHash. hbind (h_fetch I k). destruct a as [e|]; [|by apply h_ret].
  destruct (e_value e) eqn:E; try by apply h_ret. apply h_ret.
  intros s HI Hf. split; [done|]. rewrite <- E. by apply (inv_value s k).
Qed.

Lemma h_storeHash {A} k old h (r : A) :
  value_wf (VHash h) -> hoare I (fun s => find s k = old) (storeHash k old h r) T.
Proof. intros Hh. apply h_reserve_; auto with cache. Qed.

(** The write operations on a hash: any well-formed hash may be stored. *)
Lemma h_hash_write {A} opn k (f : option entry -> gmap string slice -> M (res A)) P :
  (forall old h, value_wf (VHash h) -> hoare I (fun s => find s k = old) (f old h) T) ->
  hoare I P (r ← writeHash opn k; match r with inl err => mret (inl err) | inr (old, h) => f old h end) T.
Proof.
  intros Hf. hbind h_writeHash. destruct a as [|[old h]]; [by apply h_ret|].
  apply (h_pure I (value_wf (VHash h))); [by intros s _ [_ ?]|]. intros Hh.
  eapply h_weaken; [by apply Hf|by intros s _ [? _]|done].
Qed.

Lemma value_wf_insert h f b : value_wf (VHash h) -> slice_wf b -> value_wf (VHash (<[f := b]> h)).
Proof. intros Hh Hb. simpl. by apply map_Forall_insert_2. Qed.

Lemma h_HSet k ps P : hoare I P (HSet k ps) T.
Proof.
  unfold HSet. destruct (bool_decide _); [by apply h_ret|].
  apply h_hash_write. intros old h Hh. apply h_storeHash. simpl.
  apply map_Forall_union_2; [|done]. apply map_Forall_fmap. intros f b _. apply slice_wf_clone.
Qed.

Lemma h_HSetNX k f v P : hoare I P (HSetNX k f v) T.
Proof.
  apply h_hash_write. intros old h Hh. destruct (h !! f); [by apply h_ret|].
  apply h_storeHash, value_wf_insert; auto using slice_wf_clone.
Qed.

Lemma h_HIncrBy k f n P : hoare I P (HIncrBy k f n) T.
Proof.
  apply h_hash_write. intros old h Hh. destruct (readInt _); [by apply h_ret|].
  destruct (addInt64 _ _) as [next []]; [|by apply h_ret].
  apply h_storeHash, value_wf_insert; auto using slice_wf_format.
Qed.

Lemma h_HDel k fs P : hoare I P (HDel k fs) T.
Proof.
  unfold HDel. hbind (h_fetch I k). destruct a as [e|]; [|by apply h_ret].
  destruct (e_value e) eqn:E; try by apply h_ret.
  destruct (deleteFields h fs 0) as [h' n] eqn:Hd.
  destruct (bool_decide _).
  { eapply h_bind; [apply (h_purge I)|intros []; by apply h_ret]. }
  apply (h_pure I (value_wf (VHash h))).
  { intros s HI Hf. rewrite <- E. by apply (inv_value s k). }
  intros Hh. assert (value_wf (VHash h')) as Hh'.
  { clear -Hd Hh. revert h n Hd Hh. generalize 0. induction fs as [|f fs IH]; intros c h n; simpl.
    - by intros [= <- <-].
    - destruct (h !! f); intros Hd Hh; eapply IH; eauto. simpl. by apply map_Forall_delete. }
  hreplace.
Qed.

(** The read operations: a prologue and a pure result. *)
Lemma h_read {A B} (m : M A) (f : A -> M B) P :
  (forall P, hoare I P m T) -> (forall a P, hoare I P (f a) T) -> hoare I P (m ≫= f) T.
Proof. intros Hm Hf. eapply h_bind; [apply Hm|]. intros a. apply Hf. Qed.

Ltac hread := apply h_read; [apply h_readHash|]; intros ??; hcases.

Lemma h_HGet k f P : hoare I P (HGet k f) T.
Proof. hread. Qed.
Lemma h_HGetAll k P : hoare I P (HGetAll k) T.
Proof. hread. Qed.
Lemma h_HExists k f P : hoare I P (HExists k f) T.
Proof. hread. Qed.
Lemma h_HLen k P : hoare I P (HLen k) T.
Proof. hread. Qed.
End hashes.

Section lists.
Context (I : Store -> Prop) `{StoreInv I} `{MapOrder}.

(** Operations on the list of a key. *)
Lemma h_list {A} k (none : A) (other : A) (f : entry -> list slice -> M A) P :
  (forall e l, e_value e = VList l -> Forall slice_wf l ->
     hoare I (fun s => find s k = Some e) (f e l) T) ->
  hoare I P (o ← fetch k;
             match o with
             | None => mret none
             | Some e => match e_value e with VList l => f e l | _ => mret other end
             end) T.
Proof.
  intros Hf. hbind (h_fetch I k). destruct a as [e|]; [|by apply h_ret].
  destruct (e_value e) as [| |l|] eqn:E; try by apply h_ret.
  apply (h_pure I (Forall slice_wf l)); [|by auto].
  intros s HI Hk. change (value_wf (VList l)). rewrite <- E. by apply (inv_value s k).
Qed.

(** A touch, then the rest with the touched entry. *)
Lemma h_touched {A} k e (f : entry -> M A) :
  (forall e', core e' = core e -> hoare I (fun s => find s k = Some e') (f e') T) ->
  hoare I (fun s => find s k = Some e) (e ← touch k e; f e) T.
Proof.
  intros Hf. hbind (h_touch I). apply (h_pure I (core a = core e)); [by intros s _ [_ ?]|].
  intros Hc. eapply h_weaken; [by apply Hf|by intros s _ [? _]|done].
Qed.

Lemma pushVals_wf left l vs : Forall slice_wf l -> Forall slice_wf (pushVals left l vs).
Proof.
  unfold pushVals. revert l. induction vs as [|v vs IH]; intros l Hl; simpl; [done|]. apply IH.
  destruct left; [by constructor; [apply slice_wf_clone|]|].
  apply Forall_app. split; [done|]. constructor; [apply slice_wf_clone|done].
Qed.

Lemma h_LLen k P : hoare I P (LLen k) T.
Proof. apply h_list. intros. by apply h_ret. Qed.

Lemma h_listPush k vs left P : hoare I P (listPush k vs left) T.
Proof.
  unfold listPush. destruct (bool_decide _); [apply h_LLen|].
  hbind (h_fetch I k). destruct a as [e|].
  - destruct (e_value e) as [| |l|] eqn:E; try by apply h_ret.
    apply (h_pure I (Forall slice_wf l)).
    { intros s HI Hk. change (value_wf (VList l)). rewrite <- E. by apply (inv_value s k). }
    intros Hl. apply (h_reserve_ I); [|done]. apply fresh_new. by apply pushVals_wf.
  - apply (h_reserve_ I); [|done]. apply fresh_new. by apply pushVals_wf.
Qed.

Lemma h_listPushX k vs left P : hoare I P (listPushX k vs left) T.
Proof.
  unfold listPushX. destruct (bool_decide _); [apply h_LLen|]. apply h_list.
  intros e l He Hl. apply (h_reserve_ I); [|done]. apply fresh_new. by apply pushVals_wf.
Qed.

Lemma insertAt_wf before p ins i l :
  slice_wf ins -> Forall slice_wf l -> Forall slice_wf (insertAt before p ins i l).
Proof.
  intros Hi Hl. revert i. induction Hl as [|x l Hx Hl IH]; intros i; simpl; [done|].
  apply Forall_app; split; [by destruct (_ && _); repeat constructor|].
  constructor; [done|]. apply Forall_app; split; [by destruct (_ && _); repeat constructor|done].
Qed.

Lemma h_LInsert k before p v P : hoare I P (LInsert k before p v) T.
Proof.
  apply h_list. intros e l He Hl. apply h_touched. intros e' Hc.
  destruct (pivotIndex _ _); [|by apply h_ret].
  apply (h_reserve_ I); [|done]. apply fresh_new. apply insertAt_wf; [apply slice_wf_clone|done].
Qed.

Lemma copyRange_wf l i a b : Forall slice_wf (copyRange l i a b).
Proof.
  revert i. induction l as [|x l IH]; intros i; simpl; [done|].
  destruct (_ && _); [|done]. constructor; [apply slice_wf_clone|done].
Qed.

Lemma h_LRange k a b P : hoare I P (LRange k a b) T.
Proof. apply h_list. intros e l He Hl. apply h_touched. intros e' Hc. hcases. Qed.

Lemma h_LIndex k i P : hoare I P (LIndex k i) T.
Proof. apply h_list. intros e l He Hl. apply h_touched. intros e' Hc. hcases. Qed.

Lemma h_LTrim k a b P : hoare I P (LTrim k a b) T.
Proof.
  apply h_list. intros e l He Hl. apply h_touched. intros e' Hc.
  destruct (_ =? 0); [by apply h_ret|]. cbv zeta. destruct (_ >? _).
  { eapply h_bind; [apply (h_purge I)|intros []; by apply h_ret]. }
  destruct (bool_decide _).
  { eapply h_bind; [apply (h_purge I)|intros []; by apply h_ret]. }
  eapply h_seq; [apply (h_replace I), fresh_new, copyRange_wf| |intros []; by apply h_ret].
  intros s _ Hk. by apply replaces_find.
Qed.

Lemma h_LSet k i v P : hoare I P (LSet k i v) T.
Proof.
  apply h_list. intros e l He Hl. cbv zeta. destruct (_ && _); [by apply h_ret|].
  destruct (_ || _); [by apply h_ret|]. destruct (listElemAt _ _) as [b|]; [|by apply h_ret].
  eapply h_seq; [apply (h_replace I), fresh_new| |intros []; by apply h_ret].
  - simpl. apply Forall_insert; [done|apply slice_wf_clone].
  - intros s _ Hk. unfold replaces. rewrite Hk. split; [done|]. split; [done|].
    unfold estimateMem. simpl. rewrite He. simpl. by rewrite length_insert.
Qed.
End lists.

Section sets.
Context (I : Store -> Prop) `{StoreInv I} `{MapOrder}.

Lemma h_readSet opn k P : hoare I P (readSet opn k) T.
Proof.
  unfold readSet. hbind (h_fetch I k). destruct a as [e|]; [|by apply h_ret].
  destruct (e_value e); try by apply h_ret.
  eapply h_bind; [by apply (h_touch_ I)|intros; by apply h_ret].
Qed.

Lemma h_SIsMember k m P : hoare I P (SIsMember k m) T.
Proof. apply h_read; [apply h_readSet|]. intros ??; hcases. Qed.
Lemma h_SCard k P : hoare I P (SCard k) T.
Proof. apply h_read; [apply h_readSet|]. intros ??; hcases. Qed.
Lemma h_SMembers k P : hoare I P (SMembers k) T.
Proof.
  apply h_read; [apply h_readSet|]. intros ??; hcases.
  eapply h_bind; [apply h_ranged|]. intros. by apply h_ret.
Qed.

Lemma h_SRem k ms P : hoare I P (SRem k ms) T.
Proof.
  unfold SRem. hbind (h_fetch I k). destruct a as [e|]; [|by apply h_ret].
  destruct (e_value e) eqn:E; try by apply h_ret.
  destruct (delMembers st ms 0) as [st' n]. destruct (bool_decide _).
  - eapply h_bind; [apply (h_purge I)|intros []; by apply h_ret].
  - eapply h_seq; [by apply (h_replace I), fresh_new| |intros []; by apply h_ret].
    intros s _ Hk. by apply replaces_find.
Qed.

Lemma h_SAdd k ms P : hoare I P (SAdd k ms) T.
Proof.
  unfold SAdd. destruct (bool_decide _); [by apply h_ret|]. hbind (h_fetch I k).
  cbv zeta. destruct a as [e|]; [destruct (e_value e); try by apply h_ret|];
    destruct (addMembers _ ms 0) as [st' n]; apply (h_reserve_ I); auto with cache; done.
Qed.

Lemma h_ReplaceSet k ms P : hoare I P (ReplaceSet k ms) T.
Proof.
  unfold ReplaceSet. hbind (h_fetch I k).
  eapply h_bind; [apply (h_reserve_ I); [by apply fresh_new|done]|]. intros r. by apply h_ret.
Qed.
End sets.

Section keys.
Context (I : Store -> Prop) `{StoreInv I} `{MapOrder}.

Lemma h_delLoop ks n P : hoare I P (delLoop ks n) T.
Proof.
  revert n P. induction ks as [|k ks IH]; intros n P; simpl; [by apply h_ret|].
  hbind h_yield. hbind (h_fetch I k). destruct a0 as [e|]; [|apply IH].
  eapply h_bind; [apply (h_purge I)|intros; apply IH].
Qed.

Lemma h_existsLoop ks n P : hoare I P (existsLoop ks n) T.
Proof.
  revert n P. induction ks as [|k ks IH]; intros n P; simpl; [by apply h_ret|].
  hbind h_yield. hbind (h_fetch I k). destruct a0 as [e|]; apply IH.
Qed.

Lemma h_Type k P : hoare I P (Type_ k) T.
Proof. unfold Type_. hbind (h_fetch I k). by apply h_ret. Qed.

Lemma h_ExpireAt k at_ P : hoare I P (ExpireAt k at_) T.
Proof. unfold ExpireAt. hbind (h_fetch I k). destruct a as [e|]; [|by apply h_ret]. hreplace. Qed.

Lemma h_Expire k n P : hoare I P (Expire k n) T.
Proof.
  unfold Expire. destruct (_ <=? _); [by apply h_ret|]. hbind h_now. hbind h_yield. apply h_ExpireAt.
Qed.

Lemma h_ttlWith u k P : hoare I P (ttlWith u k) T.
Proof.
  unfold ttlWith. hbind (h_fetch I k). destruct a as [e|]; [|by apply h_ret].
  destruct (IsZero _); [by apply h_ret|]. hbind h_now. cbv zeta. destruct (_ <=? _); [|by apply h_ret].
  eapply h_bind; [apply (h_purge I)|intros []; by apply h_ret].
Qed.

Lemma h_Persist k P : hoare I P (Persist k) T.
Proof.
  unfold Persist. hbind (h_fetch I k). destruct a as [e|]; [|by apply h_ret].
  destruct (IsZero _); [by apply h_ret|]. hreplace.
Qed.

Lemma h_liveEntries kvs P : hoare I P (liveEntries kvs) (fun _ => P).
Proof.
  revert P. induction kvs as [|[k e] kvs IH]; intros P; simpl; [by apply h_ret|].
  hbind h_isExpired. hbind IH. by apply h_ret.
Qed.

Lemma h_scanShards n si P : hoare I P (scanShards n si) T.
Proof.
  revert si P. induction n as [|n IH]; intros si P; simpl; [by apply h_ret|].
  hbind h_yield. hbind h_gets. hbind h_ranged. hbind h_liveEntries. hbind IH. by apply h_ret.
Qed.

Lemma h_Keys p P : hoare I P (Keys p) T.
Proof. unfold Keys. hbind h_scanShards. by apply h_ret. Qed.
Lemma h_DBSize P : hoare I P DBSize T.
Proof. unfold DBSize. hbind h_scanShards. by apply h_ret. Qed.
Lemma h_ExpireKeyCount P : hoare I P ExpireKeyCount T.
Proof. unfold ExpireKeyCount. hbind h_scanShards. by apply h_ret. Qed.

Lemma h_statsLoop n si P : hoare I P (statsLoop n si) T.
Proof.
  revert si P. induction n as [|n IH]; intros si P; simpl; [by apply h_ret|].
  hbind h_yield. hbind h_gets. hbind IH. by apply h_ret.
Qed.

Lemma h_filterType t ks P : hoare I P (filterType t ks) T.
Proof.
  revert P. induction ks as [|k ks IH]; intros P; simpl; [by apply h_ret|].
  hbind h_yield. hbind h_Type. hbind IH. by apply h_ret.
Qed.

Lemma h_Scan c m n t P : hoare I P (Scan c m n t) T.
Proof.
  unfold Scan. hbind h_Keys. eapply h_bind with (R := T); [|intros; by apply h_ret].
  destruct (sempty t); [by apply h_ret|apply h_filterType].
Qed.

End keys.

Section snapshots.
Context (I : Store -> Prop) `{StoreInv I} `{MapOrder}.

Lemma h_build k e P : hoare I P (buildSnapshotEntry k e) (fun _ => P).
Proof.
  unfold buildSnapshotEntry. eapply h_bind with (R := fun _ => P).
  - unfold snapTTL. destruct (IsZero _); [by apply h_ret|]. hbind h_now. by apply h_ret.
  - intros ttl. destruct (e_value e); try by apply h_ret.
    hbind h_ranged. apply h_ret. by intros s _ [? _].
Qed.

Lemma h_snapBatch kvs P : hoare I P (snapBatch kvs) (fun _ => P).
Proof.
  revert P. induction kvs as [|[k e] kvs IH]; intros P; simpl; [by apply h_ret|].
  hbind h_isExpired. destruct a; [apply IH|]. hbind h_build. hbind IH. by apply h_ret.
Qed.

Lemma h_snapShards n si P : hoare I P (snapShards n si) T.
Proof.
  revert si P. induction n as [|n IH]; intros si P; simpl; [by apply h_ret|].
  hbind h_yield. hbind h_gets. hbind h_ranged. hbind h_snapBatch. hbind IH. by apply h_ret.
Qed.

Lemma snapValue_wf ent v : snapValue ent = Some v -> value_wf v.
Proof.
  unfold snapValue. repeat split_goal; intros [= <-]; simpl; auto using slice_wf_clone.
  - apply map_Forall_fmap. intros f b _. apply slice_wf_clone.
  - apply Forall_map, Forall_true. intros b. apply slice_wf_clone.
Qed.

Lemma h_applySnapshotEntry ent P : hoare I P (applySnapshotEntry ent) T.
Proof.
  unfold applySnapshotEntry. eapply h_bind with (R := T).
  { destruct (_ >? _); [|by apply h_ret]. hbind h_now. by apply h_ret. }
  intros at_. destruct (snapValue ent) as [v|] eqn:E; [|by apply h_ret]. cbv zeta.
  hbind (h_ensure I). destruct a as [ev [err|]]; [by apply h_ret|]. hbind h_lookup.
  eapply h_seq; [apply (h_replace I), fresh_new; by eapply snapValue_wf| |intros []; by apply h_ret].
  intros s _ [_ ->]. by apply replaces_find.
Qed.

(** Active expiry. *)
Lemma h_sampleLoop si ks a b P : hoare I P (sampleLoop si ks a b) T.
Proof.
  revert a b P. induction ks as [|k ks IH]; intros a b P; simpl; [by apply h_ret|].
  hbind h_gets. destruct (sh_m a0 !! k) as [e|] eqn:E; [|apply IH]. hbind h_isExpired.
  destruct a1; [|apply IH]. eapply h_bind; [|intros; apply IH].
  eapply h_weaken; [by apply (h_purgeAt EmptyString false I (fun _ => True))| |done]. intros s _ [_ Hsh]. by subst a0.
Qed.

Lemma h_sampleOnce si P : hoare I P (sampleOnceShard si) T.
Proof.
  unfold sampleOnceShard. hbind h_yield. hbind h_gets. destruct (bool_decide _); [by apply h_ret|].
  eapply h_bind with (R := T); [|intros; apply h_sampleLoop].
  unfold randomSampleKeys. destruct (bool_decide _); [by apply h_ret|]. hbind h_ranged. by apply h_ret.
Qed.

Lemma h_resample si m P : hoare I P (resample si m) T.
Proof.
  revert P. induction m as [|m IH]; intros P; simpl; [by apply h_ret|].
  hbind h_sampleOnce. destruct a as [x c]. destruct (c =? 0); [by apply h_ret|].
  destruct (quarterOrLess x c); [by apply h_ret|apply IH].
Qed.

Lemma h_sampleAll P : hoare I P sampleAllShards T.
Proof.
  unfold sampleAllShards. generalize 0%nat, NumShards. intros si n. revert si P.
  induction n as [|n IH]; intros si P; cbn [sampleShards]; [by apply h_ret|].
  eapply h_bind; [apply h_resample|intros; apply IH].
Qed.
End snapshots.

(** ** The operations that drop keys or versions without a bump *)

Section quiet.
Context (I : Store -> Prop) `{StoreInv I} `{QuietInv I} `{MapOrder}.

Lemma h_unlink src dst e :
  src <> dst ->
  hoare I (fun s => find s src = Some e /\ find s dst = None) (unlinkSrc src e)
    (fun _ s => find s dst = None).
Proof.
  intros Hne. apply h_modify. intros s HI [Hs Hd]. split; [by apply inv_unlink|]. cbv beta zeta.
  assert (full s) as Hf by by apply inv_len.
  rewrite find_addMem, find_onShard, find_onShard by auto with cache.
  rewrite shardAt_onShard by auto with cache. simpl. rewrite sh_m_removeFromLRU.
  destruct (decide (shardIndex src = shardIndex dst)) as [Hi|]; [|done].
  rewrite lookup_delete_ne by done. unfold find in Hd. by rewrite <- Hi in Hd.
Qed.

(** The end of both renames: the source goes, a copy of its entry appears at the destination. *)
Lemma h_move {A} src dst e (r : A) :
  src <> dst ->
  hoare I (fun s => find s src = Some e /\ find s dst = None)
    (_ ← unlinkSrc src e; _ ← replace dst None (cloneEntryForRename e); mret r) T.
Proof.
  intros Hne. hbind h_unlink; [done|].
  eapply h_seq; [apply (h_replace I), fresh_new, value_wf_clone| |intros []; by apply h_ret].
  intros s _ Hd. by apply replaces_find.
Qed.

(** A purge of another key leaves the entry of [src]. *)
Lemma h_purge_other src dst e d :
  src <> dst ->
  hoare I (fun s => find s src = Some e /\ find s dst = Some d) (purge dst d)
    (fun _ s => find s src = Some e /\ find s dst = None).
Proof.
  intros Hne. apply h_modify. intros s HI [Hs Hd]. split; [by apply inv_purge|].
  assert (full s) as Hf by by apply inv_len.
  by rewrite find_purge_eq, find_purge_ne by auto with cache.
Qed.

Lemma h_Rename a b P : hoare I P (Rename a b) T.
Proof.
  unfold Rename. destruct (a =? b)%string eqn:E; [by apply h_ret|]. zify_bool.
  hbind (h_fetch I a). destruct a0 as [e|]; [|by apply h_ret]. hbind h_lookup.
  eapply h_bind with (R := fun _ s => find s a = Some e /\ find s b = None).
  - destruct a0 as [d|].
    + eapply h_bind; [apply h_isExpired|]. intros x. cbv beta.
      eapply h_weaken; [by apply (h_purge_other a b e d)| |done]. by intros s _ [? <-].
    + apply h_ret. by intros s _ [? <-].
  - intros []. by apply h_move.
Qed.

Lemma h_RenameNX a b P : hoare I P (RenameNX a b) T.
Proof.
  unfold RenameNX. destruct (a =? b)%string eqn:E; [by apply h_ret|]. zify_bool.
  hbind (h_fetch I a). destruct a0 as [e|]; [|by apply h_ret].
  eapply h_bind with (R := fun d s => d = None -> find s a = Some e /\ find s b = None).
  - unfold fetch. hbind h_lookup. destruct a0 as [d|].
    + hbind h_isExpired. destruct a0; [|by apply h_ret].
      eapply h_seq; [by apply (h_purge_other a b e d)|by intros s _ [? <-]|]. intros []. by apply h_ret.
    + apply h_ret. by intros s _ [? <-].
  - intros [d|]; [by apply h_ret|]. eapply h_weaken; [by apply (h_move a b e)| |done].
    intros s _ Hd. by apply Hd.
Qed.

Lemma h_deadKeys ks P : hoare I P (deadKeys ks) T.
Proof.
  revert P. induction ks as [|k ks IH]; intros P; simpl; [by apply h_ret|].
  hbind h_yield. hbind h_lookup. hbind IH. by apply h_ret.
Qed.

Lemma h_PruneWatch P : hoare I P PruneWatch T.
Proof.
  unfold PruneWatch. hbind h_gets. hbind h_ranged. hbind h_deadKeys. hbind h_yield.
  apply h_modify. intros s HI _. split; [by apply inv_watch|done].
Qed.

(** Purging the bindings of a shard one by one; what is still to be purged stays bound. *)
Lemma purgeAll_inv i kvs s :
  (i < NumShards)%nat -> I s -> NoDup kvs.*1 ->
  Forall (fun kv => sh_m (shardAt i s) !! kv.1 = Some kv.2) kvs -> I (purgeAll i kvs s).
Proof.
  intros Hi. unfold purgeAll. revert s. induction kvs as [|[k e] kvs IH]; intros s HI Hnd Hall; simpl; [done|].
  inversion Hnd as [|?? Hk Hnd']; subst. inversion Hall as [|?? He Hall']; subst. simpl in *.
  assert (full s) as Hf by by apply inv_len.
  apply IH; [by apply inv_purge|done|]. rewrite Forall_forall in *. intros [k' e'] Hin.
  specialize (Hall' _ Hin). simpl in *. unfold purgeEntryLocked.
  rewrite shardAt_bump, shardAt_addMem, !shardAt_onShard by auto with cache. simpl.
  rewrite sh_m_removeFromLRU, lookup_delete_ne; [done|]. intros ->. apply Hk.
  apply list_elem_of_fmap. by exists (k', e').
Qed.

Lemma h_flushShards n si P : (n + si <= NumShards)%nat -> hoare I P (flushShards n si) T.
Proof.
  revert si P. induction n as [|n IH]; intros si P Hn; simpl; [by apply h_ret|].
  hbind h_yield. hbind h_gets. hbind h_ranged.
  eapply h_bind with (R := T); [|intros; apply IH; lia].
  apply h_modify. intros s HI [[_ ->] Hp]. split; [|done].
  apply purgeAll_inv; [lia|done| |].
  - rewrite Hp. apply NoDup_fst_map_to_list.
  - rewrite Hp. apply Forall_forall. intros [k e]. by rewrite elem_of_map_to_list.
Qed.

Lemma h_FlushDB P : hoare I P FlushDB T.
Proof.
  unfold FlushDB. eapply h_bind; [by apply h_flushShards|]. intros []. hbind h_yield.
  apply h_modify. intros s HI _. split; [by apply inv_watch|done].
Qed.
Lemma h_ApplySnapshot l P : hoare I P (ApplySnapshot l) T.
Proof.
  unfold ApplySnapshot. eapply h_bind; [apply h_FlushDB|]. intros [].
  generalize (T (A:=unit) tt). induction l as [|ent l IH]; intros P'; simpl; [by apply h_ret|].
  hbind h_yield. hbind (h_applySnapshotEntry I). destruct a0; [by apply h_ret|apply IH].
Qed.

End quiet.
