(* ===== verification/StoreWf.v ===== *)
(** * Well-formedness of the store.

    Every key sits in the shard its hash selects; the LRU lists hold each key once and exactly the
    keys whose entry points into them; only keys with an expiry are in the volatile list; values
    have the shape their operations build; the byte counter is not negative. *)

From S2P Require Import Prelude GoInt GoStr GoTime GoSort Config StoreBase Eviction StoreString.
From S2P Require Import StoreHash StoreList StoreSet StoreKeys StoreOps StoreHoare StoreView.
From S2P Require Import StoreInvOps.

(** One LRU list of a shard, with the element map and the entry field that go with it. *)
Record lru_wf (lst : list string) (elems : gset string) (flag : entry -> bool)
    (m : gmap string entry) : Prop := mkLruWf {
  lru_nodup : NoDup lst;
  lru_elems : forall k, k ∈ lst <-> k ∈ elems;
  lru_flag : forall k, k ∈ elems <-> exists e, m !! k = Some e /\ flag e = true }.

Definition entry_wf (e : entry) : Prop :=
  value_wf (e_value e) /\ (e_volElem e = true -> hasTTL e = true).

Record shard_wf (i : nat) (sh : shard) : Prop := mkShardWf {
  swf_home : forall k e, sh_m sh !! k = Some e -> shardIndex k = i;
  swf_entry : map_Forall (fun _ => entry_wf) (sh_m sh);
  swf_all : lru_wf (allList sh) (allElems sh) e_allElem (sh_m sh);
  swf_vol : lru_wf (volList sh) (volElems sh) e_volElem (sh_m sh) }.

Record store_wf (s : Store) : Prop := mkStoreWf {
  wf_full : full s;
  wf_shard : forall i, (i < NumShards)%nat -> shard_wf i (shardAt i s);
  wf_mem : 0 <= mem s }.

(** ** One LRU list *)

Section lru.
Context (flag : entry -> bool).

Lemma lru_absent lst elems m k :
  lru_wf lst elems flag m -> m !! k = None -> k ∉ elems /\ k ∉ lst.
Proof.
  intros [_ He Hf] Hk. assert (k ∉ elems) as Hn by (rewrite Hf; intros (e & ? & _); congruence).
  split; [done|]. by rewrite He.
Qed.

(** Removing a key whose entry is in the list. *)
Lemma lru_drop lst elems m k :
  lru_wf lst elems flag m -> lru_wf (listRemove k lst) (elems ∖ {[ k ]}) flag (delete k m).
Proof.
  intros [Hn He Hf]. split.
  - by apply NoDup_filter.
  - intros k'. unfold listRemove. rewrite list_elem_of_filter. set_solver.
  - intros k'. rewrite elem_of_difference, elem_of_singleton, Hf. split.
    + intros [(e & Hm & ?) Hne]. exists e. by rewrite lookup_delete_ne.
    + intros (e & [Hne Hm]%lookup_delete_Some & ?). split; [by exists e|done].
Qed.

(** Removing a key whose entry is not in the list leaves the list alone. *)
Lemma lru_keep lst elems m k e :
  lru_wf lst elems flag m -> m !! k = Some e -> flag e = false -> lru_wf lst elems flag (delete k m).
Proof.
  intros [Hn He Hf] Hk Hfl. split; [done|done|]. intros k'. rewrite Hf. split.
  - intros (e' & Hm & ?). exists e'. rewrite lookup_delete_ne; [done|]. intros ->. congruence.
  - intros (e' & [_ Hm]%lookup_delete_Some & ?). by exists e'.
Qed.

Lemma lru_delete_none lst elems m k :
  lru_wf lst elems flag m -> m !! k = None -> lru_wf lst elems flag (delete k m).
Proof. intros Hw Hk. by rewrite delete_id. Qed.

(** Binding an absent key to an entry outside the list, or pushed to its front. *)
Lemma lru_insert_off lst elems m k e :
  lru_wf lst elems flag m -> m !! k = None -> flag e = false -> lru_wf lst elems flag (<[k:=e]> m).
Proof.
  intros [Hn He Hf] Hk Hfl. split; [done|done|]. intros k'. rewrite Hf. split.
  - intros (e' & Hm & ?). exists e'. rewrite lookup_insert_ne; [done|]. intros ->. congruence.
  - intros (e' & Hm & ?). destruct (decide (k = k')) as [<-|Hne].
    + rewrite lookup_insert_eq in Hm. congruence.
    + rewrite lookup_insert_ne in Hm by done. by exists e'.
Qed.

Lemma lru_insert_on lst elems m k e :
  lru_wf lst elems flag m -> m !! k = None -> flag e = true ->
  lru_wf (k :: lst) ({[k]} ∪ elems) flag (<[k:=e]> m).
Proof.
  intros Hw Hk Hfl. destruct (lru_absent _ _ _ _ Hw Hk) as [Hel Hlst].
  destruct Hw as [Hn He Hf]. split; [by constructor|set_solver|]. intros k'.
  rewrite elem_of_union, elem_of_singleton, Hf. destruct (decide (k = k')) as [<-|Hne].
  - rewrite lookup_insert_eq. naive_solver.
  - rewrite lookup_insert_ne by done. naive_solver.
Qed.

(** Moving a listed key to the front. *)
Lemma lru_front lst elems m k :
  lru_wf lst elems flag m -> k ∈ elems -> lru_wf (moveToFront k lst) elems flag m.
Proof.
  intros [Hn He Hf] Hk. split; [| |done].
  - constructor; [|by apply NoDup_filter]. unfold listRemove. rewrite list_elem_of_filter. naive_solver.
  - intros k'. unfold moveToFront, listRemove. rewrite elem_of_cons, list_elem_of_filter.
    destruct (decide (k' = k)) as [->|]; [naive_solver|]. rewrite He. naive_solver.
Qed.

(** Entries that agree on the flag are interchangeable. *)
Lemma lru_same lst elems m m' :
  lru_wf lst elems flag m -> (forall k, flag <$> m' !! k = flag <$> m !! k) ->
  lru_wf lst elems flag m'.
Proof.
  intros [Hn He Hf] Heq. split; [done|done|]. intros k. rewrite Hf. specialize (Heq k).
  split; intros (e & Hm & Hfl); rewrite Hm in Heq; simpl in Heq.
  - destruct (m' !! k) as [e'|]; simplify_eq/=. exists e'. by split; [|congruence].
  - destruct (m !! k) as [e'|]; simplify_eq/=. exists e'. by split; [|congruence].
Qed.
End lru.

(** ** One shard *)

Lemma shard_drop i sh k e o :
  shard_wf i sh -> sh_m sh !! k = Some e -> sameElems o e ->
  shard_wf i (delEntry k (removeFromLRU k o sh)).
Proof.
  intros [Hh He Ha Hv] Hk [Hoa Hov]. unfold removeFromLRU. split.
  - intros k' e'. destruct (e_allElem o), (e_volElem o); simpl;
      intros [_ Hm]%lookup_delete_Some; eauto.
  - destruct (e_allElem o), (e_volElem o); simpl; by apply map_Forall_delete.
  - destruct (e_allElem o), (e_volElem o); simpl;
      first [by apply lru_drop | by eapply lru_keep].
  - destruct (e_allElem o), (e_volElem o); simpl;
      first [by apply lru_drop | by eapply lru_keep].
Qed.

Lemma shard_insert i sh pol k ne :
  shard_wf i sh -> sh_m sh !! k = None -> shardIndex k = i -> fresh ne ->
  shard_wf i (lruAfterSet pol k ne (putEntry k ne sh)).
Proof.
  intros [Hh He Ha Hv] Hk Hi (Hfa & Hfv & Hval).
  destruct (lru_absent _ _ _ _ _ Ha Hk) as [Hna _]. destruct (lru_absent _ _ _ _ _ Hv Hk) as [Hnv _].
  assert (forall e', core e' = core ne -> e_volElem e' = false \/ hasTTL ne = true ->
    forall m', m' = <[k:=e']> (sh_m sh) ->
    (forall k' x, m' !! k' = Some x -> shardIndex k' = i) /\ map_Forall (fun _ => entry_wf) m') as Hgen.
  { intros e' Hc Hor m' ->. split.
    - intros k' x. destruct (decide (k = k')) as [<-|]; [done|]. rewrite lookup_insert_ne by done. eauto.
    - apply map_Forall_insert_2; [|done]. injection Hc as Hcv Hct. split; [by rewrite Hcv|].
      intros Hvol. destruct Hor as [|Hor]; [congruence|]. unfold hasTTL in *. by rewrite Hct. }
  unfold lruAfterSet. cbn [allElems volElems putEntry setM].
  rewrite (bool_decide_eq_false_2 (k ∈ allElems sh)) by done.
  destruct (pol =? "allkeys-lru")%string eqn:Epol; simpl.
  - assert ((pol =? "volatile-lru")%string = false) as ->.
    { apply String.eqb_eq in Epol as ->. done. }
    unfold putEntry, setM. simpl. rewrite insert_insert_eq.
    destruct (Hgen (setAll true ne) eq_refl (or_introl Hfv) _ eq_refl) as [H1 H2].
    split; [exact H1|exact H2|by apply lru_insert_on|by apply lru_insert_off].
  - destruct (pol =? "volatile-lru")%string; [destruct (hasTTL ne) eqn:Ht|]; simpl.
    + rewrite bool_decide_eq_false_2 by done. unfold putEntry, setM. simpl. rewrite insert_insert_eq.
      destruct (Hgen (setVol true ne) eq_refl (or_intror eq_refl) _ eq_refl) as [H1 H2].
      split; [exact H1|exact H2|by apply lru_insert_off|by apply lru_insert_on].
    + rewrite Hfv. destruct (Hgen ne eq_refl (or_introl Hfv) _ eq_refl) as [H1 H2].
      split; [exact H1|exact H2|by apply lru_insert_off|by apply lru_insert_off].
    + destruct (Hgen ne eq_refl (or_introl Hfv) _ eq_refl) as [H1 H2].
      split; [exact H1|exact H2|by apply lru_insert_off|by apply lru_insert_off].
Qed.

Lemma putEntry_delEntry k e sh : putEntry k e (delEntry k sh) = putEntry k e sh.
Proof. unfold putEntry, delEntry, setM. simpl. by rewrite insert_delete_eq. Qed.

(** The old entry is replaced: out of its lists first, then the new one comes in. *)
Lemma shard_replace i sh pol k e o ne :
  shard_wf i sh -> sh_m sh !! k = Some e -> sameElems o e -> shardIndex k = i -> fresh ne ->
  shard_wf i (lruAfterSet pol k ne (putEntry k ne (removeFromLRU k o sh))).
Proof.
  intros Hsh Hk Ho Hi Hne. rewrite <- putEntry_delEntry.
  apply shard_insert; [by eapply shard_drop| |done|done]. apply lookup_delete_eq.
Qed.

(** A map that differs in the LRU pointers of one entry only. *)
Lemma shard_flag i sh k e e' :
  shard_wf i sh -> sh_m sh !! k = Some e -> core e' = core e ->
  (e_volElem e' = true -> hasTTL e = true) ->
  (forall k' x, <[k:=e']> (sh_m sh) !! k' = Some x -> shardIndex k' = i) /\
  map_Forall (fun _ => entry_wf) (<[k:=e']> (sh_m sh)).
Proof.
  intros [Hh He _ _] Hk Hc Hv. injection Hc as Hcv Hct. split.
  - intros k' x. destruct (decide (k = k')) as [<-|]; [by eauto|]. rewrite lookup_insert_ne by done. eauto.
  - apply map_Forall_insert_2; [|done]. destruct (He _ _ Hk) as [Hval _]. split; [by rewrite Hcv|].
    intros ?. unfold hasTTL in *. rewrite Hct. auto.
Qed.

Lemma lru_relabel flag lst elems m k e e' :
  lru_wf lst elems flag m -> m !! k = Some e -> flag e' = flag e -> lru_wf lst elems flag (<[k:=e']> m).
Proof.
  intros Hw Hk Hf. eapply lru_same; [exact Hw|]. intros k'.
  destruct (decide (k = k')) as [<-|]; [|by rewrite lookup_insert_ne].
  rewrite lookup_insert_eq, Hk. simpl. by rewrite Hf.
Qed.

(** Pushing, or dropping, a key that keeps its entry. *)
Lemma lru_push flag lst elems m k e e' :
  lru_wf lst elems flag m -> m !! k = Some e -> k ∉ elems -> flag e' = true ->
  lru_wf (k :: lst) ({[k]} ∪ elems) flag (<[k:=e']> m).
Proof.
  intros Hw Hk Hnk Hf. rewrite <- (insert_delete_eq m).
  apply lru_insert_on; [|apply lookup_delete_eq|done].
  eapply lru_keep; [exact Hw|exact Hk|]. destruct (flag e) eqn:E; [|done].
  destruct Hnk. apply (lru_flag _ _ _ _ Hw). eauto.
Qed.

Lemma lru_pull flag lst elems m k e e' :
  lru_wf lst elems flag m -> m !! k = Some e -> flag e' = false ->
  lru_wf (listRemove k lst) (elems ∖ {[k]}) flag (<[k:=e']> m).
Proof.
  intros Hw Hk Hf. rewrite <- (insert_delete_eq m).
  apply lru_insert_off; [by apply lru_drop|apply lookup_delete_eq|done].
Qed.

Lemma shard_touchAll i sh pol k e :
  shard_wf i sh -> sh_m sh !! k = Some e -> shard_wf i (snd (touchAllKeysLRU pol k e sh)).
Proof.
  intros Hsh Hk. pose proof Hsh as [Hh He Ha Hv]. unfold touchAllKeysLRU. destruct (negb _); [done|].
  case_bool_decide; simpl; [split; simpl; auto using lru_front|].
  destruct (shard_flag i sh k e (setAll true e) Hsh Hk eq_refl) as [H1 H2]; [apply (He _ _ Hk)|].
  split; simpl; [done|done|by eapply lru_push|by eapply lru_relabel].
Qed.

Lemma shard_touchVol i sh pol k e :
  shard_wf i sh -> sh_m sh !! k = Some e -> shard_wf i (snd (touchVolatileLRU pol k e sh)).
Proof.
  intros Hsh Hk. pose proof Hsh as [Hh He Ha Hv]. unfold touchVolatileLRU.
  destruct (negb (pol =? _)%string); [done|]. destruct (negb (hasTTL e)) eqn:Ht.
  - destruct (e_volElem e); [|done].
    destruct (shard_flag i sh k e (setVol false e) Hsh Hk eq_refl) as [H1 H2]; [done|].
    split; simpl; [done|done|by eapply lru_relabel|by eapply lru_pull].
  - apply negb_false_iff in Ht. case_bool_decide; simpl; [split; simpl; auto using lru_front|].
    destruct (shard_flag i sh k e (setVol true e) Hsh Hk eq_refl) as [H1 H2]; [done|].
    split; simpl; [done|done|by eapply lru_relabel|by eapply lru_push].
Qed.

(** ** The store *)

Lemma wf_putShard i sh s :
  store_wf s -> shard_wf i sh -> store_wf (putShard i sh s).
Proof.
  intros [Hf Hs Hm] Hsh. split; [unfold full; by rewrite length_putShard| |done].
  intros j Hj. destruct (decide (i = j)) as [<-|Hne].
  - by rewrite shardAt_put.
  - rewrite shardAt_put_ne by done. auto.
Qed.

Lemma wf_mem_only s s' : store_wf s -> shards s' = shards s -> 0 <= mem s' -> store_wf s'.
Proof.
  intros [Hf Hs Hm] He Hmem. split; [unfold full; by rewrite He| |done].
  unfold shardAt in *. by rewrite He.
Qed.

Lemma mem_addMem d s : 0 <= mem s -> 0 <= mem (addMem d s).
Proof. intros. unfold addMem. destruct (d =? 0); [done|]. simpl. destruct (_ <? 0) eqn:E; zlia. Qed.

Lemma wf_addMem d s : store_wf s -> store_wf (addMem d s).
Proof.
  intros Hs. eapply wf_mem_only; [exact Hs|apply shards_addMem|]. apply mem_addMem, Hs.
Qed.

Lemma wf_home s i k e : store_wf s -> sh_m (shardAt i s) !! k = Some e -> (i < NumShards)%nat /\ shardIndex k = i.
Proof.
  intros [Hf Hs _] Hk. destruct (decide (i < NumShards)%nat) as [Hi|Hi].
  - split; [done|]. eapply swf_home; eauto.
  - unfold shardAt in Hk. rewrite lookup_ge_None_2 in Hk by (rewrite Hf; lia). done.
Qed.

Lemma wf_bump k s : store_wf s -> store_wf (bumpWatchKey k s).
Proof. intros Hs. eapply wf_mem_only; [exact Hs|done|apply Hs]. Qed.

Lemma wf_onShard i f s :
  store_wf s -> shard_wf i (f (shardAt i s)) -> store_wf (onShard i f s).
Proof. intros Hs Hf. by apply wf_putShard. Qed.

Lemma wf_purge s i k e o :
  store_wf s -> sh_m (shardAt i s) !! k = Some e -> sameElems o e -> store_wf (purgeEntryLocked i k o s).
Proof.
  intros Hs Hk Ho. destruct (wf_home _ _ _ _ Hs Hk) as [Hi Hh].
  apply wf_bump, wf_addMem. rewrite onShard_onShard by (done || apply Hs).
  apply wf_onShard; [done|]. eapply shard_drop; [by apply Hs|exact Hk|done].
Qed.

Lemma wf_replace s k old ne :
  store_wf s -> loosely s k old -> fresh ne -> store_wf (replaceEntry (shardIndex k) k old ne s).
Proof.
  intros Hs Hold Hne. pose proof (wf_full s Hs) as Hf.
  pose proof (wf_shard s Hs _ (shardIndex_lt k)) as Hsh.
  assert (shard_wf (shardIndex k) (shardAt (shardIndex k) (replaceEntry (shardIndex k) k old ne s))) as Hnew.
  { rewrite shardAt_replace by done. unfold loosely, find in Hold.
    destruct (sh_m (shardAt (shardIndex k) s) !! k) as [e|] eqn:Hk, old as [o|]; try done.
    - by eapply shard_replace.
    - destruct Hold as [Ho1 Ho2]. unfold removeFromLRU. rewrite Ho1, Ho2. by apply shard_insert.
    - by apply shard_insert. }
  split.
  - by apply full_replace.
  - intros j Hj. destruct (decide (j = shardIndex k)) as [->|Hne']; [done|].
    rewrite shardAt_replace_ne by done. by apply Hs.
  - unfold replaceEntry. simpl. apply mem_addMem. simpl. destruct old; [apply mem_addMem, Hs|apply Hs].
Qed.

Lemma wf_touch s k e :
  store_wf s -> find s k = Some e -> store_wf (snd (touchLRU (shardIndex k) k e s)).
Proof.
  intros Hs Hk. unfold touchLRU.
  pose proof (wf_shard s Hs _ (shardIndex_lt k)) as Hsh.
  pose proof (shard_touchAll _ _ (policy s) k e Hsh Hk) as H1.
  pose proof (touchAll_core (policy s) k e _ Hk) as H2.
  destruct (touchAllKeysLRU _ _ _ _) as [e1 sh1]. destruct H2 as (Hk1 & _ & _). simpl in H1.
  pose proof (shard_touchVol _ _ (policy s) k e1 H1 Hk1) as H3.
  destruct (touchVolatileLRU _ _ _ _) as [e2 sh2]. by apply wf_putShard.
Qed.

#[global] Instance wf_EvictInv avoid ttlOnly : EvictInv avoid ttlOnly store_wf.
Proof.
  split.
  - intros s i k e Hs Hk _. by eapply wf_purge.
  - intros s n Hs. eapply wf_mem_only; [exact Hs|done|apply Hs].
Qed.

#[global] Instance wf_StoreInv : StoreInv store_wf.
Proof.
  split; try apply _.
  - intros s Hs. apply Hs.
  - intros s k e Hs Hk. destruct (wf_shard s Hs _ (shardIndex_lt k)) as [_ He _ _]. by apply (He k e).
  - intros s n Hs. eapply wf_mem_only; [exact Hs|done|apply Hs].
  - intros s [c|] Hs; [|done]. eapply wf_mem_only; [exact Hs|done|apply Hs].
  - apply wf_touch.
  - intros s k old ne Hs Hr Hne. apply wf_replace; [done| |done]. unfold replaces, loosely in *.
    destruct (find s k), old; try done. destruct Hr as (? & ? & _). by split.
Qed.

#[global] Instance wf_LooseInv : LooseInv store_wf.
Proof. split; [apply _|apply wf_replace|]. intros s k e o Hs Hk Ho. by eapply wf_purge. Qed.

#[global] Instance wf_QuietInv : QuietInv store_wf.
Proof.
  split.
  - intros s w Hs. eapply wf_mem_only; [exact Hs|done|apply Hs].
  - intros s k e Hs Hk. unfold unlinked. apply wf_addMem.
    rewrite onShard_onShard by (apply Hs || apply shardIndex_lt).
    apply wf_onShard; [done|]. eapply shard_drop; [by apply Hs, shardIndex_lt|exact Hk|done].
Qed.

(** A new store is well formed. *)
Lemma wf_empty : store_wf emptyStore.
Proof.
  split; [apply length_replicate| |apply Z.le_refl].
  intros i Hi. unfold shardAt, emptyStore. cbn [shards]. rewrite lookup_replicate_2 by done.
  split; [done|apply map_Forall_empty|split|split]; cbn; try constructor; set_solver.
Qed.

Lemma wf_NewStore cfg s : NewStore cfg = inr s -> store_wf s.
Proof.
  unfold NewStore. destruct cfg as [c|]; [|discriminate]. intros Heq.
  assert (s = refreshConfigCache (Some c) emptyStore) as -> by congruence.
  apply (inv_config (I:=store_wf) emptyStore (Some c)), wf_empty.
Qed.
