(* ===== verification/StoreExec.v ===== *)
(** * Invariants of the store over its whole interface. *)

From S2P Require Import Prelude GoInt GoStr GoTime GoSort Config StoreBase Eviction StoreString.
From S2P Require Import StoreHash StoreList StoreSet StoreKeys StoreOps StoreHoare StoreView.
From S2P Require Import StoreInvOps StoreWf.

(** The calls that hand [replaceEntry] or [purgeEntryLocked] exactly the entry the store holds.
    [Append], [IncrBy] and [DecrBy] may pass a stale or a missing one; [LPop], [RPop] and [LRem]
    pass one whose list they have already changed. *)
Definition strict (o : op) : bool :=
  match o with
  | OAppend _ _ | OIncrBy _ _ | ODecrBy _ _ | OLPop _ _ | ORPop _ _ | OLRem _ _ _ => false
  | _ => true
  end.

(** The calls that drop keys, or the watch table, without counting a new version. *)
Definition unbumped (o : op) : bool :=
  match o with
  | ORename _ _ | ORenameNX _ _ | OFlushDB | OPruneWatch | OApplySnapshot _ => true
  | _ => false
  end.

(** The lemma for the operation at the head of the goal. *)
Ltac h_op I :=
  match goal with
  | |- hoare _ _ (Get _) _ => apply (h_Get I)
  | |- hoare _ _ (Set_ _ _ _) _ => unfold Set_; apply (h_setLocked I)
  | |- hoare _ _ (SetNX _ _ _) _ => apply (h_SetNX I)
  | |- hoare _ _ (SetXX _ _ _) _ => apply (h_SetXX I)
  | |- hoare _ _ (GetSet _ _ _) _ => apply (h_GetSet I)
  | |- hoare _ _ (MGet _) _ => apply (h_MGet I)
  | |- hoare _ _ (MSet _) _ => apply (h_MSet I)
  | |- hoare _ _ (MSetNX _) _ => apply (h_MSetNX I)
  | |- hoare _ _ (HSet _ _) _ => apply (h_HSet I)
  | |- hoare _ _ (HGet _ _) _ => apply (h_HGet I)
  | |- hoare _ _ (HGetAll _) _ => apply (h_HGetAll I)
  | |- hoare _ _ (HDel _ _) _ => apply (h_HDel I)
  | |- hoare _ _ (HExists _ _) _ => apply (h_HExists I)
  | |- hoare _ _ (HLen _) _ => apply (h_HLen I)
  | |- hoare _ _ (HSetNX _ _ _) _ => apply (h_HSetNX I)
  | |- hoare _ _ (HIncrBy _ _ _) _ => apply (h_HIncrBy I)
  | |- hoare _ _ (LPush _ _) _ => unfold LPush; apply (h_listPush I)
  | |- hoare _ _ (RPush _ _) _ => unfold RPush; apply (h_listPush I)
  | |- hoare _ _ (LPushX _ _) _ => unfold LPushX; apply (h_listPushX I)
  | |- hoare _ _ (RPushX _ _) _ => unfold RPushX; apply (h_listPushX I)
  | |- hoare _ _ (LLen _) _ => apply (h_LLen I)
  | |- hoare _ _ (LRange _ _ _) _ => apply (h_LRange I)
  | |- hoare _ _ (LIndex _ _) _ => apply (h_LIndex I)
  | |- hoare _ _ (LSet _ _ _) _ => apply (h_LSet I)
  | |- hoare _ _ (LTrim _ _ _) _ => apply (h_LTrim I)
  | |- hoare _ _ (LInsert _ _ _ _) _ => apply (h_LInsert I)
  | |- hoare _ _ (SAdd _ _) _ => apply (h_SAdd I)
  | |- hoare _ _ (SRem _ _) _ => apply (h_SRem I)
  | |- hoare _ _ (SMembers _) _ => apply (h_SMembers I)
  | |- hoare _ _ (SIsMember _ _) _ => apply (h_SIsMember I)
  | |- hoare _ _ (SCard _) _ => apply (h_SCard I)
  | |- hoare _ _ (ReplaceSet _ _) _ => apply (h_ReplaceSet I)
  | |- hoare _ _ (Del _) _ => unfold Del; apply (h_delLoop I)
  | |- hoare _ _ (Exists _) _ => unfold Exists; apply (h_existsLoop I)
  | |- hoare _ _ (Type_ _) _ => apply (h_Type I)
  | |- hoare _ _ (Rename _ _) _ => apply (h_Rename I)
  | |- hoare _ _ (RenameNX _ _) _ => apply (h_RenameNX I)
  | |- hoare _ _ (Keys _) _ => apply (h_Keys I)
  | |- hoare _ _ (DBSize) _ => apply (h_DBSize I)
  | |- hoare _ _ (ExpireKeyCount) _ => apply (h_ExpireKeyCount I)
  | |- hoare _ _ (StoreStats) _ => unfold StoreStats; apply (h_statsLoop I)
  | |- hoare _ _ (FlushDB) _ => apply (h_FlushDB I)
  | |- hoare _ _ (Expire _ _) _ => apply (h_Expire I)
  | |- hoare _ _ (ExpireAt _ _) _ => apply (h_ExpireAt I)
  | |- hoare _ _ (TTL _) _ => unfold TTL; apply (h_ttlWith I)
  | |- hoare _ _ (TTLMs _) _ => unfold TTLMs; apply (h_ttlWith I)
  | |- hoare _ _ (Persist _) _ => apply (h_Persist I)
  | |- hoare _ _ (Scan _ _ _ _) _ => apply (h_Scan I)
  | |- hoare _ _ (PruneWatch) _ => apply (h_PruneWatch I)
  | |- hoare _ _ (SnapshotCtx) _ => unfold SnapshotCtx; apply (h_snapShards I)
  | |- hoare _ _ (ApplySnapshotEntry _) _ => unfold ApplySnapshotEntry; apply (h_applySnapshotEntry I)
  | |- hoare _ _ (ApplySnapshot _) _ => apply (h_ApplySnapshot I)
  | |- hoare _ _ (sampleAllShards) _ => apply (h_sampleAll I)
  | |- hoare _ _ MemBytes _ => unfold MemBytes; by eapply h_weaken; [apply h_gets|done|done]
  | |- hoare _ _ (gets _) _ => by eapply h_weaken; [apply h_gets|done|done]
  | |- hoare _ _ (modify _) _ => apply h_modify; intros ???; split; [by apply inv_config|done]
  end.

Section strict.
Context (I : Store -> Prop) `{StoreInv I} `{MapOrder}.

Lemma h_exec_plain o P : strict o = true -> unbumped o = false -> hoare I P (exec o) T.
Proof.
  intros Ho Hu. destruct o; try discriminate Ho; try discriminate Hu; cbn [exec]; apply h_mmap; h_op I.
Qed.

Lemma h_exec_unbumped `{!QuietInv I} o P : unbumped o = true -> hoare I P (exec o) T.
Proof. intros Hu. destruct o; try discriminate Hu; cbn [exec]; apply h_mmap; h_op I. Qed.

Lemma h_exec_strict `{!QuietInv I} o P : strict o = true -> hoare I P (exec o) T.
Proof.
  intros Ho. destruct (unbumped o) eqn:Hu; [by apply h_exec_unbumped|by apply h_exec_plain].
Qed.
End strict.

(** ** The other six *)

Section loose.
Context (I : Store -> Prop) `{LooseInv I} `{MapOrder}.

Lemma h_loose_replace k old ne :
  fresh ne -> hoare I (fun s => loosely s k old) (replace k old ne) T.
Proof. intros Hne. apply h_modify. intros s Hs Hold. split; [by apply loose_replace|done]. Qed.

Lemma h_loose_purge k e o :
  sameElems o e -> hoare I (fun s => find s k = Some e) (purge k o) T.
Proof. intros Ho. apply h_modify. intros s Hs Hk. split; [by eapply loose_purge|done]. Qed.

Lemma loosely_find s k old : find s k = old -> loosely s k old.
Proof. intros <-. unfold loosely. by destruct (find s k). Qed.

(** The store of a list that was changed in place. *)
Lemma h_mutate {A} k e l' (r : A) :
  Forall slice_wf l' ->
  hoare I (fun s => find s k = Some e)
    (if bool_decide (l' = []) then _ ← purge k (mutated l' e); mret r
     else _ ← replace k (Some (mutated l' e)) (newEntry (VList l') (e_expiresAt e)); mret r) T.
Proof.
  intros Hl. case_bool_decide.
  - eapply h_bind; [by apply h_loose_purge|intros; by apply h_ret].
  - eapply h_seq; [by apply h_loose_replace, fresh_new| |intros; by apply h_ret].
    intros s _ Hk. unfold loosely. by rewrite Hk.
Qed.

Lemma popLoop_wf l n : Forall slice_wf l -> Forall slice_wf (snd (popLoop l n)).
Proof.
  intros Hl. revert n. induction Hl as [|x l Hx Hl IH]; intros n; simpl; [done|].
  destruct (n <=? 0); [by constructor|]. specialize (IH (n - 1)). by destruct (popLoop l (n - 1)).
Qed.

Lemma popBack_wf l n : Forall slice_wf l -> Forall slice_wf (snd (popBack l n)).
Proof.
  intros Hl. unfold popBack. pose proof (popLoop_wf (rev l) n (Forall_rev Hl)) as Hp.
  destruct (popLoop (rev l) n) as [out rest]. simpl in *. by apply Forall_rev.
Qed.

Lemma h_popWith opn pop k n P :
  (forall l n, Forall slice_wf l -> Forall slice_wf (snd (pop l n))) -> hoare I P (popWith opn pop k n) T.
Proof.
  intros Hpop. apply (h_list I). intros e l He Hl. apply (h_touched I). intros e' Hc.
  destruct (bool_decide _); [by apply h_ret|]. destruct (negb _); [by apply h_ret|].
  specialize (Hpop l (popCount n) Hl). destruct (pop l (popCount n)) as [out l'].
  by apply (h_mutate k e' l').
Qed.

Lemma removeEqual_wf v lim l : Forall slice_wf l -> Forall slice_wf (fst (removeEqual v lim l)).
Proof.
  intros Hl. revert lim. induction Hl as [|x l Hx Hl IH]; intros lim; simpl; [done|].
  destruct (match lim with Some n => _ | None => _ end); [by constructor|].
  destruct (bytesEqual x v).
  - specialize (IH (Z.pred <$> lim)). by destruct (removeEqual v (Z.pred <$> lim) l).
  - specialize (IH lim). destruct (removeEqual v lim l). by constructor.
Qed.

Lemma remLoop_wf n v l : Forall slice_wf l -> Forall slice_wf (fst (remLoop n v l)).
Proof.
  intros Hl. unfold remLoop. destruct (n =? 0); [by apply removeEqual_wf|].
  destruct (n >? 0); [by apply removeEqual_wf|].
  pose proof (removeEqual_wf v (Some (wrap64 (- n))) (rev l) (Forall_rev Hl)) as Hr.
  destruct (removeEqual _ _ _). simpl in *. by apply Forall_rev.
Qed.

Lemma h_LRem k n v P : hoare I P (LRem k n v) T.
Proof.
  apply (h_list I). intros e l He Hl. apply (h_touched I). intros e' Hc.
  destruct (bool_decide _); [by apply h_ret|].
  pose proof (remLoop_wf n v l Hl). destruct (remLoop n v l) as [l' removed].
  by apply (h_mutate k e' l').
Qed.

Lemma h_loose_reserve {A} k delta old ne (r : A) :
  fresh ne -> hoare I (fun s => loosely s k old) (reserveAndReplace k delta old ne r) T.
Proof.
  intros Hne. unfold reserveAndReplace. hbind (h_ensure I).
  destruct a as [[] [err|]]; try by apply h_ret.
  - hbind h_lookup. eapply h_seq; [by apply h_loose_replace| |intros []; by apply h_ret].
    intros s _ [_ ->]. by apply loosely_find.
  - eapply h_seq; [by apply h_loose_replace| |intros []; by apply h_ret]. simpl. auto.
Qed.

Lemma h_incrBy k n P : hoare I P (incrBy k n) T.
Proof.
  unfold incrBy. hbind h_lookup.
  eapply h_bind with (R := fun p s => loosely s k (snd p)).
  - destruct a as [e|].
    + hbind h_isExpired. destruct a.
      * eapply h_seq; [apply (h_purge I k e)|by intros s _ [_ <-]|]. intros [].
        apply h_ret. intros s _ Hk. unfold loosely. by rewrite Hk.
      * apply h_ret. intros s _ [_ Hk]. by apply loosely_find.
    + apply h_ret. intros s _ [_ Hk]. by apply loosely_find.
  - intros [live stale]. cbv beta zeta. simpl.
    destruct live as [e|];
      [destruct (e_value e); try hret; destruct (readInt _); [hret|]|];
      cbv beta; destruct (addInt64 _ n) as [next []]; try hret;
      apply h_loose_reserve; auto with cache.
Qed.
End loose.

(** The entry an [Append] creates is meant for a key that is not there; no other goroutine may
    create the key in the eviction window of the call. *)
Definition undisturbed (I : Store -> Prop) (o : op) (e : Env) : Prop :=
  match o with
  | OAppend k _ => stable (fun s => I s /\ find s k = None) e
  | _ => True
  end.

Section all.
Context (I : Store -> Prop) `{LooseInv I} `{MapOrder}.

#[local] Instance absent_EvictInv k avoid : EvictInv avoid false (fun s => I s /\ find s k = None).
Proof.
  split.
  - intros s i k' e [Hs Hk] He Hv. split; [by apply (inv_purge I)|].
    destruct (decide (i < NumShards)%nat) as [Hi|Hi].
    + rewrite find_purge by (apply (inv_len s Hs) || done). by destruct (decide _).
    + unfold shardAt in He. rewrite lookup_ge_None_2 in He; [done|]. rewrite (inv_len s Hs). lia.
  - intros s n [Hs Hk]. split; [by apply (inv_cursor I)|done].
Qed.

Lemma append_fresh k v st r st' :
  let ne := newEntry (VString (cloneBytes v)) noTTL in
  (_ ← replace k None ne; mret (inr (slen v) : res Z)) st = (r, st') ->
  I (db st) -> find (db st) k = None -> I (db st') /\ fewer (env st) (env st').
Proof.
  intros ne [= <- <-] Hs Hk. split; [|by apply fewer_same].
  apply inv_replace; [done| |apply fresh_new, value_wf_string]. by apply replaces_find.
Qed.

Lemma append_keeps k v st r st' :
  Append k v st = (r, st') -> I (db st) -> stable I (env st) ->
  undisturbed I (OAppend k v) (env st) -> I (db st') /\ fewer (env st) (env st').
Proof.
  intros Heq Hs Hst Hun. unfold Append in Heq. unfold mbind at 1, M_bind at 1 in Heq.
  destruct (fetch k st) as [o st1] eqn:E1.
  destruct (h_fetch I k (fun _ => True) _ _ _ E1 Hs Hst Logic.I) as (Hs1 & Hf1 & Hk1).
  pose proof (stable_fewer _ _ _ Hst Hf1) as Hst1.
  enough (I (db st') /\ fewer (env st1) (env st')) as [? ?] by (split; [done|by transitivity (env st1)]).
  destruct o as [e|].
  - destruct (e_value e); try by (injection Heq as <- <-).
    match type of Heq with reserveAndReplace ?k ?d ?o ?n ?x _ = _ =>
      destruct (h_reserve_ I k d o n x (fun s => find s k = Some e)
        ltac:(apply fresh_new, slice_wf_clone) ltac:(done) _ _ _ Heq Hs1 Hst1 Hk1) as (? & ? & _) end.
    done.
  - cbv zeta in Heq. unfold mbind at 1, M_bind at 1 in Heq.
    destruct (ensureMemoryWithRetry k _ st1) as [[ev err] st2] eqn:E2.
    destruct (h_ensure I k _ (fun _ => True) _ _ _ E2 Hs1 Hst1 Logic.I) as (Hs2 & Hf2 & _).
    destruct (h_ensureMemory k false (fun s => I s /\ find s k = None) ltac:(discriminate)
      _ (fun _ => True) _ _ _ E2 (conj Hs1 Hk1) (stable_fewer _ _ _ Hun Hf1) Logic.I) as ([_ Hk2] & _ & _).
    enough (I (db st') /\ fewer (env st2) (env st')) as [? ?] by (split; [done|by transitivity (env st2)]).
    destruct err as [err|]; [by destruct ev; unfold mret, M_ret in Heq; simplify_eq|].
    destruct ev; [|by eapply append_fresh].
    unfold lookupKey, gets in Heq. unfold mbind at 1, M_bind at 1 in Heq. rewrite Hk2 in Heq.
    by eapply append_fresh.
Qed.

(** Every call keeps the invariant. *)
Lemma exec_keeps o st :
  (unbumped o = true -> QuietInv I) ->
  I (db st) -> stable I (env st) -> undisturbed I o (env st) ->
  I (db (snd (exec o st))) /\ fewer (env st) (env (snd (exec o st))).
Proof.
  intros Hq Hs Hst Hun. destruct (exec o st) as [r st'] eqn:E. simpl.
  assert (forall A (f : A -> reply) (m : M A), hoare I (fun _ => True) m T ->
    mmap f m st = (r, st') -> I (db st') /\ fewer (env st) (env st')) as Hgen.
  { intros A f m Hm Heq. apply (h_mmap I f m) in Hm.
    destruct (Hm _ _ _ Heq Hs Hst Logic.I) as (? & ? & _). done. }
  destruct (strict o) eqn:Ho.
  { destruct (unbumped o) eqn:Hu.
    - pose proof (Hq eq_refl).
      by destruct (h_exec_unbumped I o (fun _ => True) Hu _ _ _ E Hs Hst Logic.I) as (? & ? & _).
    - by destruct (h_exec_plain I o (fun _ => True) Ho Hu _ _ _ E Hs Hst Logic.I) as (? & ? & _). }
  destruct o; try discriminate Ho; cbn [exec] in E.
  - unfold mmap, mbind, M_bind in E. destruct (Append k v st) as [r1 st1] eqn:E1.
    injection E as <- <-. by eapply append_keeps.
  - eapply Hgen, E. apply h_incrBy, _.
  - eapply Hgen, E. apply h_incrBy, _.
  - eapply Hgen, E. apply h_popWith; [apply _|]. intros; by apply popLoop_wf.
  - eapply Hgen, E. apply h_popWith; [apply _|]. intros; by apply popBack_wf.
  - eapply Hgen, E. apply h_LRem, _.
Qed.
End all.

(** A store that well-behaved goroutines share. *)
Definition calm (e : Env) : Prop := tape e = [].

Lemma calm_stable I e : calm e -> stable I e.
Proof. unfold calm, stable. by intros ->. Qed.

Lemma calm_fewer e e' : calm e -> fewer e e' -> calm e'.
Proof. unfold calm, fewer. intros ->. apply suffix_nil_inv. Qed.

Section theorems.
Context `{MapOrder}.

(** C3: Every call of the interface [op] keeps the store well formed, with other goroutines running in
    its lock windows: each key stays in the shard its hash selects, each LRU list holds exactly the
    keys whose entry points into it and each once, only keys with an expiry are in the volatile
    list, and the byte counter never goes below zero.  The steps of the other goroutines keep the
    store well formed themselves, and nobody creates the key of an [Append] while it waits for memory:
    otherwise the call can break the LRU lists ([append_breaks_lru]). *)
Theorem exec_wf o st :
  store_wf (db st) -> stable store_wf (env st) -> undisturbed store_wf o (env st) ->
  store_wf (db (snd (exec o st))) /\ fewer (env st) (env (snd (exec o st))).
Proof. intros Hs Hst Hun. apply (exec_keeps store_wf); auto using wf_QuietInv. Qed.

Lemma calm_undisturbed I o e : calm e -> undisturbed I o e.
Proof. intros Hc. destruct o; try done. by apply calm_stable. Qed.

Lemma run_keeps I `{!LooseInv I} `{!QuietInv I} os st :
  calm (env st) -> I (db st) -> I (db (snd (run os st))) /\ calm (env (snd (run os st))).
Proof.
  revert st. induction os as [|o os IH]; intros st Hc Hs; [done|].
  cbn [run]. unfold mbind, M_bind, mret, M_ret.
  destruct (exec_keeps I o st) as [H1 H2]; auto using calm_stable, calm_undisturbed.
  destruct (exec o st) as [r st1]. simpl in *.
  destruct (IH st1) as [H3 H4]; eauto using calm_fewer. by destruct (run os st1) as [rs st2].
Qed.

(** Every sequence of calls on a new store leads to a well-formed store. *)
Theorem run_wf cfg s os e :
  NewStore cfg = inr s -> calm e -> store_wf (db (snd (run os (mkSt s e)))).
Proof. intros Hn Hc. apply (run_keeps store_wf); [done|]. by eapply wf_NewStore. Qed.
End theorems.

Lemma demo_wf os : store_wf (db (demo os)) /\ calm (env (demo os)).
Proof. apply (run_keeps store_wf); [done|apply wf_empty]. Qed.

Lemma exec_wf_witness :
  let st := demo [ORPush "l" [Some "x"%string; Some "y"%string]] in
  store_wf (db (snd (exec (OLPop "l" 1) st))) /\ fewer (env st) (env (snd (exec (OLPop "l" 1) st))).
Proof.
  intros st. destruct (demo_wf [ORPush "l" [Some "x"%string; Some "y"%string]]) as [Hs Hc].
  apply (exec_wf (OLPop "l" 1) st); [exact Hs|by apply calm_stable|done].
Defined.

Lemma run_wf_witness :
  store_wf (db (snd (run [OSet "a" (Some "1"%string) noTTL; OIncrBy "a" 41; ODel ["a"%string]]
    (mkSt (refreshConfigCache (Some zeroConfig) emptyStore) (calmEnv 1))))).
Proof. by apply (run_wf (Some zeroConfig)). Defined.
