(* ===== verification/StoreMem.v ===== *)
(** * The byte counter.

    [memTotal] is the sum of [estimateMem] over the stored entries.  The calls of [strict] keep the
    counter equal to it; the in-place list operations and an increment of an expired key do not. *)

From S2P Require Import Prelude GoInt GoStr GoTime GoSort Config StoreBase Eviction StoreString.
From S2P Require Import StoreHash StoreList StoreSet StoreKeys StoreOps StoreHoare StoreView.
From S2P Require Import StoreInvOps StoreWf StoreExec.

Definition shardMem (sh : shard) : Z := msum estimateMem (sh_m sh).
Definition memTotal (s : Store) : Z := zsum (map shardMem (shards s)).

Definition accounted (s : Store) : Prop := store_wf s /\ mem s = memTotal s.

(** ** Sums *)

Lemma slen_nonneg b : 0 <= slen b.
Proof. apply len_nonneg. Qed.

Lemma valueMem_nonneg v : 0 <= valueMem v.
Proof.
  destruct v; simpl; [apply slen_nonneg| |lia|].
  - apply msum_nonneg. intros k b. pose proof (len_nonneg k). pose proof (slen_nonneg b). lia.
  - apply zsum_nonneg, Forall_map, Forall_true. intros k. apply len_nonneg.
Qed.

Lemma estimateMem_pos k e : 0 < estimateMem k e.
Proof.
  unfold estimateMem, entryOverhead. pose proof (len_nonneg k). pose proof (valueMem_nonneg (e_value e)). lia.
Qed.

Lemma estimateMem_core k e e' : core e' = core e -> estimateMem k e' = estimateMem k e.
Proof. intros [= Hv _]. unfold estimateMem. by rewrite Hv. Qed.

Lemma shardMem_nonneg sh : 0 <= shardMem sh.
Proof. apply msum_nonneg. intros k e. pose proof (estimateMem_pos k e). lia. Qed.

Lemma zsum_insert (l : list Z) i x y :
  l !! i = Some x -> zsum (<[i := y]> l) = zsum l - x + y.
Proof.
  revert i. induction l as [|z l IH]; intros [|i]; simpl; try done.
  - intros [= ->]. lia.
  - intros Hi. rewrite (IH _ Hi). lia.
Qed.

Lemma memTotal_put i sh s :
  full s -> (i < NumShards)%nat ->
  memTotal (putShard i sh s) = memTotal s - shardMem (shardAt i s) + shardMem sh.
Proof.
  intros Hf Hi. unfold memTotal, putShard. simpl. rewrite list_fmap_insert.
  rewrite (zsum_insert _ i (shardMem (shardAt i s))); [done|].
  change (map shardMem (shards s)) with (shardMem <$> shards s).
  rewrite list_lookup_fmap. unfold shardAt.
  destruct (shards s !! i) as [sh'|] eqn:E; [done|].
  apply lookup_ge_None_1 in E. rewrite Hf in E. lia.
Qed.

Lemma memTotal_shards s s' : shards s' = shards s -> memTotal s' = memTotal s.
Proof. unfold memTotal. by intros ->. Qed.

Lemma memTotal_addMem d s : memTotal (addMem d s) = memTotal s.
Proof. apply memTotal_shards, shards_addMem. Qed.

Lemma memTotal_ge i k e s :
  full s -> (i < NumShards)%nat -> sh_m (shardAt i s) !! k = Some e -> estimateMem k e <= memTotal s.
Proof.
  intros Hf Hi Hk. pose proof (memTotal_put i emptyShard s Hf Hi) as Hp.
  assert (0 <= memTotal (putShard i emptyShard s)).
  { apply zsum_nonneg, Forall_map, Forall_true. apply shardMem_nonneg. }
  assert (estimateMem k e <= shardMem (shardAt i s)).
  { apply (msum_ge estimateMem); [|done]. intros k' e'. pose proof (estimateMem_pos k' e'). lia. }
  change (shardMem emptyShard) with 0 in Hp. lia.
Qed.

Lemma mem_addMem_eq d s : 0 <= mem s + d -> mem (addMem d s) = mem s + d.
Proof.
  intros H. unfold addMem. destruct (d =? 0) eqn:E; simpl; zify_bool; [lia|].
  destruct (_ <? 0) eqn:E'; zlia.
Qed.

Lemma mem_onShard i f s : mem (onShard i f s) = mem s.
Proof. done. Qed.

(** ** The primitives *)

Lemma memTotal_drop i k e o s :
  store_wf s -> sh_m (shardAt i s) !! k = Some e ->
  memTotal (onShard i (delEntry k) (onShard i (removeFromLRU k o) s)) = memTotal s - estimateMem k e.
Proof.
  intros Hs Hk. destruct (wf_home _ _ _ _ Hs Hk) as [Hi _].
  rewrite onShard_onShard by (apply Hs || done). unfold onShard.
  rewrite memTotal_put by (apply Hs || done). unfold shardMem at 2. simpl.
  rewrite sh_m_removeFromLRU, (msum_delete _ _ _ _ Hk). unfold shardMem. lia.
Qed.

Lemma accounted_purge s i k e :
  accounted s -> sh_m (shardAt i s) !! k = Some e -> accounted (purgeEntryLocked i k e s).
Proof.
  intros [Hs Hm] Hk. split; [by eapply wf_purge|].
  destruct (wf_home _ _ _ _ Hs Hk) as [Hi _].
  pose proof (memTotal_ge i k e s (wf_full _ Hs) Hi Hk) as Hge.
  unfold purgeEntryLocked. change (mem (bumpWatchKey k ?x)) with (mem x).
  change (memTotal (bumpWatchKey k ?x)) with (memTotal x).
  rewrite memTotal_addMem, (memTotal_drop i k e e) by done.
  rewrite mem_addMem_eq; rewrite !mem_onShard; lia.
Qed.

Lemma shardMem_sameCore k sh sh' :
  sameCore k (sh_m sh) (sh_m sh') -> shardMem sh' = shardMem sh.
Proof.
  intros [Hc Hother]. unfold shardMem.
  destruct (sh_m sh !! k) as [e|] eqn:E, (sh_m sh' !! k) as [e'|] eqn:E'; simplify_eq/=.
  - assert (sh_m sh' = <[k:=e']> (sh_m sh)) as ->.
    { apply map_eq. intros k'. destruct (decide (k = k')) as [<-|]; [by rewrite lookup_insert_eq|].
      rewrite lookup_insert_ne by done. by apply Hother. }
    rewrite msum_insert, E. rewrite (estimateMem_core k e e'); [lia|]. unfold core. congruence.
  - assert (sh_m sh' = sh_m sh) as ->; [|done].
    apply map_eq. intros k'. destruct (decide (k = k')) as [<-|]; [by rewrite E, E'|]. by apply Hother.
Qed.

(** A change of one shard. *)
Lemma memTotal_one i s s' :
  full s -> full s' -> (i < NumShards)%nat -> (forall j, j <> i -> shardAt j s' = shardAt j s) ->
  memTotal s' = memTotal s - shardMem (shardAt i s) + shardMem (shardAt i s').
Proof.
  intros Hf Hf' Hi Hj. rewrite <- memTotal_put by done. apply memTotal_shards, shards_eq; [done| |].
  - unfold full. by rewrite length_putShard.
  - intros j. destruct (decide (i = j)) as [<-|]; [by rewrite shardAt_put|].
    rewrite shardAt_put_ne by done. by apply Hj.
Qed.

Lemma memTotal_replace s k old ne :
  full s ->
  memTotal (replaceEntry (shardIndex k) k old ne s) =
    memTotal s - oldBytes k (find s k) + estimateMem k ne.
Proof.
  intros Hf. pose proof (shardIndex_lt k) as Hi.
  rewrite (memTotal_one (shardIndex k) s) by (auto using full_replace, shardAt_replace_ne).
  rewrite shardAt_replace by done. set (i := shardIndex k) in *.
  set (sh0 := match old with Some o => removeFromLRU k o (shardAt i s) | None => shardAt i s end).
  assert (sh_m sh0 = sh_m (shardAt i s)) as Hm
    by (unfold sh0; destruct old; [apply sh_m_removeFromLRU|done]).
  assert (sh_m (putEntry k ne sh0) !! k = Some ne) as Hput by apply lookup_insert_eq.
  rewrite (shardMem_sameCore k _ _ (lruAfterSet_core (policy s) k ne _ Hput)).
  unfold shardMem at 2. simpl. rewrite Hm, msum_insert. unfold shardMem, find, oldBytes. fold i. lia.
Qed.

Lemma mem_replace i s k old ne :
  oldBytes k old <= mem s ->
  mem (replaceEntry i k old ne s) = mem s - oldBytes k old + estimateMem k ne.
Proof.
  intros Ho. pose proof (estimateMem_pos k ne) as Hp. unfold replaceEntry. simpl.
  destruct old as [o|]; simpl in *.
  - rewrite mem_addMem_eq; rewrite mem_onShard, mem_addMem_eq; rewrite ?mem_onShard; lia.
  - rewrite mem_addMem_eq; rewrite mem_onShard; lia.
Qed.

Lemma accounted_replace s k old ne :
  accounted s -> replaces s k old -> fresh ne -> accounted (replaceEntry (shardIndex k) k old ne s).
Proof.
  intros [Hs Hm] Hr Hne. split; [by apply inv_replace|].
  assert (oldBytes k old = oldBytes k (find s k)) as Ho.
  { unfold replaces in Hr. destruct (find s k), old; try done. apply Hr. }
  assert (oldBytes k (find s k) <= mem s).
  { rewrite Hm. destruct (find s k) eqn:E; simpl.
    - eapply memTotal_ge; [apply Hs|apply shardIndex_lt|exact E].
    - apply zsum_nonneg, Forall_map, Forall_true, shardMem_nonneg. }
  rewrite mem_replace, memTotal_replace by (apply Hs || lia). lia.
Qed.

Lemma memTotal_touch s k e :
  full s -> find s k = Some e -> memTotal (snd (touchLRU (shardIndex k) k e s)) = memTotal s.
Proof.
  intros Hf Hk. unfold touchLRU.
  pose proof (touchAll_core (policy s) k e _ Hk) as H1.
  destruct (touchAllKeysLRU _ _ _ _) as [e1 sh1]. destruct H1 as (Hk1 & _ & Hs1).
  pose proof (touchVol_core (policy s) k e1 sh1 Hk1) as H2.
  destruct (touchVolatileLRU _ _ _ _) as [e2 sh2]. destruct H2 as (_ & _ & Hs2). simpl.
  rewrite memTotal_put by (done || apply shardIndex_lt).
  rewrite (shardMem_sameCore k (shardAt (shardIndex k) s) sh2); [lia|]. by etransitivity.
Qed.

#[global] Instance accounted_StoreInv : StoreInv accounted.
Proof.
  split; [split| | | | | |].
  - intros s i k e Ha Hk _. by apply accounted_purge.
  - intros s n [Hs Hm]. split; [by apply (inv_cursor store_wf)|done].
  - intros s [Hs _]. apply Hs.
  - intros s k e [Hs _]. by apply inv_value.
  - intros s n [Hs Hm]. split; [by apply inv_tick|done].
  - intros s c [Hs Hm]. split; [by apply inv_config|by destruct c].
  - intros s k e [Hs Hm] Hk. split; [by apply inv_touch|].
    rewrite memTotal_touch by (apply Hs || done). rewrite <- Hm. unfold touchLRU.
    destruct (touchAllKeysLRU _ _ _ _) as [e1 sh1]. by destruct (touchVolatileLRU _ _ _ _).
  - apply accounted_replace.
Qed.

#[global] Instance accounted_QuietInv : QuietInv accounted.
Proof.
  split.
  - intros s w [Hs Hm]. split; [by apply inv_watch|done].
  - intros s k e [Hs Hm] Hk. split; [by apply inv_unlink|]. unfold unlinked.
    pose proof (memTotal_ge _ k e s (wf_full _ Hs) (shardIndex_lt k) Hk) as Hge.
    rewrite memTotal_addMem, (memTotal_drop _ k e e) by done.
    rewrite mem_addMem_eq; rewrite !mem_onShard; lia.
Qed.

Section theorems.
Context `{MapOrder}.

(** C13: The byte counter is exact.  Starting from a store whose counter is the sum of the estimates
    of its entries, every call outside the six of [strict] ends with a counter that is again that
    sum, evictions, expirations and the steps of other goroutines included. *)
Theorem exec_accounted o st :
  strict o = true -> accounted (db st) -> stable accounted (env st) ->
  let s' := db (snd (exec o st)) in store_wf s' /\ mem s' = memTotal s'.
Proof.
  intros Ho Hs Hst. destruct (exec o st) as [r st'] eqn:E.
  destruct (h_exec_strict accounted o (fun _ => True) Ho _ _ _ E Hs Hst Logic.I) as (? & _). done.
Qed.
End theorems.

Lemma exec_accounted_witness :
  let s' := db (snd (exec (OHSet "h" {[ "f"%string := Some "v"%string ]}) (mkSt emptyStore (calmEnv 1)))) in
  store_wf s' /\ mem s' = memTotal s'.
Proof.
  apply exec_accounted; [done| |by apply calm_stable]. split; [apply wf_empty|by vm_compute].
Defined.
