(* ===== verification/StoreWatch.v ===== *)
(** * Watch versions: what WATCH/EXEC relies on.

    A transaction compares the version of a key with the one it saw; that is sound when every
    change of the key's value or expiry counts a new version. *)

From S2P Require Import Prelude GoInt GoStr GoTime GoSort Config StoreBase Eviction StoreString.
From S2P Require Import StoreHash StoreList StoreSet StoreKeys StoreOps StoreHoare StoreView.
From S2P Require Import StoreInvOps StoreWf StoreExec.

(** Since [k] had been counted [c0] times it was counted again, or it is as it was, [v0]. *)
Definition counted (k : string) (c0 : Z) (v0 : option (gvalue * Time)) (s : Store) : Prop :=
  c0 < watchCount k s \/ (watchCount k s = c0 /\ view s k = v0).

Definition watched (k : string) (c0 : Z) (v0 : option (gvalue * Time)) (s : Store) : Prop :=
  store_wf s /\ counted k c0 v0 s.

Lemma count_bump_eq k s : watchCount k (bumpWatchKey k s) = watchCount k s + 1.
Proof. unfold watchCount at 1. simpl. by rewrite lookup_insert_eq. Qed.

Lemma count_bump_ne k k' s : k <> k' -> watchCount k' (bumpWatchKey k s) = watchCount k' s.
Proof. intros H. unfold watchCount. simpl. by rewrite lookup_insert_ne. Qed.

Lemma count_shards k s s' : watch s' = watch s -> watchCount k s' = watchCount k s.
Proof. unfold watchCount. by intros ->. Qed.

(** A version read twice is the same when the count between moved by a multiple of 2^64. *)
Lemma version_moved c n : wrapU64 (wrapU64 c + n) = wrapU64 (c + n).
Proof. unfold wrapU64. by rewrite Zplus_mod_idemp_l. Qed.

Lemma version_same c c' : c <= c' < c + 2 ^ 64 -> wrapU64 c' = wrapU64 c -> c' = c.
Proof.
  unfold wrapU64. intros Hc He. pose proof (Z.div_mod c' (2 ^ 64) ltac:(lia)). pose proof (Z.div_mod c (2 ^ 64) ltac:(lia)). nia.
Qed.

Lemma watch_addMem d s : watch (addMem d s) = watch s.
Proof. unfold addMem. by destruct (d =? 0). Qed.

Lemma watch_purge i k e s : watch (purgeEntryLocked i k e s) = watch (bumpWatchKey k s).
Proof. unfold purgeEntryLocked, bumpWatchKey, watchCount. simpl. by rewrite watch_addMem. Qed.

Lemma watch_replace i k old ne s : watch (replaceEntry i k old ne s) = watch (bumpWatchKey k s).
Proof.
  unfold replaceEntry, bumpWatchKey, watchCount. simpl. rewrite watch_addMem. simpl.
  destruct old; [|done]. simpl. by rewrite watch_addMem.
Qed.

(** A step that counts version [k'] and changes no other key. *)
Lemma counted_step k c0 v0 k' s s' :
  counted k c0 v0 s -> watch s' = watch (bumpWatchKey k' s) ->
  (k' <> k -> view s' k = view s k) -> counted k c0 v0 s'.
Proof.
  intros Hc Hw Hv. unfold counted in *. rewrite (count_shards k (bumpWatchKey k' s) s' Hw).
  destruct (decide (k' = k)) as [->|Hne].
  - left. rewrite count_bump_eq. lia.
  - by rewrite count_bump_ne, Hv by done.
Qed.

Lemma counted_same k c0 v0 s s' :
  counted k c0 v0 s -> watch s' = watch s -> view s' k = view s k -> counted k c0 v0 s'.
Proof. intros Hc Hw Hv. unfold counted in *. by rewrite Hv, (count_shards k s s' Hw). Qed.

Lemma counted_purge k c0 v0 s i k' e e' :
  watched k c0 v0 s -> sh_m (shardAt i s) !! k' = Some e -> sameElems e' e ->
  watched k c0 v0 (purgeEntryLocked i k' e' s).
Proof.
  intros [Hs Hc] Hk He. destruct (wf_home _ _ _ _ Hs Hk) as [Hi _]. split; [by eapply wf_purge|].
  apply (counted_step _ _ _ k' s); [done|apply watch_purge|]. intros Hne.
  unfold view. by rewrite find_purge_ne by (apply Hs || done).
Qed.

Lemma counted_replace k c0 v0 s k' old ne :
  watched k c0 v0 s -> loosely s k' old -> fresh ne ->
  watched k c0 v0 (replaceEntry (shardIndex k') k' old ne s).
Proof.
  intros [Hs Hc] Hl Hne. split; [by apply wf_replace|].
  apply (counted_step _ _ _ k' s); [done|apply watch_replace|]. intros Hk.
  rewrite view_replace by apply Hs. by rewrite decide_False.
Qed.

#[global] Instance watched_LooseInv k c0 v0 : LooseInv (watched k c0 v0).
Proof.
  split; [split; [split| | | | | |]| |].
  - intros s i k' e Hw Hk _. by eapply counted_purge.
  - intros s n [Hs Hc]. split; [by apply (inv_cursor store_wf)|]. by apply (counted_same _ _ _ s).
  - intros s [Hs _]. apply Hs.
  - intros s k' e [Hs _]. by apply inv_value.
  - intros s n [Hs Hc]. split; [by apply inv_tick|]. by apply (counted_same _ _ _ s).
  - intros s c [Hs Hc]. split; [by apply inv_config|]. apply (counted_same _ _ _ s); by destruct c.
  - intros s k' e [Hs Hc] Hk. split; [by apply inv_touch|].
    pose proof (find_touch k' e s k (wf_full _ Hs) Hk) as Ht.
    apply (counted_same _ _ _ s); [done| |].
    + unfold touchLRU. destruct (touchAllKeysLRU _ _ _ _) as [e1 sh1]. by destruct (touchVolatileLRU _ _ _ _).
    + destruct (touchLRU _ _ _ _) as [e' s']. by destruct Ht as (_ & _ & ?).
  - intros s k' old ne Hw Hr Hne. apply counted_replace; [done| |done].
    unfold replaces, loosely in *. destruct (find s k'), old; try done. destruct Hr as (? & ? & _). by split.
  - apply counted_replace.
  - intros s k' e o Hw Hk Ho. by eapply counted_purge.
Qed.

Section theorems.
Context `{MapOrder}.

(** C5: Soundness of WATCH.  Over any call except RENAME, RENAMENX, FLUSHDB, the watch pruning and
    a full snapshot load, the version of a key moves by the number of times it was counted, and if that
    number is below 2^64 a key read at the same version as before has the same value and the same expiry:
    no change of it goes uncounted.  This includes what eviction and expiry do to the key; the other
    goroutines run meanwhile any steps that count the key when they change it, and none of them creates
    the key of an APPEND while it waits for memory. *)
Theorem exec_watch o st k :
  let c0 := watchCount k (db st) in
  let v0 := view (db st) k in
  unbumped o = false -> store_wf (db st) -> stable (watched k c0 v0) (env st) ->
  undisturbed (watched k c0 v0) o (env st) ->
  let s' := db (snd (exec o st)) in
  let n := watchCount k s' - c0 in
  0 <= n /\ WatchVersion k s' = wrapU64 (WatchVersion k (db st) + n) /\
  (n < 2 ^ 64 -> WatchVersion k s' = WatchVersion k (db st) -> view s' k = v0).
Proof.
  intros c0 v0 Hu Hs Hst Hun s' n.
  destruct (exec_keeps (watched k c0 v0) o st) as [[_ Hc] _]; [congruence| |done|done|].
  { split; [done|]. by right. }
  fold s' in Hc. unfold WatchVersion. fold c0. rewrite version_moved.
  replace (c0 + n) with (watchCount k s') by (subst n; lia).
  assert (c0 <= watchCount k s') as Hle by (destruct Hc as [?|[? _]]; lia).
  split_and!; [subst n; lia|done|]. intros Hn He%version_same; [|subst n; lia].
  destruct Hc as [?|[_ ?]]; [lia|done].
Qed.
End theorems.

Lemma exec_watch_witness :
  let st := demo [ORPush "l" [Some "x"%string; Some "y"%string]] in
  let s' := db (snd (exec (OLPop "l" 1) st)) in
  let n := watchCount "l" s' - watchCount "l" (db st) in
  n = 1 /\ 0 <= n /\ WatchVersion "l" s' = wrapU64 (WatchVersion "l" (db st) + n) /\
  (n < 2 ^ 64 -> WatchVersion "l" s' = WatchVersion "l" (db st) -> view s' "l" = view (db st) "l").
Proof.
  intros st. destruct (demo_wf [ORPush "l" [Some "x"%string; Some "y"%string]]) as [Hs Hc].
  split; [vm_compute; reflexivity|].
  apply (exec_watch (OLPop "l" 1) st "l"); [done|exact Hs|by apply calm_stable|done].
Defined.

(** The exceptions: RENAME takes the source away and its version stays. *)
Lemma rename_unwatched :
  let s := demo [OSet "a" (Some "1"%string) noTTL; ORename "a" "b"] in
  let s0 := demo [OSet "a" (Some "1"%string) noTTL] in
  view (db s0) "a" = Some (VString (Some "1"%string), 0) /\ view (db s) "a" = None /\
  WatchVersion "a" (db s) = WatchVersion "a" (db s0).
Proof. vm_compute. auto. Qed.

(** A flush forgets the versions: a key watched before it and written after it can show the version
    the transaction saw, with another value. *)
Lemma flush_reuses_version :
  let s := demo [OSet "a" (Some "1"%string) noTTL; OFlushDB; OSet "a" (Some "2"%string) noTTL] in
  let s0 := demo [OSet "a" (Some "1"%string) noTTL] in
  view (db s) "a" <> view (db s0) "a" /\ WatchVersion "a" (db s) = WatchVersion "a" (db s0).
Proof. vm_compute. split; [discriminate|done]. Qed.
