(* ===== verification/EvictSpec.v ===== *)
(** * What eviction does: it ends, it frees enough or reports OOM, and it takes the right victims. *)

From S2P Require Import Prelude GoInt GoStr GoTime GoSort Config StoreBase Eviction StoreString.
From S2P Require Import StoreHash StoreList StoreSet StoreKeys StoreOps StoreHoare StoreView.
From S2P Require Import StoreInvOps StoreWf StoreExec.

(** ** Termination of the memory guard *)

Lemma sum_list_insert {A} (f : A -> nat) (l : list A) i x y :
  l !! i = Some x -> (sum_list_with f (<[i := y]> l) + f x = sum_list_with f l + f y)%nat.
Proof.
  revert i. induction l as [|z l IH]; intros [|i]; simpl; try done.
  - intros [= ->]. lia.
  - intros Hi. specialize (IH i Hi). lia.
Qed.

Lemma keyCount_shards s s' : shards s' = shards s -> keyCount s' = keyCount s.
Proof. unfold keyCount. by intros ->. Qed.

(** A purge of a stored key takes exactly one key away. *)
Lemma keyCount_purge i k e e' s :
  sh_m (shardAt i s) !! k = Some e -> S (keyCount (purgeEntryLocked i k e' s)) = keyCount s.
Proof.
  intros Hk. destruct (shards s !! i) as [sh|] eqn:Ei.
  2:{ unfold shardAt in Hk. by rewrite Ei in Hk. }
  unfold shardAt in Hk. rewrite Ei in Hk. simpl in Hk.
  assert (shards (purgeEntryLocked i k e' s) = <[i := delEntry k (removeFromLRU k e' sh)]> (shards s)) as Hs.
  { unfold purgeEntryLocked. simpl. rewrite shards_addMem. unfold onShard, putShard, shardAt. simpl.
    rewrite Ei, list_lookup_insert_eq by (by eapply lookup_lt_Some). apply list_insert_insert_eq. }
  pose proof (sum_list_insert (fun sh => size (sh_m sh)) (shards s) i sh
    (delEntry k (removeFromLRU k e' sh)) Ei) as Hsum.
  unfold keyCount. rewrite Hs. simpl in Hsum. rewrite sh_m_removeFromLRU, map_size_delete_Some in Hsum by eauto.
  assert (size (sh_m sh) <> 0%nat) by (intros H0; apply map_size_empty_iff in H0; by rewrite H0 in Hk).
  lia.
Qed.

#[local] Instance any_EvictInv avoid n : EvictInv avoid false (fun s => (keyCount s <= n)%nat).
Proof.
  split; [|done]. intros s i k e Hn Hk _. pose proof (keyCount_purge i k e e s Hk). lia.
Qed.

#[local] Instance true_EvictInv avoid : EvictInv avoid false (fun _ => True).
Proof. done. Qed.

Section total.
Context `{MapOrder}.

Lemma evictFromStore_fewer avoid st ok st1 :
  evictFromStore avoid st = (ok, st1) -> fewer (env st) (env st1).
Proof.
  intros E. assert (stable (fun _ => True) (env st)) as Hst by by apply Forall_true.
  by destruct (h_evictFromStore avoid false (fun _ => True) (fun _ => True)
    ltac:(done) ltac:(discriminate) (fun _ => True) _ _ _ E Logic.I Hst Logic.I) as (_ & ? & _).
Qed.

Lemma evictFromStore_count avoid st st1 :
  evictFromStore avoid st = (true, st1) -> calm (env st) -> (keyCount (db st1) < keyCount (db st))%nat.
Proof.
  intros E Hc.
  assert (forall s i k e, (keyCount s <= keyCount (db st))%nat -> sh_m (shardAt i s) !! k = Some e ->
    victim avoid false k e -> (keyCount (purgeEntryLocked i k e s) < keyCount (db st))%nat) as HJ.
  { intros s i k e Hn Hk _. pose proof (keyCount_purge i k e e s Hk). lia. }
  destruct (h_evictFromStore avoid false _ (fun s => (keyCount s < keyCount (db st))%nat)
    HJ ltac:(discriminate) (fun _ => True) _ _ _ E (le_n _) (calm_stable _ _ Hc) Logic.I) as (_ & _ & Hq).
  by apply Hq.
Qed.

(** A turn that evicts leaves fewer steps to the others, or, when none of them moves, fewer keys. *)
Lemma evictStep_progress avoid st st1 :
  evictStep avoid st = (true, st1) ->
  (List.length (tape (env st1)) < List.length (tape (env st)))%nat \/
  (calm (env st) /\ calm (env st1) /\ (keyCount (db st1) < keyCount (db st))%nat).
Proof.
  Transparent evictStep. unfold evictStep. Opaque evictStep. unfold mbind, M_bind.
  destruct (evictFromStore avoid st) as [ok st0] eqn:E0. intros Heq.
  assert (ok = true) as -> by (destruct (yield st0) as [[] ?]; by injection Heq).
  pose proof (suffix_length _ _ (evictFromStore_fewer _ _ _ _ E0)) as Hlen.
  unfold yield in Heq. destruct (tape (env st0)) as [|f t] eqn:Et; injection Heq as <-.
  - destruct (tape (env st)) eqn:Es; [|left; rewrite Et; simpl; lia]. right.
    split; [done|]. split; [done|]. by eapply evictFromStore_count.
  - left. simpl in *. lia.
Qed.

Definition oom : error := wrapErr "store: " ErrOOMerr.

(** The loop ends with the room it needs or with OOM. *)
Lemma evictLoop_outcome avoid delta a b ev st :
  (List.length (tape (env st)) <= a)%nat -> (keyCount (db st) < b)%nat ->
  let '(r, st') := evictLoop a avoid delta b ev st in
  snd r = Some oom \/ (snd r = None /\ overLimit delta (db st') = false).
Proof.
  revert b ev st. induction a as [|a IHa]; intros b; induction b as [|b IHb]; intros ev st Ha Hb;
    try lia; rewrite evictLoop_eq;
    (destruct (overLimit delta (db st)) eqn:Eo; [|by right]);
    destruct (evictStep avoid st) as [[] st1] eqn:E; simpl negb; cbv iota; try (by left);
    (destruct (evictStep_progress _ _ _ E) as [Hlt|(Hc & Hc1 & Hlt)];
      [rewrite (proj2 (Nat.ltb_lt _ _) Hlt) | unfold calm in *; rewrite Hc, Hc1]).
  all: try lia.
  - apply IHb; [rewrite Hc1; simpl; lia|lia].
  - apply IHa; lia.
  - apply IHb; [rewrite Hc1; simpl; lia|lia].
Qed.

(** [n] turns of the loop one after the other, each with the limit exceeded and a victim found. *)
Inductive turns (key : string) (delta : Z) : nat -> St -> St -> Prop :=
  | turns_0 st : turns key delta 0 st st
  | turns_S n st st1 st2 : overLimit delta (db st) = true -> evictStep key st = (true, st1) ->
      turns key delta n st1 st2 -> turns key delta (S n) st st2.

Lemma turns_calm key delta n st st' : turns key delta n st st' -> calm (env st) ->
  (n + keyCount (db st') <= keyCount (db st))%nat.
Proof.
  induction 1 as [|n st st1 st2 _ Hs _ IH]; intros Hc; [done|].
  destruct (evictStep_progress _ _ _ Hs) as [Hl|(_ & Hc1 & Hk)]; [unfold calm in Hc; rewrite Hc in Hl; simpl in Hl; lia|].
  specialize (IH Hc1). lia.
Qed.

(** C4: The memory guard, with finitely many steps of other goroutines in its windows, ends in one of three
    ways: no limit or no growth, and nothing happened; OOM; or the store has room for [delta] more
    bytes.  From the last of those steps on each turn of the loop takes a key away, so that it makes at most as
    many turns as there are keys.  While other goroutines go on writing there is no bound: see [guard_kept_busy]. *)
Theorem ensureMemory_outcome key delta st :
  (let '((released, err), st') := ensureMemoryWithRetry key delta st in
   ((maxMemBytes (db st) = 0 \/ delta <= 0) /\ released = false /\ err = None /\ st' = st) \/
   err = Some oom \/
   (err = None /\ mem (db st') + delta <= wrap64 (maxMemBytes (db st')))) /\
  (forall n st1, turns key delta n st st1 -> calm (env st) -> (n + keyCount (db st1) <= keyCount (db st))%nat).
Proof.
  split; [|intros n st1; apply turns_calm].
  unfold ensureMemoryWithRetry, mbind, M_bind, gets.
  destruct ((maxMemBytes (db st) =? 0) || (delta <=? 0)) eqn:E.
  { left. apply orb_true_iff in E. split_and!; try done. zlia. }
  unfold evictWhile.
  pose proof (evictLoop_outcome key delta (List.length (tape (env st))) (S (keyCount (db st))) false st
    ltac:(lia) ltac:(lia)) as Ho.
  destruct (evictLoop _ _ _ _ _ _) as [[released err] st']. simpl in Ho.
  right. destruct Ho as [->|[-> Ho]]; [by left|]. right. split; [done|]. unfold overLimit in Ho. zlia.
Qed.
End total.

(** ** Who is evicted *)

(** From [s0] to [s] keys only disappeared: never [avoid], and with [ttlOnly] only keys that had an
    expiry. *)
Definition onlyVictims (avoid : string) (ttlOnly : bool) (s0 s : Store) : Prop :=
  forall k, find s k = find s0 k \/
    (find s k = None /\ exists e, find s0 k = Some e /\ victim avoid ttlOnly k e).

Definition evictedFrom (avoid : string) (ttlOnly : bool) (s0 s : Store) : Prop :=
  store_wf s /\ policy s = policy s0 /\ onlyVictims avoid ttlOnly s0 s.

Lemma policy_purge i k e s : policy (purgeEntryLocked i k e s) = policy s.
Proof. unfold purgeEntryLocked, policy, addMem. simpl. by destruct (_ =? 0). Qed.

#[local] Instance evictedFrom_EvictInv avoid ttlOnly s0 : EvictInv avoid ttlOnly (evictedFrom avoid ttlOnly s0).
Proof.
  split.
  - intros s i k e (Hs & Hp & Ho) Hk Hv. destruct (wf_home _ _ _ _ Hs Hk) as [Hi Hh].
    split; [by eapply (inv_purge store_wf)|]. split; [by rewrite policy_purge|]. intros k'.
    rewrite find_purge by (apply Hs || done). destruct (decide _) as [[_ <-]|_]; [|apply Ho].
    right. split; [done|]. exists e. split; [|done].
    destruct (Ho k) as [<-|[Hn _]]; unfold find in *; by rewrite <- Hh in *; congruence.
  - intros s n (Hs & Hp & Ho). split; [by apply (inv_cursor store_wf)|]. by split.
Qed.

Section victims.
Context `{MapOrder}.

(** C15: What the memory guard may take away when no other goroutine runs.  Every key is afterwards as before
    or gone; the key being written, unless its name is empty, is never gone, and under a volatile policy no key
    without an expiry is. *)
Theorem ensureMemory_victims key delta st :
  store_wf (db st) -> calm (env st) ->
  onlyVictims key (volatilePolicy (policy (db st))) (db st) (db (snd (ensureMemoryWithRetry key delta st))).
Proof.
  intros Hs Hc. destruct (ensureMemoryWithRetry key delta st) as [r st'] eqn:E.
  set (v := volatilePolicy (policy (db st))). set (s0 := db st) in *.
  assert (forall s, evictedFrom key v s0 s -> v = true -> volatilePolicy (policy s) = true) as Hvol.
  { intros s (_ & -> & _) Hv. exact Hv. }
  assert (evictedFrom key v s0 s0) as H0 by (split; [done|]; split; [done|]; intros k; by left).
  by destruct (h_ensureMemory key v (evictedFrom key v s0) Hvol delta (fun _ => True) _ _ _ E H0
    (calm_stable _ _ Hc) Logic.I) as ((_ & _ & Ho) & _).
Qed.
End victims.

(** ** The LRU policies *)

(** The key a turn of [evictBack] on this shard takes, if any. *)
Definition lruVictim (lru : shard -> list string) (ok : entry -> bool) (avoid : string) (sh : shard)
    : option (string * entry) :=
  v ← last (lru sh);
  if avoided avoid v then None
  else e ← sh_m sh !! v; if ok e then Some (v, e) else None.

Lemma nextCursor_eq st :
  nextCursor st = (Z.to_nat (evictCursor (db st) mod Z.of_nat NumShards),
                   mkSt (setCursor (wrapU32 (evictCursor (db st) + 1)) (db st)) (env st)).
Proof.
  unfold nextCursor. do 2 f_equal. unfold wrapU32.
  change (Z.of_nat NumShards) with 256. change (2 ^ 32) with (256 * 16777216).
  rewrite Zminus_mod_idemp_l, Z.add_simpl_r. rewrite Z.rem_mul_r by lia.
  rewrite Z.mul_comm, Z_mod_plus_full, Z.mod_mod by lia. done.
Qed.

(** The shard visited [j] turns from now. *)
Definition nthShard (c : Z) (j : nat) : nat := Z.to_nat ((c + Z.of_nat j) mod Z.of_nat NumShards).

Lemma nthShard_next c j : nthShard (wrapU32 (c + 1)) j = nthShard c (S j).
Proof.
  unfold nthShard, wrapU32. change (Z.of_nat NumShards) with 256. f_equal.
  replace (c + Z.of_nat (S j)) with ((c + 1) + Z.of_nat j) by lia.
  rewrite (Z.add_mod (_ mod _)), (Z.add_mod (c + 1)) by lia. f_equal. f_equal.
  change (2 ^ 32) with (256 * 16777216). rewrite Z.rem_mul_r by lia.
  by rewrite Z.mul_comm, Z_mod_plus_full, Z.mod_mod by lia.
Qed.

Lemma nthShard_covers c i : (i < NumShards)%nat -> exists j, (j < NumShards)%nat /\ nthShard c j = i.
Proof.
  intros Hi. change NumShards with 256%nat in *. exists (Z.to_nat ((Z.of_nat i - c) mod 256)).
  pose proof (Z.mod_pos_bound (Z.of_nat i - c) 256 ltac:(lia)). split; [lia|].
  unfold nthShard. change (Z.of_nat NumShards) with 256. rewrite Z2Nat.id by lia.
  rewrite Z.add_mod_idemp_r by lia. replace (c + (Z.of_nat i - c)) with (Z.of_nat i) by lia.
  rewrite Z.mod_small by lia. apply Nat2Z.id.
Qed.

Lemma evictBack_spec lru ok avoid n st :
  calm (env st) ->
  let c := evictCursor (db st) in
  let vic j := lruVictim lru ok avoid (shardAt (nthShard c j) (db st)) in
  match evictBack lru ok avoid n st with
  | (true, st') => exists j v e, (j < n)%nat /\ (forall j', (j' < j)%nat -> vic j' = None) /\
      vic j = Some (v, e) /\
      exists c', db st' = purgeEntryLocked (nthShard c j) v e (setCursor c' (db st))
  | (false, st') => (forall j, (j < n)%nat -> vic j = None) /\ exists c', db st' = setCursor c' (db st)
  end.
Proof.
  revert st. induction n as [|n IH]; intros st Hc c vic.
  { cbn [evictBack]. split; [lia|]. exists (evictCursor (db st)). by destruct st as [[] ?]. }
  cbn [evictBack]. unfold mbind at 1, M_bind at 1. rewrite nextCursor_eq.
  unfold mbind at 1, M_bind at 1, yield. cbn [env]. unfold calm in Hc. rewrite Hc.
  unfold mbind at 1, M_bind at 1, gets. cbn [db].
  set (c1 := wrapU32 (evictCursor (db st) + 1)). set (st1 := mkSt (setCursor c1 (db st)) (env st)).
  assert (Z.to_nat (evictCursor (db st) mod Z.of_nat NumShards) = nthShard c 0) as ->
    by (unfold nthShard; by rewrite Z.add_0_r).
  change (shardAt (nthShard c 0) (setCursor c1 (db st))) with (shardAt (nthShard c 0) (db st)).
  assert (vic 0%nat = None ->
    match evictBack lru ok avoid n st1 with
    | (true, st') => exists j v e, (j < S n)%nat /\ (forall j', (j' < j)%nat -> vic j' = None) /\
        vic j = Some (v, e) /\ exists c', db st' = purgeEntryLocked (nthShard c j) v e (setCursor c' (db st))
    | (false, st') => (forall j, (j < S n)%nat -> vic j = None) /\ exists c', db st' = setCursor c' (db st)
    end) as Hnext.
  { intros H0. specialize (IH st1 Hc). cbn [db st1] in IH. change (evictCursor (setCursor c1 (db st))) with c1 in IH.
    destruct (evictBack lru ok avoid n st1) as [[] st'].
    - destruct IH as (j & v & e & Hj & Hb & Hv & c' & Hd). exists (S j), v, e.
      unfold c1 in *. rewrite nthShard_next in *. split; [lia|]. split.
      + intros [|j'] Hj'; [done|]. unfold vic. specialize (Hb j' ltac:(lia)). by rewrite nthShard_next in Hb.
      + split; [exact Hv|]. by exists c'.
    - destruct IH as (Hb & c' & Hd). split; [|by exists c'].
      intros [|j'] Hj'; [done|]. specialize (Hb j' ltac:(lia)). unfold c1 in Hb. by rewrite nthShard_next in Hb. }
  unfold vic at 1, lruVictim in Hnext.
  destruct (last (lru (shardAt (nthShard c 0) (db st)))) as [v|] eqn:El; [|by apply Hnext].
  simpl in Hnext. destruct (avoided avoid v) eqn:Ea; [by apply Hnext|].
  destruct (sh_m (shardAt (nthShard c 0) (db st)) !! v) as [e|] eqn:Em; [|by apply Hnext].
  simpl in Hnext. destruct (ok e) eqn:Eo; [|by apply Hnext].
  exists 0%nat, v, e. split; [lia|]. split; [lia|]. split; [|by exists c1].
  unfold vic, lruVictim. rewrite El. simpl. rewrite Ea, Em. simpl. by rewrite Eo.
Qed.

(** The least recently used key of a shard, in the list of the volatile policy or of the other. *)
Definition lruBack (vol : bool) (sh : shard) : option string :=
  last (if vol then volList sh else allList sh).

Definition evictLRU (vol : bool) : string -> M bool := if vol then evictVolatileLRU else evictAllKeysLRU.

(** In a well-formed store the only reason to pass over a shard is the avoided key. *)
Lemma lruVictim_wf (vol : bool) avoid i s :
  store_wf s -> (i < NumShards)%nat ->
  let sh := shardAt i s in
  lruVictim (if vol then volList else allList) (if vol then hasTTL else fun _ => true) avoid sh =
    k ← lruBack vol sh; if avoided avoid k then None else pair k <$> sh_m sh !! k.
Proof.
  intros Hs Hi sh. destruct (wf_shard _ Hs i Hi) as [_ He Ha Hv]. unfold lruVictim, lruBack.
  assert ((if vol then volList else allList) sh = if vol then volList sh else allList sh) as -> by by destruct vol.
  destruct (last _) as [k|] eqn:El; [|done]. simpl. destruct (avoided avoid k); [done|].
  destruct (sh_m sh !! k) as [e|] eqn:Ek; [|done]. simpl. destruct vol; [|done].
  apply last_Some_elem_of, (lru_elems _ _ _ _ Hv), (lru_flag _ _ _ _ Hv) in El as (e' & Hk & Hf).
  fold sh in Hk. rewrite Ek in Hk. injection Hk as <-.
  destruct (He k e Ek) as [_ ->]; done.
Qed.

Lemma lruBack_stored vol i s k :
  store_wf s -> (i < NumShards)%nat -> lruBack vol (shardAt i s) = Some k ->
  exists e, sh_m (shardAt i s) !! k = Some e.
Proof.
  intros Hs Hi El. destruct (wf_shard _ Hs i Hi) as [_ _ Ha Hv]. apply last_Some_elem_of in El. destruct vol.
  - apply (lru_elems _ _ _ _ Hv), (lru_flag _ _ _ _ Hv) in El as (e & ? & _). eauto.
  - apply (lru_elems _ _ _ _ Ha), (lru_flag _ _ _ _ Ha) in El as (e & ? & _). eauto.
Qed.

Lemma nthShard_lt c j : (nthShard c j < NumShards)%nat.
Proof.
  unfold nthShard. pose proof (Z.mod_pos_bound (c + Z.of_nat j) (Z.of_nat NumShards) ltac:(done)). lia.
Qed.

(** C16: The two LRU policies.  Their turn over the shards takes one key, the least recently used of
    its shard and not the avoided one, and changes no other key; it fails only when the list of
    every shard is empty or has the avoided key at its end, and then changes no key. *)
Theorem evictLRU_spec vol avoid st :
  store_wf (db st) -> calm (env st) ->
  match evictLRU vol avoid st with
  | (true, st') => exists k, lruBack vol (shardAt (shardIndex k) (db st)) = Some k /\
      avoided avoid k = false /\
      forall k', find (db st') k' = if decide (k' = k) then None else find (db st) k'
  | (false, st') => (forall k, find (db st') k = find (db st) k) /\
      forall i k, (i < NumShards)%nat -> lruBack vol (shardAt i (db st)) = Some k -> avoided avoid k = true
  end.
Proof.
  intros Hs Hc.
  assert (evictLRU vol avoid = evictBack (if vol then volList else allList)
    (if vol then hasTTL else fun _ => true) avoid (NumShards * 2)) as -> by by destruct vol.
  pose proof (evictBack_spec (if vol then volList else allList)
    (if vol then hasTTL else fun _ => true) avoid (NumShards * 2) st Hc) as He. cbv zeta in He.
  destruct (evictBack _ _ _ _ _) as [[] st'].
  - destruct He as (j & k & e & _ & _ & Hv & c' & Hd).
    set (i := nthShard (evictCursor (db st)) j) in *. assert (i < NumShards)%nat as Hi by apply nthShard_lt.
    rewrite lruVictim_wf in Hv by done.
    destruct (lruBack vol _) as [k0|] eqn:El; [|done]. simpl in Hv.
    destruct (avoided avoid k0) eqn:Ea; [done|]. apply fmap_Some in Hv as (e0 & Hk & [= <- <-]).
    destruct (wf_home _ _ _ _ Hs Hk) as [_ Hh]. exists k. rewrite <- Hh in *.
    split; [done|]. split; [done|]. intros k'. rewrite Hd, find_purge by (apply Hs || done).
    destruct (decide (k' = k)) as [->|Hne]; [by rewrite decide_True|]. rewrite decide_False; [done|]. by intros [_ ?].
  - destruct He as (Hv & c' & Hd). split; [by intros k; rewrite Hd|]. intros i k Hi El.
    destruct (nthShard_covers (evictCursor (db st)) i Hi) as (j & Hj & Hji).
    specialize (Hv j ltac:(lia)). rewrite Hji, lruVictim_wf in Hv by done. rewrite El in Hv. simpl in Hv.
    destruct (avoided avoid k); [done|]. destruct (lruBack_stored vol i (db st) k Hs Hi El) as [e Hk].
    by rewrite Hk in Hv.
Qed.

(** ** The volatile-ttl policy *)

Definition candidate (avoid : string) (k : string) (e : entry) : Prop :=
  hasTTL e = true /\ avoided avoid k = false.

(** [best] is a candidate among those of [seen] with the nearest expiry. *)
Definition least (avoid : string) (seen : list (nat * (string * entry)))
    (best : option (string * nat * Time)) : Prop :=
  match best with
  | None => forall i k e, (i, (k, e)) ∈ seen -> ~ candidate avoid k e
  | Some (k, i, t) => (exists e, (i, (k, e)) ∈ seen /\ candidate avoid k e /\ t = e_expiresAt e) /\
      forall i' k' e', (i', (k', e')) ∈ seen -> candidate avoid k' e' -> t <= e_expiresAt e'
  end.

Lemma least_step avoid seen best i k e :
  least avoid seen best -> least avoid (seen ++ [(i, (k, e))]) (ttlStep avoid i best (k, e)).
Proof.
  intros Hl. unfold ttlStep.
  assert (forall x, x ∈ seen ++ [(i, (k, e))] <-> x ∈ seen \/ x = (i, (k, e))) as Hin
    by (intros x; by rewrite elem_of_app, list_elem_of_singleton).
  assert (~ candidate avoid k e -> least avoid (seen ++ [(i, (k, e))]) best) as Hskip.
  { intros Hn. destruct best as [[[k0 i0] t0]|]; simpl in *.
    - destruct Hl as [(e0 & ? & ?) Hmin]. split; [exists e0; rewrite Hin; auto|].
      intros i' k' e' [?|[= -> -> ->]]%Hin Hc; [eauto|done].
    - intros i' k' e' [?|[= -> -> ->]]%Hin; eauto. }
  destruct (hasTTL e) eqn:Et; simpl; [|apply Hskip; intros [? _]; congruence].
  destruct (avoided avoid k) eqn:Ea; [apply Hskip; intros [_ ?]; congruence|].
  assert (candidate avoid k e) as Hc by by split.
  destruct best as [[[k0 i0] t0]|]; [destruct (Before _ _) eqn:Eb; unfold Before in Eb|]; simpl in *.
  - destruct Hl as [_ Hmin]. split; [exists e; rewrite Hin; auto|].
    intros i' k' e' [H'|[= -> -> ->]]%Hin Hc'; [specialize (Hmin _ _ _ H' Hc'); zlia|lia].
  - destruct Hl as [(e0 & ? & ?) Hmin]. split; [exists e0; rewrite Hin; auto|].
    intros i' k' e' [?|[= -> -> ->]]%Hin Hc'; [eauto|zlia].
  - split; [exists e; rewrite Hin; auto|]. intros i' k' e' [H'|[= -> -> ->]]%Hin Hc'; [by destruct (Hl _ _ _ H')|lia].
Qed.

Lemma least_fold avoid seen best i kvs :
  least avoid seen best ->
  least avoid (seen ++ map (pair i) kvs) (fold_left (ttlStep avoid i) kvs best).
Proof.
  revert seen best. induction kvs as [|[k e] kvs IH]; intros seen best Hl; simpl; [by rewrite app_nil_r|].
  rewrite (cons_middle (i, (k, e))), app_assoc. by apply IH, least_step.
Qed.

Lemma least_perm avoid seen seen' best : seen ≡ₚ seen' -> least avoid seen best -> least avoid seen' best.
Proof. intros Hp. unfold least. destruct best as [[[? ?] ?]|]; by setoid_rewrite Hp. Qed.

(** The bindings of [n] shards from shard [i]. *)
Fixpoint bindings (s : Store) (i n : nat) : list (nat * (string * entry)) :=
  match n with
  | O => []
  | S n => map (pair i) (map_to_list (sh_m (shardAt i s))) ++ bindings s (S i) n
  end.

Lemma elem_of_bindings s i n j k e :
  (j, (k, e)) ∈ bindings s i n <-> (i <= j < i + n)%nat /\ sh_m (shardAt j s) !! k = Some e.
Proof.
  revert i. induction n as [|n IH]; intros i; simpl; [rewrite elem_of_nil; lia|].
  rewrite elem_of_app, IH. split.
  - intros [([k' e'] & [= -> -> ->] & Hin)%list_elem_of_fmap|[? ?]]; [|split; [lia|done]].
    apply elem_of_map_to_list in Hin. split; [lia|done].
  - intros [Hj Hk]. destruct (decide (j = i)) as [->|]; [left|right; split; [lia|done]].
    apply list_elem_of_fmap. exists (k, e). by rewrite elem_of_map_to_list.
Qed.

Section ttl.
Context `{MapOrder}.

Lemma ttlScan_spec avoid n i seen best st :
  calm (env st) -> least avoid seen best ->
  let '(best', st') := ttlScan avoid n i best st in
  least avoid (seen ++ bindings (db st) i n) best' /\ db st' = db st /\ calm (env st').
Proof.
  revert i seen best st. induction n as [|n IH]; intros i seen best st Hc Hl.
  { simpl. by rewrite app_nil_r. }
  cbn [ttlScan bindings]. unfold mbind, M_bind, yield, gets, ranged. unfold calm in Hc. rewrite Hc.
  set (kvs := mapOrder _ _ _). set (st1 := mkSt _ _).
  specialize (IH (S i) (seen ++ map (pair i) kvs) (fold_left (ttlStep avoid i) kvs best) st1 Hc
    (least_fold avoid _ _ i kvs Hl)).
  destruct (ttlScan avoid n (S i) _ st1) as [best' st']. destruct IH as (Hl' & Hd & Hc').
  split; [|by split]. eapply least_perm, Hl'. rewrite <- app_assoc.
  apply Permutation_app_head, Permutation_app_tail, Permutation_map, mapOrder_perm.
Qed.

(** The volatile-ttl policy takes one key, with an expiry no later than that of any other key
    that has one (the avoided key apart), whatever the order of the map iterations, and changes no
    other key; it fails only when no key but the avoided one has an expiry. *)
Theorem evictVolatileTTL_spec avoid st :
  store_wf (db st) -> calm (env st) ->
  match evictVolatileTTL avoid st with
  | (true, st') => exists k e, find (db st) k = Some e /\ hasTTL e = true /\ avoided avoid k = false /\
      (forall k' e', find (db st) k' = Some e' -> hasTTL e' = true -> avoided avoid k' = false ->
         e_expiresAt e <= e_expiresAt e') /\
      forall k', find (db st') k' = if decide (k' = k) then None else find (db st) k'
  | (false, st') => db st' = db st /\
      forall k e, find (db st) k = Some e -> hasTTL e = true -> avoided avoid k = true
  end.
Proof.
  intros Hs Hc. unfold evictVolatileTTL. unfold mbind at 1, M_bind at 1.
  assert (least avoid [] None) as H0 by (intros i k e Hin; by apply elem_of_nil in Hin).
  pose proof (ttlScan_spec avoid NumShards 0 [] None st Hc H0) as Hl.
  destruct (ttlScan _ _ _ _ _) as [best st1]. destruct Hl as (Hl & Hd & Hc1).
  assert (forall k e, find (db st) k = Some e ->
    (shardIndex k, (k, e)) ∈ bindings (db st) 0 NumShards) as Hall.
  { intros k e Hk. apply elem_of_bindings. split; [|done]. pose proof (shardIndex_lt k). lia. }
  destruct best as [[[k i] t]|].
  - destruct Hl as [(e & Hin & [Ht Ha] & ->) Hmin]. apply elem_of_bindings in Hin as [Hi Hk].
    destruct (wf_home _ _ _ _ Hs Hk) as [_ Hh].
    unfold mbind, M_bind, yield, gets. unfold calm in Hc1. rewrite Hc1, Hd, Hk, Ht. simpl. rewrite Hd.
    exists k, e. unfold find at 1. rewrite Hh. split_and!; try done.
    + intros k' e' Hk' Ht' Ha'. eapply Hmin; [by apply Hall|by split].
    + intros k'. rewrite find_purge by (apply Hs || lia).
      destruct (decide (k' = k)) as [->|Hne]; [by rewrite decide_True|]. rewrite decide_False; [done|]. by intros [_ ?].
  - split; [exact Hd|]. intros k e Hk Ht. destruct (avoided avoid k) eqn:Ea; [done|].
    destruct (Hl _ _ _ (Hall _ _ Hk)). by split.
Qed.
End ttl.

(** ** Concrete evictions *)

(** Two keys, one of them with an expiry, in a store with room for no more. *)
Definition tightDemo (policy : string) (key : string) : St :=
  demo [OReplaceConfig (Some (memConfig "300" policy)); OSet key (Some "1"%string) 100; OSet "b" (Some "2"%string) noTTL].

Lemma tightDemo_ok policy key : store_wf (db (tightDemo policy key)) /\ calm (env (tightDemo policy key)).
Proof. unfold tightDemo. apply demo_wf. Qed.

Lemma ensureMemory_victims_witness :
  let st := tightDemo "volatile-lru" "a" in
  let st' := snd (@ensureMemoryWithRetry idOrder "b" 100 st) in
  view (db st) "a" <> None /\ view (db st') "a" = None /\
  onlyVictims "b" (volatilePolicy (policy (db st))) (db st) (db st').
Proof.
  intros st st'. split; [vm_compute; discriminate|]. split; [vm_compute; reflexivity|].
  exact (@ensureMemory_victims idOrder "b" 100 st (proj1 (tightDemo_ok _ _)) (proj2 (tightDemo_ok _ _))).
Defined.

(** The key being written is told from the others by its name, and an empty name stands for no key: the guard
    evicts the empty key to make room for it. *)
Lemma empty_key_evicts_itself :
  let st := tightDemo "allkeys-lru" EmptyString in
  let st' := snd (@ensureMemoryWithRetry idOrder EmptyString 100 st) in
  view (db st) EmptyString <> None /\ view (db st') EmptyString = None.
Proof. split; [vm_compute; discriminate|vm_compute; reflexivity]. Qed.

(** Other goroutines that put back what the guard evicts keep it busy: however many turns, there is a schedule
    with so many, after which the limit is still exceeded. *)
Definition refill : Store -> Store := fun _ => setCursor 44 (db (tightDemo "allkeys-lru" "a")).
Definition refilled (t : list (Store -> Store)) : St := mkSt (refill emptyStore) (mkEnv 1 [] t [] 0).

Lemma guard_turn t : @evictStep idOrder "b" (refilled (refill :: refill :: t)) = (true, refilled t).
Proof. vm_compute. reflexivity. Qed.

Lemma guard_kept_busy n : exists t st, @turns idOrder "b" 100 n (refilled t) st /\ overLimit 100 (db st) = true.
Proof.
  cut (exists t, @turns idOrder "b" 100 n (refilled t) (refilled [])).
  { intros [t Ht]. exists t, (refilled []). split; [done|]. vm_compute. reflexivity. }
  induction n as [|n [t IH]]; [exists []; constructor|].
  exists (refill :: refill :: t). eapply turns_S; [|apply guard_turn|exact IH]. vm_compute. reflexivity.
Qed.

(** Two keys written under the allkeys-lru policy. *)
Definition lruDemo : St :=
  demo [OReplaceConfig (Some (memConfig "1gb" "allkeys-lru"));
        OSet "a" (Some "1"%string) noTTL; OSet "b" (Some "2"%string) noTTL].

Lemma lruDemo_ok : store_wf (db lruDemo) /\ calm (env lruDemo).
Proof. unfold lruDemo. apply demo_wf. Qed.

Lemma evictLRU_spec_witness :
  match evictLRU false "b" lruDemo with
  | (true, st') => exists k, lruBack false (shardAt (shardIndex k) (db lruDemo)) = Some k /\
      avoided "b" k = false /\
      forall k', find (db st') k' = if decide (k' = k) then None else find (db lruDemo) k'
  | (false, st') => (forall k, find (db st') k = find (db lruDemo) k) /\
      forall i k, (i < NumShards)%nat -> lruBack false (shardAt i (db lruDemo)) = Some k -> avoided "b" k = true
  end.
Proof. exact (evictLRU_spec false "b" lruDemo (proj1 lruDemo_ok) (proj2 lruDemo_ok)). Defined.

(** Two keys with different expiries. *)
Definition ttlDemo : St := demo [OSet "a" (Some "1"%string) 100; OSet "b" (Some "2"%string) 50].

Lemma ttlDemo_ok : store_wf (db ttlDemo) /\ calm (env ttlDemo).
Proof. unfold ttlDemo. apply demo_wf. Qed.

Lemma evictVolatileTTL_spec_witness :
  match evictVolatileTTL "c" ttlDemo with
  | (true, st') => exists k e, find (db ttlDemo) k = Some e /\ hasTTL e = true /\ avoided "c" k = false /\
      (forall k' e', find (db ttlDemo) k' = Some e' -> hasTTL e' = true -> avoided "c" k' = false ->
         e_expiresAt e <= e_expiresAt e') /\
      forall k', find (db st') k' = if decide (k' = k) then None else find (db ttlDemo) k'
  | (false, st') => db st' = db ttlDemo /\
      forall k e, find (db ttlDemo) k = Some e -> hasTTL e = true -> avoided "c" k = true
  end.
Proof. exact (@evictVolatileTTL_spec idOrder "c" ttlDemo (proj1 ttlDemo_ok) (proj2 ttlDemo_ok)). Defined.
