(* ===== verification/StoreSpec.v ===== *)
(** * The abstract specification of the store.

    A keyspace is one finite map from keys to a value and an expiry; it holds live keys only.
    [spec now o m r m'] says what the call [o] replies and does to the keyspace [m] at time [now],
    in terms of map, list and set functions: no shards, no LRU lists, no byte counter, no lazy
    deletion, no iteration order. *)

From S2P Require Import Prelude GoInt GoStr GoTime GoSort Config StoreBase Eviction.
From S2P Require Import StoreString StoreHash StoreList StoreSet StoreKeys StoreOps.

Notation binding := (gvalue * Time)%type.
Notation keyspace := (gmap string binding).

Definition expired (now : Time) (b : binding) : bool := negb (IsZero (snd b)) && After now (snd b).

(** Binding a key; an expiry in the past leaves no key. *)
Definition put (now : Time) (k : string) (b : binding) (m : keyspace) : keyspace :=
  if expired now b then delete k m else <[k := b]> m.

(** The passage of time. *)
Definition age (now : Time) (m : keyspace) : keyspace := filter (fun kb => expired now (snd kb) = false) m.

(** ** Typed access *)

Inductive typed (A : Type) := Absent | Wrong | Holds (a : A) (t : Time).
#[global] Arguments Absent {A}.
#[global] Arguments Wrong {A}.
#[global] Arguments Holds {A} a t.

Definition stringAt (m : keyspace) (k : string) : typed slice :=
  match m !! k with None => Absent | Some (VString b, t) => Holds b t | Some _ => Wrong end.
Definition hashAt (m : keyspace) (k : string) : typed (gmap string slice) :=
  match m !! k with None => Absent | Some (VHash h, t) => Holds h t | Some _ => Wrong end.
Definition listAt (m : keyspace) (k : string) : typed (list slice) :=
  match m !! k with None => Absent | Some (VList l, t) => Holds l t | Some _ => Wrong end.
Definition setAt (m : keyspace) (k : string) : typed (gset string) :=
  match m !! k with None => Absent | Some (VSet st, t) => Holds st t | Some _ => Wrong end.

(** A read: the reply on a missing key, and the one on the value. *)
Definition reading {A B} (x : typed A) (op : string) (none : B) (f : A -> B) : res B :=
  match x with Absent => inr none | Wrong => wrongType op | Holds a _ => inr (f a) end.

(** An update that starts from [empty] when there is no key: the new binding, or no key, and the
    reply. *)
Definition updating {A B} (x : typed A) (op : string) (k : string) (m : keyspace) (empty : A)
    (f : A -> Time -> res (option binding * B)) : res B * keyspace :=
  let go a t :=
    match f a t with
    | inl e => (inl e, m)
    | inr (Some b, r) => (inr r, <[k := b]> m)
    | inr (None, r) => (inr r, delete k m)
    end in
  match x with
  | Absent => go empty noTTL
  | Wrong => (wrongType op, m)
  | Holds a t => go a t
  end.

(** An update of a key that must be there; [none] is the reply when it is not. *)
Definition changing {A B} (x : typed A) (op : string) (k : string) (m : keyspace) (none : B)
    (f : A -> option gvalue * B) : res B * keyspace :=
  match x with
  | Absent => (inr none, m)
  | Wrong => (wrongType op, m)
  | Holds a t =>
      match f a with
      | (Some v, r) => (inr r, <[k := (v, t)]> m)
      | (None, r) => (inr r, delete k m)
      end
  end.

(** ** Values *)

Definition nonEmptyHash (h : gmap string slice) : option gvalue :=
  if bool_decide (h = ∅) then None else Some (VHash h).
Definition nonEmptyList (l : list slice) : option gvalue :=
  if bool_decide (l = []) then None else Some (VList l).
Definition nonEmptySet (st : gset string) : option gvalue :=
  if bool_decide (st = ∅) then None else Some (VSet st).

Definition strings (pairs : gmap string slice) : keyspace :=
  (fun v => (VString (cloneBytes v), noTTL)) <$> pairs.

Definition addTo (b : slice) (n : Z) : res Z :=
  match readInt b with
  | inl e => inl e
  | inr cur => if is_int64 (cur + n) then inr (cur + n) else inl overflowErr
  end.

Definition members (ms : list slice) : gset string := list_to_set (map sbytes ms).

(** *** Lists *)

Definition pushed (left : bool) (l vs : list slice) : list slice :=
  if left then rev (map cloneBytes vs) ++ l else l ++ map cloneBytes vs.

(** The index a list operation uses: from the end when negative, then clamped to the list. *)
Definition clampIndex (i n : Z) : Z := Z.max 0 (Z.min (n - 1) (if i <? 0 then n + i else i)).

Definition window (a b : Z) (l : list slice) : list slice :=
  take (Z.to_nat (b - a + 1)) (drop (Z.to_nat a) l).

Definition listLen (l : list slice) : Z := Z.of_nat (List.length l).

(** The element an index means; none at or past the end. *)
Definition indexOf (i : Z) (l : list slice) : option nat :=
  if listLen l <=? i then None else if listLen l =? 0 then None else Some (Z.to_nat (clampIndex i (listLen l))).

(** The list without its first [n] elements equal to [v], or all of them. *)
Fixpoint without (n : nat) (v : slice) (l : list slice) : list slice :=
  match l, n with
  | [], _ => []
  | _, O => l
  | x :: l, S n' => if bytesEqual x v then without n' v l else x :: without n v l
  end.

Definition removed (count : Z) (v : slice) (l : list slice) : list slice :=
  if count =? 0 then List.filter (fun x => negb (bytesEqual x v)) l
  else if 0 <? count then without (Z.to_nat count) v l
  else rev (without (Z.to_nat (wrap64 (- count))) v (rev l)).

Definition inserted (before : bool) (i : nat) (v : slice) (l : list slice) : list slice :=
  let j := if before then i else S i in take j l ++ [cloneBytes v] ++ drop j l.

(** ** The calls *)

Definition get (m : keyspace) (k : string) : res slice := reading (stringAt m k) "get: " None id.

Fixpoint mget (m : keyspace) (ks : list string) : res (list slice) :=
  match ks with
  | [] => inr []
  | k :: ks =>
      match get m k with
      | inl e => inl (wrapErr "mget: " e)
      | inr v => match mget m ks with inl e => inl e | inr vs => inr (v :: vs) end
      end
  end.

Definition keyType (m : keyspace) (k : string) : string :=
  match m !! k with None => "none"%string | Some (v, _) => typeName (dtypeOf v) end.

Definition ttlOf (m : keyspace) (k : string) : Time := match m !! k with None => noTTL | Some (_, t) => t end.

Definition push (left : bool) (k : string) (vs : list slice) (m : keyspace) : res Z * keyspace :=
  if bool_decide (vs = []) then (reading (listAt m k) "list: " 0 listLen, m)
  else updating (listAt m k) "list: " k m [] (fun l t =>
    let l' := pushed left l vs in inr (Some (VList l', t), listLen l')).

Definition pushX (left : bool) (k : string) (vs : list slice) (m : keyspace) : res Z * keyspace :=
  if bool_decide (vs = []) then (reading (listAt m k) "list: " 0 listLen, m)
  else changing (listAt m k) "list: " k m 0 (fun l =>
    let l' := pushed left l vs in (Some (VList l'), listLen l')).

(** The elements a pop takes, in the order of the reply, and those it leaves. *)
Definition taken (left : bool) (c : nat) (l : list slice) : list slice * list slice :=
  if left then (take c l, drop c l) else (take c (rev l), take (List.length l - c) l).

Definition popFrom (left : bool) (op k : string) (n : Z) (m : keyspace)
    : outcome (res (option (list slice))) * keyspace :=
  match listAt m k with
  | Absent => (Ret (inr None), m)
  | Wrong => (Ret (wrongType op), m)
  | Holds l t =>
      if bool_decide (l = []) then (Ret (inr (Some [])), m)
      else if negb (canMake sliceHeader (popCount n)) then (Panic, m)
      else
        let '(out, rest) := taken left (Z.to_nat (popCount n)) l in
        (Ret (inr (Some out)),
         match nonEmptyList rest with Some v => <[k := (v, t)]> m | None => delete k m end)
  end.

Definition setElem (k : string) (i : Z) (v : slice) (m : keyspace) : option error * keyspace :=
  match listAt m k with
  | Absent => (Some (wrapErr "lset: " ErrKeyNotFound), m)
  | Wrong => (Some (wrapErr "lset: " ErrWrongTypeErr), m)
  | Holds l t =>
      match indexOf i l with
      | None => (Some (wrapErr "lset: " ErrListIndex), m)
      | Some j => (None, <[k := (VList (<[j := cloneBytes v]> l), t)]> m)
      end
  end.

Definition trim (k : string) (a b : Z) (m : keyspace) : option error * keyspace :=
  match listAt m k with
  | Absent => (None, m)
  | Wrong => (Some (wrapErr "ltrim: " ErrWrongTypeErr), m)
  | Holds l t =>
      if bool_decide (l = []) then (None, m)
      else
        let n := listLen l in
        (None, match nonEmptyList (window (clampIndex a n) (clampIndex b n) l) with
               | Some v => <[k := (v, t)]> m
               | None => delete k m
               end)
  end.

(** Moving the binding of [a] to [b]. *)
Definition moved (a b : string) (x : binding) (m : keyspace) : keyspace := <[b := x]> (delete a m).

Definition expireAt (now : Time) (k : string) (t : Time) (m : keyspace) : res bool * keyspace :=
  match m !! k with
  | None => (inr false, m)
  | Some (v, _) => (inr true, put now k (v, t) m)
  end.

(** The remaining time; a key whose expiry is this instant is dropped by the question. *)
Definition remaining (now : Time) (unit : Z) (k : string) (m : keyspace) : Z * keyspace :=
  match m !! k with
  | None => (-2, m)
  | Some (_, t) =>
      if IsZero t then (-1, m)
      else if Sub t now <=? 0 then (-2, delete k m)
      else (Z.quot (Sub t now) unit, m)
  end.

Definition keyList (pat : string) (m : keyspace) : list string :=
  List.filter (matchGlob pat) (map fst (map_to_list m)).

Definition scanned (c : Z) (pat : string) (n : Z) (ty : string) (m : keyspace) : outcome (Z * list string) :=
  let all := sortStrings (keyList (if sempty pat then "*"%string else pat) m) in
  let all := if sempty ty then all else List.filter (fun k => EqualFold (keyType m k) (ToLower ty)) all in
  scanWindow c (if n <=? 0 then 10 else n) all.

(** What a snapshot says of a binding. *)
Definition snapshotOf (now : Time) (kb : string * binding) (ent : SnapshotEntry) : Prop :=
  let '(k, (v, t)) := kb in
  let ttl := if IsZero t then 0 else Z.max 0 (Milliseconds (Sub t now)) in
  match v with
  | VString b => ent = mkSnap k "string" b ∅ [] [] ttl
  | VHash h => ent = mkSnap k "hash" None h [] [] ttl
  | VList l => ent = mkSnap k "list" None ∅ [] l ttl
  | VSet st => exists ms, ms ≡ₚ elements st /\ ent = mkSnap k "set" None ∅ (map Some ms) [] ttl
  end.

Definition loadEntry (now : Time) (ent : SnapshotEntry) (m : keyspace) : option error * keyspace :=
  let t := if sn_TTLMs ent >? 0 then Add now (DurationMul (sn_TTLMs ent) Millisecond) else noTTL in
  match snapValue ent with
  | None => (Some (wrapErr ("unknown snapshot type " +++ Quote (sn_Type ent) +++ ": ") (New "invalid snapshot")), m)
  | Some v => (None, put now (sn_Key ent) (v, t) m)
  end.

Fixpoint load (now : Time) (l : list SnapshotEntry) (m : keyspace) : option error * keyspace :=
  match l with
  | [] => (None, m)
  | ent :: l =>
      match loadEntry now ent m with
      | (Some e, m) => (Some (wrapErr "apply snapshot: " e), m)
      | (None, m) => load now l m
      end
  end.

(** [answer f (r, m)]: the reply is [f r] and the keyspace [m]. *)
Definition answer {A} (f : A -> reply) (x : A * keyspace) (r : reply) (m' : keyspace) : Prop :=
  r = f (fst x) /\ m' = snd x.

Definition spec (now : Time) (o : op) (m : keyspace) (r : reply) (m' : keyspace) : Prop :=
  match o with
  | OGet k => answer RSlice (get m k, m) r m'
  | OSet k v t => answer RUnit (None, put now k (VString (cloneBytes v), t) m) r m'
  | OSetNX k v t =>
      answer RBool (match m !! k with
                    | Some _ => (inr false, m)
                    | None => (inr true, put now k (VString (cloneBytes v), t) m)
                    end) r m'
  | OSetXX k v t =>
      answer RBool (match m !! k with
                    | None => (inr false, m)
                    | Some _ => (inr true, put now k (VString (cloneBytes v), t) m)
                    end) r m'
  | OGetSet k v t =>
      answer RPrev (match stringAt m k with
                    | Wrong => (wrongType "getset: ", m)
                    | Absent => (inr (None, true), put now k (VString (cloneBytes v), t) m)
                    | Holds b _ => (inr (b, true), put now k (VString (cloneBytes v), t) m)
                    end) r m'
  | OAppend k v =>
      answer RInt (updating (stringAt m k) "append: " k m None (fun b t =>
        let b' := appendBytes b v in inr (Some (VString b', t), slen b'))) r m'
  | OIncrBy k n =>
      answer RInt (updating (stringAt m k) "incr: " k m None (fun b t =>
        rbind (addTo b n) (fun x => inr (Some (VString (Some (FormatInt x)), t), x)))) r m'
  | ODecrBy k n =>
      answer RInt (updating (stringAt m k) "incr: " k m None (fun b t =>
        rbind (addTo b (wrap64 (- n))) (fun x => inr (Some (VString (Some (FormatInt x)), t), x)))) r m'
  | OMGet ks => answer RSlices (mget m ks, m) r m'
  | OMSet ps => answer RUnit (None, strings ps ∪ m) r m'
  | OMSetNX ps =>
      answer RBool (if bool_decide (dom ps ∩ dom m = ∅) then (inr true, strings ps ∪ m) else (inr false, m)) r m'
  | OHSet k ps =>
      answer RInt (if bool_decide (ps = ∅) then (inr 0, m)
                   else updating (hashAt m k) "hset: " k m ∅ (fun h t =>
                     let h' := (cloneBytes <$> ps) ∪ h in
                     inr (Some (VHash h', t), Z.of_nat (size h') - Z.of_nat (size h)))) r m'
  | OHGet k f => answer RSlice (reading (hashAt m k) "hget: " None (fun h => default None (h !! f)), m) r m'
  | OHGetAll k => answer RHash (reading (hashAt m k) "hgetall: " None Some, m) r m'
  | OHDel k fs =>
      answer RInt (changing (hashAt m k) "hdel: " k m 0 (fun h =>
        let h' := filter (fun kv => kv.1 ∉ fs) h in
        (nonEmptyHash h', Z.of_nat (size h) - Z.of_nat (size h')))) r m'
  | OHExists k f =>
      answer RBool (reading (hashAt m k) "hexists: " false (fun h => bool_decide (f ∈ dom h)), m) r m'
  | OHLen k => answer RInt (reading (hashAt m k) "hlen: " 0 (fun h => Z.of_nat (size h)), m) r m'
  | OHSetNX k f v =>
      answer RInt (updating (hashAt m k) "hsetnx: " k m ∅ (fun h t =>
        inr (match h !! f with
             | Some _ => (Some (VHash h, t), 0)
             | None => (Some (VHash (<[f := cloneBytes v]> h), t), 1)
             end))) r m'
  | OHIncrBy k f n =>
      answer RInt (updating (hashAt m k) "hincrby: " k m ∅ (fun h t =>
        rbind (addTo (default None (h !! f)) n) (fun x =>
          inr (Some (VHash (<[f := Some (FormatInt x)]> h), t), x)))) r m'
  | OLPush k vs => answer RInt (push true k vs m) r m'
  | ORPush k vs => answer RInt (push false k vs m) r m'
  | OLPushX k vs => answer RInt (pushX true k vs m) r m'
  | ORPushX k vs => answer RInt (pushX false k vs m) r m'
  | OLPop k n => answer RList (popFrom true "lpop: " k n m) r m'
  | ORPop k n => answer RList (popFrom false "rpop: " k n m) r m'
  | OLLen k => answer RInt (reading (listAt m k) "list: " 0 listLen, m) r m'
  | OLRange k a b =>
      answer (RList ∘ Ret) (reading (listAt m k) "lrange: " None (fun l =>
        let n := listLen l in
        Some (if n <=? a then [] else window (clampIndex a n) (clampIndex b n) l)), m) r m'
  | OLIndex k i =>
      answer RSlice (reading (listAt m k) "lindex: " None (fun l =>
        j ← indexOf i l; default None (l !! j)), m) r m'
  | OLSet k i v => answer RUnit (setElem k i v m) r m'
  | OLRem k n v =>
      answer RInt (changing (listAt m k) "lrem: " k m 0 (fun l =>
        let l' := removed n v l in
        (if bool_decide (l = []) then Some (VList l) else nonEmptyList l', listLen l - listLen l'))) r m'
  | OLTrim k a b => answer RUnit (trim k a b m) r m'
  | OLInsert k before p v =>
      answer RInt (changing (listAt m k) "linsert: " k m 0 (fun l =>
        match list_find (fun x => bytesEqual x p = true) l with
        | None => (Some (VList l), -1)
        | Some (i, _) => (Some (VList (inserted before i v l)), listLen l + 1)
        end)) r m'
  | OSAdd k ms =>
      answer RInt (if bool_decide (ms = []) then (inr 0, m)
                   else updating (setAt m k) "sadd: " k m ∅ (fun st t =>
                     let st' := members ms ∪ st in
                     inr (Some (VSet st', t), Z.of_nat (size st') - Z.of_nat (size st)))) r m'
  | OSRem k ms =>
      answer RInt (changing (setAt m k) "srem: " k m 0 (fun st =>
        let st' := st ∖ members ms in (nonEmptySet st', Z.of_nat (size st) - Z.of_nat (size st')))) r m'
  | OSMembers k => exists ms,
      answer (RList ∘ Ret) (reading (setAt m k) "smembers: " None (fun _ => Some (map Some ms)), m) r m' /\
      forall st t, setAt m k = Holds st t -> ms ≡ₚ elements st
  | OSIsMember k x =>
      answer RBool (reading (setAt m k) "sismember: " false (fun st => bool_decide (sbytes x ∈ st)), m) r m'
  | OSCard k => answer RInt (reading (setAt m k) "scard: " 0 (fun st => Z.of_nat (size st)), m) r m'
  | OReplaceSet k ms => answer RUnit (None, <[k := (VSet (members ms), ttlOf m k)]> m) r m'
  | ODel ks =>
      let m1 := filter (fun kb => kb.1 ∉ ks) m in
      answer RNum (Z.of_nat (size m) - Z.of_nat (size m1), m1) r m'
  | OExists ks => answer RNum (Z.of_nat (List.length (filter (fun k => k ∈ dom m) ks)), m) r m'
  | OType k => answer RName (keyType m k, m) r m'
  | ORename a b =>
      answer RUnit (if (a =? b)%string then (None, m)
                    else match m !! a with
                         | None => (Some (wrapErr "no such key: " (New "not found")), m)
                         | Some x => (None, moved a b x m)
                         end) r m'
  | ORenameNX a b =>
      answer RBool (if (a =? b)%string then (inr true, m)
                    else match m !! a, m !! b with
                         | Some x, None => (inr true, moved a b x m)
                         | _, _ => (inr false, m)
                         end) r m'
  | OKeys p => exists l, answer RKeys (l, m) r m' /\ l ≡ₚ keyList p m
  | ODBSize => answer RNum (Z.of_nat (size m), m) r m'
  | OExpireKeyCount => answer RNum (Z.of_nat (size (filter (fun kb => IsZero (snd (snd kb)) = false) m)), m) r m'
  | OFlushDB => answer id (done, ∅) r m'
  | OExpire k sec =>
      answer RBool (if sec <=? 0 then (inl (wrapErr "invalid expire: " (New "non-positive")), m)
                    else expireAt now k (Add now (DurationMul sec Second)) m) r m'
  | OExpireAt k t => answer RBool (expireAt now k t m) r m'
  | OTTL k => answer RNum (remaining now Second k m) r m'
  | OTTLMs k => answer RNum (remaining now Millisecond k m) r m'
  | OPersist k =>
      answer RBool (match m !! k with
                    | Some (v, t) => if IsZero t then (inr false, m) else (inr true, <[k := (v, noTTL)]> m)
                    | None => (inr false, m)
                    end) r m'
  | OScan c p n ty => answer RScan (scanned c p n ty m, m) r m'
  | OSnapshot => exists l out, l ≡ₚ map_to_list m /\ Forall2 (snapshotOf now) l out /\
      answer RSnapshot (out, m) r m'
  | OApplySnapshotEntry ent => answer RUnit (loadEntry now ent m) r m'
  | OApplySnapshot l => answer RUnit (load now l ∅) r m'
  | OStoreStats | OWatchVersion _ | OMemBytes | OPruneWatch | OSampleExpiry | OReplaceConfig _ => m' = m
  end.

(** The arguments the handlers pass: increments are 64-bit integers. *)
Definition op_ok (o : op) : Prop :=
  match o with
  | OIncrBy _ n | ODecrBy _ n | OHIncrBy _ _ n => is_int64 n = true
  | OReplaceConfig _ => False
  | _ => True
  end.
