(* ===== verification/StoreRefine.v ===== *)
(** * The store implements its specification.

    With no memory limit and nobody else at work, every call replies and changes the keyspace as
    [spec] says; [reps now m s] ties the store [s] to the keyspace [m] it stands for at [now]. *)

From S2P Require Import Prelude GoInt GoStr GoTime GoSort Config StoreBase Eviction.
From S2P Require Import StoreString StoreHash StoreList StoreSet StoreKeys StoreOps.
From S2P Require Import StoreHoare StoreView StoreInvOps StoreWf StoreExec StoreSpec.

Definition live (now : Time) (o : option binding) : option binding :=
  b ← o; if expired now b then None else Some b.

(** A stored key whose time has come is as good as absent. *)
Definition reps (now : Time) (m : keyspace) (s : Store) : Prop := forall k, m !! k = live now (view s k).

Record quiet (now : Time) (st : St) : Prop := mkQuiet {
  q_calm : calm (env st);
  q_delays : delays (env st) = [];
  q_clock : clock (env st) = now;
  q_wf : store_wf (db st);
  q_max : maxMemBytes (db st) = 0 }.

(** ** The rules *)

Section rules.
Context (now : Time) `{MapOrder}.

Definition tri {A} (P : Store -> Prop) (c : M A) (Q : A -> Store -> Prop) : Prop :=
  forall st a st', c st = (a, st') -> quiet now st -> P (db st) -> quiet now st' /\ Q a (db st').

(** The call [c] replies [fst x] and leaves the keyspace [snd x]. *)
Definition does {A} (m : keyspace) (c : M A) (x : A * keyspace) : Prop :=
  tri (reps now m) c (fun a s => a = fst x /\ reps now (snd x) s).

Lemma t_ret {A} (P : Store -> Prop) (a : A) (Q : A -> Store -> Prop) :
  (forall s, P s -> Q a s) -> tri P (mret a) Q.
Proof. intros HQ st a' st' [= <- <-] Hq HP. auto. Qed.

Lemma t_bind {A B} P (c : M A) (f : A -> M B) R Q :
  tri P c R -> (forall a, tri (R a) (f a) Q) -> tri P (c ≫= f) Q.
Proof.
  intros Hc Hf st b st' Heq Hq HP. unfold mbind, M_bind in Heq. destruct (c st) as [a st1] eqn:E.
  destruct (Hc _ _ _ E Hq HP) as [Hq1 HR]. by eapply Hf.
Qed.

Lemma t_assoc {A B C} P (c : M A) (f : A -> M B) (g : B -> M C) Q :
  tri P ((c ≫= f) ≫= g) Q -> tri P (c ≫= fun a => f a ≫= g) Q.
Proof.
  intros Ht st x st' Heq. apply Ht. rewrite <- Heq. unfold mbind, M_bind. by destruct (c st).
Qed.

Lemma t_conseq {A} (P P' : Store -> Prop) (c : M A) (Q Q' : A -> Store -> Prop) :
  tri P' c Q' -> (forall s, store_wf s -> P s -> P' s) -> (forall a s, store_wf s -> Q' a s -> Q a s) -> tri P c Q.
Proof.
  intros Hc HP HQ st a st' Heq Hq Hp. destruct (Hc _ _ _ Heq Hq) as [Hq' ?]; [by apply HP; [apply Hq|]|].
  split; [done|]. apply HQ; [apply Hq'|done].
Qed.

Lemma t_pre {A} (P P' : Store -> Prop) (c : M A) Q : tri P' c Q -> (forall s, P s -> P' s) -> tri P c Q.
Proof. intros Hc HP st a st' Heq Hq Hp. apply (Hc _ _ _ Heq Hq). by apply HP. Qed.

Lemma t_pure (φ : Prop) {A} (P : Store -> Prop) (c : M A) Q :
  (forall s, store_wf s -> P s -> φ) -> (φ -> tri P c Q) -> tri P c Q.
Proof. intros Hφ Hc st a st' Heq Hq HP. eapply Hc; eauto. eapply Hφ; eauto. apply Hq. Qed.

Lemma t_modify (P : Store -> Prop) f (Q : unit -> Store -> Prop) :
  (forall s, store_wf s -> P s -> store_wf (f s) /\ maxMemBytes (f s) = maxMemBytes s /\ Q tt (f s)) ->
  tri P (modify f) Q.
Proof.
  intros Hf st a st' [= <- <-] [H1 H2 H3 H4 H5] HP. destruct (Hf _ H4 HP) as (? & Hm & ?).
  split; [|done]. split; try done. simpl. by rewrite Hm.
Qed.

Lemma t_gets {A} (P : Store -> Prop) (f : Store -> A) : tri P (gets f) (fun a s => P s /\ a = f s).
Proof. intros st a st' [= <- <-] Hq HP. auto. Qed.

Lemma t_lookup (P : Store -> Prop) k : tri P (lookupKey k) (fun o s => P s /\ o = find s k).
Proof. apply t_gets. Qed.

Lemma t_now (P : Store -> Prop) : tri P Now (fun t s => P s /\ t = now).
Proof.
  intros st a st' [= <- <-] [H1 H2 H3 H4 H5] HP. rewrite H2, H3 in *. simpl.
  rewrite Z.max_id, Z.add_0_r. split; [|done]. by split.
Qed.

Lemma t_yield (P : Store -> Prop) : tri P yield (fun _ => P).
Proof.
  intros st a st' Heq Hq HP. unfold yield in Heq. rewrite (q_calm _ _ Hq) in Heq. by injection Heq as <- <-.
Qed.

Lemma t_ranged {A} (P : Store -> Prop) (l : list A) : tri P (ranged l) (fun r s => P s /\ r ≡ₚ l).
Proof.
  intros st a st' [= <- <-] [H1 H2 H3 H4 H5] HP. split; [by split|]. split; [done|apply mapOrder_perm].
Qed.

Lemma t_isExpired (P : Store -> Prop) e : tri P (isExpired e) (fun x s => P s /\ x = expired now (core e)).
Proof.
  unfold isExpired, expired. simpl. destruct (IsZero _); [by apply t_ret|].
  eapply t_bind; [apply t_now|]. intros t. apply t_ret. by intros s [? ->].
Qed.
End rules.

(** [tbind L]: run the first step by rule [L]. *)
Ltac tbind L := eapply t_bind; [apply L | intros ?; cbv beta].

(** ** The primitives on the keyspace *)

Lemma max_addMem d s : maxMemBytes (addMem d s) = maxMemBytes s.
Proof. unfold addMem. by destruct (d =? 0). Qed.

Lemma max_purge i k e s : maxMemBytes (purgeEntryLocked i k e s) = maxMemBytes s.
Proof. unfold purgeEntryLocked. change (maxMemBytes (bumpWatchKey k ?x)) with (maxMemBytes x). by rewrite max_addMem. Qed.

Lemma max_replace i k old ne s : maxMemBytes (replaceEntry i k old ne s) = maxMemBytes s.
Proof.
  unfold replaceEntry. change (maxMemBytes (bumpWatchKey k (onShard i ?f ?x))) with (maxMemBytes x).
  rewrite max_addMem. change (maxMemBytes (onShard i ?f ?x)) with (maxMemBytes x).
  destruct old; [by rewrite max_addMem|done].
Qed.

Section prims.
Context (now : Time) `{MapOrder}.

Lemma reps_purge m s k e o :
  store_wf s -> find s k = Some e -> reps now m s -> reps now (delete k m) (purgeEntryLocked (shardIndex k) k o s).
Proof.
  intros Hs Hk Hr k'. unfold view. rewrite find_purge by (apply Hs || apply shardIndex_lt).
  destruct (decide (k = k')) as [<-|Hne].
  - by rewrite lookup_delete_eq, decide_True.
  - rewrite lookup_delete_ne by done. rewrite decide_False by (by intros [_ ?]). apply Hr.
Qed.

(** Dropping an expired key does not show. *)
Lemma reps_expired m s k e :
  store_wf s -> find s k = Some e -> expired now (core e) = true -> reps now m s ->
  reps now m (purgeEntryLocked (shardIndex k) k e s).
Proof.
  intros Hs Hk He Hr k'. pose proof (reps_purge m s k e e Hs Hk Hr k') as Hp. rewrite <- Hp.
  destruct (decide (k = k')) as [<-|Hne]; [|by rewrite lookup_delete_ne].
  rewrite lookup_delete_eq, Hr. unfold view. rewrite Hk. simpl. by rewrite He.
Qed.

Lemma reps_replace m s k old ne :
  store_wf s -> reps now m s ->
  reps now (put now k (core ne) m) (replaceEntry (shardIndex k) k old ne s).
Proof.
  intros Hs Hr k'. rewrite view_replace by apply Hs. unfold put.
  destruct (expired now (core ne)) eqn:E, (decide (k = k')) as [<-|Hne]; simpl.
  - by rewrite lookup_delete_eq, E.
  - by rewrite lookup_delete_ne.
  - by rewrite lookup_insert_eq, E.
  - by rewrite lookup_insert_ne.
Qed.

Lemma t_purge m k e o :
  sameElems o e ->
  tri now (fun s => reps now m s /\ find s k = Some e) (purge k o) (fun _ s => reps now (delete k m) s /\ find s k = None).
Proof.
  intros Ho. apply t_modify. intros s Hs [Hr Hk]. split; [by eapply wf_purge|]. split; [apply max_purge|].
  split; [by eapply reps_purge|]. apply find_purge_eq, Hs.
Qed.

Lemma t_expire m k e :
  expired now (core e) = true ->
  tri now (fun s => reps now m s /\ find s k = Some e) (purge k e) (fun _ s => reps now m s /\ find s k = None).
Proof.
  intros He. apply t_modify. intros s Hs [Hr Hk]. split; [by eapply wf_purge|]. split; [apply max_purge|].
  split; [by apply reps_expired|]. apply find_purge_eq, Hs.
Qed.

Lemma t_replace m k old ne :
  fresh ne ->
  tri now (fun s => reps now m s /\ loosely s k old) (replace k old ne)
    (fun _ => reps now (put now k (core ne) m)).
Proof.
  intros Hne. apply t_modify. intros s Hs [Hr Hl]. split; [by apply wf_replace|].
  split; [apply max_replace|by apply reps_replace].
Qed.

Lemma t_touch m k e :
  tri now (fun s => reps now m s /\ find s k = Some e) (touch k e)
    (fun e' s => reps now m s /\ find s k = Some e' /\ core e' = core e).
Proof.
  intros st a st' Heq [H1 H2 H3 Hs H5] [Hr Hk]. unfold touch in Heq.
  pose proof (fun k' => find_touch k e (db st) k' (wf_full _ Hs) Hk) as Ht.
  pose proof (wf_touch _ _ _ Hs Hk) as Hs'.
  assert (maxMemBytes (snd (touchLRU (shardIndex k) k e (db st))) = maxMemBytes (db st)) as Hm.
  { unfold touchLRU. destruct (touchAllKeysLRU _ _ _ _). by destruct (touchVolatileLRU _ _ _ _). }
  destruct (touchLRU _ _ _ _) as [e' s']. injection Heq as <- <-. simpl in *.
  split; [split; try done; simpl; by rewrite Hm|].
  split; [|by destruct (Ht k) as (? & ? & _)]. intros k'. destruct (Ht k') as (_ & _ & ->). apply Hr.
Qed.

(** The entry of a key, or what is left when there is none. *)
Lemma t_fetch m k :
  tri now (reps now m) (fetch k) (fun o s =>
    reps now m s /\ find s k = o /\ core <$> o = m !! k).
Proof.
  unfold fetch. tbind t_lookup. destruct a as [e|].
  - tbind t_isExpired. destruct a.
    + apply (t_pure now (expired now (core e) = true)); [by intros s _ [_ <-]|]. intros He.
      eapply t_bind with (R := fun _ s => reps now m s /\ find s k = None).
      { eapply t_conseq; [by apply (t_expire m k e)| |done]. by intros s _ [[? <-] _]. }
      intros []. apply t_ret. intros s [Hr Hk]. split; [done|]. split; [done|].
      rewrite Hr. unfold view. by rewrite Hk.
    + apply t_ret. intros s [[Hr Hk] He]. split; [done|]. split; [done|].
      rewrite Hr. unfold view. rewrite <- Hk. simpl. by rewrite <- He.
  - apply t_ret. intros s [Hr Hk]. split; [done|]. split; [done|]. rewrite Hr. unfold view. by rewrite <- Hk.
Qed.

(** The memory guard does nothing without a limit. *)
Lemma t_ensure (P : Store -> Prop) k d :
  tri now P (ensureMemoryWithRetry k d) (fun r s => P s /\ r = (false, None)).
Proof.
  intros st a st' Heq Hq HP. unfold ensureMemoryWithRetry in Heq. unfold mbind, M_bind, gets in Heq.
  rewrite (q_max _ _ Hq) in Heq. by injection Heq as <- <-.
Qed.

Lemma t_reserve {A} m k d old ne (r : A) :
  fresh ne ->
  tri now (fun s => reps now m s /\ loosely s k old) (reserveAndReplace k d old ne r)
    (fun x s => x = inr r /\ reps now (put now k (core ne) m) s).
Proof.
  intros Hne. unfold reserveAndReplace. tbind t_ensure. apply (t_pure now (a = (false, None))); [by intros s _ [_ ->]|].
  intros ->. eapply t_bind with (R := fun _ => reps now (put now k (core ne) m)); [|intros []; by apply t_ret].
  eapply t_conseq; [by apply (t_replace m)|by intros s _ [? _]|done].
Qed.
End prims.

(** ** Shapes of operations *)

Section shapes.
Context (now : Time) `{MapOrder}.

(** What an operation knows of the key it fetched. *)
Definition has (m : keyspace) (k : string) (o : option entry) (s : Store) : Prop :=
  reps now m s /\ find s k = o.

Lemma reps_live m s k b : reps now m s -> m !! k = Some b -> expired now b = false.
Proof.
  intros Hr Hk. rewrite Hr in Hk. destruct (view s k) as [b'|]; simpl in Hk; [|done].
  destruct (expired now b') eqn:E; congruence.
Qed.

Lemma put_live k b (m : keyspace) : expired now b = false -> put now k b m = <[k := b]> m.
Proof. unfold put. by intros ->. Qed.

Lemma put_noTTL k v (m : keyspace) : put now k (v, noTTL) m = <[k := (v, noTTL)]> m.
Proof. by apply put_live. Qed.

Lemma t_fetched {A} m k (f : option entry -> M A) Q :
  (m !! k = None -> tri now (has m k None) (f None) Q) ->
  (forall v t a b,
     m !! k = Some (v, t) -> value_wf v -> expired now (v, t) = false ->
     tri now (has m k (Some (mkEntry v t a b))) (f (Some (mkEntry v t a b))) Q) ->
  tri now (reps now m) (fetch k ≫= f) Q.
Proof.
  intros Hnone Hsome. tbind (t_fetch now m k). destruct a as [[v t a b]|].
  - apply (t_pure now (m !! k = Some (v, t) /\ value_wf v /\ expired now (v, t) = false)).
    + intros s Hs (Hr & Hk & Hm). simpl in Hm. split; [done|]. split; [|by eapply reps_live].
      by apply (inv_value s k _ Hs Hk).
    + intros (Hm & Hv & He). eapply t_conseq; [by apply Hsome| |done]. intros s _ (? & ? & _). by split.
  - apply (t_pure now (m !! k = None)); [by intros s _ (_ & _ & <-)|]. intros Hm.
    eapply t_conseq; [by apply Hnone| |done]. intros s _ (? & ? & _). by split.
Qed.

(** The operation returns: the keyspace is the one it knows. *)
Lemma t_reply {A} m k o (a : A) x : a = fst x -> m = snd x ->
  tri now (has m k o) (mret a) (fun a s => a = fst x /\ reps now (snd x) s).
Proof. intros -> ->. apply t_ret. by intros s [? _]. Qed.

Lemma loosely_has m k old s : has m k old s -> reps now m s /\ loosely s k old.
Proof. intros [Hr Hk]. split; [done|by apply loosely_find]. Qed.

(** The operation ends by storing an entry in the place of the fetched one. *)
Lemma t_stored {A} m k d old ne (r : A) x :
  fresh ne -> inr r = fst x -> put now k (core ne) m = snd x ->
  tri now (has m k old) (reserveAndReplace k d old ne r) (fun a s => a = fst x /\ reps now (snd x) s).
Proof.
  intros Hne Hr <-. eapply t_conseq; [by apply (t_reserve now m)| |by intros a s _ [-> ?]].
  intros s _ Hh. by apply loosely_has.
Qed.

Lemma t_replaced {A} m k old ne (a : A) x :
  fresh ne -> a = fst x -> put now k (core ne) m = snd x ->
  tri now (has m k old) (_ ← replace k old ne; mret a) (fun a s => a = fst x /\ reps now (snd x) s).
Proof.
  intros Hne -> <-. eapply t_bind with (R := fun _ => reps now (put now k (core ne) m)); [|intros []; by apply t_ret].
  eapply t_conseq; [by apply (t_replace now m)| |done]. intros s _ Hh. by apply loosely_has.
Qed.

(** The same with an entry that stands for the stored one. *)
Lemma t_replaced_as {A} m k e old ne (a : A) x :
  sameElems old e -> fresh ne -> a = fst x -> put now k (core ne) m = snd x ->
  tri now (has m k (Some e)) (_ ← replace k (Some old) ne; mret a) (fun a s => a = fst x /\ reps now (snd x) s).
Proof.
  intros Ho Hne -> <-. eapply t_bind with (R := fun _ => reps now (put now k (core ne) m)); [|intros []; by apply t_ret].
  eapply t_conseq; [by apply (t_replace now m)| |done]. intros s _ [Hr Hk]. split; [done|].
  unfold loosely. by rewrite Hk.
Qed.

Lemma t_purged {A} m k e old (a : A) x :
  sameElems old e -> a = fst x -> delete k m = snd x ->
  tri now (has m k (Some e)) (_ ← purge k old; mret a) (fun a s => a = fst x /\ reps now (snd x) s).
Proof.
  intros Ho -> <-. eapply t_bind; [by apply (t_purge now m k e)|]. intros []. apply t_ret. by intros s [? _].
Qed.

Lemma t_touched {A} m k v t a b (f : entry -> M A) Q :
  (forall a b, tri now (has m k (Some (mkEntry v t a b))) (f (mkEntry v t a b)) Q) ->
  tri now (has m k (Some (mkEntry v t a b))) (touch k (mkEntry v t a b) ≫= f) Q.
Proof.
  intros Hf. tbind (t_touch now m k (mkEntry v t a b)). rename a0 into e.
  apply (t_pure now (exists a b, e = mkEntry v t a b)).
  - intros s _ (_ & _ & Hc). destruct e as [v' t' a' b']. unfold core in Hc. simpl in Hc. simplify_eq. eauto.
  - intros (a' & b' & ->). eapply t_conseq; [by apply Hf| |done]. intros s _ (? & ? & _). by split.
Qed.
End shapes.

(** [treply]: the operation returns here. *)
Ltac treply := apply t_reply; [try done|try done].

(** ** Strings *)

Section strings.
Context (now : Time) `{MapOrder}.

Lemma d_Get m k : does now m (Get k) (get m k, m).
Proof.
  apply t_fetched; unfold get, stringAt.
  - intros Hm. rewrite Hm. treply.
  - intros v t a b Hm Hv He. rewrite Hm. cbn [e_value]. destruct v; try treply.
    tbind t_gets. destruct (_ || _).
    + eapply t_pre; [apply (t_touched now m k); intros; treply|by intros s [? _]].
    + eapply t_bind with (R := fun _ => has now m k (Some (mkEntry (VString b0) t a b))).
      * intros st x st' [= <- <-] [H1 H2 H3 H4 H5] [HP _]. split; [|done]. split; try done. by apply inv_tick.
      * intros x. destruct (_ =? 0); [|treply]. apply (t_touched now m k). intros; treply.
Qed.

Lemma d_set m k v t nx xx :
  does now m (setLocked k v t nx xx)
    (None, if nx && bool_decide (is_Some (m !! k)) || xx && negb (bool_decide (is_Some (m !! k))) then m
           else put now k (VString (cloneBytes v), t) m).
Proof.
  assert (forall old, bool_decide (is_Some old) = bool_decide (is_Some (m !! k)) ->
    tri now (has now m k old)
      (if nx && bool_decide (is_Some old) then mret None
       else if xx && negb (bool_decide (is_Some old)) then mret None
       else let ne := newEntry (VString (cloneBytes v)) t in
         r ← ensureMemoryWithRetry k (estimateMem k ne - oldBytes k old);
         match r with
         | (_, Some err) => mret (Some err)
         | (true, None) => old ← fetch k;
             if nx && bool_decide (is_Some old) then mret None
             else if xx && negb (bool_decide (is_Some old)) then mret None
             else _ ← replace k old ne; mret None
         | (false, None) => _ ← replace k old ne; mret None
         end)
      (fun a s => a = None /\ reps now (if nx && bool_decide (is_Some (m !! k)) ||
         xx && negb (bool_decide (is_Some (m !! k))) then m else put now k (VString (cloneBytes v), t) m) s)) as Hgo.
  { intros old ->. destruct (nx && _); [by apply t_ret; intros s [? _]|]. simpl.
    destruct (xx && _); [by apply t_ret; intros s [? _]|]. tbind t_ensure.
    apply (t_pure now (a = (false, None))); [by intros s _ [_ ->]|]. intros ->.
    eapply t_pre; [apply (t_replaced now m k old _ None (None, put now k (VString (cloneBytes v), t) m)); [|done|done]|].
    - apply fresh_new, value_wf_string.
    - by intros s [? _]. }
  apply t_fetched.
  - intros Hm. apply Hgo. by rewrite Hm.
  - intros v' t' a b Hm _ _. apply Hgo. by rewrite Hm.
Qed.

Lemma d_Set m k v t : does now m (Set_ k v t) (None, put now k (VString (cloneBytes v), t) m).
Proof. exact (d_set m k v t false false). Qed.

Lemma d_SetNX m k v t :
  does now m (SetNX k v t) (match m !! k with
    | Some _ => (inr false, m) | None => (inr true, put now k (VString (cloneBytes v), t) m) end).
Proof.
  apply t_fetched; [|intros v' t' a b Hm _ _; rewrite Hm; treply].
  intros Hm. rewrite Hm. tbind t_ensure. apply (t_pure now (a = (false, None))); [by intros s _ [_ ->]|]. intros ->.
  eapply t_pre; [apply (t_replaced now m k None); [apply fresh_new, value_wf_string|done|done]|by intros s [? _]].
Qed.

Lemma d_SetXX m k v t :
  does now m (SetXX k v t) (match m !! k with
    | None => (inr false, m) | Some _ => (inr true, put now k (VString (cloneBytes v), t) m) end).
Proof.
  apply t_fetched; [intros Hm; rewrite Hm; treply|].
  intros v' t' a b Hm _ _. rewrite Hm. tbind t_ensure. apply (t_pure now (a0 = (false, None))); [by intros s _ [_ ->]|].
  intros ->. eapply t_pre; [apply (t_replaced now m k (Some (mkEntry v' t' a b))); [apply fresh_new, value_wf_string|done|done]|by intros s [? _]].
Qed.

Lemma d_GetSet m k v t :
  does now m (GetSet k v t) (match stringAt m k with
    | Wrong => (wrongType "getset: ", m)
    | Absent => (inr (None, true), put now k (VString (cloneBytes v), t) m)
    | Holds b _ => (inr (b, true), put now k (VString (cloneBytes v), t) m) end).
Proof.
  unfold stringAt. apply t_fetched.
  - intros Hm. rewrite Hm. apply t_stored; [apply fresh_new, value_wf_string|done|done].
  - intros v' t' a b Hm Hv _. rewrite Hm. destruct v'; try treply.
    apply t_stored; [apply fresh_new, value_wf_string|by rewrite Hv|done].
Qed.

Lemma d_Append m k v :
  does now m (Append k v) (updating (stringAt m k) "append: " k m None (fun b t =>
    let b' := appendBytes b v in inr (Some (VString b', t), slen b'))).
Proof.
  unfold stringAt. apply t_fetched.
  - intros Hm. rewrite Hm. cbv zeta. tbind t_ensure. apply (t_pure now (a = (false, None))); [by intros s _ [_ ->]|].
    intros ->. assert (appendBytes None v = cloneBytes v) as Ha by (unfold appendBytes, cloneBytes; by destruct v).
    eapply t_pre; [apply (t_replaced now m k None); [apply fresh_new, value_wf_string| |]|by intros s [? _]]; simpl.
    + by rewrite Ha, slen_clone.
    + rewrite put_live by done. by rewrite Ha.
  - intros v' t' a b Hm Hv He. rewrite Hm. destruct v'; try treply.
    apply t_stored; [apply fresh_new, value_wf_string|done|by apply put_live].
Qed.
End strings.

(** *** Counters and several keys *)

Lemma readInt_range b n : readInt b = inr n -> is_int64 n = true.
Proof.
  unfold readInt. destruct (sempty _); [by intros [= <-]|]. destruct (ParseInt _) as [|v] eqn:E; [done|].
  intros [= <-]. by eapply ParseInt_range.
Qed.

Lemma addInt64_addTo b cur n :
  readInt b = inr cur -> is_int64 n = true ->
  match addInt64 cur n with
  | (_, false) => addTo b n = inl overflowErr
  | (x, true) => addTo b n = inr x
  end.
Proof.
  intros Hr Hn. rewrite addInt64_spec by eauto using readInt_range. unfold addTo. rewrite Hr.
  by destruct (is_int64 (cur + n)).
Qed.

(** Binding each key of [ks] to the string [f] gives it. *)
Definition bindAll (f : string -> slice) (ks : list string) (m : keyspace) : keyspace :=
  fold_left (fun m k => <[k := (VString (cloneBytes (f k)), noTTL)]> m) ks m.

Lemma bindAll_cons f k ks m :
  bindAll f (k :: ks) m = bindAll f ks (<[k := (VString (cloneBytes (f k)), noTTL)]> m).
Proof. done. Qed.

Lemma lookup_bindAll f ks m k :
  bindAll f ks m !! k = if decide (k ∈ ks) then Some (VString (cloneBytes (f k)), noTTL) else m !! k.
Proof.
  revert m. induction ks as [|k' ks IH]; intros m; [done|]. simpl. rewrite IH.
  destruct (decide (k ∈ ks)) as [Hin|Hn]; [by rewrite decide_True by by right|].
  destruct (decide (k = k')) as [->|Hne].
  - rewrite lookup_insert_eq. by rewrite decide_True by by left.
  - rewrite lookup_insert_ne by done. by rewrite decide_False by (by rewrite elem_of_cons; intros [?|?]).
Qed.

Lemma bindAll_strings (ps : gmap string slice) ks m :
  ks ≡ₚ map fst (map_to_list ps) -> bindAll (fun k => default None (ps !! k)) ks m = strings ps ∪ m.
Proof.
  intros Hp. apply map_eq. intros k. rewrite lookup_bindAll.
  assert (k ∈ ks <-> is_Some (ps !! k)) as Hin.
  { rewrite Hp. change (map fst (map_to_list ps)) with ((map_to_list ps).*1). rewrite list_elem_of_fmap. split.
    - intros ([k' v] & -> & Hv). apply elem_of_map_to_list in Hv. simpl. by rewrite Hv.
    - intros [v Hv]. exists (k, v). by rewrite elem_of_map_to_list. }
  unfold strings. rewrite lookup_union, lookup_fmap. destruct (ps !! k) as [v|] eqn:E; simpl.
  - rewrite decide_True by (apply Hin; eauto). by destruct (m !! k).
  - rewrite decide_False by (rewrite Hin; by intros [? ?]). by destruct (m !! k).
Qed.

Section many.
Context (now : Time) `{MapOrder}.

(** The fetch of [incrBy], which keeps the pointer of an expired entry. *)
Definition counterKey (m : keyspace) (k : string) (p : option entry * option entry) (s : Store) : Prop :=
  reps now m s /\ loosely s k (snd p) /\ core <$> fst p = m !! k /\
  (forall e, fst p = Some e -> expired now (core e) = false).

Lemma t_counterKey m k :
  tri now (reps now m)
    (o ← lookupKey k;
     match o with
     | None => mret (None, None)
     | Some e => x ← isExpired e;
         if x : bool then _ ← purge k e; mret (None, Some (clearElems e)) else mret (Some e, Some e)
     end)
    (counterKey m k).
Proof.
  tbind t_lookup. destruct a as [e|].
  - tbind t_isExpired. destruct a.
    + apply (t_pure now (expired now (core e) = true)); [by intros s _ [_ <-]|]. intros He.
      eapply t_bind; [eapply t_pre; [by apply (t_expire now m k e)|by intros s [[? <-] _]]|]. intros [].
      apply t_ret. intros s [Hr Hk]. split_and!; try done; simpl.
      * unfold loosely. by rewrite Hk.
      * rewrite Hr. unfold view. by rewrite Hk.
    + apply t_ret. intros s [[Hr Hk] He]. split_and!; [done|by apply loosely_find| |]; simpl.
      * rewrite Hr. unfold view. rewrite <- Hk. simpl. by rewrite <- He.
      * by intros e' [= <-].
  - apply t_ret. intros s [Hr Hk]. split_and!; [done|by apply loosely_find| |done].
    simpl. rewrite Hr. unfold view. by rewrite <- Hk.
Qed.

(** Its second half: the sum is stored, or it overflows. *)
Lemma t_counted m k lv stale b cur n t :
  readInt b = inr cur -> is_int64 n = true -> (forall v, expired now (v, t) = false) ->
  tri now (counterKey m k (lv, stale))
    (match addInt64 cur n with
     | (_, false) => mret (inl overflowErr)
     | (next, true) =>
         let ne := newEntry (VString (Some (FormatInt next))) t in
         reserveAndReplace k (estimateMem k ne - oldBytes k lv) stale ne next
     end)
    (fun a s =>
       match addTo b n with
       | inl e => a = inl e /\ reps now m s
       | inr x => a = inr x /\ reps now (<[k := (VString (Some (FormatInt x)), t)]> m) s
       end).
Proof.
  intros Hr Hn Ht. pose proof (addInt64_addTo b cur n Hr Hn) as Ha.
  destruct (addInt64 cur n) as [x []]; rewrite Ha; [|by apply t_ret; intros s (? & _)].
  eapply t_conseq; [apply (t_reserve now m k); apply fresh_new, value_wf_format|by intros s _ (? & ? & _)|].
  intros a s _ [-> Hp]. split; [done|]. by rewrite put_live in Hp by apply Ht.
Qed.

Lemma d_incrBy m k n :
  is_int64 n = true ->
  does now m (incrBy k n) (updating (stringAt m k) "incr: " k m None (fun b t =>
    rbind (addTo b n) (fun x => inr (Some (VString (Some (FormatInt x)), t), x)))).
Proof.
  intros Hn. unfold incrBy.
  apply t_assoc. eapply t_bind; [apply (t_counterKey m k)|]. intros [lv stale]. cbv beta zeta iota.
  apply (t_pure now (core <$> lv = m !! k /\ forall e, lv = Some e -> expired now (core e) = false));
    [by intros s _ (_ & _ & ? & ?)|]. intros [Hm Hlive].
  unfold stringAt. destruct lv as [e|]; simpl in Hm; rewrite <- Hm.
  - specialize (Hlive e eq_refl). destruct e as [v t ? ?]. unfold core. cbn [e_value e_expiresAt].
    destruct v as [b| | |]; try by (apply t_ret; intros s (? & _)).
    destruct (readInt b) as [err|cur] eqn:Er.
    + apply t_ret. intros s (? & _). unfold updating, addTo. by rewrite Er.
    + eapply t_conseq; [by apply (t_counted m k _ _ b)|done|]. intros a s _ Ha. unfold updating.
      destruct (addTo b n); exact Ha.
  - eapply t_conseq; [by apply (t_counted m k None stale None)|done|]. intros a s _ Ha. unfold updating.
    destruct (addTo None n); exact Ha.
Qed.

Lemma d_MGet m ks : does now m (MGet ks) (mget m ks, m).
Proof.
  unfold MGet. induction ks as [|k ks IH]; [by apply t_ret|]. cbn [mgetLoop mget].
  tbind t_yield. eapply t_bind; [apply (d_Get now m k)|]. intros v. simpl.
  apply (t_pure now (v = get m k)); [by intros s _ [? _]|]. intros ->.
  destruct (get m k) as [err|v] eqn:Eg; [by apply t_ret; intros s [_ ?]|].
  eapply t_bind; [eapply t_pre; [apply IH|by intros s [_ ?]]|]. intros vs. simpl.
  apply (t_pure now (vs = mget m ks /\ slice_wf v)).
  - intros s Hs [-> Hr]. split; [done|]. unfold get, reading, stringAt in Eg.
    destruct (m !! k) as [[[b| | |] t]|] eqn:Em; simplify_eq/=; [|done].
    rewrite Hr in Em. unfold view in Em. destruct (find s k) as [e|] eqn:Ef; simpl in Em; [|done].
    destruct (expired now (core e)); simplify_eq/=. pose proof (inv_value s k e Hs Ef) as Hv.
    unfold core in *. simplify_eq/=. by match goal with H : e_value e = _ |- _ => rewrite H in Hv end.
  - intros [-> Hw]. destruct (mget m ks); apply t_ret; intros s [_ ?]; [done|].
    split; [|done]. by destruct v as [v|]; [rewrite Hw|].
Qed.
End many.

Section several.
Context (now : Time) `{MapOrder}.

Lemma d_msetLoop ps ks m :
  does now m (msetLoop ps ks) (None, bindAll (fun k => default None (ps !! k)) ks m).
Proof.
  revert m. induction ks as [|k ks IH]; intros m; [by apply t_ret|]. cbn [msetLoop].
  tbind t_yield. eapply t_bind; [apply (d_Set now m k)|]. intros r. cbn [fst snd].
  apply (t_pure now (r = None)); [by intros s _ [? _]|]. intros ->.
  eapply t_pre; [apply IH|]. intros s [_ Hr]. by rewrite put_noTTL in Hr.
Qed.

Lemma d_MSet m ps : does now m (MSet ps) (None, strings ps ∪ m).
Proof.
  unfold MSet, sortedKeys. apply t_bind with (R := fun ks s => reps now m s /\ ks ≡ₚ map fst (map_to_list ps)).
  - tbind t_ranged. apply t_ret. intros s [? Hp]. split; [done|]. by rewrite exchangeSort_perm, Hp.
  - intros ks. apply (t_pure now (ks ≡ₚ map fst (map_to_list ps))); [by intros s _ [_ ?]|]. intros Hp.
    rewrite <- (bindAll_strings ps ks m Hp). eapply t_pre; [apply d_msetLoop|]. by intros s [? _].
Qed.

Lemma t_anyLive m ks :
  tri now (reps now m) (anyLive ks) (fun x s => reps now m s /\ x = bool_decide (List.Exists (fun k => is_Some (m !! k)) ks)).
Proof.
  induction ks as [|k ks IH]; [by apply t_ret; intros s ?; split|]. cbn [anyLive]. tbind t_lookup.
  assert (m !! k = None -> bool_decide (List.Exists (fun k => is_Some (m !! k)) ks) =
    bool_decide (List.Exists (fun k => is_Some (m !! k)) (k :: ks))) as Hskip.
  { intros Hk. apply bool_decide_ext. rewrite Exists_cons, Hk. split; [by right|]. by intros [[? ?]|?]. }
  destruct a as [e|].
  - tbind t_isExpired. destruct a.
    + apply (t_pure now (m !! k = None)); [|intros Hk; rewrite <- Hskip by done; eapply t_pre; [apply IH|by intros s [[? _] _]]].
      intros s _ [[Hr Hk] He]. rewrite Hr. unfold view. rewrite <- Hk. simpl. by rewrite <- He.
    + apply t_ret. intros s [[Hr Hk] He]. split; [done|]. symmetry. apply bool_decide_true. left.
      rewrite Hr. unfold view. rewrite <- Hk. simpl. rewrite <- He. eauto.
  - apply (t_pure now (m !! k = None)); [|intros Hk; rewrite <- Hskip by done; eapply t_pre; [apply IH|by intros s [? _]]].
    intros s _ [Hr Hk]. rewrite Hr. unfold view. by rewrite <- Hk.
Qed.

Lemma t_purgeExpired m kvs d : tri now (reps now m) (purgeExpired kvs d) (fun _ => reps now m).
Proof.
  revert d. induction kvs as [|[k v] kvs IH]; intros d; [by apply t_ret|]. cbn [purgeExpired].
  tbind (t_fetch now m k). eapply t_pre; [apply IH|by intros s [? _]].
Qed.

Lemma t_storeAll m (ps : gmap string slice) kvs :
  Forall (fun kv => ps !! kv.1 = Some kv.2) kvs ->
  tri now (reps now m) (storeAll kvs)
    (fun _ => reps now (bindAll (fun k => default None (ps !! k)) (map fst kvs) m)).
Proof.
  intros Hkv. revert m. induction Hkv as [|[k v] kvs Hv Hkv IH]; intros m; [by apply t_ret|].
  cbn [storeAll map fst]. rewrite bindAll_cons. cbn [fst snd] in Hv.
  assert (cloneBytes (default None (ps !! k)) = cloneBytes v) as -> by (unfold slice in *; by rewrite Hv).
  tbind (t_fetch now m k).
  eapply t_bind; [eapply t_pre; [apply (t_replace now m k a); apply fresh_new, value_wf_string|]|].
  - intros s (? & Hk & _). split; [done|by apply loosely_find].
  - intros []. eapply t_pre; [apply IH|]. intros s Hr. by rewrite put_live in Hr.
Qed.

Lemma t_evictUntilFits (P : Store -> Prop) d : tri now P (evictUntilFits d) (fun r s => P s /\ r = None).
Proof.
  intros st a st' Heq Hq HP. unfold evictUntilFits, mbind, M_bind, gets in Heq.
  rewrite (q_max _ _ Hq) in Heq. by injection Heq as <- <-.
Qed.

Lemma busy_dom (ps : gmap string slice) (m : keyspace) (kvs : list (string * slice)) :
  kvs ≡ₚ map_to_list ps ->
  bool_decide (List.Exists (fun k => is_Some (m !! k)) (map fst kvs)) = negb (bool_decide (dom ps ∩ dom m = ∅)).
Proof.
  intros Hp. rewrite <- bool_decide_not. apply bool_decide_ext. rewrite Exists_exists.
  split.
  - intros (k & Hin & [b Hb]) Hd. apply list_elem_of_fmap in Hin as ([k' v] & -> & Hin).
    rewrite Hp, elem_of_map_to_list in Hin. 
    assert (k' ∈ dom ps) by (apply elem_of_dom; eauto). assert (k' ∈ dom m) by (apply elem_of_dom; eauto). set_solver.
  - intros Hd. destruct (set_choose_or_empty (dom ps ∩ dom m)) as [[k Hk]|He]; [|destruct Hd; by apply leibniz_equiv].
    apply elem_of_intersection in Hk as [[v Hv]%elem_of_dom [b Hb]%elem_of_dom].
    exists k. split; [|eauto]. apply list_elem_of_fmap. exists (k, v). by rewrite Hp, elem_of_map_to_list.
Qed.

Lemma d_MSetNX m ps :
  does now m (MSetNX ps) (if bool_decide (dom ps ∩ dom m = ∅) then (inr true, strings ps ∪ m) else (inr false, m)).
Proof.
  unfold MSetNX. case_bool_decide as Hps.
  { subst ps. rewrite bool_decide_true by set_solver. apply t_ret. intros s Hr. split; [done|].
    unfold strings. simpl. by rewrite fmap_empty, (left_id_L ∅ (∪)). }
  eapply t_bind with (R := fun _ => reps now m).
  { unfold acquireShardsInOrder. tbind t_ranged. apply t_ret. by intros s [? _]. }
  intros _. tbind t_ranged. rename a into kvs. apply (t_pure now (kvs ≡ₚ map_to_list ps)); [by intros s _ [_ ?]|]. intros Hp.
  eapply t_bind; [eapply t_pre; [apply (t_anyLive m)|by intros s [? _]]|]. intros busy. cbv beta.
  rewrite (busy_dom ps m kvs Hp). apply (t_pure now (busy = negb (bool_decide (dom ps ∩ dom m = ∅)))); [by intros s _ [_ ?]|].
  intros ->. destruct (bool_decide (dom ps ∩ dom m = ∅)) eqn:Ed; [|by apply t_ret; intros s [? _]]. simpl negb. cbv iota.
  tbind t_ranged. eapply t_bind; [eapply t_pre; [apply (t_purgeExpired m)|by intros s [[? _] _]]|]. intros d. cbv beta.
  tbind t_evictUntilFits. apply (t_pure now (a0 = None)); [by intros s _ [_ ?]|]. intros ->.
  tbind t_yield. tbind t_ranged. rename a1 into kvs'.
  apply (t_pure now (kvs' ≡ₚ map_to_list ps)); [by intros s _ [_ ?]|]. intros Hp'.
  eapply t_bind; [eapply t_pre; [apply (t_anyLive m)|by intros s [[? _] _]]|]. intros busy. cbv beta.
  rewrite (busy_dom ps m kvs' Hp'), Ed. apply (t_pure now (busy = false)); [by intros s _ [_ ?]|]. intros ->.
  tbind t_ranged. rename a1 into kvs2. apply (t_pure now (kvs2 ≡ₚ map_to_list ps)); [by intros s _ [_ ?]|]. intros Hp2.
  assert (Forall (fun kv => ps !! kv.1 = Some kv.2) kvs2) as Hall.
  { apply Forall_forall. intros [k v] Hin. by rewrite Hp2, elem_of_map_to_list in Hin. }
  eapply t_bind; [eapply t_pre; [apply (t_storeAll m ps kvs2 Hall)|by intros s [[? _] _]]|].
  intros []. apply t_ret. intros s Hr. split; [done|]. rewrite bindAll_strings in Hr; [done|]. by rewrite Hp2.
Qed.
End several.
