(* ===== verification/StoreRefineColl.v ===== *)
(** * The hash, list and set calls implement their specification. *)

From S2P Require Import Prelude GoInt GoStr GoTime GoSort Config StoreBase Eviction.
From S2P Require Import StoreString StoreHash StoreList StoreSet StoreKeys StoreOps.
From S2P Require Import StoreHoare StoreView StoreInvOps StoreWf StoreExec StoreSpec StoreRefine.

(** ** The loops, as set, map and list functions *)

Lemma deleteFields_spec h fs n :
  deleteFields h fs n =
    (filter (fun kv => kv.1 ∉ fs) h, n + (Z.of_nat (size h) - Z.of_nat (size (filter (fun kv => kv.1 ∉ fs) h)))).
Proof.
  revert h n. induction fs as [|f fs IH]; intros h n; cbn [deleteFields].
  - rewrite map_filter_id by (intros; set_solver). f_equal. lia.
  - assert (filter (fun kv => kv.1 ∉ f :: fs) h = filter (fun kv => kv.1 ∉ fs) (delete f h)) as Hf.
    { apply map_eq. intros k. apply option_eq. intros v. rewrite !map_lookup_filter_Some, lookup_delete_Some. simpl. set_solver. }
    destruct (h !! f) as [v|] eqn:E; rewrite IH, Hf.
    + f_equal. rewrite (map_size_delete_Some f h) by eauto.
      assert (size h <> 0%nat) by (intros H0; apply map_size_empty_iff in H0; by rewrite H0 in E). lia.
    + by rewrite delete_id.
Qed.

Lemma addMembers_spec st ms n :
  addMembers st ms n = (members ms ∪ st, n + (Z.of_nat (size (members ms ∪ st)) - Z.of_nat (size st))).
Proof.
  revert st n. induction ms as [|x ms IH]; intros st n; cbn [addMembers].
  - unfold members. simpl. rewrite union_empty_l_L. f_equal. lia.
  - assert (members (x :: ms) ∪ st = members ms ∪ ({[ sbytes x ]} ∪ st)) as ->
      by (unfold members; simpl; set_solver).
    case_bool_decide as Hx; rewrite IH.
    + assert ({[ sbytes x ]} ∪ st = st) as -> by set_solver. done.
    + f_equal. rewrite (size_union {[ sbytes x ]} st), size_singleton by set_solver. lia.
Qed.

Lemma delMembers_spec st ms n :
  delMembers st ms n = (st ∖ members ms, n + (Z.of_nat (size st) - Z.of_nat (size (st ∖ members ms)))).
Proof.
  revert st n. induction ms as [|x ms IH]; intros st n; cbn [delMembers].
  - unfold members. simpl. rewrite difference_empty_L. f_equal. lia.
  - assert (st ∖ members (x :: ms) = (st ∖ {[ sbytes x ]}) ∖ members ms) as ->
      by (unfold members; simpl; set_solver).
    case_bool_decide as Hx; rewrite IH.
    + f_equal. rewrite (size_difference st {[ sbytes x ]}), size_singleton by set_solver.
      assert (size st <> 0%nat) by (intros H0; apply size_empty_inv in H0; set_solver). lia.
    + assert (st ∖ {[ sbytes x ]} = st) as -> by set_solver. done.
Qed.

(** HSET counts the fields the hash did not have. *)
Lemma hset_size (ps h : gmap string slice) :
  Z.of_nat (size (ps ∖ h)) = Z.of_nat (size ((cloneBytes <$> ps) ∪ h)) - Z.of_nat (size h).
Proof.
  rewrite <- (size_dom (ps ∖ h)), <- (size_dom (_ ∪ h)), <- (size_dom h).
  rewrite dom_union_L, dom_fmap_L, dom_difference_L.
  set (a := dom ps : gset string). set (b := dom h : gset string).
  assert (a ∪ b = (a ∖ b) ∪ b) as -> by (apply set_eq; intros k; destruct (decide (k ∈ b)); set_solver).
  rewrite (size_union (a ∖ b) b) by set_solver. lia.
Qed.

Lemma pushVals_spec left nl vs : pushVals left nl vs = pushed left nl vs.
Proof.
  unfold pushVals, pushed. revert nl. induction vs as [|v vs IH]; intros nl; simpl.
  - destruct left; [done|by rewrite app_nil_r].
  - rewrite IH. destruct left; by rewrite <- app_assoc.
Qed.

Lemma map_clone_wf l : Forall slice_wf l -> map cloneBytes l = l.
Proof. induction 1 as [|x l Hx Hl IH]; simpl; [done|]. by rewrite Hx, IH. Qed.

Lemma fmap_clone_wf (h : gmap string slice) : map_Forall (fun _ => slice_wf) h -> cloneBytes <$> h = h.
Proof.
  intros Hh. apply map_eq. intros k. rewrite lookup_fmap. destruct (h !! k) as [b|] eqn:E; [|done].
  simpl. f_equal. by apply (Hh k b).
Qed.

Lemma popLoop_spec l n : popLoop l n = (map cloneBytes (take (Z.to_nat n) l), drop (Z.to_nat n) l).
Proof.
  revert n. induction l as [|x l IH]; intros n; cbn [popLoop]; [by rewrite take_nil, drop_nil|].
  destruct (n <=? 0) eqn:E; zify_bool; [by replace (Z.to_nat n) with 0%nat by lia|].
  rewrite IH. by replace (Z.to_nat n) with (S (Z.to_nat (n - 1))) by lia.
Qed.

Lemma rev_drop_rev {A} (l : list A) c : rev (drop c (rev l)) = take (List.length l - c) l.
Proof. rewrite skipn_rev, rev_involutive. done. Qed.

Lemma clamp_spec i n : 0 < n -> normalizeListIndex i n = clampIndex i n.
Proof. intros Hn. unfold normalizeListIndex, clampIndex. repeat split_goal; zify_bool; lia. Qed.

Lemma clamp_range i n : 0 < n -> 0 <= clampIndex i n < n.
Proof. intros Hn. unfold clampIndex. lia. Qed.

Lemma copyRange_in l i st en :
  st <= i -> copyRange l i st en = map cloneBytes (take (Z.to_nat (en - i + 1)) l).
Proof.
  revert i. induction l as [|x l IH]; intros i Hi; cbn [copyRange]; [by rewrite take_nil|].
  replace (i >=? st) with true by (symmetry; apply Z.geb_le; lia). simpl andb. rewrite IH by lia.
  destruct (i <=? en) eqn:E; zify_bool.
  - by replace (Z.to_nat (en - i + 1)) with (S (Z.to_nat (en - (i + 1) + 1))) by lia.
  - replace (Z.to_nat (en - i + 1)) with 0%nat by lia. by replace (Z.to_nat (en - (i + 1) + 1)) with 0%nat by lia.
Qed.

Lemma copyRange_from l i st en :
  i <= st -> copyRange l i st en = map cloneBytes (take (Z.to_nat (en - st + 1)) (drop (Z.to_nat (st - i)) l)).
Proof.
  revert i. induction l as [|x l IH]; intros i Hi; cbn [copyRange]; [by rewrite drop_nil, take_nil|].
  destruct (decide (i = st)) as [<-|Hne]; [rewrite Z.sub_diag; by apply (copyRange_in (x :: l))|].
  replace (i >=? st) with false by (symmetry; rewrite Z.geb_leb; apply Z.leb_gt; lia). simpl andb.
  rewrite IH by lia. by replace (Z.to_nat (st - i)) with (S (Z.to_nat (st - (i + 1)))) by lia.
Qed.

Lemma copyRange_spec l st en : 0 <= st -> copyRange l 0 st en = map cloneBytes (window st en l).
Proof. intros Hs. rewrite copyRange_from by lia. unfold window. by rewrite Z.sub_0_r. Qed.

Lemma Forall_window (P : slice -> Prop) a b l : Forall P l -> Forall P (window a b l).
Proof. intros Hl. by apply Forall_take, Forall_drop. Qed.

Lemma without_length n v l : (List.length (without n v l) <= List.length l)%nat.
Proof.
  revert n. induction l as [|x l IH]; intros [|n]; simpl; try lia. destruct (bytesEqual x v); simpl.
  - specialize (IH n). lia.
  - specialize (IH (S n)). lia.
Qed.

Lemma removeEqual_some v n l :
  removeEqual v (Some n) l = (without (Z.to_nat n) v l, listLen l - listLen (without (Z.to_nat n) v l)).
Proof.
  unfold listLen. revert n. induction l as [|x l IH]; intros n; [done|]. cbn [removeEqual].
  destruct (n <=? 0) eqn:E; zify_bool.
  - replace (Z.to_nat n) with 0%nat by lia. cbn [without]. f_equal. lia.
  - replace (Z.to_nat n) with (S (Z.to_nat (n - 1))) by lia. cbn [without fmap option_fmap option_map].
    destruct (bytesEqual x v).
    + unfold Z.pred. replace (n + -1) with (n - 1) by lia. rewrite IH. f_equal. cbn [List.length]. lia.
    + rewrite IH. replace (Z.to_nat n) with (S (Z.to_nat (n - 1))) by lia. f_equal. cbn [List.length]. lia.
Qed.

Lemma removeEqual_none v l :
  let l' := List.filter (fun x => negb (bytesEqual x v)) l in
  removeEqual v None l = (l', listLen l - listLen l').
Proof.
  unfold listLen. induction l as [|x l IH]; [done|]. cbn [removeEqual List.filter fmap option_fmap option_map].
  destruct (bytesEqual x v); simpl negb; rewrite IH; f_equal; cbn [List.length]; lia.
Qed.

Lemma remLoop_spec n v l : remLoop n v l = (removed n v l, listLen l - listLen (removed n v l)).
Proof.
  unfold remLoop, removed. destruct (n =? 0); [apply removeEqual_none|].
  rewrite Z.gtb_ltb. destruct (0 <? n); [apply removeEqual_some|]. rewrite removeEqual_some. f_equal.
  unfold listLen. by rewrite !length_rev.
Qed.

Lemma pivotIndex_spec p l : pivotIndex p l = fst <$> list_find (fun x => bytesEqual x p = true) l.
Proof.
  induction l as [|x l IH]; [done|]. simpl. destruct (decide (bytesEqual x p = true)) as [->|Hne]; [done|].
  destruct (bytesEqual x p); [done|]. rewrite IH. by destruct (list_find _ l) as [[i y]|].
Qed.

Lemma insertAt_spec before p v i l :
  (i <= p < i + List.length l)%nat -> insertAt before p (cloneBytes v) i l = inserted before (p - i) v l.
Proof.
  revert i. induction l as [|x l IH]; intros i Hi; simpl in Hi; [lia|]. cbn [insertAt].
  assert (forall j, (p < j)%nat -> insertAt before p (cloneBytes v) j l = l) as Hafter.
  { clear. revert p. induction l as [|y l IH]; intros p j Hj; [done|]. cbn [insertAt].
    replace (j =? p)%nat with false by (symmetry; apply Nat.eqb_neq; lia). rewrite !andb_false_r. simpl. rewrite IH by lia. done. }
  unfold inserted. destruct (i =? p)%nat eqn:E.
  - apply Nat.eqb_eq in E as ->. rewrite Hafter by lia. replace (p - p)%nat with 0%nat by lia. by destruct before.
  - apply Nat.eqb_neq in E. rewrite !andb_false_r, IH by lia. unfold inserted.
    replace (p - i)%nat with (S (p - S i)) by lia. by destruct before.
Qed.

(** ** Hashes *)

Section hashes.
Context (now : Time) `{MapOrder}.

Lemma reps_wf m s k v t : store_wf s -> reps now m s -> m !! k = Some (v, t) -> value_wf v.
Proof.
  intros Hs Hr Hk. rewrite Hr in Hk. unfold view in Hk. destruct (find s k) as [e|] eqn:Ef; simpl in Hk; [|done].
  destruct (expired now (core e)); [done|]. unfold core in Hk. simplify_eq. by apply (inv_value s k).
Qed.

(** [x] is the result of the prologue of a read. *)
Lemma t_known {A B} m (c : M A) (a : A) (f : A -> M B) Q :
  does now m c (a, m) -> tri now (reps now m) (f a) Q -> tri now (reps now m) (c ≫= f) Q.
Proof.
  intros Hc Hf. eapply t_bind; [exact Hc|]. intros a'. simpl.
  apply (t_pure now (a' = a)); [by intros s _ [? _]|]. intros ->. eapply t_pre; [exact Hf|]. by intros s [_ ?].
Qed.

Lemma d_ret {A} m (a : A) x : a = fst x -> m = snd x -> tri now (reps now m) (mret a) (fun a s => a = fst x /\ reps now (snd x) s).
Proof. intros -> ->. by apply t_ret. Qed.

Lemma d_readHash op m k : does now m (readHash op k) (reading (hashAt m k) op None Some, m).
Proof.
  unfold hashAt. apply t_fetched; [intros Hm; rewrite Hm; treply|].
  intros v t a b Hm Hv He. rewrite Hm. cbn [e_value]. destruct v; try treply.
  apply (t_touched now m k). intros; treply.
Qed.

(** A read that only looks at the hash. *)
Lemma d_reading {A} op m k (body : gmap string slice -> A) none (f : gmap string slice -> A) :
  (forall h, map_Forall (fun _ => slice_wf) h -> body h = f h) ->
  does now m (r ← readHash op k;
    match r with
    | inl err => mret (inl err)
    | inr None => mret (inr none)
    | inr (Some h) => mret (inr (body h))
    end) (reading (hashAt m k) op none f, m).
Proof.
  intros Hf. eapply t_known; [apply d_readHash|]. unfold hashAt.
  destruct (m !! k) as [[[b|h|l|st] t]|] eqn:Em; cbn [reading wrongType]; try by apply d_ret.
  apply (t_pure now (map_Forall (fun _ => slice_wf) h)); [intros s Hs Hr; by apply (reps_wf m s k (VHash h) t)|].
  intros Hh. apply d_ret; [by rewrite Hf|done].
Qed.

(** [if] and [match] commute with the return of a read. *)
Lemma tri_ext {A} P (c c' : M A) Q : (forall st, c st = c' st) -> tri now P c' Q -> tri now P c Q.
Proof. intros He Hc st a st' Heq. apply Hc. by rewrite <- He. Qed.

Lemma d_HGet m k f : does now m (HGet k f) (reading (hashAt m k) "hget: " None (fun h => default None (h !! f)), m).
Proof.
  eapply tri_ext; [|apply (d_reading "hget: " m k (fun h => match h !! f with None => None | Some v => cloneBytes v end))].
  - intros st. unfold HGet, mbind, M_bind. destruct (readHash _ _ _) as [[err|[h|]] st']; try done. by destruct (h !! f).
  - intros h Hh. destruct (h !! f) as [v|] eqn:E; simpl; [by apply (Hh f v)|done].
Qed.

Lemma d_HGetAll m k : does now m (HGetAll k) (reading (hashAt m k) "hgetall: " None Some, m).
Proof. apply (d_reading "hgetall: " m k (fun h => Some (cloneBytes <$> h))). intros h Hh. by rewrite fmap_clone_wf. Qed.

Lemma d_HExists m k f :
  does now m (HExists k f) (reading (hashAt m k) "hexists: " false (fun h => bool_decide (f ∈ dom h)), m).
Proof.
  apply (d_reading "hexists: " m k (fun h => bool_decide (is_Some (h !! f)))). intros h Hh.
  apply bool_decide_ext. by rewrite elem_of_dom.
Qed.

Lemma d_HLen m k : does now m (HLen k) (reading (hashAt m k) "hlen: " 0 (fun h => Z.of_nat (size h)), m).
Proof. by apply (d_reading "hlen: " m k (fun h => Z.of_nat (size h))). Qed.

Lemma d_HDel m k fs :
  does now m (HDel k fs) (changing (hashAt m k) "hdel: " k m 0 (fun h =>
    let h' := filter (fun kv => kv.1 ∉ fs) h in
    (nonEmptyHash h', Z.of_nat (size h) - Z.of_nat (size h')))).
Proof.
  unfold hashAt. apply t_fetched; [intros Hm; rewrite Hm; treply|].
  intros v t a b Hm Hv He. rewrite Hm. cbn [e_value]. destruct v as [|h| |]; try treply.
  rewrite deleteFields_spec. cbv zeta beta iota. unfold changing, nonEmptyHash. case_bool_decide.
  - by apply t_purged.
  - apply t_replaced; [apply fresh_new|done|by apply put_live]. intros f x [Hx _]%map_lookup_filter_Some. by apply (Hv f x).
Qed.

(** The shape of the hash writes. *)
Lemma d_writing {A} op m k (body : option entry -> gmap string slice -> M (res A)) f :
  (forall old h, m !! k = (fun e => (VHash h, e_expiresAt e)) <$> old -> (old = None -> h = ∅) ->
     map_Forall (fun _ => slice_wf) h -> (forall v, expired now (v, keepTTL old) = false) ->
     tri now (has now m k old) (body old h) (fun a s =>
       match f h (keepTTL old) with
       | inl e => a = inl e /\ reps now m s
       | inr (Some b, r) => a = inr r /\ reps now (<[k := b]> m) s
       | inr (None, r) => a = inr r /\ reps now (delete k m) s
       end)) ->
  does now m (r ← writeHash op k;
    match r with inl err => mret (inl err) | inr (old, h) => body old h end)
    (updating (hashAt m k) op k m ∅ f).
Proof.
  intros Hb. eapply tri_ext; [|apply (t_fetched now m k (fun o =>
    match o with
    | None => body None ∅
    | Some e => match e_value e with VHash h => body (Some e) h | _ => mret (wrongType op) end
    end))].
  - intros st. unfold writeHash, mbind, M_bind. destruct (fetch k st) as [[e|] st']; [|done]. by destruct (e_value e).
  - intros Hm. unfold hashAt, updating. rewrite Hm.
    eapply t_conseq; [apply (Hb None ∅); [by rewrite Hm|done|apply map_Forall_empty|done]|done|].
    intros a s _ Ha. simpl in Ha. by destruct (f ∅ noTTL) as [|[[b|] r]].
  - intros v t a b Hm Hv He. unfold hashAt, updating. rewrite Hm. cbn [e_value]. destruct v as [|h| |]; try treply.
    eapply t_conseq; [apply (Hb (Some (mkEntry (VHash h) t a b)) h); [by rewrite Hm|done|done|done]|done|].
    intros r s _ Ha. simpl in Ha. by destruct (f h t) as [|[[b'|] r']].
Qed.

Lemma t_storeHash {A} m k old h (r : A) :
  map_Forall (fun _ => slice_wf) h -> (forall v, expired now (v, keepTTL old) = false) ->
  tri now (has now m k old) (storeHash k old h r)
    (fun a s => a = inr r /\ reps now (<[k := (VHash h, keepTTL old)]> m) s).
Proof.
  intros Hh He. refine (t_stored now m k _ old _ r (inr r : res A, <[k := (VHash h, keepTTL old)]> m) _ _ _);
    [by apply fresh_new|done|]. apply put_live, He.
Qed.

Lemma wf_insert_clone (h : gmap string slice) f v :
  map_Forall (fun _ => slice_wf) h -> slice_wf v -> map_Forall (fun _ => slice_wf) (<[f := v]> h).
Proof. intros Hh Hv. by apply map_Forall_insert_2. Qed.

Lemma d_HSet m k ps :
  does now m (HSet k ps) (if bool_decide (ps = ∅) then (inr 0, m)
    else updating (hashAt m k) "hset: " k m ∅ (fun h t =>
      let h' := (cloneBytes <$> ps) ∪ h in inr (Some (VHash h', t), Z.of_nat (size h') - Z.of_nat (size h)))).
Proof.
  unfold HSet. case_bool_decide; [by apply t_ret|].
  apply (d_writing "hset: " m k (fun old h => storeHash k old ((cloneBytes <$> ps) ∪ h) (Z.of_nat (size (ps ∖ h))))).
  intros old h Hm _ Hh He. cbv zeta beta iota. rewrite <- hset_size. apply t_storeHash; [|done].
  apply map_Forall_union_2; [|done]. intros f x. rewrite lookup_fmap. intros (y & _ & ->)%fmap_Some. apply slice_wf_clone.
Qed.

Lemma d_HSetNX m k f v :
  does now m (HSetNX k f v) (updating (hashAt m k) "hsetnx: " k m ∅ (fun h t =>
    inr (match h !! f with
         | Some _ => (Some (VHash h, t), 0)
         | None => (Some (VHash (<[f := cloneBytes v]> h), t), 1)
         end))).
Proof.
  apply (d_writing "hsetnx: " m k (fun old h =>
    match h !! f with Some _ => mret (inr 0) | None => storeHash k old (<[f := cloneBytes v]> h) 1 end)).
  intros old h Hm H0 Hh He. destruct (h !! f) as [x|] eqn:Ef.
  - apply t_ret. intros s [Hr Hk]. split; [done|]. destruct old as [e|]; simpl in Hm; [by rewrite insert_id|].
    by rewrite H0 in Ef.
  - apply t_storeHash; [|done]. by apply wf_insert_clone; [|apply slice_wf_clone].
Qed.

Lemma d_HIncrBy m k f n :
  is_int64 n = true ->
  does now m (HIncrBy k f n) (updating (hashAt m k) "hincrby: " k m ∅ (fun h t =>
    rbind (addTo (default None (h !! f)) n) (fun x => inr (Some (VHash (<[f := Some (FormatInt x)]> h), t), x)))).
Proof.
  intros Hn. apply (d_writing "hincrby: " m k (fun old h =>
    match readInt (default None (h !! f)) with
    | inl err => mret (inl err)
    | inr cur =>
        match addInt64 cur n with
        | (_, false) => mret (inl overflowErr)
        | (next, true) => storeHash k old (<[f := Some (FormatInt next)]> h) next
        end
    end)).
  intros old h Hm _ Hh He. destruct (readInt _) as [err|cur] eqn:Er.
  - unfold addTo. rewrite Er. apply t_ret. by intros s [? _].
  - pose proof (addInt64_addTo _ cur n Er Hn) as Ha. destruct (addInt64 cur n) as [x []]; rewrite Ha; simpl rbind; cbv iota beta.
    + apply t_storeHash; [|done]. by apply wf_insert_clone; [|apply slice_wf_format].
    + apply t_ret. by intros s [? _].
Qed.
End hashes.

(** ** Lists *)

(** [tlist op]: fetch a list; the missing key and the other types return. *)
Ltac tlist :=
  unfold listAt; apply t_fetched;
  [ intros Hm; rewrite Hm; try treply
  | intros v t a b Hm Hv He; rewrite Hm; cbn [e_value e_expiresAt]; destruct v as [| |l|]; try treply ].

Section lists.
Context (now : Time) `{MapOrder}.

Lemma d_LLen m k : does now m (LLen k) (reading (listAt m k) "list: " 0 listLen, m).
Proof. unfold LLen, listLenLocked. tlist. Qed.

Lemma pushed_wf left l vs : Forall slice_wf l -> Forall slice_wf (pushed left l vs).
Proof.
  intros Hl. assert (Forall slice_wf (map cloneBytes vs)) as Hv by (apply Forall_map, Forall_true, slice_wf_clone).
  unfold pushed. destruct left; apply Forall_app; split; auto using Forall_rev.
Qed.

Lemma d_listPush m k vs left : does now m (listPush k vs left) (push left k vs m).
Proof.
  unfold listPush, push. case_bool_decide; [apply d_LLen|]. tlist.
  - rewrite pushVals_spec. apply t_stored; [apply fresh_new, pushed_wf; constructor|done|by apply put_live].
  - rewrite pushVals_spec. apply t_stored; [by apply fresh_new, pushed_wf|done|by apply put_live].
Qed.

Lemma d_listPushX m k vs left : does now m (listPushX k vs left) (pushX left k vs m).
Proof.
  unfold listPushX, pushX. case_bool_decide; [apply d_LLen|]. tlist.
  rewrite pushVals_spec. apply t_stored; [by apply fresh_new, pushed_wf|done|by apply put_live].
Qed.

Lemma taken_wf left c l : Forall slice_wf l -> Forall slice_wf (fst (taken left c l)) /\ Forall slice_wf (snd (taken left c l)).
Proof.
  intros Hl. unfold taken. destruct left; simpl; split; try by apply Forall_take. 
  - by apply Forall_drop.
  - by apply Forall_take, Forall_rev.
Qed.

Lemma pop_spec (left : bool) l n :
  Forall slice_wf l -> (if left then popLoop l n else popBack l n) = taken left (Z.to_nat n) l.
Proof.
  intros Hl. destruct left; unfold popBack, taken; rewrite popLoop_spec.
  - by rewrite map_clone_wf by by apply Forall_take.
  - rewrite map_clone_wf by by apply Forall_take, Forall_rev. by rewrite rev_drop_rev.
Qed.

Lemma d_popWith (left : bool) op m k n :
  does now m (popWith op (if left then popLoop else popBack) k n) (popFrom left op k n m).
Proof.
  unfold popFrom. tlist. apply (t_touched now m k). clear a b. intros a b.
  case_bool_decide; [treply|]. destruct (negb _); [treply|].
  pose proof (pop_spec left l (popCount n) Hv) as Hp. pose proof (taken_wf left (Z.to_nat (popCount n)) l Hv) as [_ Hw].
  rewrite <- Hp in *. destruct left; [destruct (popLoop l _) as [out rest]|destruct (popBack l _) as [out rest]];
    unfold nonEmptyList; (case_bool_decide; [by apply t_purged|]);
    (apply (t_replaced_as now m k (mkEntry (VList l) t a b)); [done|by apply fresh_new|done|by apply put_live]).
Qed.

Lemma indexOf_spec i l :
  indexOf i l =
    let n := listLen l in
    if (i >=? 0) && (i >=? n) then None
    else let idx := normalizeListIndex i n in
         if (idx <? 0) || (idx >=? n) then None else Some (Z.to_nat idx).
Proof.
  unfold indexOf. cbv zeta. assert (0 <= listLen l) by (unfold listLen; lia).
  destruct (listLen l <=? i) eqn:E1; zify_bool.
  - replace (i >=? 0) with true by (symmetry; apply Z.geb_le; lia).
    by replace (i >=? listLen l) with true by (symmetry; apply Z.geb_le; lia).
  - replace (i >=? listLen l) with false by (symmetry; rewrite Z.geb_leb; apply Z.leb_gt; lia). rewrite andb_false_r.
    destruct (listLen l =? 0) eqn:E2; zify_bool.
    + rewrite E2 in *. unfold normalizeListIndex. repeat split_goal; zify_bool; try done; lia.
    + rewrite clamp_spec by lia. pose proof (clamp_range i (listLen l) ltac:(lia)).
      replace (clampIndex i (listLen l) <? 0) with false by (symmetry; apply Z.ltb_ge; lia).
      by replace (clampIndex i (listLen l) >=? listLen l) with false by (symmetry; rewrite Z.geb_leb; apply Z.leb_gt; lia).
Qed.

Lemma listElemAt_spec l idx : (idx <? 0) || (idx >=? listLen l) = false -> listElemAt l idx = l !! Z.to_nat idx.
Proof. unfold listElemAt. fold (listLen l). by intros ->. Qed.

Lemma d_LIndex m k i :
  does now m (LIndex k i) (reading (listAt m k) "lindex: " None (fun l => j ← indexOf i l; default None (l !! j)), m).
Proof.
  unfold LIndex. tlist. apply (t_touched now m k). clear a b. intros a b. fold (listLen l).
  cbn [reading]. rewrite indexOf_spec. cbv zeta.
  destruct (listLen l =? 0) eqn:E0.
  { zify_bool. rewrite E0. destruct (_ && _); [treply|].
    assert ((normalizeListIndex i 0 <? 0) || (normalizeListIndex i 0 >=? 0) = true) as ->; [|treply].
    unfold normalizeListIndex. repeat split_goal; zify_bool; lia. }
  destruct (_ && _); [treply|]. destruct (_ || _) eqn:Eo; [treply|].
  rewrite listElemAt_spec by done. destruct (l !! _) as [x|] eqn:Ex.
  - treply. simpl. unfold slice in *. rewrite Ex. simpl. f_equal.
    by apply (Forall_lookup_1 _ _ _ _ Hv Ex).
  - treply. simpl. unfold slice in *. by rewrite Ex.
Qed.

Lemma d_LSet m k i v : does now m (LSet k i v) (setElem k i v m).
Proof.
  unfold LSet, setElem. unfold listAt. apply t_fetched; [intros Hm; rewrite Hm; treply|].
  intros v' t a b Hm Hv He. rewrite Hm. cbn [e_value e_expiresAt]. destruct v' as [| |l|]; try treply. fold (listLen l).
  rewrite indexOf_spec. cbv zeta. destruct (_ && _); [treply|]. destruct (_ || _) eqn:Eo; [treply|].
  rewrite listElemAt_spec by done. destruct (l !! _) as [x|] eqn:Ex.
  - apply (t_replaced_as now m k (mkEntry (VList l) t a b)); [done| |done|by apply put_live].
    apply fresh_new. simpl. apply Forall_insert; [done|apply slice_wf_clone].
  - apply lookup_ge_None_1 in Ex. apply orb_false_iff in Eo as [E1 E2]. unfold listLen in *. zify_bool. lia.
Qed.

Lemma clamped l i : l <> [] ->
  let n := Z.of_nat (List.length l) in
  (if normalizeListIndex i n <? 0 then 0 else normalizeListIndex i n) = clampIndex i (listLen l) /\
  (if normalizeListIndex i n >=? n then n - 1 else normalizeListIndex i n) = clampIndex i (listLen l).
Proof.
  intros Hl n. fold (listLen l) in n. assert (0 < n) as Hn by (destruct l; [done|unfold n, listLen; simpl; lia]).
  rewrite clamp_spec by done. pose proof (clamp_range i n Hn). unfold n in *.
  replace (clampIndex i (listLen l) <? 0) with false by (symmetry; apply Z.ltb_ge; lia).
  by replace (clampIndex i (listLen l) >=? listLen l) with false by (symmetry; rewrite Z.geb_leb; apply Z.leb_gt; lia).
Qed.

Lemma window_empty a b l : b < a -> window a b l = [].
Proof. intros Hab. unfold window. by replace (Z.to_nat (b - a + 1)) with 0%nat by lia. Qed.

Lemma d_LRange m k x y :
  does now m (LRange k x y) (reading (listAt m k) "lrange: " None (fun l =>
    let n := listLen l in Some (if n <=? x then [] else window (clampIndex x n) (clampIndex y n) l)), m).
Proof.
  unfold LRange. tlist. apply (t_touched now m k). clear a b. intros a b. cbv zeta.
  destruct (decide (l = [])) as [->|Hne].
  { simpl Z.eqb. cbv iota. treply. simpl. unfold window. rewrite drop_nil, take_nil. by destruct (_ <=? x). }
  destruct (clamped l x Hne) as [Hx _], (clamped l y Hne) as [_ Hy]. rewrite Hx, Hy. fold (listLen l).
  assert (0 < listLen l) as Hn by (destruct l; [done|unfold listLen; simpl; lia]).
  replace (listLen l =? 0) with false by (symmetry; apply Z.eqb_neq; lia).
  assert ((x >=? 0) && (x >=? listLen l) = (listLen l <=? x)) as ->
    by (rewrite !Z.geb_leb; destruct (listLen l <=? x) eqn:E; zify_bool; [apply andb_true_iff; split; [apply Z.leb_le; lia|done]|apply andb_false_r]).
  destruct (listLen l <=? x) eqn:El; [treply; simpl; by rewrite El|].
  pose proof (clamp_range x (listLen l) Hn). destruct (_ >? _) eqn:Eg; treply; simpl; rewrite El.
  - by rewrite window_empty by zlia.
  - by rewrite copyRange_spec, map_clone_wf by (lia || by apply Forall_window).
Qed.

Lemma d_LTrim m k x y : does now m (LTrim k x y) (trim k x y m).
Proof.
  unfold LTrim, trim. tlist. apply (t_touched now m k). clear a b. intros a b. cbv zeta.
  destruct (decide (l = [])) as [->|Hne]; [simpl Z.eqb; cbv iota; treply|]. rewrite (bool_decide_false (l = [])) by done.
  destruct (clamped l x Hne) as [Hx _], (clamped l y Hne) as [_ Hy]. rewrite Hx, Hy. fold (listLen l).
  assert (0 < listLen l) as Hn by (destruct l; [done|unfold listLen; simpl; lia]).
  replace (listLen l =? 0) with false by (symmetry; apply Z.eqb_neq; lia).
  pose proof (clamp_range x (listLen l) Hn). destruct (_ >? _) eqn:Eg.
  - rewrite window_empty by zlia. by apply t_purged.
  - rewrite copyRange_spec, map_clone_wf by (lia || by apply Forall_window). unfold nonEmptyList.
    case_bool_decide; [by apply t_purged|].
    apply t_replaced; [by apply fresh_new, Forall_window|done|by apply put_live].
Qed.

Lemma d_LRem m k n v :
  does now m (LRem k n v) (changing (listAt m k) "lrem: " k m 0 (fun l =>
    let l' := removed n v l in
    (if bool_decide (l = []) then Some (VList l) else nonEmptyList l', listLen l - listLen l'))).
Proof.
  unfold LRem. unfold listAt. apply t_fetched; [intros Hm; rewrite Hm; treply|].
  intros v' t a b Hm Hv He. rewrite Hm. cbn [e_value e_expiresAt]. destruct v' as [| |l|]; try treply.
  apply (t_touched now m k). clear a b. intros a b. unfold changing. cbv zeta.
  destruct (decide (l = [])) as [->|Hne].
  - simpl bool_decide. cbv iota. treply; simpl.
    + unfold removed. destruct (n =? 0); [done|]. destruct (0 <? n); [done|]. done.
    + by rewrite insert_id.
  - rewrite (bool_decide_false (l = [])) by done. pose proof (remLoop_wf n v l Hv) as Hw. rewrite remLoop_spec in *. simpl in Hw. unfold nonEmptyList. case_bool_decide.
    + by apply (t_purged now m k (mkEntry (VList l) t a b)).
    + apply (t_replaced_as now m k (mkEntry (VList l) t a b)); [done|by apply fresh_new|done|by apply put_live].
Qed.

Lemma inserted_length before i v l :
  (i < List.length l)%nat -> listLen (inserted before i v l) = listLen l + 1.
Proof.
  intros Hi. unfold listLen, inserted. rewrite !length_app, length_take, length_drop. simpl. destruct before; lia.
Qed.

Lemma d_LInsert m k before p v :
  does now m (LInsert k before p v) (changing (listAt m k) "linsert: " k m 0 (fun l =>
    match list_find (fun x => bytesEqual x p = true) l with
    | None => (Some (VList l), -1)
    | Some (i, _) => (Some (VList (inserted before i v l)), listLen l + 1)
    end)).
Proof.
  unfold LInsert. unfold listAt. apply t_fetched; [intros Hm; rewrite Hm; treply|].
  intros v' t a b Hm Hv He. rewrite Hm. cbn [e_value e_expiresAt]. destruct v' as [| |l|]; try treply.
  apply (t_touched now m k). clear a b. intros a b. unfold changing. rewrite pivotIndex_spec.
  destruct (list_find _ l) as [[i x]|] eqn:Ef; simpl fmap; cbv iota beta zeta.
  - apply list_find_Some in Ef as (Hi & _ & _). apply lookup_lt_Some in Hi.
    rewrite insertAt_spec by lia. replace (i - 0)%nat with i by lia.
    apply t_stored; [|simpl; f_equal; apply (inserted_length before i v l Hi)|by apply put_live].
    apply fresh_new. simpl. unfold inserted.
    apply Forall_app; split; [by apply Forall_take|]. constructor; [apply slice_wf_clone|by apply Forall_drop].
  - treply. simpl. by rewrite insert_id.
Qed.
End lists.

(** ** Sets *)

Section sets.
Context (now : Time) `{MapOrder}.

Lemma d_readSet op m k : does now m (readSet op k) (reading (setAt m k) op None Some, m).
Proof.
  unfold setAt. apply t_fetched; [intros Hm; rewrite Hm; treply|].
  intros v t a b Hm Hv He. rewrite Hm. cbn [e_value]. destruct v; try treply.
  apply (t_touched now m k). intros; treply.
Qed.

Lemma d_SIsMember m k x :
  does now m (SIsMember k x) (reading (setAt m k) "sismember: " false (fun st => bool_decide (sbytes x ∈ st)), m).
Proof.
  eapply t_known; [apply d_readSet|]. unfold setAt.
  destruct (m !! k) as [[[b|h|l|st] t]|]; cbn [reading wrongType]; by apply d_ret.
Qed.

Lemma d_SCard m k : does now m (SCard k) (reading (setAt m k) "scard: " 0 (fun st => Z.of_nat (size st)), m).
Proof.
  eapply t_known; [apply d_readSet|]. unfold setAt.
  destruct (m !! k) as [[[b|h|l|st] t]|]; cbn [reading wrongType]; by apply d_ret.
Qed.

Lemma t_SMembers m k :
  tri now (reps now m) (SMembers k) (fun r s => reps now m s /\ exists ms,
    r = reading (setAt m k) "smembers: " None (fun _ => Some (map Some ms)) /\
    forall st t, setAt m k = Holds st t -> ms ≡ₚ elements st).
Proof.
  eapply t_known; [apply d_readSet|]. unfold setAt.
  destruct (m !! k) as [[[b|h|l|st] t]|]; cbn [reading wrongType]; try by (apply t_ret; intros s ?; split; [done|]; exists []).
  tbind t_ranged. apply t_ret. intros s [? Hp]. split; [done|]. exists a. split; [done|]. by intros st' t' [= <- <-].
Qed.

Lemma d_SAdd m k ms :
  does now m (SAdd k ms) (if bool_decide (ms = []) then (inr 0, m)
    else updating (setAt m k) "sadd: " k m ∅ (fun st t =>
      let st' := members ms ∪ st in inr (Some (VSet st', t), Z.of_nat (size st') - Z.of_nat (size st)))).
Proof.
  unfold SAdd. case_bool_decide; [by apply t_ret|]. unfold setAt. apply t_fetched.
  - intros Hm. rewrite Hm. rewrite addMembers_spec. by apply t_stored; [| |apply put_live].
  - intros v t a b Hm Hv He. rewrite Hm. cbn [e_value]. destruct v as [| | |st]; try treply.
    rewrite addMembers_spec. by apply t_stored; [| |apply put_live].
Qed.

Lemma d_SRem m k ms :
  does now m (SRem k ms) (changing (setAt m k) "srem: " k m 0 (fun st =>
    let st' := st ∖ members ms in (nonEmptySet st', Z.of_nat (size st) - Z.of_nat (size st')))).
Proof.
  unfold setAt. apply t_fetched; [intros Hm; rewrite Hm; treply|].
  intros v t a b Hm Hv He. rewrite Hm. cbn [e_value]. destruct v as [| | |st]; try treply.
  rewrite delMembers_spec. cbv zeta beta iota. unfold changing, nonEmptySet. case_bool_decide; [by apply t_purged|].
  by apply t_replaced; [| |apply put_live].
Qed.

Lemma d_ReplaceSet m k ms :
  does now m (ReplaceSet k ms) (None, <[k := (VSet (members ms), ttlOf m k)]> m).
Proof.
  unfold ReplaceSet. cbv zeta. unfold ttlOf.
  assert (forall old t, keepTTL old = t -> (forall v, expired now (v, t) = false) ->
    let ne := newEntry (VSet (members ms)) (keepTTL old) in
    tri now (has now m k old) (r ← reserveAndReplace k (estimateMem k ne - oldBytes k old) old ne ();
      mret (match r with inl err => Some err | inr _ => None end))
      (fun a s => a = None /\ reps now (<[k := (VSet (members ms), t)]> m) s)) as Hgo.
  { intros old t <- He ne.
    eapply t_bind; [refine (t_stored now m k _ old ne tt (inr tt : res unit, <[k := (VSet (members ms), keepTTL old)]> m) _ _ _);
      [done|done|apply put_live, He]|].
    intros r. apply t_ret. by intros s [-> ?]. }
  apply t_fetched.
  - intros Hm. rewrite Hm. by apply (Hgo None noTTL).
  - intros v t a b Hm Hv He. rewrite Hm. by apply (Hgo (Some (mkEntry v t a b)) t).
Qed.
End sets.
