(* ===== verification/StoreRefineKeys.v ===== *)
(** * The key and keyspace calls implement their specification; the whole interface does. *)

From S2P Require Import Prelude GoInt GoStr GoTime GoSort Config StoreBase Eviction.
From S2P Require Import StoreString StoreHash StoreList StoreSet StoreKeys StoreOps.
From S2P Require Import StoreHoare StoreView StoreInvOps StoreWf StoreExec StoreSpec StoreRefine StoreRefineColl.

(** [tyield]: nobody moves in the window. *)
Ltac tyield := eapply t_bind; [apply t_yield | intros []; cbv beta].

Lemma find_unlinked k e s k' : full s -> find (unlinked k e s) k' = if decide (k = k') then None else find s k'.
Proof.
  intros Hs. unfold unlinked. rewrite find_addMem, find_onShard by auto using full_onShard, shardIndex_lt.
  rewrite shardAt_onShard, find_onShard by auto using shardIndex_lt. simpl. rewrite sh_m_removeFromLRU.
  destruct (decide (shardIndex k = shardIndex k')) as [Hi|Hi], (decide (k = k')) as [<-|Hne]; try done.
  - apply lookup_delete_eq.
  - rewrite lookup_delete_ne by done. unfold find. by rewrite Hi.
Qed.

Section keys.
Context (now : Time) `{MapOrder}.

Lemma filter_notin_cons k ks (m : keyspace) :
  filter (fun kb => kb.1 ∉ k :: ks) m = filter (fun kb => kb.1 ∉ ks) (delete k m).
Proof.
  apply map_eq. intros k'. apply option_eq. intros v.
  rewrite !map_lookup_filter_Some, lookup_delete_Some. simpl. set_solver.
Qed.

Lemma d_delLoop m ks n :
  let m1 := filter (fun kb => kb.1 ∉ ks) m in
  does now m (delLoop ks n) (n + (Z.of_nat (size m) - Z.of_nat (size m1)), m1).
Proof.
  cbv zeta. revert m n. induction ks as [|k ks IH]; intros m n; cbn [delLoop].
  - rewrite map_filter_id by (intros; set_solver). apply d_ret; simpl; [lia|done].
  - tyield. rewrite filter_notin_cons. apply t_fetched.
    + intros Hm. rewrite delete_id by done. eapply t_pre; [apply IH|]. by intros s [? _].
    + intros v t a b Hm Hv He.
      eapply t_bind; [by apply (t_purge now m k (mkEntry v t a b) (mkEntry v t a b))|]. intros []. cbv beta.
      assert (size m <> 0%nat) by (intros H0; apply map_size_empty_iff in H0; by rewrite H0 in Hm).
      eapply t_conseq; [apply (IH (delete k m) (n + 1))|by intros s _ [? _]|].
      intros x s _ [-> Hr]. split; [|done]. simpl. rewrite (map_size_delete_Some k m) by eauto. lia.
Qed.

Lemma d_existsLoop m ks n :
  does now m (existsLoop ks n) (n + Z.of_nat (List.length (filter (fun k => k ∈ dom m) ks)), m).
Proof.
  revert n. induction ks as [|k ks IH]; intros n; cbn [existsLoop]; [apply d_ret; simpl; [lia|done]|].
  tyield. rewrite filter_cons. apply t_fetched.
  - intros Hm. rewrite decide_False by (rewrite elem_of_dom, Hm; by intros [? ?]).
    eapply t_pre; [apply IH|]. by intros s [? _].
  - intros v t a b Hm Hv He. rewrite decide_True by (rewrite elem_of_dom, Hm; eauto).
    eapply t_conseq; [apply (IH (n + 1))|by intros s _ [? _]|]. intros x s _ [-> Hr]. split; [|done]. simpl. lia.
Qed.

Lemma d_Type m k : does now m (Type_ k) (keyType m k, m).
Proof.
  unfold keyType. apply t_fetched; [intros Hm; rewrite Hm; treply|]. intros v t a b Hm Hv He. rewrite Hm. treply.
Qed.

(** ** Rename *)

Lemma clone_wf v : value_wf v -> cloneValue v = v.
Proof.
  destruct v; simpl; intros Hv; f_equal; [done|by apply fmap_clone_wf|by apply map_clone_wf].
Qed.

Lemma t_unlink m k e :
  tri now (fun s => reps now m s /\ find s k = Some e) (unlinkSrc k e) (fun _ s => reps now (delete k m) s /\ find s k = None).
Proof.
  apply t_modify. intros s Hs [Hr Hk]. split; [by apply (inv_unlink (I := store_wf))|]. split; [by rewrite max_addMem|].
  pose proof (find_unlinked k e s) as Hf.
  fold (unlinked k e s). split; [|by rewrite Hf, decide_True by (apply Hs || done)].
  intros k'. unfold view. rewrite Hf by apply Hs. destruct (decide (k = k')) as [<-|Hne].
  - by rewrite lookup_delete_eq.
  - rewrite lookup_delete_ne by done. apply Hr.
Qed.

(** The move of an entry to an absent key. *)
Lemma t_move {A} m a b v t x y (r : A) :
  a <> b -> value_wf v -> expired now (v, t) = false ->
  tri now (fun s => has now m a (Some (mkEntry v t x y)) s /\ find s b = None)
    (_ ← unlinkSrc a (mkEntry v t x y); _ ← replace b None (cloneEntryForRename (mkEntry v t x y)); mret r)
    (fun z s => z = r /\ reps now (moved a b (v, t) m) s).
Proof.
  intros Hab Hv He.
  eapply t_bind with (R := fun _ s => reps now (delete a m) s /\ loosely s b None).
  - intros st u st' Heq Hq [[Hr Hk] Hb].
    destruct (t_unlink m a (mkEntry v t x y) st u st' Heq Hq (conj Hr Hk)) as [Hq' [Hr' _]]. split; [done|]. split; [done|].
    injection Heq as <- <-. unfold loosely. cbn [db]. fold (unlinked a (mkEntry v t x y) (db st)).
    by rewrite find_unlinked, decide_False, Hb by (apply Hq || done).
  - intros []. eapply t_bind; [apply (t_replace now (delete a m) b None); apply fresh_new, value_wf_clone|].
    intros []. apply t_ret. intros s Hr. split; [done|]. unfold moved. unfold core, cloneEntryForRename in Hr. simpl in Hr.
    rewrite clone_wf in Hr by done. by rewrite put_live in Hr.
Qed.
End keys.

Section moves.
Context (now : Time) `{MapOrder}.

Lemma d_Rename m a b :
  does now m (Rename a b) (if (a =? b)%string then (None, m)
    else match m !! a with
         | None => (Some (wrapErr "no such key: " (New "not found")), m)
         | Some x => (None, moved a b x m)
         end).
Proof.
  unfold Rename. destruct (a =? b)%string eqn:Eab; [by apply d_ret|]. zify_bool.
  apply t_fetched; [intros Hm; rewrite Hm; treply|]. intros v t x y Hm Hv He. rewrite Hm.
  set (e := mkEntry v t x y).
  eapply t_bind; [apply t_lookup|]. intros d. cbv beta.
  eapply t_bind with (R := fun _ s => (exists m1, has now m1 a (Some e) s /\ m1 = delete b m) /\ find s b = None).
  - destruct d as [o|].
    + eapply t_bind; [apply t_isExpired|]. intros z. cbv beta.
      intros st u st' Heq Hq [[[Hr Hk] Hd] _].
      destruct (t_purge now m b o o (ltac:(done)) st u st' Heq Hq (conj Hr (eq_sym Hd))) as [Hq' [Hr' Hb']].
      split; [done|]. split; [|done]. exists (delete b m). split; [|done]. split; [done|].
      injection Heq as <- <-. simpl. by rewrite find_purge_ne by (apply Hq || apply shardIndex_lt || done).
    + apply t_ret. intros s [[Hr Hk] Hd]. split; [|done]. exists m. split; [by split|].
      rewrite delete_id; [done|]. rewrite Hr. unfold view. by rewrite <- Hd.
  - intros []. cbv beta.
    eapply t_conseq; [apply (t_move now (delete b m) a b v t x y None); done|by intros s _ ((m1 & ? & ->) & ?)|].
    intros r s _ [-> Hr]. split; [done|]. unfold moved in *. simpl. rewrite delete_delete, insert_delete_eq in Hr. exact Hr.
Qed.

Lemma d_RenameNX m a b :
  does now m (RenameNX a b) (if (a =? b)%string then (inr true, m)
    else match m !! a, m !! b with
         | Some x, None => (inr true, moved a b x m)
         | _, _ => (inr false, m)
         end).
Proof.
  unfold RenameNX. destruct (a =? b)%string eqn:Eab; [by apply d_ret|]. zify_bool.
  apply t_fetched; [intros Hm; rewrite Hm; treply|]. intros v t x y Hm Hv He. rewrite Hm.
  set (e := mkEntry v t x y).
  eapply t_bind with (R := fun d s => has now m a (Some e) s /\ find s b = d /\ core <$> d = m !! b).
  - intros st d st' Heq Hq [Hr Hk].
    destruct (t_fetch now m b st d st' Heq Hq Hr) as [Hq' (Hr' & Hd & Hm')]. split; [done|]. split; [|done]. split; [done|].
    unfold fetch, lookupKey, gets, mbind, M_bind in Heq. destruct (find (db st) b) as [o|]; [|by injection Heq as <- <-].
    assert (db (snd (isExpired o st)) = db st) as Hdb by (unfold isExpired; by destruct (IsZero _)).
    destruct (isExpired o st) as [[] st1]; injection Heq as <- <-; simpl in *; [|by rewrite Hdb].
    rewrite Hdb. by rewrite find_purge_ne by (apply Hq || apply shardIndex_lt || done).
  - intros d. cbv beta. apply (t_pure now (core <$> d = m !! b)); [by intros s _ (_ & _ & ?)|]. intros Hd.
    rewrite <- Hd. destruct d as [o|]; simpl fmap; cbv iota.
    + apply t_ret. by intros s [[? _] _].
    + eapply t_conseq; [apply (t_move now m a b v t x y (inr true : res bool)); done|by intros s _ (? & ? & _)|done].
Qed.

(** ** Expiry *)

Lemma d_ExpireAt m k t : does now m (ExpireAt k t) (expireAt now k t m).
Proof.
  unfold expireAt. apply t_fetched; [intros Hm; rewrite Hm; treply|]. intros v t' a b Hm Hv He. rewrite Hm.
  apply t_replaced; [apply fresh_new, value_wf_clone|done|]. simpl. by rewrite clone_wf.
Qed.

Lemma d_Expire m k sec :
  does now m (Expire k sec) (if sec <=? 0 then (inl (wrapErr "invalid expire: " (New "non-positive")), m)
    else expireAt now k (Add now (DurationMul sec Second)) m).
Proof.
  unfold Expire. destruct (sec <=? 0); [by apply d_ret|]. eapply t_bind; [apply t_now|]. intros n. cbv beta.
  apply (t_pure now (n = now)); [by intros s _ [_ ?]|]. intros ->. tyield.
  eapply t_pre; [apply d_ExpireAt|]. by intros s [? _].
Qed.

Lemma d_ttlWith m unit k : does now m (ttlWith unit k) (remaining now unit k m).
Proof.
  unfold remaining. apply t_fetched; [intros Hm; rewrite Hm; treply|]. intros v t a b Hm Hv He. rewrite Hm.
  cbn [e_expiresAt]. destruct (IsZero t); [treply|]. eapply t_bind; [apply t_now|]. intros n. cbv beta.
  apply (t_pure now (n = now)); [by intros s _ [_ ?]|]. intros ->. cbv zeta. destruct (_ <=? 0).
  - eapply t_pre; [by apply (t_purged now m k (mkEntry v t a b))|]. by intros s [? _].
  - apply t_ret. by intros s [[? _] _].
Qed.

Lemma d_Persist m k :
  does now m (Persist k) (match m !! k with
    | Some (v, t) => if IsZero t then (inr false, m) else (inr true, <[k := (v, noTTL)]> m)
    | None => (inr false, m) end).
Proof.
  apply t_fetched; [intros Hm; rewrite Hm; treply|]. intros v t a b Hm Hv He. rewrite Hm. cbn [e_expiresAt].
  destruct (IsZero t); [treply|]. apply t_replaced; [apply fresh_new, value_wf_clone|done|].
  simpl. rewrite clone_wf by done. by apply put_live.
Qed.
End moves.

(** ** Walks over the shards *)

(** The entries of [n] shards from shard [i]. *)
Fixpoint walk (s : Store) (i n : nat) : list (string * entry) :=
  match n with
  | O => []
  | S n => map_to_list (sh_m (shardAt i s)) ++ walk s (S i) n
  end.

Definition liveOf (now : Time) (l : list (string * entry)) : list (string * entry) :=
  List.filter (fun ke => negb (expired now (core (snd ke)))) l.

Definition bind (ke : string * entry) : string * binding := (fst ke, core (snd ke)).

Lemma elem_of_walk s i n k e :
  store_wf s -> (k, e) ∈ walk s i n <-> (i <= shardIndex k < i + n)%nat /\ find s k = Some e.
Proof.
  intros Hs. revert i. induction n as [|n IH]; intros i; simpl; [rewrite elem_of_nil; lia|].
  rewrite elem_of_app, IH, elem_of_map_to_list. split.
  - intros [Hk|[? ?]]; [|split; [lia|done]]. destruct (wf_home _ _ _ _ Hs Hk) as [_ Hi].
    unfold find. rewrite Hi. split; [lia|done].
  - intros [Hi Hk]. destruct (decide (shardIndex k = i)) as [<-|]; [by left|right]. split; [lia|done].
Qed.

Lemma NoDup_walk s i n : store_wf s -> NoDup (walk s i n).*1.
Proof.
  intros Hs. revert i. induction n as [|n IH]; intros i; simpl; [constructor|].
  rewrite fmap_app, NoDup_app. split; [apply NoDup_fst_map_to_list|]. split; [|apply IH].
  intros k Hk Hk'. apply list_elem_of_fmap in Hk as ([k1 e1] & -> & Hk), Hk' as ([k2 e2] & Heq & Hk'). simpl in *. subst k2.
  apply elem_of_map_to_list in Hk. destruct (wf_home _ _ _ _ Hs Hk) as [_ Hi].
  apply elem_of_walk in Hk' as [? _]; [lia|done].
Qed.

Lemma elem_of_liveOf now l ke : ke ∈ liveOf now l <-> ke ∈ l /\ expired now (core (snd ke)) = false.
Proof. unfold liveOf. rewrite list_elem_of_In, filter_In, <- list_elem_of_In, negb_true_iff. done. Qed.

Lemma NoDup_liveOf now l : NoDup l.*1 -> NoDup (liveOf now l).*1.
Proof.
  induction l as [|[k e] l IH]; simpl; [done|]. intros [Hk Hl]%NoDup_cons.
  destruct (negb _); [|by apply IH]. simpl. constructor; [|by apply IH].
  intros ([k' e'] & -> & Hin)%list_elem_of_fmap. apply Hk, list_elem_of_fmap. exists (k', e').
  split; [done|]. by apply elem_of_liveOf in Hin as [? _].
Qed.

(** The live entries of all shards are the keyspace. *)
Lemma walk_keyspace now m s l :
  store_wf s -> reps now m s -> l ≡ₚ walk s 0 NumShards -> map bind (liveOf now l) ≡ₚ map_to_list m.
Proof.
  intros Hs Hr Hl.
  assert (NoDup (map bind (liveOf now l)).*1) as Hnd.
  { change (map bind ?x) with (bind <$> x). rewrite <- list_fmap_compose.
    change (fst ∘ bind) with (fst : string * entry -> string). apply NoDup_liveOf. rewrite Hl. by apply NoDup_walk. }
  apply NoDup_Permutation; [by eapply NoDup_fmap_1|apply NoDup_map_to_list|]. intros [k b].
  rewrite elem_of_map_to_list, Hr. change (map bind ?x) with (bind <$> x). rewrite list_elem_of_fmap. split.
  - intros ([k' e] & [= -> ->] & Hin). apply elem_of_liveOf in Hin as [Hin He]. simpl in He.
    rewrite Hl, elem_of_walk in Hin by done. destruct Hin as [_ Hk]. unfold view. simpl. rewrite Hk. simpl. by rewrite He.
  - unfold view. destruct (find s k) as [e|] eqn:Ek; simpl; [|done]. destruct (expired now (core e)) eqn:He; [done|].
    intros [= <-]. exists (k, e). split; [done|]. apply elem_of_liveOf. split; [|done].
    rewrite Hl, elem_of_walk by done. split; [|done]. pose proof (shardIndex_lt k). lia.
Qed.

Section walks.
Context (now : Time) `{MapOrder}.

(** The walk sees one store: nothing it does changes it. *)
Lemma t_liveEntries s0 kvs : tri now (eq s0) (liveEntries kvs) (fun l s => s0 = s /\ l = liveOf now kvs).
Proof.
  induction kvs as [|[k e] kvs IH]; [by apply t_ret|]. cbn [liveEntries]. tbind t_isExpired.
  apply (t_pure now (a = expired now (core e))); [by intros s _ [_ ?]|]. intros ->.
  eapply t_bind; [eapply t_pre; [apply IH|by intros s [? _]]|]. intros l. cbv beta. apply t_ret. intros s [? ->].
  split; [done|]. unfold liveOf. simpl. by destruct (expired now (core e)).
Qed.

Lemma liveOf_perm l l' : l ≡ₚ l' -> liveOf now l ≡ₚ liveOf now l'.
Proof. unfold liveOf. induction 1; simpl; repeat destruct (negb _); eauto using perm_swap, perm_trans. Qed.

Lemma t_scanShards s0 n i : tri now (eq s0) (scanShards n i) (fun l s => s0 = s /\ l ≡ₚ liveOf now (walk s0 i n)).
Proof.
  revert i. induction n as [|n IH]; intros i; cbn [scanShards walk]; [by apply t_ret|]. tyield.
  eapply t_bind; [apply t_gets|]. intros sh. cbv beta. apply (t_pure now (sh = shardAt i s0)); [by intros s _ [<- ?]|]. intros ->.
  eapply t_bind; [apply t_ranged|]. intros kvs. cbv beta.
  apply (t_pure now (kvs ≡ₚ map_to_list (sh_m (shardAt i s0)))); [by intros s _ [_ ?]|]. intros Hp.
  eapply t_bind; [eapply t_pre; [apply (t_liveEntries s0)|by intros s [[? _] _]]|]. intros l. cbv beta.
  apply (t_pure now (l = liveOf now kvs)); [by intros s _ [_ ?]|]. intros ->.
  eapply t_bind; [eapply t_pre; [apply IH|by intros s [? _]]|]. intros rest. cbv beta. apply t_ret. intros s [? Hr].
  split; [done|]. rewrite Hr, (liveOf_perm _ _ Hp). unfold liveOf. by rewrite List.filter_app.
Qed.

(** From a triple about one store to one about the keyspace. *)
Lemma t_every {A} (P : Store -> Prop) (c : M A) Q :
  (forall s0, store_wf s0 -> P s0 -> tri now (eq s0) c Q) -> tri now P c Q.
Proof. intros Hc st a st' Heq Hq HP. by apply (Hc (db st) (q_wf _ _ Hq) HP st a st' Heq Hq). Qed.

(** What all the walks see. *)
Lemma t_scan m :
  tri now (reps now m) (scanShards NumShards 0) (fun l s => reps now m s /\ map bind l ≡ₚ map_to_list m).
Proof.
  apply t_every. intros s0 Hs Hr. eapply t_conseq; [apply (t_scanShards s0)|done|]. intros l s _ [<- Hl].
  split; [done|]. rewrite Hl. by eapply walk_keyspace.
Qed.

Lemma keys_bind (l : list (string * entry)) : map fst l = map fst (map bind l).
Proof. rewrite map_map. by apply map_ext. Qed.

Lemma t_Keys m p :
  tri now (reps now m) (Keys p) (fun l s => reps now m s /\ l ≡ₚ keyList p m).
Proof.
  eapply t_bind; [apply t_scan|]. intros l. apply t_ret. intros s [? Hl]. split; [done|].
  unfold keyList. rewrite keys_bind. assert (forall a b : list string, a ≡ₚ b -> List.filter (matchGlob p) a ≡ₚ List.filter (matchGlob p) b) as Hf.
  { induction 1; simpl; repeat destruct (matchGlob p _); eauto using perm_swap, perm_trans. }
  apply Hf. by rewrite Hl.
Qed.

Lemma d_DBSize m : does now m DBSize (Z.of_nat (size m), m).
Proof.
  eapply t_bind; [apply t_scan|]. intros l. apply t_ret. intros s [? Hl]. split; [|done]. simpl.
  rewrite <- (length_map bind), Hl, length_map_to_list. done.
Qed.

Lemma size_filter (P : string * binding -> Prop) `{forall x, Decision (P x)} (m : keyspace) :
  size (filter P m) = List.length (filter P (map_to_list m)).
Proof.
  rewrite map_filter_alt, map_size_list_to_map; [done|].
  pose proof (NoDup_fst_map_to_list m) as Hn. induction (map_to_list m) as [|x l IH]; [constructor|].
  rewrite fmap_cons in Hn. apply NoDup_cons in Hn as [Hx Hn]. rewrite filter_cons. destruct (decide (P x)); [|by apply IH].
  rewrite fmap_cons. constructor; [|by apply IH]. intros (y & Hy & Hin)%list_elem_of_fmap.
  apply Hx, list_elem_of_fmap. exists y. split; [done|]. by apply list_elem_of_filter in Hin as [_ ?].
Qed.

Lemma d_ExpireKeyCount m :
  does now m ExpireKeyCount (Z.of_nat (size (filter (fun kb : string * binding => IsZero (snd (snd kb)) = false) m)), m).
Proof.
  eapply t_bind; [apply t_scan|]. intros l. apply t_ret. intros s [? Hl]. split; [|done]. simpl.
  rewrite size_filter, <- Hl. f_equal. clear. induction l as [|[k e] l IH]; [done|]. rewrite map_cons, filter_cons. simpl.
  unfold hasTTL at 1. destruct (IsZero (e_expiresAt e)) eqn:E.
  - rewrite decide_False by (simpl; congruence). exact IH.
  - rewrite decide_True by done. simpl. by rewrite IH.
Qed.
End walks.

(** ** Scan *)

Section scan.
Context (now : Time) `{MapOrder}.

Lemma d_filterType m ty ks :
  does now m (filterType ty ks) (List.filter (fun k => EqualFold (keyType m k) ty) ks, m).
Proof.
  induction ks as [|k ks IH]; [by apply t_ret|]. cbn [filterType List.filter]. tyield.
  eapply t_known; [apply d_Type|]. eapply t_known; [apply IH|]. by apply d_ret.
Qed.

Lemma d_Scan m c p n ty : does now m (Scan c p n ty) (scanned c p n ty m, m).
Proof.
  unfold Scan, scanned. cbv zeta. eapply t_bind; [apply t_Keys|]. intros l. cbv beta.
  set (q := if sempty p then "*"%string else p).
  apply (t_pure now (l ≡ₚ keyList q m)); [by intros s _ [_ ?]|]. intros Hl.
  rewrite (sortStrings_unique l (keyList q m) Hl).
  set (all := sortStrings (keyList q m)).
  apply t_bind with (R := fun ks s => reps now m s /\
    ks = if sempty ty then all else List.filter (fun k => EqualFold (keyType m k) (ToLower ty)) all).
  - destruct (sempty ty); [apply t_ret; by intros s [? _]|].
    eapply t_conseq; [apply d_filterType|by intros s _ [? _]|]. by intros ks s _ [-> ?].
  - intros ks. apply t_ret. by intros s [? ->].
Qed.
End scan.

(** ** Flush *)

Section flush.
Context (now : Time) `{MapOrder}.

Lemma find_purgeAll i kvs s k :
  full s -> (i < NumShards)%nat ->
  find (purgeAll i kvs s) k = if decide (i = shardIndex k /\ k ∈ kvs.*1) then None else find s k.
Proof.
  intros Hf Hi. unfold purgeAll. revert s Hf. induction kvs as [|[k' e] kvs IH]; intros s Hf; simpl.
  - rewrite decide_False; [done|]. rewrite elem_of_nil. by intros [_ ?].
  - rewrite IH by by apply full_purge. rewrite find_purge by done.
    destruct (decide (i = shardIndex k /\ k' = k)) as [[? <-]|Hn].
    + assert (k' ∈ k' :: kvs.*1) by by left. repeat case_decide; tauto.
    + apply decide_ext. rewrite elem_of_cons. split; [intros [? ?]; auto|]. intros [? [->|?]]; [by destruct Hn|auto].
Qed.

Lemma max_purgeAll i kvs s : maxMemBytes (purgeAll i kvs s) = maxMemBytes s.
Proof. unfold purgeAll. revert s. induction kvs as [|kv kvs IH]; intros s; simpl; [done|]. by rewrite IH, max_purge. Qed.

(** The shards before [i] hold no key. *)
Definition flushed (i : nat) (s : Store) : Prop := forall k, (shardIndex k < i)%nat -> find s k = None.

Lemma t_flushShards n i : (i + n <= NumShards)%nat -> tri now (flushed i) (flushShards n i) (fun _ => flushed (i + n)).
Proof.
  revert i. induction n as [|n IH]; intros i Hi; cbn [flushShards].
  { apply t_ret. intros s. by rewrite Nat.add_0_r. }
  tyield. eapply t_bind; [apply t_gets|]. intros sh. eapply t_bind; [apply t_ranged|]. intros kvs. cbv beta.
  eapply t_bind with (R := fun _ => flushed (S i)).
  - apply t_modify. intros s Hs [[Hfl ->] Hp]. split; [|split; [apply max_purgeAll|]].
    + apply (purgeAll_inv store_wf); [lia|done|by rewrite Hp; apply NoDup_fst_map_to_list|].
      rewrite Hp. apply Forall_forall. intros [k e]. by rewrite elem_of_map_to_list.
    + intros k Hk. rewrite find_purgeAll by (apply Hs || lia). case_decide as Hd; [done|].
      destruct (decide (shardIndex k = i)) as [Hki|]; [|apply Hfl; lia].
      destruct (find s k) as [e|] eqn:Ek; [|done]. destruct Hd. split; [done|].
      rewrite Hp. apply list_elem_of_fmap. exists (k, e). split; [done|]. rewrite elem_of_map_to_list. by rewrite <- Hki.
  - intros []. replace (i + S n)%nat with (S i + n)%nat by lia. apply IH. lia.
Qed.

Lemma t_FlushDB (P : Store -> Prop) : tri now P FlushDB (fun _ => reps now ∅).
Proof.
  unfold FlushDB. eapply t_bind; [eapply t_pre; [apply (t_flushShards NumShards 0); done|]|].
  - intros s _ k Hk. lia.
  - intros []. tyield. apply t_modify. intros s Hs Hfl. split; [by apply (inv_watch (I := store_wf))|]. split; [done|].
    intros k. rewrite lookup_empty. unfold view. change (find (setWatch ∅ s) k) with (find s k).
    rewrite Hfl; [done|]. apply shardIndex_lt.
Qed.
End flush.

(** ** Background work and statistics do not show *)

Section background.
Context (now : Time) `{MapOrder} (m : keyspace).

Lemma t_sampleLoop i ks a b : tri now (reps now m) (sampleLoop i ks a b) (fun _ => reps now m).
Proof.
  revert a b. induction ks as [|k ks IH]; intros a b; cbn [sampleLoop]; [by apply t_ret|].
  eapply t_bind; [apply t_gets|]. intros sh. cbv beta. destruct (sh_m sh !! k) as [e|] eqn:Ek.
  2:{ eapply t_pre; [apply IH|]. by intros s [? _]. }
  eapply t_bind; [apply t_isExpired|]. intros x. cbv beta. destruct x.
  2:{ eapply t_pre; [apply IH|]. by intros s [[? _] _]. }
  eapply t_bind with (R := fun _ => reps now m); [|intros []; apply IH].
  apply t_modify. intros s Hs [[Hr ->] He]. destruct (wf_home _ _ _ _ Hs Ek) as [Hi <-].
  split; [by eapply wf_purge|]. split; [apply max_purge|]. by apply reps_expired.
Qed.

Lemma t_sampleOnce i : tri now (reps now m) (sampleOnceShard i) (fun _ => reps now m).
Proof.
  unfold sampleOnceShard. tyield. eapply t_bind; [apply t_gets|]. intros sh. cbv beta.
  destruct (bool_decide _); [by apply t_ret; intros s [? _]|].
  eapply t_bind with (R := fun _ => reps now m); [|intros; apply t_sampleLoop].
  unfold randomSampleKeys. destruct (bool_decide _); [by apply t_ret; intros s [? _]|].
  eapply t_bind; [apply t_ranged|]. intros kvs. apply t_ret. by intros s [[? _] _].
Qed.

Lemma t_resample i n : tri now (reps now m) (resample i n) (fun _ => reps now m).
Proof.
  induction n as [|n IH]; cbn [resample]; [by apply t_ret|]. eapply t_bind; [apply t_sampleOnce|].
  intros [x y]. cbv beta. destruct (_ =? 0); [by apply t_ret|]. destruct (quarterOrLess _ _); [by apply t_ret|apply IH].
Qed.

Lemma t_sampleAll : tri now (reps now m) sampleAllShards (fun _ => reps now m).
Proof.
  unfold sampleAllShards. generalize 0%nat, NumShards. intros i n. revert i.
  induction n as [|n IH]; intros i; cbn [sampleShards]; [by apply t_ret|].
  eapply t_bind; [apply t_resample|]. intros []. apply IH.
Qed.

Lemma t_stats n i : tri now (reps now m) (statsLoop n i) (fun _ => reps now m).
Proof.
  revert i. induction n as [|n IH]; intros i; cbn [statsLoop]; [by apply t_ret|]. tyield.
  eapply t_bind; [apply t_gets|]. intros sh. cbv beta.
  eapply t_bind; [eapply t_pre; [apply IH|by intros s [? _]]|]. intros l. by apply t_ret.
Qed.

Lemma t_deadKeys ks : tri now (reps now m) (deadKeys ks) (fun _ => reps now m).
Proof.
  induction ks as [|k ks IH]; cbn [deadKeys]; [by apply t_ret|]. tyield.
  eapply t_bind; [apply t_lookup|]. intros o. cbv beta.
  eapply t_bind; [eapply t_pre; [apply IH|by intros s [? _]]|]. intros l. by apply t_ret.
Qed.

Lemma t_PruneWatch : tri now (reps now m) PruneWatch (fun _ => reps now m).
Proof.
  unfold PruneWatch. eapply t_bind; [apply t_gets|]. intros w. eapply t_bind; [apply t_ranged|]. intros kvs. cbv beta.
  eapply t_bind; [eapply t_pre; [apply t_deadKeys|by intros s [[? _] _]]|]. intros dead. cbv beta. tyield.
  apply t_modify. intros s Hs Hr. split; [by apply (inv_watch (I := store_wf))|]. by split.
Qed.
End background.

(** ** Snapshots *)

Section snapshots.
Context (now : Time) `{MapOrder}.

Lemma t_snapTTL (P : Store -> Prop) e :
  tri now P (snapTTL e) (fun t s => P s /\
    t = if IsZero (e_expiresAt e) then 0 else Z.max 0 (Milliseconds (Sub (e_expiresAt e) now))).
Proof.
  unfold snapTTL. destruct (IsZero _); [by apply t_ret|]. eapply t_bind; [apply t_now|]. intros n.
  apply t_ret. by intros s [? ->].
Qed.

Lemma t_build s0 k e :
  value_wf (e_value e) ->
  tri now (eq s0) (buildSnapshotEntry k e) (fun ent s => s0 = s /\ snapshotOf now (bind (k, e)) ent).
Proof.
  intros Hv. unfold buildSnapshotEntry. eapply t_bind; [apply t_snapTTL|]. intros ttl. cbv beta.
  apply (t_pure now (ttl = if IsZero (e_expiresAt e) then 0 else Z.max 0 (Milliseconds (Sub (e_expiresAt e) now))));
    [by intros s _ [_ ?]|]. intros ->. unfold bind, core, snapshotOf. simpl.
  destruct (e_value e) as [b|h|l|st]; try (apply t_ret; intros s [? _]; split; [done|]); simpl in Hv.
  - by rewrite Hv.
  - by rewrite fmap_clone_wf.
  - by rewrite map_clone_wf.
  - eapply t_bind; [apply t_ranged|]. intros ms. apply t_ret. intros s [[? _] Hp]. split; [done|]. by exists ms.
Qed.

Lemma t_snapBatch s0 kvs :
  Forall (fun ke => value_wf (e_value (snd ke))) kvs ->
  tri now (eq s0) (snapBatch kvs) (fun l s => s0 = s /\ Forall2 (snapshotOf now) (map bind (liveOf now kvs)) l).
Proof.
  induction 1 as [|[k e] kvs Hv Hkvs IH]; [by apply t_ret|]. cbn [snapBatch]. tbind t_isExpired.
  apply (t_pure now (a = expired now (core e))); [by intros s _ [_ ?]|]. intros ->. unfold liveOf. cbn [List.filter snd].
  destruct (expired now (core e)); [eapply t_pre; [apply IH|by intros s [? _]]|]. simpl negb. cbv iota.
  eapply t_bind; [eapply t_pre; [by apply (t_build s0 k e)|by intros s [? _]]|]. intros ent. cbv beta.
  apply (t_pure now (snapshotOf now (bind (k, e)) ent)); [by intros s _ [_ ?]|]. intros He.
  eapply t_bind; [eapply t_pre; [apply IH|by intros s [? _]]|]. intros l. cbv beta. apply t_ret.
  intros s [? Hl]. split; [done|]. rewrite map_cons. by constructor.
Qed.

Lemma t_snapShards s0 n i :
  store_wf s0 ->
  tri now (eq s0) (snapShards n i) (fun l s => s0 = s /\
    exists kvs, kvs ≡ₚ walk s0 i n /\ Forall2 (snapshotOf now) (map bind (liveOf now kvs)) l).
Proof.
  intros Hs. revert i. induction n as [|n IH]; intros i; cbn [snapShards walk].
  { apply t_ret. intros s ?. split; [done|]. exists []. by split. }
  tyield. eapply t_bind; [apply t_gets|]. intros sh. cbv beta.
  apply (t_pure now (sh = shardAt i s0)); [by intros s _ [<- ?]|]. intros ->.
  eapply t_bind; [apply t_ranged|]. intros kvs. cbv beta.
  apply (t_pure now (kvs ≡ₚ map_to_list (sh_m (shardAt i s0)))); [by intros s _ [_ ?]|]. intros Hp.
  assert (Forall (fun ke => value_wf (e_value (snd ke))) kvs) as Hv.
  { rewrite Hp. apply Forall_forall. intros [k e] Hk%elem_of_map_to_list.
    destruct (wf_home _ _ _ _ Hs Hk) as [_ Hi]. apply (inv_value s0 k e Hs). unfold find. by rewrite Hi. }
  eapply t_bind; [eapply t_pre; [by apply (t_snapBatch s0)|by intros s [[? _] _]]|]. intros batch. cbv beta.
  apply (t_pure now (Forall2 (snapshotOf now) (map bind (liveOf now kvs)) batch)); [by intros s _ [_ ?]|]. intros Hb.
  eapply t_bind; [eapply t_pre; [apply IH|by intros s [? _]]|]. intros rest. cbv beta. apply t_ret.
  intros s [? (kvs' & Hp' & Hr)]. split; [done|]. exists (kvs ++ kvs'). split; [by rewrite Hp, Hp'|].
  unfold liveOf in *. rewrite List.filter_app, map_app. by apply Forall2_app.
Qed.

Lemma t_Snapshot m :
  tri now (reps now m) SnapshotCtx (fun out s => reps now m s /\
    exists l, l ≡ₚ map_to_list m /\ Forall2 (snapshotOf now) l out).
Proof.
  apply t_every. intros s0 Hs Hr. eapply t_conseq; [by apply (t_snapShards s0)|done|].
  intros out s _ (<- & kvs & Hp & Hf). split; [done|]. eexists. split; [|exact Hf]. by eapply walk_keyspace.
Qed.

Lemma d_apply m ent : does now m (applySnapshotEntry ent) (loadEntry now ent m).
Proof.
  unfold applySnapshotEntry, loadEntry.
  apply t_bind with (R := fun t s => reps now m s /\
    t = if sn_TTLMs ent >? 0 then Add now (DurationMul (sn_TTLMs ent) Millisecond) else noTTL).
  { destruct (sn_TTLMs ent >? 0); [|by apply t_ret]. eapply t_bind; [apply t_now|]. intros n. apply t_ret. by intros s [? ->]. }
  intros t. apply (t_pure now (t = if sn_TTLMs ent >? 0 then Add now (DurationMul (sn_TTLMs ent) Millisecond) else noTTL));
    [by intros s _ [_ ?]|]. intros ->. destruct (snapValue ent) as [v|] eqn:Ev; [|by apply t_ret; intros s [? _]].
  cbv zeta. eapply t_bind; [apply t_ensure|]. intros r. cbv beta.
  apply (t_pure now (r = (false, None))); [by intros s _ [_ ?]|]. intros ->.
  eapply t_bind; [apply t_lookup|]. intros old. cbv beta.
  eapply t_bind; [eapply t_pre; [apply (t_replace now m (sn_Key ent) old); apply fresh_new; by eapply snapValue_wf|]|].
  - intros s [[[? _] _] Ho]. split; [done|by apply loosely_find].
  - intros []. by apply t_ret.
Qed.

Lemma d_applyLoop m l : does now m (applyLoop l) (load now l m).
Proof.
  revert m. induction l as [|ent l IH]; intros m; [by apply t_ret|]. cbn [applyLoop load]. tyield.
  eapply t_bind; [apply d_apply|]. intros r. cbv beta. destruct (loadEntry now ent m) as [r' m']. simpl.
  apply (t_pure now (r = r')); [by intros s _ [? _]|]. intros ->.
  destruct r' as [e|]; [by apply t_ret; intros s [_ ?]|]. eapply t_pre; [apply IH|]. by intros s [_ ?].
Qed.

Lemma d_ApplySnapshot m l : does now m (ApplySnapshot l) (load now l ∅).
Proof.
  unfold ApplySnapshot. eapply t_bind; [apply (t_FlushDB now)|]. intros []. apply d_applyLoop.
Qed.
End snapshots.

(** ** The whole interface *)

Section refinement.
Context (now : Time) `{MapOrder}.

(** The call replies and leaves a keyspace as [spec] says. *)
Definition implements (o : op) (m : keyspace) : Prop :=
  tri now (reps now m) (exec o) (fun r s => exists m', reps now m' s /\ spec now o m r m').

Lemma answers {A} (f : A -> reply) (c : M A) o m x :
  exec o = mmap f c -> does now m c x -> (forall r m', answer f x r m' -> spec now o m r m') -> implements o m.
Proof.
  intros He Hc Hs. unfold implements. rewrite He. eapply t_bind; [exact Hc|]. intros a. apply t_ret.
  intros s [-> Hr]. exists (snd x). split; [done|]. by apply Hs.
Qed.

(** Calls whose reply is not specified beyond the keyspace it leaves. *)
Lemma silent {A} (f : A -> reply) (c : M A) o m :
  exec o = mmap f c -> tri now (reps now m) c (fun _ => reps now m) ->
  (forall r, spec now o m r m) -> implements o m.
Proof.
  intros He Hc Hs. unfold implements. rewrite He. eapply t_bind; [exact Hc|]. intros a. apply t_ret. eauto.
Qed.

Ltac answered L := eapply answers; [reflexivity|apply L|exact (fun _ _ Ha => Ha)].

Lemma exec_strings o m : op_ok o ->
  match o with
  | OGet _ | OSet _ _ _ | OSetNX _ _ _ | OSetXX _ _ _ | OGetSet _ _ _ | OAppend _ _ | OIncrBy _ _ | ODecrBy _ _
  | OMGet _ | OMSet _ | OMSetNX _ => implements o m
  | _ => True
  end.
Proof.
  intros Hok. destruct o; try done.
  - answered (d_Get now m).
  - answered (d_Set now m).
  - answered (d_SetNX now m).
  - answered (d_SetXX now m).
  - answered (d_GetSet now m).
  - answered (d_Append now m).
  - eapply answers; [reflexivity|by apply (d_incrBy now m)|exact (fun _ _ Ha => Ha)].
  - eapply answers; [reflexivity|by apply (d_incrBy now m), wrap64_range|exact (fun _ _ Ha => Ha)].
  - answered (d_MGet now m).
  - answered (d_MSet now m).
  - answered (d_MSetNX now m).
Qed.

Lemma exec_collections o m : op_ok o ->
  match o with
  | OHSet _ _ | OHGet _ _ | OHGetAll _ | OHDel _ _ | OHExists _ _ | OHLen _ | OHSetNX _ _ _ | OHIncrBy _ _ _
  | OLPush _ _ | ORPush _ _ | OLPushX _ _ | ORPushX _ _ | OLPop _ _ | ORPop _ _ | OLLen _ | OLRange _ _ _
  | OLIndex _ _ | OLSet _ _ _ | OLRem _ _ _ | OLTrim _ _ _ | OLInsert _ _ _ _
  | OSAdd _ _ | OSRem _ _ | OSMembers _ | OSIsMember _ _ | OSCard _ | OReplaceSet _ _ => implements o m
  | _ => True
  end.
Proof.
  intros Hok. destruct o; try done.
  - answered (d_HSet now m).
  - answered (d_HGet now m).
  - answered (d_HGetAll now m).
  - answered (d_HDel now m).
  - answered (d_HExists now m).
  - answered (d_HLen now m).
  - answered (d_HSetNX now m).
  - eapply answers; [reflexivity|by apply (d_HIncrBy now m)|exact (fun _ _ Ha => Ha)].
  - answered (d_listPush now m).
  - answered (d_listPush now m).
  - answered (d_listPushX now m).
  - answered (d_listPushX now m).
  - answered (d_popWith now true).
  - answered (d_popWith now false).
  - answered (d_LLen now m).
  - answered (d_LRange now m).
  - answered (d_LIndex now m).
  - answered (d_LSet now m).
  - answered (d_LRem now m).
  - answered (d_LTrim now m).
  - answered (d_LInsert now m).
  - answered (d_SAdd now m).
  - answered (d_SRem now m).
  - unfold implements. cbn [exec]. eapply t_bind; [apply (t_SMembers now m)|]. intros r. apply t_ret.
    intros s (Hr & ms & -> & Hms). exists m. split; [done|]. exists ms. by split.
  - answered (d_SIsMember now m).
  - answered (d_SCard now m).
  - answered (d_ReplaceSet now m).
Qed.

Lemma exec_keyspace o m : op_ok o ->
  match o with
  | ODel _ | OExists _ | OType _ | ORename _ _ | ORenameNX _ _ | OKeys _ | ODBSize | OExpireKeyCount | OStoreStats
  | OFlushDB | OExpire _ _ | OExpireAt _ _ | OTTL _ | OTTLMs _ | OPersist _ | OScan _ _ _ _ | OWatchVersion _
  | OPruneWatch | OMemBytes | OSnapshot | OApplySnapshotEntry _ | OApplySnapshot _ | OSampleExpiry => implements o m
  | _ => True
  end.
Proof.
  intros Hok. destruct o; try done.
  - answered (d_delLoop now m).
  - answered (d_existsLoop now m).
  - answered (d_Type now m).
  - answered (d_Rename now m).
  - answered (d_RenameNX now m).
  - unfold implements. cbn [exec]. eapply t_bind; [apply (t_Keys now m)|]. intros l. apply t_ret.
    intros s [Hr Hl]. exists m. split; [done|]. by exists l.
  - answered (d_DBSize now m).
  - answered (d_ExpireKeyCount now m).
  - eapply silent; [reflexivity|apply t_stats|done].
  - unfold implements. cbn [exec]. eapply t_bind; [apply (t_FlushDB now)|]. intros []. apply t_ret.
    intros s Hr. by exists ∅.
  - answered (d_Expire now m).
  - answered (d_ExpireAt now m).
  - answered (d_ttlWith now m).
  - answered (d_ttlWith now m).
  - answered (d_Persist now m).
  - answered (d_Scan now m).
  - eapply silent; [reflexivity|eapply t_conseq; [apply t_gets|done|by intros a s _ [? _]]|done].
  - eapply silent; [reflexivity|apply t_PruneWatch|done].
  - eapply silent; [reflexivity|eapply t_conseq; [apply t_gets|done|by intros a s _ [? _]]|done].
  - unfold implements. cbn [exec]. eapply t_bind; [apply (t_Snapshot now m)|]. intros out. apply t_ret.
    intros s (Hr & l & Hl & Hf). exists m. split; [done|]. by exists l, out.
  - answered (d_apply now m).
  - answered (d_ApplySnapshot now m).
  - eapply silent; [reflexivity|apply t_sampleAll|done].
Qed.

Lemma exec_implements o m : op_ok o -> implements o m.
Proof.
  intros Hok. pose proof (exec_strings o m Hok). pose proof (exec_collections o m Hok).
  pose proof (exec_keyspace o m Hok). by destruct o.
Qed.
End refinement.
