(* ===== verification/StoreTrace.v ===== *)
(** * Runs of the store against its specification, and the snapshot round trip. *)

From S2P Require Import Prelude GoInt GoStr GoTime GoSort Config StoreBase Eviction.
From S2P Require Import StoreString StoreHash StoreList StoreSet StoreKeys StoreOps.
From S2P Require Import StoreHoare StoreView StoreInvOps StoreWf StoreExec StoreSpec StoreRefine StoreRefineColl.
From S2P Require Import StoreRefineKeys StoreWatch.

(** ** Calls with time passing between them *)

Definition later (d : Z) (st : St) : St :=
  let e := env st in mkSt (db st) (mkEnv (clock e + d) (delays e) (tape e) (rnd e) (iters e)).

Fixpoint runTimed `{MapOrder} (l : list (Z * op)) (st : St) : list reply * St :=
  match l with
  | [] => ([], st)
  | (d, o) :: l =>
      let '(r, st) := exec o (later d st) in
      let '(rs, st) := runTimed l st in (r :: rs, st)
  end.

(** The same on keyspaces: time drops the keys whose expiry has come, a call does as [spec] says. *)
Inductive specRun : Time -> keyspace -> list (Z * op) -> list reply -> keyspace -> Prop :=
  | specRun_nil now m : specRun now m [] [] m
  | specRun_cons now d o r l rs m m1 m2 :
      spec (now + d) o (age (now + d) m) r m1 -> specRun (now + d) m1 l rs m2 ->
      specRun now m ((d, o) :: l) (r :: rs) m2.

Lemma expired_later now now' b : now <= now' -> expired now b = true -> expired now' b = true.
Proof. unfold expired, After. intros Hn He. apply andb_true_iff in He as [-> He]. simpl. zify_bool. lia. Qed.

Lemma reps_age now now' m s : now <= now' -> reps now m s -> reps now' (age now' m) s.
Proof.
  intros Hn Hr k. unfold age, live. destruct (view s k) as [b|] eqn:Ev; simpl.
  - specialize (Hr k). unfold live in Hr. rewrite Ev in Hr. simpl in Hr. destruct (expired now' b) eqn:E'.
    + apply map_lookup_filter_None. right. intros b' Hb'. simpl. destruct (expired now b); congruence.
    + destruct (expired now b) eqn:E; [by rewrite (expired_later now now' b Hn E) in E'|].
      apply map_lookup_filter_Some. by split.
  - apply map_lookup_filter_None. left. rewrite Hr. unfold live. by rewrite Ev.
Qed.

Lemma quiet_later now d st : quiet now st -> quiet (now + d) (later d st).
Proof. intros [H1 H2 H3 H4 H5]. split; try done. simpl. by rewrite H3. Qed.

Section runs.
Context `{MapOrder}.

(** C1: Refinement, one call.  With no memory limit and no other goroutine at work, a call of the
    store replies, and changes the keys that are live, as the specification over one finite map
    says; sharding, LRU lists, lazy and active expiry, copying and iteration order do not show. *)
Theorem exec_refines now m o st :
  quiet now st -> reps now m (db st) -> op_ok o ->
  let '(r, st') := exec o st in
  quiet now st' /\ exists m', reps now m' (db st') /\ spec now o m r m'.
Proof.
  intros Hq Hr Ho. destruct (exec o st) as [r st'] eqn:E. by apply (exec_implements now o m Ho st r st' E).
Qed.

(** The types a call demands of the values of its keys: a call of the string, hash, list or set family does,
    except those that write a whole new value (SET, SETNX, SETXX, MSET, MSETNX, the STORE variants of the set
    operations), and an HSET or SADD of nothing. *)
Definition demands (o : op) : list (string * DataType) :=
  match o with
  | OGet k | OGetSet k _ _ | OAppend k _ | OIncrBy k _ | ODecrBy k _ => [(k, TypeString)]
  | OMGet ks => map (fun k => (k, TypeString)) ks
  | OHSet k ps => if bool_decide (ps = ∅) then [] else [(k, TypeHash)]
  | OHGet k _ | OHGetAll k | OHDel k _ | OHExists k _ | OHLen k | OHSetNX k _ _ | OHIncrBy k _ _ => [(k, TypeHash)]
  | OLPush k _ | ORPush k _ | OLPushX k _ | ORPushX k _ | OLPop k _ | ORPop k _ | OLLen k | OLRange k _ _ | OLIndex k _
  | OLSet k _ _ | OLRem k _ _ | OLTrim k _ _ | OLInsert k _ _ _ => [(k, TypeList)]
  | OSAdd k ms => if bool_decide (ms = []) then [] else [(k, TypeSet)]
  | OSRem k _ | OSMembers k | OSIsMember k _ | OSCard k => [(k, TypeSet)]
  | _ => []
  end.

Definition failure {A} (r : res A) : option error := match r with inl e => Some e | inr _ => None end.
Definition errorOf (r : reply) : option error :=
  match r with
  | RUnit e => e
  | RSlice r => failure r | RPrev r => failure r | RBool r => failure r | RInt r => failure r | RSlices r => failure r
  | RHash r => failure r
  | RList (Ret r) => failure r
  | _ => None
  end.

(** MGET stops at the first value that is no string. *)
Lemma mget_wrong_type m ks k v t : k ∈ ks -> m !! k = Some (v, t) -> dtypeOf v <> TypeString ->
  exists e, failure (mget m ks) = Some e /\ Is e ErrWrongType = true.
Proof.
  intros Hin Hk Hv. induction ks as [|k' ks IH]; [by apply not_elem_of_nil in Hin|].
  cbn [mget]. destruct (get m k') as [e|x] eqn:Eg.
  - unfold get, stringAt in Eg. destruct (m !! k') as [[[] ?]|]; cbn in Eg; try discriminate Eg;
      injection Eg as <-; eexists; (split; [reflexivity|reflexivity]).
  - apply elem_of_cons in Hin as [->|Hin].
    + unfold get, stringAt in Eg. rewrite Hk in Eg. by destruct v.
    + destruct (IH Hin) as (e & He & Hi). exists e. split; [|done]. by destruct (mget m ks).
Qed.

Lemma spec_wrong_type now o m r m' k d v t : spec now o m r m' -> (k, d) ∈ demands o -> m !! k = Some (v, t) -> dtypeOf v <> d ->
  m' = m /\ exists e, errorOf r = Some e /\ Is e ErrWrongType = true.
Proof.
  intros Hs Hd Hk Hv.
  destruct o; cbn [demands] in Hd; try (by apply not_elem_of_nil in Hd);
    try (case_bool_decide; [by apply not_elem_of_nil in Hd|]);
    try (apply list_elem_of_singleton in Hd; injection Hd as -> ->);
    cbn [spec] in Hs;
    try (destruct Hs as (ms & Hs & _)); destruct Hs as [-> ->].
  all: try (apply list_elem_of_fmap in Hd as (k' & [= -> ->] & Hin); split; [done|]; by eapply mget_wrong_type).
  all: unfold get, push, pushX, popFrom, setElem, trim, stringAt, hashAt, listAt, setAt; rewrite Hk;
    destruct v; try (by destruct Hv); rewrite ?bool_decide_eq_false_2 by done; try case_bool_decide;
    (split; [reflexivity|]); eexists; (split; [reflexivity|reflexivity]).
Qed.

(** C10: Types are kept apart.  A call that reads or extends a string, a hash, a list or a set (see [demands];
    MGET for any of its keys), on a live key that holds a value of another type, answers with the wrong-type
    error and leaves every key as it was.  The store has no memory limit, no other goroutine runs, and the clock
    stands still during the call. *)
Theorem wrong_type_refused now m o st k d v t : quiet now st -> reps now m (db st) -> op_ok o ->
  (k, d) ∈ demands o -> m !! k = Some (v, t) -> dtypeOf v <> d ->
  let '(r, st') := exec o st in reps now m (db st') /\ exists e, errorOf r = Some e /\ Is e ErrWrongType = true.
Proof.
  intros Hq Hr Ho Hd Hk Hv. destruct (exec o st) as [r st'] eqn:E. destruct (exec_implements now o m Ho st r st' E Hq Hr) as (_ & m' & Hr' & Hs).
  destruct (spec_wrong_type now o m r m' k d v t Hs Hd Hk Hv) as [-> He]. done.
Qed.

Lemma runTimed_spec l now m st :
  quiet now st -> reps now m (db st) -> Forall (fun x => 0 <= fst x /\ op_ok (snd x)) l ->
  exists m', specRun now m l (fst (runTimed l st)) m'.
Proof.
  intros Hq Hr Hl. revert now m st Hq Hr. induction Hl as [|[d o] l [Hd Ho] Hl IH]; intros now m st Hq Hr.
  { exists m. constructor. }
  cbn [runTimed]. simpl in Hd, Ho. destruct (exec o (later d st)) as [r st1] eqn:E.
  destruct (exec_implements (now + d) o (age (now + d) m) Ho _ _ _ E (quiet_later _ _ _ Hq)) as (Hq1 & m1 & Hr1 & Hs1).
  { eapply reps_age; [|exact Hr]. lia. }
  destruct (IH _ _ _ Hq1 Hr1) as [m2 Hm2]. destruct (runTimed l st1) as [rs st2]. exists m2. by econstructor.
Qed.

(** C11: Refinement, whole runs.  Every sequence of calls on a new store without a memory limit, with
    no other goroutine at work, the clock standing still within a call and any time passing between
    two of them, has replies that the specification allows from the empty keyspace. *)
Theorem run_refines cfg s0 l now rnd iters :
  NewStore cfg = inr s0 -> maxMemBytes s0 = 0 -> Forall (fun x => 0 <= fst x /\ op_ok (snd x)) l ->
  exists m', specRun now ∅ l (fst (runTimed l (mkSt s0 (mkEnv now [] [] rnd iters)))) m'.
Proof.
  intros Hn Hm Hl. apply runTimed_spec; [|intros k|done].
  - split; try done. by eapply wf_NewStore.
  - assert (find s0 k = None) as Hk; [|unfold view; cbn [db]; by rewrite Hk, lookup_empty].
    unfold NewStore in Hn. destruct cfg as [c|]; [|done]. simplify_eq. unfold find, refreshConfigCache, shardAt, emptyStore.
    cbn [shards]. rewrite lookup_replicate_2 by apply shardIndex_lt. done.
Qed.
End runs.

(** ** Snapshot and reload *)

(** The expiry a reload at the same instant gives: what is left, in whole milliseconds; a key with
    less than one of them left is stored without an expiry. *)
Definition reloadAt (now t : Time) : Time :=
  let ms := Milliseconds (Sub t now) in
  if IsZero t || (ms <=? 0) then noTTL else now + ms * Millisecond.

Definition reloaded (now : Time) (m : keyspace) : keyspace := (fun b => (fst b, reloadAt now (snd b))) <$> m.

Lemma ms_nowrap t now : 0 < Milliseconds (Sub t now) ->
  DurationMul (Milliseconds (Sub t now)) Millisecond = Milliseconds (Sub t now) * Millisecond.
Proof.
  unfold DurationMul, Milliseconds, Millisecond. intros Hp. apply wrap64_id. unfold is_int64.
  assert (MinInt64 <= Sub t now <= MaxInt64) by (unfold Sub, MinInt64, MaxInt64; lia).
  pose proof (Z.quot_rem' (Sub t now) 1000000) as Hqr.
  pose proof (Z.rem_nonneg (Sub t now) 1000000 ltac:(lia)) as Hrem.
  assert (0 <= Sub t now) as Hs.
  { destruct (Z.le_gt_cases 0 (Sub t now)) as [|Hneg]; [done|].
    pose proof (Z.quot_le_mono (Sub t now) 0 1000000 ltac:(lia) ltac:(lia)). rewrite Z.quot_0_l in * by lia. lia. }
  specialize (Hrem Hs). unfold MinInt64, MaxInt64 in *. apply andb_true_iff. split; apply Z.leb_le; lia.
Qed.

(** Loading the entry of a binding stores it again. *)
Lemma loadEntry_snapshot now m k v t ent :
  value_wf v -> snapshotOf now (k, (v, t)) ent ->
  loadEntry now ent m = (None, <[k := (v, reloadAt now t)]> m).
Proof.
  intros Hv He.
  assert (snapValue ent = Some v /\ sn_Key ent = k /\
          sn_TTLMs ent = if IsZero t then 0 else Z.max 0 (Milliseconds (Sub t now))) as (Hval & Hk & Ht).
  { unfold snapshotOf in He. destruct v as [b|h|l|st]; [subst ent..|destruct He as (ms & Hms & ->)]; unfold snapValue; simpl in *.
    - by rewrite Hv.
    - by rewrite fmap_clone_wf.
    - by rewrite map_clone_wf.
    - split; [|done]. do 2 f_equal. rewrite map_map. simpl. rewrite map_id. apply leibniz_equiv.
      rewrite Hms. apply list_to_set_elements. }
  unfold loadEntry. rewrite Hval, Hk, Ht. f_equal. unfold reloadAt.
  destruct (IsZero t) eqn:Ez; [by rewrite put_live by done|]. simpl orb.
  destruct (Milliseconds (Sub t now) <=? 0) eqn:Em; zify_bool.
  - replace (Z.max 0 (Milliseconds (Sub t now))) with 0 by lia. by rewrite put_live by done.
  - rewrite Z.max_r by lia. rewrite (proj2 (Z.gtb_lt _ _)) by lia. rewrite ms_nowrap by lia. apply put_live.
    unfold expired, After, Add, Millisecond. simpl. apply andb_false_iff. right. apply Z.ltb_ge. lia.
Qed.

(** The bindings one after the other. *)
Definition reinsert (now : Time) (l : list (string * binding)) (m : keyspace) : keyspace :=
  fold_left (fun m kb => <[fst kb := (fst (snd kb), reloadAt now (snd (snd kb)))]> m) l m.

Lemma load_snapshot now (l : list (string * binding)) out m :
  Forall (fun kb => value_wf (fst (snd kb))) l -> Forall2 (snapshotOf now) l out ->
  load now out m = (None, reinsert now l m).
Proof.
  intros Hv Hl. revert m Hv. induction Hl as [|[k [v t]] ent l out He Hl IH]; intros m Hv; [done|].
  inversion Hv; subst. cbn [load]. by rewrite (loadEntry_snapshot now m k v t ent), IH.
Qed.

Lemma fold_insert_reload now (l : list (string * binding)) m k :
  NoDup l.*1 ->
  reinsert now l m !! k =
    match (list_to_map l : keyspace) !! k with
    | Some b => Some (fst b, reloadAt now (snd b))
    | None => m !! k
    end.
Proof.
  revert m. induction l as [|[k' b] l IH]; intros m; simpl; [done|]. intros [Hk Hl]%NoDup_cons. rewrite IH by done.
  destruct (decide (k = k')) as [->|Hne].
  - rewrite lookup_insert_eq. rewrite (not_elem_of_list_to_map_1 _ _ Hk). by rewrite lookup_insert_eq.
  - by rewrite !lookup_insert_ne by done.
Qed.

Section snapshot.
Context `{MapOrder}.

(** The entries a store delivers load to its keyspace. *)
Lemma snapshot_loads now m st out st' :
  quiet now st -> reps now m (db st) -> SnapshotCtx st = (out, st') ->
  load now out ∅ = (None, reloaded now m) /\ exists l, l ≡ₚ map_to_list m /\ Forall2 (snapshotOf now) l out.
Proof.
  intros Hq Hr E. destruct (t_Snapshot now m st out st' E Hq Hr) as (_ & _ & l & Hl & Hf). split; [|by exists l].
  assert (Forall (fun kb => value_wf (fst (snd kb))) l) as Hv.
  { rewrite Hl. apply Forall_forall. intros [k [v t]] Hk%elem_of_map_to_list. by apply (reps_wf now m (db st) k v t (q_wf _ _ Hq) Hr). }
  rewrite (load_snapshot now l out ∅ Hv Hf). f_equal. apply map_eq. intros k.
  assert (NoDup l.*1) as Hnd by (rewrite Hl; apply NoDup_fst_map_to_list).
  rewrite fold_insert_reload by done. unfold reloaded. rewrite lookup_fmap, lookup_empty.
  rewrite (list_to_map_proper l (map_to_list m) Hnd Hl), list_to_map_to_list. by destruct (m !! k).
Qed.

(** C14: Snapshot round trip.  The entries a store delivers, loaded into any other store at the same
    instant, make its keyspace that of the first: the same keys and values, each expiry kept to the
    millisecond below, and none at all for a key with less than a millisecond to live ([reloadAt]).
    Neither store has a memory limit, and no other goroutine works on them. *)
Theorem snapshot_roundtrip now m m2 st st2 :
  quiet now st -> reps now m (db st) -> quiet now st2 -> reps now m2 (db st2) ->
  let '(out, _) := SnapshotCtx st in
  let '(err, st2') := ApplySnapshot out st2 in
  err = None /\ reps now (reloaded now m) (db st2').
Proof.
  intros Hq Hr Hq2 Hr2. destruct (SnapshotCtx st) as [out st'] eqn:E. destruct (ApplySnapshot out st2) as [err st2'] eqn:E2.
  destruct (d_ApplySnapshot now m2 out st2 err st2' E2 Hq2 Hr2) as (_ & -> & Hr').
  destruct (snapshot_loads now m st out st' Hq Hr E) as [Hl _]. by rewrite Hl in *.
Qed.
End snapshot.

(** ** Concrete runs *)

Lemma empty_quiet : quiet 1 (mkSt emptyStore (calmEnv 1)).
Proof. split; try done. apply wf_empty. Qed.

Lemma empty_reps now : reps now ∅ emptyStore.
Proof.
  intros k. rewrite lookup_empty. unfold view, find, shardAt, emptyStore. cbn [shards].
  by rewrite lookup_replicate_2 by apply shardIndex_lt.
Qed.

Lemma exec_refines_witness :
  let '(r, st') := exec (OAppend "a" (Some "x"%string)) (mkSt emptyStore (calmEnv 1)) in
  quiet 1 st' /\ exists m', reps 1 m' (db st') /\ spec 1 (OAppend "a" (Some "x"%string)) ∅ r m'.
Proof. exact (@exec_refines idOrder 1 ∅ (OAppend "a" (Some "x"%string)) _ empty_quiet (empty_reps 1) I). Defined.

Lemma wrong_type_refused_witness :
  let '(r, st') := exec (OLPush "a" [Some "x"%string]) (demo [OSet "a" (Some "1"%string) noTTL]) in
  reps 1 {["a"%string := (VString (Some "1"%string), noTTL)]} (db st') /\ exists e, errorOf r = Some e /\ Is e ErrWrongType = true.
Proof.
  destruct (exec (OSet "a" (Some "1"%string) noTTL) (mkSt emptyStore (calmEnv 1))) as [r st'] eqn:E.
  destruct (exec_implements 1 (OSet "a" (Some "1"%string) noTTL) ∅ I _ _ _ E empty_quiet (empty_reps 1)) as (Hq & m & Hr & _ & ->).
  unfold demo, run, mbind, M_bind, mret, M_ret. rewrite E. cbn [snd].
  refine (@wrong_type_refused idOrder 1 _ (OLPush "a" [Some "x"%string]) st' "a" TypeList (VString (Some "1"%string)) noTTL Hq Hr I _ _ _); [by apply list_elem_of_singleton|apply lookup_singleton_eq|discriminate].
Defined.

Definition demoCalls : list (Z * op) :=
  [(0, OSet "a" (Some "1"%string) 5); (2, OIncrBy "a" 7); (0, OTTL "a"); (9, OGet "a"); (0, ODBSize)].

Lemma run_refines_witness :
  exists m', specRun 1 ∅ demoCalls
    (fst (runTimed demoCalls (mkSt (refreshConfigCache (Some zeroConfig) emptyStore) (mkEnv 1 [] [] [] 0)))) m'.
Proof.
  apply (@run_refines idOrder (Some zeroConfig)); [done|done|]. repeat constructor; simpl; lia.
Defined.

(** One key with a few nanoseconds to live, and one with three seconds. *)
Definition demoSource : St :=
  demo [OSet "a" (Some "1"%string) 5; OSAdd "s" [Some "x"%string; Some "y"%string]; OExpireAt "s" 3000000500].

Lemma run_quiet `{MapOrder} os now st :
  Forall op_ok os -> quiet now st -> (exists m, reps now m (db st)) ->
  quiet now (snd (run os st)) /\ exists m, reps now m (db (snd (run os st))).
Proof.
  intros Hos. revert st. induction Hos as [|o os Ho Hos IH]; intros st Hq [m Hr]; [eauto|].
  cbn [run]. unfold mbind, M_bind, mret, M_ret. destruct (exec o st) as [r st1] eqn:E.
  destruct (exec_implements now o m Ho st r st1 E Hq Hr) as (Hq1 & m1 & Hr1 & _).
  destruct (IH st1 Hq1 (ex_intro _ m1 Hr1)) as [? ?]. by destruct (run os st1).
Qed.

Lemma demoSource_ok : quiet 1 demoSource /\ exists m, reps 1 m (db demoSource).
Proof.
  unfold demoSource, demo. apply (@run_quiet idOrder); [by repeat constructor|apply empty_quiet|]. exists ∅. apply empty_reps.
Qed.

Lemma snapshot_roundtrip_witness :
  exists m, reps 1 m (db demoSource) /\
  let '(out, _) := SnapshotCtx demoSource in
  let '(err, st2') := ApplySnapshot out (mkSt emptyStore (calmEnv 1)) in
  err = None /\ reps 1 (reloaded 1 m) (db st2').
Proof.
  destruct demoSource_ok as (Hq & m & Hr). exists m. split; [exact Hr|].
  exact (@snapshot_roundtrip idOrder 1 m ∅ demoSource (mkSt emptyStore (calmEnv 1)) Hq Hr empty_quiet (empty_reps 1)).
Defined.
