(* ===== verification/StoreQuirks.v ===== *)
(** * Behaviours of the store that its comments, its callers or Redis do not expect.

    Each lemma exhibits one of them on the model, at concrete inputs unless it is stated for all. *)

From S2P Require Import Prelude GoInt GoStr GoTime GoSort Config StoreBase Eviction.
From S2P Require Import StoreString StoreHash StoreList StoreSet StoreKeys StoreOps.
From S2P Require Import StoreMem StoreSpec StoreTrace.

Definition str (s : string) : slice := Some s.

Definition replies (os : list op) : list reply := fst (run os (mkSt emptyStore (calmEnv 1))).

(** ** Crashes *)

(** SCAN with a cursor of 2^63 or more: the conversion to [int] is negative, which passes the only
    test, and the slice expression panics; on an empty store too. *)
Lemma scan_cursor_panics c n all :
  2 ^ 63 <= c < 2 ^ 64 -> scanWindow c n all = Panic.
Proof.
  intros Hc. unfold scanWindow, wrap64.
  assert ((c + 2 ^ 63) mod 2 ^ 64 - 2 ^ 63 = c - 2 ^ 64) as ->.
  { replace (c + 2 ^ 63) with ((c - 2 ^ 63) + 1 * 2 ^ 64) by lia. rewrite Z_mod_plus_full, Z.mod_small; lia. }
  replace (c - 2 ^ 64 >=? Z.of_nat (List.length all)) with false by (symmetry; rewrite Z.geb_leb; apply Z.leb_gt; lia).
  by replace (c - 2 ^ 64 <? 0) with true by (symmetry; apply Z.ltb_lt; lia).
Qed.

(** SCAN with a COUNT that overflows the end of the window. *)
Lemma scan_count_panics : replies [OSet "a" (str "1") noTTL; OSet "b" (str "1") noTTL; OScan 1 "*" MaxInt64 EmptyString]
  = [done; done; RScan Panic].
Proof. by vm_compute. Qed.

(** LPOP with a count whose result slice cannot be allocated. *)
Lemma lpop_count_panics : replies [ORPush "l" [str "x"]; OLPop "l" (2 ^ 62)] = [RInt (inr 1); RList Panic].
Proof. by vm_compute. Qed.

(** ** Values *)

(** An empty string is stored as a nil slice: the key is there, its value reads as missing. *)
Lemma empty_string_reads_nil :
  replies [OSet "a" (str EmptyString) noTTL; OExists ["a"%string]; OGet "a"] = [done; RNum 1; RSlice (inr None)].
Proof. by vm_compute. Qed.

(** LTRIM past the end keeps the last element. *)
Lemma ltrim_past_end :
  replies [ORPush "l" [str "x"; str "y"]; OLTrim "l" 5 9; OLRange "l" 0 (-1)]
  = [RInt (inr 2); done; RList (Ret (inr (Some [str "y"])))].
Proof. by vm_compute. Qed.

(** LRANGE to a stop before the beginning returns the first element. *)
Lemma lrange_before_start :
  replies [ORPush "l" [str "x"; str "y"]; OLRange "l" 0 (-100)]
  = [RInt (inr 2); RList (Ret (inr (Some [str "x"])))].
Proof. by vm_compute. Qed.

(** LINDEX and LSET below minus the length reach the first element. *)
Lemma lindex_below_start :
  replies [ORPush "l" [str "x"; str "y"]; OLIndex "l" (-100); OLSet "l" (-100) (str "z"); OLIndex "l" 0]
  = [RInt (inr 2); RSlice (inr (str "x")); done; RSlice (inr (str "z"))].
Proof. by vm_compute. Qed.

(** LREM with the least count: its negation is itself, and nothing is removed. *)
Lemma lrem_min_count :
  replies [ORPush "l" [str "x"; str "x"]; OLRem "l" MinInt64 (str "x")] = [RInt (inr 2); RInt (inr 0)].
Proof. by vm_compute. Qed.

(** DECRBY of the least integer adds it. *)
Lemma decrby_min :
  replies [OSet "n" (str "1") noTTL; ODecrBy "n" MinInt64] = [done; RInt (inr (1 + MinInt64))].
Proof. by vm_compute. Qed.

(** ** Expiry *)

(** EXPIRE by more seconds than a duration holds wraps round, here into the past: the key goes. *)
Lemma expire_wraps :
  replies [OSet "a" (str "1") noTTL; OExpire "a" 10000000000; OExists ["a"%string]]
  = [done; RBool (inr true); RNum 0].
Proof. by vm_compute. Qed.

(** A snapshot drops the expiry of a key with less than a millisecond to live: it stays for ever. *)
Lemma snapshot_loses_ttl now t :
  now < t < now + Millisecond -> t <> 0 -> reloadAt now t = noTTL.
Proof.
  intros Ht H0. unfold Millisecond in Ht. unfold reloadAt.
  assert (Sub t now = t - now) as -> by (unfold Sub, MinInt64, MaxInt64; lia).
  assert (Milliseconds (t - now) = 0) as -> by (apply Z.quot_small; unfold Millisecond; lia).
  by destruct (IsZero t).
Qed.

(** ** Accounting *)

(** A pop measures the old entry after it took the elements out: the counter keeps their 32 bytes. *)
Lemma pop_overcounts :
  let s := db (demo [ORPush "l" [str "x"; str "y"; str "z"]; OLPop "l" 2]) in mem s = memTotal s + 64.
Proof. by vm_compute. Qed.

(** An increment of an expired key takes the old entry off the counter twice. *)
Lemma incr_expired_undercounts :
  let l := [(0, OSet "other" (str "0123456789") noTTL); (0, OSet "n" (str "1") 5); (10, OIncrBy "n" 1)] in
  let s := db (snd (runTimed l (mkSt emptyStore (calmEnv 1)))) in mem s < memTotal s.
Proof. by vm_compute. Qed.

(** A limit of 2^63 bytes or more is accepted and compared as a negative number: no write fits. *)
Lemma huge_limit_refuses_writes :
  replies [OReplaceConfig (Some (memConfig "9223372036854775808" "noeviction")); OSet "a" (str "1") noTTL]
  = [done; RUnit (Some (wrapErr "store: " ErrOOMerr))].
Proof. by vm_compute. Qed.

(** ** Eviction *)

(** The key being written, when it is the oldest of its shard, hides the other keys of the shard
    from the LRU policy: OOM with an evictable key present ("j0" and "aa" share a shard). *)
Lemma avoided_key_hides_shard :
  replies [OReplaceConfig (Some (memConfig "300" "allkeys-lru")); OSet "aa" (str "1") noTTL;
           OSet "j0" (str "1") noTTL; OAppend "aa" (str (String.concat "0123456789" (repeat EmptyString 10)))]
  = [done; done; done; RInt (inl (wrapErr "store: " ErrOOMerr))].
Proof. by vm_compute. Qed.

(** APPEND of a key that is not there, with another goroutine storing the key, already expired, while APPEND
    waits for memory: the expired entry is neither appended to nor removed, the new one takes its place as if
    the key were new.  The entry points to no element while the LRU list holds one, and the byte counter keeps
    the bytes of both. *)
Lemma append_breaks_lru :
  let st := demo [OReplaceConfig (Some (memConfig "300" "allkeys-lru")); OSet "b" (str "2") noTTL; OSet "c" (str "3") noTTL] in
  let other s := db (snd (exec (OSet "a" (str EmptyString) (-5)) (mkSt s (calmEnv 1)))) in
  let s := db (snd (exec (OAppend "a" (str "x")) (mkSt (db st) (mkEnv 1 [] [other] [] 0)))) in
  e_allElem <$> find s "a" = Some false /\ allList (shardAt (shardIndex "a") s) = ["a"%string] /\ mem s = memTotal s + 129.
Proof. by vm_compute. Qed.

(** ** Patterns *)

(** KEYS and SCAN match with [path.Match], where a star does not cross a slash. *)
Lemma star_misses_slash :
  replies [OSet "a/b" (str "1") noTTL; OKeys "*"; OScan 0 EmptyString 10 EmptyString; ODBSize]
  = [done; RKeys []; RScan (Ret (0, [])); RNum 1].
Proof. by vm_compute. Qed.
