(* ===== verification/Session.v ===== *)
(** * Package [client]: sessions and pub/sub subscriptions (internal/client).

    A session is identified by its ID, which stands for the pointer in the subscriber lists: the
    server numbers connections from a counter.  A map to [true] is the set of its keys. *)

From S2P Require Import Prelude GoInt GoStr GoTime GoSort Resp Config StoreBase.

(** ** Sessions *)

(** [s_Addr] is [Conn.RemoteAddr().String()]; the parser and the writer are the connection's. *)
Record Session := mkSession {
  s_ID : Z; s_Addr : string; Authenticated : bool; s_Name : string; s_DB : Z;
  MultiQueue : list Value; WatchedKeys : gmap string Z; InMulti : bool;
  SubChannels : gset string; PSubPatterns : gset string;
  CreatedAt : Time; LastCmdAt : Time; CmdCount : Z }.

Definition NewSession (id : Z) (addr : string) (created last : Time) : Session :=
  mkSession id addr false EmptyString 0 [] ∅ false ∅ ∅ created last 0.

Definition setAuth (b : bool) (s : Session) : Session :=
  mkSession (s_ID s) (s_Addr s) b (s_Name s) (s_DB s) (MultiQueue s) (WatchedKeys s) (InMulti s)
    (SubChannels s) (PSubPatterns s) (CreatedAt s) (LastCmdAt s) (CmdCount s).
Definition setName (n : string) (s : Session) : Session :=
  mkSession (s_ID s) (s_Addr s) (Authenticated s) n (s_DB s) (MultiQueue s) (WatchedKeys s) (InMulti s)
    (SubChannels s) (PSubPatterns s) (CreatedAt s) (LastCmdAt s) (CmdCount s).
Definition setDB (n : Z) (s : Session) : Session :=
  mkSession (s_ID s) (s_Addr s) (Authenticated s) (s_Name s) n (MultiQueue s) (WatchedKeys s) (InMulti s)
    (SubChannels s) (PSubPatterns s) (CreatedAt s) (LastCmdAt s) (CmdCount s).
Definition setMulti (b : bool) (q : list Value) (s : Session) : Session :=
  mkSession (s_ID s) (s_Addr s) (Authenticated s) (s_Name s) (s_DB s) q (WatchedKeys s) b
    (SubChannels s) (PSubPatterns s) (CreatedAt s) (LastCmdAt s) (CmdCount s).
Definition setWatched (m : gmap string Z) (s : Session) : Session :=
  mkSession (s_ID s) (s_Addr s) (Authenticated s) (s_Name s) (s_DB s) (MultiQueue s) m (InMulti s)
    (SubChannels s) (PSubPatterns s) (CreatedAt s) (LastCmdAt s) (CmdCount s).
Definition setSubs (c p : gset string) (s : Session) : Session :=
  mkSession (s_ID s) (s_Addr s) (Authenticated s) (s_Name s) (s_DB s) (MultiQueue s) (WatchedKeys s)
    (InMulti s) c p (CreatedAt s) (LastCmdAt s) (CmdCount s).
Definition counted1 (now : Time) (s : Session) : Session :=
  mkSession (s_ID s) (s_Addr s) (Authenticated s) (s_Name s) (s_DB s) (MultiQueue s) (WatchedKeys s)
    (InMulti s) (SubChannels s) (PSubPatterns s) (CreatedAt s) now (CmdCount s + 1).

Definition InSubscribeMode (s : Session) : bool :=
  bool_decide (SubChannels s <> ∅) || bool_decide (PSubPatterns s <> ∅).

(** The pushes of [pushPubSubMessage] and [pushPMessage]. *)
Definition pubSubMessage (channel : string) (message : slice) : Value :=
  vArr [vBulk "message"; vBulk channel; vBulk (sbytes message)].
Definition pMessage (pattern channel : string) (message : slice) : Value :=
  vArr [vBulk "pmessage"; vBulk pattern; vBulk channel; vBulk (sbytes message)].

(** ** The subscription manager *)

Record SubscriptionManager := mkSubs {
  chans : gmap string (list Z); psubs : gmap string (list Z) }.

Definition NewSubscriptionManager : SubscriptionManager := mkSubs ∅ ∅.

(** The map operations [Subscribe]/[PSubscribe] and [Unsubscribe]/[PUnsubscribe] share. *)
Definition addSub (ch : string) (s : Z) (m : gmap string (list Z)) : gmap string (list Z) :=
  let l := default [] (m !! ch) in
  if bool_decide (s ∈ l) then m else <[ch := l ++ [s]]> m.

Definition removeSession (subs : list Z) (s : Z) : list Z := filter (fun x => x <> s) subs.

Definition dropSub (ch : string) (s : Z) (m : gmap string (list Z)) : gmap string (list Z) :=
  let l := removeSession (default [] (m !! ch)) s in
  if bool_decide (l = []) then delete ch m else <[ch := l]> m.

Definition Subscribe (ch : string) (s : Z) (m : SubscriptionManager) : SubscriptionManager :=
  mkSubs (addSub ch s (chans m)) (psubs m).
Definition Unsubscribe (ch : string) (s : Z) (m : SubscriptionManager) : SubscriptionManager :=
  mkSubs (dropSub ch s (chans m)) (psubs m).
Definition PSubscribe (pat : string) (s : Z) (m : SubscriptionManager) : SubscriptionManager :=
  mkSubs (chans m) (addSub pat s (psubs m)).
Definition PUnsubscribe (pat : string) (s : Z) (m : SubscriptionManager) : SubscriptionManager :=
  mkSubs (chans m) (dropSub pat s (psubs m)).

(** The two loops of [RemoveSessionFromAll]: each key is visited once and its list does not depend
    on the others, so the order of the iteration does not matter. *)
Definition dropEverywhere (s : Z) (m : gmap string (list Z)) : gmap string (list Z) :=
  omap (fun l => let l := removeSession l s in if bool_decide (l = []) then None else Some l) m.

Definition RemoveSessionFromAll (s : Z) (m : SubscriptionManager) : SubscriptionManager :=
  mkSubs (dropEverywhere s (chans m)) (dropEverywhere s (psubs m)).

(** The inner loop of [Publish]: sessions not seen before get [msg]. *)
Fixpoint deliver (msg : Value) (subs : list Z) (seen : gset Z) : list (Z * Value) * gset Z :=
  match subs with
  | [] => ([], seen)
  | s :: subs =>
      if bool_decide (s ∈ seen) then deliver msg subs seen
      else let '(out, seen) := deliver msg subs ({[ s ]} ∪ seen) in ((s, msg) :: out, seen)
  end.

(** The loop over the patterns, in the order of the iteration. *)
Fixpoint deliverPatterns (channel : string) (message : slice) (ps : list (string * list Z))
    (seen : gset Z) : list (Z * Value) :=
  match ps with
  | [] => []
  | (pat, subs) :: ps =>
      if default false (pathMatch pat channel) then
        let '(out, seen) := deliver (pMessage pat channel message) subs seen in
        out ++ deliverPatterns channel message ps seen
      else deliverPatterns channel message ps seen
  end.

(** What [Publish] writes to which session, in order; it returns their number. *)
Definition deliveries (channel : string) (message : slice) (ps : list (string * list Z))
    (m : SubscriptionManager) : list (Z * Value) :=
  let '(out, seen) :=
    deliver (pubSubMessage channel message) (default [] (chans m !! channel)) ∅ in
  out ++ deliverPatterns channel message ps seen.
