(* ===== verification/Repl.v ===== *)
(** * Package [peer], part 1: the replicated mutation and its application to a store
    (internal/peer/replicator.go, internal/peer/apply.go). *)

From S2P Require Import Prelude GoInt GoStr GoTime GoSort Config StoreBase Eviction StoreString.
From S2P Require Import StoreHash StoreList StoreSet StoreKeys.

Record ReplicatePayload := mkPayload {
  p_Op : string; p_Key : string; p_Value : slice; p_TTLms : Z; p_Cnt : Z; p_Dest : string;
  p_Fields : gmap string slice; p_Members : list slice }.

(** Payloads by the fields the senders fill; the others have their zero value. *)
Definition pKey (op key : string) : ReplicatePayload :=
  mkPayload op key None 0 0 EmptyString ∅ [].
Definition pValue (op key : string) (v : slice) (ttlms : Z) : ReplicatePayload :=
  mkPayload op key v ttlms 0 EmptyString ∅ [].
Definition pCnt (op key : string) (n : Z) (v : slice) : ReplicatePayload :=
  mkPayload op key v 0 n EmptyString ∅ [].
Definition pMembers (op key : string) (l : list slice) : ReplicatePayload :=
  mkPayload op key None 0 0 EmptyString ∅ l.
Definition pFields (op key : string) (m : gmap string slice) : ReplicatePayload :=
  mkPayload op key None 0 0 EmptyString m [].
Definition pDest (op key dest : string) : ReplicatePayload :=
  mkPayload op key None 0 0 dest ∅ [].

(** [_, err := st.F(...); return err]. *)
Definition dropResult {A} (m : M (res A)) : M (option error) :=
  r ← m; mret (match r with inl err => Some err | inr _ => None end).

Definition ignore {A} (m : M A) : M (option error) := _ ← m; mret None.

(** A pop of the store can panic. *)
Definition popResult {A} (m : M (outcome (res A))) : M (outcome (option error)) :=
  r ← m;
  mret (match r with
        | Panic => Panic
        | Ret (inl err) => Ret (Some err)
        | Ret (inr _) => Ret None
        end).

Definition returns (m : M (option error)) : M (outcome (option error)) := r ← m; mret (Ret r).

(** The members of [LTRIM] and [LINSERT_*]. *)
Definition member (i : nat) (p : ReplicatePayload) : slice := default None (p_Members p !! i).

Section apply.
Context `{MapOrder}.

Definition applyLTrim (p : ReplicatePayload) : M (option error) :=
  if (List.length (p_Members p) <? 2)%nat then mret None
  else
    let s1 := sbytes (member 0 p) in
    let s2 := sbytes (member 1 p) in
    match ParseInt s1, ParseInt s2 with
    | inl e, _ => mret (Some (wrapErr "ltrim start: " (numError s1 e)))
    | _, inl e => mret (Some (wrapErr "ltrim stop: " (numError s2 e)))
    | inr start, inr stop => LTrim (p_Key p) start stop
    end.

(** [if len(p.Members) == 0 { return nil }] before the set and list writers. *)
Definition unlessEmpty (p : ReplicatePayload) (m : M (option error)) : M (option error) :=
  if bool_decide (p_Members p = []) then mret None else m.

Definition applyReplicatePayload (p : ReplicatePayload) : M (outcome (option error)) :=
  let op := ToUpper (TrimSpace (p_Op p)) in
  let key := p_Key p in
  let case s := (op =? s)%string in
  if case "SET" then
    returns
      (exp ← (if p_TTLms p >? 0
              then now ← Now; mret (Add now (DurationMul (p_TTLms p) Millisecond))
              else mret noTTL);
       Set_ key (p_Value p) exp)
  else if case "DEL" then returns (ignore (Del [key]))
  else if case "HSET" then
    returns (if bool_decide (p_Fields p = ∅) then mret None else dropResult (HSet key (p_Fields p)))
  else if case "HDEL" then returns (dropResult (HDel key (map sbytes (p_Members p))))
  else if case "SADD" then returns (unlessEmpty p (dropResult (SAdd key (p_Members p))))
  else if case "SREM" then returns (unlessEmpty p (dropResult (SRem key (p_Members p))))
  else if case "REPLACESET" then returns (ReplaceSet key (p_Members p))
  else if case "LPUSH" then returns (unlessEmpty p (dropResult (LPush key (p_Members p))))
  else if case "RPUSH" then returns (unlessEmpty p (dropResult (RPush key (p_Members p))))
  else if case "FLUSHDB" || case "FLUSHALL" then returns (ignore FlushDB)
  else if case "EXPIRE" then
    returns (if p_Cnt p <=? 0 then mret None else dropResult (Expire key (p_Cnt p)))
  else if case "PEXPIRE" then
    returns (if p_Cnt p <=? 0 then mret None
             else now ← Now;
                  dropResult (ExpireAt key (Add now (DurationMul (p_Cnt p) Millisecond))))
  else if case "EXPIREAT" then returns (dropResult (ExpireAt key (Unix (p_Cnt p) 0)))
  else if case "PEXPIREAT" then returns (dropResult (ExpireAt key (UnixMilli (p_TTLms p))))
  else if case "PERSIST" then returns (dropResult (Persist key))
  else if case "RENAME" then returns (Rename key (p_Dest p))
  else if case "LPOP" then popResult (LPop key (if p_Cnt p <? 1 then 1 else p_Cnt p))
  else if case "RPOP" then popResult (RPop key (if p_Cnt p <? 1 then 1 else p_Cnt p))
  else if case "LREM" then returns (dropResult (LRem key (p_Cnt p) (p_Value p)))
  else if case "LSET" then returns (LSet key (p_Cnt p) (p_Value p))
  else if case "LTRIM" then returns (applyLTrim p)
  else if case "LINSERT_BEFORE" then
    returns (if (List.length (p_Members p) <? 2)%nat then mret None
             else dropResult (LInsert key true (member 0 p) (member 1 p)))
  else if case "LINSERT_AFTER" then
    returns (if (List.length (p_Members p) <? 2)%nat then mret None
             else dropResult (LInsert key false (member 0 p) (member 1 p)))
  else returns (mret (Some (New ("unknown replicate op " +++ Quote op)))).

End apply.
