(* ===== verification/ReplApply.v ===== *)
(** * What applying a replicated mutation does to the keyspace of a replica. *)

From S2P Require Import Prelude GoInt GoStr GoTime GoSort Config StoreBase Eviction StoreString.
From S2P Require Import StoreHash StoreList StoreSet StoreKeys StoreOps StoreHoare StoreView StoreInvOps.
From S2P Require Import StoreWf StoreExec StoreSpec StoreRefine StoreRefineColl StoreRefineKeys Repl.

Section apply.
Context (now : Time) `{MapOrder}.

(** Applied at [now], the payload [p] takes the keyspace [m] to [m'], without a panic. *)
Definition mirrors (p : ReplicatePayload) (m m' : keyspace) : Prop :=
  exists r, does now m (applyReplicatePayload p) (Ret r, m').

(** ** The wrappers *)

Lemma d_then {A B} m (c : M A) (f : A -> B) x : does now m c x -> does now m (r ← c; mret (f r)) (f (fst x), snd x).
Proof. intros Hc. eapply t_bind; [exact Hc|]. intros a. apply t_ret. by intros s [-> ?]. Qed.

Lemma d_after {A B} (c : M A) a m m' (f : A -> M B) x :
  does now m c (a, m') -> does now m' (f a) x -> does now m (c ≫= f) x.
Proof.
  intros Hc Hf. eapply t_bind; [exact Hc|]. intros b. cbv beta. apply (t_pure now (b = a)); [by intros s _ [? _]|].
  intros ->. eapply t_pre; [exact Hf|]. by intros s [_ ?].
Qed.

Lemma mir_plain p c m x : applyReplicatePayload p = returns c -> does now m c x -> mirrors p m (snd x).
Proof. intros He Hc. exists (fst x). rewrite He. by apply (d_then m c Ret). Qed.

Lemma mir_drop {A} p (c : M (res A)) m x :
  applyReplicatePayload p = returns (dropResult c) -> does now m c x -> mirrors p m (snd x).
Proof. intros He Hc. exact (mir_plain p _ m (_, snd x) He (d_then m c _ x Hc)). Qed.

Lemma d_Now {B} m (f : Time -> M B) x : does now m (f now) x -> does now m (Now ≫= f) x.
Proof.
  intros Hf. eapply t_bind; [apply t_now|]. intros t. cbv beta. apply (t_pure now (t = now)); [by intros s _ [_ ?]|].
  intros ->. eapply t_pre; [exact Hf|]. by intros s [? _].
Qed.

(** ** The operations *)

Definition replicaExpiry (ttlms : Z) : Time :=
  if ttlms >? 0 then Add now (DurationMul ttlms Millisecond) else noTTL.

Lemma mir_SET k v ttl m :
  mirrors (pValue "SET" k v ttl) m (put now k (VString (cloneBytes v), replicaExpiry ttl) m).
Proof.
  eapply (mir_plain _ _ m (None, _)); [reflexivity|]. cbn [p_TTLms pValue p_Value p_Key]. unfold replicaExpiry.
  destruct (ttl >? 0).
  - eapply (d_after _ (Add now (DurationMul ttl Millisecond)) m m); [|apply d_Set]. apply d_Now. by apply d_ret.
  - eapply (d_after _ noTTL m m); [|apply d_Set]. by apply d_ret.
Qed.

Lemma d_Del m ks :
  does now m (Del ks) (let m1 := filter (fun kb => kb.1 ∉ ks) m in (Z.of_nat (size m) - Z.of_nat (size m1), m1)).
Proof. exact (d_delLoop now m ks 0). Qed.

Lemma filter_not_one k (m : keyspace) : filter (fun kb => kb.1 ∉ [k]) m = delete k m.
Proof. rewrite filter_notin_cons. apply map_filter_id. intros; set_solver. Qed.

Lemma mir_DEL k m : mirrors (pKey "DEL" k) m (delete k m).
Proof.
  rewrite <- filter_not_one. eapply (mir_plain _ _ m (None, _)); [reflexivity|].
  apply (d_then m (Del [k]) (fun _ => None) (_, filter (fun kb => kb.1 ∉ [k]) m) (d_Del m [k])).
Qed.

Lemma mir_HSET k fs m : fs <> ∅ ->
  mirrors (pFields "HSET" k fs) m (snd (updating (hashAt m k) "hset: " k m ∅ (fun h t =>
    let h' := (cloneBytes <$> fs) ∪ h in inr (Some (VHash h', t), Z.of_nat (size h') - Z.of_nat (size h))))).
Proof.
  intros Hf. pose proof (d_HSet now m k fs) as Hd. rewrite (bool_decide_false (fs = ∅)) in Hd by done.
  eapply mir_drop; [|exact Hd]. unfold applyReplicatePayload. cbn [p_Fields pFields p_Key p_Op].
  by rewrite (bool_decide_false (fs = ∅)).
Qed.

Lemma mir_HDEL k l m :
  mirrors (pMembers "HDEL" k l) m (snd (changing (hashAt m k) "hdel: " k m 0 (fun h =>
    let h' := filter (fun kv => kv.1 ∉ map sbytes l) h in
    (nonEmptyHash h', Z.of_nat (size h) - Z.of_nat (size h'))))).
Proof. eapply mir_drop; [reflexivity|]. apply d_HDel. Qed.

Lemma mir_SADD k l m : l <> [] ->
  mirrors (pMembers "SADD" k l) m (snd (updating (setAt m k) "sadd: " k m ∅ (fun st t =>
    let st' := members l ∪ st in inr (Some (VSet st', t), Z.of_nat (size st') - Z.of_nat (size st))))).
Proof.
  intros Hl. pose proof (d_SAdd now m k l) as Hd. rewrite (bool_decide_false (l = [])) in Hd by done.
  eapply mir_drop; [|exact Hd]. by destruct l.
Qed.

Lemma mir_SREM k l m : l <> [] ->
  mirrors (pMembers "SREM" k l) m (snd (changing (setAt m k) "srem: " k m 0 (fun st =>
    let st' := st ∖ members l in (nonEmptySet st', Z.of_nat (size st) - Z.of_nat (size st'))))).
Proof. intros Hl. eapply mir_drop; [|apply d_SRem]. by destruct l. Qed.

Lemma mir_REPLACESET k l m :
  mirrors (pMembers "REPLACESET" k l) m (<[k := (VSet (members l), ttlOf m k)]> m).
Proof. eapply (mir_plain _ _ m (None, _)); [reflexivity|]. apply d_ReplaceSet. Qed.

Lemma mir_PUSH (left : bool) k l m : l <> [] ->
  mirrors (pMembers (if left then "LPUSH" else "RPUSH") k l) m (snd (push left k l m)).
Proof. intros Hl. eapply mir_drop; [|apply d_listPush]. by destruct left, l. Qed.

Lemma mir_FLUSH op m : op = "FLUSHDB"%string \/ op = "FLUSHALL"%string -> mirrors (pKey op EmptyString) m ∅.
Proof.
  intros [->| ->]; (eapply (mir_plain _ (ignore FlushDB) m (None, ∅)); [reflexivity|]; unfold ignore;
    eapply t_bind; [apply (t_FlushDB now)|]; intros []; apply t_ret; done).
Qed.

Lemma mir_EXPIRE k n m : 0 < n ->
  mirrors (pCnt "EXPIRE" k n None) m (snd (expireAt now k (Add now (DurationMul n Second)) m)).
Proof.
  intros Hn. pose proof (d_Expire now m k n) as Hd. replace (n <=? 0) with false in Hd by (symmetry; apply Z.leb_gt; lia).
  eapply mir_drop; [|exact Hd]. unfold applyReplicatePayload. cbn [p_Cnt pCnt p_Key].
  by replace (n <=? 0) with false by (symmetry; apply Z.leb_gt; lia).
Qed.

Lemma mir_PEXPIRE k n m : 0 < n ->
  mirrors (pCnt "PEXPIRE" k n None) m (snd (expireAt now k (Add now (DurationMul n Millisecond)) m)).
Proof.
  intros Hn. eapply (mir_plain _ _ m (_, _)).
  - unfold applyReplicatePayload. cbn [p_Cnt pCnt p_Key].
    replace (n <=? 0) with false by (symmetry; apply Z.leb_gt; lia). reflexivity.
  - apply d_Now. apply (d_then m (ExpireAt k _)), d_ExpireAt.
Qed.

Lemma mir_EXPIREAT k n m : mirrors (pCnt "EXPIREAT" k n None) m (snd (expireAt now k (Unix n 0) m)).
Proof. eapply mir_drop; [reflexivity|]. apply d_ExpireAt. Qed.

Lemma mir_PEXPIREAT k n m : mirrors (pValue "PEXPIREAT" k None n) m (snd (expireAt now k (UnixMilli n) m)).
Proof. eapply mir_drop; [reflexivity|]. apply d_ExpireAt. Qed.

Lemma mir_PERSIST k m :
  mirrors (pKey "PERSIST" k) m (snd (match m !! k with
    | Some (v, t) => if IsZero t then (inr false : res bool, m) else (inr true, <[k := (v, noTTL)]> m)
    | None => (inr false, m) end)).
Proof. eapply mir_drop; [reflexivity|]. apply d_Persist. Qed.

Lemma mir_RENAME a b m :
  mirrors (pDest "RENAME" a b) m (snd (if (a =? b)%string then (None, m)
    else match m !! a with
         | None => (Some (wrapErr "no such key: " (New "not found")), m)
         | Some x => (None, moved a b x m)
         end)).
Proof. eapply mir_plain; [reflexivity|]. apply d_Rename. Qed.

Lemma d_popResult {A} m (c : M (outcome (res A))) r m' :
  does now m c (Ret r, m') ->
  does now m (popResult c) (Ret (match r with inl err => Some err | inr _ => None end), m').
Proof.
  intros Hd. apply (d_then m c (fun r => match r with
    | Panic => Panic | Ret (inl err) => Ret (Some err) | Ret (inr _) => Ret None end)) in Hd.
  by destruct r.
Qed.

Lemma mir_POP (left : bool) k n m r m' : 1 <= n ->
  popFrom left (if left then "lpop: " else "rpop: ") k n m = (Ret r, m') ->
  mirrors (pCnt (if left then "LPOP" else "RPOP") k n None) m m'.
Proof.
  intros Hn Hp. assert (forall left : bool, popFrom left (if left then "lpop: " else "rpop: ") k n m = (Ret r, m') ->
    does now m (popResult (popWith (if left then "lpop: " else "rpop: ") (if left then popLoop else popBack) k n))
      (Ret (match r with inl err => Some err | inr _ => None end), m')) as Hd.
  { intros b Hb. apply d_popResult. rewrite <- Hb. apply d_popWith. }
  eexists. unfold applyReplicatePayload. cbn [p_Cnt pCnt p_Key].
  replace (n <? 1) with false by (symmetry; apply Z.ltb_ge; lia). destruct left; [apply (Hd true Hp)|apply (Hd false Hp)].
Qed.

Lemma mir_LREM k n v m :
  mirrors (pCnt "LREM" k n v) m (snd (changing (listAt m k) "lrem: " k m 0 (fun l =>
    let l' := removed n v l in
    (if bool_decide (l = []) then Some (VList l) else nonEmptyList l', listLen l - listLen l')))).
Proof. eapply mir_drop; [reflexivity|]. apply d_LRem. Qed.

Lemma mir_LSET k i v m : mirrors (pCnt "LSET" k i v) m (snd (setElem k i v m)).
Proof. eapply mir_plain; [reflexivity|]. apply d_LSet. Qed.

Lemma mir_LTRIM k a b m : is_int64 a = true -> is_int64 b = true ->
  mirrors (pMembers "LTRIM" k [Some (FormatInt a); Some (FormatInt b)]) m (snd (trim k a b m)).
Proof.
  intros Ha Hb. eapply mir_plain; [reflexivity|]. unfold applyLTrim. cbn [p_Members pMembers List.length Nat.ltb Nat.leb].
  unfold member. cbn. rewrite !ParseInt_FormatInt by done. apply d_LTrim.
Qed.

Lemma mir_LINSERT (before : bool) k p v m :
  mirrors (pMembers (if before then "LINSERT_BEFORE" else "LINSERT_AFTER") k [p; v]) m
    (snd (changing (listAt m k) "linsert: " k m 0 (fun l =>
      match list_find (fun x => bytesEqual x p = true) l with
      | None => (Some (VList l), -1)
      | Some (i, _) => (Some (VList (inserted before i v l)), listLen l + 1)
      end))).
Proof. eapply (mir_drop _ (LInsert k before p v)); [by destruct before|]. apply d_LInsert. Qed.

(** ** A stream of payloads *)

(** The payloads [ps], applied one after the other at [now], take [m] to [m']. *)
Inductive follows : list ReplicatePayload -> keyspace -> keyspace -> Prop :=
  | follows_nil m : follows [] m m
  | follows_cons p ps m m1 m2 : mirrors p m m1 -> follows ps m1 m2 -> follows (p :: ps) m m2.

(** The replica's loop over them. *)
Fixpoint applyAll (ps : list ReplicatePayload) : M (outcome unit) :=
  match ps with
  | [] => mret (Ret tt)
  | p :: ps =>
      r ← applyReplicatePayload p;
      match r with Panic => mret Panic | Ret _ => applyAll ps end
  end.

Lemma applyAll_follows ps m m' : follows ps m m' -> does now m (applyAll ps) (Ret tt, m').
Proof.
  induction 1 as [m|p ps m m1 m2 [r Hp] Hps IH]; [by apply d_ret|]. by eapply d_after.
Qed.
End apply.
