(* ===== verification/CmdBase.v ===== *)
(** * Package [commands], part 1: contexts and helpers (internal/commands/context.go, helpers.go).

    A handler is a program of the monad [H] over the [World]: the store with its environment, the
    session, the bytes written to [ctx.Writer], the payloads handed to [ctx.Peer], the keyspace
    counters, the subscriptions and the configuration.  Contexts are the ones the server builds:
    every field of [CommandContext] is set.  A run-time panic is [Crash]: nothing recovers and the
    process ends.  A goroutine that waits for a lock it holds itself is [Stuck]. *)

From S2P Require Import Prelude GoInt GoStr GoTime GoSort Resp Config StoreBase Eviction StoreString.
From S2P Require Import StoreHash StoreList StoreSet StoreKeys Session Repl.

(** The 64-bit floats of the hardware and of [strconv]: zero, addition, [ParseFloat(s, 64)] and
    [FormatFloat(f, 'f', -1, 64)], which prints at least one digit or a word. *)
Class Floats := {
  F : Type; fzero : F; fadd : F -> F -> F;
  ParseFloat : string -> res F; FormatFloat : F -> string;
  FormatFloat_nonempty : forall f, FormatFloat f <> EmptyString }.

(** ** The world of a handler *)

(** What [InfoProvider] reports besides the keyspace counters, and what INFO asks the operating
    system. *)
Record InfoProvider := mkInfo {
  TCPPort : Z; UptimeSeconds : Z; ConnectedClients : Z; TotalConnections : Z; TotalCommands : Z;
  OpsPerSec : Z; ConnectedPeers : Z; PeerAddresses : list string; InfoNodeID : string; BootstrapState : string;
  ReplicationDropped : Z; ReplicationSendErrors : Z; ReplicationMissedEvents : Z;
  ServerVersion : string; GOOS : string; GOARCH : string; Getpid : Z; Executable : string }.

Record World := mkWorld {
  w_st : St; w_sess : Session; w_out : string; w_repl : list ReplicatePayload;
  w_hits : Z; w_misses : Z; w_subs : SubscriptionManager; w_pushed : list (Z * Value);
  w_cfg : Config; w_info : InfoProvider }.

Definition setSt (st : St) (w : World) : World :=
  mkWorld st (w_sess w) (w_out w) (w_repl w) (w_hits w) (w_misses w) (w_subs w) (w_pushed w)
    (w_cfg w) (w_info w).
Definition setSess (s : Session) (w : World) : World :=
  mkWorld (w_st w) s (w_out w) (w_repl w) (w_hits w) (w_misses w) (w_subs w) (w_pushed w)
    (w_cfg w) (w_info w).
Definition setOut (o : string) (w : World) : World :=
  mkWorld (w_st w) (w_sess w) o (w_repl w) (w_hits w) (w_misses w) (w_subs w) (w_pushed w)
    (w_cfg w) (w_info w).
Definition addRepl (p : ReplicatePayload) (w : World) : World :=
  mkWorld (w_st w) (w_sess w) (w_out w) (w_repl w ++ [p]) (w_hits w) (w_misses w) (w_subs w)
    (w_pushed w) (w_cfg w) (w_info w).
Definition addHits (h m : Z) (w : World) : World :=
  mkWorld (w_st w) (w_sess w) (w_out w) (w_repl w) (w_hits w + h) (w_misses w + m) (w_subs w)
    (w_pushed w) (w_cfg w) (w_info w).
Definition setManager (m : SubscriptionManager) (w : World) : World :=
  mkWorld (w_st w) (w_sess w) (w_out w) (w_repl w) (w_hits w) (w_misses w) m (w_pushed w)
    (w_cfg w) (w_info w).
Definition addPushed (l : list (Z * Value)) (w : World) : World :=
  mkWorld (w_st w) (w_sess w) (w_out w) (w_repl w) (w_hits w) (w_misses w) (w_subs w)
    (w_pushed w ++ l) (w_cfg w) (w_info w).
Definition setCfg (c : Config) (w : World) : World :=
  mkWorld (w_st w) (w_sess w) (w_out w) (w_repl w) (w_hits w) (w_misses w) (w_subs w)
    (w_pushed w) c (w_info w).

Definition setInfo (i : InfoProvider) (w : World) : World :=
  mkWorld (w_st w) (w_sess w) (w_out w) (w_repl w) (w_hits w) (w_misses w) (w_subs w)
    (w_pushed w) (w_cfg w) i.

(** ** The monad of handlers *)

Inductive flow (A : Type) := Val (a : A) | Crash | Stuck.
Arguments Val {A} a.
Arguments Crash {A}.
Arguments Stuck {A}.

Definition H (A : Type) : Type := World -> flow A * World.

#[global] Instance H_ret : MRet H := fun A a w => (Val a, w).
#[global] Instance H_bind : MBind H := fun A B f m w =>
  match m w with
  | (Val a, w) => f a w
  | (Crash, w) => (Crash, w)
  | (Stuck, w) => (Stuck, w)
  end.

Definition getw {A} (f : World -> A) : H A := fun w => (Val (f w), w).
Definition modw (f : World -> World) : H unit := fun w => (Val tt, f w).
Definition crash {A} : H A := fun w => (Crash, w).
Definition stuck {A} : H A := fun w => (Stuck, w).

(** Code of the handler that reads the clock or iterates over a map of its own. *)
Definition pureM {A} (m : M A) : H A := fun w => let '(a, st) := m (w_st w) in (Val a, setSt st w).

(** A call of the store: other goroutines may run before it takes its locks. *)
Definition call {A} (m : M A) : H A := pureM (_ ← yield; m).

Definition callOut {A} (m : M (outcome A)) : H A :=
  r ← call m; match r with Ret a => mret a | Panic => crash end.

Definition onSession (f : Session -> Session) : H unit := modw (fun w => setSess (f (w_sess w)) w).

(** ** Writers *)

(** One method of [resp.Writer] and [Flush]; [prefix] is the text of the wrapping error. *)
Definition emit (prefix : string) (f : string -> Written) : H (option error) := fun w =>
  let '(o, e) := f (w_out w) in (Val (wrapErr prefix <$> e), setOut o w).

Definition writeErr (msg : string) : H (option error) :=
  emit "write error: " (fun w => WriteError w msg).
Definition writeSimple (s : string) : H (option error) :=
  emit "write simple: " (fun w => WriteSimpleString w s).
Definition writeOK : H (option error) := writeSimple "OK".
Definition writeBulkNil : H (option error) := emit "write null bulk: " WriteNullBulkString.
Definition writeBulk (b : slice) : H (option error) :=
  match b with
  | None => writeBulkNil
  | Some _ => emit "write bulk: " (fun w => WriteBulkString w b)
  end.
Definition writeInt (n : Z) : H (option error) := emit "write int: " (fun w => WriteInteger w n).
Definition writeArr (prefix : string) (l : list Value) : H (option error) :=
  emit prefix (fun w => WriteArray w l).

Definition fail (prefix : string) (err : error) : H (option error) :=
  mret (Some (wrapErr prefix err)).

(** ** Error texts *)

Definition errWrongType : string :=
  "WRONGTYPE Operation against a key holding the wrong kind of value".
Definition errNotInt : string := "ERR value is not an integer or out of range".
Definition errIncrOverflow : string := "ERR increment or decrement would overflow".
Definition errNoSuchKey : string := "ERR no such key".
Definition errDBRange : string := "ERR DB index is out of range".
Definition errOOM : string := "OOM command not allowed when used memory > 'maxmemory'".
Definition errWrongPass : string := "WRONGPASS invalid username-password pair or user is disabled".
Definition errAuthNoPass : string :=
  "ERR Client sent AUTH, but no password is set. Did you mean ACL SETUSER with >password?".
Definition errNoAuth : string := "NOAUTH Authentication required".
Definition errExecNoMulti : string := "ERR EXEC without MULTI".
Definition errMultiNested : string := "ERR MULTI calls can not be nested".
Definition errDiscardNoMulti : string := "ERR DISCARD without MULTI".
Definition errSyntax : string := "ERR syntax error".

Definition argErr (cmd : string) : string :=
  "ERR wrong number of arguments for '" +++ ToLower cmd +++ "' command".
Definition invalidExpireErr (cmd : string) : string :=
  "ERR invalid expire time in '" +++ ToLower cmd +++ "' command".

Definition wrongArgs (cmd : string) : H (option error) := writeErr (argErr cmd).

Definition isWrongType (err : error) : bool := Is err ErrWrongType.

(** [if isWrongType(err) { return writeErr(errWrongType) }; return fmt.Errorf(prefix + "%w", err)]. *)
Definition failType (prefix : string) (err : error) : H (option error) :=
  if isWrongType err then writeErr errWrongType else fail prefix err.
(** The same for [store.ErrOOM], and for both tests in turn. *)
Definition failOOM (prefix : string) (err : error) : H (option error) :=
  if Is err ErrOOM then writeErr errOOM else fail prefix err.
Definition failTypeOOM (prefix : string) (err : error) : H (option error) :=
  if isWrongType err then writeErr errWrongType else failOOM prefix err.

(** ** Arguments *)

(** [ctx.Args[i]] for an index the length test has admitted. *)
Definition arg (args : list slice) (i : nat) : slice := default None (args !! i).
Definition argStr (args : list slice) (i : nat) : string := sbytes (arg args i).

(** [bytesToStr] is [sbytes]: both the nil slice and the empty one give the empty string. *)
Definition ParseIntArg (b : slice) : numErr + Z := ParseInt (sbytes b).
Definition ParseUintArg (b : slice) : numErr + Z := ParseUint (sbytes b).

Definition cmdName (args : list slice) : string :=
  match args with [] => EmptyString | a :: _ => ToUpper (sbytes a) end.

Definition argsNe (args : list slice) (n : nat) : bool := negb (List.length args =? n)%nat.
Definition argsLt (args : list slice) (n : nat) : bool := (List.length args <? n)%nat.

(** [keys[i-1] = bytesToStr(ctx.Args[i])]. *)
Definition strsFrom (n : nat) (args : list slice) : list string := map sbytes (drop n args).

Definition ValueToArg (el : Value) : res slice :=
  if Ascii.eqb (vType el) "$" then inr (if vIsNull el then None else Some (vStr el))
  else if Ascii.eqb (vType el) "+" || Ascii.eqb (vType el) "-" then inr (Some (vStr el))
  else if Ascii.eqb (vType el) ":" then inr (Some (FormatInt (vInteger el)))
  else inl (New "unsupported nested type in command array").

Fixpoint valuesToArgs (l : list Value) : res (list slice) :=
  match l with
  | [] => inr []
  | el :: l => rbind (ValueToArg el) (fun a => rbind (valuesToArgs l) (fun r => inr (a :: r)))
  end.

Definition ValueToArgs (v : Value) : res (list slice) :=
  if negb (Ascii.eqb (vType v) "*") || vIsNull v then inl (New "expected array")
  else valuesToArgs (vArray v).

(** ** Keyspace statistics *)

Definition keyspaceHit (n : Z) : H unit := if n <=? 0 then mret tt else modw (addHits n 0).
Definition keyspaceMiss (n : Z) : H unit := if n <=? 0 then mret tt else modw (addHits 0 n).

(** ** Replication *)

(** [_ = rep.Replicate(p)]. *)
Definition Replicate (p : ReplicatePayload) : H unit := modw (addRepl p).

Definition ReplicateListPush (key : string) (left : bool) (vals : list slice) : H unit :=
  Replicate (pMembers (if left then "LPUSH" else "RPUSH") key (map cloneBytes vals)).
Definition ReplicateHDel (key : string) (fields : list string) : H unit :=
  Replicate (pMembers "HDEL" key (map Some fields)).
Definition ReplicateSAdd (key : string) (members : list slice) : H unit :=
  Replicate (pMembers "SADD" key (map cloneBytes members)).
Definition ReplicateSRem (key : string) (members : list slice) : H unit :=
  Replicate (pMembers "SREM" key (map cloneBytes members)).

(** [time.Until(at).Milliseconds()], not below 0. *)
Definition untilMs (at_ : Time) : H Z :=
  now ← pureM Now; mret (Z.max 0 (Milliseconds (Sub at_ now))).

Definition ReplicateSet (key : string) (val : slice) (at_ : Time) : H unit :=
  ttlms ← (if IsZero at_ then mret 0 else untilMs at_);
  Replicate (pValue "SET" key val ttlms).
Definition ReplicateDel (key : string) : H unit := Replicate (pKey "DEL" key).
Definition ReplicateHash (key : string) (fields : gmap string slice) : H unit :=
  Replicate (pFields "HSET" key (cloneBytes <$> fields)).
Definition ReplicateExpire (key : string) (sec : Z) : H unit := Replicate (pCnt "EXPIRE" key sec None).
Definition ReplicateExpireAtUnix (key : string) (unixSec : Z) : H unit :=
  Replicate (pCnt "EXPIREAT" key unixSec None).
Definition ReplicatePExpire (key : string) (ms : Z) : H unit := Replicate (pCnt "PEXPIRE" key ms None).
Definition ReplicatePExpireAtUnixMs (key : string) (unixMs : Z) : H unit :=
  Replicate (pValue "PEXPIREAT" key None unixMs).
Definition ReplicatePersist (key : string) : H unit := Replicate (pKey "PERSIST" key).
Definition ReplicateRename (src dst : string) : H unit := Replicate (pDest "RENAME" src dst).
Definition ReplicateLPop (key : string) (n : Z) : H unit :=
  if n <? 1 then mret tt else Replicate (pCnt "LPOP" key n None).
Definition ReplicateRPop (key : string) (n : Z) : H unit :=
  if n <? 1 then mret tt else Replicate (pCnt "RPOP" key n None).
Definition ReplicateLRem (key : string) (count : Z) (elem : slice) : H unit :=
  Replicate (pCnt "LREM" key count (cloneBytes elem)).
Definition ReplicateLSet (key : string) (index : Z) (val : slice) : H unit :=
  Replicate (pCnt "LSET" key index (cloneBytes val)).
Definition ReplicateReplaceSet (key : string) (members : list slice) : H unit :=
  Replicate (pMembers "REPLACESET" key (map cloneBytes members)).
Definition ReplicateLTrim (key : string) (start stop : Z) : H unit :=
  Replicate (pMembers "LTRIM" key [Some (FormatInt start); Some (FormatInt stop)]).
Definition ReplicateLInsert (key : string) (before : bool) (pivot insert : slice) : H unit :=
  Replicate (pMembers (if before then "LINSERT_BEFORE" else "LINSERT_AFTER") key
    [cloneBytes pivot; cloneBytes insert]).

(** ** Registry entries *)

Definition FlagRead : Z := 1.
Definition FlagWrite : Z := 2.
Definition FlagAdmin : Z := 4.
Definition FlagDangerous : Z := 8.

(** A handler; [ctx.Args] is its argument. *)
Definition CmdFunc : Type := list slice -> H (option error).

(** The fields of [CommandMeta] besides the handler. *)
Record CommandInfo := mkCmdInfo {
  c_Name : string; c_Arity : Z; c_Flags : Z; c_FirstKey : Z; c_LastKey : Z; c_Step : Z }.

Record CommandMeta := mkMeta { c_info : CommandInfo; c_Handler : CmdFunc }.

(** [reg(name, arity, flags, h)]. *)
Definition reg (name : string) (arity flags : Z) (h : CmdFunc) : CommandMeta :=
  mkMeta (mkCmdInfo name arity flags 0 0 0) h.

Definition CheckArity (meta : CommandInfo) (args : list slice) : option error :=
  let n := Z.of_nat (List.length args) in
  if c_Arity meta >=? 0 then
    if negb (n =? c_Arity meta) then Some (New (argErr (cmdName args))) else None
  else if n <? - c_Arity meta then Some (New (argErr (cmdName args))) else None.
