(* ===== verification/CmdString.v ===== *)
(** * Package [commands], part 2: strings (internal/commands/strings.go). *)

From S2P Require Import Prelude GoInt GoStr GoTime GoSort Resp Config StoreBase Eviction StoreString.
From S2P Require Import StoreHash StoreList StoreSet StoreKeys Session Repl CmdBase.

(** The reply to a read of a string: nil and a miss, or the value and a hit. *)
Definition replyValue (v : slice) : H (option error) :=
  match v with
  | None => _ ← keyspaceMiss 1; writeBulkNil
  | Some _ => _ ← keyspaceHit 1; writeBulk v
  end.

Definition cmdGet (args : list slice) : H (option error) :=
  if argsNe args 2 then wrongArgs "GET"
  else
    r ← call (Get (argStr args 1));
    match r with
    | inl err => failType "get: " err
    | inr v => replyValue v
    end.

(** ** SET *)

Record setOpts := mkSetOpts {
  o_nx : bool; o_xx : bool; o_get : bool; o_keepttl : bool; o_exMs : Z; o_at : option Time }.

(** The option loop of [cmdSet]: an error text, or the options. *)
Fixpoint parseSetOpts (args : list slice) (o : setOpts) {struct args} : string + setOpts :=
  match args with
  | [] => inr o
  | a :: rest =>
      let opt := ToUpper (sbytes a) in
      let timed (k : Z -> string + setOpts) (positive : bool) :=
        match rest with
        | [] => inl (argErr "SET")
        | b :: _ =>
            match ParseIntArg b with
            | inl _ => inl (invalidExpireErr "SET")
            | inr n => if positive && (n <=? 0) then inl (invalidExpireErr "SET") else k n
            end
        end in
      let rest2 := match rest with [] => rest | _ :: r => r end in
      let '(mkSetOpts nx xx get keep ex at_) := o in
      if (opt =? "NX")%string then parseSetOpts rest (mkSetOpts true xx get keep ex at_)
      else if (opt =? "XX")%string then parseSetOpts rest (mkSetOpts nx true get keep ex at_)
      else if (opt =? "GET")%string then parseSetOpts rest (mkSetOpts nx xx true keep ex at_)
      else if (opt =? "KEEPTTL")%string then parseSetOpts rest (mkSetOpts nx xx get true ex at_)
      else if (opt =? "EX")%string then
        timed (fun sec => parseSetOpts rest2 (mkSetOpts nx xx get keep (wrap64 (sec * 1000)) at_)) true
      else if (opt =? "PX")%string then
        timed (fun ms => parseSetOpts rest2 (mkSetOpts nx xx get keep ms at_)) true
      else if (opt =? "EXAT")%string then
        timed (fun ts => parseSetOpts rest2 (mkSetOpts nx xx get keep ex (Some (Unix ts 0)))) false
      else if (opt =? "PXAT")%string then
        timed (fun ms => parseSetOpts rest2 (mkSetOpts nx xx get keep ex (Some (UnixMilli ms)))) false
      else inl (argErr "SET")
  end.

(** [time.Now().Add(time.Duration(n) * unit)]. *)
Definition fromNow (n unit : Z) : H Time := now ← pureM Now; mret (Add now (DurationMul n unit)).

Definition setExpiry (key : string) (o : setOpts) : H Time :=
  exp ← match o_at o with
        | Some at_ => mret at_
        | None => if o_exMs o >=? 0 then fromNow (o_exMs o) Millisecond else mret noTTL
        end;
  if o_keepttl o then
    ms ← call (TTLMs key);
    if ms >? 0 then fromNow ms Millisecond else mret exp
  else mret exp.

Section ordered.
Context `{MapOrder}.

(** [applySet]; the [ttlms] it computes is not used, but it reads the clock. *)
Definition applySet (key : string) (val : slice) (exp : Time) (nx xx : bool) : H (res bool) :=
  r ← (if nx && negb xx then call (SetNX key val exp)
       else if xx && negb nx then call (SetXX key val exp)
       else e ← call (Set_ key val exp); mret (match e with Some e => inl e | None => inr true end));
  match r with
  | inl err => mret (inl err)
  | inr false => mret (inr false)
  | inr true =>
      _ ← (if IsZero exp then mret 0 else untilMs exp);
      _ ← ReplicateSet key val exp;
      mret (inr true)
  end.

Definition cmdSet (args : list slice) : H (option error) :=
  if argsLt args 3 then wrongArgs "SET"
  else
    let key := argStr args 1 in
    let val := arg args 2 in
    match parseSetOpts (drop 3 args) (mkSetOpts false false false false (-1) None) with
    | inl msg => writeErr msg
    | inr o =>
        exp ← setExpiry key o;
        if o_nx o && o_xx o then writeErr errSyntax
        else if o_get o then
          r ← call (Get key);
          match r with
          | inl err => if isWrongType err then writeErr errWrongType else fail "get in set: " err
          | inr prev =>
              r ← applySet key val exp (o_nx o) (o_xx o);
              match r with
              | inl err => fail "set: " err
              | inr false => writeBulkNil
              | inr true => match prev with None => writeBulkNil | Some _ => writeBulk prev end
              end
          end
        else
          r ← applySet key val exp (o_nx o) (o_xx o);
          match r with
          | inl err => failOOM "set: " err
          | inr false => writeBulkNil
          | inr true => writeOK
          end
    end.

Definition cmdSetNX (args : list slice) : H (option error) :=
  if argsNe args 3 then wrongArgs "SETNX"
  else
    let key := argStr args 1 in
    r ← call (SetNX key (arg args 2) noTTL);
    match r with
    | inl err => failOOM "setnx: " err
    | inr true => _ ← ReplicateSet key (arg args 2) noTTL; writeInt 1
    | inr false => writeInt 0
    end.

(** [cmdSetEX] and [cmdPSetEX], which differ in the unit. *)
Definition setWithTTL (name prefix : string) (unit : Z) (args : list slice) : H (option error) :=
  if argsNe args 4 then wrongArgs name
  else match ParseIntArg (arg args 2) with
       | inl _ => writeErr (invalidExpireErr name)
       | inr n =>
           if n <=? 0 then writeErr (invalidExpireErr name)
           else
             let key := argStr args 1 in
             exp ← fromNow n unit;
             r ← call (Set_ key (arg args 3) exp);
             match r with
             | Some err => failOOM prefix err
             | None => _ ← ReplicateSet key (arg args 3) exp; writeOK
             end
       end.

Definition cmdSetEX : CmdFunc := setWithTTL "SETEX" "setex: " Second.
Definition cmdPSetEX : CmdFunc := setWithTTL "PSETEX" "psetex: " Millisecond.

Definition cmdGetSet (args : list slice) : H (option error) :=
  if argsNe args 3 then wrongArgs "GETSET"
  else
    let key := argStr args 1 in
    r ← call (GetSet key (arg args 2) noTTL);
    match r with
    | inl err => failType "getset: " err
    | inr (prev, false) => writeBulkNil
    | inr (prev, true) =>
        _ ← ReplicateSet key (arg args 2) noTTL;
        match prev with None => writeBulkNil | Some _ => writeBulk prev end
    end.

Definition cmdGetDel (args : list slice) : H (option error) :=
  if argsNe args 2 then wrongArgs "GETDEL"
  else
    let key := argStr args 1 in
    r ← call (Get key);
    match r with
    | inl err => failType "getdel: " err
    | inr None => writeBulkNil
    | inr prev =>
        _ ← call (Del [key]);
        _ ← ReplicateDel key;
        writeBulk prev
    end.

(** ** GETEX *)

(** The option loop: the reply that ends the command early, or the expiry to set. *)
Fixpoint getExOpts (key : string) (opts : list slice) (exp : option Time)
    : H (option error + option Time) :=
  match opts with
  | [] => mret (inr exp)
  | a :: rest =>
      let op := ToUpper (sbytes a) in
      let rest2 := match rest with [] => rest | _ :: r => r end in
      let early (m : H (option error)) : H (option error + option Time) := r ← m; mret (inl r) in
      let timed (k : Z -> H Time) (positive : bool) :=
        match rest with
        | [] => early (wrongArgs "GETEX")
        | b :: _ =>
            match ParseIntArg b with
            | inl _ => early (writeErr (invalidExpireErr "GETEX"))
            | inr n =>
                if positive && (n <=? 0) then early (writeErr (invalidExpireErr "GETEX"))
                else at_ ← k n; getExOpts key rest2 (Some at_)
            end
        end in
      if (op =? "EX")%string then timed (fun sec => fromNow sec Second) true
      else if (op =? "PX")%string then timed (fun ms => fromNow ms Millisecond) true
      else if (op =? "EXAT")%string then timed (fun ts => mret (Unix ts 0)) false
      else if (op =? "PXAT")%string then timed (fun ms => mret (UnixMilli ms)) false
      else if (op =? "PERSIST")%string then
        r ← call (Persist key);
        match r with
        | inl err => mret (inl (Some (wrapErr "getex persist: " err)))
        | inr _ => _ ← ReplicatePersist key; getExOpts key rest exp
        end
      else early (wrongArgs "GETEX")
  end.

Definition cmdGetEx (args : list slice) : H (option error) :=
  if argsLt args 2 then wrongArgs "GETEX"
  else
    let key := argStr args 1 in
    r ← getExOpts key (drop 2 args) None;
    match r with
    | inl e => mret e
    | inr exp =>
        r ← call (Get key);
        match r with
        | inl err => failType "getex: " err
        | inr None => _ ← keyspaceMiss 1; writeBulkNil
        | inr v =>
            _ ← keyspaceHit 1;
            _ ← match exp with
                | None => mret tt
                | Some at_ =>
                    _ ← call (ExpireAt key at_);
                    ReplicatePExpireAtUnixMs key (ToUnixMilli at_)
                end;
            writeBulk v
        end
    end.

(** ** Several keys *)

(** The hit and miss counters of a list of values. *)
Fixpoint countHits (vals : list slice) : H unit :=
  match vals with
  | [] => mret tt
  | v :: vals =>
      _ ← match v with None => keyspaceMiss 1 | Some _ => keyspaceHit 1 end; countHits vals
  end.

Definition bulkOrNull (v : slice) : Value :=
  match v with None => vNullBulk | Some s => vBulk s end.

Definition cmdMGet (args : list slice) : H (option error) :=
  if argsLt args 2 then wrongArgs "MGET"
  else
    r ← call (MGet (strsFrom 1 args));
    match r with
    | inl err => fail "mget: " err
    | inr vals => _ ← countHits vals; writeArr "mget write: " (map bulkOrNull vals)
    end.

(** The loop that fills [pairs]: a later value of the same key wins. *)
Fixpoint pairsOf (args : list slice) (m : gmap string slice) : gmap string slice :=
  match args with
  | k :: v :: rest => pairsOf rest (<[sbytes k := cloneBytes v]> m)
  | _ => m
  end.

(** [len(ctx.Args) < n || (len(ctx.Args)-k)%2 != 0]. *)
Definition oddPairs (args : list slice) (n k : nat) : bool :=
  argsLt args n || negb (Nat.even (List.length args - k)).

Fixpoint replicateSets (kvs : list (string * slice)) : H unit :=
  match kvs with
  | [] => mret tt
  | (k, v) :: kvs => _ ← ReplicateSet k v noTTL; replicateSets kvs
  end.

Definition cmdMSet (args : list slice) : H (option error) :=
  if oddPairs args 3 1 then wrongArgs "MSET"
  else
    let pairs := pairsOf (drop 1 args) ∅ in
    r ← call (MSet pairs);
    match r with
    | Some err => failOOM "mset: " err
    | None => kvs ← pureM (ranged (map_to_list pairs)); _ ← replicateSets kvs; writeOK
    end.

Definition cmdMSetNX (args : list slice) : H (option error) :=
  if oddPairs args 3 1 then wrongArgs "MSETNX"
  else
    let pairs := pairsOf (drop 1 args) ∅ in
    r ← call (MSetNX pairs);
    match r with
    | inl err => failOOM "msetnx: " err
    | inr true => kvs ← pureM (ranged (map_to_list pairs)); _ ← replicateSets kvs; writeInt 1
    | inr false => writeInt 0
    end.

(** The keys that exist, each tested on its own. *)
Fixpoint existingKeys (keys : list string) (acc : gset string) : H (gset string) :=
  match keys with
  | [] => mret acc
  | k :: keys =>
      n ← call (Exists [k]);
      existingKeys keys (if n >? 0 then {[ k ]} ∪ acc else acc)
  end.

Fixpoint replicateDels (ks : list string) : H unit :=
  match ks with
  | [] => mret tt
  | k :: ks => _ ← ReplicateDel k; replicateDels ks
  end.

Definition cmdDel (args : list slice) : H (option error) :=
  if argsLt args 2 then wrongArgs "DEL"
  else
    let keys := strsFrom 1 args in
    existing ← existingKeys keys ∅;
    n ← call (Del keys);
    ks ← pureM (ranged (elements existing));
    _ ← replicateDels ks;
    writeInt n.

(** ** Counters *)

(** The error cascade of the increments, which looks for a text in the message. *)
Definition failIncr (prefix : string) (err : error) : H (option error) :=
  if isWrongType err then writeErr errWrongType
  else if contains "overflow" (errText err) then writeErr errIncrOverflow
  else if contains "not an integer" (errText err) then writeErr errNotInt
  else fail prefix err.

Definition replyIncr (prefix key : string) (r : res Z) : H (option error) :=
  match r with
  | inl err => failIncr prefix err
  | inr n => _ ← ReplicateSet key (Some (FormatInt n)) noTTL; writeInt n
  end.

Definition doIncr (delta : Z) (args : list slice) : H (option error) :=
  if argsNe args 2 then wrongArgs (cmdName args)
  else
    let key := argStr args 1 in
    r ← call (IncrBy key delta); replyIncr "incr: " key r.

Definition cmdIncr : CmdFunc := doIncr 1.
Definition cmdDecr : CmdFunc := doIncr (-1).

Definition cmdIncrBy (args : list slice) : H (option error) :=
  if argsNe args 3 then wrongArgs "INCRBY"
  else match ParseIntArg (arg args 2) with
       | inl _ => writeErr errNotInt
       | inr delta =>
           let key := argStr args 1 in
           r ← call (IncrBy key delta); replyIncr "incrby: " key r
       end.

Definition cmdDecrBy (args : list slice) : H (option error) :=
  if argsNe args 3 then wrongArgs "DECRBY"
  else match ParseIntArg (arg args 2) with
       | inl _ => writeErr errNotInt
       | inr delta =>
           let key := argStr args 1 in
           r ← call (DecrBy key delta); replyIncr "decrby: " key r
       end.

Definition cmdIncrByFloat `{Floats} (args : list slice) : H (option error) :=
  if argsNe args 3 then wrongArgs "INCRBYFLOAT"
  else match ParseFloat (argStr args 2) with
       | inl _ => writeErr errNotInt
       | inr delta =>
           let key := argStr args 1 in
           r ← call (Get key);
           match r with
           | inl err => if isWrongType err then writeErr errWrongType else fail "incrbyfloat: " err
           | inr v =>
               match (match v with None => inr fzero | Some s => ParseFloat (TrimSpace s) end) with
               | inl _ => writeErr errNotInt
               | inr f =>
                   let s := Some (FormatFloat (fadd f delta)) in
                   r ← call (Set_ key s noTTL);
                   match r with
                   | Some err => failOOM "incrbyfloat: " err
                   | None => _ ← ReplicateSet key s noTTL; writeBulk s
                   end
               end
           end
       end.

(** ** Parts of a string *)

Definition cmdAppend (args : list slice) : H (option error) :=
  if argsNe args 3 then wrongArgs "APPEND"
  else
    let key := argStr args 1 in
    r ← call (Append key (arg args 2));
    match r with
    | inl err => failTypeOOM "append: " err
    | inr n =>
        v ← call (Get key);
        _ ← match v with
            | inr (Some b) => ReplicateSet key (Some b) noTTL
            | _ => mret tt
            end;
        writeInt n
    end.

Definition cmdStrLen (args : list slice) : H (option error) :=
  if argsNe args 2 then wrongArgs "STRLEN"
  else
    r ← call (Get (argStr args 1));
    match r with
    | inl err => failType "strlen: " err
    | inr None => _ ← keyspaceMiss 1; writeInt 0
    | inr (Some s) => _ ← keyspaceHit 1; writeInt (len s)
    end.

Definition normRange (idx n : Z) : Z :=
  let i := if idx <? 0 then n + idx else idx in
  if i <? 0 then 0 else if i >=? n then n - 1 else i.

(** [s[st:en+1]] after the clamping of [cmdGetRange]; empty when [st > en]. *)
Definition subRange (s : string) (start stop : Z) : string :=
  let n := len s in
  let st := normRange start n in
  let en := normRange stop n in
  let st := if st <? 0 then 0 else st in
  let en := if en >=? n then n - 1 else en in
  if st >? en then EmptyString
  else stake (Z.to_nat (en + 1 - st)) (sdrop (Z.to_nat st) s).

Definition cmdGetRange (args : list slice) : H (option error) :=
  if argsNe args 4 then wrongArgs "GETRANGE"
  else match ParseIntArg (arg args 2), ParseIntArg (arg args 3) with
       | inr start, inr stop =>
           r ← call (Get (argStr args 1));
           match r with
           | inl err => failType "getrange: " err
           | inr None => _ ← keyspaceMiss 1; writeBulk (Some EmptyString)
           | inr (Some s) => _ ← keyspaceHit 1; writeBulk (Some (subRange s start stop))
           end
       | _, _ => writeErr errNotInt
       end.

Fixpoint zeros (n : nat) : string :=
  match n with O => EmptyString | S n => String (chr 0) (zeros n) end.

(** The bytes [cmdSetRange] stores: [val] copied over [base] at [offset], after padding. *)
Definition overwrite (base : string) (offset : nat) (val : string) : string :=
  let base := base +++ zeros (offset - String.length base) in
  stake offset base +++ val +++ sdrop (offset + String.length val) base.

Definition cmdSetRange (args : list slice) : H (option error) :=
  if argsNe args 4 then wrongArgs "SETRANGE"
  else match ParseIntArg (arg args 2) with
       | inl _ => writeErr errNotInt
       | inr offset =>
           if offset <? 0 then writeErr errNotInt
           else
             let key := argStr args 1 in
             let val := argStr args 3 in
             r ← call (Get key);
             match r with
             | inl err => failType "setrange: " err
             | inr v =>
                 let base := sbytes v in
                 if negb (canMake 1 (Z.max (offset - len base) (offset + len val))) then crash
                 else
                   let base := cloneBytes (Some (overwrite base (Z.to_nat offset) val)) in
                   r ← call (Set_ key base noTTL);
                   match r with
                   | Some err => failOOM "setrange: " err
                   | None => _ ← ReplicateSet key base noTTL; writeInt (slen base)
                   end
             end
       end.

Definition registerStringCommands `{Floats} : list CommandMeta :=
  [ reg "GET" 2 FlagRead cmdGet; reg "SET" 0 FlagWrite cmdSet; reg "SETNX" 3 FlagWrite cmdSetNX;
    reg "SETEX" 4 FlagWrite cmdSetEX; reg "PSETEX" 4 FlagWrite cmdPSetEX;
    reg "GETSET" 3 FlagWrite cmdGetSet; reg "GETDEL" 2 FlagWrite cmdGetDel;
    reg "GETEX" 0 (Z.lor FlagRead FlagWrite) cmdGetEx; reg "MGET" (-2) FlagRead cmdMGet;
    reg "MSET" 0 FlagWrite cmdMSet; reg "MSETNX" 0 FlagWrite cmdMSetNX;
    reg "DEL" (-2) FlagWrite cmdDel; reg "INCR" 2 FlagWrite cmdIncr; reg "DECR" 2 FlagWrite cmdDecr;
    reg "INCRBY" 3 FlagWrite cmdIncrBy; reg "DECRBY" 3 FlagWrite cmdDecrBy;
    reg "INCRBYFLOAT" 3 FlagWrite cmdIncrByFloat; reg "APPEND" 3 FlagWrite cmdAppend;
    reg "STRLEN" 2 FlagRead cmdStrLen; reg "GETRANGE" 4 FlagRead cmdGetRange;
    reg "SETRANGE" 4 FlagWrite cmdSetRange ].

End ordered.
