(* ===== verification/CmdHash.v ===== *)
(** * Package [commands], part 3: hashes (internal/commands/hashes.go). *)

From S2P Require Import Prelude GoInt GoStr GoTime GoSort Resp Config StoreBase Eviction StoreString.
From S2P Require Import StoreHash StoreList StoreSet StoreKeys Session Repl CmdBase CmdString.

Definition writeArrayEmpty : H (option error) := writeArr "write array: " [].

(** A read that finds no value is a hit when the key holds a hash. *)
Definition hitIfHash (key : string) : H unit :=
  t ← call (Type_ key);
  if (t =? "hash")%string then keyspaceHit 1 else keyspaceMiss 1.

Section ordered.
Context `{MapOrder}.

(** [cmdHSet] and [cmdHMSet], which differ in the reply. *)
Definition hsetWith (name prefix : string) (reply : Z -> H (option error)) (args : list slice)
    : H (option error) :=
  if oddPairs args 4 2 then wrongArgs name
  else
    let key := argStr args 1 in
    let pairs := pairsOf (drop 2 args) ∅ in
    r ← call (HSet key pairs);
    match r with
    | inl err => failTypeOOM prefix err
    | inr n => _ ← ReplicateHash key pairs; reply n
    end.

Definition cmdHSet : CmdFunc := hsetWith "HSET" "hset: " writeInt.
Definition cmdHMSet : CmdFunc := hsetWith "HMSET" "hmset: " (fun _ => writeOK).

Definition cmdHGet (args : list slice) : H (option error) :=
  if argsNe args 3 then wrongArgs "HGET"
  else
    let key := argStr args 1 in
    r ← call (HGet key (argStr args 2));
    match r with
    | inl err => failType "hget: " err
    | inr None => _ ← hitIfHash key; writeBulkNil
    | inr v => _ ← keyspaceHit 1; writeBulk v
    end.

(** The loop of [cmdHMGet] over the fields: the error of the first failing read, or the values. *)
Fixpoint hmgetLoop (key : string) (fields : list string) : H (res (list Value)) :=
  match fields with
  | [] => mret (inr [])
  | field :: fields =>
      r ← call (HGet key field);
      match r with
      | inl err => mret (inl err)
      | inr v =>
          rest ← hmgetLoop key fields;
          mret (rbind rest (fun l => inr (bulkOrNull v :: l)))
      end
  end.

Definition cmdHMGet (args : list slice) : H (option error) :=
  if argsLt args 3 then wrongArgs "HMGET"
  else
    let key := argStr args 1 in
    let fields := strsFrom 2 args in
    let nFields := List.length fields in
    kt ← call (Type_ key);
    if negb (kt =? "none")%string && negb (kt =? "hash")%string then writeErr errWrongType
    else if (kt =? "none")%string then
      _ ← keyspaceMiss (Z.of_nat nFields);
      writeArr "hmget write: " (replicate nFields vNullBulk)
    else
      _ ← keyspaceHit (Z.of_nat nFields);
      r ← hmgetLoop key fields;
      match r with
      | inl err => failType "hmget: " err
      | inr arr => writeArr "hmget write: " arr
      end.

(** [cmdHGetAll], [cmdHKeys] and [cmdHVals]: the fields in sorted order, [show] says what of them. *)
Definition hashReply (name prefix wprefix : string) (show : gmap string slice -> string -> list Value)
    (args : list slice) : H (option error) :=
  if argsNe args 2 then wrongArgs name
  else
    r ← call (HGetAll (argStr args 1));
    match r with
    | inl err => failType prefix err
    | inr None => _ ← keyspaceMiss 1; writeArrayEmpty
    | inr (Some m) =>
        _ ← keyspaceHit 1;
        kvs ← pureM (ranged (map_to_list m));
        writeArr wprefix (mjoin (map (show m) (sortStrings (map fst kvs))))
    end.

Definition fieldValue (m : gmap string slice) (k : string) : Value :=
  vBulk (sbytes (default None (m !! k))).

Definition cmdHGetAll : CmdFunc :=
  hashReply "HGETALL" "hgetall: " "hgetall write: " (fun m k => [vBulk k; fieldValue m k]).
Definition cmdHKeys : CmdFunc := hashReply "HKEYS" "hkeys: " "hkeys write: " (fun _ k => [vBulk k]).
Definition cmdHVals : CmdFunc :=
  hashReply "HVALS" "hvals: " "hvals write: " (fun m k => [fieldValue m k]).

Definition cmdHDel (args : list slice) : H (option error) :=
  if argsLt args 3 then wrongArgs "HDEL"
  else
    let key := argStr args 1 in
    let fields := strsFrom 2 args in
    r ← call (HDel key fields);
    match r with
    | inl err => failType "hdel: " err
    | inr n => _ ← (if n >? 0 then ReplicateHDel key fields else mret tt); writeInt n
    end.

Definition cmdHExists (args : list slice) : H (option error) :=
  if argsNe args 3 then wrongArgs "HEXISTS"
  else
    let key := argStr args 1 in
    r ← call (HExists key (argStr args 2));
    match r with
    | inl err => failType "hexists: " err
    | inr true => _ ← keyspaceHit 1; writeInt 1
    | inr false => _ ← hitIfHash key; writeInt 0
    end.

Definition cmdHLen (args : list slice) : H (option error) :=
  if argsNe args 2 then wrongArgs "HLEN"
  else
    let key := argStr args 1 in
    r ← call (HLen key);
    match r with
    | inl err => failType "hlen: " err
    | inr n =>
        t ← call (Type_ key);
        _ ← (if (t =? "none")%string then keyspaceMiss 1 else keyspaceHit 1);
        writeInt n
    end.

Definition cmdHIncrBy (args : list slice) : H (option error) :=
  if argsNe args 4 then wrongArgs "HINCRBY"
  else match ParseIntArg (arg args 3) with
       | inl _ => writeErr errNotInt
       | inr delta =>
           let key := argStr args 1 in
           let field := argStr args 2 in
           r ← call (HIncrBy key field delta);
           match r with
           | inl err =>
               if isWrongType err then writeErr errWrongType
               else if contains "not an integer" (errText err) then writeErr errNotInt
               else if contains "overflow" (errText err) then writeErr errIncrOverflow
               else fail "hincrby: " err
           | inr n => _ ← ReplicateHash key {[ field := Some (FormatInt n) ]}; writeInt n
           end
       end.

Definition cmdHIncrByFloat `{Floats} (args : list slice) : H (option error) :=
  if argsNe args 4 then wrongArgs "HINCRBYFLOAT"
  else match ParseFloat (argStr args 3) with
       | inl _ => writeErr errNotInt
       | inr delta =>
           let key := argStr args 1 in
           let field := argStr args 2 in
           r ← call (HIncrByFloat fzero fadd ParseFloat FormatFloat key field delta);
           match r with
           | inl err =>
               if isWrongType err then writeErr errWrongType
               else if contains "not" (errText err) then writeErr errNotInt
               else fail "hincrbyfloat: " err
           | inr f =>
               let s := Some (FormatFloat f) in
               _ ← ReplicateHash key {[ field := s ]}; writeBulk s
           end
       end.

Definition cmdHSetNX (args : list slice) : H (option error) :=
  if argsNe args 4 then wrongArgs "HSETNX"
  else
    let key := argStr args 1 in
    let field := argStr args 2 in
    let val := arg args 3 in
    r ← call (HSetNX key field val);
    match r with
    | inl err => failTypeOOM "hsetnx: " err
    | inr n =>
        _ ← (if n =? 1 then ReplicateHash key {[ field := cloneBytes val ]} else mret tt);
        writeInt n
    end.

Definition registerHashCommands `{Floats} : list CommandMeta :=
  [ reg "HSET" 0 FlagWrite cmdHSet; reg "HMSET" 0 FlagWrite cmdHMSet;
    reg "HGET" 3 FlagRead cmdHGet; reg "HMGET" (-3) FlagRead cmdHMGet;
    reg "HGETALL" 2 FlagRead cmdHGetAll; reg "HDEL" (-3) FlagWrite cmdHDel;
    reg "HEXISTS" 3 FlagRead cmdHExists; reg "HLEN" 2 FlagRead cmdHLen;
    reg "HKEYS" 2 FlagRead cmdHKeys; reg "HVALS" 2 FlagRead cmdHVals;
    reg "HINCRBY" 4 FlagWrite cmdHIncrBy; reg "HINCRBYFLOAT" 4 FlagWrite cmdHIncrByFloat;
    reg "HSETNX" 4 FlagWrite cmdHSetNX ].

End ordered.
