(* ===== verification/CmdList.v ===== *)
(** * Package [commands], part 4: lists (internal/commands/lists.go). *)

From S2P Require Import Prelude GoInt GoStr GoTime GoSort Resp Config StoreBase Eviction StoreString.
From S2P Require Import StoreHash StoreList StoreSet StoreKeys Session Repl CmdBase.

Definition bulks (l : list slice) : list Value := map (fun b => vBulk (sbytes b)) l.

(** The values of a push: [ctx.Args[2:]], not copied. *)
Definition pushArgs (args : list slice) : list slice := drop 2 args.

Section ordered.
Context `{MapOrder}.

Definition cmdLPush (args : list slice) : H (option error) :=
  if argsLt args 3 then wrongArgs "LPUSH"
  else
    let key := argStr args 1 in
    let vals := pushArgs args in
    r ← call (LPush key vals);
    match r with
    | inl err => failTypeOOM "lpush: " err
    | inr n => _ ← ReplicateListPush key true vals; writeInt n
    end.

Definition cmdRPush (args : list slice) : H (option error) :=
  if argsLt args 3 then wrongArgs "RPUSH"
  else
    let key := argStr args 1 in
    let vals := pushArgs args in
    r ← call (RPush key vals);
    match r with
    | inl err => failTypeOOM "rpush: " err
    | inr n => _ ← ReplicateListPush key false vals; writeInt n
    end.

Definition cmdLPushX (args : list slice) : H (option error) :=
  if argsLt args 3 then wrongArgs "LPUSHX"
  else
    let key := argStr args 1 in
    let vals := pushArgs args in
    r ← call (LPushX key vals);
    match r with
    | inl err => failTypeOOM "lpushx: " err
    | inr n => _ ← (if n >? 0 then ReplicateListPush key true vals else mret tt); writeInt n
    end.

Definition cmdRPushX (args : list slice) : H (option error) :=
  if argsLt args 3 then wrongArgs "RPUSHX"
  else
    let key := argStr args 1 in
    let vals := pushArgs args in
    r ← call (RPushX key vals);
    match r with
    | inl err => failTypeOOM "rpushx: " err
    | inr n => _ ← (if n >? 0 then ReplicateListPush key false vals else mret tt); writeInt n
    end.

(** [cmdLPop] and [cmdRPop]: the store's pop, its replication and the texts. *)
Definition popCmd (name prefix wprefix : string)
    (pop : string -> Z -> M (outcome (res (option (list slice)))))
    (rep : string -> Z -> H unit) (args : list slice) : H (option error) :=
  if argsLt args 2 || negb (argsLt args 4) then wrongArgs name
  else
    let key := argStr args 1 in
    let count : option Z :=
      if argsNe args 3 then Some 1
      else match ParseIntArg (arg args 2) with
           | inl _ => None
           | inr c => if c <=? 0 then None else Some c
           end in
    match count with
    | None => writeErr errNotInt
    | Some count =>
        r ← callOut (pop key count);
        match r with
        | inl err => failType prefix err
        | inr out =>
            let out := default [] out in
            _ ← (if (0 <? List.length out)%nat then rep key (Z.of_nat (List.length out)) else mret tt);
            if argsNe args 3 then
              match out with [] => writeBulkNil | b :: _ => writeBulk b end
            else writeArr wprefix (bulks out)
        end
    end.

Definition cmdLPop : CmdFunc := popCmd "LPOP" "lpop: " "lpop write: " LPop ReplicateLPop.
Definition cmdRPop : CmdFunc := popCmd "RPOP" "rpop: " "rpop write: " RPop ReplicateRPop.

Definition cmdLLen (args : list slice) : H (option error) :=
  if argsNe args 2 then wrongArgs "LLEN"
  else
    r ← call (LLen (argStr args 1));
    match r with
    | inl err => failType "llen: " err
    | inr n => writeInt n
    end.

Definition cmdLIndex (args : list slice) : H (option error) :=
  if argsNe args 3 then wrongArgs "LINDEX"
  else match ParseIntArg (arg args 2) with
       | inl _ => writeErr errNotInt
       | inr idx =>
           r ← call (LIndex (argStr args 1) idx);
           match r with
           | inl err => failType "lindex: " err
           | inr None => writeBulkNil
           | inr v => writeBulk v
           end
       end.

Definition cmdLSet (args : list slice) : H (option error) :=
  if argsNe args 4 then wrongArgs "LSET"
  else match ParseIntArg (arg args 2) with
       | inl _ => writeErr errNotInt
       | inr idx =>
           let key := argStr args 1 in
           r ← call (LSet key idx (arg args 3));
           match r with
           | Some err =>
               if Is err ErrNoSuchKey then writeErr errNoSuchKey
               else if Is err ErrListRange then writeErr "ERR index out of range"
               else failType "lset: " err
           | None => _ ← ReplicateLSet key idx (arg args 3); writeOK
           end
       end.

Definition cmdLRem (args : list slice) : H (option error) :=
  if argsNe args 4 then wrongArgs "LREM"
  else match ParseIntArg (arg args 2) with
       | inl _ => writeErr errNotInt
       | inr count =>
           let key := argStr args 1 in
           r ← call (LRem key count (arg args 3));
           match r with
           | inl err => failType "lrem: " err
           | inr n =>
               _ ← (if n >? 0 then ReplicateLRem key count (arg args 3) else mret tt); writeInt n
           end
       end.

Definition cmdLRange (args : list slice) : H (option error) :=
  if argsNe args 4 then wrongArgs "LRANGE"
  else match ParseIntArg (arg args 2), ParseIntArg (arg args 3) with
       | inr start, inr stop =>
           r ← call (LRange (argStr args 1) start stop);
           match r with
           | inl err => failType "lrange: " err
           | inr out => writeArr "lrange write: " (bulks (default [] out))
           end
       | _, _ => writeErr errNotInt
       end.

Definition cmdLTrim (args : list slice) : H (option error) :=
  if argsNe args 4 then wrongArgs "LTRIM"
  else match ParseIntArg (arg args 2), ParseIntArg (arg args 3) with
       | inr start, inr stop =>
           let key := argStr args 1 in
           r ← call (LTrim key start stop);
           match r with
           | Some err => failType "ltrim: " err
           | None => _ ← ReplicateLTrim key start stop; writeOK
           end
       | _, _ => writeErr errNotInt
       end.

Definition cmdLInsert (args : list slice) : H (option error) :=
  if argsNe args 5 then wrongArgs "LINSERT"
  else
    let where_ := ToUpper (argStr args 2) in
    let go before :=
      let key := argStr args 1 in
      r ← call (LInsert key before (arg args 3) (arg args 4));
      match r with
      | inl err => failType "linsert: " err
      | inr n =>
          if n <? 0 then writeInt (-1)
          else _ ← ReplicateLInsert key before (arg args 3) (arg args 4); writeInt n
      end in
    if (where_ =? "BEFORE")%string then go true
    else if (where_ =? "AFTER")%string then go false
    else writeErr errSyntax.

Definition registerListCommands : list CommandMeta :=
  [ reg "LPUSH" (-3) FlagWrite cmdLPush; reg "RPUSH" (-3) FlagWrite cmdRPush;
    reg "LPUSHX" (-3) FlagWrite cmdLPushX; reg "RPUSHX" (-3) FlagWrite cmdRPushX;
    reg "LPOP" 0 FlagWrite cmdLPop; reg "RPOP" 0 FlagWrite cmdRPop;
    reg "LLEN" 2 FlagRead cmdLLen; reg "LINDEX" 3 FlagRead cmdLIndex;
    reg "LSET" 4 FlagWrite cmdLSet; reg "LREM" 4 FlagWrite cmdLRem;
    reg "LRANGE" 4 FlagRead cmdLRange; reg "LTRIM" 4 FlagWrite cmdLTrim;
    reg "LINSERT" 5 FlagWrite cmdLInsert ].

End ordered.
