(* ===== verification/CmdSet.v ===== *)
(** * Package [commands], part 5: sets (internal/commands/sets.go). *)

From S2P Require Import Prelude GoInt GoStr GoTime GoSort Resp Config StoreBase Eviction StoreString.
From S2P Require Import StoreHash StoreList StoreSet StoreKeys Session Repl CmdBase CmdList.

(** [sort.Slice] by [bytes.Compare], of members made from strings: none is nil. *)
Definition sortMemberBytes (members : list slice) : list slice :=
  map Some (sortStrings (map sbytes members)).

Definition writeMembers (members : list slice) : H (option error) :=
  writeArr "write members: " (bulks members).

Section ordered.
Context `{MapOrder}.

Definition cmdSAdd (args : list slice) : H (option error) :=
  if argsLt args 3 then wrongArgs "SADD"
  else
    let key := argStr args 1 in
    let members := drop 2 args in
    r ← call (SAdd key members);
    match r with
    | inl err => failTypeOOM "sadd: " err
    | inr n => _ ← (if n >? 0 then ReplicateSAdd key members else mret tt); writeInt n
    end.

Definition cmdSRem (args : list slice) : H (option error) :=
  if argsLt args 3 then wrongArgs "SREM"
  else
    let key := argStr args 1 in
    let members := drop 2 args in
    r ← call (SRem key members);
    match r with
    | inl err => failType "srem: " err
    | inr n => _ ← (if n >? 0 then ReplicateSRem key members else mret tt); writeInt n
    end.

Definition cmdSMembers (args : list slice) : H (option error) :=
  if argsNe args 2 then wrongArgs "SMEMBERS"
  else
    r ← call (SMembers (argStr args 1));
    match r with
    | inl err => failType "smembers: " err
    | inr members =>
        writeArr "smembers write: " (bulks (sortMemberBytes (default [] members)))
    end.

Definition cmdSIsMember (args : list slice) : H (option error) :=
  if argsNe args 3 then wrongArgs "SISMEMBER"
  else
    r ← call (SIsMember (argStr args 1) (arg args 2));
    match r with
    | inl err => failType "sismember: " err
    | inr ok => writeInt (if ok : bool then 1 else 0)
    end.

Definition cmdSCard (args : list slice) : H (option error) :=
  if argsNe args 2 then wrongArgs "SCARD"
  else
    r ← call (SCard (argStr args 1));
    match r with
    | inl err => failType "scard: " err
    | inr n => writeInt n
    end.

(** ** Set algebra

    [None] is the nil slice; the results are sorted. *)

Definition membersOf (l : list slice) : gset string := list_to_set (map sbytes l).

(** The members of a set of the handler, in iteration order, then sorted. *)
Definition sortedMembers (st : gset string) : H (list slice) :=
  ms ← pureM (ranged (elements st)); mret (sortMemberBytes (map Some ms)).

Fixpoint unionLoop (keys : list string) (set : gset string) : H (res (gset string)) :=
  match keys with
  | [] => mret (inr set)
  | k :: keys =>
      r ← call (SMembers k);
      match r with
      | inl err => mret (inl err)
      | inr members => unionLoop keys (membersOf (default [] members) ∪ set)
      end
  end.

Definition unionMembers (keys : list string) : H (res (list slice)) :=
  r ← unionLoop keys ∅;
  match r with
  | inl err => mret (inl err)
  | inr set => out ← sortedMembers set; mret (inr out)
  end.

(** The candidates after the other keys; [None] is an early nil result. *)
Fixpoint interLoop (keys : list string) (cand : gset string) : H (res (option (gset string))) :=
  match keys with
  | [] => mret (inr (Some cand))
  | k :: keys =>
      r ← call (SMembers k);
      match r with
      | inl err => mret (inl err)
      | inr None => mret (inr None)
      | inr (Some mems) =>
          let next := membersOf mems ∩ cand in
          if bool_decide (next = ∅) then mret (inr None) else interLoop keys next
      end
  end.

Definition interMembers (keys : list string) : H (res (list slice)) :=
  match keys with
  | [] => mret (inr [])
  | k :: keys =>
      r ← call (SMembers k);
      match r with
      | inl err => mret (inl err)
      | inr None => mret (inr [])
      | inr (Some members) =>
          r ← interLoop keys (membersOf members);
          match r with
          | inl err => mret (inl err)
          | inr None => mret (inr [])
          | inr (Some cand) => out ← sortedMembers cand; mret (inr out)
          end
      end
  end.

Fixpoint diffLoop (keys : list string) (set : gset string) : H (res (gset string)) :=
  match keys with
  | [] => mret (inr set)
  | k :: keys =>
      r ← call (SMembers k);
      match r with
      | inl err => mret (inl err)
      | inr members => diffLoop keys (set ∖ membersOf (default [] members))
      end
  end.

Definition diffMembers (keys : list string) : H (res (list slice)) :=
  match keys with
  | [] => mret (inr [])
  | k :: keys =>
      r ← call (SMembers k);
      match r with
      | inl err => mret (inl err)
      | inr None => mret (inr [])
      | inr (Some first) =>
          r ← diffLoop keys (membersOf first);
          match r with
          | inl err => mret (inl err)
          | inr set => out ← sortedMembers set; mret (inr out)
          end
      end
  end.

(** [cmdSUnion], [cmdSInter] and [cmdSDiff]. *)
Definition algebra (name prefix : string) (f : list string -> H (res (list slice)))
    (args : list slice) : H (option error) :=
  if argsLt args 2 then wrongArgs name
  else
    r ← f (strsFrom 1 args);
    match r with
    | inl err => failType prefix err
    | inr members => writeMembers members
    end.

(** [cmdSUnionStore], [cmdSInterStore] and [cmdSDiffStore]. *)
Definition algebraStore (name prefix : string) (f : list string -> H (res (list slice)))
    (args : list slice) : H (option error) :=
  if argsLt args 3 then wrongArgs name
  else
    let dest := argStr args 1 in
    r ← f (strsFrom 2 args);
    match r with
    | inl err => failType prefix err
    | inr members =>
        r ← call (ReplaceSet dest members);
        match r with
        | Some err => failOOM prefix err
        | None => _ ← ReplicateReplaceSet dest members; writeInt (Z.of_nat (List.length members))
        end
    end.

Definition cmdSUnion : CmdFunc := algebra "SUNION" "sunion: " unionMembers.
Definition cmdSInter : CmdFunc := algebra "SINTER" "sinter: " interMembers.
Definition cmdSDiff : CmdFunc := algebra "SDIFF" "sdiff: " diffMembers.
Definition cmdSUnionStore : CmdFunc := algebraStore "SUNIONSTORE" "sunionstore: " unionMembers.
Definition cmdSInterStore : CmdFunc := algebraStore "SINTERSTORE" "sinterstore: " interMembers.
Definition cmdSDiffStore : CmdFunc := algebraStore "SDIFFSTORE" "sdiffstore: " diffMembers.

Definition registerSetCommands : list CommandMeta :=
  [ reg "SADD" (-3) FlagWrite cmdSAdd; reg "SREM" (-3) FlagWrite cmdSRem;
    reg "SMEMBERS" 2 FlagRead cmdSMembers; reg "SISMEMBER" 3 FlagRead cmdSIsMember;
    reg "SCARD" 2 FlagRead cmdSCard; reg "SUNION" (-2) FlagRead cmdSUnion;
    reg "SUNIONSTORE" (-3) FlagWrite cmdSUnionStore; reg "SINTER" (-2) FlagRead cmdSInter;
    reg "SINTERSTORE" (-3) FlagWrite cmdSInterStore; reg "SDIFF" (-2) FlagRead cmdSDiff;
    reg "SDIFFSTORE" (-3) FlagWrite cmdSDiffStore ].

End ordered.
