(* ===== verification/CmdGeneric.v ===== *)
(** * Package [commands], part 6: keys (internal/commands/generic.go). *)

From S2P Require Import Prelude GoInt GoStr GoTime GoSort Resp Config StoreBase Eviction StoreString.
From S2P Require Import StoreHash StoreList StoreSet StoreKeys Session Repl CmdBase.

Definition cmdExists (args : list slice) : H (option error) :=
  if argsLt args 2 then wrongArgs "EXISTS"
  else
    let keys := strsFrom 1 args in
    n ← call (Exists keys);
    _ ← keyspaceHit n;
    _ ← keyspaceMiss (Z.of_nat (List.length keys) - n);
    writeInt n.

Definition cmdType (args : list slice) : H (option error) :=
  if argsNe args 2 then wrongArgs "TYPE"
  else t ← call (Type_ (argStr args 1)); writeSimple t.

Definition cmdTTL (args : list slice) : H (option error) :=
  if argsNe args 2 then wrongArgs "TTL"
  else sec ← call (TTL (argStr args 1)); writeInt sec.

Definition cmdPTTL (args : list slice) : H (option error) :=
  if argsNe args 2 then wrongArgs "PTTL"
  else ms ← call (TTLMs (argStr args 1)); writeInt ms.

(** ** Expiry *)

(** The reply of the four EXPIRE commands and of PERSIST; [rep] replicates. *)
Definition replyChanged (prefix : string) (rep : H unit) (r : res bool) : H (option error) :=
  match r with
  | inl err => fail prefix err
  | inr true => _ ← rep; writeInt 1
  | inr false => writeInt 0
  end.

Definition cmdExpire (args : list slice) : H (option error) :=
  if argsNe args 3 then wrongArgs "EXPIRE"
  else match ParseIntArg (arg args 2) with
       | inl _ => writeErr (invalidExpireErr "EXPIRE")
       | inr sec =>
           if sec <=? 0 then writeErr (invalidExpireErr "EXPIRE")
           else
             let key := argStr args 1 in
             r ← call (Expire key sec); replyChanged "expire: " (ReplicateExpire key sec) r
       end.

Definition cmdExpireAt (args : list slice) : H (option error) :=
  if argsNe args 3 then wrongArgs "EXPIREAT"
  else match ParseIntArg (arg args 2) with
       | inl _ => writeErr (invalidExpireErr "EXPIREAT")
       | inr ts =>
           let key := argStr args 1 in
           r ← call (ExpireAt key (Unix ts 0));
           replyChanged "expireat: " (ReplicateExpireAtUnix key ts) r
       end.

Definition cmdPExpire (args : list slice) : H (option error) :=
  if argsNe args 3 then wrongArgs "PEXPIRE"
  else match ParseIntArg (arg args 2) with
       | inl _ => writeErr (invalidExpireErr "PEXPIRE")
       | inr ms =>
           if ms <=? 0 then writeErr (invalidExpireErr "PEXPIRE")
           else
             let key := argStr args 1 in
             now ← pureM Now;
             r ← call (ExpireAt key (Add now (DurationMul ms Millisecond)));
             replyChanged "pexpire: " (ReplicatePExpire key ms) r
       end.

Definition cmdPExpireAt (args : list slice) : H (option error) :=
  if argsNe args 3 then wrongArgs "PEXPIREAT"
  else match ParseIntArg (arg args 2) with
       | inl _ => writeErr (invalidExpireErr "PEXPIREAT")
       | inr ms =>
           let key := argStr args 1 in
           r ← call (ExpireAt key (UnixMilli ms));
           replyChanged "pexpireat: " (ReplicatePExpireAtUnixMs key ms) r
       end.

Definition cmdPersist (args : list slice) : H (option error) :=
  if argsNe args 2 then wrongArgs "PERSIST"
  else
    let key := argStr args 1 in
    r ← call (Persist key); replyChanged "persist: " (ReplicatePersist key) r.

(** ** The keyspace *)

Definition cmdRename (args : list slice) : H (option error) :=
  if argsNe args 3 then wrongArgs "RENAME"
  else
    let src := argStr args 1 in
    let dst := argStr args 2 in
    r ← call (Rename src dst);
    match r with
    | Some err =>
        if contains "no such key" (errText err) then writeErr errNoSuchKey else fail "rename: " err
    | None => _ ← ReplicateRename src dst; writeOK
    end.

Definition cmdRenameNX (args : list slice) : H (option error) :=
  if argsNe args 3 then wrongArgs "RENAMENX"
  else
    let src := argStr args 1 in
    let dst := argStr args 2 in
    n ← call (Exists [src]);
    if n =? 0 then writeErr errNoSuchKey
    else r ← call (RenameNX src dst); replyChanged "renamenx: " (ReplicateRename src dst) r.

Definition cmdSelect (args : list slice) : H (option error) :=
  if argsNe args 2 then wrongArgs "SELECT"
  else match ParseIntArg (arg args 1) with
       | inl _ => writeErr errDBRange
       | inr db => if negb (db =? 0) then writeErr errDBRange else _ ← onSession (setDB db); writeOK
       end.

Record scanOpts := mkScanOpts { o_match : string; o_count : Z; o_type : string }.

(** The option loop of [cmdScan]: an error text, or the options. *)
Fixpoint parseScanOpts (args : list slice) (o : scanOpts) {struct args} : string + scanOpts :=
  match args with
  | [] => inr o
  | a :: rest =>
      let opt := ToUpper (sbytes a) in
      let rest2 := match rest with [] => rest | _ :: r => r end in
      let valued (k : slice -> string + scanOpts) :=
        match rest with [] => inl (argErr "SCAN") | b :: _ => k b end in
      let '(mkScanOpts m c t) := o in
      if (opt =? "MATCH")%string then
        valued (fun b => parseScanOpts rest2 (mkScanOpts (sbytes b) c t))
      else if (opt =? "COUNT")%string then
        valued (fun b =>
          match ParseIntArg b with
          | inl _ => inl errNotInt
          | inr n => if n <? 1 then inl errNotInt else parseScanOpts rest2 (mkScanOpts m n t)
          end)
      else if (opt =? "TYPE")%string then
        valued (fun b => parseScanOpts rest2 (mkScanOpts m c (sbytes b)))
      else inl (argErr "SCAN")
  end.

Section ordered.
Context `{MapOrder}.

Definition cmdKeys (args : list slice) : H (option error) :=
  if argsNe args 2 then wrongArgs "KEYS"
  else
    keys ← call (Keys (argStr args 1));
    writeArr "keys write: " (map vBulk (sortStrings keys)).

Definition cmdScan (args : list slice) : H (option error) :=
  if argsLt args 2 then wrongArgs "SCAN"
  else match ParseUintArg (arg args 1) with
       | inl _ => writeErr errNotInt
       | inr cur =>
           match parseScanOpts (drop 2 args) (mkScanOpts "*" 10 EmptyString) with
           | inl msg => writeErr msg
           | inr o =>
               r ← callOut (Scan cur (o_match o) (o_count o) (o_type o));
               let '(next, keys) := r in
               writeArr "scan write: " [vBulk (FormatUint next); vArr (map vBulk keys)]
           end
       end.

Definition cmdRandomKey (args : list slice) : H (option error) :=
  if argsNe args 1 then wrongArgs "RANDOMKEY"
  else
    keys ← call (Keys "*");
    match keys with
    | [] => writeBulkNil
    | _ => i ← pureM (IntN (List.length keys)); writeBulk (Some (default EmptyString (keys !! i)))
    end.

Definition cmdDBSize (args : list slice) : H (option error) :=
  if argsNe args 1 then wrongArgs "DBSIZE"
  else n ← call DBSize; writeInt n.

Definition registerGenericCommands : list CommandMeta :=
  [ reg "EXISTS" (-2) FlagRead cmdExists; reg "TYPE" 2 FlagRead cmdType;
    reg "TTL" 2 FlagRead cmdTTL; reg "PTTL" 2 FlagRead cmdPTTL;
    reg "EXPIRE" 3 FlagWrite cmdExpire; reg "EXPIREAT" 3 FlagWrite cmdExpireAt;
    reg "PEXPIRE" 3 FlagWrite cmdPExpire; reg "PEXPIREAT" 3 FlagWrite cmdPExpireAt;
    reg "PERSIST" 2 FlagWrite cmdPersist; reg "KEYS" 2 FlagRead cmdKeys;
    reg "SCAN" 0 FlagRead cmdScan; reg "RENAME" 3 FlagWrite cmdRename;
    reg "RENAMENX" 3 FlagWrite cmdRenameNX; reg "RANDOMKEY" 1 FlagRead cmdRandomKey;
    reg "SELECT" 2 FlagWrite cmdSelect; reg "DBSIZE" 1 FlagRead cmdDBSize ].

End ordered.
