(* ===== verification/CmdServer.v ===== *)
(** * Package [commands], part 7: the server commands and pub/sub
    (internal/commands/server.go, internal/commands/pubsub.go). *)

From S2P Require Import Prelude GoInt GoStr GoTime GoSort Resp Config StoreBase Eviction StoreString.
From S2P Require Import StoreHash StoreList StoreSet StoreKeys Session Repl CmdBase.

(** ** Connection commands *)

Definition cmdPing (args : list slice) : H (option error) :=
  s ← getw w_sess;
  let n := List.length args in
  if InSubscribeMode s then
    if (n =? 1)%nat then writeArr "ping subscribe: " [vBulk "pong"; vBulk EmptyString]
    else if (n =? 2)%nat then writeArr "ping subscribe: " [vBulk "pong"; vBulk (argStr args 1)]
    else wrongArgs "PING"
  else if (n =? 1)%nat then writeSimple "PONG"
  else if (n =? 2)%nat then writeBulk (arg args 1)
  else wrongArgs "PING".

Definition cmdEcho (args : list slice) : H (option error) :=
  if argsNe args 2 then wrongArgs "ECHO" else writeBulk (arg args 1).

Definition cmdAuth (args : list slice) : H (option error) :=
  cfg ← getw w_cfg;
  let want := AuthPassword cfg in
  if sempty want then writeErr errAuthNoPass
  else if argsNe args 2 then wrongArgs "AUTH"
  else if negb (argStr args 1 =? want)%string then writeErr errWrongPass
  else _ ← onSession (setAuth true); writeOK.

(** The Unix time of an instant, in seconds, and the nanoseconds within the second. *)
Definition ToUnix (t : Time) : Z := t / Second - unixToInternal.
Definition Nanosecond (t : Time) : Z := t mod Second.

Definition cmdTime (args : list slice) : H (option error) :=
  if argsNe args 1 then wrongArgs "TIME"
  else
    now ← pureM Now;
    writeArr "time write: "
      [vBulk (FormatInt (ToUnix now)); vBulk (FormatInt (Nanosecond now / 1000))].

Definition sessionID (s : Session) : Z := if s_ID s >? 0 then s_ID s else 1.

Definition clientLine (s : Session) : string :=
  "addr=" +++ s_Addr s +++ " id=" +++ FormatInt (sessionID s) +++ " name=" +++ s_Name s
  +++ " cmd=client" +++ String LF EmptyString.

Definition cmdClient (args : list slice) : H (option error) :=
  if argsLt args 2 then wrongArgs "CLIENT"
  else
    s ← getw w_sess;
    let sub := ToUpper (argStr args 1) in
    if (sub =? "ID")%string then
      if argsNe args 2 then wrongArgs "CLIENT" else writeInt (sessionID s)
    else if (sub =? "LIST")%string then
      if argsNe args 2 then wrongArgs "CLIENT" else writeBulk (Some (clientLine s))
    else if (sub =? "SETNAME")%string then
      if argsNe args 3 then wrongArgs "CLIENT"
      else _ ← onSession (setName (argStr args 2)); writeOK
    else if (sub =? "GETNAME")%string then
      if argsNe args 2 then wrongArgs "CLIENT"
      else if sempty (s_Name s) then writeBulkNil
      else writeBulk (Some (s_Name s))
    else writeErr errSyntax.

(** ** INFO *)

(** [float64(n)]: the nearest multiple of the last place of 53 bits, ties to even. *)
Definition roundEven (num den : Z) : Z :=
  let q := num / den in
  let r := num mod den in
  if 2 * r <? den then q
  else if 2 * r >? den then q + 1
  else if Z.even q then q else q + 1.
Definition float53 (n : Z) : Z :=
  let ulp := 2 ^ Z.max 0 (Z.log2 n - 52) in roundEven n ulp * ulp.

(** ["%.2f"] of [float64(n)/unit] for a power of two [unit]: the division is exact. *)
Definition fixed2 (n unit : Z) : string :=
  let h := roundEven (float53 n * 100) unit in
  let f := h mod 100 in
  let pad : string := if f <? 10 then "0" else EmptyString in
  FormatInt (h / 100) +++ "." +++ pad +++ FormatInt f.

Definition humanBytes (n : Z) : string :=
  let n := if n <? 0 then 0 else n in
  let u := 1024 in
  if n <? u then FormatInt n +++ "B"
  else if n <? u * u then fixed2 n u +++ "K"
  else if n <? u * u * u then fixed2 n (u * u) +++ "M"
  else if n <? u * u * u * u then fixed2 n (u * u * u) +++ "G"
  else fixed2 n (u * u * u * u) +++ "T".

Definition boolInt (b : bool) : Z := if b then 1 else 0.

Definition line (name value : string) : string := name +++ ":" +++ value +++ CRLF.
Definition lineInt (name : string) (n : Z) : string := line name (FormatInt n).

(** [writeSec]: whether a section is asked for, and its title. *)
Definition wanted (sec name : string) : bool :=
  sempty sec || (sec =? "all")%string || (sec =? name)%string.
Definition section (sec name : string) (body : H string) : H string :=
  if wanted sec name then b ← body; mret ("# " +++ name +++ CRLF +++ b) else mret EmptyString.

Definition enabledTLS (cert key : string) : bool :=
  negb (sempty (TrimSpace cert)) && negb (sempty (TrimSpace key)).
Definition ClientTLSEnabled (c : Config) : bool := enabledTLS (ClientTLSCertFile c) (ClientTLSKeyFile c).
Definition PeerTLSEnabled (c : Config) : bool := enabledTLS (PeerTLSCertFile c) (PeerTLSKeyFile c).

Definition infoServer : H string :=
  i ← getw w_info;
  cfg ← getw w_cfg;
  now ← pureM Now;
  mret (line "redis_version" "7.0.0-supercache" +++ line "redis_mode" "cluster"
    +++ line "supercache_version" (ServerVersion i) +++ line "os" (GOOS i +++ " " +++ GOARCH i)
    +++ line "arch_bits" "64" +++ lineInt "process_id" (Getpid i)
    +++ (if sempty (Executable i) then EmptyString else line "executable" (Executable i))
    +++ lineInt "tcp_port" (TCPPort i) +++ lineInt "uptime_in_seconds" (UptimeSeconds i)
    +++ lineInt "uptime_in_days" (Z.quot (UptimeSeconds i) 86400) +++ line "hz" "10"
    +++ lineInt "lru_clock" (Z.rem (ToUnix now) (2 ^ 24))
    +++ line "supercache_node_id" (InfoNodeID i)
    +++ line "supercache_bootstrap" (BootstrapState i)
    +++ lineInt "supercache_client_tls" (boolInt (ClientTLSEnabled cfg))
    +++ lineInt "supercache_peer_tls" (boolInt (PeerTLSEnabled cfg))).

Definition infoClients : H string :=
  i ← getw w_info; mret (lineInt "connected_clients" (ConnectedClients i)).

Definition infoStats : H string :=
  i ← getw w_info;
  h ← getw w_hits;
  m ← getw w_misses;
  mret (lineInt "total_connections_received" (TotalConnections i)
    +++ lineInt "total_commands_processed" (TotalCommands i)
    +++ lineInt "instantaneous_ops_per_sec" (OpsPerSec i)
    +++ lineInt "keyspace_hits" h +++ lineInt "keyspace_misses" m).

Fixpoint slaveLines (i : Z) (addrs : list string) : string :=
  match addrs with
  | [] => EmptyString
  | a :: addrs =>
      line ("slave" +++ FormatInt i) ("ip=" +++ a +++ ",state=online") +++ slaveLines (i + 1) addrs
  end.

Definition infoReplication : H string :=
  i ← getw w_info;
  let addrs := PeerAddresses i in
  mret (line "role" "master" +++ lineInt "connected_peers" (ConnectedPeers i)
    +++ line "peer_addresses" (join "," addrs)
    +++ lineInt "replication_dropped" (ReplicationDropped i)
    +++ lineInt "replication_send_errors" (ReplicationSendErrors i)
    +++ lineInt "replication_missed_events" (ReplicationMissedEvents i)
    +++ slaveLines 0 addrs).

Definition infoMemory : H string :=
  mb ← call MemBytes;
  cfg ← getw w_cfg;
  let limit := match MaxMemoryBytes cfg with inl _ => 0 | inr n => n end in
  let limits :=
    if 0 <? limit
    then lineInt "maxmemory" limit +++ line "maxmemory_human" (humanBytes (wrap64 limit))
    else EmptyString in
  let pol := TrimSpace (MaxMemoryPolicy cfg) in
  mret (lineInt "used_memory" mb +++ line "used_memory_human" (humanBytes mb)
    +++ limits +++ line "maxmemory_policy" (if sempty pol then "noeviction" else pol)).

Section ordered.
Context `{MapOrder}.

Definition infoKeyspace : H string :=
  n ← call DBSize;
  e ← call ExpireKeyCount;
  mret (line "db0" ("keys=" +++ FormatInt n +++ ",expires=" +++ FormatInt e)).

Definition cmdInfo (args : list slice) : H (option error) :=
  let sec := if argsLt args 2 then EmptyString else ToLower (argStr args 1) in
  a ← section sec "server" infoServer;
  b ← section sec "clients" infoClients;
  c ← section sec "stats" infoStats;
  d ← section sec "replication" infoReplication;
  e ← section sec "memory" infoMemory;
  f ← section sec "keyspace" infoKeyspace;
  writeBulk (Some (a +++ b +++ c +++ d +++ e +++ f)).

Definition flushClusterDB (replOp : string) (args : list slice) : H (option error) :=
  _ ← call FlushDB;
  _ ← Replicate (pKey replOp EmptyString);
  writeOK.

Definition cmdFlushDB : CmdFunc := flushClusterDB "FLUSHDB".
Definition cmdFlushAll : CmdFunc := flushClusterDB "FLUSHALL".

(** ** Publish and subscribe *)

Definition subscriptionCount (s : Session) : Z := Z.of_nat (size (SubChannels s) + size (PSubPatterns s)).

Definition writeSubscribeAck (kind channel : string) (n : Z) : H (option error) :=
  writeArr "subscribe ack: " [vBulk kind; vBulk channel; vInt n].

(** One turn of the four loops: the session and the manager change, the count is acknowledged. *)
Definition subscription (kind : string) (ch : string) (fs : Session -> Session)
    (fm : Z -> SubscriptionManager -> SubscriptionManager) : H (option error) :=
  _ ← onSession fs;
  s ← getw w_sess;
  _ ← modw (fun w => setManager (fm (s_ID s) (w_subs w)) w);
  writeSubscribeAck kind ch (subscriptionCount s).

Fixpoint eachChannel (f : string -> H (option error)) (chs : list string) : H (option error) :=
  match chs with
  | [] => mret None
  | ch :: chs =>
      e ← f ch;
      match e with Some err => mret (Some err) | None => eachChannel f chs end
  end.

Definition addChannel (ch : string) (s : Session) : Session :=
  setSubs ({[ ch ]} ∪ SubChannels s) (PSubPatterns s) s.
Definition dropChannel (ch : string) (s : Session) : Session :=
  setSubs (SubChannels s ∖ {[ ch ]}) (PSubPatterns s) s.
Definition addPattern (p : string) (s : Session) : Session :=
  setSubs (SubChannels s) ({[ p ]} ∪ PSubPatterns s) s.
Definition dropPattern (p : string) (s : Session) : Session :=
  setSubs (SubChannels s) (PSubPatterns s ∖ {[ p ]}) s.

Definition cmdSubscribe (args : list slice) : H (option error) :=
  if argsLt args 2 then wrongArgs "SUBSCRIBE"
  else eachChannel (fun ch => subscription "subscribe" ch (addChannel ch) (Subscribe ch))
         (strsFrom 1 args).

Definition cmdPSubscribe (args : list slice) : H (option error) :=
  if argsLt args 2 then wrongArgs "PSUBSCRIBE"
  else eachChannel (fun p => subscription "psubscribe" p (addPattern p) (PSubscribe p))
         (strsFrom 1 args).

(** Without channels, every subscription of the session, in iteration order; the loop removes only
    entries it has reached. *)
Definition cmdUnsubscribe (args : list slice) : H (option error) :=
  let one ch := subscription "unsubscribe" ch (dropChannel ch) (Unsubscribe ch) in
  if negb (argsNe args 1) then
    s ← getw w_sess;
    chs ← pureM (ranged (elements (SubChannels s)));
    eachChannel one chs
  else eachChannel one (strsFrom 1 args).

Definition cmdPUnsubscribe (args : list slice) : H (option error) :=
  let one p := subscription "punsubscribe" p (dropPattern p) (PUnsubscribe p) in
  if negb (argsNe args 1) then
    s ← getw w_sess;
    ps ← pureM (ranged (elements (PSubPatterns s)));
    eachChannel one ps
  else eachChannel one (strsFrom 1 args).

(** [Publish]: each push takes the receiving session's lock.  The publisher holds its own for the
    whole command, so a push to itself never returns. *)
Definition Publish (channel : string) (message : slice) : H Z :=
  m ← getw w_subs;
  me ← getw (fun w => s_ID (w_sess w));
  ps ← pureM (ranged (map_to_list (psubs m)));
  let out := deliveries channel message ps m in
  let before := (fix go l := match l with
                             | [] => []
                             | (s, v) :: l => if s =? me then [] else (s, v) :: go l
                             end) out in
  _ ← modw (addPushed before);
  if (List.length before <? List.length out)%nat then stuck
  else mret (Z.of_nat (List.length out)).

Definition cmdPublish (args : list slice) : H (option error) :=
  if argsNe args 3 then wrongArgs "PUBLISH"
  else n ← Publish (argStr args 1) (arg args 2); writeInt n.

Definition registerPubSubCommands : list CommandMeta :=
  [ reg "SUBSCRIBE" (-2) FlagRead cmdSubscribe; reg "PSUBSCRIBE" (-2) FlagRead cmdPSubscribe;
    reg "UNSUBSCRIBE" 0 FlagRead cmdUnsubscribe; reg "PUNSUBSCRIBE" 0 FlagRead cmdPUnsubscribe;
    reg "PUBLISH" 3 FlagWrite cmdPublish ].

End ordered.
