(* ===== verification/CmdTxn.v ===== *)
(** * Package [commands], part 8: COMMAND, transactions and the registry
    (internal/commands/server.go, transaction.go, registry.go). *)

From S2P Require Import Prelude GoInt GoStr GoTime GoSort Resp Config StoreBase Eviction StoreString.
From S2P Require Import StoreHash StoreList StoreSet StoreKeys Session Repl CmdBase CmdString CmdHash.
From S2P Require Import CmdList CmdSet CmdGeneric CmdServer.

(** ** COMMAND

    [tbl] is the registry without its handlers: name in lower case to description. *)

Definition Table : Type := gmap string CommandInfo.

(** [Commands]: sorted by name, which makes the iteration order irrelevant. *)
Definition Commands (tbl : Table) : list CommandInfo :=
  omap (fun k => tbl !! k) (sortStrings (map fst (map_to_list tbl))).

Definition commandKeyIndices (m : CommandInfo) : Z * Z * Z :=
  let step := if c_Step m =? 0 then 1 else c_Step m in
  if negb (c_FirstKey m =? 0) || negb (c_LastKey m =? 0) then (c_FirstKey m, c_LastKey m, step)
  else if c_Arity m =? 1 then (0, 0, 0)
  else (2, 2, step).

Definition hasFlag (m : CommandInfo) (f : Z) : bool := negb (Z.land (c_Flags m) f =? 0).

Definition redisFlagList (m : CommandInfo) : list string :=
  (if hasFlag m FlagRead && negb (hasFlag m FlagWrite) then ["readonly"%string] else []) ++
  (if hasFlag m FlagWrite then ["write"%string] else []) ++
  (if hasFlag m FlagAdmin then ["admin"%string] else []).

Definition commandMetaToRESP (m : CommandInfo) : Value :=
  let '(fk, lk, st) := commandKeyIndices m in
  vArr [vBulk (ToLower (c_Name m)); vInt (c_Arity m); vArr (map vBulk (redisFlagList m));
        vInt fk; vInt lk; vInt st].

Definition writeCommandFullList (tbl : Table) : H (option error) :=
  writeArr "command list: " (map commandMetaToRESP (Commands tbl)).

Definition writeCommandInfoNames (tbl : Table) (names : list slice) : H (option error) :=
  writeArr "command info: "
    (map (fun nb => match tbl !! ToLower (ToLower (sbytes nb)) with
                    | None => vNullBulk
                    | Some meta => commandMetaToRESP meta
                    end) names).

Definition cmdCommand (tbl : Table) (args : list slice) : H (option error) :=
  if argsLt args 1 then wrongArgs "COMMAND"
  else if negb (argsNe args 1) then writeCommandFullList tbl
  else
    let sub := ToUpper (argStr args 1) in
    if (sub =? "COUNT")%string then
      if argsNe args 2 then wrongArgs "COMMAND"
      else writeInt (Z.of_nat (List.length (Commands tbl)))
    else if (sub =? "INFO")%string then
      if argsLt args 3 then wrongArgs "COMMAND" else writeCommandInfoNames tbl (drop 2 args)
    else wrongArgs "COMMAND".

(** ** Transactions *)

Definition cmdMulti (args : list slice) : H (option error) :=
  if argsNe args 1 then wrongArgs "MULTI"
  else
    s ← getw w_sess;
    if InMulti s then writeErr errMultiNested
    else _ ← onSession (setMulti true []); writeOK.

Definition cmdDiscard (args : list slice) : H (option error) :=
  if argsNe args 1 then wrongArgs "DISCARD"
  else
    s ← getw w_sess;
    if negb (InMulti s) then writeErr errDiscardNoMulti
    else _ ← onSession (setMulti false []); writeOK.

Fixpoint watchLoop (keys : list string) : H unit :=
  match keys with
  | [] => mret tt
  | k :: keys =>
      v ← call (gets (WatchVersion k));
      _ ← onSession (fun s => setWatched (<[k := v]> (WatchedKeys s)) s);
      watchLoop keys
  end.

Definition cmdWatch (args : list slice) : H (option error) :=
  if argsLt args 2 then wrongArgs "WATCH"
  else _ ← watchLoop (strsFrom 1 args); writeOK.

Definition cmdUnwatch (args : list slice) : H (option error) :=
  if argsNe args 1 then wrongArgs "UNWATCH"
  else _ ← onSession (setWatched ∅); writeOK.

(** Whether a watched key has another version than when it was watched. *)
Fixpoint watchAborted (kvs : list (string * Z)) : H bool :=
  match kvs with
  | [] => mret false
  | (k, ver) :: kvs =>
      v ← call (gets (WatchVersion k));
      if negb (v =? ver) then mret true else watchAborted kvs
  end.

Section registry.
Context `{MapOrder} `{Floats}.

(** One queued command: dispatched with a fresh buffer as writer, its reply parsed back. *)
Definition execOne (dispatch : Value -> H (option error)) (v : Value) : H (res Value) :=
  saved ← getw w_out;
  _ ← modw (setOut EmptyString);
  e ← dispatch v;
  buf ← getw w_out;
  _ ← modw (setOut saved);
  match e with
  | Some err => mret (inl err)
  | None =>
      match Parse (mkStream buf io_EOF) with
      | Some (inr val, _) => mret (inr val)
      | Some (inl err, _) => mret (inl (wrapErr "exec parse reply: " err))
      | None => mret (inl (New "out of fuel"))
      end
  end.

Fixpoint execLoop (dispatch : Value -> H (option error)) (queue : list Value) : H (res (list Value)) :=
  match queue with
  | [] => mret (inr [])
  | v :: queue =>
      r ← execOne dispatch v;
      match r with
      | inl err => mret (inl err)
      | inr val =>
          rest ← execLoop dispatch queue;
          mret (rbind rest (fun l => inr (val :: l)))
      end
  end.

Definition cmdExec (dispatch : Value -> H (option error)) (args : list slice) : H (option error) :=
  if argsNe args 1 then wrongArgs "EXEC"
  else
    s ← getw w_sess;
    if negb (InMulti s) then writeErr errExecNoMulti
    else
      let queue := MultiQueue s in
      _ ← onSession (setMulti false []);
      kvs ← pureM (ranged (map_to_list (WatchedKeys s)));
      aborted ← watchAborted kvs;
      _ ← onSession (setWatched ∅);
      if aborted : bool then emit "exec write null: " WriteNull
      else
        r ← execLoop dispatch queue;
        match r with
        | inl err => mret (Some err)
        | inr elems => writeArr "exec write array: " elems
        end.

(** ** The registry *)

Definition registerServerCommands (tbl : Table) : list CommandMeta :=
  [ reg "PING" 0 FlagRead cmdPing; reg "ECHO" 2 FlagRead cmdEcho;
    reg "AUTH" 0 (Z.lor FlagWrite FlagAdmin) cmdAuth; reg "INFO" 0 FlagRead cmdInfo;
    reg "FLUSHDB" 1 (Z.lor FlagWrite FlagDangerous) cmdFlushDB;
    reg "FLUSHALL" 1 (Z.lor FlagWrite FlagDangerous) cmdFlushAll;
    reg "TIME" 1 FlagRead cmdTime; reg "CLIENT" 0 (Z.lor FlagRead FlagWrite) cmdClient;
    reg "COMMAND" (-1) FlagRead (cmdCommand tbl) ].

Definition registerTransactionCommands (exec : CmdFunc) : list CommandMeta :=
  [ reg "MULTI" 1 FlagWrite cmdMulti; reg "EXEC" 1 (Z.lor FlagRead FlagWrite) exec;
    reg "DISCARD" 1 FlagWrite cmdDiscard; reg "WATCH" (-2) FlagWrite cmdWatch;
    reg "UNWATCH" 1 FlagWrite cmdUnwatch ].

(** What [NewRegistry] registers, in order. *)
Definition builtins (tbl : Table) (exec : CmdFunc) : list CommandMeta :=
  registerStringCommands ++ registerHashCommands ++ registerListCommands ++ registerSetCommands ++
  registerGenericCommands ++ registerServerCommands tbl ++ registerPubSubCommands ++
  registerTransactionCommands exec.

Definition Register (r : gmap string CommandMeta) (meta : CommandMeta) : gmap string CommandMeta :=
  <[ToLower (c_Name (c_info meta)) := meta]> r.

(** The descriptions do not depend on the handlers. *)
Definition commandTable : Table :=
  c_info <$> fold_left Register (builtins ∅ (fun _ => mret None)) ∅.

Definition NewRegistry (exec : CmdFunc) : gmap string CommandMeta :=
  fold_left Register (builtins commandTable exec) ∅.

Definition Lookup (r : gmap string CommandMeta) (name : string) : option CommandMeta :=
  r !! ToLower name.

Definition unknownCommand (name : string) : string :=
  "ERR unknown command `" +++ ToLower name +++ "`, with args beginning with: ".

(** [Dispatch]; [depth] bounds the nesting of EXEC, whose queue is always empty below the first. *)
Fixpoint Dispatch (depth : nat) (v : Value) {struct depth} : H (option error) :=
  let nested : Value -> H (option error) :=
    match depth with
    | O => fun _ => mret (Some (New "out of fuel"))
    | S depth => Dispatch depth
    end in
  match ValueToArgs v with
  | inl err => mret (Some (wrapErr "dispatch: " err))
  | inr [] => mret (Some (New "empty command"))
  | inr (a :: rest) =>
      let args := a :: rest in
      let name := sbytes a in
      match Lookup (NewRegistry (cmdExec nested)) name with
      | None => writeErr (unknownCommand name)
      | Some meta =>
          match (if c_Arity (c_info meta) =? 0 then None else CheckArity (c_info meta) args) with
          | Some err => writeErr (errText err)
          | None => c_Handler meta args
          end
      end
  end.

End registry.
