(* ===== verification/Conn.v ===== *)
(** * Package [server], part 1: a client connection (internal/server/conn.go).

    The bytes a connection sends are a stream; [w_out] collects what is written to it.  Per turn
    of the loop, [Turn] gives what the connection reads of the server: whether it shuts down,
    whether it is ready, and its configuration.  Read deadlines only end the stream. *)

From S2P Require Import Prelude GoInt GoStr GoTime GoSort Resp Config StoreBase Eviction StoreString.
From S2P Require Import StoreHash StoreList StoreSet StoreKeys Session Repl CmdBase CmdString CmdHash.
From S2P Require Import CmdList CmdSet CmdGeneric CmdServer CmdTxn.

Definition errWatchInsideMulti : string := "ERR WATCH inside MULTI is not allowed".
Definition maxMultiQueueLen : nat := 10000.

Definition subscribeAllowed : list string :=
  ["SUBSCRIBE"; "PSUBSCRIBE"; "UNSUBSCRIBE"; "PUNSUBSCRIBE"; "PING"; "QUIT"]%string.

Definition ErrQuitErr : error := New "redis quit".

Definition needAuth (cfg : Config) (s : Session) : bool :=
  if sempty (TrimSpace (AuthPassword cfg)) then false else negb (Authenticated s).

Definition writeErrStr (msg : string) : H (option error) := writeErr msg.
Definition writeQueued : H (option error) :=
  emit "write queued: " (fun w => WriteSimpleString w "QUEUED").

(** [ctx.Session.MultiQueue = append(ctx.Session.MultiQueue, v)]. *)
Definition enqueue (v : Value) (s : Session) : Session := setMulti (InMulti s) (MultiQueue s ++ [v]) s.

Definition isOneOf (cmd : string) (l : list string) : bool := bool_decide (cmd ∈ l).

Section conn.
Context `{MapOrder} `{Floats}.

Definition registryDispatch : Value -> H (option error) := Dispatch 2.

(** [dispatch] of one parsed value; [cfg] is the configuration of the moment. *)
Definition dispatch (cfg : Config) (v : Value) : H (option error) :=
  _ ← modw (setCfg cfg);
  match ValueToArgs v with
  | inl err => mret (Some (wrapErr "value to args: " err))
  | inr [] => mret (Some (New "empty command"))
  | inr (a :: _) =>
      let cmd := ToUpper (sbytes a) in
      s ← getw w_sess;
      if (cmd =? "QUIT")%string then
        e ← writeOK;
        mret (match e with Some err => Some (wrapErr "quit ok: " err) | None => Some ErrQuitErr end)
      else if needAuth cfg s && negb (cmd =? "AUTH")%string then writeErr errNoAuth
      else if InMulti s then
        if (cmd =? "WATCH")%string then writeErrStr errWatchInsideMulti
        else if isOneOf cmd ["UNWATCH"; "MULTI"; "EXEC"; "DISCARD"]%string then registryDispatch v
        else if (maxMultiQueueLen <=? List.length (MultiQueue s))%nat then
          writeErrStr "ERR MULTI queue length exceeded"
        else
          _ ← onSession (enqueue v);
          writeQueued
      else if InSubscribeMode s && negb (isOneOf cmd subscribeAllowed) then
        writeErrStr
          "ERR only (P)SUBSCRIBE / (P)UNSUBSCRIBE / PING / QUIT are allowed in this context"
      else registryDispatch v
  end.

Record Turn := mkTurn {
  t_done : bool;       (* ctx.Done() *)
  t_ready : bool;      (* clientReady *)
  t_shutting : bool;   (* shuttingDown after the command *)
  t_cfg : Config }.

(** The counters of the server ([stats]) that a connection moves, as INFO shows them. *)
Definition opsPerSecond (cmds secs : Z) : Z := Z.quot cmds (if secs <? 1 then 1 else secs).

Definition withClients (active conns cmds : Z) (i : InfoProvider) : InfoProvider :=
  mkInfo (TCPPort i) (UptimeSeconds i) active conns cmds (opsPerSecond cmds (UptimeSeconds i)) (ConnectedPeers i)
    (PeerAddresses i) (InfoNodeID i) (BootstrapState i) (ReplicationDropped i) (ReplicationSendErrors i)
    (ReplicationMissedEvents i) (ServerVersion i) (GOOS i) (GOARCH i) (Getpid i) (Executable i).
Definition clientIn (i : InfoProvider) : InfoProvider :=
  withClients (wrap64 (ConnectedClients i + 1)) (wrap64 (TotalConnections i + 1)) (TotalCommands i) i.
Definition clientOut (i : InfoProvider) : InfoProvider :=
  withClients (wrap64 (ConnectedClients i - 1)) (TotalConnections i) (TotalCommands i) i.
Definition commandDone (i : InfoProvider) : InfoProvider :=
  withClients (ConnectedClients i) (TotalConnections i) (wrap64 (TotalCommands i + 1)) i.

Definition onStats (f : InfoProvider -> InfoProvider) : H unit := modw (fun w => setInfo (f (w_info w)) w).

(** [sess.LastCmdAt = time.Now()], [sess.CmdCount++], [s.stats.commandExecuted()]. *)
Definition finishCommand : H unit :=
  now ← pureM Now;
  _ ← onSession (counted1 now);
  onStats commandDone.

(** The loop of [serveConn]: the commands executed, and the stream where the loop ended. *)
Fixpoint serveLoop (turns : list Turn) (input : stream) (executed : nat) : H (nat * stream) :=
  match turns with
  | [] => mret (executed, input)
  | t :: turns =>
      if t_done t then mret (executed, input)
      else match Parse input with
           | None => mret (executed, input)
           | Some (inl _, input) => mret (executed, input)
           | Some (inr v, input) =>
               if negb (t_ready t) then
                 _ ← writeErr "LOADING Super-Cache is loading the dataset in memory";
                 serveLoop turns input executed
               else
                 e ← dispatch (t_cfg t) v;
                 match e with
                 | Some _ => mret (executed, input)
                 | None =>
                     _ ← finishCommand;
                     if t_shutting t then
                       _ ← writeErr "LOADING server is shutting down"; mret (S executed, input)
                     else serveLoop turns input (S executed)
                 end
           end
  end.

(** [serveConn], with what it defers: the removal of the session's subscriptions, then the count of clients. *)
Definition serveConn (turns : list Turn) (input : stream) : H (nat * stream) :=
  _ ← onStats clientIn;
  r ← serveLoop turns input 0;
  _ ← modw (fun w => setManager (RemoveSessionFromAll (s_ID (w_sess w)) (w_subs w)) w);
  _ ← onStats clientOut;
  mret r.

End conn.
