(* ===== verification/CmdFrame.v ===== *)
(** * Frames: relations between the worlds before and after a handler.

    A frame is a preorder on worlds that the elementary effects of handlers stay within; every
    built-in command then stays within it.  The invariants of the store, the parts of a session
    that commands leave alone and the like are instances. *)

From S2P Require Import Prelude GoInt GoStr GoTime GoSort Resp Config StoreBase Eviction StoreString.
From S2P Require Import StoreHash StoreList StoreSet StoreKeys StoreOps Session Repl CmdBase CmdString.
From S2P Require Import CmdHash CmdList CmdSet CmdGeneric CmdServer CmdTxn.

(** The handler [m] relates the world before it to the one after it, however it ends. *)
Definition within (R : World -> World -> Prop) {A} (m : H A) : Prop :=
  forall w r w', m w = (r, w') -> R w w'.

(** [admits R m] admits the store call [m], [okS R f] the change [f] of the session. *)
Class Frame `{MapOrder} (R : World -> World -> Prop) := {
  fr_pre :: PreOrder R;
  admits : forall {A}, M A -> Prop;
  okS : (Session -> Session) -> Prop;
  fr_store : forall A (m : M A) w, admits m -> R w (setSt (snd (m (w_st w))) w);
  fr_yield : forall A (m : M A), admits m -> admits (yield ≫= fun _ => m);
  fr_now : admits Now;
  fr_rand : forall n, admits (IntN n);
  fr_ranged : forall A (l : list A), admits (ranged l);
  fr_out : forall w o, R w (setOut o w);
  fr_repl : forall w p, R w (addRepl p w);
  fr_hits : forall w h m, R w (addHits h m w);
  fr_subs : forall w m, R w (setManager m w);
  fr_push : forall w l, R w (addPushed l w);
  fr_cfg : forall w c, R w (setCfg c w);
  fr_info : forall w i, R w (setInfo i w);
  fr_sess : forall w f, okS f -> R w (setSess (f (w_sess w)) w) }.
#[global] Arguments admits {_} R {_} {A} m.
#[global] Arguments okS {_} R {_} f.

(** The calls of the store the handlers make, except [Append], [Rename], [RenameNX] and [FlushDB]. *)
Class GoodOps `{MapOrder} `{Floats} (R : World -> World -> Prop) `{!Frame R} := {
  g_Get : forall k, admits R (Get k);
  g_Set : forall k v t, admits R (Set_ k v t);
  g_SetNX : forall k v t, admits R (SetNX k v t);
  g_SetXX : forall k v t, admits R (SetXX k v t);
  g_GetSet : forall k v t, admits R (GetSet k v t);
  g_IncrBy : forall k n, admits R (IncrBy k n);
  g_DecrBy : forall k n, admits R (DecrBy k n);
  g_MGet : forall ks, admits R (MGet ks);
  g_MSet : forall ps, admits R (MSet ps);
  g_MSetNX : forall ps, admits R (MSetNX ps);
  g_HSet : forall k ps, admits R (HSet k ps);
  g_HGet : forall k f, admits R (HGet k f);
  g_HGetAll : forall k, admits R (HGetAll k);
  g_HDel : forall k fs, admits R (HDel k fs);
  g_HExists : forall k f, admits R (HExists k f);
  g_HLen : forall k, admits R (HLen k);
  g_HSetNX : forall k f v, admits R (HSetNX k f v);
  g_HIncrBy : forall k f n, admits R (HIncrBy k f n);
  g_HIncrByFloat : forall k f n, admits R (HIncrByFloat fzero fadd ParseFloat FormatFloat k f n);
  g_LPush : forall k vs, admits R (LPush k vs);
  g_RPush : forall k vs, admits R (RPush k vs);
  g_LPushX : forall k vs, admits R (LPushX k vs);
  g_RPushX : forall k vs, admits R (RPushX k vs);
  g_LPop : forall k n, admits R (LPop k n);
  g_RPop : forall k n, admits R (RPop k n);
  g_LLen : forall k, admits R (LLen k);
  g_LRange : forall k a b, admits R (LRange k a b);
  g_LIndex : forall k i, admits R (LIndex k i);
  g_LSet : forall k i v, admits R (LSet k i v);
  g_LRem : forall k n v, admits R (LRem k n v);
  g_LTrim : forall k a b, admits R (LTrim k a b);
  g_LInsert : forall k b p v, admits R (LInsert k b p v);
  g_SAdd : forall k ms, admits R (SAdd k ms);
  g_SRem : forall k ms, admits R (SRem k ms);
  g_SMembers : forall k, admits R (SMembers k);
  g_SIsMember : forall k m, admits R (SIsMember k m);
  g_SCard : forall k, admits R (SCard k);
  g_ReplaceSet : forall k ms, admits R (ReplaceSet k ms);
  g_Del : forall ks, admits R (Del ks);
  g_Exists : forall ks, admits R (Exists ks);
  g_Type : forall k, admits R (Type_ k);
  g_Keys : forall p, admits R (Keys p);
  g_DBSize : admits R DBSize;
  g_ExpireKeyCount : admits R ExpireKeyCount;
  g_Expire : forall k n, admits R (Expire k n);
  g_ExpireAt : forall k t, admits R (ExpireAt k t);
  g_TTL : forall k, admits R (TTL k);
  g_TTLMs : forall k, admits R (TTLMs k);
  g_Persist : forall k, admits R (Persist k);
  g_Scan : forall c m n t, admits R (Scan c m n t);
  g_version : forall k, admits R (gets (WatchVersion k));
  g_MemBytes : admits R MemBytes }.

(** [frame] holds the admitted calls and session changes, and the programs known to stay within. *)
Create HintDb frame discriminated.
#[export] Hint Constants Opaque : frame.
#[export] Hint Transparent Time slice ReplicateExpire ReplicateExpireAtUnix ReplicatePExpire
  ReplicatePExpireAtUnixMs ReplicatePersist ReplicateRename : frame.
#[export] Hint Resolve fr_now fr_rand fr_ranged g_Get g_Set g_SetNX g_SetXX g_GetSet g_IncrBy g_DecrBy
  g_MGet g_MSet g_MSetNX g_HSet g_HGet g_HGetAll g_HDel g_HExists g_HLen g_HSetNX g_HIncrBy
  g_HIncrByFloat g_LPush g_RPush g_LPushX g_RPushX g_LPop g_RPop g_LLen g_LRange g_LIndex g_LSet g_LRem
  g_LTrim g_LInsert g_SAdd g_SRem g_SMembers g_SIsMember g_SCard g_ReplaceSet g_Del g_Exists g_Type
  g_Keys g_DBSize g_ExpireKeyCount g_Expire g_ExpireAt g_TTL g_TTLMs
  g_Persist g_Scan g_version g_MemBytes : frame.

(** ** Rules *)

Section preorder.
Context (R : World -> World -> Prop) `{!PreOrder R}.

Lemma w_ret {A} (a : A) : within R (mret a).
Proof. intros w r w' [= <- <-]. reflexivity. Qed.

Lemma w_bind {A B} (m : H A) (f : A -> H B) :
  within R m -> (forall a, within R (f a)) -> within R (m ≫= f).
Proof.
  intros Hm Hf w r w' Heq. unfold mbind, H_bind in Heq.
  destruct (m w) as [[a| |] w1] eqn:E; pose proof (Hm _ _ _ E) as H1; [|by simplify_eq..].
  transitivity w1; [done|]. by eapply Hf.
Qed.

Lemma w_getw {A} (f : World -> A) : within R (getw f).
Proof. intros w r w' [= <- <-]. reflexivity. Qed.

Lemma w_stop {A} : within R (crash (A := A)) /\ within R (stuck (A := A)).
Proof. split; intros w r w' [= <- <-]; reflexivity. Qed.

End preorder.

Section rules.
Context `{MapOrder} (R : World -> World -> Prop) `{!Frame R}.

Lemma w_pureM {A} (m : M A) : admits R m -> within R (pureM m).
Proof.
  intros Hg w r w' Heq. unfold pureM in Heq. pose proof (fr_store A m w Hg) as Hr.
  destruct (m (w_st w)) as [a st]. by simplify_eq.
Qed.

Lemma w_call {A} (m : M A) : admits R m -> within R (call m).
Proof. intros Hg. apply w_pureM. by apply fr_yield. Qed.

Lemma w_callOut {A} (m : M (outcome A)) : admits R m -> within R (callOut m).
Proof. intros Hg. apply (w_bind R); [by apply w_call|]. intros [a|]; [by apply (w_ret R)|apply (w_stop R)]. Qed.

Lemma w_session f : okS R f -> within R (onSession f).
Proof. intros Ho w r w' [= <- <-]. by apply fr_sess. Qed.

Lemma w_manager f : within R (modw (fun w => setManager (f w) w)).
Proof. intros w r w' [= <- <-]. apply fr_subs. Qed.

Lemma w_push l : within R (modw (addPushed l)).
Proof. intros w r w' [= <- <-]. apply fr_push. Qed.

Lemma w_setCfg c : within R (modw (setCfg c)).
Proof. intros w r w' [= <- <-]. apply fr_cfg. Qed.

Lemma w_info_ f : within R (modw (fun w => setInfo (f (w_info w)) w)).
Proof. intros w r w' [= <- <-]. apply fr_info. Qed.

Lemma w_setOut o : within R (modw (setOut o)).
Proof. intros w r w' [= <- <-]. apply fr_out. Qed.

Lemma w_emit p f : within R (emit p f).
Proof. intros w r w' Heq. unfold emit in Heq. destruct (f (w_out w)). simplify_eq. apply fr_out. Qed.

Lemma w_Replicate p : within R (Replicate p).
Proof. intros w r w' [= <- <-]. apply fr_repl. Qed.

Lemma w_hit n : within R (keyspaceHit n).
Proof. unfold keyspaceHit. destruct (n <=? 0); [apply (w_ret R)|]. intros w r w' [= <- <-]. apply fr_hits. Qed.

Lemma w_miss n : within R (keyspaceMiss n).
Proof. unfold keyspaceMiss. destruct (n <=? 0); [apply (w_ret R)|]. intros w r w' [= <- <-]. apply fr_hits. Qed.
End rules.

(** The head of a program. *)
Ltac unfold_writer :=
  lazymatch goal with
  | |- within _ (writeErr _) => unfold writeErr
  | |- within _ writeOK => unfold writeOK, writeSimple
  | |- within _ (writeSimple _) => unfold writeSimple
  | |- within _ writeBulkNil => unfold writeBulkNil
  | |- within _ (writeInt _) => unfold writeInt
  | |- within _ (writeArr _ _) => unfold writeArr
  | |- within _ writeArrayEmpty => unfold writeArrayEmpty, writeArr
  | |- within _ (writeMembers _) => unfold writeMembers, writeArr
  | |- within _ (writeBulk ?b) => unfold writeBulk, writeBulkNil
  | |- within _ (wrongArgs _) => unfold wrongArgs, writeErr
  | |- within _ (fail _ _) => unfold fail
  | |- within _ (failType _ _) => unfold failType
  | |- within _ (failOOM _ _) => unfold failOOM
  | |- within _ (failTypeOOM _ _) => unfold failTypeOOM, failOOM
  end.

(** One step through a handler: split binds and cases, close elementary effects by the rules. *)
Ltac wstep :=
  unfold_writer ||
  lazymatch goal with
  | |- within ?R (mbind _ _) => apply (w_bind R); [|intros ?]
  | |- within _ (match ?x with _ => _ end) => destruct x
  | |- within _ (let '(_, _) := ?x in _) => destruct x
  | |- within ?R (mret _) => apply (w_ret R)
  | |- within ?R (getw _) => apply (w_getw R)
  | |- within ?R (emit _ _) => apply (w_emit R)
  | |- within ?R (Replicate _) => apply (w_Replicate R)
  | |- within ?R (keyspaceHit _) => apply (w_hit R)
  | |- within ?R (keyspaceMiss _) => apply (w_miss R)
  | |- within ?R (modw (addPushed _)) => apply (w_push R)
  | |- within ?R (modw (setCfg _)) => apply (w_setCfg R)
  | |- within ?R (modw (setOut _)) => apply (w_setOut R)
  | |- within ?R (onSession _) => apply (w_session R); eauto with frame
  | |- within ?R crash => apply (w_stop R)
  | |- within ?R stuck => apply (w_stop R)
  | |- within ?R (call _) => apply (w_call R); eauto with frame
  | |- within ?R (callOut _) => apply (w_callOut R); eauto with frame
  | |- within ?R (pureM _) => apply (w_pureM R); eauto with frame
  | |- within _ _ => eauto with frame
  end; cbv zeta.
Ltac wsteps := repeat wstep.
