(* ===== verification/CmdWithin.v ===== *)
(** * Every built-in command stays within a frame; the command table. *)

From S2P Require Import Prelude GoInt GoStr GoTime GoSort Resp Config StoreBase Eviction StoreString.
From S2P Require Import StoreHash StoreList StoreSet StoreKeys StoreOps Session Repl CmdBase CmdString.
From S2P Require Import CmdHash CmdList CmdSet CmdGeneric CmdServer CmdTxn CmdFrame.

(** The changes of a session, apart from the one AUTH makes. *)
Class OkSession `{MapOrder} (R : World -> World -> Prop) `{!Frame R} := {
  ok_db : forall n, okS R (setDB n);
  ok_name : forall n, okS R (setName n);
  ok_sub : forall c, okS R (addChannel c);
  ok_unsub : forall c, okS R (dropChannel c);
  ok_psub : forall p, okS R (addPattern p);
  ok_punsub : forall p, okS R (dropPattern p);
  ok_multi : forall b, okS R (setMulti b []);
  ok_unwatch : okS R (setWatched ∅);
  ok_watch : forall k v, okS R (fun s => setWatched (<[k := v]> (WatchedKeys s)) s) }.

#[export] Hint Resolve ok_db ok_name ok_sub ok_unsub ok_psub ok_punsub ok_multi ok_unwatch ok_watch : frame.

(** ** Looking a command up *)

Lemma Register_lookup l r name meta :
  fold_left Register l r !! name = Some meta ->
  (meta ∈ l /\ name = ToLower (c_Name (c_info meta))) \/ r !! name = Some meta.
Proof.
  revert r. induction l as [|x l IH]; intros r; simpl; [by right|]. intros [[? ?]|Hr]%IH.
  - left. split; [by right|done].
  - unfold Register in Hr. apply lookup_insert_Some in Hr as [[<- <-]|[_ ?]]; [|by right].
    left. split; [by left|done].
Qed.

Lemma Lookup_builtin `{MapOrder} `{Floats} exec name meta :
  Lookup (NewRegistry exec) name = Some meta ->
  meta ∈ builtins commandTable exec /\ ToLower name = ToLower (c_Name (c_info meta)).
Proof. intros [?|He]%Register_lookup; [done|]. by rewrite lookup_empty in He. Qed.

Section handlers.
Context `{MapOrder} `{Floats} (R : World -> World -> Prop) `{!Frame R} `{!GoodOps R} `{!OkSession R}.

(** ** Helpers *)

Lemma w_untilMs t : within R (untilMs t).
Proof. unfold untilMs. wsteps. Qed.
Lemma w_fromNow n u : within R (fromNow n u).
Proof. unfold fromNow. wsteps. Qed.
#[local] Hint Resolve w_untilMs w_fromNow : frame.

Lemma w_ReplicateSet k v t : within R (ReplicateSet k v t).
Proof. unfold ReplicateSet. wsteps. Qed.
#[local] Hint Resolve w_ReplicateSet : frame.

Lemma w_replicateSets kvs : within R (replicateSets kvs).
Proof. induction kvs as [|[k v] kvs IH]; simpl; wsteps. Qed.
Lemma w_replicateDels ks : within R (replicateDels ks).
Proof. induction ks as [|k ks IH]; simpl; unfold ReplicateDel; wsteps. Qed.
Lemma w_countHits vs : within R (countHits vs).
Proof. induction vs as [|v vs IH]; simpl; wsteps. Qed.
Lemma w_existingKeys ks acc : within R (existingKeys ks acc).
Proof. revert acc. induction ks as [|k ks IH]; intros acc; simpl; wsteps. Qed.
#[local] Hint Resolve w_replicateSets w_replicateDels w_countHits w_existingKeys : frame.

(** ** Strings *)

Lemma w_applySet k v t nx xx : within R (applySet k v t nx xx).
Proof. unfold applySet. wsteps. Qed.
Lemma w_setExpiry k o : within R (setExpiry k o).
Proof. unfold setExpiry. wsteps. Qed.
#[local] Hint Resolve w_applySet w_setExpiry : frame.

Lemma w_getExOpts_ind k n opts exp : (List.length opts <= n)%nat -> within R (getExOpts k opts exp).
Proof.
  revert opts exp. induction n as [|n IH]; intros opts exp Hn; (destruct opts as [|a rest]; [simpl; wsteps|]).
  { simpl in Hn. lia. }
  assert (forall exp, within R (getExOpts k rest exp)) as Hr1 by (intros; apply IH; simpl in Hn; lia).
  cbn [getExOpts]. cbv zeta. destruct rest as [|b rest].
  - unfold ReplicatePersist. wsteps.
  - assert (forall exp, within R (getExOpts k rest exp)) as Hr2 by (intros; apply IH; simpl in Hn; lia).
    unfold ReplicatePersist. wsteps.
Qed.
Lemma w_getExOpts k opts exp : within R (getExOpts k opts exp).
Proof. by eapply w_getExOpts_ind. Qed.
#[local] Hint Resolve w_getExOpts : frame.

Tactic Notation "cmd" smart_global(f) := intros; unfold f; wsteps.

Lemma w_Get args : within R (cmdGet args).
Proof. cmd cmdGet. unfold replyValue. wsteps. Qed.
Lemma w_Set args : within R (cmdSet args).
Proof. cmd cmdSet. Qed.
Lemma w_SetNX args : within R (cmdSetNX args).
Proof. cmd cmdSetNX. Qed.
Lemma w_setWithTTL name p u args : within R (setWithTTL name p u args).
Proof. cmd setWithTTL. Qed.
Lemma w_SetEX args : within R (cmdSetEX args).
Proof. unfold cmdSetEX. apply w_setWithTTL. Qed.
Lemma w_PSetEX args : within R (cmdPSetEX args).
Proof. unfold cmdPSetEX. apply w_setWithTTL. Qed.
Lemma w_GetSet args : within R (cmdGetSet args).
Proof. cmd cmdGetSet. Qed.
Lemma w_GetDel args : within R (cmdGetDel args).
Proof. cmd cmdGetDel; unfold ReplicateDel; wsteps. Qed.
Lemma w_GetEx args : within R (cmdGetEx args).
Proof. cmd cmdGetEx; unfold ReplicatePExpireAtUnixMs; wsteps. Qed.
Lemma w_MGet args : within R (cmdMGet args).
Proof. cmd cmdMGet. Qed.
Lemma w_MSet args : within R (cmdMSet args).
Proof. cmd cmdMSet. Qed.
Lemma w_MSetNX args : within R (cmdMSetNX args).
Proof. cmd cmdMSetNX. Qed.
Lemma w_Del args : within R (cmdDel args).
Proof. cmd cmdDel. Qed.
Lemma w_replyIncr p k r : within R (replyIncr p k r).
Proof. unfold replyIncr, failIncr. wsteps. Qed.
#[local] Hint Resolve w_replyIncr : frame.
Lemma w_doIncr d args : within R (doIncr d args).
Proof. cmd doIncr. Qed.
Lemma w_Incr args : within R (cmdIncr args).
Proof. unfold cmdIncr. apply w_doIncr. Qed.
Lemma w_Decr args : within R (cmdDecr args).
Proof. unfold cmdDecr. apply w_doIncr. Qed.
Lemma w_IncrBy args : within R (cmdIncrBy args).
Proof. cmd cmdIncrBy. Qed.
Lemma w_DecrBy args : within R (cmdDecrBy args).
Proof. cmd cmdDecrBy. Qed.
Lemma w_IncrByFloat args : within R (cmdIncrByFloat args).
Proof. cmd cmdIncrByFloat. Qed.
Lemma w_Append args : admits R (Append (argStr args 1) (arg args 2)) -> within R (cmdAppend args).
Proof. cmd cmdAppend. Qed.
Lemma w_StrLen args : within R (cmdStrLen args).
Proof. cmd cmdStrLen. Qed.
Lemma w_GetRange args : within R (cmdGetRange args).
Proof. cmd cmdGetRange. Qed.
Lemma w_SetRange args : within R (cmdSetRange args).
Proof. cmd cmdSetRange. Qed.

(** ** Hashes, lists and sets *)

Lemma w_hitIfHash k : within R (hitIfHash k).
Proof. cmd hitIfHash. Qed.
#[local] Hint Resolve w_hitIfHash : frame.
Lemma w_hsetWith name p reply args : (forall n, within R (reply n)) -> within R (hsetWith name p reply args).
Proof. cmd hsetWith; unfold ReplicateHash; wsteps. Qed.
Lemma w_HSet args : within R (cmdHSet args).
Proof. unfold cmdHSet. apply w_hsetWith. intros; wsteps. Qed.
Lemma w_HMSet args : within R (cmdHMSet args).
Proof. unfold cmdHMSet. apply w_hsetWith. intros; wsteps. Qed.
Lemma w_hmgetLoop k fs : within R (hmgetLoop k fs).
Proof. induction fs as [|f fs IH]; simpl; wsteps. Qed.
#[local] Hint Resolve w_hmgetLoop : frame.
Lemma w_HGet args : within R (cmdHGet args).
Proof. cmd cmdHGet. Qed.
Lemma w_HMGet args : within R (cmdHMGet args).
Proof. cmd cmdHMGet. Qed.
Lemma w_hashReply name p q show args : within R (hashReply name p q show args).
Proof. cmd hashReply. Qed.
Lemma w_HGetAll args : within R (cmdHGetAll args).
Proof. unfold cmdHGetAll. apply w_hashReply. Qed.
Lemma w_HKeys args : within R (cmdHKeys args).
Proof. unfold cmdHKeys. apply w_hashReply. Qed.
Lemma w_HVals args : within R (cmdHVals args).
Proof. unfold cmdHVals. apply w_hashReply. Qed.
Lemma w_HDel args : within R (cmdHDel args).
Proof. cmd cmdHDel; unfold ReplicateHDel; wsteps. Qed.
Lemma w_HExists args : within R (cmdHExists args).
Proof. cmd cmdHExists. Qed.
Lemma w_HLen args : within R (cmdHLen args).
Proof. cmd cmdHLen. Qed.
Lemma w_HIncrBy args : within R (cmdHIncrBy args).
Proof. cmd cmdHIncrBy; unfold ReplicateHash; wsteps. Qed.
Lemma w_HIncrByFloat args : within R (cmdHIncrByFloat args).
Proof. cmd cmdHIncrByFloat; unfold ReplicateHash; wsteps. Qed.
Lemma w_HSetNX args : within R (cmdHSetNX args).
Proof. cmd cmdHSetNX; unfold ReplicateHash; wsteps. Qed.

Lemma w_LPush args : within R (cmdLPush args).
Proof. cmd cmdLPush; unfold ReplicateListPush; wsteps. Qed.
Lemma w_RPush args : within R (cmdRPush args).
Proof. cmd cmdRPush; unfold ReplicateListPush; wsteps. Qed.
Lemma w_LPushX args : within R (cmdLPushX args).
Proof. cmd cmdLPushX; unfold ReplicateListPush; wsteps. Qed.
Lemma w_RPushX args : within R (cmdRPushX args).
Proof. cmd cmdRPushX; unfold ReplicateListPush; wsteps. Qed.
Lemma w_popCmd name p q pop rep args :
  (forall k n, admits R (pop k n)) -> (forall k n, within R (rep k n)) ->
  within R (popCmd name p q pop rep args).
Proof. cmd popCmd. Qed.
Lemma w_LPop args : within R (cmdLPop args).
Proof. apply w_popCmd; [eauto with frame|]. cmd ReplicateLPop. Qed.
Lemma w_RPop args : within R (cmdRPop args).
Proof. apply w_popCmd; [eauto with frame|]. cmd ReplicateRPop. Qed.
Lemma w_LLen args : within R (cmdLLen args).
Proof. cmd cmdLLen. Qed.
Lemma w_LIndex args : within R (cmdLIndex args).
Proof. cmd cmdLIndex. Qed.
Lemma w_LSet args : within R (cmdLSet args).
Proof. cmd cmdLSet; unfold ReplicateLSet; wsteps. Qed.
Lemma w_LRem args : within R (cmdLRem args).
Proof. cmd cmdLRem; unfold ReplicateLRem; wsteps. Qed.
Lemma w_LRange args : within R (cmdLRange args).
Proof. cmd cmdLRange. Qed.
Lemma w_LTrim args : within R (cmdLTrim args).
Proof. cmd cmdLTrim; unfold ReplicateLTrim; wsteps. Qed.
Lemma w_LInsert args : within R (cmdLInsert args).
Proof. cmd cmdLInsert; unfold ReplicateLInsert; wsteps. Qed.

Lemma w_SAdd args : within R (cmdSAdd args).
Proof. cmd cmdSAdd; unfold ReplicateSAdd; wsteps. Qed.
Lemma w_SRem args : within R (cmdSRem args).
Proof. cmd cmdSRem; unfold ReplicateSRem; wsteps. Qed.
Lemma w_SMembers args : within R (cmdSMembers args).
Proof. cmd cmdSMembers. Qed.
Lemma w_SIsMember args : within R (cmdSIsMember args).
Proof. cmd cmdSIsMember. Qed.
Lemma w_SCard args : within R (cmdSCard args).
Proof. cmd cmdSCard. Qed.
Lemma w_sortedMembers st : within R (sortedMembers st).
Proof. cmd sortedMembers. Qed.
Lemma w_unionLoop ks st : within R (unionLoop ks st).
Proof. revert st. induction ks as [|k ks IH]; intros st; simpl; wsteps. Qed.
Lemma w_interLoop ks st : within R (interLoop ks st).
Proof. revert st. induction ks as [|k ks IH]; intros st; simpl; wsteps. Qed.
Lemma w_diffLoop ks st : within R (diffLoop ks st).
Proof. revert st. induction ks as [|k ks IH]; intros st; simpl; wsteps. Qed.
#[local] Hint Resolve w_sortedMembers w_unionLoop w_interLoop w_diffLoop : frame.
Lemma w_unionMembers ks : within R (unionMembers ks).
Proof. cmd unionMembers. Qed.
Lemma w_interMembers ks : within R (interMembers ks).
Proof. cmd interMembers. Qed.
Lemma w_diffMembers ks : within R (diffMembers ks).
Proof. cmd diffMembers. Qed.
#[local] Hint Resolve w_unionMembers w_interMembers w_diffMembers : frame.
Lemma w_algebra name p f args : (forall ks, within R (f ks)) -> within R (algebra name p f args).
Proof. cmd algebra. Qed.
Lemma w_SUnion args : within R (cmdSUnion args).
Proof. unfold cmdSUnion. apply w_algebra. eauto with frame. Qed.
Lemma w_SInter args : within R (cmdSInter args).
Proof. unfold cmdSInter. apply w_algebra. eauto with frame. Qed.
Lemma w_SDiff args : within R (cmdSDiff args).
Proof. unfold cmdSDiff. apply w_algebra. eauto with frame. Qed.
Lemma w_algebraStore name p f args : (forall ks, within R (f ks)) -> within R (algebraStore name p f args).
Proof. cmd algebraStore; unfold ReplicateReplaceSet; wsteps. Qed.
Lemma w_SUnionStore args : within R (cmdSUnionStore args).
Proof. unfold cmdSUnionStore. apply w_algebraStore. eauto with frame. Qed.
Lemma w_SInterStore args : within R (cmdSInterStore args).
Proof. unfold cmdSInterStore. apply w_algebraStore. eauto with frame. Qed.
Lemma w_SDiffStore args : within R (cmdSDiffStore args).
Proof. unfold cmdSDiffStore. apply w_algebraStore. eauto with frame. Qed.

(** ** Keys *)

Lemma w_Exists args : within R (cmdExists args).
Proof. cmd cmdExists. Qed.
Lemma w_Type args : within R (cmdType args).
Proof. cmd cmdType. Qed.
Lemma w_TTL args : within R (cmdTTL args).
Proof. cmd cmdTTL. Qed.
Lemma w_PTTL args : within R (cmdPTTL args).
Proof. cmd cmdPTTL. Qed.
Lemma w_replyChanged p rep r : within R rep -> within R (replyChanged p rep r).
Proof. cmd replyChanged. Qed.
#[local] Hint Resolve w_replyChanged w_Replicate : frame.
Lemma w_Expire args : within R (cmdExpire args).
Proof. cmd cmdExpire. Qed.
Lemma w_ExpireAt args : within R (cmdExpireAt args).
Proof. cmd cmdExpireAt. Qed.
Lemma w_PExpire args : within R (cmdPExpire args).
Proof. cmd cmdPExpire. Qed.
Lemma w_PExpireAt args : within R (cmdPExpireAt args).
Proof. cmd cmdPExpireAt. Qed.
Lemma w_Persist args : within R (cmdPersist args).
Proof. cmd cmdPersist. Qed.
Lemma w_Rename args : (forall a b, admits R (Rename a b)) -> within R (cmdRename args).
Proof. cmd cmdRename; unfold ReplicateRename; wsteps. Qed.
Lemma w_RenameNX args : (forall a b, admits R (RenameNX a b)) -> within R (cmdRenameNX args).
Proof. cmd cmdRenameNX. Qed.
Lemma w_Select args : within R (cmdSelect args).
Proof. cmd cmdSelect. Qed.
Lemma w_Keys args : within R (cmdKeys args).
Proof. cmd cmdKeys. Qed.
Lemma w_Scan args : within R (cmdScan args).
Proof. cmd cmdScan. Qed.
Lemma w_RandomKey args : within R (cmdRandomKey args).
Proof. cmd cmdRandomKey. Qed.
Lemma w_DBSize args : within R (cmdDBSize args).
Proof. cmd cmdDBSize. Qed.

(** ** Server, pub/sub and transactions *)

Lemma w_Ping args : within R (cmdPing args).
Proof. cmd cmdPing. Qed.
Lemma w_Echo args : within R (cmdEcho args).
Proof. cmd cmdEcho. Qed.
Lemma w_Auth args : okS R (setAuth true) -> within R (cmdAuth args).
Proof. cmd cmdAuth. Qed.
Lemma w_Time args : within R (cmdTime args).
Proof. cmd cmdTime. Qed.
Lemma w_Client args : within R (cmdClient args).
Proof. cmd cmdClient. Qed.
Lemma w_section s n b : within R b -> within R (section s n b).
Proof. cmd section. Qed.
Lemma w_Info args : within R (cmdInfo args).
Proof.
  cmd cmdInfo; apply w_section; unfold infoServer, infoClients, infoStats, infoReplication, infoMemory, infoKeyspace;
    wsteps.
Qed.
Lemma w_flush o args : admits R FlushDB -> within R (flushClusterDB o args).
Proof. cmd flushClusterDB. Qed.
Lemma w_FlushAll args : admits R FlushDB -> within R (cmdFlushAll args).
Proof. unfold cmdFlushAll. apply w_flush. Qed.
Lemma w_FlushDB args : admits R FlushDB -> within R (cmdFlushDB args).
Proof. unfold cmdFlushDB. apply w_flush. Qed.
Lemma w_subscription kind ch fs fm : okS R fs -> within R (subscription kind ch fs fm).
Proof. cmd subscription; [apply (w_manager R)|]. cmd writeSubscribeAck. Qed.
Lemma w_eachChannel f chs : (forall ch, within R (f ch)) -> within R (eachChannel f chs).
Proof. intros Hf. induction chs as [|ch chs IH]; simpl; wsteps. Qed.
#[local] Hint Resolve w_subscription w_eachChannel : frame.
Lemma w_Subscribe args : within R (cmdSubscribe args).
Proof. cmd cmdSubscribe. Qed.
Lemma w_PSubscribe args : within R (cmdPSubscribe args).
Proof. cmd cmdPSubscribe. Qed.
Lemma w_Unsubscribe args : within R (cmdUnsubscribe args).
Proof. cmd cmdUnsubscribe. Qed.
Lemma w_PUnsubscribe args : within R (cmdPUnsubscribe args).
Proof. cmd cmdPUnsubscribe. Qed.
Lemma w_Publish args : within R (cmdPublish args).
Proof. cmd cmdPublish; unfold Publish; wsteps. Qed.
Lemma w_Command tbl args : within R (cmdCommand tbl args).
Proof. cmd cmdCommand; unfold writeCommandFullList, writeCommandInfoNames; wsteps. Qed.
Lemma w_Multi args : within R (cmdMulti args).
Proof. cmd cmdMulti. Qed.
Lemma w_Discard args : within R (cmdDiscard args).
Proof. cmd cmdDiscard. Qed.
Lemma w_watchLoop ks : within R (watchLoop ks).
Proof. induction ks as [|k ks IH]; simpl; wsteps. Qed.
#[local] Hint Resolve w_watchLoop : frame.
Lemma w_Watch args : within R (cmdWatch args).
Proof. cmd cmdWatch. Qed.
Lemma w_Unwatch args : within R (cmdUnwatch args).
Proof. cmd cmdUnwatch. Qed.
Lemma w_watchAborted kvs : within R (watchAborted kvs).
Proof. induction kvs as [|[k v] kvs IH]; simpl; wsteps. Qed.
#[local] Hint Resolve w_watchAborted : frame.
Lemma w_execLoop dispatch queue :
  Forall (fun v => within R (dispatch v)) queue -> within R (execLoop dispatch queue).
Proof.
  induction 1 as [|v queue Hv Hq IH]; cbn [execLoop]; [wsteps|].
  unfold execOne. wsteps; apply Hv.
Qed.

(** ** The registry *)

(** What a command needs of the frame beyond the classes. *)
Definition cmdOk (name : string) (args : list slice) : Prop :=
  if (name =? "append")%string then admits R (Append (argStr args 1) (arg args 2))
  else if (name =? "rename")%string then forall a b, admits R (Rename a b)
  else if (name =? "renamenx")%string then forall a b, admits R (RenameNX a b)
  else if (name =? "flushdb")%string || (name =? "flushall")%string then admits R FlushDB
  else if (name =? "auth")%string then okS R (setAuth true)
  else True.

Definition valueOk (v : Value) : Prop :=
  forall a rest, ValueToArgs v = inr (a :: rest) -> cmdOk (ToLower (sbytes a)) (a :: rest).

(** The frame may suppose that the queued commands are fine. *)
Context (guarded : forall w w', (Forall valueOk (MultiQueue (w_sess w)) -> R w w') -> R w w').

Lemma w_queue {A} (f : Session -> H A) :
  (forall s, Forall valueOk (MultiQueue s) -> within R (f s)) -> within R (s ← getw w_sess; f s).
Proof. intros Hf w r w' Heq. apply guarded. intros Hq. by eapply (Hf _ Hq). Qed.

Lemma w_Exec dispatch args :
  (forall v, valueOk v -> within R (dispatch v)) -> within R (cmdExec dispatch args).
Proof.
  intros Hd. unfold cmdExec. destruct (argsNe args 1); [wsteps|]. apply w_queue. intros s Hq. wsteps.
  apply w_execLoop. eapply Forall_impl; [exact Hq|done].
Qed.

(** [covers l]: the commands of [l] stay within the frame. *)
Definition covers (l : list CommandMeta) : Prop :=
  Forall (fun meta => forall args,
    cmdOk (ToLower (c_Name (c_info meta))) args -> within R (c_Handler meta args)) l.

Tactic Notation "covered" tactic(tac) := apply Forall_cons; split; [intros args Hok; tac|].

Lemma covers_String : covers (registerStringCommands).
Proof.
  covered apply w_Get. covered apply w_Set. covered apply w_SetNX. covered apply w_SetEX.
  covered apply w_PSetEX. covered apply w_GetSet. covered apply w_GetDel. covered apply w_GetEx.
  covered apply w_MGet. covered apply w_MSet. covered apply w_MSetNX. covered apply w_Del.
  covered apply w_Incr. covered apply w_Decr. covered apply w_IncrBy. covered apply w_DecrBy.
  covered apply w_IncrByFloat. covered by apply w_Append. covered apply w_StrLen.
  covered apply w_GetRange. covered apply w_SetRange. apply Forall_nil_2.
Qed.

Lemma covers_Hash : covers (registerHashCommands).
Proof.
  covered apply w_HSet. covered apply w_HMSet. covered apply w_HGet. covered apply w_HMGet.
  covered apply w_HGetAll. covered apply w_HDel. covered apply w_HExists. covered apply w_HLen.
  covered apply w_HKeys. covered apply w_HVals. covered apply w_HIncrBy.
  covered apply w_HIncrByFloat. covered apply w_HSetNX. apply Forall_nil_2.
Qed.

Lemma covers_List : covers (registerListCommands).
Proof.
  covered apply w_LPush. covered apply w_RPush. covered apply w_LPushX. covered apply w_RPushX.
  covered apply w_LPop. covered apply w_RPop. covered apply w_LLen. covered apply w_LIndex.
  covered apply w_LSet. covered apply w_LRem. covered apply w_LRange. covered apply w_LTrim.
  covered apply w_LInsert. apply Forall_nil_2.
Qed.

Lemma covers_Set : covers (registerSetCommands).
Proof.
  covered apply w_SAdd. covered apply w_SRem. covered apply w_SMembers.
  covered apply w_SIsMember. covered apply w_SCard. covered apply w_SUnion.
  covered apply w_SUnionStore. covered apply w_SInter. covered apply w_SInterStore.
  covered apply w_SDiff. covered apply w_SDiffStore. apply Forall_nil_2.
Qed.

Lemma covers_Generic : covers (registerGenericCommands).
Proof.
  covered apply w_Exists. covered apply w_Type. covered apply w_TTL. covered apply w_PTTL.
  covered apply w_Expire. covered apply w_ExpireAt. covered apply w_PExpire.
  covered apply w_PExpireAt. covered apply w_Persist. covered apply w_Keys. covered apply w_Scan.
  covered by apply w_Rename. covered by apply w_RenameNX. covered apply w_RandomKey.
  covered apply w_Select. covered apply w_DBSize. apply Forall_nil_2.
Qed.

Lemma covers_Server tbl : covers (registerServerCommands tbl).
Proof.
  covered apply w_Ping. covered apply w_Echo. covered by apply w_Auth. covered apply w_Info.
  covered by apply w_FlushDB. covered by apply w_FlushAll. covered apply w_Time.
  covered apply w_Client. covered apply w_Command. apply Forall_nil_2.
Qed.

Lemma covers_PubSub : covers (registerPubSubCommands).
Proof.
  covered apply w_Subscribe. covered apply w_PSubscribe. covered apply w_Unsubscribe.
  covered apply w_PUnsubscribe. covered apply w_Publish. apply Forall_nil_2.
Qed.

Lemma covers_builtins tbl exec : (forall args, within R (exec args)) -> covers (builtins tbl exec).
Proof.
  intros He. unfold covers, builtins. rewrite !Forall_app.
  split_and!; [apply covers_String|apply covers_Hash|apply covers_List|apply covers_Set|apply covers_Generic
    |apply covers_Server|apply covers_PubSub|].
  covered apply w_Multi. covered apply He. covered apply w_Discard. covered apply w_Watch. covered apply w_Unwatch.
  apply Forall_nil_2.
Qed.

(** A dispatched command stays within the frame, the commands an EXEC runs included. *)
Lemma Dispatch_within depth v : valueOk v -> within R (Dispatch depth v).
Proof.
  revert v. induction depth as [|depth IH]; intros v Hv; cbn [Dispatch]; cbv zeta;
    (destruct (ValueToArgs v) as [err|[|a rest]] eqn:Ev; [wsteps|wsteps|]);
    (destruct (Lookup _ _) as [meta|] eqn:El; [|wsteps]);
    (destruct (if _ =? 0 then _ else _); [wsteps|]);
    apply Lookup_builtin in El as [Hin Hname].
  - eapply (proj1 (Forall_forall _ _) (covers_builtins _ _ _)); [exact Hin|]. rewrite <- Hname. by apply Hv.
    Unshelve. intros args. apply w_Exec. intros v' _. wsteps.
  - eapply (proj1 (Forall_forall _ _) (covers_builtins _ _ _)); [exact Hin|]. rewrite <- Hname. by apply Hv.
    Unshelve. intros args. by apply w_Exec.
Qed.
End handlers.

(** ** The command table: a registered command is found under its name *)

Definition lowerName (meta : CommandMeta) : string := ToLower (c_Name (c_info meta)).

Lemma Register_other l r name :
  Forall (fun meta => lowerName meta <> name) l -> fold_left Register l r !! name = r !! name.
Proof.
  intros Hl. revert r. induction Hl as [|x l Hx Hl IH]; intros r; simpl; [done|].
  rewrite IH. unfold Register. by apply lookup_insert_ne.
Qed.

Lemma Register_member l r meta :
  NoDup (map lowerName l) -> meta ∈ l -> fold_left Register l r !! lowerName meta = Some meta.
Proof.
  revert r. induction l as [|x l IH]; intros r Hnd Hin; [by apply not_elem_of_nil in Hin|].
  apply NoDup_cons in Hnd as [Hx Hnd]. simpl. apply elem_of_cons in Hin as [->|Hin]; [|by apply IH].
  rewrite Register_other; [unfold Register; apply lookup_insert_eq|].
  apply Forall_forall. intros y Hy Heq. apply Hx. rewrite <- Heq. apply list_elem_of_fmap. eauto.
Qed.

Section table.
Context `{MapOrder} `{Floats}.

(** No name is registered twice. *)
Lemma builtins_NoDup tbl exec : NoDup (map lowerName (builtins tbl exec)).
Proof. apply (bool_decide_eq_true_1 _). vm_compute. reflexivity. Qed.

Lemma Lookup_member exec meta name :
  meta ∈ builtins commandTable exec -> ToLower name = lowerName meta ->
  Lookup (NewRegistry exec) name = Some meta.
Proof. intros Hin Hn. unfold Lookup. rewrite Hn. apply Register_member; [apply builtins_NoDup|done]. Qed.

(** What EXEC runs for the queued commands. *)
Definition nestedDispatch (depth : nat) : Value -> H (option error) :=
  match depth with
  | O => fun _ => mret (Some (New "out of fuel"))
  | S depth => Dispatch depth
  end.

(** Dispatching a registered command with an admissible number of arguments runs its handler. *)
Lemma Dispatch_member depth v meta a rest :
  ValueToArgs v = inr (a :: rest) ->
  meta ∈ builtins commandTable (cmdExec (nestedDispatch depth)) -> ToLower (sbytes a) = lowerName meta ->
  (if c_Arity (c_info meta) =? 0 then None else CheckArity (c_info meta) (a :: rest)) = None ->
  Dispatch depth v = c_Handler meta (a :: rest).
Proof.
  intros Hv Hin Hn Ha. pose proof (Lookup_member _ _ _ Hin Hn) as Hl.
  destruct depth; cbn [Dispatch]; cbv zeta; rewrite Hv; unfold nestedDispatch in Hl; rewrite Hl, Ha; done.
Qed.
End table.
