(* ===== verification/ConnInv.v ===== *)
(** * Invariants of the store under client connections.

    Whatever a client sends, with other goroutines running wherever a handler holds no lock, the
    invariants of the store survive: the commands add nothing to the calls they make. *)

From S2P Require Import Prelude GoInt GoStr GoTime GoSort Resp RespSpec Config StoreBase Eviction.
From S2P Require Import StoreString StoreHash StoreList StoreSet StoreKeys StoreOps StoreHoare StoreView.
From S2P Require Import StoreInvOps StoreWf StoreExec StoreWatch Session Repl CmdBase CmdString CmdHash CmdList.
From S2P Require Import CmdSet CmdGeneric CmdServer CmdTxn Conn CmdFrame CmdWithin.

(** ** Connections within a frame *)

(** The values a connection will parse from its input. *)
Inductive commandOf : stream -> Value -> Prop :=
  | commandOf_now s v s' : Parse s = Some (inr v, s') -> commandOf s v
  | commandOf_later s v s' v' : Parse s = Some (inr v, s') -> commandOf s' v' -> commandOf s v'.

Section conn.
Context `{MapOrder} `{Floats} (R : World -> World -> Prop) `{!Frame R} `{!GoodOps R} `{!OkSession R}.
Context (guarded : forall w w', (Forall (valueOk R) (MultiQueue (w_sess w)) -> R w w') -> R w w').

Lemma w_dispatch cfg v : valueOk R v -> okS R (enqueue v) -> within R (dispatch cfg v).
Proof.
  intros Hv Hq. pose proof (Dispatch_within R guarded 2 v Hv) as Hd.
  unfold dispatch, writeErrStr, writeQueued, registryDispatch. wsteps.
Qed.

Lemma w_serveLoop turns input n :
  (forall v, commandOf input v -> valueOk R v /\ okS R (enqueue v)) ->
  (forall now, okS R (counted1 now)) -> within R (serveLoop turns input n).
Proof.
  intros Hin Hc. revert input n Hin. induction turns as [|t turns IH]; intros input n Hin; cbn [serveLoop]; [wsteps|].
  destruct (t_done t); [wsteps|]. destruct (Parse input) as [[[err|v] rest]|] eqn:Ep; [wsteps| |wsteps].
  destruct (Hin v) as [Hv Hq]; [by eapply commandOf_now|].
  assert (forall n, within R (serveLoop turns rest n)) as Hrest.
  { intros m. apply IH. intros v' Hv'. apply Hin. by eapply commandOf_later. }
  pose proof (w_dispatch (t_cfg t) v Hv Hq). unfold finishCommand, onStats. wsteps; apply (w_info_ R).
Qed.

Lemma w_serveConn turns input :
  (forall v, commandOf input v -> valueOk R v /\ okS R (enqueue v)) ->
  (forall now, okS R (counted1 now)) -> within R (serveConn turns input).
Proof.
  intros Hin Hc. unfold serveConn, onStats. pose proof (w_serveLoop turns input 0 Hin Hc).
  wsteps; first [apply (w_info_ R)|apply (w_manager R)].
Qed.
End conn.

(** ** The frame of an invariant *)

Section invariant.
Context `{MapOrder} `{Floats} (I : Store -> Prop) `{!LooseInv I}.
(** Nobody else creates the keys [A]; [ren] says that [I] survives what drops keys or versions
    without a count. *)
Context (A : string -> Prop) (ren : Prop) (Hren : ren -> QuietInv I).

Definition stOk (st : St) : Prop :=
  I (db st) /\ stable I (env st) /\ forall k, A k -> stable (fun s => I s /\ find s k = None) (env st).

(** The commands covered: APPEND on keys of [A] only, RENAME, RENAMENX and the flushes if [ren]. *)
Definition safe (v : Value) : Prop :=
  forall a rest, ValueToArgs v = inr (a :: rest) ->
  let name := ToLower (sbytes a) in
  (name = "append"%string -> A (argStr (a :: rest) 1)) /\
  (name ∈ ["rename"; "renamenx"; "flushdb"; "flushall"]%string -> ren).

Definition invFrame (w w' : World) : Prop :=
  stOk (w_st w) -> Forall safe (MultiQueue (w_sess w)) ->
  stOk (w_st w') /\ Forall safe (MultiQueue (w_sess w')) /\ fewer (env (w_st w)) (env (w_st w')).

Lemma stOk_fewer st st' : stOk st -> I (db st') -> fewer (env st) (env st') -> stOk st'.
Proof. intros (HI1 & HI2 & HI3) HI Hf. split_and!; [done|by eapply stable_fewer|]. intros k Hk. eapply stable_fewer; eauto. Qed.

#[global] Instance invFrame_pre : PreOrder invFrame.
Proof.
  split; [intros w Hs Hq; by split_and!|]. intros w1 w2 w3 H12 H23 Hs Hq. destruct (H12 Hs Hq) as (Hs2 & Hq2 & Hf2).
  destruct (H23 Hs2 Hq2) as (Hs3 & Hq3 & Hf3). split_and!; [done..|by etransitivity].
Qed.

Definition keeps {B} (m : M B) : Prop :=
  forall st, stOk st -> stOk (snd (m st)) /\ fewer (env st) (env (snd (m st))).

Lemma keeps_hoare {B} (m : M B) : hoare I (fun _ => True) m T -> keeps m.
Proof.
  intros Hm st Hs. destruct (m st) as [b st'] eqn:E. pose proof Hs as (HI1 & HI2 & HI3).
  destruct (Hm _ _ _ E HI1 HI2 Logic.I) as (? & ? & _). split; [by eapply stOk_fewer|done].
Qed.

#[global] Instance invFrame_frame : Frame invFrame.
Proof.
  refine {| admits := @keeps; okS f := forall s, Forall safe (MultiQueue s) -> Forall safe (MultiQueue (f s)) |};
    try (intros; intros Hs Hq; by split_and!).
  - intros B m w Hm Hs Hq. destruct (Hm _ Hs). by split_and!.
  - intros B m Hm st Hs. unfold mbind, M_bind. pose proof Hs as (HI1 & HI2 & HI3). destruct (yield st) as [[] st1] eqn:E.
    destruct (h_yield I (fun _ => True) _ _ _ E HI1 HI2 Logic.I) as (HI & Hf & _).
    destruct (Hm st1) as [? ?]; [by eapply stOk_fewer|]. split; [done|by etransitivity].
  - apply keeps_hoare. eapply h_weaken; [apply h_now|done|done].
  - intros n. apply keeps_hoare. eapply h_weaken; [apply h_intn|done|done].
  - intros B l. apply keeps_hoare. eapply h_weaken; [apply h_ranged|done|done].
  - intros w f Hf Hs Hq. split_and!; [done|by apply Hf|done].
Defined.

Lemma h_HIncrByFloat k f n P :
  hoare I P (HIncrByFloat fzero fadd ParseFloat FormatFloat k f n) T.
Proof.
  apply h_hash_write; [apply _|]. intros old h Hh. destruct (readFloat _ _ _) as [err|cur]; [by apply h_ret|].
  apply h_storeHash; [apply _|]. apply value_wf_insert; [done|]. unfold slice_wf, cloneBytes. simpl.
  pose proof (FormatFloat_nonempty (fadd cur n)). by destruct (FormatFloat _).
Qed.

#[global] Instance invFrame_ops : GoodOps invFrame.
Proof.
  split; intros; apply keeps_hoare; try h_op I.
  - apply h_incrBy, _.
  - apply h_incrBy, _.
  - apply h_HIncrByFloat.
  - apply h_popWith; [apply _|]. intros; by apply popLoop_wf.
  - apply h_popWith; [apply _|]. intros; by apply popBack_wf.
  - apply h_LRem, _.
Qed.

#[global] Instance invFrame_session : OkSession invFrame.
Proof. split; intros; intros s Hs; done. Qed.

Lemma safe_ok v : safe v -> valueOk invFrame v.
Proof.
  intros Hv a rest Ev. destruct (Hv a rest Ev) as [Ha Hr]. unfold cmdOk. cbv zeta in Ha, Hr.
  revert Ha Hr. generalize (ToLower (sbytes a)) as name. intros name Ha Hr.
  destruct (name =? "append")%string eqn:E1; [|destruct (name =? "rename")%string eqn:E2;
    [|destruct (name =? "renamenx")%string eqn:E3; [|destruct (_ || _) eqn:E4; [|destruct (name =? "auth")%string; [by intros s|done]]]]].
  - zify_bool. intros st Hs. pose proof Hs as (HI1 & HI2 & HI3). destruct (Append _ _ st) as [r st'] eqn:E.
    destruct (append_keeps I _ _ _ _ _ E HI1 HI2 (HI3 _ (Ha E1))) as [? ?]. split; [by eapply stOk_fewer|done].
  - zify_bool. intros a' b'. apply keeps_hoare. apply h_Rename; [apply _|]. apply Hren, Hr. subst. set_solver.
  - zify_bool. intros a' b'. apply keeps_hoare. apply h_RenameNX; [apply _|]. apply Hren, Hr. subst. set_solver.
  - apply keeps_hoare. apply h_FlushDB; [apply _|]. apply Hren, Hr.
    apply orb_true_iff in E4 as [E4|E4]; zify_bool; subst; set_solver.
Qed.

Lemma invFrame_guarded w w' :
  (Forall (valueOk invFrame) (MultiQueue (w_sess w)) -> invFrame w w') -> invFrame w w'.
Proof. intros Hr Hs Hq. apply Hr; [|done|done]. eapply Forall_impl; [exact Hq|apply safe_ok]. Qed.

Lemma safe_admitted input :
  (forall v, commandOf input v -> safe v) ->
  forall v, commandOf input v -> valueOk invFrame v /\ okS invFrame (enqueue v).
Proof.
  intros Hin v Hv. split; [by apply safe_ok, Hin|]. intros s Hs. unfold enqueue. simpl.
  apply Forall_app. split; [done|]. constructor; [by apply Hin|done].
Qed.

(** The loop of a connection, and a whole connection, keep the invariant. *)
Lemma serveLoop_keeps turns input n w r w' :
  (forall v, commandOf input v -> safe v) -> serveLoop turns input n w = (r, w') -> invFrame w w'.
Proof.
  intros Hin Heq. eapply (w_serveLoop invFrame invFrame_guarded turns input); [|by intros now s|exact Heq].
  by apply safe_admitted.
Qed.
Lemma serveConn_keeps turns input w r w' :
  (forall v, commandOf input v -> safe v) -> serveConn turns input w = (r, w') -> invFrame w w'.
Proof.
  intros Hin Heq. eapply (w_serveConn invFrame invFrame_guarded turns input); [|by intros now s|exact Heq].
  by apply safe_admitted.
Qed.
End invariant.
