(* ===== verification/CmdReply.v ===== *)
(** * Replies: a command writes exactly one RESP value. *)

From S2P Require Import Prelude GoInt GoStr GoTime GoSort Resp RespSpec Config StoreBase Eviction.
From S2P Require Import StoreString StoreHash StoreList StoreSet StoreKeys Session Repl CmdBase CmdString CmdHash.
From S2P Require Import CmdList CmdSet CmdGeneric CmdServer CmdTxn Conn CmdFrame CmdWithin.

(** Values whose encoding can be cut out of a stream again: a line holds no CR. *)
Inductive sane : Value -> Prop :=
  | sane_simple s : sall notCR s = true -> sane (vSimple s)
  | sane_error s : sall notCR s = true -> sane (vError s)
  | sane_int n : sane (vInt n)
  | sane_bulk s : sane (vBulk s)
  | sane_null : sane vNullBulk
  | sane_nullarr : sane vNullArr
  | sane_arr l : Forall sane l -> sane (vArr l).
#[export] Hint Constructors sane : cache.

Lemma wire_sane v : wire v = true -> sane v.
Proof.
  induction v as [t s n l b IH] using Value_nested_ind. intros Hw.
  apply wire_cases in Hw as [(s' & Hs & [Hv|Hv])|[(n' & _ & Hv)|[Hv|[Hv|[(s' & _ & Hv)|(l' & _ & Hl & Hv)]]]]];
    rewrite Hv in *; try constructor.
  - unfold lineOk in Hs. by zify_bool.
  - unfold lineOk in Hs. by zify_bool.
  - injection Hv as -> -> -> -> ->. apply forallb_Forall in Hl. clear -IH Hl.
    induction IH; inversion Hl; subst; constructor; auto.
Qed.

Lemma WriteValue_sane v w : sane v -> WriteValue w v = (w +++ encode v, None).
Proof.
  revert w. induction v as [t s n l b IH] using Value_nested_ind. intros w Hs. inversion Hs; subst; unfold encode; try done.
  - cbn [WriteValue Ascii.eqb Bool.eqb]. by rewrite !WriteBulk_Some.
  - cbn [WriteValue Ascii.eqb Bool.eqb]. unfold writeArrayHeader.
    match goal with Hl : Forall sane l |- _ => rename Hl into Hl0 end.
    assert (Forall (fun v => forall w, WriteValue w v = (w +++ encode v, None)) l) as HF.
    { clear -IH Hl0. induction IH; inversion Hl0; subst; constructor; auto. }
    rewrite !writeElems_wire by done. simpl. repeat (rewrite !sapp_assoc; simpl). done.
Qed.

(** ** Programs that write nothing, and programs that answer *)

Definition silent {A} (m : H A) : Prop :=
  forall w a w', m w = (Val a, w') -> w_out w' = w_out w.

(** With no error one value has been written, with an error nothing has. *)
Definition answers (m : H (option error)) : Prop :=
  forall w r w', m w = (Val r, w') ->
  match r with
  | None => exists v, sane v /\ w_out w' = w_out w +++ encode v
  | Some _ => w_out w' = w_out w
  end.

Lemma s_ret {A} (a : A) : silent (mret a).
Proof. by intros w b w' [= _ <-]. Qed.

Lemma s_bind {A B} (m : H A) (f : A -> H B) : silent m -> (forall a, silent (f a)) -> silent (m ≫= f).
Proof.
  intros Hm Hf w b w' Heq. unfold mbind, H_bind in Heq. destruct (m w) as [[a| |] w1] eqn:E; [|done..].
  rewrite (Hf _ _ _ _ Heq). by eapply Hm.
Qed.

Lemma s_getw {A} (f : World -> A) : silent (getw f).
Proof. by intros w b w' [= _ <-]. Qed.
Lemma s_pureM {A} (m : M A) : silent (pureM m).
Proof. intros w b w' Heq. unfold pureM in Heq. destruct (m (w_st w)). by simplify_eq. Qed.
Lemma s_call {A} (m : M A) : silent (call m).
Proof. apply s_pureM. Qed.
Lemma s_callOut {A} (m : M (outcome A)) : silent (callOut m).
Proof. apply s_bind; [apply s_call|]. intros [a|]; [apply s_ret|]. by intros w b w'. Qed.
Lemma s_stop {A} : silent (crash (A := A)) /\ silent (stuck (A := A)).
Proof. split; by intros w b w'. Qed.
Lemma s_session f : silent (onSession f).
Proof. by intros w b w' [= _ <-]. Qed.
Lemma s_Replicate p : silent (Replicate p).
Proof. by intros w b w' [= _ <-]. Qed.
Lemma s_hit n : silent (keyspaceHit n).
Proof. unfold keyspaceHit. destruct (_ <=? _); by intros w b w' [= _ <-]. Qed.
Lemma s_miss n : silent (keyspaceMiss n).
Proof. unfold keyspaceMiss. destruct (_ <=? _); by intros w b w' [= _ <-]. Qed.
Lemma s_cfg c : silent (modw (setCfg c)).
Proof. by intros w b w' [= _ <-]. Qed.
Lemma s_manager f : silent (modw (fun w => setManager (f w) w)).
Proof. by intros w b w' [= _ <-]. Qed.
Lemma s_pushed l : silent (modw (addPushed l)).
Proof. by intros w b w' [= _ <-]. Qed.

Lemma a_bind {A} (m : H A) (f : A -> H (option error)) :
  silent m -> (forall a, answers (f a)) -> answers (m ≫= f).
Proof.
  intros Hm Hf w r w' Heq. unfold mbind, H_bind in Heq. destruct (m w) as [[a| |] w1] eqn:E; [|done..].
  pose proof (Hf _ _ _ _ Heq) as Ha. by rewrite (Hm _ _ _ E) in Ha.
Qed.

Lemma a_error e : answers (mret (Some e)).
Proof. by intros w r w' [= <- <-]. Qed.
Lemma a_stop : answers crash /\ answers stuck.
Proof. split; by intros w r w'. Qed.

Lemma a_emit p f v :
  sane v -> (forall w, f w = (w +++ encode v, None)) -> answers (emit p f).
Proof.
  intros Hv Hf w r w' Heq. unfold emit in Heq. rewrite Hf in Heq. simplify_eq. simpl. by exists v.
Qed.

Lemma a_err msg : sall notCR msg = true -> answers (writeErr msg).
Proof. intros Hm. by apply (a_emit _ _ (vError msg)); [constructor|]. Qed.
Lemma a_simple s : sall notCR s = true -> answers (writeSimple s).
Proof. intros Hm. by apply (a_emit _ _ (vSimple s)); [constructor|]. Qed.
Lemma a_OK : answers writeOK.
Proof. by apply a_simple. Qed.
Lemma a_nil : answers writeBulkNil.
Proof. by apply (a_emit _ _ vNullBulk); [constructor|]. Qed.
Lemma a_bulk b : answers (writeBulk b).
Proof.
  destruct b as [s|]; [|apply a_nil]. apply (a_emit _ _ (vBulk s)); [constructor|]. intros w.
  rewrite WriteBulk_Some. unfold encode. cbn [WriteValue vBulk Ascii.eqb Bool.eqb]. by rewrite WriteBulk_Some.
Qed.
Lemma a_int n : answers (writeInt n).
Proof. by apply (a_emit _ _ (vInt n)); [constructor|]. Qed.
Lemma a_arr p l : Forall sane l -> answers (writeArr p l).
Proof.
  intros Hl. apply (a_emit _ _ (vArr l)); [by constructor|]. intros w.
  exact (WriteValue_sane (vArr l) w (sane_arr _ Hl)).
Qed.
Lemma a_null p : answers (emit p WriteNull).
Proof. by apply (a_emit _ _ vNullArr); [constructor|]. Qed.

Lemma sane_bulks {A} (f : A -> string) l : Forall sane (map (fun a => vBulk (f a)) l).
Proof. induction l; simpl; auto with cache. Qed.
Lemma sane_map {A} (f : A -> Value) l : (forall a, sane (f a)) -> Forall sane (map f l).
Proof. intros Hf. induction l; simpl; auto. Qed.
Lemma sane_bulkOrNull v : sane (bulkOrNull v).
Proof. destruct v; constructor. Qed.
#[export] Hint Resolve sane_bulks sane_map sane_bulkOrNull : cache.

(** One step through a handler. *)
Ltac sstep :=
  lazymatch goal with
  | |- silent (mbind _ _) => apply s_bind; [|intros ?]
  | |- silent (match ?x with _ => _ end) => destruct x
  | |- silent (let '(_, _) := ?x in _) => destruct x
  | |- silent (mret _) => apply s_ret
  | |- silent (getw _) => apply s_getw
  | |- silent (call _) => apply s_call
  | |- silent (callOut _) => apply s_callOut
  | |- silent (pureM _) => apply s_pureM
  | |- silent (onSession _) => apply s_session
  | |- silent (Replicate _) => apply s_Replicate
  | |- silent (keyspaceHit _) => apply s_hit
  | |- silent (keyspaceMiss _) => apply s_miss
  | |- silent (modw (setCfg _)) => apply s_cfg
  | |- silent (modw (addPushed _)) => apply s_pushed
  | |- silent crash => apply s_stop
  | |- silent stuck => apply s_stop
  | |- silent _ => eauto with frame
  end; cbv zeta.
Ltac ssteps := repeat sstep.
Ltac astep :=
  lazymatch goal with
  | |- answers (mbind _ _) => apply a_bind; [ssteps|intros ?]
  | |- answers (match ?x with _ => _ end) => destruct x
  | |- answers (let '(_, _) := ?x in _) => destruct x
  | |- answers (mret (Some _)) => apply a_error
  | |- answers (fail _ _) => apply a_error
  | |- answers (failType _ _) => unfold failType
  | |- answers (failOOM _ _) => unfold failOOM
  | |- answers (failTypeOOM _ _) => unfold failTypeOOM, failOOM
  | |- answers (wrongArgs _) => unfold wrongArgs
  | |- answers writeOK => apply a_OK
  | |- answers writeBulkNil => apply a_nil
  | |- answers (writeBulk _) => apply a_bulk
  | |- answers (writeInt _) => apply a_int
  | |- answers (writeArr _ _) => apply a_arr; unfold bulks; eauto with cache
  | |- answers (writeErr _) => apply a_err; first [reflexivity | eauto with frame]
  | |- answers crash => apply a_stop
  | |- answers stuck => apply a_stop
  | |- answers _ => eauto with frame
  end; cbv zeta.
Ltac asteps := repeat astep.

(** ** Silent helpers *)

(** What a silent program returns. *)
Definition resulting {A} (Q : A -> Prop) (m : H A) : Prop := forall w a w', m w = (Val a, w') -> Q a.

Lemma a_bind_returns {A} (Q : A -> Prop) (m : H A) f :
  silent m -> resulting Q m -> (forall a, Q a -> answers (f a)) -> answers (m ≫= f).
Proof.
  intros Hm HQ Hf w r w' Heq. unfold mbind, H_bind in Heq. destruct (m w) as [[a| |] w1] eqn:E; [|done..].
  pose proof (Hf _ (HQ _ _ _ E) _ _ _ Heq) as Ha. by rewrite (Hm _ _ _ E) in Ha.
Qed.

Lemma r_ret {A} (Q : A -> Prop) a : Q a -> resulting Q (mret a).
Proof. intros Hq w b w' [= <- <-]. done. Qed.
Lemma r_bind {A B} (Q : B -> Prop) (m : H A) f : (forall a, resulting Q (f a)) -> resulting Q (m ≫= f).
Proof.
  intros Hf w b w' Heq. unfold mbind, H_bind in Heq. destruct (m w) as [[a| |] w1] eqn:E; [|done..].
  by eapply Hf.
Qed.
Lemma r_then {A B} (P : A -> Prop) (Q : B -> Prop) (m : H A) f :
  resulting P m -> (forall a, P a -> resulting Q (f a)) -> resulting Q (m ≫= f).
Proof.
  intros Hm Hf w b w' Heq. unfold mbind, H_bind in Heq. destruct (m w) as [[a| |] w1] eqn:E; [|done..].
  eapply Hf; [|done]. by eapply Hm.
Qed.

Lemma r_Type key : resulting (fun t => sall notCR t = true) (call (Type_ key)).
Proof.
  intros w t w' Heq. unfold call, pureM, Type_ in Heq. unfold mbind, M_bind in Heq.
  destruct (yield (w_st w)) as [u st1]. destruct (fetch key st1) as [o st2]. injection Heq as <- _.
  destruct o as [e|]; [|reflexivity]. destruct (e_dtype e); reflexivity.
Qed.

Section silent.
Context `{MapOrder}.

Lemma s_untilMs t : silent (untilMs t).
Proof. unfold untilMs. ssteps. Qed.
Lemma s_fromNow n u : silent (fromNow n u).
Proof. unfold fromNow. ssteps. Qed.
#[local] Hint Resolve s_untilMs s_fromNow : frame.
Lemma s_ReplicateSet k v t : silent (ReplicateSet k v t).
Proof. unfold ReplicateSet. ssteps. Qed.
#[local] Hint Resolve s_ReplicateSet : frame.
Lemma s_replicateSets kvs : silent (replicateSets kvs).
Proof. induction kvs as [|[k v] kvs IH]; simpl; ssteps. Qed.
Lemma s_replicateDels ks : silent (replicateDels ks).
Proof. induction ks as [|k ks IH]; simpl; unfold ReplicateDel; ssteps. Qed.
Lemma s_countHits vs : silent (countHits vs).
Proof. induction vs as [|v vs IH]; simpl; ssteps. Qed.
Lemma s_existingKeys ks acc : silent (existingKeys ks acc).
Proof. revert acc. induction ks as [|k ks IH]; intros acc; simpl; ssteps. Qed.
Lemma s_applySet k v t nx xx : silent (applySet k v t nx xx).
Proof. unfold applySet. ssteps. Qed.
Lemma s_setExpiry k o : silent (setExpiry k o).
Proof. unfold setExpiry. ssteps. Qed.
Lemma s_hitIfHash k : silent (hitIfHash k).
Proof. unfold hitIfHash. ssteps. Qed.
Lemma s_hmgetLoop k fs : silent (hmgetLoop k fs).
Proof. induction fs as [|f fs IH]; simpl; ssteps. Qed.
Lemma s_unionLoop ks st : silent (unionLoop ks st).
Proof. revert st. induction ks as [|k ks IH]; intros st; simpl; ssteps. Qed.
Lemma s_interLoop ks st : silent (interLoop ks st).
Proof. revert st. induction ks as [|k ks IH]; intros st; simpl; ssteps. Qed.
Lemma s_diffLoop ks st : silent (diffLoop ks st).
Proof. revert st. induction ks as [|k ks IH]; intros st; simpl; ssteps. Qed.
Lemma s_sortedMembers st : silent (sortedMembers st).
Proof. unfold sortedMembers. ssteps. Qed.
#[local] Hint Resolve s_unionLoop s_interLoop s_diffLoop s_sortedMembers : frame.
Lemma s_unionMembers ks : silent (unionMembers ks).
Proof. unfold unionMembers. ssteps. Qed.
Lemma s_interMembers ks : silent (interMembers ks).
Proof. unfold interMembers. ssteps. Qed.
Lemma s_diffMembers ks : silent (diffMembers ks).
Proof. unfold diffMembers. ssteps. Qed.
Lemma s_section s n b : silent b -> silent (section s n b).
Proof. intros. unfold section. ssteps. Qed.
Lemma s_infoServer : silent infoServer.
Proof. unfold infoServer. ssteps. Qed.
Lemma s_infoClients : silent infoClients.
Proof. unfold infoClients. ssteps. Qed.
Lemma s_infoStats : silent infoStats.
Proof. unfold infoStats. ssteps. Qed.
Lemma s_infoReplication : silent infoReplication.
Proof. unfold infoReplication. ssteps. Qed.
Lemma s_infoMemory : silent infoMemory.
Proof. unfold infoMemory. ssteps. Qed.
Lemma s_infoKeyspace : silent infoKeyspace.
Proof. unfold infoKeyspace. ssteps. Qed.
Lemma s_Publish ch m : silent (Publish ch m).
Proof. unfold Publish. ssteps. Qed.
Lemma s_watchLoop ks : silent (watchLoop ks).
Proof. induction ks as [|k ks IH]; simpl; ssteps. Qed.
Lemma s_watchAborted kvs : silent (watchAborted kvs).
Proof. induction kvs as [|[k v] kvs IH]; simpl; ssteps. Qed.
Lemma s_ReplicateLPop k n : silent (ReplicateLPop k n).
Proof. unfold ReplicateLPop. ssteps. Qed.
Lemma s_ReplicateRPop k n : silent (ReplicateRPop k n).
Proof. unfold ReplicateRPop. ssteps. Qed.
End silent.

#[export] Hint Resolve s_untilMs s_fromNow s_ReplicateSet s_replicateSets s_replicateDels s_countHits
  s_existingKeys s_applySet s_setExpiry s_hitIfHash s_hmgetLoop s_unionMembers s_interMembers s_diffMembers
  s_section s_infoServer s_infoClients s_infoStats s_infoReplication s_infoMemory s_infoKeyspace s_Publish
  s_watchLoop s_watchAborted s_ReplicateLPop s_ReplicateRPop s_Replicate : frame.

(** ** Error texts without CR *)

Lemma notCR_smap f s : (forall c, notCR (f c) = notCR c) -> sall notCR (smap f s) = sall notCR s.
Proof. intros Hf. induction s as [|c s IH]; [done|]. cbn [smap sall]. by rewrite IH, Hf. Qed.
Lemma notCR_ToLower s : sall notCR (ToLower s) = sall notCR s.
Proof. apply notCR_smap. intros [[] [] [] [] [] [] [] []]; reflexivity. Qed.
Lemma notCR_ToUpper s : sall notCR (ToUpper s) = sall notCR s.
Proof. apply notCR_smap. intros [[] [] [] [] [] [] [] []]; reflexivity. Qed.
Lemma notCR_argErr s : sall notCR s = true -> sall notCR (argErr s) = true.
Proof. intros Hs. unfold argErr. rewrite !sall_app, notCR_ToLower, Hs. done. Qed.

Section handlers.
Context `{MapOrder} `{Floats}.

Lemma parseSetOpts_clean_ind n args o msg :
  (List.length args <= n)%nat -> parseSetOpts args o = inl msg -> sall notCR msg = true.
Proof.
  revert args o. induction n as [|n IH]; intros [|a rest] o Hn; try done; [simpl in Hn; lia|].
  assert (forall o, parseSetOpts rest o = inl msg -> sall notCR msg = true) as Hr1 by (intros o'; apply IH; simpl in Hn; lia).
  assert (forall o, parseSetOpts (match rest with [] => rest | _ :: r => r end) o = inl msg -> sall notCR msg = true) as Hr2.
  { intros o'. apply IH. destruct rest; simpl in *; lia. }
  cbn [parseSetOpts]. cbv zeta. destruct o as [nx xx get keep ex at_].
  repeat (destruct (_ =? _)%string; eauto); try (intros [= <-]; reflexivity);
    destruct rest as [|b rest]; try (intros [= <-]; reflexivity);
    (destruct (ParseIntArg b); [intros [= <-]; reflexivity|]);
    try (destruct (_ && _); [intros [= <-]; reflexivity|]); eauto.
Qed.

Lemma parseScanOpts_clean_ind n args o msg :
  (List.length args <= n)%nat -> parseScanOpts args o = inl msg -> sall notCR msg = true.
Proof.
  revert args o. induction n as [|n IH]; intros [|a rest] o Hn; try done; [simpl in Hn; lia|].
  assert (forall o, parseScanOpts (match rest with [] => rest | _ :: r => r end) o = inl msg -> sall notCR msg = true) as Hr2.
  { intros o'. apply IH. destruct rest; simpl in *; lia. }
  cbn [parseScanOpts]. cbv zeta. destruct o as [m c t].
  repeat (destruct (_ =? _)%string); try (intros [= <-]; reflexivity);
    destruct rest as [|b rest]; try (intros [= <-]; reflexivity); eauto.
  destruct (ParseIntArg b); [intros [= <-]; reflexivity|].
  destruct (_ <? 1); [intros [= <-]; reflexivity|]; eauto.
Qed.

(** A program that may end the command early: [inl] is then what the command returns. *)
Definition mayAnswer {A} (m : H (option error + A)) : Prop :=
  forall w r w', m w = (Val r, w') ->
  match r with
  | inl None => exists v, sane v /\ w_out w' = w_out w +++ encode v
  | _ => w_out w' = w_out w
  end.

Lemma m_early {A} (m : H (option error)) : answers m -> mayAnswer (A := A) (r ← m; mret (inl r)).
Proof.
  intros Hm w r w' Heq. unfold mbind, H_bind in Heq. destruct (m w) as [[a| |] w1] eqn:E; [|done..].
  injection Heq as <- <-. pose proof (Hm _ _ _ E). by destruct a.
Qed.

Lemma m_bind {A B} (m : H B) (f : B -> H (option error + A)) :
  silent m -> (forall a, mayAnswer (f a)) -> mayAnswer (m ≫= f).
Proof.
  intros Hm Hf w r w' Heq. unfold mbind, H_bind in Heq. destruct (m w) as [[a| |] w1] eqn:E; [|done..].
  pose proof (Hf _ _ _ _ Heq) as Ha. by rewrite (Hm _ _ _ E) in Ha.
Qed.

Lemma a_mayAnswer {A} (m : H (option error + A)) f :
  mayAnswer m -> (forall a, answers (f a)) ->
  answers (r ← m; match r with inl e => mret e | inr a => f a end).
Proof.
  intros Hm Hf w r w' Heq. unfold mbind, H_bind in Heq. destruct (m w) as [[[e|a]| |] w1] eqn:E; [| |done..].
  - injection Heq as <- <-. pose proof (Hm _ _ _ E). by destruct e.
  - pose proof (Hf _ _ _ _ Heq) as Ha. by rewrite (Hm _ _ _ E) in Ha.
Qed.

Lemma m_getExOpts_ind key n opts exp : (List.length opts <= n)%nat -> mayAnswer (getExOpts key opts exp).
Proof.
  revert opts exp. induction n as [|n IH]; intros [|a rest] exp Hn; try (simpl in Hn; lia);
    try (by intros w r w' [= <- <-]).
  assert (forall exp, mayAnswer (getExOpts key rest exp)) as Hr1 by (intros e; apply IH; simpl in Hn; lia).
  assert (forall exp, mayAnswer (getExOpts key (match rest with [] => rest | _ :: r => r end) exp)) as Hr2.
  { intros e. apply IH. destruct rest; simpl in *; lia. }
  cbn [getExOpts]. cbv zeta.
  repeat match goal with |- mayAnswer (if (_ =? _)%string then _ else _) => destruct (_ =? _)%string end;
  match goal with
  | |- mayAnswer (match rest with _ => _ end) =>
      destruct rest as [|b rest]; [apply m_early; asteps|];
      destruct (ParseIntArg b); [apply m_early; asteps|];
      try (destruct (_ && _); [apply m_early; asteps|]); apply m_bind; [ssteps|]; intros t; apply Hr2
  | |- mayAnswer (call _ ≫= _) =>
      apply m_bind; [ssteps|]; intros [err|b]; [by intros w r w' [= <- <-]|]; apply m_bind; [unfold ReplicatePersist; ssteps|];
      intros []; apply Hr1
  | |- _ => apply m_early; asteps
  end.
Qed.

(** ** The commands *)

(** Every command of [l] answers, when its name holds no CR. *)
Definition answering (l : list CommandMeta) : Prop :=
  Forall (fun meta => forall a rest, sall notCR (sbytes a) = true -> answers (c_Handler meta (a :: rest))) l.

Lemma notCR_cmdName a rest : sall notCR (sbytes a) = true -> sall notCR (argErr (cmdName (a :: rest))) = true.
Proof. intros Ha. apply notCR_argErr. cbn [cmdName]. by rewrite notCR_ToUpper. Qed.
#[local] Hint Resolve notCR_cmdName : frame.

Create HintDb handlers.
#[local] Hint Unfold cmdGet replyValue cmdSet cmdSetNX cmdSetEX cmdPSetEX setWithTTL cmdGetSet cmdGetDel cmdMGet
  cmdMSet cmdMSetNX cmdDel cmdIncr cmdDecr doIncr cmdIncrBy cmdDecrBy replyIncr failIncr cmdIncrByFloat cmdAppend
  cmdStrLen cmdGetRange cmdSetRange : handlers.
#[local] Hint Unfold cmdHSet cmdHMSet hsetWith cmdHGet cmdHGetAll cmdHKeys cmdHVals hashReply cmdHDel
  cmdHExists cmdHLen cmdHIncrBy cmdHIncrByFloat cmdHSetNX writeArrayEmpty : handlers.
#[local] Hint Unfold cmdLPush cmdRPush cmdLPushX cmdRPushX cmdLPop cmdRPop popCmd cmdLLen cmdLIndex cmdLSet
  cmdLRem cmdLRange cmdLTrim cmdLInsert : handlers.
#[local] Hint Unfold cmdSAdd cmdSRem cmdSMembers cmdSIsMember cmdSCard cmdSUnion cmdSInter cmdSDiff algebra
  cmdSUnionStore cmdSInterStore cmdSDiffStore algebraStore writeMembers : handlers.
#[local] Hint Unfold cmdExists cmdTTL cmdPTTL cmdExpire cmdExpireAt cmdPExpire cmdPExpireAt cmdPersist
  replyChanged cmdRename cmdRenameNX cmdSelect cmdKeys cmdRandomKey cmdDBSize : handlers.
#[local] Hint Unfold cmdPing cmdEcho cmdAuth cmdInfo cmdFlushDB cmdFlushAll flushClusterDB cmdTime cmdClient
  cmdCommand writeCommandFullList writeCommandInfoNames cmdPublish cmdMulti cmdDiscard cmdWatch cmdUnwatch : handlers.
#[local] Hint Unfold ReplicateListPush ReplicateHDel ReplicateSAdd ReplicateSRem ReplicateDel ReplicateHash
  ReplicateExpire ReplicateExpireAtUnix ReplicatePExpire ReplicatePExpireAtUnixMs ReplicatePersist
  ReplicateRename ReplicateLRem ReplicateLSet ReplicateReplaceSet ReplicateLTrim ReplicateLInsert : handlers.

Tactic Notation "answered" := apply Forall_cons; split; [intros a rest Ha; cbn [c_Handler reg]; autounfold with handlers; asteps|].

Lemma a_Set args : answers (cmdSet args).
Proof.
  unfold cmdSet. destruct (argsLt args 3); [asteps|]. cbv zeta.
  destruct (parseSetOpts _ _) as [msg|o] eqn:E; [|asteps].
  apply a_err. by eapply parseSetOpts_clean_ind in E.
Qed.
Lemma a_GetEx args : answers (cmdGetEx args).
Proof.
  unfold cmdGetEx. destruct (argsLt args 2); [asteps|]. cbv zeta.
  apply a_mayAnswer; [by eapply m_getExOpts_ind|]. intros exp. autounfold with handlers. asteps.
Qed.

Lemma answering_String : answering registerStringCommands.
Proof.
  answered. apply Forall_cons; split; [intros; apply a_Set|]. do 5 answered.
  apply Forall_cons; split; [intros; apply a_GetEx|]. do 13 answered. apply Forall_nil_2.
Qed.

Lemma r_hmgetLoop k fs : resulting (fun r => match r with inl _ => True | inr l => Forall sane l end) (hmgetLoop k fs).
Proof.
  induction fs as [|f fs IH]; simpl; [by apply r_ret|]. apply r_bind. intros [err|v]; [by apply r_ret|].
  eapply r_then; [exact IH|]. intros [err|l] Hl; apply r_ret; [done|]. constructor; auto with cache.
Qed.
Lemma a_HMGet args : answers (cmdHMGet args).
Proof.
  unfold cmdHMGet. astep; [asteps|]. astep. astep; [astep|]. astep; [asteps; apply Forall_replicate; constructor|].
  astep. eapply a_bind_returns; [ssteps|apply r_hmgetLoop|]. intros [err|l] Hl; asteps.
Qed.

Lemma sane_shown (show : string -> list Value) ks :
  (forall k, Forall sane (show k)) -> Forall sane (mjoin (map show ks)).
Proof. intros Hs. induction ks; simpl; [constructor|]. by apply Forall_app_2. Qed.
Lemma sane_field m k : sane (fieldValue m k).
Proof. constructor. Qed.
#[local] Hint Resolve sane_shown sane_field : cache.

Lemma answering_Hash : answering registerHashCommands.
Proof.
  do 3 answered. apply Forall_cons; split; [intros; apply a_HMGet|]. do 9 answered. apply Forall_nil_2.
Qed.
Lemma answering_List : answering registerListCommands.
Proof. do 13 answered. apply Forall_nil_2. Qed.
Lemma answering_Set : answering registerSetCommands.
Proof. do 11 answered. apply Forall_nil_2. Qed.

Lemma a_Type args : answers (cmdType args).
Proof.
  unfold cmdType. astep; [asteps|]. eapply a_bind_returns; [ssteps|apply r_Type|]. intros t Ht. by apply a_simple.
Qed.
Lemma a_Scan args : answers (cmdScan args).
Proof.
  unfold cmdScan. do 2 (astep; [asteps|]). destruct (parseScanOpts _ _) as [msg|o] eqn:E.
  - apply a_err. by eapply parseScanOpts_clean_ind in E.
  - asteps.
Qed.
Lemma answering_Generic : answering registerGenericCommands.
Proof.
  answered. apply Forall_cons; split; [intros; apply a_Type|]. do 8 answered.
  apply Forall_cons; split; [intros; apply a_Scan|]. do 5 answered. apply Forall_nil_2.
Qed.

Lemma sane_meta m : sane (commandMetaToRESP m).
Proof.
  unfold commandMetaToRESP. destruct (commandKeyIndices m) as [[fk lk] st]. repeat constructor. apply sane_bulks.
Qed.
#[local] Hint Resolve sane_meta : cache.
Lemma sane_infos (tbl : Table) names :
  Forall sane (map (fun nb => match tbl !! ToLower (ToLower (sbytes nb)) with
                              | None => vNullBulk | Some meta => commandMetaToRESP meta end) names).
Proof. apply sane_map. intros nb. destruct (tbl !! _); auto with cache. Qed.
#[local] Hint Resolve sane_infos a_simple : cache.

Lemma a_Ping args : answers (cmdPing args).
Proof. unfold cmdPing. asteps. by apply a_simple. Qed.

Lemma answering_Server tbl : answering (registerServerCommands tbl).
Proof. apply Forall_cons; split; [intros; apply a_Ping|]. do 8 answered. apply Forall_nil_2. Qed.

(** EXEC: whatever a queued command writes is replaced by the one value parsed from it. *)
Lemma execOne_out d v w r w' : execOne d v w = (Val r, w') ->
  w_out w' = w_out w /\ match r with inl _ => True | inr val => sane val end.
Proof.
  unfold execOne. unfold mbind, H_bind, getw, modw. destruct (d v (setOut EmptyString w)) as [[e| |] w1]; [|done..].
  destruct (Parse_returns (mkStream (w_out w1) io_EOF)) as (r1 & rest & HP & _ & Hw). rewrite HP.
  destruct e; [|destruct r1]; intros [= <- <-]; split; try done. by apply wire_sane, Hw.
Qed.
Lemma execLoop_out d queue w r w' : execLoop d queue w = (Val r, w') ->
  w_out w' = w_out w /\ match r with inl _ => True | inr l => Forall sane l end.
Proof.
  revert w r w'. induction queue as [|v queue IH]; intros w r w'; cbn [execLoop].
  { intros [= <- <-]. done. }
  unfold mbind, H_bind. destruct (execOne d v w) as [[r1| |] w1] eqn:E; [|done..].
  apply execOne_out in E as [Ho Hs]. destruct r1 as [err|val]; [by intros [= <- <-]|].
  destruct (execLoop d queue w1) as [[r2| |] w2] eqn:E2; [|done..]. apply IH in E2 as [Ho2 Hs2].
  intros [= <- <-]. split; [congruence|]. destruct r2; [done|]. by constructor.
Qed.
Lemma a_Exec d args : answers (cmdExec d args).
Proof.
  unfold cmdExec. astep; [asteps|]. astep. astep; [asteps|]. do 4 astep. astep; [apply a_null|].
  eapply a_bind_returns.
  - intros w r w' E. by apply execLoop_out in E as [? _].
  - intros w r w' E. apply execLoop_out in E as [_ Hr]. exact Hr.
  - intros [err|l] Hl; asteps.
Qed.

Lemma answering_Transaction d : answering (registerTransactionCommands (cmdExec d)).
Proof.
  answered. apply Forall_cons; split; [intros; apply a_Exec|]. do 3 answered. apply Forall_nil_2.
Qed.

(** ** Dispatch *)

(** The commands that acknowledge each channel. *)
Definition acking : list string := ["subscribe"; "psubscribe"; "unsubscribe"; "punsubscribe"]%string.

(** A request whose command is not one of them and whose name holds no CR. *)
Definition plain (v : Value) : Prop :=
  forall a rest, ValueToArgs v = inr (a :: rest) ->
  ToLower (sbytes a) ∉ acking /\ sall notCR (sbytes a) = true.

Lemma answers_builtin tbl d meta a rest :
  meta ∈ builtins tbl (cmdExec d) -> ToLower (c_Name (c_info meta)) ∉ acking -> sall notCR (sbytes a) = true ->
  answers (c_Handler meta (a :: rest)).
Proof.
  intros Hin Hn Ha. unfold builtins in Hin. rewrite !elem_of_app in Hin.
  assert (forall l, answering l -> meta ∈ l -> answers (c_Handler meta (a :: rest))) as Hl.
  { intros l Hl Hm. by apply (proj1 (Forall_forall _ _) Hl meta Hm). }
  destruct Hin as [Hin|[Hin|[Hin|[Hin|[Hin|[Hin|[Hin|Hin]]]]]]].
  - by apply (Hl _ answering_String).
  - by apply (Hl _ answering_Hash).
  - by apply (Hl _ answering_List).
  - by apply (Hl _ answering_Set).
  - by apply (Hl _ answering_Generic).
  - by apply (Hl _ (answering_Server tbl)).
  - unfold registerPubSubCommands in Hin. rewrite !elem_of_cons in Hin.
    destruct Hin as [->|[->|[->|[->|[->|Hin]]]]];
      try (exfalso; apply Hn; apply (bool_decide_eq_true_1 _); vm_compute; reflexivity).
    + cbn [c_Handler reg]. autounfold with handlers. asteps.
    + by apply not_elem_of_nil in Hin.
  - by apply (Hl _ (answering_Transaction d)).
Qed.

Lemma answers_Dispatch depth v : plain v -> answers (Dispatch depth v).
Proof.
  intros Hp. destruct depth as [|depth]; cbn [Dispatch]; cbv zeta;
    (destruct (ValueToArgs v) as [err|[|a rest]] eqn:Ev; [apply a_error|apply a_error|]);
    destruct (Hp _ _ Ev) as [Hn Ha];
    (destruct (Lookup _ _) as [meta|] eqn:El;
      [|apply a_err; unfold unknownCommand; by rewrite !sall_app, notCR_ToLower, Ha]);
    unfold CheckArity;
    repeat match goal with |- context [match (if ?b then _ else _) with _ => _ end] => destruct b end;
    try (apply a_err; by apply notCR_cmdName);
    apply Lookup_builtin in El as [Hin Hname]; rewrite Hname in Hn; by eapply answers_builtin.
Qed.

Lemma a_queued : answers writeQueued.
Proof. by apply (a_emit _ _ (vSimple "QUEUED")); [constructor|]. Qed.

Definition isQuit (v : Value) : Prop :=
  exists a rest, ValueToArgs v = inr (a :: rest) /\ ToUpper (sbytes a) = "QUIT"%string.

(** A request of a connection: QUIT answers too, with the error that ends the connection. *)
Lemma dispatch_answers cfg v : plain v ->
  forall w r w', dispatch cfg v w = (Val r, w') ->
  match r with
  | None => exists reply, sane reply /\ w_out w' = w_out w +++ encode reply
  | Some err => (isQuit v /\ err = ErrQuitErr) /\ w_out w' = w_out w +++ encode (vSimple "OK") \/ w_out w' = w_out w
  end.
Proof.
  intros Hp.
  assert (forall m, answers m -> forall w r w', m w = (Val r, w') ->
    match r with
    | None => exists reply, sane reply /\ w_out w' = w_out w +++ encode reply
    | Some err => (isQuit v /\ err = ErrQuitErr) /\ w_out w' = w_out w +++ encode (vSimple "OK") \/ w_out w' = w_out w
    end) as Hm.
  { intros m Ha w r w' E. apply Ha in E. destruct r; auto. }
  intros w r w'. unfold dispatch. unfold modw at 1. unfold mbind at 1, H_bind at 1.
  change (w_out w) with (w_out (setCfg cfg w)). generalize (setCfg cfg w). clear w. intros w. revert w r w'.
  destruct (ValueToArgs v) as [err|[|a rest]] eqn:Ev; [apply Hm, a_error|apply Hm, a_error|].
  intros w r w'. unfold getw at 1. unfold mbind at 1, H_bind at 1. destruct (ToUpper (sbytes a) =? "QUIT")%string eqn:Eq.
  { apply String.eqb_eq in Eq. intros [= <- <-]. left. split; [|done]. split; [by exists a, rest|done]. }
  apply Hm. unfold writeErrStr. asteps; try (by apply answers_Dispatch). apply a_queued.
Qed.
End handlers.
