(* ===== verification/ConnSpec.v ===== *)
(** * What a client connection guarantees: replies in step with the requests, a store that stays
    well formed, and no effect before authentication. *)

From S2P Require Import Prelude GoInt GoStr GoTime GoSort Resp RespSpec Config StoreBase Eviction.
From S2P Require Import StoreString StoreHash StoreList StoreSet StoreKeys StoreOps StoreHoare StoreView.
From S2P Require Import StoreInvOps StoreWf StoreExec StoreWatch Session Repl CmdBase CmdString CmdHash CmdList.
From S2P Require Import CmdSet CmdGeneric CmdServer CmdTxn Conn CmdFrame CmdWithin ConnInv CmdReply.

(** ** Replies in step *)

(** The requests a connection reads if nothing ends it early. *)
Fixpoint requests (turns : nat) (input : stream) : list Value :=
  match turns with
  | O => []
  | S turns =>
      match Parse input with
      | Some (inr v, input) => v :: requests turns input
      | _ => []
      end
  end.

(** A turn of a server that is up. *)
Definition steady (t : Turn) : Prop := t_done t = false /\ t_ready t = true /\ t_shutting t = false.

Definition encodes (l : list Value) : string := foldr (fun v s => encode v +++ s) EmptyString l.

Lemma encodes_snoc o l v : o +++ encodes (v :: l) = (o +++ encode v) +++ encodes l.
Proof. simpl. by rewrite sapp_assoc. Qed.

Section step.
Context `{MapOrder} `{Floats}.

Lemma finish_out w r w' : finishCommand w = (Val r, w') -> w_out w' = w_out w.
Proof. unfold finishCommand, onStats. apply s_bind; intros; ssteps. by intros ? ? ? [= _ <-]. Qed.

(** A conversation: the requests are executed one after the other, each in the world the one before it left, and
    each reply is what its request wrote.  It ends with the requests, with a QUIT, which is answered, or with a
    request whose handler failed, which wrote nothing. *)
Inductive conversation : list Turn -> list Value -> World -> nat -> list Value -> World -> Prop :=
  | conv_end turns w : conversation turns [] w 0 [] w
  | conv_answer t turns v vs w w1 w2 reply n replies w' :
      dispatch (t_cfg t) v w = (Val None, w1) -> sane reply -> w_out w1 = w_out w +++ encode reply ->
      finishCommand w1 = (Val tt, w2) -> conversation turns vs w2 n replies w' ->
      conversation (t :: turns) (v :: vs) w (S n) (reply :: replies) w'
  | conv_quit t turns v vs w w1 :
      isQuit v -> dispatch (t_cfg t) v w = (Val (Some ErrQuitErr), w1) -> w_out w1 = w_out w +++ encode (vSimple "OK") ->
      conversation (t :: turns) (v :: vs) w 0 [vSimple "OK"] w1
  | conv_failed t turns v vs w w1 err :
      dispatch (t_cfg t) v w = (Val (Some err), w1) -> w_out w1 = w_out w ->
      conversation (t :: turns) (v :: vs) w 0 [] w1.

(** What a conversation writes is its replies, in order. *)
Lemma conversation_out turns vs w n replies w' :
  conversation turns vs w n replies w' -> Forall sane replies /\ w_out w' = w_out w +++ encodes replies.
Proof.
  induction 1 as [|? ? ? ? ? ? ? ? ? ? ? _ Hs Ho Hf _ [IH1 IH2]|? ? ? ? ? ? _ _ Ho|? ? ? ? ? ? ? _ Ho].
  - split; [constructor|]. by rewrite sapp_nil_r.
  - split; [by constructor|]. by rewrite encodes_snoc, IH2, (finish_out _ _ _ Hf), Ho.
  - split; [by repeat constructor|]. by rewrite Ho, encodes_snoc, sapp_nil_r.
  - split; [constructor|]. by rewrite Ho, sapp_nil_r.
Qed.

Lemma serveLoop_converses turns input n w m rest w' :
  Forall steady turns -> Forall plain (requests (List.length turns) input) ->
  serveLoop turns input n w = (Val (m, rest), w') ->
  exists k replies, m = (n + k)%nat /\ conversation turns (requests (List.length turns) input) w k replies w'.
Proof.
  intros Ht. revert input n w. induction Ht as [|t turns (Hd & Hr & Hs) Ht IH]; intros input n w Hp; simpl.
  { intros [= <- <- <-]. exists 0%nat, []. split; [lia|constructor]. }
  rewrite Hd, Hr, Hs. simpl in Hp. destruct (Parse input) as [[[err|v] input']|] eqn:Ep; simpl in *;
    try (intros [= <- <- <-]; exists 0%nat, []; split; [lia|constructor]).
  inversion Hp as [|? ? Hv Hp']; subst. unfold mbind, H_bind at 1.
  destruct (dispatch (t_cfg t) v w) as [[e| |] w1] eqn:Ed; [|done..].
  pose proof (dispatch_answers _ _ Hv _ _ _ Ed) as Ha. destruct e as [err|].
  - intros [= <- <- <-]. destruct Ha as [[[Hq ->] Ho]|Ho].
    + exists 0%nat, [vSimple "OK"]. split; [lia|by apply conv_quit].
    + exists 0%nat, []. split; [lia|by eapply conv_failed].
  - destruct Ha as (reply & Hsane & Ho). unfold H_bind. destruct (finishCommand w1) as [[[]| |] w2] eqn:Ef; [|done..].
    intros (k & replies & -> & Hc)%IH; [|done]. exists (S k), (reply :: replies). split; [lia|by eapply conv_answer].
Qed.

(** The world of a connection when it opens, and when it is closed. *)
Definition opened (w : World) : World := setInfo (clientIn (w_info w)) w.
Definition closed (w : World) : World :=
  setInfo (clientOut (w_info w)) (setManager (RemoveSessionFromAll (s_ID (w_sess w)) (w_subs w)) w).

(** C18: On a server that is up, a connection that ends without a crash answers in step: it is a [conversation] over
    the requests read from its bytes.  What it writes is the concatenation of the replies, one well-delimited value per
    request executed and in the order of the requests, each of them written by its own request; every request is
    executed unless a QUIT, which is answered OK, or a failed handler, which writes nothing, ends the connection.
    Requests are any but (P)SUBSCRIBE and (P)UNSUBSCRIBE, which acknowledge each channel, and have no CR in
    their name, which the reply to an unknown command echoes. *)
Theorem serveConn_in_step turns input w n rest w' :
  Forall steady turns -> Forall plain (requests (List.length turns) input) ->
  serveConn turns input w = (Val (n, rest), w') ->
  exists replies w1, conversation turns (requests (List.length turns) input) (opened w) n replies w1 /\
    Forall sane replies /\ w' = closed w1 /\ w_out w' = w_out w +++ encodes replies.
Proof.
  intros Ht Hp. unfold serveConn, onStats, mbind, H_bind, modw.
  destruct (serveLoop turns input 0 (opened w)) as [[[m rest']| |] w1] eqn:E; unfold opened in E; rewrite E; [|done..].
  intros [= <- <- <-]. destruct (serveLoop_converses _ _ _ _ _ _ _ Ht Hp E) as (k & replies & -> & Hc).
  destruct (conversation_out _ _ _ _ _ _ Hc) as [Hs Ho]. exists replies, w1. by split_and!.
Qed.

End step.

(** ** The store stays well formed *)

Section wellformed.
Context `{MapOrder} `{Floats}.

(** C19: Whatever bytes a client sends, whatever the server's state at each turn and whatever the
    other goroutines do to the store in between as long as they keep it well formed, the store is
    well formed when the connection ends, even if a handler panicked.  If the client sends APPEND, no
    other goroutine creates its key meanwhile: see [append_breaks_lru]. *)
Theorem serveConn_wf turns input w r w' :
  store_wf (db (w_st w)) -> stable store_wf (env (w_st w)) ->
  MultiQueue (w_sess w) = [] ->
  (forall v a rest, commandOf input v -> ValueToArgs v = inr (a :: rest) -> ToLower (sbytes a) = "append"%string ->
    stable (fun s => store_wf s /\ find s (argStr (a :: rest) 1) = None) (env (w_st w))) ->
  serveConn turns input w = (r, w') -> store_wf (db (w_st w')).
Proof.
  intros Hs Hst Hq Hin Heq.
  set (A k := stable (fun s => store_wf s /\ find s k = None) (env (w_st w))).
  assert (invFrame store_wf A True w w') as Hf.
  { eapply (serveConn_keeps store_wf A True); [by intros _; apply wf_QuietInv| |exact Heq].
    intros v Hv a rest Ev. split; [|done]. intros Hn. by eapply Hin. }
  destruct Hf as [(Hs' & _) _]; [|by rewrite Hq|done]. by split_and!.
Qed.
End wellformed.

(** ** Before authentication *)

(** [v] is AUTH with a password of one of the turns. *)
Definition rightPassword (turns : list Turn) (v : Value) : Prop :=
  exists a b t, ValueToArgs v = inr [a; b] /\ ToUpper (sbytes a) = "AUTH"%string /\
    t ∈ turns /\ sbytes b = AuthPassword (t_cfg t).

(** The fields of a session, apart from its command counter and the time of the last command. *)
Definition settings (s : Session) :=
  (s_ID s, Authenticated s, s_Name s, s_DB s, MultiQueue s, WatchedKeys s, InMulti s, SubChannels s, PSubPatterns s).

(** What a client that has not authenticated leaves as it was, and what [n] of its requests count. *)
Record untouched (n : nat) (w w' : World) : Prop := {
  un_db : db (w_st w') = db (w_st w);
  un_repl : w_repl w' = w_repl w;
  un_pushed : w_pushed w' = w_pushed w;
  un_subs : w_subs w' = w_subs w;
  un_keyspace : (w_hits w', w_misses w') = (w_hits w, w_misses w);
  un_session : settings (w_sess w') = settings (w_sess w);
  un_count : CmdCount (w_sess w') = CmdCount (w_sess w) + Z.of_nat n;
  un_info : w_info w' = Nat.iter n commandDone (w_info w);
}.

Lemma untouched_refl w : untouched 0 w w.
Proof. split; simpl; try done. lia. Qed.

Lemma untouched_trans a b w1 w2 w3 : untouched a w1 w2 -> untouched b w2 w3 -> untouched (b + a) w1 w3.
Proof. intros [] []. split; try congruence; [lia|]. rewrite Nat.iter_add. congruence. Qed.

Section auth.
Context `{MapOrder} `{Floats}.

(** A program that ends normally and leaves the world untouched. *)
Definition idle {A} (m : H A) : Prop := forall w, exists a w', m w = (Val a, w') /\ untouched 0 w w'.

Lemma idle_ret {A} (a : A) : idle (mret a).
Proof. intros w. exists a, w. split; [done|apply untouched_refl]. Qed.
Lemma idle_bind {A B} (m : H A) (f : A -> H B) : idle m -> (forall a, idle (f a)) -> idle (m ≫= f).
Proof.
  intros Hm Hf w. destruct (Hm w) as (a & w1 & E & Hu). destruct (Hf a w1) as (b & w2 & E2 & Hu2).
  exists b, w2. unfold mbind, H_bind. rewrite E. split; [done|exact (untouched_trans _ _ _ _ _ Hu Hu2)].
Qed.
Lemma idle_emit p f : idle (emit p f).
Proof. intros w. unfold emit. destruct (f (w_out w)) as [o e]. do 2 eexists. split; [done|]. split; simpl; try done. lia. Qed.
Lemma idle_err msg : idle (writeErr msg).
Proof. apply idle_emit. Qed.
Lemma idle_cfg c : idle (modw (setCfg c)).
Proof. intros w. do 2 eexists. split; [done|]. split; simpl; try done. lia. Qed.
Lemma finish_counts w : exists w', finishCommand w = (Val tt, w') /\ untouched 1 w w'.
Proof. eexists. split; [done|]. by split. Qed.

(** AUTH with a password that is not the configured one. *)
Lemma idle_Auth args w :
  AuthPassword (w_cfg w) <> EmptyString -> (forall a b, args = [a; b] -> sbytes b <> AuthPassword (w_cfg w)) ->
  exists e w', cmdAuth args w = (Val e, w') /\ untouched 0 w w'.
Proof.
  intros Hne Hb. unfold cmdAuth. unfold mbind, H_bind at 1. unfold getw.
  destruct (AuthPassword (w_cfg w)) as [|c p] eqn:Ep; [done|]. rewrite <- Ep in *. simpl.
  replace (sempty (AuthPassword (w_cfg w))) with false by (by rewrite Ep).
  destruct (argsNe args 2) eqn:En; [apply idle_err|].
  destruct args as [|a [|b [|c' l]]]; try discriminate En. cbn [argStr arg].
  replace (argStr [a; b] 1 =? AuthPassword (w_cfg w))%string with false; [apply idle_err|].
  symmetry. apply String.eqb_neq. by apply (Hb a b).
Qed.

Lemma Dispatch_Auth depth v a rest :
  ValueToArgs v = inr (a :: rest) -> ToUpper (sbytes a) = "AUTH"%string ->
  Dispatch depth v = cmdAuth (a :: rest).
Proof.
  intros Hv Ha. apply (Dispatch_member depth v (reg "AUTH" 0 (Z.lor FlagWrite FlagAdmin) cmdAuth) a rest Hv); [|..|done].
  - unfold builtins, registerServerCommands. set_solver.
  - unfold lowerName. simpl. rewrite <- (ToLower_ToUpper (sbytes a)), Ha. done.
Qed.

(** The session of a client that has to authenticate. *)
Definition locked (s : Session) : Prop := Authenticated s = false /\ InMulti s = false /\ InSubscribeMode s = false.

Lemma untouched_locked n w w' : untouched n w w' -> locked (w_sess w) -> locked (w_sess w').
Proof.
  intros Hu. pose proof (un_session _ _ _ Hu) as Hs. unfold locked, InSubscribeMode. unfold settings in Hs.
  injection Hs as _ -> _ _ _ _ -> -> ->. done.
Qed.

Lemma idle_dispatch cfg v w :
  TrimSpace (AuthPassword cfg) <> EmptyString -> locked (w_sess w) ->
  (forall a b, ValueToArgs v = inr [a; b] -> ToUpper (sbytes a) = "AUTH"%string -> sbytes b <> AuthPassword cfg) ->
  exists e w', dispatch cfg v w = (Val e, w') /\ untouched 0 w w'.
Proof.
  intros Hp Hl Hv.
  assert (exists e w', dispatch cfg v w = (Val e, w') /\ untouched 0 (setCfg cfg w) w') as (e & w' & E & Hu).
  { unfold dispatch. unfold modw at 1. unfold mbind at 1, H_bind at 1.
    destruct (ValueToArgs v) as [err|[|a rest]] eqn:Ev; [apply idle_ret|apply idle_ret|]. cbv zeta.
    unfold mbind at 1, H_bind at 1. unfold getw at 1. destruct Hl as (Ha & Hm & Hsub). cbn [setCfg w_sess].
    destruct (ToUpper (sbytes a) =? "QUIT")%string; [apply idle_bind; [apply idle_emit|intros; apply idle_ret]|].
    unfold needAuth. rewrite Ha, Hm, Hsub. destruct (TrimSpace (AuthPassword cfg)) eqn:Et; [done|]. simpl.
    destruct (ToUpper (sbytes a) =? "AUTH")%string eqn:Eq; [|apply idle_err]. apply String.eqb_eq in Eq.
    simpl. unfold registryDispatch. rewrite (Dispatch_Auth 2 v a rest Ev Eq). apply idle_Auth.
    - simpl. intros Hn. by rewrite Hn in Et.
    - simpl. intros a' b [= -> ->]. by apply (Hv a' b). }
  exists e, w'. split; [done|]. refine (untouched_trans 0 0 w _ w' _ Hu). split; simpl; try done. lia.
Qed.

Lemma idle_serveLoop turns input n w :
  (forall t, t ∈ turns -> TrimSpace (AuthPassword (t_cfg t)) <> EmptyString) -> locked (w_sess w) ->
  (forall v, commandOf input v -> ~ rightPassword turns v) ->
  exists k rest w', serveLoop turns input n w = (Val ((k + n)%nat, rest), w') /\ untouched k w w'.
Proof.
  revert input n w. induction turns as [|t turns IH]; intros input n w Ht Hl Hv; cbn [serveLoop];
    [exists 0%nat; do 2 eexists; by split; [|apply untouched_refl]|].
  assert (exists k rest w', (mret (n, input) : H (nat * stream)) w = (Val ((k + n)%nat, rest), w') /\ untouched k w w') as Hstop
    by (exists 0%nat; do 2 eexists; by split; [|apply untouched_refl]).
  destruct (t_done t); [done|].
  destruct (Parse input) as [[[err|v] input']|] eqn:Ep; [by exists 0%nat; do 2 eexists; split; [|apply untouched_refl]| |done].
  assert (forall k1 w1, untouched k1 w w1 ->
    exists k rest w', serveLoop turns input' (k1 + n) w1 = (Val ((k + n)%nat, rest), w') /\ untouched k w w') as Hrest.
  { intros k1 w1 Hu. destruct (IH input' (k1 + n)%nat w1) as (k & rest & w' & E & Hu').
    - intros t' Ht'. apply Ht. by right.
    - by eapply untouched_locked.
    - intros v' Hc (a & b & t' & ? & ? & ? & ?). apply (Hv v'); [by eapply commandOf_later|]. exists a, b, t'. split_and!; [done..|by right|done].
    - exists (k + k1)%nat, rest, w'. split; [by rewrite E, Nat.add_assoc|]. by eapply untouched_trans. }
  destruct (t_ready t); simpl.
  - destruct (idle_dispatch (t_cfg t) v w) as (e & w1 & E & Hu); [by apply Ht; left|done| |].
    { intros a b E1 E2 E3. apply (Hv v); [by eapply commandOf_now|]. exists a, b, t. split_and!; [done..|by left|done]. }
    unfold mbind at 1, H_bind at 1. rewrite E. destruct e; [by exists 0%nat; do 2 eexists|].
    destruct (finish_counts w1) as (w2 & E2 & Hu2). unfold mbind at 1, H_bind at 1. rewrite E2.
    pose proof (untouched_trans _ _ _ _ _ Hu Hu2) as Hu12. destruct (t_shutting t); [|by apply (Hrest 1%nat)].
    destruct (idle_err "LOADING server is shutting down" w2) as (e3 & w3 & E3 & Hu3).
    unfold mbind, H_bind. rewrite E3. exists 1%nat. do 2 eexists. split; [done|]. exact (untouched_trans _ _ _ _ _ Hu12 Hu3).
  - destruct (idle_err "LOADING Super-Cache is loading the dataset in memory" w) as (e3 & w3 & E3 & Hu3).
    unfold mbind, H_bind. rewrite E3. by apply (Hrest 0%nat).
Qed.

(** C21: A client of a server with a password that never sends the right one reaches nothing: however long it talks,
    its connection ends without a panic, and the keyspace, the replication stream, the messages pushed to other
    clients, the counts of hits and misses and the settings of its own session are as they were; of the subscriptions
    only its own are removed.  What moves is the count of the [n] requests it was answered, in its session and in the
    server's statistics, and the counts of connections, where it has come and gone. *)
Theorem unauthenticated_idle turns input w :
  (forall t, t ∈ turns -> TrimSpace (AuthPassword (t_cfg t)) <> EmptyString) -> locked (w_sess w) ->
  (forall v, commandOf input v -> ~ rightPassword turns v) ->
  exists n rest w1, serveConn turns input w = (Val (n, rest), closed w1) /\ untouched n (opened w) w1.
Proof.
  intros Ht Hl Hv. destruct (idle_serveLoop turns input 0 (opened w) Ht Hl Hv) as (k & rest & w1 & E & Hu).
  exists k, rest, w1. split; [|done]. unfold serveConn, onStats, mbind, H_bind, modw. unfold opened in E. rewrite E.
  by rewrite Nat.add_0_r.
Qed.
End auth.

(** ** Instances *)

(** The requests of a connection are the ones it can read from its bytes. *)
Lemma commandOf_requests s v n :
  commandOf s v -> (String.length (s_bytes s) <= n)%nat -> v ∈ requests n s.
Proof.
  intros Hc. revert n. induction Hc as [s v s' Ep|s v s' v' Ep Hc IH]; intros n Hn;
    destruct (Parse_returns s) as (r & s1 & Ep' & _ & Hw); rewrite Ep in Ep'; injection Ep' as <- <-;
    destruct (Hw _ eq_refl) as [_ Hlt]; (destruct n as [|n]; [lia|]); cbn [requests]; rewrite Ep; [by left|].
  right. apply IH. lia.
Qed.

Definition demoFloats : Floats.
Proof. by refine {| F := unit; fzero := tt; fadd _ _ := tt; ParseFloat _ := inr tt; FormatFloat _ := "0"%string |}. Defined.

Definition demoInfo : InfoProvider :=
  mkInfo 0 0 0 0 0 0 0 [] EmptyString EmptyString 0 0 0 EmptyString EmptyString EmptyString 0 EmptyString.

Definition demoWorld (os : list op) : World :=
  mkWorld (demo os) (NewSession 1 "10.0.0.1:5000" 0 0) EmptyString [] 0 0 NewSubscriptionManager [] zeroConfig demoInfo.

Definition request (words : list string) : Value := vArr (map vBulk words).
Definition bytesOf (cmds : list (list string)) : stream := mkStream (encodes (map request cmds)) io_EOF.
Definition up (cfg : Config) : Turn := mkTurn false true false cfg.

Definition passConfig (p : string) : Config :=
  let e := EmptyString in
  mkConfig e 0 e 0 [] e e e e e e e p 0 e e e e 0 0 0 0 0 e e 0 false None 0 e e 0 e None None 0 0 e e e e e e e e e.

Definition talk : list (list string) := [["SET"; "k"; "v"]; ["GET"; "k"]; ["FOO"]; ["QUIT"]; ["PING"]]%string.

Lemma serveConn_in_step_witness :
  let w' := snd (@serveConn idOrder demoFloats (replicate 5 (up zeroConfig)) (bytesOf talk) (demoWorld [])) in
  exists replies w1, @conversation idOrder demoFloats (replicate 5 (up zeroConfig)) (map request talk) (opened (demoWorld [])) 3 replies w1 /\
    Forall sane replies /\ w' = closed w1 /\ w_out w' = w_out (demoWorld []) +++ encodes replies.
Proof.
  intros w'.
  assert (fst (@serveConn idOrder demoFloats (replicate 5 (up zeroConfig)) (bytesOf talk) (demoWorld []))
    = Val (3%nat, mkStream (encodes (map request (drop 4 talk))) io_EOF)) as E by (vm_compute; reflexivity).
  replace (map request talk) with (requests (List.length (replicate 5 (up zeroConfig))) (bytesOf talk)) by (vm_compute; reflexivity).
  refine (@serveConn_in_step idOrder demoFloats (replicate 5 (up zeroConfig)) (bytesOf talk) (demoWorld []) 3 _ w' _ _ _).
  - by repeat constructor.
  - replace (requests _ _) with (map request talk) by (vm_compute; reflexivity).
    unfold talk. cbn [map]. repeat apply Forall_cons_2; [..|apply Forall_nil_2]; intros a rest [= <- <-];
      (split; [apply (bool_decide_eq_true_1 _); vm_compute|]); reflexivity.
  - rewrite <- E. apply surjective_pairing.
Defined.

Lemma serveConn_wf_witness :
  store_wf (db (w_st (snd (@serveConn idOrder demoFloats (replicate 5 (up zeroConfig)) (bytesOf talk) (demoWorld []))))).
Proof.
  destruct (demo_wf []) as [Hs Hc].
  eapply (@serveConn_wf idOrder demoFloats (replicate 5 (up zeroConfig)) (bytesOf talk) (demoWorld []));
    [exact Hs|by apply calm_stable|reflexivity|intros; by apply calm_stable|apply surjective_pairing].
Defined.

Definition guess : list (list string) := [["AUTH"; "wrong"]; ["SET"; "k"; "v"]; ["AUTH"]; ["MULTI"]]%string.

Lemma unauthenticated_idle_witness :
  exists n rest w1, @serveConn idOrder demoFloats (replicate 4 (up (passConfig "secret"))) (bytesOf guess) (demoWorld [])
    = (Val (n, rest), closed w1) /\ untouched n (opened (demoWorld [])) w1.
Proof.
  apply (@unauthenticated_idle idOrder demoFloats (replicate 4 (up (passConfig "secret"))) (bytesOf guess) (demoWorld [])).
  - intros t Ht. apply elem_of_replicate in Ht as [-> _]. discriminate.
  - by split_and!.
  - intros v Hv%(commandOf_requests _ _ 200); [|vm_compute; lia].
    replace (requests _ _) with (map request guess) in Hv by (vm_compute; reflexivity).
    intros (a & b & t & Ev & Ea & Ht & Eb). apply elem_of_replicate in Ht as [-> _]. simpl in Eb.
    repeat (apply elem_of_cons in Hv as [->|Hv]; [injection Ev; intros; subst; discriminate|]).
    by apply elem_of_nil in Hv.
Defined.
