(* ===== verification/TxnSpec.v ===== *)
(** * Transactions: queueing, the reply of EXEC, and WATCH as optimistic locking. *)

From S2P Require Import Prelude GoInt GoStr GoTime GoSort Resp RespSpec Config StoreBase Eviction.
From S2P Require Import StoreString StoreHash StoreList StoreSet StoreKeys StoreOps StoreHoare StoreView.
From S2P Require Import StoreInvOps StoreWf StoreExec StoreWatch Session Repl CmdBase CmdString CmdHash CmdList.
From S2P Require Import CmdSet CmdGeneric CmdServer CmdTxn Conn CmdFrame CmdWithin ConnInv CmdReply ConnSpec.

Section txn.
Context `{MapOrder} `{Floats}.

(** ** Queueing *)

(** The commands that MULTI does not queue. *)
Definition immediate (cmd : string) : bool :=
  isOneOf cmd ["QUIT"; "WATCH"; "UNWATCH"; "MULTI"; "EXEC"; "DISCARD"]%string.

(** Inside MULTI a command is only queued: the reply is QUEUED, the request is appended to the
    session's queue, and nothing else of the world changes, whatever the command is. *)
Theorem dispatch_queues cfg v a rest w :
  ValueToArgs v = inr (a :: rest) -> immediate (ToUpper (sbytes a)) = false ->
  InMulti (w_sess w) = true -> needAuth cfg (w_sess w) = false ->
  (List.length (MultiQueue (w_sess w)) < maxMultiQueueLen)%nat ->
  dispatch cfg v w =
    (Val None, setOut (w_out w +++ encode (vSimple "QUEUED")) (setSess (enqueue v (w_sess w)) (setCfg cfg w))).
Proof.
  intros Hv Hi Hm Ha Hl. unfold dispatch. rewrite Hv. unfold modw at 1. unfold mbind at 1, H_bind at 1.
  unfold mbind at 1, H_bind at 1. unfold getw. cbn [setCfg w_sess]. rewrite Ha, Hm.
  unfold immediate, isOneOf in Hi. apply bool_decide_eq_false in Hi. rewrite !not_elem_of_cons in Hi.
  destruct Hi as (Hi1 & Hi2 & Hi3 & Hi4 & Hi5 & Hi6 & _).
  rewrite (proj2 (String.eqb_neq _ _) Hi1), (proj2 (String.eqb_neq _ _) Hi2). cbn [andb].
  unfold isOneOf. rewrite bool_decide_eq_false_2 by (rewrite !not_elem_of_cons; auto using not_elem_of_nil).
  replace (maxMultiQueueLen <=? _)%nat with false by (symmetry; by apply Nat.leb_gt). reflexivity.
Qed.

(** ** The reply *)






Lemma calm_yield st : calm (env st) -> yield st = (tt, st).
Proof. unfold calm, yield. destruct st as [s [c ds tp r i]]. simpl. by intros ->. Qed.


(** ** EXEC *)







(** ** From WATCH to EXEC *)

Lemma cmdWatch_one a k w :
  calm (env (w_st w)) ->
  cmdWatch [a; k] w =
    (Val None, setOut (w_out w +++ encode (vSimple "OK"))
      (setSess (setWatched (<[sbytes k := WatchVersion (sbytes k) (db (w_st w))]> (WatchedKeys (w_sess w))) (w_sess w)) w)).
Proof.
  intros Hc. unfold cmdWatch. cbn [argsLt List.length Nat.ltb Nat.leb strsFrom drop map watchLoop].
  unfold mbind, H_bind, call, pureM, mbind, M_bind. rewrite calm_yield by done. unfold gets.
  replace (setSt (w_st w) w) with w by (by destruct w). reflexivity.
Qed.

End txn.

(** ** Instances *)





Definition queuedWorld : World :=
  let w := demoWorld [OSet "k" (Some "1"%string) noTTL] in
  setSess (setMulti true (map request [["INCR"; "k"]; ["GET"; "k"]]%string) (w_sess w)) w.


Lemma dispatch_queues_witness :
  let w := queuedWorld in
  let v := request ["FLUSHALL"]%string in
  @dispatch idOrder demoFloats zeroConfig v w =
    (Val None, setOut (w_out w +++ encode (vSimple "QUEUED")) (setSess (enqueue v (w_sess w)) (setCfg zeroConfig w))).
Proof.
  intros w v.
  apply (@dispatch_queues idOrder demoFloats zeroConfig v (Some "FLUSHALL"%string) [] w);
    [reflexivity|vm_compute; reflexivity|reflexivity|reflexivity|].
  apply Nat.ltb_lt. vm_compute. reflexivity.
Defined.
