(* ===== verification/Sync.v ===== *)
(** * A logic for commands on a primary and the replica that follows it.

    [runs] describes a handler on a quiet server without a memory limit: the keyspace it leaves and
    the payloads it replicates.  [sync m0 m h]: the primary has keyspace [m], the replica [m0]; when
    the replica has applied what [h] replicates, the two have the same keyspace. *)

From S2P Require Import Prelude GoInt GoStr GoTime GoSort Resp Config StoreBase Eviction StoreString.
From S2P Require Import StoreHash StoreList StoreSet StoreKeys StoreOps StoreHoare StoreView StoreInvOps.
From S2P Require Import StoreWf StoreExec StoreSpec StoreRefine StoreRefineColl StoreRefineKeys Session Repl ReplApply.
From S2P Require Import CmdBase CmdString CmdHash CmdList CmdSet CmdGeneric CmdServer CmdTxn.

Section logic.
Context (now : Time) `{MapOrder}.

Definition runs {A} (m : keyspace) (h : H A) (Q : A -> keyspace -> list ReplicatePayload -> Prop) : Prop :=
  forall w a w', h w = (Val a, w') -> quiet now (w_st w) -> reps now m (db (w_st w)) ->
  exists m' ps, quiet now (w_st w') /\ reps now m' (db (w_st w')) /\ w_repl w' = w_repl w ++ ps /\ Q a m' ps.

Definition sync {A} (m0 m : keyspace) (h : H A) : Prop := runs m h (fun _ m' ps => follows now ps m0 m').

(** A program that changes neither the keyspace nor the replication stream. *)
Definition reads {A} (m : keyspace) (h : H A) (Q : A -> Prop) : Prop :=
  runs m h (fun a m' ps => m' = m /\ ps = [] /\ Q a).

Lemma y_ret {A} m0 m (a : A) : m0 = m -> sync m0 m (mret a).
Proof. intros -> w b w' [= <- <-] Hq Hr. exists m, []. rewrite app_nil_r. split_and!; [done..|constructor]. Qed.

Lemma y_bind {A B} m0 m (h : H A) (f : A -> H B) Q :
  reads m h Q -> (forall a, Q a -> sync m0 m (f a)) -> sync m0 m (h ≫= f).
Proof.
  intros Hh Hf w b w' Heq Hq Hr. unfold mbind, H_bind in Heq. destruct (h w) as [[a| |] w1] eqn:E; [|done..].
  destruct (Hh _ _ _ E Hq Hr) as (m1 & ps & Hq1 & Hr1 & Hp1 & -> & -> & Ha). rewrite app_nil_r in Hp1.
  destruct (Hf a Ha _ _ _ Heq Hq1 Hr1) as (m2 & ps2 & ? & ? & Hp2 & ?). exists m2, ps2. rewrite Hp2, Hp1. by split_and!.
Qed.

Lemma y_reads {A} m (h : H A) Q : reads m h Q -> sync m m h.
Proof.
  intros Hh w b w' Heq Hq Hr. destruct (Hh _ _ _ Heq Hq Hr) as (m1 & ps & ? & ? & ? & -> & -> & _).
  exists m, []. split_and!; [done..|constructor].
Qed.

Lemma y_leaf {A} m0 m (h : H A) Q : m0 = m -> reads m h Q -> sync m0 m h.
Proof. intros ->. apply y_reads. Qed.

(** A store call that leaves the keyspace [snd x]. *)
Lemma y_call {A B} m0 m (c : M A) (f : A -> H B) x :
  does now m c x -> sync m0 (snd x) (f (fst x)) -> sync m0 m (call c ≫= f).
Proof.
  intros Hc Hf w b w' Heq Hq Hr. unfold mbind, H_bind, call, pureM, mbind, M_bind in Heq.
  destruct (yield (w_st w)) as [u st1] eqn:Ey. destruct (t_yield now (reps now m) _ _ _ Ey Hq Hr) as [Hq1 Hr1].
  destruct (c st1) as [a st2] eqn:Ec. destruct (Hc _ _ _ Ec Hq1 Hr1) as (Hq2 & -> & Hr2).
  by destruct (Hf (setSt st2 w) _ _ Heq Hq2 Hr2) as (m2 & ps2 & ? & ? & Hp2 & ?); exists m2, ps2.
Qed.

Lemma y_callOut {A B} m0 m (c : M (outcome A)) (f : A -> H B) x :
  does now m c x -> (forall a, fst x = Ret a -> sync m0 (snd x) (f a)) -> sync m0 m (callOut c ≫= f).
Proof.
  intros Hc Hf. unfold callOut.
  assert (sync m0 m (call c ≫= fun r => (match r with Ret a => mret a | Panic => crash end) ≫= f)) as Hs.
  { eapply y_call; [exact Hc|]. destruct (fst x) as [a|] eqn:E.
    - intros w b w' Heq. exact (Hf a eq_refl w b w' Heq).
    - by intros w b w'. }
  intros w b w' Heq. refine (Hs w b w' _). rewrite <- Heq. unfold mbind, H_bind. by destruct (call c w) as [[a| |] w1].
Qed.

Lemma y_Replicate {A} m0 m0' m p (f : unit -> H A) :
  mirrors now p m0 m0' -> sync m0' m (f tt) -> sync m0 m (Replicate p ≫= f).
Proof.
  intros Hp Hf w b w' Heq Hq Hr. unfold mbind, H_bind, Replicate, modw in Heq.
  destruct (Hf (addRepl p w) _ _ Heq Hq Hr) as (m2 & ps2 & ? & ? & Hp2 & ?).
  exists m2, (p :: ps2). split_and!; [done..| |by econstructor]. rewrite Hp2. simpl. by rewrite <- app_assoc.
Qed.

Lemma follows_app ps ps' m m1 m2 : follows now ps m m1 -> follows now ps' m1 m2 -> follows now (ps ++ ps') m m2.
Proof. induction 1; simpl; [done|]. intros. econstructor; eauto. Qed.

(** After a part of a handler that replicates what it does. *)
Lemma y_seq {A B} m0 m (h : H A) (f : A -> H B) :
  sync m0 m h -> (forall a m1, sync m1 m1 (f a)) -> sync m0 m (h ≫= f).
Proof.
  intros Hh Hf w b w' Heq Hq Hr. unfold mbind, H_bind in Heq. destruct (h w) as [[a| |] w1] eqn:E; [|done..].
  destruct (Hh _ _ _ E Hq Hr) as (m1 & ps & Hq1 & Hr1 & Hp1 & Hps).
  destruct (Hf a m1 _ _ _ Heq Hq1 Hr1) as (m2 & ps2 & ? & ? & Hp2 & ?). exists m2, (ps ++ ps2).
  split_and!; [done..| |by eapply follows_app]. by rewrite Hp2, Hp1, app_assoc.
Qed.

Lemma y_assoc {A B C} m0 m (h : H A) (f : A -> H B) (g : B -> H C) :
  sync m0 m (h ≫= fun a => f a ≫= g) -> sync m0 m ((h ≫= f) ≫= g).
Proof.
  intros Hs w b w' Heq. refine (Hs w b w' _). rewrite <- Heq. unfold mbind, H_bind. by destruct (h w) as [[a| |] w1].
Qed.

Lemma y_pure {A B} m0 m (a : A) (f : A -> H B) : sync m0 m (f a) -> sync m0 m (mret a ≫= f).
Proof. intros Hs w b w' Heq. exact (Hs w b w' Heq). Qed.

(** ** Programs that only read *)

Lemma rd_weaken {A} m (h : H A) (Q Q' : A -> Prop) : reads m h Q -> (forall a, Q a -> Q' a) -> reads m h Q'.
Proof.
  intros Hh HQ w a w' Heq Hq Hr. destruct (Hh _ _ _ Heq Hq Hr) as (m1 & ps & ? & ? & ? & ? & ? & ?).
  exists m1, ps. split_and!; eauto.
Qed.

Lemma rd_ret {A} m (a : A) (Q : A -> Prop) : Q a -> reads m (mret a) Q.
Proof. intros HQ w b w' [= <- <-] Hq Hr. exists m, []. rewrite app_nil_r. by split_and!. Qed.

Lemma rd_bind {A B} m (h : H A) (f : A -> H B) P Q :
  reads m h P -> (forall a, P a -> reads m (f a) Q) -> reads m (h ≫= f) Q.
Proof.
  intros Hh Hf w b w' Heq Hq Hr. unfold mbind, H_bind in Heq. destruct (h w) as [[a| |] w1] eqn:E; [|done..].
  destruct (Hh _ _ _ E Hq Hr) as (m1 & ps & Hq1 & Hr1 & Hp1 & -> & -> & Ha). rewrite app_nil_r in Hp1.
  destruct (Hf a Ha _ _ _ Heq Hq1 Hr1) as (m2 & ps2 & ? & ? & Hp2 & ?). exists m2, ps2. split_and!; [done|done|congruence|tauto..].
Qed.

(** A change of the world outside the store and the replication stream. *)
Lemma rd_mod m g : (forall w, w_st (g w) = w_st w) -> (forall w, w_repl (g w) = w_repl w) -> reads m (modw g) (fun _ => True).
Proof.
  intros Hs Hp w b w' [= <- <-] Hq Hr. exists m, []. rewrite Hs, Hp, app_nil_r. by split_and!.
Qed.

Lemma rd_getw {A} m (f : World -> A) : reads m (getw f) (fun _ => True).
Proof. intros w b w' [= <- <-] Hq Hr. exists m, []. rewrite app_nil_r. by split_and!. Qed.

Lemma rd_emit m p f : reads m (emit p f) (fun _ => True).
Proof.
  intros w b w' Heq Hq Hr. unfold emit in Heq. destruct (f (w_out w)) as [o e]. injection Heq as <- <-.
  exists m, []. simpl. rewrite app_nil_r. by split_and!.
Qed.

Lemma rd_stop {A} m (Q : A -> Prop) : reads m crash Q /\ reads m stuck Q.
Proof. split; by intros w b w'. Qed.

Lemma rd_tri {A} m (c : M A) (Q : A -> Prop) :
  tri now (reps now m) c (fun a s => reps now m s /\ Q a) -> reads m (pureM c) Q.
Proof.
  intros Hc w b w' Heq Hq Hr. unfold pureM in Heq. destruct (c (w_st w)) as [a st1] eqn:E. injection Heq as <- <-.
  destruct (Hc _ _ _ E Hq Hr) as (? & ? & ?). exists m, []. simpl. rewrite app_nil_r. by split_and!.
Qed.

Lemma rd_call {A} m (c : M A) (Q : A -> Prop) :
  tri now (reps now m) c (fun a s => reps now m s /\ Q a) -> reads m (call c) Q.
Proof. intros Hc. apply rd_tri. eapply t_bind; [apply t_yield|]. by intros []. Qed.

Lemma rd_does {A} m (c : M A) a : does now m c (a, m) -> reads m (call c) (fun r => r = a).
Proof. intros Hc. apply rd_call. eapply t_conseq; [exact Hc|done|]. by intros b s _ [-> ?]. Qed.

Lemma rd_now m : reads m (pureM Now) (fun t => t = now).
Proof. apply rd_tri, t_now. Qed.
Lemma rd_ranged {A} m (l : list A) : reads m (pureM (ranged l)) (fun r => r ≡ₚ l).
Proof. apply rd_tri, t_ranged. Qed.
Lemma rd_intn m n : reads m (pureM (IntN n)) (fun _ => True).
Proof. apply rd_tri. intros st a st' [= <- <-] [H1 H2 H3 H4 H5] Hr. done. Qed.

Lemma rd_err m msg : reads m (writeErr msg) (fun _ => True).
Proof. apply rd_emit. Qed.
Lemma rd_simple m s : reads m (writeSimple s) (fun _ => True).
Proof. apply rd_emit. Qed.
Lemma rd_OK m : reads m writeOK (fun _ => True).
Proof. apply rd_emit. Qed.
Lemma rd_nil m : reads m writeBulkNil (fun _ => True).
Proof. apply rd_emit. Qed.
Lemma rd_bulk m b : reads m (writeBulk b) (fun _ => True).
Proof. destruct b; apply rd_emit. Qed.
Lemma rd_int m n : reads m (writeInt n) (fun _ => True).
Proof. apply rd_emit. Qed.
Lemma rd_arr m p l : reads m (writeArr p l) (fun _ => True).
Proof. apply rd_emit. Qed.
Lemma rd_wrongArgs m c : reads m (wrongArgs c) (fun _ => True).
Proof. apply rd_emit. Qed.
Lemma rd_fail m p e : reads m (fail p e) (fun _ => True).
Proof. by apply rd_ret. Qed.
Lemma rd_failType m p e : reads m (failType p e) (fun _ => True).
Proof. unfold failType. destruct (isWrongType e); [apply rd_err|apply rd_fail]. Qed.
Lemma rd_failOOM m p e : reads m (failOOM p e) (fun _ => True).
Proof. unfold failOOM. destruct (Is e ErrOOM); [apply rd_err|apply rd_fail]. Qed.
Lemma rd_failTypeOOM m p e : reads m (failTypeOOM p e) (fun _ => True).
Proof. unfold failTypeOOM. destruct (isWrongType e); [apply rd_err|apply rd_failOOM]. Qed.

Lemma rd_session m f : reads m (onSession f) (fun _ => True).
Proof. by apply rd_mod. Qed.
Lemma rd_hit m n : reads m (keyspaceHit n) (fun _ => True).
Proof. unfold keyspaceHit. destruct (n <=? 0); [by apply rd_ret|by apply rd_mod]. Qed.
Lemma rd_miss m n : reads m (keyspaceMiss n) (fun _ => True).
Proof. unfold keyspaceMiss. destruct (n <=? 0); [by apply rd_ret|by apply rd_mod]. Qed.
End logic.

(** ** Automation *)

Create HintDb sync discriminated.
#[export] Hint Constants Opaque : sync.
#[export] Hint Transparent slice Time : sync.
#[export] Hint Resolve rd_err rd_simple rd_OK rd_nil rd_bulk rd_int rd_arr rd_wrongArgs rd_fail rd_failType rd_failOOM rd_failTypeOOM : sync.
#[export] Hint Resolve rd_now rd_ranged rd_intn rd_session rd_hit rd_miss rd_getw rd_emit : sync.

(** [rsteps]: walk through a program that only reads. *)
Ltac rstep :=
  lazymatch goal with
  | |- reads _ _ (mbind _ _) _ => eapply rd_bind; [|intros ? ?]
  | |- reads _ _ (match ?x with _ => _ end) _ => destruct x
  | |- reads _ _ (let '(_, _) := ?x in _) _ => destruct x
  | |- reads _ _ (mret _) _ => apply rd_ret; try exact Logic.I
  | |- reads _ _ crash _ => apply rd_stop
  | |- reads _ _ stuck _ => apply rd_stop
  | |- reads _ _ (modw _) _ => apply rd_mod; intros; reflexivity
  | |- reads _ _ _ _ => first [solve [eauto with sync] | eapply rd_weaken; [solve [eauto with sync]|intros; exact Logic.I]]
  end; cbv zeta.
Ltac rsteps := repeat rstep.

(** [ysteps]: the same for [sync], up to the store calls that write. *)
Ltac ystep :=
  cbn [fst snd];
  lazymatch goal with
  | |- sync _ _ _ (match ?x with _ => _ end) => destruct x
  | |- sync _ _ _ (let '(_, _) := ?x in _) => destruct x
  | |- sync _ _ _ (mret _) => apply y_ret; reflexivity
  | |- sync _ _ _ crash => by intros w b w'
  | |- sync _ _ _ stuck => by intros w b w'
  | |- sync _ _ _ (mbind _ (mbind _ _)) => apply y_assoc
  | |- sync _ _ _ (mbind _ (mret _)) => apply y_pure
  | |- sync _ _ _ (mbind _ (match ?x with _ => _ end)) => destruct x
  | |- sync _ _ _ (mbind _ _) => eapply y_bind; [solve [rsteps]|intros ? ?]
  | |- sync _ _ _ _ => eapply y_leaf; [reflexivity|solve [rsteps]]
  end; cbv zeta.
Ltac ysteps := repeat ystep.
