(* ===== verification/Converge.v ===== *)
(** * Replicas converge: what every command replicates reproduces its effect. *)

From S2P Require Import Prelude GoInt GoStr GoTime GoSort Resp Config StoreBase Eviction StoreString.
From S2P Require Import StoreHash StoreList StoreSet StoreKeys StoreOps StoreHoare StoreView StoreInvOps.
From S2P Require Import StoreWf StoreExec StoreSpec StoreRefine StoreRefineColl StoreRefineKeys Session Repl ReplApply.
From S2P Require Import CmdBase CmdString CmdHash CmdList CmdSet CmdGeneric CmdServer CmdTxn CmdFrame CmdWithin Sync.

Section reading.
Context (now : Time) `{MapOrder} `{Floats}.

(** ** Calls that only read *)

Lemma rd_Get m k : reads now m (call (Get k)) (fun r => r = get m k).
Proof. apply rd_does, d_Get. Qed.
Lemma rd_MGet m ks : reads now m (call (MGet ks)) (fun r => r = mget m ks).
Proof. apply rd_does, d_MGet. Qed.
Lemma rd_HGet m k f : reads now m (call (HGet k f)) (fun _ => True).
Proof. eapply rd_weaken; [apply rd_does, d_HGet|done]. Qed.
Lemma rd_HGetAll m k : reads now m (call (HGetAll k)) (fun _ => True).
Proof. eapply rd_weaken; [apply rd_does, d_HGetAll|done]. Qed.
Lemma rd_HExists m k f : reads now m (call (HExists k f)) (fun _ => True).
Proof. eapply rd_weaken; [apply rd_does, d_HExists|done]. Qed.
Lemma rd_HLen m k : reads now m (call (HLen k)) (fun _ => True).
Proof. eapply rd_weaken; [apply rd_does, d_HLen|done]. Qed.
Lemma rd_LLen m k : reads now m (call (LLen k)) (fun _ => True).
Proof. eapply rd_weaken; [apply rd_does, d_LLen|done]. Qed.
Lemma rd_LIndex m k i : reads now m (call (LIndex k i)) (fun _ => True).
Proof. eapply rd_weaken; [apply rd_does, d_LIndex|done]. Qed.
Lemma rd_LRange m k a b : reads now m (call (LRange k a b)) (fun _ => True).
Proof. eapply rd_weaken; [apply rd_does, d_LRange|done]. Qed.
Lemma rd_SIsMember m k x : reads now m (call (SIsMember k x)) (fun _ => True).
Proof. eapply rd_weaken; [apply rd_does, d_SIsMember|done]. Qed.
Lemma rd_SCard m k : reads now m (call (SCard k)) (fun _ => True).
Proof. eapply rd_weaken; [apply rd_does, d_SCard|done]. Qed.
Lemma rd_SMembers m k : reads now m (call (SMembers k)) (fun _ => True).
Proof. apply rd_call. eapply t_conseq; [apply (t_SMembers now m k)|done|]. by intros a s _ [? _]. Qed.
Lemma rd_Type m k : reads now m (call (Type_ k)) (fun _ => True).
Proof. eapply rd_weaken; [apply rd_does, d_Type|done]. Qed.
Lemma rd_Exists m ks :
  reads now m (call (Exists ks)) (fun n => n = Z.of_nat (List.length (filter (fun k => k ∈ dom m) ks))).
Proof. apply rd_does. exact (d_existsLoop now m ks 0). Qed.
Lemma rd_Keys m p : reads now m (call (Keys p)) (fun _ => True).
Proof. apply rd_call. eapply t_conseq; [apply (t_Keys now m p)|done|]. by intros a s _ [? _]. Qed.
Lemma rd_DBSize m : reads now m (call DBSize) (fun _ => True).
Proof. eapply rd_weaken; [apply rd_does, d_DBSize|done]. Qed.
Lemma rd_ExpireKeyCount m : reads now m (call ExpireKeyCount) (fun _ => True).
Proof. eapply rd_weaken; [apply rd_does, d_ExpireKeyCount|done]. Qed.
Lemma rd_gets {A} m (f : Store -> A) : reads now m (call (gets f)) (fun _ => True).
Proof. apply rd_call. eapply t_conseq; [apply t_gets|done|]. by intros a s _ [? _]. Qed.
Lemma rd_MemBytes m : reads now m (call MemBytes) (fun _ => True).
Proof. apply rd_gets. Qed.
Lemma rd_Scan m c p n ty : reads now m (callOut (Scan c p n ty)) (fun _ => True).
Proof.
  unfold callOut. eapply rd_bind; [apply rd_does, d_Scan|]. intros r _. destruct r; [by apply rd_ret|apply rd_stop].
Qed.
End reading.
#[export] Hint Resolve rd_Get rd_MGet rd_HGet rd_HGetAll rd_HExists rd_HLen rd_LLen rd_LIndex rd_LRange rd_SIsMember rd_SCard
  rd_SMembers rd_Type rd_Exists rd_Keys rd_DBSize rd_ExpireKeyCount rd_gets rd_MemBytes rd_Scan : sync.

Section helpers.
Context (now : Time) `{MapOrder} `{Floats}.

Lemma rd_fromNow m n u : reads now m (fromNow n u) (fun t => t = Add now (DurationMul n u)).
Proof. unfold fromNow. eapply rd_bind; [apply rd_now|]. intros t ->. by apply rd_ret. Qed.
Lemma rd_untilMs m t : reads now m (untilMs t) (fun n => n = Z.max 0 (Milliseconds (Sub t now))).
Proof. unfold untilMs. eapply rd_bind; [apply rd_now|]. intros n ->. by apply rd_ret. Qed.
#[local] Hint Resolve rd_fromNow rd_untilMs : sync.
Lemma rd_countHits m vs : reads now m (countHits vs) (fun _ => True).
Proof. induction vs as [|v vs IH]; cbn [countHits]; rsteps. Qed.
Lemma rd_hitIfHash m k : reads now m (hitIfHash k) (fun _ => True).
Proof. unfold hitIfHash. rsteps. Qed.
Lemma rd_hmgetLoop m k fs : reads now m (hmgetLoop k fs) (fun _ => True).
Proof. induction fs as [|f fs IH]; cbn [hmgetLoop]; rsteps. Qed.
Lemma rd_sortedMembers m st : reads now m (sortedMembers st) (fun _ => True).
Proof. unfold sortedMembers. rsteps. Qed.
Lemma rd_unionLoop m ks st : reads now m (unionLoop ks st) (fun _ => True).
Proof. revert st. induction ks as [|k ks IH]; intros st; cbn [unionLoop]; rsteps. Qed.
Lemma rd_interLoop m ks st : reads now m (interLoop ks st) (fun _ => True).
Proof. revert st. induction ks as [|k ks IH]; intros st; cbn [interLoop]; rsteps. Qed.
Lemma rd_diffLoop m ks st : reads now m (diffLoop ks st) (fun _ => True).
Proof. revert st. induction ks as [|k ks IH]; intros st; cbn [diffLoop]; rsteps. Qed.
#[local] Hint Resolve rd_sortedMembers rd_unionLoop rd_interLoop rd_diffLoop : sync.
Lemma rd_unionMembers m ks : reads now m (unionMembers ks) (fun _ => True).
Proof. unfold unionMembers. rsteps. Qed.
Lemma rd_interMembers m ks : reads now m (interMembers ks) (fun _ => True).
Proof. unfold interMembers. rsteps. Qed.
Lemma rd_diffMembers m ks : reads now m (diffMembers ks) (fun _ => True).
Proof. unfold diffMembers. rsteps. Qed.
Lemma rd_section m s n b : reads now m b (fun _ => True) -> reads now m (section s n b) (fun _ => True).
Proof. intros. unfold section. rsteps. Qed.
Lemma rd_Publish m ch x : reads now m (Publish ch x) (fun _ => True).
Proof. unfold Publish. rsteps. Qed.
Lemma rd_watchLoop m ks : reads now m (watchLoop ks) (fun _ => True).
Proof. induction ks as [|k ks IH]; cbn [watchLoop]; rsteps. Qed.

Lemma rd_existingKeys m ks acc :
  reads now m (existingKeys ks acc) (fun s => s = list_to_set (filter (fun k => k ∈ dom m) ks) ∪ acc).
Proof.
  revert acc. induction ks as [|k ks IH]; intros acc; cbn [existingKeys].
  { apply rd_ret. set_solver. }
  eapply rd_bind; [apply rd_Exists|]. intros n ->. eapply rd_weaken; [apply IH|]. intros s ->.
  rewrite !filter_cons. destruct (decide (k ∈ dom m)); simpl; set_solver.
Qed.
End helpers.
#[export] Hint Resolve rd_fromNow rd_untilMs rd_countHits rd_hitIfHash rd_hmgetLoop rd_unionMembers rd_interMembers
  rd_diffMembers rd_section rd_Publish rd_watchLoop rd_existingKeys : sync.

(** ** Expiries that survive replication *)

Section expiry.
Context (now : Time).

(** The replica, which gets the remaining time in whole milliseconds, computes the same expiry. *)
Definition exact (t : Time) : Prop :=
  IsZero t = true \/ replicaExpiry now (Z.max 0 (Milliseconds (Sub t now))) = t.

Lemma exact_noTTL : exact noTTL.
Proof. by left. Qed.

Lemma exact_ms n : 0 < n -> n * Millisecond <= MaxInt64 -> exact (Add now (DurationMul n Millisecond)).
Proof.
  intros Hn Hm. right.
  assert (DurationMul n Millisecond = n * Millisecond) as Hd.
  { unfold DurationMul. apply wrap64_id. unfold is_int64, Millisecond in *. apply andb_true_iff. split; apply Z.leb_le; unfold MinInt64; lia. }
  assert (Sub (Add now (DurationMul n Millisecond)) now = n * Millisecond) as Hs.
  { rewrite Hd. unfold Sub, Add, MinInt64, Millisecond in *. lia. }
  rewrite Hs. unfold Milliseconds at 1. rewrite Z.quot_mul by done. rewrite Z.max_r by lia.
  unfold replicaExpiry. by rewrite (proj2 (Z.gtb_lt _ _)).
Qed.

Lemma exact_sec n : 0 < n -> n * Second <= MaxInt64 -> exact (Add now (DurationMul n Second)).
Proof.
  intros Hn Hm. replace (DurationMul n Second) with (DurationMul (n * 1000) Millisecond);
    [apply exact_ms; unfold Second, Millisecond in *; lia|]. unfold DurationMul, Second, Millisecond. f_equal. lia.
Qed.
End expiry.

Section strings.
Context (now : Time) `{MapOrder} `{Floats}.

Lemma y_SET {A} m0 m k v t (f : unit -> H A) :
  exact now t -> sync now (put now k (VString (cloneBytes v), t) m0) m (f tt) ->
  sync now m0 m (ReplicateSet k v t ≫= f).
Proof.
  intros Ht Hf. unfold ReplicateSet.
  assert (forall n, replicaExpiry now n = t -> sync now m0 m (Replicate (pValue "SET" k v n) ≫= f)) as Hgo.
  { intros n Hn. eapply y_Replicate; [apply mir_SET|]. by rewrite Hn. }
  destruct (IsZero t) eqn:Ez.
  - apply (Hgo 0). unfold replicaExpiry. simpl. unfold IsZero, noTTL in *. zify_bool. done.
  - assert (sync now m0 m (untilMs t ≫= fun n => Replicate (pValue "SET" k v n) ≫= f)) as Hs.
    { eapply y_bind; [apply rd_untilMs|]. intros n ->. destruct Ht as [Ht|Ht]; [congruence|by apply Hgo]. }
    intros w b w' Heq. refine (Hs w b w' _). rewrite <- Heq. unfold mbind, H_bind. by destruct (untilMs t w) as [[a| |] w1].
Qed.

(** [yput]: a string was stored and replicated. *)
Ltac yput := eapply y_SET; [done || apply exact_noTTL|]; ysteps.
Ltac ycall L := eapply y_call; [apply L|]; cbn [fst snd].

Lemma y_Get args m : sync now m m (cmdGet args).
Proof. unfold cmdGet, replyValue. ysteps. Qed.

Lemma y_applySet m k v t nx xx : exact now t -> sync now m m (applySet k v t nx xx).
Proof.
  intros Ht. unfold applySet. destruct (nx && negb xx); [|destruct (xx && negb nx)].
  - ycall d_SetNX. destruct (m !! k); ysteps; yput.
  - ycall d_SetXX. destruct (m !! k); ysteps; yput.
  - apply y_assoc. ycall d_Set. ysteps; yput.
Qed.

(** No key is due at this very instant, and no collection is empty. *)
Definition settled (m : keyspace) : Prop :=
  forall k v t, m !! k = Some (v, t) ->
  (IsZero t = true \/ now < t) /\ v <> VSet ∅ /\ v <> VHash ∅ /\ v <> VList [].

Lemma settled_remaining m u k : settled m -> snd (remaining now u k m) = m.
Proof.
  intros Hm. unfold remaining. destruct (m !! k) as [[v t]|] eqn:E; [|done]. destruct (Hm _ _ _ E) as [[->|Ht] _]; [done|].
  destruct (IsZero t); [done|]. replace (Sub t now <=? 0) with false; [done|].
  symmetry. apply Z.leb_gt. unfold Sub, MinInt64, MaxInt64. lia.
Qed.

Lemma rd_ttl m u k : settled m -> 0 < u -> reads now m (call (ttlWith u k)) (fun n => n * u <= MaxInt64).
Proof.
  intros Hm Hu. pose proof (d_ttlWith now m u k) as Hd. pose proof (settled_remaining m u k Hm) as Hs.
  destruct (remaining now u k m) as [n m'] eqn:E. simpl in Hs. subst m'.
  eapply rd_weaken; [by apply rd_does|]. intros a ->. unfold remaining in E.
  destruct (m !! k) as [[v t]|]; [|injection E as <-; unfold MaxInt64; lia].
  destruct (IsZero t); [injection E as <-; unfold MaxInt64; lia|].
  destruct (Sub t now <=? 0) eqn:El; [injection E as <-; unfold MaxInt64; lia|]. injection E as <-. zify_bool.
  rewrite Z.quot_div_nonneg by lia. pose proof (Z.mul_div_le (Sub t now) u Hu). unfold Sub, MinInt64, MaxInt64 in *. lia.
Qed.

Lemma rd_setExpiry m k o : settled m -> o_at o = None -> o_exMs o * Millisecond <= MaxInt64 -> o_exMs o <> 0 ->
  reads now m (setExpiry k o) (exact now).
Proof.
  intros Hm Hat Hex Hne. unfold setExpiry. rewrite Hat.
  assert (reads now m (if o_exMs o >=? 0 then fromNow (o_exMs o) Millisecond else mret noTTL) (exact now)) as He.
  { destruct (o_exMs o >=? 0) eqn:E.
    - eapply rd_weaken; [apply rd_fromNow|]. intros t ->. apply exact_ms; [zify_bool; lia|done].
    - apply rd_ret, exact_noTTL. }
  eapply rd_bind; [exact He|]. intros t Ht. destruct (o_keepttl o); [|by apply rd_ret].
  eapply rd_bind; [by apply rd_ttl|]. intros ms Hms. cbv beta in Hms. destruct (ms >? 0) eqn:E; [|by apply rd_ret].
  eapply rd_weaken; [apply rd_fromNow|]. intros t' ->. apply exact_ms; [zify_bool; lia|done].
Qed.

(** The options of SET whose expiry replicates: no absolute time, and no overflow. *)
Definition plainOpts (o : setOpts) : Prop :=
  o_at o = None /\ o_exMs o * Millisecond <= MaxInt64 /\ o_exMs o <> 0.

Lemma y_Set args m : settled m ->
  (forall o, parseSetOpts (drop 3 args) (mkSetOpts false false false false (-1) None) = inr o -> plainOpts o) ->
  sync now m m (cmdSet args).
Proof.
  intros Hm Ho. unfold cmdSet. ystep; [ysteps|]. destruct (parseSetOpts _ _) as [msg|o]; [ysteps|].
  destruct (Ho o eq_refl) as (Hat & Hex & Hne).
  eapply y_bind; [by apply rd_setExpiry|]. intros t Ht.
  ysteps; (apply y_seq; [by apply y_applySet|]; intros r m1; ysteps).
Qed.

Lemma y_SetNX args m : sync now m m (cmdSetNX args).
Proof.
  unfold cmdSetNX. ystep; [ysteps|]. ycall d_SetNX. destruct (m !! argStr args 1); cbn [fst snd]; [ysteps|]. yput.
Qed.

Lemma y_setWithTTL name p u args m :
  (forall n, ParseIntArg (arg args 2) = inr n -> 0 < n -> exact now (Add now (DurationMul n u))) ->
  sync now m m (setWithTTL name p u args).
Proof.
  intros Hn. unfold setWithTTL. ystep; [ysteps|]. destruct (ParseIntArg _) as [e|n]; [ysteps|].
  destruct (n <=? 0) eqn:E; [ysteps|]. eapply y_bind; [apply rd_fromNow|]. intros t ->.
  ycall d_Set. cbn [fst snd]. eapply y_SET; [apply Hn; [done|zify_bool; lia]|]. ysteps.
Qed.

Lemma y_GetSet args m : sync now m m (cmdGetSet args).
Proof.
  unfold cmdGetSet. ystep; [ysteps|]. ycall d_GetSet.
  destruct (stringAt m _); cbn [fst snd wrongType]; try (yput); ysteps.
Qed.

Lemma y_DEL {A} m0 m k (f : unit -> H A) : sync now (delete k m0) m (f tt) -> sync now m0 m (ReplicateDel k ≫= f).
Proof. apply y_Replicate, mir_DEL. Qed.

Lemma y_GetDel args m : sync now m m (cmdGetDel args).
Proof.
  unfold cmdGetDel. ystep; [ysteps|]. ystep. destruct a as [err|[v|]]; [ysteps| |ysteps].
  ycall d_Del. rewrite filter_not_one. apply y_DEL. ysteps.
Qed.

Lemma y_GetEx args m : (List.length args <= 2)%nat -> sync now m m (cmdGetEx args).
Proof.
  intros Hl. unfold cmdGetEx. ystep; [ysteps|].
  assert (drop 2 args = []) as -> by (by apply drop_ge). cbn [getExOpts]. ysteps.
Qed.

Lemma y_MGet args m : sync now m m (cmdMGet args).
Proof. unfold cmdMGet. ysteps. Qed.

(** ** Several keys *)

Lemma y_replicateSets {A} (ps : gmap string slice) kvs m0 m (f : unit -> H A) :
  Forall (fun kv => ps !! fst kv = Some (snd kv)) kvs ->
  sync now (bindAll (fun k => default None (ps !! k)) (map fst kvs) m0) m (f tt) ->
  sync now m0 m (replicateSets kvs ≫= f).
Proof.
  intros Hk. revert m0. induction Hk as [|[k v] kvs Hv Hk IH]; intros m0 Hf; cbn [replicateSets].
  { exact Hf. }
  apply y_assoc. eapply y_SET; [apply exact_noTTL|]. rewrite put_noTTL. apply IH.
  cbn [map fst snd] in Hf, Hv. rewrite bindAll_cons in Hf. cbv beta in Hf.
  unfold slice in *. by rewrite Hv in Hf.
Qed.

Lemma y_stored {A} (ps : gmap string slice) m (f : unit -> H A) :
  sync now (strings ps ∪ m) (strings ps ∪ m) (f tt) ->
  sync now m (strings ps ∪ m) (kvs ← pureM (ranged (map_to_list ps)); replicateSets kvs ≫= f).
Proof.
  intros Hf. eapply y_bind; [apply rd_ranged|]. intros kvs Hp. cbv beta in Hp. apply (y_replicateSets ps).
  - rewrite Hp. apply Forall_forall. intros [k v] Hin. by apply elem_of_map_to_list in Hin.
  - rewrite bindAll_strings; [done|]. by rewrite Hp.
Qed.

Lemma y_MSet args m : sync now m m (cmdMSet args).
Proof. unfold cmdMSet. ystep; [ysteps|]. ycall d_MSet. apply (y_stored _ m (fun _ => writeOK)). ysteps. Qed.

Lemma y_MSetNX args m : sync now m m (cmdMSetNX args).
Proof.
  unfold cmdMSetNX. ystep; [ysteps|]. ycall d_MSetNX. destruct (bool_decide _); cbn [fst snd]; [|ysteps].
  apply (y_stored _ m (fun _ => writeInt 1)). ysteps.
Qed.

Lemma y_replicateDels {A} ks m0 m (f : unit -> H A) :
  sync now (filter (fun kb => kb.1 ∉ ks) m0) m (f tt) -> sync now m0 m (replicateDels ks ≫= f).
Proof.
  revert m0. induction ks as [|k ks IH]; intros m0 Hf; cbn [replicateDels].
  - rewrite map_filter_id in Hf by (intros; set_solver). exact Hf.
  - apply y_assoc, y_DEL, IH. by rewrite <- filter_notin_cons.
Qed.

Lemma y_Del args m : sync now m m (cmdDel args).
Proof.
  unfold cmdDel. ystep; [ysteps|]. eapply y_bind; [apply rd_existingKeys|]. intros ks ->. ycall d_Del.
  eapply y_bind; [apply rd_ranged|]. intros l Hl. cbv beta in Hl. apply y_replicateDels.
  set (keys := strsFrom 1 args) in *. set (E := list_to_set _ ∪ ∅) in *.
  assert (filter (fun kb : string * binding => kb.1 ∉ l) m = filter (fun kb : string * binding => kb.1 ∉ keys) m) as ->; [|ysteps].
  apply map_eq. intros k. apply option_eq. intros b. rewrite !map_lookup_filter_Some. simpl.
  assert (forall k, k ∈ l <-> k ∈ keys /\ k ∈ dom m) as Hin.
  { intros k'. rewrite Hl, elem_of_elements. unfold E. rewrite elem_of_union, elem_of_list_to_set, list_elem_of_filter. set_solver. }
  rewrite Hin. split; intros [Hb Hn]; (split; [done|]); [|tauto]. intros Hk. apply Hn. split; [done|]. by apply elem_of_dom_2 in Hb.
Qed.

(** ** Counters *)

Lemma y_incremented m k v n x (args : list slice) p :
  ttlOf m k = noTTL -> x = (updating (stringAt m k) "incr: " k m v (fun b t =>
    rbind (addTo b n) (fun x => inr (Some (VString (Some (FormatInt x)), t), x)))) ->
  sync now m (snd x) (replyIncr p k (fst x)).
Proof.
  intros Ht ->. unfold updating, stringAt, replyIncr, failIncr. unfold ttlOf in Ht.
  assert (forall z : Z, sync now m (<[k := (VString (Some (FormatInt z)), noTTL)]> m)
    (_ ← ReplicateSet k (Some (FormatInt z)) noTTL; writeInt z)) as Hz.
  { intros z. eapply y_SET; [apply exact_noTTL|]. rewrite put_noTTL. rewrite (slice_wf_format z). ysteps. }
  destruct (m !! k) as [[[b|h|l|st] t]|]; cbn [fst snd wrongType]; try (ysteps; fail).
  - subst t. destruct (addTo b n); cbn [rbind fst snd]; [ysteps|apply Hz].
  - destruct (addTo v n); cbn [rbind fst snd]; [ysteps|apply Hz].
Qed.

Lemma y_doIncr d args m : is_int64 d = true -> ttlOf m (argStr args 1) = noTTL -> sync now m m (doIncr d args).
Proof. intros Hd Ht. unfold doIncr. ystep; [ysteps|]. ycall d_incrBy; [done|]. by eapply y_incremented. Qed.

Lemma y_Incr args m : ttlOf m (argStr args 1) = noTTL -> sync now m m (cmdIncr args).
Proof. by apply y_doIncr. Qed.
Lemma y_Decr args m : ttlOf m (argStr args 1) = noTTL -> sync now m m (cmdDecr args).
Proof. by apply y_doIncr. Qed.
Lemma y_IncrBy args m : ttlOf m (argStr args 1) = noTTL -> sync now m m (cmdIncrBy args).
Proof.
  intros Ht. unfold cmdIncrBy. ystep; [ysteps|]. destruct (ParseIntArg _) as [e|n] eqn:E; [ysteps|].
  ycall d_incrBy; [by eapply ParseInt_range|]. by eapply y_incremented.
Qed.
Lemma y_DecrBy args m : ttlOf m (argStr args 1) = noTTL -> sync now m m (cmdDecrBy args).
Proof.
  intros Ht. unfold cmdDecrBy. ystep; [ysteps|]. destruct (ParseIntArg _) as [e|n] eqn:E; [ysteps|].
  ycall d_incrBy; [apply wrap64_range|]. by eapply y_incremented.
Qed.

Lemma y_IncrByFloat args m : sync now m m (cmdIncrByFloat args).
Proof.
  unfold cmdIncrByFloat. ystep; [ysteps|]. ystep; [ysteps|]. ystep. destruct a as [err|v]; [ysteps|].
  ystep; [ysteps|]. ycall d_Set. yput.
Qed.

Lemma y_Append args m :
  ttlOf m (argStr args 1) = noTTL -> argStr args 2 <> EmptyString -> sync now m m (cmdAppend args).
Proof.
  intros Ht Hv. unfold cmdAppend. ystep; [ysteps|]. ycall d_Append. set (k := argStr args 1) in *. set (v := arg args 2) in *.
  assert (forall b n, sync now m (<[k := (VString (appendBytes b v), noTTL)]> m)
    (r ← call (Get k);
     _ ← match r with inr (Some b) => ReplicateSet k (Some b) noTTL | _ => mret tt end; writeInt n)) as Hb.
  { intros b n. eapply y_bind; [apply rd_Get|]. intros r ->. unfold get, stringAt. rewrite lookup_insert_eq. cbn [reading id].
    unfold appendBytes. change (sbytes v) with (argStr args 2).
    destruct (sbytes b +++ argStr args 2) as [|c s] eqn:E.
    { apply (f_equal String.length) in E. rewrite slength_app in E. destruct (argStr args 2); [done|]. simpl in E. lia. }
    cbn [cloneBytes]. eapply y_SET; [apply exact_noTTL|]. rewrite put_noTTL. ysteps. }
  unfold updating, stringAt. unfold ttlOf in Ht. destruct (m !! k) as [[[b|h|l|st] t]|]; cbn [fst snd wrongType]; try (ysteps; fail).
  - subst t. apply Hb.
  - apply Hb.
Qed.

Lemma y_StrLen args m : sync now m m (cmdStrLen args).
Proof. unfold cmdStrLen. ysteps. Qed.
Lemma y_GetRange args m : sync now m m (cmdGetRange args).
Proof. unfold cmdGetRange. ysteps. Qed.
Lemma y_SetRange args m : sync now m m (cmdSetRange args).
Proof.
  unfold cmdSetRange. ystep; [ysteps|]. ystep; [ysteps|]. ystep; [ysteps|]. ystep. destruct a as [err|v]; [ysteps|].
  ystep; [ysteps|]. ycall d_Set. yput.
Qed.
End strings.

Section collections.
Context (now : Time) `{MapOrder} `{Floats}.

Ltac ycall L := eapply y_call; [apply L|]; cbn [fst snd].
Ltac yrep L := eapply y_Replicate; [apply L|]; cbn [fst snd].

(** ** What the specifications leave alone *)

Lemma updating_err {A B} (x : typed A) op k m e f err m' :
  updating (B := B) x op k m e f = (inl err, m') -> m' = m.
Proof.
  unfold updating. destruct x as [| |a t]; [destruct (f e noTTL) as [|[[]]]| |destruct (f a t) as [|[[]]]]; by intros [= <- <-].
Qed.

Lemma changing_err {A B} (x : typed A) op k m none f err m' :
  changing (B := B) x op k m none f = (inl err, m') -> m' = m.
Proof. unfold changing. destruct x as [| |a t]; [done|by intros [= <- <-]|]. by destruct (f a) as [[]]. Qed.

(** [ywrite E]: the call's outcome by cases; an error leaves the keyspace. *)
Ltac ywrite L :=
  eapply y_call; [apply L|];
  match goal with |- sync _ _ (snd ?x) _ => destruct x as [[?err|?n] ?m'] eqn:?E end; cbn [fst snd].

(** ** Hashes *)

Lemma clone_twice (ps : gmap string slice) : cloneBytes <$> (cloneBytes <$> ps) = cloneBytes <$> ps.
Proof. rewrite <- map_fmap_compose. apply map_fmap_ext. intros k v _. apply slice_wf_clone. Qed.

Definition hsetSpec (k : string) (ps : gmap string slice) (m : keyspace) : res Z * keyspace :=
  if bool_decide (ps = ∅) then (inr 0, m)
  else updating (hashAt m k) "hset: " k m ∅ (fun h t =>
    let h' := (cloneBytes <$> ps) ∪ h in inr (Some (VHash h', t), Z.of_nat (size h') - Z.of_nat (size h))).

Lemma mir_hset k ps m : mirrors now (pFields "HSET" k (cloneBytes <$> ps)) m (snd (hsetSpec k ps m)).
Proof.
  unfold hsetSpec. case_bool_decide as Hps.
  - subst ps. exists None. rewrite fmap_empty. unfold applyReplicatePayload. by apply (d_ret now m (Ret None) (Ret None, m)).
  - pose proof (mir_HSET now k (cloneBytes <$> ps) m) as Hm. rewrite clone_twice in Hm. apply Hm.
    by rewrite fmap_empty_iff.
Qed.

Lemma d_hset m k ps : does now m (HSet k ps) (hsetSpec k ps m).
Proof. apply d_HSet. Qed.

Lemma hsetSpec_err k ps m err m' : hsetSpec k ps m = (inl err, m') -> m' = m.
Proof. unfold hsetSpec. case_bool_decide; [done|]. apply updating_err. Qed.

Lemma y_HSET {A} m0 m k ps (f : unit -> H A) :
  sync now (snd (hsetSpec k ps m0)) m (f tt) -> sync now m0 m (ReplicateHash k ps ≫= f).
Proof. apply y_Replicate, mir_hset. Qed.

Lemma y_hsetWith name p reply args m :
  (forall n m, sync now m m (reply n)) -> sync now m m (hsetWith name p reply args).
Proof.
  intros Hr. unfold hsetWith. ystep; [ysteps|]. cbv zeta. set (ps := pairsOf _ _).
  ywrite (d_hset m (argStr args 1) ps).
  - apply hsetSpec_err in E as ->. ysteps.
  - apply y_HSET. rewrite E. apply Hr.
Qed.

(** One field, as the single-field writers store it. *)
Lemma hsetSpec_one k f v m : slice_wf v ->
  snd (hsetSpec k {[ f := v ]} m) = match hashAt m k with
    | Absent => <[k := (VHash {[ f := v ]}, noTTL)]> m
    | Wrong => m
    | Holds h t => <[k := (VHash (<[f := v]> h), t)]> m
    end.
Proof.
  intros Hv. unfold hsetSpec. rewrite bool_decide_false by (apply map_non_empty_singleton). rewrite map_fmap_singleton, Hv.
  unfold updating. destruct (hashAt m k) as [| |h t]; cbn [snd]; [|done|].
  - by rewrite (map_union_empty {[ f := v ]}).
  - by rewrite <- insert_union_singleton_l.
Qed.

Lemma y_HSet args m : sync now m m (cmdHSet args).
Proof. unfold cmdHSet. apply y_hsetWith. intros. ysteps. Qed.
Lemma y_HMSet args m : sync now m m (cmdHMSet args).
Proof. unfold cmdHMSet. apply y_hsetWith. intros. ysteps. Qed.
Lemma y_HGet args m : sync now m m (cmdHGet args).
Proof. unfold cmdHGet. ysteps. Qed.
Lemma y_HMGet args m : sync now m m (cmdHMGet args).
Proof. unfold cmdHMGet. ysteps. Qed.
Lemma y_hashReply name p q show args m : sync now m m (hashReply name p q show args).
Proof. unfold hashReply, writeArrayEmpty. ysteps. Qed.
Lemma y_HExists args m : sync now m m (cmdHExists args).
Proof. unfold cmdHExists. ysteps. Qed.
Lemma y_HLen args m : sync now m m (cmdHLen args).
Proof. unfold cmdHLen. ysteps. Qed.

Lemma map_sbytes_Some fs : map sbytes (map Some fs) = fs.
Proof. rewrite map_map. apply map_id. Qed.

Lemma same_size (h h' : gmap string slice) : h' ⊆ h -> Z.of_nat (size h) - Z.of_nat (size h') <= 0 -> h' = h.
Proof. intros Hs Hn. apply map_subseteq_size_eq; [done|lia]. Qed.

Lemma y_HDel args m : settled now m -> sync now m m (cmdHDel args).
Proof.
  intros Hm. unfold cmdHDel. ystep; [ysteps|]. ywrite d_HDel.
  - apply changing_err in E as ->. ysteps.
  - destruct (n >? 0) eqn:Hn.
    + unfold ReplicateHDel. eapply y_Replicate; [apply mir_HDEL|]. rewrite map_sbytes_Some, E. ysteps.
    + enough (m' = m) as -> by ysteps. revert E. unfold changing, hashAt.
      destruct (m !! argStr args 1) as [[[b|h|l|st] t]|] eqn:Ek; cbn [wrongType]; try (by intros [= <- <-]).
      cbv zeta. set (h' := filter _ h). intros E.
      assert (n = Z.of_nat (size h) - Z.of_nat (size h')) as ->; [by destruct (nonEmptyHash h'); injection E|].
      rewrite (same_size h h') in E by (apply map_filter_subseteq || (zify_bool; lia)).
      revert E. unfold nonEmptyHash. destruct (Hm _ _ _ Ek) as (_ & _ & Hne & _).
      rewrite bool_decide_false by (by intros ->). intros E. injection E as <-. by apply insert_id.
Qed.

Lemma y_HIncrBy args m : sync now m m (cmdHIncrBy args).
Proof.
  unfold cmdHIncrBy. ystep; [ysteps|]. destruct (ParseIntArg _) as [e|d] eqn:Ed; [ysteps|].
  eapply y_call; [apply d_HIncrBy; by eapply ParseInt_range|].
  set (k := argStr args 1). set (f := argStr args 2). unfold updating.
  assert (forall x, slice_wf (Some (FormatInt x))) as Hw by (intros; apply slice_wf_format).
  destruct (hashAt m k) as [| |h t] eqn:Eh; cbn [fst snd wrongType]; [|ysteps|];
    (destruct (addTo _ d) as [err|x]; cbn [rbind fst snd]; [ysteps|]);
    apply y_HSET; rewrite hsetSpec_one, Eh, ?insert_empty by done; ysteps.
Qed.

Lemma d_HIncrByFloat m k f d :
  does now m (HIncrByFloat fzero fadd ParseFloat FormatFloat k f d)
    (updating (hashAt m k) "hincrbyfloat: " k m ∅ (fun h t =>
      rbind (readFloat fzero ParseFloat (default None (h !! f))) (fun cur =>
        inr (Some (VHash (<[f := Some (FormatFloat (fadd cur d))]> h), t), fadd cur d)))).
Proof.
  apply (d_writing now "hincrbyfloat: " m k (fun old h =>
    match readFloat fzero ParseFloat (default None (h !! f)) with
    | inl err => mret (inl err)
    | inr cur => storeHash k old (<[f := Some (FormatFloat (fadd cur d))]> h) (fadd cur d)
    end)).
  intros old h Hm _ Hh He. destruct (readFloat _ _ _) as [err|cur]; cbn [rbind]; [apply t_ret; by intros s [? _]|].
  apply t_storeHash; [|done]. apply wf_insert_clone; [done|].
  unfold slice_wf, cloneBytes. pose proof (FormatFloat_nonempty (fadd cur d)). by destruct (FormatFloat _).
Qed.

Lemma y_HIncrByFloat args m : sync now m m (cmdHIncrByFloat args).
Proof.
  unfold cmdHIncrByFloat. ystep; [ysteps|]. destruct (ParseFloat _) as [e|d]; [ysteps|].
  eapply y_call; [apply d_HIncrByFloat|].
  set (k := argStr args 1). set (f := argStr args 2). unfold updating.
  assert (forall x, slice_wf (Some (FormatFloat x))) as Hw.
  { intros x. unfold slice_wf, cloneBytes. pose proof (FormatFloat_nonempty x). by destruct (FormatFloat x). }
  destruct (hashAt m k) as [| |h t] eqn:Eh; cbn [fst snd wrongType]; [|ysteps|];
    (destruct (readFloat _ _ _) as [err|x]; cbn [rbind fst snd]; [ysteps|]);
    apply y_HSET; rewrite hsetSpec_one, Eh, ?insert_empty by done; ysteps.
Qed.

Lemma y_HSetNX args m : sync now m m (cmdHSetNX args).
Proof.
  unfold cmdHSetNX. ystep; [ysteps|]. eapply y_call; [apply d_HSetNX|].
  set (k := argStr args 1). set (f := argStr args 2). set (v := arg args 3). unfold updating.
  destruct (hashAt m k) as [| |h t] eqn:Eh; cbn [fst snd wrongType]; [|ysteps|].
  - rewrite lookup_empty. cbn [fst snd]. change (1 =? 1) with true. cbv iota.
    apply y_HSET. rewrite hsetSpec_one, Eh, ?insert_empty by apply slice_wf_clone. ysteps.
  - destruct (h !! f); cbn [fst snd].
    + assert (<[k := (VHash h, t)]> m = m) as ->; [|change (0 =? 1) with false; ysteps].
      apply insert_id. unfold hashAt in Eh. destruct (m !! k) as [[[] ?]|]; by simplify_eq.
    + change (1 =? 1) with true. cbv iota. apply y_HSET. rewrite hsetSpec_one, Eh by apply slice_wf_clone. ysteps.
Qed.

(** ** Lists *)

Lemma map_clone_twice l : map cloneBytes (map cloneBytes l) = map cloneBytes l.
Proof. rewrite map_map. apply map_ext. intros v. apply slice_wf_clone. Qed.

Lemma bytesEqual_clone x v : bytesEqual x (cloneBytes v) = bytesEqual x v.
Proof. unfold bytesEqual, cloneBytes. by destruct v as [[|c s]|]. Qed.

Lemma push_clone left k vs m : push left k (map cloneBytes vs) m = push left k vs m.
Proof.
  unfold push, pushed. rewrite map_clone_twice.
  replace (bool_decide (map cloneBytes vs = [])) with (bool_decide (vs = [])); [done|]. by destruct vs.
Qed.

Lemma push_err left k vs m err m' : push left k vs m = (inl err, m') -> m' = m.
Proof. unfold push. case_bool_decide; [by intros [= _ <-]|]. apply updating_err. Qed.

Lemma y_PUSH {A} (left : bool) m0 m k vs (f : unit -> H A) : vs <> [] ->
  sync now (snd (push left k vs m0)) m (f tt) -> sync now m0 m (ReplicateListPush k left vs ≫= f).
Proof.
  intros Hv. unfold ReplicateListPush. rewrite <- push_clone. apply y_Replicate, mir_PUSH. by destruct vs.
Qed.

Lemma pushArgs_some args : argsLt args 3 = false -> pushArgs args <> [].
Proof. unfold argsLt, pushArgs. destruct args as [|a [|b [|c l]]]; done. Qed.

Lemma y_LPush args m : sync now m m (cmdLPush args).
Proof.
  unfold cmdLPush. destruct (argsLt args 3) eqn:Ea; [ysteps|]. apply pushArgs_some in Ea.
  ywrite d_listPush; [apply push_err in E as ->; ysteps|]. apply (y_PUSH true); [done|]. rewrite E. ysteps.
Qed.
Lemma y_RPush args m : sync now m m (cmdRPush args).
Proof.
  unfold cmdRPush. destruct (argsLt args 3) eqn:Ea; [ysteps|]. apply pushArgs_some in Ea.
  ywrite d_listPush; [apply push_err in E as ->; ysteps|]. apply (y_PUSH false); [done|]. rewrite E. ysteps.
Qed.

(** A push on an existing list is a push; one on a missing key changes nothing. *)
Lemma pushX_cases left k vs m n m' : vs <> [] -> pushX left k vs m = (inr n, m') ->
  (0 < n /\ snd (push left k vs m) = m') \/ (n = 0 /\ m' = m).
Proof.
  intros Hv. unfold pushX, push. rewrite (bool_decide_false (vs = [])) by done. unfold changing, updating.
  destruct (listAt m k) as [| |l t]; [by intros [= <- <-]; right|done|]. cbv zeta. intros [= <- <-]. left. split; [|done].
  unfold listLen, pushed. destruct vs; [done|]. destruct left; simpl; rewrite !length_app; simpl; rewrite ?length_app; simpl; lia.
Qed.
Lemma pushX_err left k vs m err m' : pushX left k vs m = (inl err, m') -> m' = m.
Proof. unfold pushX. case_bool_decide; [by intros [= _ <-]|]. apply changing_err. Qed.

Lemma y_LPushX args m : sync now m m (cmdLPushX args).
Proof.
  unfold cmdLPushX. destruct (argsLt args 3) eqn:Ea; [ysteps|]. apply pushArgs_some in Ea.
  ywrite d_listPushX; [apply pushX_err in E as ->; ysteps|].
  destruct (pushX_cases _ _ _ _ _ _ Ea E) as [[Hn <-]|[-> ->]]; [|change (0 >? 0) with false; ysteps].
  rewrite (proj2 (Z.gtb_lt _ _)) by done. apply (y_PUSH true); [done|]. ysteps.
Qed.
Lemma y_RPushX args m : sync now m m (cmdRPushX args).
Proof.
  unfold cmdRPushX. destruct (argsLt args 3) eqn:Ea; [ysteps|]. apply pushArgs_some in Ea.
  ywrite d_listPushX; [apply pushX_err in E as ->; ysteps|].
  destruct (pushX_cases _ _ _ _ _ _ Ea E) as [[Hn <-]|[-> ->]]; [|change (0 >? 0) with false; ysteps].
  rewrite (proj2 (Z.gtb_lt _ _)) by done. apply (y_PUSH false); [done|]. ysteps.
Qed.

(** A pop of as many elements as another pop returned does the same. *)
Lemma taken_again left c l :
  taken left (List.length (fst (taken left c l))) l = taken left c l.
Proof.
  unfold taken. destruct left; cbn [fst]; rewrite length_take, ?length_rev; f_equal.
  - destruct (Nat.min_spec c (List.length l)) as [[? ->]|[? ->]]; [done|]. by rewrite !firstn_all2 by lia.
  - destruct (Nat.min_spec c (List.length l)) as [[? ->]|[? ->]]; [done|]. by rewrite !skipn_all2 by lia.
  - destruct (Nat.min_spec c (List.length l)) as [[? ->]|[? ->]]; [done|]. by rewrite !firstn_all2 by (rewrite length_rev; lia).
  - f_equal. lia.
Qed.

Lemma popFrom_again left op k n m out m' :
  popFrom left op k n m = (Ret (inr (Some out)), m') -> out <> [] ->
  popFrom left op k (Z.of_nat (List.length out)) m = (Ret (inr (Some out)), m').
Proof.
  unfold popFrom, wrongType. destruct (listAt m k) as [| |l t]; [done|done|]. case_bool_decide; [intros [= <- <-] Hn; by destruct Hn|].
  destruct (negb (canMake _ (popCount n))) eqn:Ec; [done|]. intros Hp Ho.
  pose proof (taken_again left (Z.to_nat (popCount n)) l) as Ht.
  destruct (taken left (Z.to_nat (popCount n)) l) as [out0 rest] eqn:Et. injection Hp as -> <-. cbn [fst] in Ht.
  assert (popCount (Z.of_nat (List.length out)) = Z.of_nat (List.length out)) as ->.
  { unfold popCount. destruct out; [done|]. simpl List.length. by rewrite (proj2 (Z.leb_gt _ _)) by lia. }
  rewrite Nat2Z.id, Ht. destruct (negb (canMake _ (Z.of_nat _))) eqn:Ec'; [|done]. exfalso.
  apply negb_false_iff in Ec. apply negb_true_iff in Ec'. unfold canMake in *. apply andb_true_iff in Ec as [Ec1 Ec2].
  assert (Z.of_nat (List.length out) <= popCount n).
  { apply (f_equal (fun x => List.length (fst x))) in Et. cbn [fst] in Et. rewrite <- Et. unfold taken.
    destruct left; cbn [fst]; rewrite length_take; zify_bool; lia. }
  apply andb_false_iff in Ec' as [Ec'|Ec']; zify_bool; unfold sliceHeader in *; lia.
Qed.

Lemma y_popCmd (left : bool) name p q args m :
  sync now m m (popCmd name p q (if left then LPop else RPop) (if left then ReplicateLPop else ReplicateRPop) args).
Proof.
  unfold popCmd. ystep; [ysteps|]. cbv zeta. destruct (if argsNe args 3 then _ else _) as [n|]; [|ysteps].
  set (k := argStr args 1). set (op := (if left then "lpop: " else "rpop: ")%string).
  assert (does now m ((if left then LPop else RPop) k n) (popFrom left op k n m)) as Hd.
  { destruct left; [apply (d_popWith now true)|apply (d_popWith now false)]. }
  eapply y_callOut; [exact Hd|]. intros r Er. destruct (popFrom left op k n m) as [x m'] eqn:E. cbn [fst snd] in *. subst x.
  destruct r as [err|out].
  { assert (m' = m) as ->; [|ysteps]. revert E. unfold popFrom. destruct (listAt m k) as [| |l t]; [done|by intros [= _ <-]|].
    case_bool_decide; [done|]. destruct (negb _); [done|]. by destruct (taken _ _ _). }
  destruct out as [[|v out]|]; cbn [default from_option id List.length Nat.ltb Nat.leb].
  - assert (m' = m) as ->; [|ysteps]. revert E. unfold popFrom, wrongType. destruct (listAt m k) as [| |l t]; [done|done|].
    case_bool_decide as Hl; [by intros [= <-]|]. destruct (negb _); [done|]. destruct (taken _ _ _) as [out rest] eqn:Et.
    intros [= -> _]. exfalso. unfold taken in Et. assert (0 < Z.to_nat (popCount n))%nat by (unfold popCount; destruct (n <=? 0) eqn:?; zify_bool; lia).
    destruct left; injection Et as Et _; apply (f_equal List.length) in Et; rewrite length_take, ?length_rev in Et; destruct l; simpl in Et; try done; lia.
  - apply popFrom_again in E; [|done].
    assert (forall f : unit -> H (option error), sync now m' m' (f tt) ->
      sync now m m' ((if left then ReplicateLPop else ReplicateRPop) k (Z.of_nat (S (List.length out))) ≫= f)) as Hr.
    { intros f Hf. pose proof (mir_POP now left k (Z.of_nat (List.length (v :: out))) m _ m' ltac:(simpl; lia) E) as Hm.
      destruct left; unfold ReplicateLPop, ReplicateRPop; rewrite (proj2 (Z.ltb_ge _ 1)) by lia; by eapply y_Replicate. }
    apply (Hr (fun _ => _)). ysteps.
  - assert (m' = m) as ->; [|ysteps]. revert E. unfold popFrom, wrongType. destruct (listAt m k) as [| |l t]; [by intros [= <-]|done|].
    case_bool_decide; [done|]. destruct (negb _); [done|]. by destruct (taken _ _ _).
Qed.
Lemma y_LPop args m : sync now m m (cmdLPop args).
Proof. unfold cmdLPop. apply (y_popCmd true). Qed.
Lemma y_RPop args m : sync now m m (cmdRPop args).
Proof. unfold cmdRPop. apply (y_popCmd false). Qed.
Lemma y_LLen args m : sync now m m (cmdLLen args).
Proof. unfold cmdLLen. ysteps. Qed.
Lemma y_LIndex args m : sync now m m (cmdLIndex args).
Proof. unfold cmdLIndex. ysteps. Qed.
Lemma y_LRange args m : sync now m m (cmdLRange args).
Proof. unfold cmdLRange. ysteps. Qed.

Lemma y_LSet args m : sync now m m (cmdLSet args).
Proof.
  unfold cmdLSet. ystep; [ysteps|]. destruct (ParseIntArg _) as [e|i]; [ysteps|]. eapply y_call; [apply d_LSet|].
  set (k := argStr args 1). set (v := arg args 3). destruct (setElem k i v m) as [[err|] m'] eqn:E; cbn [fst snd].
  - assert (m' = m) as ->; [|ysteps]. revert E. unfold setElem.
    destruct (listAt m k) as [| |l t]; [by intros [= _ <-]..|]. destruct (indexOf i l); [done|]. by intros [= _ <-].
  - eapply y_Replicate; [apply mir_LSET|]. replace (setElem k i (cloneBytes v) m) with (setElem k i v m); [rewrite E; ysteps|].
    unfold setElem. by rewrite (slice_wf_clone v).
Qed.

Lemma y_LTrim args m : sync now m m (cmdLTrim args).
Proof.
  unfold cmdLTrim. ystep; [ysteps|]. destruct (ParseIntArg (arg args 2)) as [e|a] eqn:Ea; [ysteps|].
  destruct (ParseIntArg (arg args 3)) as [e|b] eqn:Eb; [ysteps|]. eapply y_call; [apply d_LTrim|].
  destruct (trim _ a b m) as [[err|] m'] eqn:E; cbn [fst snd].
  - assert (m' = m) as ->; [|ysteps]. revert E. unfold trim.
    destruct (listAt m _) as [| |l t]; [done|by intros [= _ <-]|]. by case_bool_decide.
  - eapply y_Replicate; [apply mir_LTRIM; by eapply ParseInt_range|]. rewrite E. ysteps.
Qed.

(** LREM returns the length it took off: with none, the list is as it was. *)
Lemma without_sublist n v l : sublist (without n v l) l.
Proof.
  revert n. induction l as [|x l IH]; intros n; simpl; [constructor|]. destruct n; [done|].
  destruct (bytesEqual x v); by constructor.
Qed.

Lemma sublist_full (l' l : list slice) : sublist l' l -> (List.length l <= List.length l')%nat -> l' = l.
Proof.
  induction 1 as [|x l' l Hs IH|x l' l Hs IH]; simpl; intros Hl; [done|f_equal; apply IH; lia|].
  apply sublist_length in Hs. lia.
Qed.

Lemma sublist_rev (l' l : list slice) : sublist l' l -> sublist (rev l') (rev l).
Proof.
  induction 1 as [|x l' l Hs IH|x l' l Hs IH]; simpl; [done|by apply sublist_app|by apply sublist_inserts_r].
Qed.

Lemma removed_sublist n v l : sublist (removed n v l) l.
Proof.
  unfold removed. destruct (n =? 0); [|destruct (0 <? n)].
  - induction l as [|x l IH]; simpl; [constructor|]. destruct (negb _); by constructor.
  - apply without_sublist.
  - rewrite <- (rev_involutive l) at 2. apply sublist_rev, without_sublist.
Qed.

Lemma removed_clone n v l : removed n (cloneBytes v) l = removed n v l.
Proof.
  assert (forall n l, without n (cloneBytes v) l = without n v l) as Hw.
  { clear. intros n l. revert n. induction l as [|x l IH]; intros n; simpl; [done|]. destruct n; [done|]. by rewrite bytesEqual_clone, !IH. }
  unfold removed. rewrite !Hw. destruct (n =? 0); [|done]. apply List.filter_ext. intros x. by rewrite bytesEqual_clone.
Qed.

Lemma y_LRem args m : sync now m m (cmdLRem args).
Proof.
  unfold cmdLRem. ystep; [ysteps|]. destruct (ParseIntArg _) as [e|c]; [ysteps|]. ywrite d_LRem.
  - apply changing_err in E as ->. ysteps.
  - destruct (n >? 0) eqn:Hn.
    + eapply y_Replicate; [apply mir_LREM|]. replace (changing _ _ _ _ _ _) with (@inr error Z n, m'); [ysteps|].
      rewrite <- E. unfold changing. destruct (listAt _ _); [done..|]. by rewrite removed_clone.
    + enough (m' = m) as -> by ysteps. revert E. unfold changing, listAt.
      destruct (m !! argStr args 1) as [[[b|h|l|st] t]|] eqn:Ek; cbn [wrongType]; try (by intros [= <- <-]).
      cbv zeta. pose proof (removed_sublist c (arg args 3) l) as Hs. set (l' := removed _ _ l) in *.
      assert (n = listLen l - listLen l' -> l' = l) as Hl.
      { intros ->. apply sublist_length in Hs as Hle. unfold listLen in *. apply sublist_full; [done|zify_bool; lia]. }
      intros E. assert (l' = l) as Hl'; [apply Hl; by destruct (if bool_decide _ then _ else _); injection E|].
      rewrite Hl' in E. unfold nonEmptyList in E. destruct (bool_decide (l = [])); injection E as _ <-; by apply insert_id.
Qed.

Lemma y_LInsert args m : sync now m m (cmdLInsert args).
Proof.
  unfold cmdLInsert. ystep; [ysteps|]. cbv zeta. set (k := argStr args 1). set (p := arg args 3). set (v := arg args 4).
  assert (forall before, sync now m m (r ← call (LInsert k before p v);
    match r with
    | inl err => failType "linsert: " err
    | inr n => if n <? 0 then writeInt (-1) else _ ← ReplicateLInsert k before p v; writeInt n
    end)) as Hgo; [|ysteps; apply Hgo].
  intros before. ywrite d_LInsert.
  - apply changing_err in E as ->. ysteps.
  - destruct (n <? 0) eqn:Hn.
    + enough (m' = m) as -> by ysteps. revert E. unfold changing, listAt.
      destruct (m !! k) as [[[b|h|l|st] t]|] eqn:Ek; cbn [wrongType]; try (by intros [= <- <-]).
      destruct (list_find _ l) as [[i x]|]; intros E; injection E as <- <-; [unfold listLen in Hn; zify_bool; lia|by apply insert_id].
    + eapply y_Replicate; [apply mir_LINSERT|]. replace (changing _ _ _ _ _ _) with (@inr error Z n, m'); [ysteps|].
      rewrite <- E. unfold changing. destruct (listAt _ _) as [| |l t]; [done..|].
      rewrite (list_find_ext (fun x => bytesEqual x (cloneBytes p) = true) (fun x => bytesEqual x p = true))
        by (intros x; by rewrite bytesEqual_clone).
      destruct (list_find _ l) as [[i x]|]; [|done]. unfold inserted. by rewrite (slice_wf_clone v).
Qed.

(** ** Sets *)

Lemma members_clone l : members (map cloneBytes l) = members l.
Proof. unfold members. rewrite map_map. f_equal. apply map_ext. by intros [[|]|]. Qed.

Lemma memberArgs args : argsLt args 3 = false -> exists v vs, drop 2 args = v :: vs.
Proof. unfold argsLt. destruct args as [|a [|b [|v vs]]]; try done. by exists v, vs. Qed.

Lemma y_SAdd args m : sync now m m (cmdSAdd args).
Proof.
  unfold cmdSAdd. destruct (argsLt args 3) eqn:Ea; [ysteps|]. cbv zeta. apply memberArgs in Ea as (v & vs & Hv).
  set (k := argStr args 1). set (ms := drop 2 args) in *.
  pose proof (d_SAdd now m k ms) as Hd. rewrite (bool_decide_false (ms = [])) in Hd by (by rewrite Hv).
  ywrite Hd.
  - apply updating_err in E as ->. ysteps.
  - destruct (n >? 0) eqn:Hn.
    + eapply y_Replicate; [apply mir_SADD; by rewrite Hv|]. rewrite members_clone, E. ysteps.
    + enough (m' = m) as -> by ysteps. revert E. unfold updating, setAt.
      destruct (m !! k) as [[[b|h|l|st] t]|] eqn:Ek; cbn [wrongType]; try done; cbv zeta; intros E; injection E as <- <-.
      * apply insert_id. rewrite Ek. do 3 f_equal. apply set_eq. intros x.
        enough (members ms ∪ st ⊆ st) by set_solver. assert (st ⊆ members ms ∪ st) as Hs by set_solver.
        apply set_subseteq_size_eq in Hs as <-; [done|zify_bool; lia].
      * exfalso. zify_bool. assert (members ms ∪ ∅ ≢ ∅) as Hne.
        { rewrite Hv. unfold members. simpl. set_solver. }
        apply size_non_empty_iff in Hne. change (set_size _) with (size (∅ : gset string)) in Hn. rewrite size_empty in Hn. lia.
Qed.

Lemma y_SRem args m : settled now m -> sync now m m (cmdSRem args).
Proof.
  intros Hm. unfold cmdSRem. destruct (argsLt args 3) eqn:Ea; [ysteps|]. cbv zeta. apply memberArgs in Ea as (v & vs & Hv).
  set (k := argStr args 1). set (ms := drop 2 args) in *. ywrite d_SRem.
  - apply changing_err in E as ->. ysteps.
  - destruct (n >? 0) eqn:Hn.
    + eapply y_Replicate; [apply mir_SREM; by rewrite Hv|]. rewrite members_clone, E. ysteps.
    + enough (m' = m) as -> by ysteps. revert E. unfold changing, setAt.
      destruct (m !! k) as [[[b|h|l|st] t]|] eqn:Ek; cbn [wrongType]; try (by intros [= <- <-]). cbv zeta. intros E.
      assert (n = Z.of_nat (size st) - Z.of_nat (size (st ∖ members ms))) as ->; [by destruct (nonEmptySet _); injection E|].
      assert (st ∖ members ms = st) as Hst.
      { apply leibniz_equiv, set_subseteq_size_equiv; [set_solver|zify_bool; lia]. }
      rewrite Hst in E. revert E. unfold nonEmptySet. destruct (Hm _ _ _ Ek) as (_ & Hne & _).
      rewrite bool_decide_false by (by intros ->). intros E. injection E as <-. by apply insert_id.
Qed.

Lemma y_SMembers args m : sync now m m (cmdSMembers args).
Proof. unfold cmdSMembers. ysteps. Qed.
Lemma y_SIsMember args m : sync now m m (cmdSIsMember args).
Proof. unfold cmdSIsMember. ysteps. Qed.
Lemma y_SCard args m : sync now m m (cmdSCard args).
Proof. unfold cmdSCard. ysteps. Qed.

Lemma y_algebra name p f args m :
  (forall ks, reads now m (f ks) (fun _ => True)) -> sync now m m (algebra name p f args).
Proof. intros Hf. unfold algebra, writeMembers. ystep; [ysteps|]. eapply y_bind; [apply Hf|]. intros r _. ysteps. Qed.

Lemma y_algebraStore name p f args m :
  (forall ks, reads now m (f ks) (fun _ => True)) -> sync now m m (algebraStore name p f args).
Proof.
  intros Hf. unfold algebraStore. ystep; [ysteps|]. cbv zeta. eapply y_bind; [apply Hf|]. intros [err|ms] _; [ysteps|].
  ycall d_ReplaceSet. eapply y_Replicate; [apply mir_REPLACESET|]. rewrite members_clone. ysteps.
Qed.

Lemma y_SUnion args m : sync now m m (cmdSUnion args).
Proof. unfold cmdSUnion. apply y_algebra. intros. apply rd_unionMembers. Qed.
Lemma y_SInter args m : sync now m m (cmdSInter args).
Proof. unfold cmdSInter. apply y_algebra. intros. apply rd_interMembers. Qed.
Lemma y_SDiff args m : sync now m m (cmdSDiff args).
Proof. unfold cmdSDiff. apply y_algebra. intros. apply rd_diffMembers. Qed.
Lemma y_SUnionStore args m : sync now m m (cmdSUnionStore args).
Proof. unfold cmdSUnionStore. apply y_algebraStore. intros. apply rd_unionMembers. Qed.
Lemma y_SInterStore args m : sync now m m (cmdSInterStore args).
Proof. unfold cmdSInterStore. apply y_algebraStore. intros. apply rd_interMembers. Qed.
Lemma y_SDiffStore args m : sync now m m (cmdSDiffStore args).
Proof. unfold cmdSDiffStore. apply y_algebraStore. intros. apply rd_diffMembers. Qed.
End collections.
