(* ===== verification/ConvergeAll.v ===== *)
(** * Replicas converge, part 2: keys, server commands and the theorem for every request. *)

From S2P Require Import Prelude GoInt GoStr GoTime GoSort Resp Config StoreBase Eviction StoreString.
From S2P Require Import StoreHash StoreList StoreSet StoreKeys StoreOps StoreHoare StoreView StoreInvOps.
From S2P Require Import StoreWf StoreExec StoreSpec StoreRefine StoreRefineColl StoreRefineKeys Session Repl ReplApply.
From S2P Require Import CmdBase CmdString CmdHash CmdList CmdSet CmdGeneric CmdServer CmdTxn CmdFrame CmdWithin.
From S2P Require Import StoreTrace CmdReply ConnSpec Sync Converge.

Section keys.
Context (now : Time) `{MapOrder} `{Floats}.

Lemma y_Exists args m : sync now m m (cmdExists args).
Proof. unfold cmdExists. ysteps. Qed.
Lemma y_Type args m : sync now m m (cmdType args).
Proof. unfold cmdType. ysteps. Qed.
Lemma y_TTL args m : settled now m -> sync now m m (cmdTTL args).
Proof. intros Hm. unfold cmdTTL. ystep; [ysteps|]. eapply y_bind; [by apply rd_ttl|]. intros. ysteps. Qed.
Lemma y_PTTL args m : settled now m -> sync now m m (cmdPTTL args).
Proof. intros Hm. unfold cmdPTTL. ystep; [ysteps|]. eapply y_bind; [by apply rd_ttl|]. intros. ysteps. Qed.

(** A change that is replicated when it happened. *)
Lemma y_changed prefix (p : ReplicatePayload) (x : res bool * keyspace) m :
  (fst x = inr true -> mirrors now p m (snd x)) -> (fst x <> inr true -> snd x = m) ->
  sync now m (snd x) (replyChanged prefix (Replicate p) (fst x)).
Proof.
  intros Hp Hx. unfold replyChanged. destruct x as [[err|[]] m']; cbn [fst snd] in *.
  - rewrite (Hx ltac:(done)). ysteps.
  - eapply y_Replicate; [by apply Hp|]. ysteps.
  - rewrite (Hx ltac:(done)). ysteps.
Qed.

Lemma expireAt_kept k t m : fst (expireAt now k t m) <> inr true -> snd (expireAt now k t m) = m.
Proof. unfold expireAt. by destruct (m !! k) as [[]|]. Qed.

Lemma y_Expire args m : sync now m m (cmdExpire args).
Proof.
  unfold cmdExpire. ystep; [ysteps|]. destruct (ParseIntArg _) as [e|n]; [ysteps|]. destruct (n <=? 0) eqn:En; [ysteps|]. cbv zeta.
  pose proof (d_Expire now m (argStr args 1) n) as Hd. rewrite En in Hd. eapply y_call; [exact Hd|].
  apply y_changed; [intros _; apply mir_EXPIRE; zify_bool; lia|apply expireAt_kept].
Qed.
Lemma y_ExpireAt args m : sync now m m (cmdExpireAt args).
Proof.
  unfold cmdExpireAt. ystep; [ysteps|]. destruct (ParseIntArg _) as [e|n]; [ysteps|]. cbv zeta.
  eapply y_call; [apply d_ExpireAt|]. apply y_changed; [intros _; apply mir_EXPIREAT|apply expireAt_kept].
Qed.
Lemma y_PExpire args m : sync now m m (cmdPExpire args).
Proof.
  unfold cmdPExpire. ystep; [ysteps|]. destruct (ParseIntArg _) as [e|n]; [ysteps|]. destruct (n <=? 0) eqn:En; [ysteps|]. cbv zeta.
  eapply y_bind; [apply rd_now|]. intros t ->. eapply y_call; [apply d_ExpireAt|].
  apply y_changed; [intros _; apply mir_PEXPIRE; zify_bool; lia|apply expireAt_kept].
Qed.
Lemma y_PExpireAt args m : sync now m m (cmdPExpireAt args).
Proof.
  unfold cmdPExpireAt. ystep; [ysteps|]. destruct (ParseIntArg _) as [e|n]; [ysteps|]. cbv zeta.
  eapply y_call; [apply d_ExpireAt|]. apply y_changed; [intros _; apply mir_PEXPIREAT|apply expireAt_kept].
Qed.
Lemma y_Persist args m : sync now m m (cmdPersist args).
Proof.
  unfold cmdPersist. ystep; [ysteps|]. cbv zeta. eapply y_call; [apply d_Persist|]. apply y_changed; [intros _; apply mir_PERSIST|].
  destruct (m !! _) as [[v t]|]; [|done]. by destruct (IsZero t).
Qed.

Lemma y_Rename args m : sync now m m (cmdRename args).
Proof.
  unfold cmdRename. ystep; [ysteps|]. cbv zeta. eapply y_call; [apply d_Rename|].
  set (a := argStr args 1). set (b := argStr args 2). pose proof (mir_RENAME now a b m) as Hm.
  destruct (a =? b)%string; cbn [fst snd] in *; [eapply y_Replicate; [exact Hm|]; ysteps|].
  destruct (m !! a); cbn [fst snd] in *; [eapply y_Replicate; [exact Hm|]|]; ysteps.
Qed.
Lemma y_RenameNX args m : sync now m m (cmdRenameNX args).
Proof.
  unfold cmdRenameNX. ystep; [ysteps|]. cbv zeta. ystep. ystep; [ysteps|]. eapply y_call; [apply d_RenameNX|].
  set (a' := argStr args 1). set (b := argStr args 2). pose proof (mir_RENAME now a' b m) as Hm.
  unfold ReplicateRename. apply y_changed.
  - destruct (a' =? b)%string; [done|]. by destruct (m !! a'), (m !! b).
  - destruct (a' =? b)%string; [done|]. by destruct (m !! a'), (m !! b).
Qed.

Lemma y_Select args m : sync now m m (cmdSelect args).
Proof. unfold cmdSelect. ysteps. Qed.
Lemma y_Keys args m : sync now m m (cmdKeys args).
Proof. unfold cmdKeys. ysteps. Qed.
Lemma y_Scan args m : sync now m m (cmdScan args).
Proof. unfold cmdScan. ysteps. Qed.
Lemma y_RandomKey args m : sync now m m (cmdRandomKey args).
Proof. unfold cmdRandomKey. ysteps. Qed.
Lemma y_DBSize args m : sync now m m (cmdDBSize args).
Proof. unfold cmdDBSize. ysteps. Qed.

(** ** Server, pub/sub and transactions *)

Lemma y_Ping args m : sync now m m (cmdPing args).
Proof. unfold cmdPing. ysteps. Qed.
Lemma y_Echo args m : sync now m m (cmdEcho args).
Proof. unfold cmdEcho. ysteps. Qed.
Lemma y_Auth args m : sync now m m (cmdAuth args).
Proof. unfold cmdAuth. ysteps. Qed.
Lemma y_Time args m : sync now m m (cmdTime args).
Proof. unfold cmdTime. ysteps. Qed.
Lemma y_Client args m : sync now m m (cmdClient args).
Proof. unfold cmdClient. ysteps. Qed.
Lemma y_Info args m : sync now m m (cmdInfo args).
Proof.
  unfold cmdInfo. cbv zeta.
  do 6 (eapply y_bind; [apply rd_section;
    unfold infoServer, infoClients, infoStats, infoReplication, infoMemory, infoKeyspace; rsteps|intros ? _]).
  ysteps.
Qed.
Lemma y_flush op args m : op = "FLUSHDB"%string \/ op = "FLUSHALL"%string -> sync now m m (flushClusterDB op args).
Proof.
  intros Ho. unfold flushClusterDB.
  assert (does now m FlushDB (tt, ∅)) as Hd.
  { eapply t_conseq; [apply (t_FlushDB now)|by exists m || done|]. by intros [] s _ ?. }
  eapply y_call; [exact Hd|]. cbn [fst snd]. eapply y_Replicate; [by apply mir_FLUSH|]. ysteps.
Qed.
Lemma y_FlushDB args m : sync now m m (cmdFlushDB args).
Proof. unfold cmdFlushDB. apply y_flush. by left. Qed.
Lemma y_FlushAll args m : sync now m m (cmdFlushAll args).
Proof. unfold cmdFlushAll. apply y_flush. by right. Qed.

Lemma rd_subscription m kind ch fs fm : reads now m (subscription kind ch fs fm) (fun _ => True).
Proof. unfold subscription, writeSubscribeAck. rsteps. Qed.
Lemma rd_eachChannel m f chs : (forall ch, reads now m (f ch) (fun _ => True)) -> reads now m (eachChannel f chs) (fun _ => True).
Proof. intros Hf. induction chs as [|ch chs IH]; cbn [eachChannel]; [by apply rd_ret|]. eapply rd_bind; [apply Hf|]. intros e _. rsteps. Qed.
#[local] Hint Resolve rd_subscription rd_eachChannel : sync.
Lemma y_Subscribe args m : sync now m m (cmdSubscribe args).
Proof. unfold cmdSubscribe. ysteps. Qed.
Lemma y_PSubscribe args m : sync now m m (cmdPSubscribe args).
Proof. unfold cmdPSubscribe. ysteps. Qed.
Lemma y_Unsubscribe args m : sync now m m (cmdUnsubscribe args).
Proof. unfold cmdUnsubscribe. ysteps. Qed.
Lemma y_PUnsubscribe args m : sync now m m (cmdPUnsubscribe args).
Proof. unfold cmdPUnsubscribe. ysteps. Qed.
Lemma y_Publish args m : sync now m m (cmdPublish args).
Proof. unfold cmdPublish. ysteps. Qed.
Lemma y_Command tbl args m : sync now m m (cmdCommand tbl args).
Proof. unfold cmdCommand, writeCommandFullList, writeCommandInfoNames. ysteps. Qed.
Lemma y_Multi args m : sync now m m (cmdMulti args).
Proof. unfold cmdMulti. ysteps. Qed.
Lemma y_Discard args m : sync now m m (cmdDiscard args).
Proof. unfold cmdDiscard. ysteps. Qed.
Lemma y_Watch args m : sync now m m (cmdWatch args).
Proof. unfold cmdWatch. ysteps. Qed.
Lemma y_Unwatch args m : sync now m m (cmdUnwatch args).
Proof. unfold cmdUnwatch. ysteps. Qed.
End keys.
Create HintDb converge discriminated.
#[export] Hint Constants Opaque : converge.
#[export] Hint Resolve y_Get y_SetNX y_GetSet y_GetDel y_MGet y_MSet y_MSetNX y_Del y_IncrByFloat y_StrLen y_GetRange
  y_SetRange y_HSet y_HMSet y_HGet y_HMGet y_HDel y_HExists y_HLen y_HIncrBy y_HIncrByFloat y_HSetNX : converge.
#[export] Hint Resolve y_LPush y_RPush y_LPushX y_RPushX y_LPop y_RPop y_LLen y_LIndex y_LSet y_LRem y_LRange y_LTrim
  y_LInsert y_SAdd y_SRem y_SMembers y_SIsMember y_SCard y_SUnion y_SInter y_SDiff y_SUnionStore y_SInterStore
  y_SDiffStore : converge.
#[export] Hint Resolve y_Exists y_Type y_TTL y_PTTL y_Expire y_ExpireAt y_PExpire y_PExpireAt y_Persist y_Rename y_RenameNX
  y_Select y_Keys y_Scan y_RandomKey y_DBSize y_Ping y_Echo y_Auth y_Time y_Client y_Info y_FlushDB y_FlushAll
  y_Subscribe y_PSubscribe y_Unsubscribe y_PUnsubscribe y_Publish y_Command y_Multi y_Discard y_Watch y_Unwatch : converge.

Section all.
Context (now : Time) `{MapOrder} `{Floats}.

(** The requests whose effect is replicated in full.  SET, SETEX and PSETEX replicate the remaining
    milliseconds, so their expiry must be relative and not overflow; the counters and APPEND
    replicate a SET without expiry, so the key must have none, and an empty APPEND replicates
    nothing; GETEX replicates some options only; EXEC is the sequence of what it runs. *)
Definition replicable (m : keyspace) (name : string) (args : list slice) : Prop :=
  if (name =? "set")%string then
    forall o, parseSetOpts (drop 3 args) (mkSetOpts false false false false (-1) None) = inr o -> plainOpts o
  else if (name =? "setex")%string then
    forall n, ParseIntArg (arg args 2) = inr n -> n * Second <= MaxInt64
  else if (name =? "psetex")%string then
    forall n, ParseIntArg (arg args 2) = inr n -> n * Millisecond <= MaxInt64
  else if bool_decide (name ∈ ["incr"; "decr"; "incrby"; "decrby"]%string) then ttlOf m (argStr args 1) = noTTL
  else if (name =? "append")%string then ttlOf m (argStr args 1) = noTTL /\ argStr args 2 <> EmptyString
  else if (name =? "getex")%string then (List.length args <= 2)%nat
  else name <> "exec"%string.

Definition converging (m : keyspace) (l : list CommandMeta) : Prop :=
  Forall (fun meta => forall args, replicable m (lowerName meta) args -> sync now m m (c_Handler meta args)) l.

Ltac converged := apply Forall_cons; split; [intros args _; cbn [c_Handler reg]; solve [eauto with converge]|].
Ltac special L := apply Forall_cons; split; [intros args Hr; cbn [c_Handler reg]; apply L; try done; exact Hr|].

Lemma y_SetEX args m : (forall n, ParseIntArg (arg args 2) = inr n -> n * Second <= MaxInt64) -> sync now m m (cmdSetEX args).
Proof. intros Hn. unfold cmdSetEX. apply y_setWithTTL. intros n E Hp. apply exact_sec; [done|by apply Hn]. Qed.
Lemma y_PSetEX args m : (forall n, ParseIntArg (arg args 2) = inr n -> n * Millisecond <= MaxInt64) -> sync now m m (cmdPSetEX args).
Proof. intros Hn. unfold cmdPSetEX. apply y_setWithTTL. intros n E Hp. apply exact_ms; [done|by apply Hn]. Qed.
Lemma y_Append' args m : ttlOf m (argStr args 1) = noTTL /\ argStr args 2 <> EmptyString -> sync now m m (cmdAppend args).
Proof. intros [Ht Hv]. by apply y_Append. Qed.

Lemma converging_String m : settled now m -> converging m registerStringCommands.
Proof.
  intros Hm. converged. special y_Set. converged. special y_SetEX. special y_PSetEX. do 2 converged. special y_GetEx.
  do 4 converged. special y_Incr. special y_Decr. special y_IncrBy. special y_DecrBy. converged. special y_Append'.
  do 3 converged. apply Forall_nil_2.
Qed.
Lemma y_HGetAll args m : sync now m m (cmdHGetAll args).
Proof. unfold cmdHGetAll. apply y_hashReply. Qed.
Lemma y_HKeys args m : sync now m m (cmdHKeys args).
Proof. unfold cmdHKeys. apply y_hashReply. Qed.
Lemma y_HVals args m : sync now m m (cmdHVals args).
Proof. unfold cmdHVals. apply y_hashReply. Qed.

Lemma converging_Hash m : settled now m -> converging m registerHashCommands.
Proof.
  intros Hm. do 4 converged. special y_HGetAll. do 3 converged. special y_HKeys. special y_HVals.
  do 3 converged. apply Forall_nil_2.
Qed.
Lemma converging_List m : converging m registerListCommands.
Proof. do 13 converged. apply Forall_nil_2. Qed.
Lemma converging_Set m : settled now m -> converging m registerSetCommands.
Proof. intros Hm. do 11 converged. apply Forall_nil_2. Qed.
Lemma converging_Generic m : settled now m -> converging m registerGenericCommands.
Proof. intros Hm. do 16 converged. apply Forall_nil_2. Qed.
Lemma converging_Server tbl m : converging m (registerServerCommands tbl).
Proof. do 9 converged. apply Forall_nil_2. Qed.
Lemma converging_PubSub m : converging m registerPubSubCommands.
Proof. do 5 converged. apply Forall_nil_2. Qed.
Lemma converging_Transaction exec m : converging m (registerTransactionCommands exec).
Proof.
  converged. apply Forall_cons; split; [by intros args Hr; exfalso; apply Hr|]. do 3 converged. apply Forall_nil_2.
Qed.

Lemma converging_builtins tbl exec m : settled now m -> converging m (builtins tbl exec).
Proof.
  intros Hm. unfold converging, builtins. rewrite !Forall_app.
  split_and!; [by apply converging_String|by apply converging_Hash|apply converging_List|by apply converging_Set|
    by apply converging_Generic|apply converging_Server|apply converging_PubSub|apply converging_Transaction].
Qed.

Lemma y_Dispatch depth v m :
  settled now m -> (forall a rest, ValueToArgs v = inr (a :: rest) -> replicable m (ToLower (sbytes a)) (a :: rest)) ->
  sync now m m (Dispatch depth v).
Proof.
  intros Hm Hv. destruct depth as [|depth]; cbn [Dispatch]; cbv zeta;
    (destruct (ValueToArgs v) as [err|[|a rest]]; [ysteps|ysteps|]);
    specialize (Hv a rest eq_refl);
    (destruct (Lookup _ _) as [meta|] eqn:El; [|ysteps]);
    (match goal with |- context [match ?x with Some err => writeErr (errText err) | None => _ end] => destruct x end; [ysteps|]);
    apply Lookup_builtin in El as [Hin Hname]; rewrite Hname in Hv;
    by apply (proj1 (Forall_forall _ _) (converging_builtins _ _ m Hm) meta Hin).
Qed.

(** C2: A replica converges.  When a primary and a replica hold the same keyspace, whatever replicable
    request the primary executes, a replica that applies the payloads the request replicated, at the
    same instant, ends with the primary's keyspace again: same keys, values and expiries, without a
    panic.  Both are without a memory limit and no other goroutine works on them; no key is due at that very
    instant and no stored collection is empty.  Replicable is every request but EXEC, GETEX with an option, a
    SET whose expiry is an absolute time, a SET, SETEX or PSETEX whose expiry overflows, an INCR, DECR, INCRBY, DECRBY or
    APPEND of a key with an expiry, and an APPEND of nothing.  The last two diverge ([counter_drops_expiry],
    [empty_append_is_not_replicated]), and so does an expiry applied later ([late_expiry_is_longer]). *)
Theorem dispatch_converges m v w r w' :
  quiet now (w_st w) -> reps now m (db (w_st w)) -> settled now m ->
  (forall a rest, ValueToArgs v = inr (a :: rest) -> replicable m (ToLower (sbytes a)) (a :: rest)) ->
  Dispatch 2 v w = (Val r, w') ->
  exists m' ps, quiet now (w_st w') /\ reps now m' (db (w_st w')) /\ w_repl w' = w_repl w ++ ps /\
    forall s o s', quiet now s -> reps now m (db s) -> applyAll ps s = (o, s') ->
    o = Ret tt /\ quiet now s' /\ reps now m' (db s').
Proof.
  intros Hq Hr Hm Hv Hd. destruct (y_Dispatch 2 v m Hm Hv w r w' Hd Hq Hr) as (m' & ps & Hq' & Hr' & Hp & Hf).
  exists m', ps. split_and!; [done..|]. intros s o s' Hqs Hrs Ha.
  by destruct (applyAll_follows now ps m m' Hf s o s' Ha Hqs Hrs) as (? & -> & ?).
Qed.
End all.

(** ** Where the copies differ *)

(** The key "k" on a primary that executes a request and on a replica that applies its payloads at [now]. *)
Definition bothCopies (os : list op) (words : list string) (now : Time) : option (gvalue * Time) * option (gvalue * Time) :=
  let w := demoWorld os in
  let w' := snd (@Dispatch idOrder demoFloats 2 (request words) w) in
  (view (db (w_st w')) "k", view (db (snd (@applyAll idOrder (w_repl w') (mkSt (db (w_st w)) (calmEnv now))))) "k").

(** A counter or an APPEND keeps the expiry of its key and replicates a SET without one. *)
Lemma counter_drops_expiry :
  bothCopies [OSet "k" (Some "1"%string) 1000] ["INCR"; "k"] 1 = (Some (VString (Some "2"%string), 1000), Some (VString (Some "2"%string), noTTL)) /\
  bothCopies [OSet "k" (Some "1"%string) 1000] ["APPEND"; "k"; "0"] 1 = (Some (VString (Some "10"%string), 1000), Some (VString (Some "10"%string), noTTL)).
Proof. split; vm_compute; reflexivity. Qed.

(** An APPEND of nothing creates the key on the primary alone. *)
Lemma empty_append_is_not_replicated :
  bothCopies [] ["APPEND"; "k"; EmptyString] 1 = (Some (VString None, noTTL), None).
Proof. vm_compute. reflexivity. Qed.

(** Expiries travel as the milliseconds left: a replica that applies them a second later keeps the key a second longer. *)
Lemma late_expiry_is_longer :
  bothCopies [] ["SET"; "k"; "v"; "EX"; "10"] (1 + Second) =
  (Some (VString (Some "v"%string), 1 + 10 * Second), Some (VString (Some "v"%string), 1 + 11 * Second)).
Proof. vm_compute. reflexivity. Qed.

Definition setRequest : Value := request ["SET"; "k"; "v"; "EX"; "10"]%string.

Lemma dispatch_converges_witness :
  let w' := snd (@Dispatch idOrder demoFloats 2 setRequest (demoWorld [])) in
  exists m' ps, quiet 1 (w_st w') /\ reps 1 m' (db (w_st w')) /\ w_repl w' = [] ++ ps /\
    forall s o s', quiet 1 s -> reps 1 ∅ (db s) -> @applyAll idOrder ps s = (o, s') ->
    o = Ret tt /\ quiet 1 s' /\ reps 1 m' (db s').
Proof.
  intros w'. refine (@dispatch_converges 1 idOrder demoFloats ∅ setRequest (demoWorld []) None w' empty_quiet (empty_reps 1) _ _ _).
  - intros k v t Hk. by rewrite lookup_empty in Hk.
  - intros a rest [= <- <-] o Ho. vm_compute in Ho. injection Ho as <-. by vm_compute.
  - assert (fst (@Dispatch idOrder demoFloats 2 setRequest (demoWorld [])) = Val None) as E by (vm_compute; reflexivity).
    rewrite <- E. apply surjective_pairing.
Defined.
