(* ===== verification/PeerWire.v ===== *)
(** * Package [peer], part 2: messages and their framing
    (internal/peer/protocol.go, wire.go, auth_crypto.go, and the JSON shape of a snapshot entry).

    A frame is the magic number, the length of the body and the body: the JSON text of a
    [PeerMessage], whose payload is the JSON of one of the other structs. *)

From S2P Require Import Prelude GoInt GoStr GoTime GoSort Resp Config Json StoreBase Eviction StoreString.
From S2P Require Import StoreHash StoreList StoreSet StoreKeys Repl.

Definition PeerMagic : Z := 0x53435048.
Definition MaxPeerPayload : Z := 32 * 2 ^ 20.
Definition ReplEnvelopeVersion : Z := 1.
Definition PeerProtocolVersion : Z := 2.
Definition MinPeerProtocolVersion : Z := 2.

Definition MsgTypeHello : string := "HELLO".
Definition MsgTypeHelloAck : string := "HELLO_ACK".
Definition MsgTypeAuth : string := "AUTH".
Definition MsgTypeAck : string := "ACK".
Definition MsgTypeHeartbeat : string := "HB".
Definition MsgTypeNodeList : string := "NODE_LIST".
Definition MsgTypeReplicate : string := "REPL".
Definition MsgTypeBootstrapReq : string := "BS_REQ".
Definition MsgTypeBootstrapChunk : string := "BS_CHUNK".
Definition MsgTypeBootstrapDone : string := "BS_DONE".
Definition MsgTypeLeave : string := "LEAVE".

Definition wireOpAuth : string := "AUTH".
Definition wireOpBootstrap : string := "BOOTSTRAP".
Definition wireOpBootstrapEnd : string := "BOOTSTRAP_END".
Definition wireOpHeartbeat : string := "HEARTBEAT".
Definition wireOpHeartbeatAck : string := "HEARTBEAT_ACK".
Definition wireOpPeerAnnounce : string := "PEER_ANNOUNCE".
Definition wireOpLeave : string := "LEAVE".
Definition wireOpHello : string := "HELLO".
Definition wireOpHelloAck : string := "HELLO_ACK".

(** ** The structs *)

Record PeerMessage := mkMsg {
  m_Version : Z; m_Type : string; m_NodeID : string; m_SeqNum : Z; m_Timestamp : Z; m_Payload : option json }.

Record wireRepl := mkRepl {
  r_Op : string; r_Key : string; r_Value : slice; r_TTLms : Z; r_Cnt : Z; r_Dest : string;
  r_Fields : gmap string slice; r_Members : list slice; r_V : Z; r_Seq : Z; r_Origin : string }.

Record wireHello := mkHello {
  h_Op : string; h_Ver : Z; h_NodeID : string; h_Advertise : string; h_Caps : list string }.

Record wireHelloAck := mkHelloAck {
  ha_Op : string; ha_OK : bool; ha_Ver : Z; ha_Nonce : string; ha_Err : string;
  ha_NodeID : string; ha_Advertise : string; ha_Caps : list string }.

Record wireAuthProof := mkProof { a_Op : string; a_Ver : Z; a_Hmac : string }.
Record wireAck := mkAck { k_OK : bool; k_Err : string }.
Record wirePeerAnnounce := mkAnnounce { pa_Op : string; pa_Peers : list string }.
Record wireLeave := mkLeave { l_Op : string; l_NodeID : string; l_Advertise : string }.

(** [wireHeartbeat], [wireBootstrapEnd] and the probe of [NormalizePeerMessage] hold just the op. *)
Definition opOf : Type := string.

(** ** Marshalling *)

Definition msgJSON (m : PeerMessage) : json :=
  JObj ([("v"%string, jUint (m_Version m)); ("t"%string, JStr (m_Type m))]
    ++ unless (sempty (m_NodeID m)) "nid" (JStr (m_NodeID m))
    ++ unless (m_SeqNum m =? 0) "seq" (jUint (m_SeqNum m))
    ++ unless (m_Timestamp m =? 0) "ts" (jInt (m_Timestamp m))
    ++ match m_Payload m with Some p => [("p"%string, p)] | None => [] end).

Definition replJSON (r : wireRepl) : json :=
  JObj ([("op"%string, JStr (r_Op r))]
    ++ unless (sempty (r_Key r)) "key" (JStr (r_Key r))
    ++ unless (sempty (sbytes (r_Value r))) "value" (jBytes (r_Value r))
    ++ unless (r_TTLms r =? 0) "ttlms" (jInt (r_TTLms r))
    ++ unless (r_Cnt r =? 0) "cnt" (jInt (r_Cnt r))
    ++ unless (sempty (r_Dest r)) "dest" (JStr (r_Dest r))
    ++ unless (bool_decide (r_Fields r = ∅)) "fields" (jMap (r_Fields r))
    ++ unless (bool_decide (r_Members r = [])) "members" (JArr (map jBytes (r_Members r)))
    ++ unless (r_V r =? 0) "v" (jInt (r_V r))
    ++ unless (r_Seq r =? 0) "seq" (jUint (r_Seq r))
    ++ unless (sempty (r_Origin r)) "origin" (JStr (r_Origin r))).

Definition helloJSON (h : wireHello) : json :=
  JObj ([("op"%string, JStr (h_Op h)); ("ver"%string, jInt (h_Ver h))]
    ++ unless (sempty (h_NodeID h)) "node_id" (JStr (h_NodeID h))
    ++ unless (sempty (h_Advertise h)) "adv" (JStr (h_Advertise h))
    ++ unless (bool_decide (h_Caps h = [])) "caps" (jStrings (h_Caps h))).

Definition helloAckJSON (h : wireHelloAck) : json :=
  JObj ([("op"%string, JStr (ha_Op h)); ("ok"%string, JBool (ha_OK h))]
    ++ unless (ha_Ver h =? 0) "ver" (jInt (ha_Ver h))
    ++ unless (sempty (ha_Nonce h)) "nonce" (JStr (ha_Nonce h))
    ++ unless (sempty (ha_Err h)) "err" (JStr (ha_Err h))
    ++ unless (sempty (ha_NodeID h)) "node_id" (JStr (ha_NodeID h))
    ++ unless (sempty (ha_Advertise h)) "adv" (JStr (ha_Advertise h))
    ++ unless (bool_decide (ha_Caps h = [])) "caps" (jStrings (ha_Caps h))).

Definition proofJSON (p : wireAuthProof) : json :=
  JObj [("op"%string, JStr (a_Op p)); ("ver"%string, jInt (a_Ver p)); ("hmac"%string, JStr (a_Hmac p))].

Definition ackJSON (k : wireAck) : json :=
  JObj (unless (negb (k_OK k)) "ok" (JBool (k_OK k)) ++ unless (sempty (k_Err k)) "err" (JStr (k_Err k))).

(** A nil list of peers is null. *)
Definition announceJSON (a : wirePeerAnnounce) : json :=
  JObj [("op"%string, JStr (pa_Op a));
        ("peers"%string, if bool_decide (pa_Peers a = []) then JNull else jStrings (pa_Peers a))].

Definition leaveJSON (l : wireLeave) : json :=
  JObj ([("op"%string, JStr (l_Op l))] ++ unless (sempty (l_NodeID l)) "node_id" (JStr (l_NodeID l))
    ++ unless (sempty (l_Advertise l)) "adv" (JStr (l_Advertise l))).

Definition opJSON (op : opOf) : json := JObj [("op"%string, JStr op)].

(** The container fields are nil, so null, except the one of the entry's type. *)
Definition snapJSON (e : SnapshotEntry) : json :=
  let has (t : string) v := if (sn_Type e =? t)%string then v else JNull in
  JObj [("k"%string, JStr (sn_Key e)); ("t"%string, JStr (sn_Type e)); ("v"%string, jBytes (sn_Value e));
        ("f"%string, has "hash"%string (jMap (sn_Fields e)));
        ("m"%string, has "set"%string (JArr (map jBytes (sn_Members e))));
        ("e"%string, has "list"%string (JArr (map jBytes (sn_Elements e))));
        ("ttl"%string, jInt (sn_TTLMs e))].

(** ** Unmarshalling *)

Definition MaxUint8 : Z := 255.

Definition msgFields : list (field PeerMessage) :=
  [("v"%string, into m_Version (fun x m => mkMsg x (m_Type m) (m_NodeID m) (m_SeqNum m) (m_Timestamp m) (m_Payload m)) (dUint MaxUint8));
   ("t"%string, into m_Type (fun x m => mkMsg (m_Version m) x (m_NodeID m) (m_SeqNum m) (m_Timestamp m) (m_Payload m)) dString);
   ("nid"%string, into m_NodeID (fun x m => mkMsg (m_Version m) (m_Type m) x (m_SeqNum m) (m_Timestamp m) (m_Payload m)) dString);
   ("seq"%string, into m_SeqNum (fun x m => mkMsg (m_Version m) (m_Type m) (m_NodeID m) x (m_Timestamp m) (m_Payload m)) (dUint MaxUint64));
   ("ts"%string, into m_Timestamp (fun x m => mkMsg (m_Version m) (m_Type m) (m_NodeID m) (m_SeqNum m) x (m_Payload m)) dInt);
   ("p"%string, into m_Payload (fun x m => mkMsg (m_Version m) (m_Type m) (m_NodeID m) (m_SeqNum m) (m_Timestamp m) x) dRaw)].

Definition zeroMsg : PeerMessage := mkMsg 0 EmptyString EmptyString 0 0 None.

Definition replFields : list (field wireRepl) :=
  [("op"%string, into r_Op (fun x r => mkRepl x (r_Key r) (r_Value r) (r_TTLms r) (r_Cnt r) (r_Dest r) (r_Fields r) (r_Members r) (r_V r) (r_Seq r) (r_Origin r)) dString);
   ("key"%string, into r_Key (fun x r => mkRepl (r_Op r) x (r_Value r) (r_TTLms r) (r_Cnt r) (r_Dest r) (r_Fields r) (r_Members r) (r_V r) (r_Seq r) (r_Origin r)) dString);
   ("value"%string, into r_Value (fun x r => mkRepl (r_Op r) (r_Key r) x (r_TTLms r) (r_Cnt r) (r_Dest r) (r_Fields r) (r_Members r) (r_V r) (r_Seq r) (r_Origin r)) dBytes);
   ("ttlms"%string, into r_TTLms (fun x r => mkRepl (r_Op r) (r_Key r) (r_Value r) x (r_Cnt r) (r_Dest r) (r_Fields r) (r_Members r) (r_V r) (r_Seq r) (r_Origin r)) dInt);
   ("cnt"%string, into r_Cnt (fun x r => mkRepl (r_Op r) (r_Key r) (r_Value r) (r_TTLms r) x (r_Dest r) (r_Fields r) (r_Members r) (r_V r) (r_Seq r) (r_Origin r)) dInt);
   ("dest"%string, into r_Dest (fun x r => mkRepl (r_Op r) (r_Key r) (r_Value r) (r_TTLms r) (r_Cnt r) x (r_Fields r) (r_Members r) (r_V r) (r_Seq r) (r_Origin r)) dString);
   ("fields"%string, into r_Fields (fun x r => mkRepl (r_Op r) (r_Key r) (r_Value r) (r_TTLms r) (r_Cnt r) (r_Dest r) x (r_Members r) (r_V r) (r_Seq r) (r_Origin r)) dMap);
   ("members"%string, into r_Members (fun x r => mkRepl (r_Op r) (r_Key r) (r_Value r) (r_TTLms r) (r_Cnt r) (r_Dest r) (r_Fields r) x (r_V r) (r_Seq r) (r_Origin r)) (dSlice None dBytes));
   ("v"%string, into r_V (fun x r => mkRepl (r_Op r) (r_Key r) (r_Value r) (r_TTLms r) (r_Cnt r) (r_Dest r) (r_Fields r) (r_Members r) x (r_Seq r) (r_Origin r)) dInt);
   ("seq"%string, into r_Seq (fun x r => mkRepl (r_Op r) (r_Key r) (r_Value r) (r_TTLms r) (r_Cnt r) (r_Dest r) (r_Fields r) (r_Members r) (r_V r) x (r_Origin r)) (dUint MaxUint64));
   ("origin"%string, into r_Origin (fun x r => mkRepl (r_Op r) (r_Key r) (r_Value r) (r_TTLms r) (r_Cnt r) (r_Dest r) (r_Fields r) (r_Members r) (r_V r) (r_Seq r) x) dString)].

Definition zeroRepl : wireRepl := mkRepl EmptyString EmptyString None 0 0 EmptyString ∅ [] 0 0 EmptyString.

Definition helloFields : list (field wireHello) :=
  [("op"%string, into h_Op (fun x h => mkHello x (h_Ver h) (h_NodeID h) (h_Advertise h) (h_Caps h)) dString);
   ("ver"%string, into h_Ver (fun x h => mkHello (h_Op h) x (h_NodeID h) (h_Advertise h) (h_Caps h)) dInt);
   ("node_id"%string, into h_NodeID (fun x h => mkHello (h_Op h) (h_Ver h) x (h_Advertise h) (h_Caps h)) dString);
   ("adv"%string, into h_Advertise (fun x h => mkHello (h_Op h) (h_Ver h) (h_NodeID h) x (h_Caps h)) dString);
   ("caps"%string, into h_Caps (fun x h => mkHello (h_Op h) (h_Ver h) (h_NodeID h) (h_Advertise h) x) (dSlice EmptyString dString))].

Definition zeroHello : wireHello := mkHello EmptyString 0 EmptyString EmptyString [].

Definition helloAckFields : list (field wireHelloAck) :=
  [("op"%string, into ha_Op (fun x h => mkHelloAck x (ha_OK h) (ha_Ver h) (ha_Nonce h) (ha_Err h) (ha_NodeID h) (ha_Advertise h) (ha_Caps h)) dString);
   ("ok"%string, into ha_OK (fun x h => mkHelloAck (ha_Op h) x (ha_Ver h) (ha_Nonce h) (ha_Err h) (ha_NodeID h) (ha_Advertise h) (ha_Caps h)) dBool);
   ("ver"%string, into ha_Ver (fun x h => mkHelloAck (ha_Op h) (ha_OK h) x (ha_Nonce h) (ha_Err h) (ha_NodeID h) (ha_Advertise h) (ha_Caps h)) dInt);
   ("nonce"%string, into ha_Nonce (fun x h => mkHelloAck (ha_Op h) (ha_OK h) (ha_Ver h) x (ha_Err h) (ha_NodeID h) (ha_Advertise h) (ha_Caps h)) dString);
   ("err"%string, into ha_Err (fun x h => mkHelloAck (ha_Op h) (ha_OK h) (ha_Ver h) (ha_Nonce h) x (ha_NodeID h) (ha_Advertise h) (ha_Caps h)) dString);
   ("node_id"%string, into ha_NodeID (fun x h => mkHelloAck (ha_Op h) (ha_OK h) (ha_Ver h) (ha_Nonce h) (ha_Err h) x (ha_Advertise h) (ha_Caps h)) dString);
   ("adv"%string, into ha_Advertise (fun x h => mkHelloAck (ha_Op h) (ha_OK h) (ha_Ver h) (ha_Nonce h) (ha_Err h) (ha_NodeID h) x (ha_Caps h)) dString);
   ("caps"%string, into ha_Caps (fun x h => mkHelloAck (ha_Op h) (ha_OK h) (ha_Ver h) (ha_Nonce h) (ha_Err h) (ha_NodeID h) (ha_Advertise h) x) (dSlice EmptyString dString))].

Definition zeroHelloAck : wireHelloAck :=
  mkHelloAck EmptyString false 0 EmptyString EmptyString EmptyString EmptyString [].

Definition proofFields : list (field wireAuthProof) :=
  [("op"%string, into a_Op (fun x p => mkProof x (a_Ver p) (a_Hmac p)) dString);
   ("ver"%string, into a_Ver (fun x p => mkProof (a_Op p) x (a_Hmac p)) dInt);
   ("hmac"%string, into a_Hmac (fun x p => mkProof (a_Op p) (a_Ver p) x) dString)].
Definition zeroProof : wireAuthProof := mkProof EmptyString 0 EmptyString.

Definition ackFields : list (field wireAck) :=
  [("ok"%string, into k_OK (fun x k => mkAck x (k_Err k)) dBool);
   ("err"%string, into k_Err (fun x k => mkAck (k_OK k) x) dString)].
Definition zeroAck : wireAck := mkAck false EmptyString.

Definition announceFields : list (field wirePeerAnnounce) :=
  [("op"%string, into pa_Op (fun x a => mkAnnounce x (pa_Peers a)) dString);
   ("peers"%string, into pa_Peers (fun x a => mkAnnounce (pa_Op a) x) (dSlice EmptyString dString))].
Definition zeroAnnounce : wirePeerAnnounce := mkAnnounce EmptyString [].

Definition leaveFields : list (field wireLeave) :=
  [("op"%string, into l_Op (fun x l => mkLeave x (l_NodeID l) (l_Advertise l)) dString);
   ("node_id"%string, into l_NodeID (fun x l => mkLeave (l_Op l) x (l_Advertise l)) dString);
   ("adv"%string, into l_Advertise (fun x l => mkLeave (l_Op l) (l_NodeID l) x) dString)].
Definition zeroLeave : wireLeave := mkLeave EmptyString EmptyString EmptyString.

Definition opFields : list (field opOf) := [("op"%string, fun s j => dString s j)].

Definition snapFields : list (field SnapshotEntry) :=
  [("k"%string, into sn_Key (fun x e => mkSnap x (sn_Type e) (sn_Value e) (sn_Fields e) (sn_Members e) (sn_Elements e) (sn_TTLMs e)) dString);
   ("t"%string, into sn_Type (fun x e => mkSnap (sn_Key e) x (sn_Value e) (sn_Fields e) (sn_Members e) (sn_Elements e) (sn_TTLMs e)) dString);
   ("v"%string, into sn_Value (fun x e => mkSnap (sn_Key e) (sn_Type e) x (sn_Fields e) (sn_Members e) (sn_Elements e) (sn_TTLMs e)) dBytes);
   ("f"%string, into sn_Fields (fun x e => mkSnap (sn_Key e) (sn_Type e) (sn_Value e) x (sn_Members e) (sn_Elements e) (sn_TTLMs e)) dMap);
   ("m"%string, into sn_Members (fun x e => mkSnap (sn_Key e) (sn_Type e) (sn_Value e) (sn_Fields e) x (sn_Elements e) (sn_TTLMs e)) (dSlice None dBytes));
   ("e"%string, into sn_Elements (fun x e => mkSnap (sn_Key e) (sn_Type e) (sn_Value e) (sn_Fields e) (sn_Members e) x (sn_TTLMs e)) (dSlice None dBytes));
   ("ttl"%string, into sn_TTLMs (fun x e => mkSnap (sn_Key e) (sn_Type e) (sn_Value e) (sn_Fields e) (sn_Members e) (sn_Elements e) x) dInt)].
Definition zeroSnap : SnapshotEntry := mkSnap EmptyString EmptyString None ∅ [] [] 0.

(** ** Frames *)

(** [binary.BigEndian.PutUint32] and [Uint32]. *)
Definition putUint32 (n : Z) : string :=
  byte1 (n / 2 ^ 24) +++ byte1 (n / 2 ^ 16 mod 256) +++ byte1 (n / 2 ^ 8 mod 256) +++ byte1 (n mod 256).
Definition uint32 (s : string) : Z :=
  let b n := default 0 (byteAt n s) in ((b 0%nat * 256 + b 1%nat) * 256 + b 2%nat) * 256 + b 3%nat.

Definition EncodeMessage (msg : PeerMessage) : res string :=
  let body := print (msgJSON msg) in
  if len body >? MaxPeerPayload then
    inl (New ("peer wire: marshal peer message: payload too large: " +++ FormatInt (len body)))
  else inr (putUint32 PeerMagic +++ putUint32 (len body) +++ body).

(** [WriteMessage]: what is written after [w]; the writer does not fail. *)
Definition WriteMessage (w : string) (msg : PeerMessage) : res string :=
  let body := print (msgJSON msg) in
  if len body >? MaxPeerPayload then
    inl (New ("peer wire: marshal peer message: payload too large: " +++ FormatInt (len body)))
  else inr ((w +++ putUint32 PeerMagic +++ putUint32 (len body)) +++ body).

Definition errInvalidMagic : error := New "peer wire: invalid magic bytes".

Definition ReadMessage : Reader PeerMessage := fun s =>
  match ReadFull 8 s with
  | (inl err, s) => (inl (wrapErr "peer wire: read header: " err), s)
  | (inr hdr, s) =>
      if negb (uint32 (stake 4 hdr) =? PeerMagic) then
        (inl (wrapErr "peer wire: read header: " errInvalidMagic), s)
      else
        let n := uint32 (sdrop 4 hdr) in
        if n >? MaxPeerPayload then
          (inl (New ("peer wire: payload length " +++ FormatInt n +++ " exceeds max " +++ FormatInt MaxPeerPayload)), s)
        else match ReadFull n s with
             | (inl err, s) => (inl (wrapErr "peer wire: read payload: " err), s)
             | (inr buf, s) =>
                 match Unmarshal zeroMsg msgFields (parse buf) with
                 | (msg, true) => (inr msg, s)
                 | (_, false) => (inl (New "peer wire: decode payload: invalid json"), s)
                 end
             end
  end.

(** ** Older envelopes *)

Definition setType (t : string) (m : PeerMessage) : PeerMessage :=
  mkMsg (m_Version m) t (m_NodeID m) (m_SeqNum m) (m_Timestamp m) (m_Payload m).

Definition NormalizePeerMessage (msg : PeerMessage) : PeerMessage :=
  if negb (sempty (m_Type msg)) then msg
  else match Unmarshal EmptyString opFields (m_Payload msg) with
       | (_, false) => msg
       | (op, true) =>
           let op := ToUpper (TrimSpace op) in
           let case s := (op =? s)%string in
           if case wireOpHello then setType MsgTypeHello msg
           else if case wireOpHelloAck then setType MsgTypeHelloAck msg
           else if case wireOpAuth then setType MsgTypeAuth msg
           else if case wireOpHeartbeat || case wireOpHeartbeatAck then setType MsgTypeHeartbeat msg
           else if case wireOpPeerAnnounce then setType MsgTypeNodeList msg
           else if case wireOpLeave then setType MsgTypeLeave msg
           else if case wireOpBootstrap then setType MsgTypeBootstrapReq msg
           else if case wireOpBootstrapEnd then setType MsgTypeBootstrapDone msg
           else if negb (sempty op) then setType MsgTypeReplicate msg
           else msg
       end.

(** ** Replication payloads *)

(** [buildWireRepl], given the next sequence number. *)
Definition wireOf (nodeID : string) (seq : Z) (p : ReplicatePayload) : wireRepl :=
  mkRepl (p_Op p) (p_Key p) (p_Value p) (p_TTLms p) (p_Cnt p) (p_Dest p) (p_Fields p) (p_Members p)
    ReplEnvelopeVersion seq nodeID.

(** The payload [applyWireRepl] applies. *)
Definition payloadOf (w : wireRepl) : ReplicatePayload :=
  mkPayload (r_Op w) (r_Key w) (r_Value w) (r_TTLms w) (r_Cnt w) (r_Dest w) (r_Fields w) (r_Members w).

Definition applyWireRepl `{MapOrder} (w : wireRepl) : M (outcome (option error)) :=
  applyReplicatePayload (payloadOf w).

(** [replFrame.bytes]. *)
Definition frameBytes (nodeID : string) (ts : Z) (w : wireRepl) : res string :=
  EncodeMessage (mkMsg 1 MsgTypeReplicate nodeID (r_Seq w) ts (Some (replJSON w))).
