(* ===== verification/PeerWireSpec.v ===== *)
(** * What crosses the wire between peers: messages and replication payloads read back as sent. *)

From S2P Require Import Prelude GoInt GoStr GoTime GoSort Resp RespSpec Config Json JsonSpec StoreBase Eviction StoreString.
From S2P Require Import StoreHash StoreList StoreSet StoreKeys StoreOps Repl PeerWire.

(** ** Structs *)

Section structs.
Context {S A : Type} (fs : list (field S)) (get : S -> A) (set : A -> S -> S) (d : decoder A).

Lemma field_always s name v l x : dMember fs s name v = into get set d s v -> d (get s) v = (x, true) ->
  dMembers fs s ((name, v) :: l) = dMembers fs (set x s) l.
Proof. intros Hm Hd. cbn [dMembers]. rewrite Hm. unfold into. rewrite Hd. by destruct (dMembers _ _ l). Qed.

Lemma field_unless s (b : bool) name v l x :
  dMember fs s name v = into get set d s v -> (b = false -> d (get s) v = (x, true)) -> (b = true -> set x s = s) ->
  dMembers fs s (unless b name v ++ l) = dMembers fs (set x s) l.
Proof.
  intros Hm Hf Ht. destruct b; [by rewrite Ht|]. cbn [unless app]. by apply field_always; [|apply Hf].
Qed.
End structs.

Lemma unless_last (b : bool) name v : unless b name v = unless b name v ++ [].
Proof. by rewrite app_nil_r. Qed.

(** ** Fields *)

Lemma d_string cur s : dString cur (JStr s) = (s, true).
Proof. done. Qed.
Lemma d_raw cur j : dRaw cur j = (Some j, true).
Proof. done. Qed.
Lemma d_bool cur b : dBool cur (JBool b) = (b, true).
Proof. done. Qed.
Lemma d_int cur n : is_int64 n = true -> dInt cur (jInt n) = (n, true).
Proof. intros. unfold dInt, jInt. by rewrite ParseInt_FormatInt. Qed.
Lemma d_uint max cur n : 0 <= n <= max -> max <= MaxUint64 -> dUint max cur (jUint n) = (n, true).
Proof. intros. unfold dUint, jUint. rewrite ParseUint_FormatUint by lia. by rewrite (proj2 (Z.leb_le n max)) by lia. Qed.
Lemma d_bytes cur b : dBytes cur (jBytes b) = (b, true).
Proof. destruct b as [b|]; [|done]. unfold dBytes, jBytes. by rewrite decode64_encode64. Qed.

Lemma d_elems {A B} (zero : A) (dec : decoder A) (enc : B -> json) (f : B -> A) l :
  (forall x, dec zero (enc x) = (f x, true)) -> dElems zero dec (map enc l) = (map f l, true).
Proof. intros H. induction l as [|x l IH]; [done|]. cbn. by rewrite H, IH. Qed.

Lemma d_byteSlices cur l : dSlice None dBytes cur (JArr (map jBytes l)) = (l, true).
Proof. unfold dSlice. rewrite (d_elems _ _ _ id) by (intros; apply d_bytes). by rewrite map_id. Qed.
Lemma d_strings cur l : dSlice EmptyString dString cur (jStrings l) = (l, true).
Proof. unfold dSlice, jStrings. rewrite (d_elems _ _ _ id) by done. by rewrite map_id. Qed.

Lemma d_entries (m0 m : gmap string slice) ks :
  dEntries m0 (map (fun k => (k, jBytes (default None (m !! k)))) ks) =
  (foldl (fun a k => <[k := default None (m !! k)]> a) m0 ks, true).
Proof.
  revert m0. induction ks as [|k ks IH]; intros m0; [done|]. cbn [map dEntries foldl]. rewrite d_bytes, IH. done.
Qed.

Lemma foldl_insert_lookup (m m0 : gmap string slice) ks k :
  foldl (fun a k => <[k := default None (m !! k)]> a) m0 ks !! k =
  if bool_decide (k ∈ ks) then Some (default None (m !! k)) else m0 !! k.
Proof.
  revert m0. induction ks as [|k' ks IH]; intros m0; cbn [foldl]; [done|]. rewrite IH.
  destruct (decide (k = k')) as [->|Hk].
  - rewrite lookup_insert_eq. rewrite (bool_decide_true (k' ∈ k' :: ks)) by set_solver. by case_bool_decide.
  - rewrite lookup_insert_ne by done. by rewrite (bool_decide_ext (k ∈ k' :: ks) (k ∈ ks)) by set_solver.
Qed.

Lemma d_map cur (m : gmap string slice) : cur = ∅ -> dMap cur (jMap m) = (m, true).
Proof.
  intros ->.  unfold dMap, jMap. rewrite d_entries. f_equal. apply map_eq. intros k. rewrite foldl_insert_lookup, lookup_empty.
  assert (k ∈ sortStrings (map fst (map_to_list m)) <-> is_Some (m !! k)) as Hk.
  { rewrite sortStrings_perm, list_elem_of_fmap. split.
    - intros ([k' v] & -> & Hv%elem_of_map_to_list). by exists v.
    - intros [v Hv]. exists (k, v). split; [done|by apply elem_of_map_to_list]. }
  case_bool_decide as E; [apply Hk in E as [v Ev]; unfold slice in *; rewrite Ev; reflexivity|].
  destruct (m !! k) eqn:Em; [|done]. destruct E. apply Hk. by eexists.
Qed.

Lemma sempty_true s : sempty s = true -> s = EmptyString.
Proof. by destruct s. Qed.
Lemma uint8_uint64 : 255 <= MaxUint64.
Proof. done. Qed.

#[export] Hint Resolve uint8_uint64 : wire.
#[export] Hint Resolve Z.le_refl : wire.
#[export] Hint Resolve d_raw d_bool d_string d_int d_uint d_bytes d_byteSlices d_strings d_map : wire.

(** One step: the field the next member names takes its value; an omitted field is zero already. *)
Ltac zeroField :=
  let E := fresh in
  intros E; first [apply sempty_true in E | apply Z.eqb_eq in E | apply bool_decide_eq_true in E | apply negb_true_iff in E];
  rewrite E; reflexivity.
Ltac next :=
  first [ erewrite field_always; [|reflexivity|solve [eauto with wire]]
        | erewrite field_unless; [|reflexivity|intros _; solve [eauto with wire]|zeroField] ].

(** ** Messages *)

Definition wfMsg (m : PeerMessage) : Prop :=
  0 <= m_Version m <= 255 /\ 0 <= m_SeqNum m <= MaxUint64 /\ is_int64 (m_Timestamp m) = true.

Lemma unmarshal_msg m : wfMsg m -> Unmarshal zeroMsg msgFields (Some (msgJSON m)) = (m, true).
Proof.
  destruct m as [v t nid seq ts p]. intros (Hv & Hs & Ht). unfold Unmarshal, dStruct, msgJSON, zeroMsg in *.
  cbn [app m_Version m_Type m_NodeID m_SeqNum m_Timestamp m_Payload] in *.
  do 5 (next; cbn [m_Version m_Type m_NodeID m_SeqNum m_Timestamp m_Payload]). by destruct p.
Qed.

(** The text of a message, when its strings are valid UTF-8 and its payload nests less than [d]. *)
Definition wfText (d : nat) (m : PeerMessage) : Prop :=
  utf8 (m_Type m) = true /\ utf8 (m_NodeID m) = true /\ (forall p, m_Payload m = Some p -> wfJson d p).

Lemma Forall_unless (P : string * json -> Prop) b name v l :
  (b = false -> P (name, v)) -> Forall P l -> Forall P (unless b name v ++ l).
Proof. intros. destruct b; [done|]. constructor; auto. Qed.

Lemma wf_obj d l : Forall (fun kv => utf8 (fst kv) = true /\ wfJson d (snd kv)) l -> wfJson (S d) (JObj l).
Proof. done. Qed.
Lemma wf_uint d n : 0 <= n <= MaxUint64 -> wfJson d (jUint n).
Proof. intros. destruct d; by apply numLit_uint. Qed.
Lemma wf_int d n : is_int64 n = true -> wfJson d (jInt n).
Proof. intros. destruct d; by apply numLit_int. Qed.
Lemma wf_str d s : utf8 s = true -> wfJson d (JStr s).
Proof. by destruct d. Qed.
Lemma wf_bool d b : wfJson d (JBool b).
Proof. by destruct d. Qed.
Lemma wf_null d : wfJson d JNull.
Proof. by destruct d. Qed.

Lemma wf_bytes d b : wfJson d (jBytes b).
Proof. destruct b as [b|]; [apply wf_str, encode64_utf8|apply wf_null]. Qed.
Lemma wf_byteSlices d l : wfJson (S d) (JArr (map jBytes l)).
Proof. cbn. apply Forall_map, Forall_forall. intros. apply wf_bytes. Qed.
Lemma wf_strings d l : Forall (fun s => utf8 s = true) l -> wfJson (S d) (jStrings l).
Proof. intros. cbn. apply Forall_map. by eapply Forall_impl; [done|]; intros; apply wf_str. Qed.
Lemma wf_map d (m : gmap string slice) : (forall k, is_Some (m !! k) -> utf8 k = true) -> wfJson (S d) (jMap m).
Proof.
  intros Hm. cbn. apply Forall_map, Forall_forall. intros k. rewrite sortStrings_perm, list_elem_of_fmap. cbn.
  intros ([k' v] & -> & Hv%elem_of_map_to_list). split; [apply Hm; by exists v|apply wf_bytes].
Qed.

#[export] Hint Resolve wf_uint wf_int wf_str wf_bool wf_null wf_bytes wf_byteSlices wf_strings wf_map : wire.

Ltac wfMember := first [apply Forall_cons; split; [split; [reflexivity|cbn [snd]; eauto with wire]|]
                       | apply Forall_unless; [intros _; split; [reflexivity|cbn [snd]; eauto with wire]|]].

Lemma wf_msg d m : wfMsg m -> wfText d m -> wfJson (S d) (msgJSON m).
Proof.
  intros (Hv & Hs & Ht) (Hty & Hn & Hp). apply wf_obj. cbn [app].
  assert (0 <= m_Version m <= MaxUint64) by (pose proof uint8_uint64; lia).
  do 5 wfMember. destruct (m_Payload m) as [p|]; [|done]. wfMember. done.
Qed.

(** ** Frames *)

Lemma uint32_put n r : 0 <= n < 2 ^ 32 -> uint32 (putUint32 n +++ r) = n.
Proof.
  intros Hn. unfold uint32, putUint32, byteAt, byte1, one. rewrite !sapp_cons, !sapp_nil_l, !sapp_cons, !sapp_nil_l. cbn [sdrop from_option id]. unfold id.
  change (2 ^ 24) with (256 * 65536). change (2 ^ 16) with (256 * 256). change (2 ^ 8) with 256. change (2 ^ 32) with 4294967296 in Hn.
  rewrite <- !Z.div_div by lia. change 65536 with (256 * 256). rewrite <- !Z.div_div by lia.
  rewrite !code_chr by (Z.to_euclidean_division_equations; lia). Z.to_euclidean_division_equations; lia.
Qed.

Lemma putUint32_length n : String.length (putUint32 n) = 4%nat.
Proof. done. Qed.

Lemma ReadFull_app n h r e : Z.of_nat (String.length h) = n -> ReadFull n (mkStream (h +++ r) e) = (inr h, mkStream r e).
Proof.
  intros Hn. unfold ReadFull. cbn [s_bytes s_end]. destruct (len (h +++ r) <? n) eqn:E.
  { apply Z.ltb_lt in E. unfold len in E. rewrite slength_app in E. lia. }
  replace (Z.to_nat n) with (String.length h) by lia. by rewrite stake_app, sdrop_app.
Qed.

(** A frame reads back as its message, whatever follows it on the connection. *)
Lemma read_frame d m body r e :
  wfMsg m -> wfText d m -> Z.of_nat (S d) <= maxNestingDepth -> body = print (msgJSON m) -> len body <= MaxPeerPayload ->
  ReadMessage (mkStream (putUint32 PeerMagic +++ putUint32 (len body) +++ body +++ r) e) = (inr m, mkStream r e).
Proof.
  intros Hm Ht Hd Hb Hlen. unfold ReadMessage. rewrite <- sapp_assoc, (ReadFull_app 8) by done.
  change 4%nat with (String.length (putUint32 PeerMagic)). rewrite stake_app, sdrop_app.
  rewrite <- (sapp_nil_r (putUint32 PeerMagic)), <- (sapp_nil_r (putUint32 (len body))), !uint32_put
    by (try done; pose proof (len_nonneg body); unfold MaxPeerPayload in Hlen; lia).
  rewrite Z.eqb_refl. cbn [negb]. destruct (len body >? MaxPeerPayload) eqn:E; [apply Z.gtb_lt in E; lia|].
  rewrite ReadFull_app by done. rewrite Hb, (parse_print _ (S d)) by (try done; by apply wf_msg). by rewrite unmarshal_msg.
Qed.

(** ** Replication payloads *)

Definition wfRepl (w : wireRepl) : Prop :=
  is_int64 (r_TTLms w) = true /\ is_int64 (r_Cnt w) = true /\ is_int64 (r_V w) = true /\ 0 <= r_Seq w <= MaxUint64.

Definition withValue (v : slice) (w : wireRepl) : wireRepl :=
  mkRepl (r_Op w) (r_Key w) v (r_TTLms w) (r_Cnt w) (r_Dest w) (r_Fields w) (r_Members w) (r_V w) (r_Seq w) (r_Origin w).

(** An empty value is left out, so it comes back nil. *)
Lemma d_value v : sempty (sbytes v) = false -> dBytes None (jBytes v) = (cloneBytes v, true).
Proof. rewrite d_bytes. destruct v as [[|c s]|]; done. Qed.

Lemma unmarshal_repl w : wfRepl w ->
  Unmarshal zeroRepl replFields (Some (replJSON w)) = (withValue (cloneBytes (r_Value w)) w, true).
Proof.
  destruct w as [op key value ttl cnt dest fields mem v seq origin]. intros (Ht & Hc & Hv & Hs).
  unfold Unmarshal, dStruct, replJSON, zeroRepl, withValue in *.
  cbn [app r_Op r_Key r_Value r_TTLms r_Cnt r_Dest r_Fields r_Members r_V r_Seq r_Origin] in *.
  do 2 (next; cbn [r_Op r_Key r_Value r_TTLms r_Cnt r_Dest r_Fields r_Members r_V r_Seq r_Origin]).
  erewrite field_unless; [|reflexivity|apply d_value|by intros E%sempty_true; unfold cloneBytes; rewrite E].
  cbn [r_Op r_Key r_Value r_TTLms r_Cnt r_Dest r_Fields r_Members r_V r_Seq r_Origin].
  do 7 (next; cbn [r_Op r_Key r_Value r_TTLms r_Cnt r_Dest r_Fields r_Members r_V r_Seq r_Origin]).
  rewrite unless_last. by next.
Qed.

Lemma wf_repl d w : wfRepl w -> utf8 (r_Op w) = true -> utf8 (r_Key w) = true -> utf8 (r_Dest w) = true -> utf8 (r_Origin w) = true ->
  (forall k, is_Some (r_Fields w !! k) -> utf8 k = true) -> wfJson (S (S d)) (replJSON w).
Proof.
  intros (Ht & Hc & Hv & Hs) Ho Hk Hd Hr Hf. apply wf_obj. cbn [app].
  rewrite (unless_last (sempty (r_Origin w))). do 11 wfMember. done.
Qed.

(** The operations see the bytes of a value only. *)
Lemma bind_ext {A B} (c : M A) (f g : A -> M B) s : (forall a s, f a s = g a s) -> (c ≫= f) s = (c ≫= g) s.
Proof. intros H. unfold mbind, M_bind. destruct (c s) as [a s']. apply H. Qed.

Lemma bind_head {A B} (c c' : M A) (f : A -> M B) s : c s = c' s -> (c ≫= f) s = (c' ≫= f) s.
Proof. intros H. unfold mbind, M_bind. by rewrite H. Qed.

Lemma removeEqual_clone v n l : removeEqual (cloneBytes v) n l = removeEqual v n l.
Proof.
  revert n. induction l as [|x l IH]; intros n; [done|]. cbn [removeEqual]. unfold bytesEqual. rewrite cloneBytes_bytes, !IH. done.
Qed.

Section apply.
Context `{MapOrder}.

Lemma Set_clone k v t : Set_ k (cloneBytes v) t = Set_ k v t.
Proof. unfold Set_, setLocked. by rewrite cloneBytes_idemp. Qed.
Lemma LSet_clone k i v : LSet k i (cloneBytes v) = LSet k i v.
Proof. unfold LSet. by rewrite cloneBytes_idemp. Qed.
Lemma LRem_clone k n v s : LRem k n (cloneBytes v) s = LRem k n v s.
Proof.
  unfold LRem. apply bind_ext. intros [e|] s1; [|done]. destruct (e_value e); try done. apply bind_ext. intros e1 s2.
  unfold remLoop. rewrite !removeEqual_clone. done.
Qed.

Definition valued (v : slice) (p : ReplicatePayload) : ReplicatePayload :=
  mkPayload (p_Op p) (p_Key p) v (p_TTLms p) (p_Cnt p) (p_Dest p) (p_Fields p) (p_Members p).

#[local] Opaque Set_ LRem LSet.

Lemma apply_valued p s : applyReplicatePayload (valued (cloneBytes (p_Value p)) p) s = applyReplicatePayload p s.
Proof.
  unfold applyReplicatePayload, valued. cbn [p_Op p_Key p_Value p_TTLms p_Cnt p_Dest p_Fields p_Members].
  repeat match goal with |- context [if ?b then _ else _] => lazymatch b with context [String.eqb] => destruct b; [try done|] end end; try done.
  - apply bind_head, bind_ext. intros t s1. by rewrite Set_clone.
  - apply bind_head, bind_head, LRem_clone.
  - apply bind_head. by rewrite LSet_clone.
Qed.

#[local] Transparent Set_ LRem LSet.

(** ** What the peer applies is what was sent *)

(** The payloads JSON carries: names are valid UTF-8, counts fit their type. *)
Definition wfPayload (p : ReplicatePayload) : Prop :=
  utf8 (p_Op p) = true /\ utf8 (p_Key p) = true /\ utf8 (p_Dest p) = true /\
  is_int64 (p_TTLms p) = true /\ is_int64 (p_Cnt p) = true /\ (forall k, is_Some (p_Fields p !! k) -> utf8 k = true).

Lemma inr_eq {A} (x y : A) : (inr x : res A) = inr y -> x = y.
Proof. congruence. Qed.

(** A message written to a connection is read back unchanged by the peer, and the bytes that
    follow it are left for the next read: the frame, the JSON text with its escapes and base64 and
    the omitted empty fields all invert. *)
Theorem message_roundtrip d m w r e :
  wfMsg m -> wfText d m -> Z.of_nat (S d) <= maxNestingDepth -> WriteMessage EmptyString m = inr w ->
  ReadMessage (mkStream (w +++ r) e) = (inr m, mkStream r e).
Proof.
  intros Hm Ht Hd. unfold WriteMessage. remember (print (msgJSON m)) as body eqn:Hb. destruct (_ >? MaxPeerPayload) eqn:E; [done|]. intros Hw%inr_eq. subst w. rewrite Z.gtb_ltb in E. apply Z.ltb_ge in E.
  rewrite !sapp_assoc, sapp_nil_l. by apply (read_frame d m).
Qed.

Lemma read_replicated nodeID seq ts p frame r e :
  wfPayload p -> utf8 nodeID = true -> 0 <= seq <= MaxUint64 -> is_int64 ts = true ->
  frameBytes nodeID ts (wireOf nodeID seq p) = inr frame ->
  exists msg w, ReadMessage (mkStream (frame +++ r) e) = (inr msg, mkStream r e) /\
    NormalizePeerMessage msg = msg /\ m_Type msg = MsgTypeReplicate /\ m_SeqNum msg = seq /\
    Unmarshal zeroRepl replFields (m_Payload msg) = (w, true) /\ r_Seq w = seq /\ r_Origin w = nodeID /\ r_Op w = p_Op p /\
    forall s, applyWireRepl w s = applyReplicatePayload p s.
Proof.
  intros (Ho & Hk & Hd & Ht & Hc & Hf) Hn Hs Hts. unfold frameBytes, EncodeMessage.
  set (msg := mkMsg _ _ _ _ _ _). remember (print (msgJSON msg)) as body eqn:Hb. destruct (_ >? MaxPeerPayload) eqn:E; [done|].
  intros Hframe%inr_eq. subst frame. rewrite Z.gtb_ltb in E. apply Z.ltb_ge in E.
  assert (wfRepl (wireOf nodeID seq p)) as Hw by (split_and!; [done|done|reflexivity|apply Hs|apply Hs]).
  exists msg, (withValue (cloneBytes (p_Value p)) (wireOf nodeID seq p)).
  split; [|split_and!; [reflexivity..|apply (unmarshal_repl _ Hw)|reflexivity|reflexivity|reflexivity|intros s; apply apply_valued]].
  rewrite !sapp_assoc. apply (read_frame 2 msg); [done| |done|done|done]. split_and!; [done|done|]. intros j [= <-]. by apply wf_repl.
Qed.

(** C29: A replicated mutation whose key, destination and field names are valid UTF-8 survives the wire: the frame a primary sends for a payload is read by the
    peer as one REPL message of that origin and sequence number, whose payload decodes and, applied,
    does to the peer's store exactly what the payload itself does. *)
Theorem replication_roundtrip nodeID seq ts p frame r e :
  wfPayload p -> utf8 nodeID = true -> 0 <= seq <= MaxUint64 -> is_int64 ts = true ->
  frameBytes nodeID ts (wireOf nodeID seq p) = inr frame ->
  exists msg w, ReadMessage (mkStream (frame +++ r) e) = (inr msg, mkStream r e) /\
    NormalizePeerMessage msg = msg /\ m_Type msg = MsgTypeReplicate /\ m_SeqNum msg = seq /\
    Unmarshal zeroRepl replFields (m_Payload msg) = (w, true) /\ r_Seq w = seq /\ r_Origin w = nodeID /\ r_Op w = p_Op p /\
    forall s, applyWireRepl w s = applyReplicatePayload p s.
Proof. apply read_replicated. Qed.
End apply.

Definition demoMessage : PeerMessage := mkMsg 1 MsgTypeHello "node-1" 3 1700000000000 (Some (helloJSON (mkHello "HELLO" 2 "node-1" "10.0.0.1:7379" ["cluster"]))).
Definition demoFrame : string := match WriteMessage EmptyString demoMessage with inr w => w | inl _ => EmptyString end.

Lemma message_roundtrip_witness :
  ReadMessage (mkStream (demoFrame +++ "next") io_EOF) = (inr demoMessage, mkStream "next" io_EOF).
Proof.
  apply (message_roundtrip 2 demoMessage); [done| |done|vm_compute; reflexivity].
  split_and!; [done|done|]. intros p [= <-]. apply wf_obj. do 4 wfMember. rewrite unless_last. wfMember; [|done].
  apply wf_strings. by constructor.
Defined.

Definition demoPush : ReplicatePayload := mkPayload "RPUSH" "queue" None 0 0 EmptyString ∅ [Some "a"%string; None].
Definition demoPushFrame : string :=
  match frameBytes "node-1" 1700000000000 (wireOf "node-1" 7 demoPush) with inr w => w | inl _ => EmptyString end.

Lemma replication_roundtrip_witness :
  exists msg w, ReadMessage (mkStream (demoPushFrame +++ "next") io_EOF) = (inr msg, mkStream "next" io_EOF) /\
    NormalizePeerMessage msg = msg /\ m_Type msg = MsgTypeReplicate /\ m_SeqNum msg = 7 /\
    Unmarshal zeroRepl replFields (m_Payload msg) = (w, true) /\ r_Seq w = 7 /\ r_Origin w = "node-1"%string /\ r_Op w = p_Op demoPush /\
    forall s, @applyWireRepl idOrder w s = @applyReplicatePayload idOrder demoPush s.
Proof.
  apply (@replication_roundtrip idOrder "node-1" 7 1700000000000 demoPush); [|done|done|done|vm_compute; reflexivity].
  split_and!; try done. intros k [v Hv]. change ((∅ : gmap string slice) !! k = Some v) in Hv. by rewrite lookup_empty in Hv.
Defined.
