(* ===== verification/PeerLinks.v ===== *)
(** * Package [peer], part 3: the links replication goes out on
    (internal/peer/service.go, shutdown_repl.go, and the writer of outbound.go).

    A link is built with its queue by [startInboundReplLink] and [outboundPeerSession] and is known by
    its registration number.  The metrics are the server's, so never nil. *)

From S2P Require Import Prelude GoInt GoStr GoTime GoSort Resp Config Json GoNet ConfigValid StoreBase Repl PeerWire.

(** ** Data *)

Record replFrame := mkFrame { f_wire : wireRepl; f_ts : Z }.

Record outPeer := mkLink {
  l_addr : string; l_remoteID : string; l_inbound : bool; l_linkSeq : Z; l_replStop : bool;
  l_cap : Z; l_replCh : list replFrame; l_lastHeartbeatAck : Z }.

(** The part of [Service] that holds the links; [targetsCache] keeps the links it selected and the
    generation it was built from.  [linkSeq] and [targetsGen] count registrations and do not wrap. *)
Record Links := mkLinks {
  k_nodeID : string; k_replSeq : Z; k_linkSeq : Z; k_targetsGen : Z;
  k_targetsCache : option (Z * list Z); k_out : list outPeer; k_dropped : Z }.

Definition setLinks (out : list outPeer) (s : Links) : Links :=
  mkLinks (k_nodeID s) (k_replSeq s) (k_linkSeq s) (k_targetsGen s) (k_targetsCache s) out (k_dropped s).

Definition setQueue (q : list replFrame) (l : outPeer) : outPeer :=
  mkLink (l_addr l) (l_remoteID l) (l_inbound l) (l_linkSeq l) (l_replStop l) (l_cap l) q (l_lastHeartbeatAck l).

(** ** Registration *)

(** A change of the registered links opens a new generation. *)
Definition relink (out : list outPeer) (s : Links) : Links :=
  mkLinks (k_nodeID s) (k_replSeq s) (k_linkSeq s) (k_targetsGen s + 1) (k_targetsCache s) out (k_dropped s).

(** [registerOut] of the link [startInboundReplLink] or [outboundPeerSession] has just built. *)
Definition registerOut (addr remoteID : string) (inbound : bool) (depth : Z) (s : Links) : Links :=
  let seq := k_linkSeq s + 1 in
  let link := mkLink addr remoteID inbound seq false (if depth <? 1 then 1 else depth) [] 0 in
  relink (k_out s ++ [link])
    (mkLinks (k_nodeID s) (k_replSeq s) seq (k_targetsGen s) (k_targetsCache s) (k_out s) (k_dropped s)).

Definition unregisterOut (addr : string) (s : Links) : Links :=
  relink (List.filter (fun p => l_inbound p || negb (l_addr p =? addr)%string) (k_out s)) s.

Definition unregisterLink (target : Z) (s : Links) : Links :=
  relink (List.filter (fun p => negb (l_linkSeq p =? target)) (k_out s)) s.

(** [link.replStop.Store(true)]. *)
Definition stopLink (target : Z) (s : Links) : Links :=
  setLinks (map (fun p => if l_linkSeq p =? target
                        then mkLink (l_addr p) (l_remoteID p) (l_inbound p) (l_linkSeq p) true (l_cap p) (l_replCh p) (l_lastHeartbeatAck p)
                        else p) (k_out s)) s.

(** [stopInboundReplLink] and the end of [outboundPeerSession]: the link stops taking frames, then
    goes; its writer is told to stop and waited for. *)
Definition stopInboundReplLink (target : Z) (s : Links) : Links := unregisterLink target (stopLink target s).

(** What [refreshMetrics] reports as connected outbound. *)
Definition outboundAddrs (s : Links) : list string :=
  map l_addr (List.filter (fun p => negb (l_inbound p)) (k_out s)).

Definition LiveLinkCount (s : Links) : Z := Z.of_nat (List.length (k_out s)).

Definition connectedAddrs (s : Links) : gset string := list_to_set (map (fun p => NormalizePeerAddr (l_addr p)) (k_out s)).

(** ** Targets *)

Definition preferLink (a b : outPeer) : bool :=
  if negb (Bool.eqb (l_inbound a) (l_inbound b)) then negb (l_inbound a) else l_linkSeq a <? l_linkSeq b.

Definition targetKey (l : outPeer) : string :=
  if sempty (l_remoteID l) then "addr:" +++ l_addr l else l_remoteID l.

(** One turn of the loop: the best link per node so far, and the nodes in order of appearance. *)
Definition pickLink (st : gmap string outPeer * list string) (l : outPeer) : gmap string outPeer * list string :=
  let '(best, order) := st in
  if l_replStop l then (best, order)
  else
    let key := targetKey l in
    match best !! key with
    | None => (<[key := l]> best, order ++ [key])
    | Some cur => if preferLink l cur then (<[key := l]> best, order) else (best, order)
    end.

Definition computeReplicationTargets (out : list outPeer) : list Z :=
  let '(best, order) := fold_left pickLink out (∅, []) in
  omap (fun k => l_linkSeq <$> best !! k) order.

Definition replicationTargets (s : Links) : list Z * Links :=
  let gen := k_targetsGen s in
  let fresh :=
    let links := computeReplicationTargets (k_out s) in
    (links, mkLinks (k_nodeID s) (k_replSeq s) (k_linkSeq s) gen (Some (gen, links)) (k_out s) (k_dropped s)) in
  match k_targetsCache s with
  | Some (g, links) => if g =? gen then (links, s) else fresh
  | None => fresh
  end.

(** ** Sending *)

Definition full (l : outPeer) : bool := Z.of_nat (List.length (l_replCh l)) >=? l_cap l.

(** The non-blocking send on one link's channel. *)
Definition enqueue (f : replFrame) (target : Z) (s : Links) : Links :=
  mkLinks (k_nodeID s) (k_replSeq s) (k_linkSeq s) (k_targetsGen s) (k_targetsCache s)
    (map (fun p => if (l_linkSeq p =? target) && negb (full p) then setQueue (l_replCh p ++ [f]) p else p) (k_out s))
    (k_dropped s + Z.of_nat (List.length (List.filter (fun p => (l_linkSeq p =? target) && full p) (k_out s)))).

Definition buildWireRepl (p : ReplicatePayload) (s : Links) : wireRepl * Links :=
  let seq := (k_replSeq s + 1) mod 2 ^ 64 in
  (wireOf (k_nodeID s) seq p,
   mkLinks (k_nodeID s) seq (k_linkSeq s) (k_targetsGen s) (k_targetsCache s) (k_out s) (k_dropped s)).

(** [Replicate], at time [ts]; it never returns an error. *)
Definition Replicate (ts : Z) (p : ReplicatePayload) (s : Links) : Links :=
  let '(wr, s) := buildWireRepl p s in
  let '(targets, s) := replicationTargets s in
  fold_left (fun s target => enqueue (mkFrame wr ts) target s) targets s.

(** [outboundReplWriter] takes the oldest frame of its link and writes it; what it puts on the socket
    is [frameBytes] of the frame. *)
Definition takeFrame (target : Z) (s : Links) : option replFrame * Links :=
  match List.find (fun p => l_linkSeq p =? target) (k_out s) with
  | Some l =>
      match l_replCh l with
      | f :: q => (Some f, setLinks (map (fun p => if l_linkSeq p =? target then setQueue q p else p) (k_out s)) s)
      | [] => (None, s)
      end
  | None => (None, s)
  end.

(** ** Shutdown *)

(** [DrainReplicationOutbound] polls until this is 0 or the deadline passes. *)
Definition pendingFrames (s : Links) : Z := zsum (map (fun p => Z.of_nat (List.length (l_replCh p))) (k_out s)).

Record replSpillEntry := mkSpill { sp_Peer : string; sp_Wire : wireRepl }.

(** What [FinalizeGracefulShutdown] collects once the writers have stopped: link by link, every frame
    still queued. *)
Definition collectPending (s : Links) : list replSpillEntry :=
  List.concat (map (fun p => map (fun f => mkSpill (l_addr p) (f_wire f)) (l_replCh p)) (k_out s)).

Inductive spillOutcome :=
  | NothingPending (warnUnconnected : bool)
  | SpillDisabled (entries : Z)
  | SpillWritten (doc : json)
  | SpillFailed (err : error).

Definition spillEntryJSON (e : replSpillEntry) : json :=
  JObj [("peer"%string, JStr (sp_Peer e)); ("wire"%string, replJSON (sp_Wire e))].

Definition spillJSON (nodeID : string) (now : Z) (entries : list replSpillEntry) : json :=
  JObj [("node_id"%string, JStr nodeID); ("generated_unix_ms"%string, jInt now);
        ("entries"%string, JArr (map spillEntryJSON entries))].

(** The end of [FinalizeGracefulShutdown]; [writeErr] is what writing the file to disk gave. *)
Definition FinalizeGracefulShutdown (cfg : Config) (spillPath : string) (now : Z) (writeErr : option error) (s : Links)
    : spillOutcome * Links :=
  let pending := collectPending s in
  let s' := setLinks (map (setQueue []) (k_out s)) s in
  if bool_decide (pending = []) then
    (NothingPending (negb (bool_decide (Peers cfg = [])) && bool_decide (k_out s = [])), s')
  else if sempty spillPath then (SpillDisabled (Z.of_nat (List.length pending)), s')
  else match writeErr with
       | Some err => (SpillFailed err, s')
       | None => (SpillWritten (spillJSON (k_nodeID s) now pending), s')
       end.

(** ** Reports *)

Record peerInfo := mkPeerInfo { pi_address : string; pi_connected : bool; pi_lastHeartbeat : option Z }.

(** [PeersInfo]: a row per configured peer; the last link of an address that has a heartbeat wins. *)
Definition PeersInfo (cfg : Config) (s : Links) : list peerInfo :=
  let at_ addr := List.filter (fun p => (l_addr p =? addr)%string) (k_out s) in
  let beat addr := last (List.filter (fun ms => 0 <? ms) (map l_lastHeartbeatAck (at_ addr))) in
  map (fun addr => mkPeerInfo addr (negb (bool_decide (at_ addr = []))) (beat addr)) (Peers cfg).
