(* ===== verification/PeerLinksSpec.v ===== *)
(** * Which links a write goes out on: one per node, the cache agrees with a fresh selection, and every
    write is queued for each connected node or counted as dropped. *)

From S2P Require Import Prelude GoInt GoStr GoTime GoSort Resp Config Json GoNet ConfigValid StoreBase Repl PeerWire PeerLinks.

(** ** Preference *)

Lemma preferLink_spec a b :
  preferLink a b = true <-> (l_inbound a = false /\ l_inbound b = true) \/ (l_inbound a = l_inbound b /\ l_linkSeq a < l_linkSeq b).
Proof. unfold preferLink. destruct (l_inbound a), (l_inbound b); cbn; rewrite ?Z.ltb_lt; naive_solver. Qed.

(** [b] is at least as good as [a]. *)
Definition atLeast (a b : outPeer) : Prop := preferLink a b = false.

Lemma atLeast_refl a : atLeast a a.
Proof. unfold atLeast, preferLink. rewrite eqb_reflx. cbn. apply Z.ltb_irrefl. Qed.

Lemma atLeast_better a b c : atLeast a b -> preferLink c b = true -> atLeast a c.
Proof.
  unfold atLeast. rewrite <- !not_true_iff_false, !preferLink_spec. destruct (l_inbound a), (l_inbound b), (l_inbound c); intuition (try done; lia).
Qed.

Definition live (l : outPeer) : Prop := l_replStop l = false.

(** ** The selection *)

(** What the loop knows after the links [ls]. *)
Record picked (ls : list outPeer) (best : gmap string outPeer) (order : list string) : Prop := {
  pk_nodup : NoDup order;
  pk_keys : forall k, k ∈ order <-> is_Some (best !! k);
  pk_from : forall k l, best !! k = Some l -> l ∈ ls /\ live l /\ targetKey l = k;
  pk_all : forall l, l ∈ ls -> live l -> exists b, best !! targetKey l = Some b /\ atLeast l b;
}.

Lemma pickLink_picked ls best order l : picked ls best order ->
  let '(best', order') := pickLink (best, order) l in picked (ls ++ [l]) best' order'.
Proof.
  intros [Hn Hk Hf Ha]. unfold pickLink. destruct (l_replStop l) eqn:El.
  { constructor; [done|done| |].
    - intros k b Hb. destruct (Hf k b Hb) as (? & ? & ?). split_and!; [set_solver|done|done].
    - intros b Hb Hv. apply Ha; [|done]. apply elem_of_app in Hb as [|Hb]; [done|]. apply list_elem_of_singleton in Hb as ->.
      unfold live in Hv. congruence. }
  destruct (best !! targetKey l) as [cur|] eqn:Eb; [destruct (preferLink l cur) eqn:Ep|].
  - constructor; [done| | |].
    + intros k. rewrite Hk, lookup_insert_is_Some. destruct (decide (targetKey l = k)) as [<-|]; rewrite ?Eb; naive_solver.
    + intros k b [[<- <-]|[? Hb]]%lookup_insert_Some; [split_and!; [set_solver|done|done]|].
      destruct (Hf k b Hb) as (? & ? & ?). split_and!; [set_solver|done|done].
    + intros b Hb Hv. apply elem_of_app in Hb as [Hb|Hb].
      * destruct (Ha b Hb Hv) as (c & Hc & Hlt). destruct (decide (targetKey b = targetKey l)) as [E|E].
        -- rewrite E in *. rewrite Eb in Hc. injection Hc as <-. exists l. rewrite lookup_insert_eq. split; [done|by eapply atLeast_better].
        -- exists c. by rewrite lookup_insert_ne.
      * apply list_elem_of_singleton in Hb as ->. exists l. rewrite lookup_insert_eq. split; [done|apply atLeast_refl].
  - constructor; [done|done| |].
    + intros k b Hb. destruct (Hf k b Hb) as (? & ? & ?). split_and!; [set_solver|done|done].
    + intros b Hb Hv. apply elem_of_app in Hb as [Hb|Hb]; [by apply Ha|]. apply list_elem_of_singleton in Hb as ->. by exists cur.
  - assert (targetKey l ∉ order) as Ho by (rewrite Hk, Eb; by intros [? ?]).
    constructor.
    + apply NoDup_app. split_and!; [done|set_solver|apply NoDup_singleton].
    + intros k. rewrite elem_of_app, Hk, lookup_insert_is_Some, list_elem_of_singleton. destruct (decide (targetKey l = k)); naive_solver.
    + intros k b [[<- <-]|[? Hb]]%lookup_insert_Some; [split_and!; [set_solver|done|done]|].
      destruct (Hf k b Hb) as (? & ? & ?). split_and!; [set_solver|done|done].
    + intros b Hb Hv. apply elem_of_app in Hb as [Hb|Hb].
      * destruct (Ha b Hb Hv) as (c & Hc & Hlt). exists c. rewrite lookup_insert_ne; [done|]. intros E. rewrite E in Eb. congruence.
      * apply list_elem_of_singleton in Hb as ->. exists l. rewrite lookup_insert_eq. split; [done|apply atLeast_refl].
Qed.

Lemma picked_all out : let '(best, order) := fold_left pickLink out (∅, []) in picked out best order.
Proof.
  induction out as [|l out IH] using rev_ind.
  - cbn. constructor; [constructor|intros k|intros k l|intros l]; rewrite ?lookup_empty; try done.
    + split; [by intros ?%not_elem_of_nil|by intros [? ?]].
    + by intros ?%not_elem_of_nil.
  - rewrite fold_left_app. cbn [fold_left]. destruct (fold_left pickLink out (∅, [])) as [best order].
    exact (pickLink_picked out best order l IH).
Qed.

(** The links of a selection: live, one per node, none of them worse than another link to its node. *)
Record selection (out targets : list outPeer) : Prop := {
  se_from : Forall (fun t => t ∈ out /\ live t) targets;
  se_once : NoDup (map targetKey targets);
  se_all : forall l, l ∈ out -> live l -> exists t, t ∈ targets /\ targetKey t = targetKey l /\ atLeast l t;
}.

Lemma omap_lookup (best : gmap string outPeer) order :
  (forall k, k ∈ order -> is_Some (best !! k)) ->
  exists targets, omap (fun k => l_linkSeq <$> best !! k) order = map l_linkSeq targets /\
    Forall2 (fun k t => best !! k = Some t) order targets.
Proof.
  induction order as [|k order IH]; intros Hk; [by exists []|].
  destruct (Hk k) as [t Ht]; [set_solver|]. destruct IH as (ts & E & HF); [set_solver|].
  exists (t :: ts). cbn. rewrite Ht. cbn. split; [by f_equal|by constructor].
Qed.

Lemma compute_selection out :
  exists targets, computeReplicationTargets out = map l_linkSeq targets /\ selection out targets.
Proof.
  unfold computeReplicationTargets. pose proof (picked_all out) as H. destruct (fold_left pickLink out (∅, [])) as [best order].
  destruct H as [Hn Hk Hf Ha]. destruct (omap_lookup best order) as (ts & E & HF); [by intros k ?%Hk|].
  assert (map targetKey ts = order) as Hkeys.
  { clear E Hn Hk Ha. induction HF as [|k t order ts Ht _ IH]; [done|]. cbn. f_equal; [by destruct (Hf k t Ht) as (_ & _ & ?)|done]. }
  exists ts. split; [done|]. constructor.
  - apply Forall_forall. intros t Ht. apply list_elem_of_lookup in Ht as [i Hi]. destruct (Forall2_lookup_r _ _ _ _ _ HF Hi) as (k & _ & Hb).
    by destruct (Hf k t Hb) as (? & ? & _).
  - by rewrite Hkeys.
  - intros l Hl Hv. destruct (Ha l Hl Hv) as (b & Hb & Hlt). exists b.
    assert (targetKey l ∈ order) as Ho by (apply Hk; by eexists). apply list_elem_of_lookup in Ho as [i Hi].
    destruct (Forall2_lookup_l _ _ _ _ _ HF Hi) as (t & Ht & Hb'). rewrite Hb in Hb'. injection Hb' as <-.
    split_and!; [by eapply list_elem_of_lookup_2|by destruct (Hf _ _ Hb) as (_ & _ & ?)|done].
Qed.

(** ** What the selection depends on *)

(** A change of the queues only. *)
Definition sameLink (a b : outPeer) : Prop :=
  l_addr a = l_addr b /\ l_remoteID a = l_remoteID b /\ l_inbound a = l_inbound b /\ l_linkSeq a = l_linkSeq b /\ l_replStop a = l_replStop b.

Definition sameState (x y : gmap string outPeer * list string) : Prop :=
  snd x = snd y /\ forall k, option_Forall2 sameLink (fst x !! k) (fst y !! k).

Lemma pickLink_same x y a b : sameLink a b -> sameState x y -> sameState (pickLink x a) (pickLink y b).
Proof.
  destruct x as [bx ox], y as [by_ oy]. intros Hab [Ho Hb]. pose proof Hab as (Ha & Hr & Hi & Hs & Ht).
  cbn in Ho, Hb. subst oy. unfold pickLink.
  assert (targetKey a = targetKey b) as Hk by (unfold targetKey; by rewrite Ha, Hr). rewrite <- Hk, <- Ht.
  destruct (l_replStop a) eqn:Est; [done|]. assert (forall k, option_Forall2 sameLink (<[targetKey a := a]> bx !! k) (<[targetKey a := b]> by_ !! k)) as Hins.
  { intros k. destruct (decide (targetKey a = k)) as [<-|]; [rewrite !lookup_insert_eq; by constructor|by rewrite !lookup_insert_ne]. }
  pose proof (Hb (targetKey a)) as Hc. destruct Hc as [c d (? & ? & Hci & Hcs & ?)|]; [|by split].
  assert (preferLink a c = preferLink b d) as -> by (unfold preferLink; by rewrite Hi, Hci, Hs, Hcs). by destruct (preferLink b d); split.
Qed.

Lemma compute_same out out' : Forall2 sameLink out out' -> computeReplicationTargets out = computeReplicationTargets out'.
Proof.
  intros HF. assert (sameState (fold_left pickLink out (∅, [])) (fold_left pickLink out' (∅, []))) as H.
  { assert (sameState (∅, []) (∅, [])) as H0 by (split; [done|intros k; cbn; rewrite !lookup_empty; constructor]).
    revert H0. generalize (∅ : gmap string outPeer, @nil string) at 1 3 as x. generalize (∅ : gmap string outPeer, @nil string) as y.
    induction HF as [|a b out out' Hab HF IH]; intros y x Hxy; [done|]. cbn. by apply IH, pickLink_same. }
  unfold computeReplicationTargets. destruct (fold_left pickLink out (∅, [])) as [bx ox], (fold_left pickLink out' (∅, [])) as [by_ oy].
  destruct H as [Ho Hb]. cbn in Ho, Hb. subst oy. induction ox as [|k ox IH]; [done|]. cbn.
  pose proof (Hb k) as Hk. destruct Hk as [c d (? & ? & ? & Hs & ?)|]; cbn; [by rewrite Hs, IH|by rewrite IH].
Qed.

(** ** Reachable states *)

Definition newLinks (nodeID : string) : Links := mkLinks nodeID 0 0 0 None [] 0.

(** Links come and go, are marked stopped before they go, and carry frames; the order is any. *)
Inductive linkStep : Links -> Links -> Prop :=
  | step_register addr id inbound depth s : linkStep s (registerOut addr id inbound depth s)
  | step_unregisterOut addr s : linkStep s (unregisterOut addr s)
  | step_unregister l s : linkStep s (unregisterLink l s)
  | step_stop l s : linkStep s (stopLink l s)
  | step_replicate ts p s : linkStep s (Replicate ts p s)
  | step_send l s : linkStep s (snd (takeFrame l s)).

Inductive linkReach (nodeID : string) : Links -> Prop :=
  | reach_new : linkReach nodeID (newLinks nodeID)
  | reach_step s s' : linkReach nodeID s -> linkStep s s' -> linkReach nodeID s'.

Definition allLive (s : Links) : Prop := Forall live (k_out s).

Record linksInv (s : Links) : Prop := {
  li_distinct : NoDup (map l_linkSeq (k_out s));
  li_bound : Forall (fun l => l_linkSeq l <= k_linkSeq s) (k_out s);
  li_cache : forall g ids, k_targetsCache s = Some (g, ids) ->
    g <= k_targetsGen s /\ (g = k_targetsGen s -> allLive s -> ids = computeReplicationTargets (k_out s));
}.

Lemma sublist_relink s out : linksInv s -> sublist out (k_out s) -> linksInv (relink out s).
Proof.
  intros [Hd Hb Hc] Hs. constructor; cbn.
  - eapply sublist_NoDup; [exact Hd|]. by apply (fmap_sublist l_linkSeq).
  - eapply Forall_sublist; [exact Hs|exact Hb].
  - intros g ids E. destruct (Hc g ids E) as [? _]. split; [lia|]. intros ?; lia.
Qed.

Lemma same_seqs out out' : Forall2 sameLink out out' -> map l_linkSeq out' = map l_linkSeq out.
Proof. induction 1 as [|a b ? ? Hab _ IH]; [done|]. cbn. rewrite IH. by destruct Hab as (_ & _ & _ & -> & _). Qed.

Lemma same_live out out' : Forall2 sameLink out out' -> Forall live out' -> Forall live out.
Proof. unfold live. induction 1 as [|a b ? ? Hab _ IH]; [done|]. destruct Hab as (_ & _ & _ & _ & E). rewrite !Forall_cons. naive_solver congruence. Qed.

(** Changing queues keeps the invariant. *)
Lemma same_inv s s' : linksInv s -> Forall2 sameLink (k_out s) (k_out s') ->
  k_linkSeq s' = k_linkSeq s -> k_targetsGen s' = k_targetsGen s -> k_targetsCache s' = k_targetsCache s -> linksInv s'.
Proof.
  intros [Hd Hb Hc] HF E1 E2 E3. pose proof (same_seqs _ _ HF) as Hm. constructor.
  - by rewrite Hm.
  - rewrite E1. apply (Forall_map l_linkSeq (fun n => n <= k_linkSeq s)) in Hb. apply (Forall_map l_linkSeq (fun n => n <= k_linkSeq s)).
    unfold fmap in *. change (list_fmap outPeer Z l_linkSeq) with (map l_linkSeq) in *. by rewrite Hm.
  - rewrite E2, E3. intros g ids E. destruct (Hc g ids E) as [Hle Heq]. split; [done|]. intros Hg Hl.
    rewrite Heq; [by apply compute_same|done|]. by eapply same_live.
Qed.

Lemma map_same (f : outPeer -> outPeer) out : (forall l, sameLink l (f l)) -> Forall2 sameLink out (map f out).
Proof. intros. induction out; cbn; by constructor. Qed.

Lemma setQueue_same q l : sameLink l (setQueue q l).
Proof. done. Qed.

Lemma stop_inv l s : linksInv s -> linksInv (stopLink l s).
Proof.
  intros [Hd Hb Hc]. unfold stopLink. set (f := fun p => if l_linkSeq p =? l then _ else p).
  assert (forall p, l_linkSeq (f p) = l_linkSeq p) as Hf by (intros p; unfold f; by destruct (_ =? _)).
  constructor; cbn.
  - rewrite map_map. by rewrite (map_ext _ l_linkSeq).
  - apply Forall_map. eapply Forall_impl; [exact Hb|]. intros p. cbn. by rewrite Hf.
  - intros g ids E. destruct (Hc g ids E) as [Hle Heq]. split; [done|]. intros Hg Hl. unfold allLive in Hl. cbn in Hl.
    assert (map f (k_out s) = k_out s) as Hm.
    { clear -Hl. induction (k_out s) as [|p out IH]; [done|]. cbn in *. apply Forall_cons in Hl as [Hp Hl]. rewrite IH by done. f_equal.
      unfold f in *. destruct (l_linkSeq p =? l); [by unfold live in Hp|done]. }
    rewrite Hm in *. by apply Heq.
Qed.

Lemma register_inv addr id inbound depth s : linksInv s -> linksInv (registerOut addr id inbound depth s).
Proof.
  intros [Hd Hb Hc]. constructor; cbn.
  - rewrite map_app. cbn. apply NoDup_app. split_and!; [done| |apply NoDup_singleton].
    intros n Hn Hs. apply list_elem_of_singleton in Hs as ->. apply list_elem_of_fmap in Hn as (p & Hp & Hin).
    rewrite Forall_forall in Hb. specialize (Hb p Hin). lia.
  - apply Forall_app. split; [|constructor; [cbn; lia|constructor]]. eapply Forall_impl; [exact Hb|]. cbn. lia.
  - intros g ids E. destruct (Hc g ids E) as [? _]. split; [lia|]. intros ?; lia.
Qed.

Lemma replicationTargets_inv s : linksInv s -> linksInv (snd (replicationTargets s)).
Proof.
  intros Hi. pose proof Hi as [Hd Hb Hc]. unfold replicationTargets.
  assert (linksInv (mkLinks (k_nodeID s) (k_replSeq s) (k_linkSeq s) (k_targetsGen s)
    (Some (k_targetsGen s, computeReplicationTargets (k_out s))) (k_out s) (k_dropped s))) as Hf.
  { constructor; cbn; [done|done|]. intros g ids [= <- <-]. split; [lia|done]. }
  destruct (k_targetsCache s) as [[g ids]|]; [|done]. by destruct (g =? k_targetsGen s).
Qed.

Lemma enqueue_same f i s : Forall2 sameLink (k_out s) (k_out (enqueue f i s)).
Proof. cbn. apply map_same. intros l. by destruct (_ && _). Qed.

Lemma enqueueAll_inv f ids s : linksInv s -> linksInv (fold_left (fun s i => enqueue f i s) ids s).
Proof.
  revert s. induction ids as [|i ids IH]; intros s Hi; [done|]. cbn [fold_left]. apply IH.
  apply (same_inv s); [done|apply enqueue_same|done|done|done].
Qed.

Lemma step_inv s s' : linkStep s s' -> linksInv s -> linksInv s'.
Proof.
  intros Hs Hi. destruct Hs.
  - by apply register_inv.
  - by apply sublist_relink, filter_sublist.
  - by apply sublist_relink, filter_sublist.
  - by apply stop_inv.
  - unfold Replicate. cbn. match goal with |- context [replicationTargets ?x] => assert (linksInv x) as Hx end.
    { apply (same_inv s); [done| |done|done|done]. cbn. clear. induction (k_out s); by constructor. }
    apply replicationTargets_inv in Hx. destruct (replicationTargets _) as [ids s2]. by apply enqueueAll_inv.
  - unfold takeFrame. destruct (List.find _ _) as [p|]; [|done]. destruct (l_replCh p) as [|f q]; [done|].
    apply (same_inv s); [done| |done|done|done]. cbn. apply map_same. intros x. by destruct (_ =? _).
Qed.

Lemma reach_inv nodeID s : linkReach nodeID s -> linksInv s.
Proof.
  induction 1 as [|s s' _ IH Hs]; [|by eapply step_inv]. constructor; cbn; [constructor|constructor|done].
Qed.

(** C40: The cached selection of links agrees with a fresh one while no link is being torn down: in every
    reachable state in which no registered link has been stopped, what [replicationTargets] answers, from
    its cache or not, is what selecting afresh would give.  Between the stop of a link and its removal the
    cache can still name it ([stopped_link_takes_the_write]). *)
Theorem cached_targets_agree nodeID s : linkReach nodeID s -> allLive s ->
  fst (replicationTargets s) = computeReplicationTargets (k_out s).
Proof.
  intros [Hd Hb Hc]%reach_inv Hl. unfold replicationTargets. destruct (k_targetsCache s) as [[g ids]|]; [|done].
  destruct (g =? k_targetsGen s) eqn:E; [|done]. zify_bool. by apply (Hc g ids eq_refl).
Qed.

(** ** Delivery *)

(** The frame goes into the queue of a chosen link that has room. *)
Definition deliver (f : replFrame) (ids : list Z) (l : outPeer) : outPeer :=
  if bool_decide (l_linkSeq l ∈ ids) && negb (full l) then setQueue (l_replCh l ++ [f]) l else l.

Definition refused (ids : list Z) (l : outPeer) : bool := bool_decide (l_linkSeq l ∈ ids) && full l.

Lemma deliver_skip f i ids l : i ∉ ids ->
  deliver f ids (if (l_linkSeq l =? i) && negb (full l) then setQueue (l_replCh l ++ [f]) l else l) = deliver f (i :: ids) l.
Proof.
  intros Hi. unfold deliver. destruct (l_linkSeq l =? i) eqn:E; zify_bool.
  - subst i. rewrite (bool_decide_true (l_linkSeq l ∈ l_linkSeq l :: ids)) by set_solver. cbn [andb].
    destruct (negb (full l)); cbn [l_linkSeq setQueue]; by rewrite (bool_decide_false (l_linkSeq l ∈ ids)).
  - cbn [andb]. by rewrite (bool_decide_ext (l_linkSeq l ∈ i :: ids) (l_linkSeq l ∈ ids)) by set_solver.
Qed.

Lemma refused_skip f i ids out : i ∉ ids ->
  Z.of_nat (List.length (List.filter (fun p => (l_linkSeq p =? i) && full p) out)) +
  Z.of_nat (List.length (List.filter (refused ids) (map (fun p => if (l_linkSeq p =? i) && negb (full p) then setQueue (l_replCh p ++ [f]) p else p) out))) =
  Z.of_nat (List.length (List.filter (refused (i :: ids)) out)).
Proof.
  intros Hi. induction out as [|p out IH]; [done|]. cbn [map List.filter].
  assert (refused (i :: ids) p = if l_linkSeq p =? i then full p else refused ids p) as ->.
  { unfold refused. destruct (l_linkSeq p =? i) eqn:E; zify_bool; [by rewrite bool_decide_true by set_solver|].
    by rewrite (bool_decide_ext (l_linkSeq p ∈ i :: ids) (l_linkSeq p ∈ ids)) by set_solver. }
  destruct (l_linkSeq p =? i) eqn:E; zify_bool; cbn [andb].
  - assert (forall q, refused ids (setQueue q p) = false /\ refused ids p = false) as Hf.
    { intros q. unfold refused. cbn [l_linkSeq setQueue]. by rewrite (bool_decide_false (l_linkSeq p ∈ ids)) by congruence. }
    destruct (full p); cbn [negb]; rewrite ?(proj1 (Hf _)), ?(proj2 (Hf [])); cbn [List.length]; lia.
  - destruct (refused ids p); cbn [List.length]; lia.
Qed.

Lemma enqueueAll f ids s : NoDup ids ->
  let s' := fold_left (fun s i => enqueue f i s) ids s in
  k_out s' = map (deliver f ids) (k_out s) /\
  k_dropped s' = k_dropped s + Z.of_nat (List.length (List.filter (refused ids) (k_out s))) /\
  k_replSeq s' = k_replSeq s.
Proof.
  revert s. induction ids as [|i ids IH]; intros s Hn; cbn [fold_left].
  - cbn. assert (forall l, deliver f [] l = l) as Hd by done. assert (forall l, refused [] l = false) as Hr by done. split_and!; [|clear -Hr|done].
    + by rewrite (map_ext _ id), map_id.
    + induction (k_out s) as [|l out IHo]; cbn; [lia|]. rewrite Hr. done.
  - apply NoDup_cons in Hn as [Hi Hn]. destruct (IH (enqueue f i s) Hn) as (Ho & Hd & Hs). cbv zeta. rewrite Ho, Hd, Hs. cbn [enqueue k_out k_dropped k_replSeq].
    split_and!; [|by rewrite <- (refused_skip f i ids) by done; lia|done].
    rewrite map_map. apply map_ext. intros l. by apply deliver_skip.
Qed.

Lemma selection_nodup out targets : NoDup (map l_linkSeq out) -> selection out targets -> NoDup (map l_linkSeq targets).
Proof.
  intros Hn [Hf Ho _]. assert (NoDup targets) as Ht by (eapply (NoDup_fmap_1 targetKey); exact Ho). clear Ho.
  induction targets as [|t ts IH]; [constructor|]. apply Forall_cons in Hf as [[Hin _] Hf]. apply NoDup_cons in Ht as [Ht Hts].
  cbn. constructor; [|by apply IH]. intros (t' & Heq & Ht')%list_elem_of_fmap. destruct Ht.
  rewrite Forall_forall in Hf. destruct (Hf t' Ht') as [Hin' _].
  apply list_elem_of_lookup in Hin as [i Hi], Hin' as [j Hj].
  assert (i = j) as <-; [|by rewrite Hi in Hj; injection Hj as ->].
  eapply NoDup_lookup; [exact Hn|by rewrite list_lookup_fmap, Hi|rewrite list_lookup_fmap, Hj; cbn; by f_equal].
Qed.

(** C28: A write is sent to each connected node once, while no link is being torn down.  From any reachable
    state in which no registered link has been stopped, [Replicate] puts one frame, with the next sequence number, into the queue of one live
    link per node, the preferred one, counts it as dropped where that queue is full, and touches no
    other queue. *)
Theorem replicate_once nodeID s ts p : linkReach nodeID s -> allLive s ->
  let s' := Replicate ts p s in
  let seq := (k_replSeq s + 1) mod 2 ^ 64 in
  let f := mkFrame (wireOf (k_nodeID s) seq p) ts in
  exists targets, selection (k_out s) targets /\
    k_out s' = map (deliver f (map l_linkSeq targets)) (k_out s) /\
    k_dropped s' = k_dropped s + Z.of_nat (List.length (List.filter (refused (map l_linkSeq targets)) (k_out s))) /\
    k_replSeq s' = seq.
Proof.
  intros Hr Hl s' seq f. destruct (compute_selection (k_out s)) as (targets & Hc & Hsel). exists targets. split; [done|].
  destruct (reach_inv _ _ Hr) as [Hd _ Hca]. subst s'. unfold Replicate. cbn [buildWireRepl]. fold seq f.
  set (s1 := mkLinks _ seq _ _ _ _ _).
  assert (replicationTargets s1 = (map l_linkSeq targets, snd (replicationTargets s1)) /\
          k_out (snd (replicationTargets s1)) = k_out s /\ k_dropped (snd (replicationTargets s1)) = k_dropped s /\
          k_replSeq (snd (replicationTargets s1)) = seq) as (Ht & Ho & Hdr & Hs).
  { rewrite <- Hc. unfold replicationTargets, s1. cbn [k_targetsCache k_targetsGen k_out].
    destruct (k_targetsCache s) as [[g ids]|]; [|done]. destruct (g =? k_targetsGen s) eqn:E; [|done]. zify_bool.
    by rewrite <- (proj2 (Hca g ids eq_refl)). }
  rewrite Ht. destruct (enqueueAll f (map l_linkSeq targets) (snd (replicationTargets s1)) (selection_nodup _ _ Hd Hsel)) as (E1 & E2 & E3).
  cbv zeta in E1, E2, E3. by rewrite E1, E2, E3, Ho, Hdr, Hs.
Qed.

(** ** Witnesses *)

(** Two links to one node, accepted and dialled, and one to another. *)
Definition demoLinks : Links :=
  registerOut "10.0.0.3:7379" "n3" true 1
    (registerOut "10.0.0.2:7379" "n2" false 8 (registerOut "10.0.0.2:7379" "n2" true 8 (newLinks "n1"))).

Lemma demoLinks_reach : linkReach "n1" demoLinks.
Proof. do 3 (eapply reach_step; [|constructor]). constructor. Qed.

Lemma demoLinks_live : allLive demoLinks.
Proof. repeat constructor. Qed.

(** Stopping a link opens no new generation: after one write has filled the cache, the next one still goes to the link
    that was stopped in between, and is gone with it; the other link to the same node carries nothing, and nothing is
    counted as dropped. *)
Lemma stopped_link_takes_the_write :
  let s0 := registerOut "10.0.0.2:7379" "n2" false 8 (registerOut "10.0.0.2:7379" "n2" true 8 (newLinks "n1")) in
  let s := stopLink 2 (Replicate 0 (pKey "DEL" "a") s0) in
  let s' := unregisterLink 2 (Replicate 1 (pKey "DEL" "b") s) in
  fst (replicationTargets s) = [2] /\ computeReplicationTargets (k_out s) = [1] /\
  map (fun l => (l_linkSeq l, l_replCh l)) (k_out s') = [(1, [])] /\ k_dropped s' = 0.
Proof. vm_compute. done. Qed.

Lemma cached_targets_agree_witness : fst (replicationTargets (snd (replicationTargets demoLinks))) = [2; 3].
Proof.
  assert (linkReach "n1" (Replicate 0 (pKey "DEL" "k") demoLinks)) as Hr by (eapply reach_step; [apply demoLinks_reach|constructor]).
  change [2; 3] with (computeReplicationTargets (k_out (Replicate 0 (pKey "DEL" "k") demoLinks))).
  exact (cached_targets_agree "n1" (Replicate 0 (pKey "DEL" "k") demoLinks) Hr ltac:(repeat constructor)).
Defined.

Lemma replicate_once_witness :
  exists targets, selection (k_out demoLinks) targets /\
    k_out (Replicate 5 (pKey "DEL" "k") demoLinks) =
      map (deliver (mkFrame (wireOf "n1" 1 (pKey "DEL" "k")) 5) (map l_linkSeq targets)) (k_out demoLinks) /\
    k_dropped (Replicate 5 (pKey "DEL" "k") demoLinks) =
      0 + Z.of_nat (List.length (List.filter (refused (map l_linkSeq targets)) (k_out demoLinks))) /\
    k_replSeq (Replicate 5 (pKey "DEL" "k") demoLinks) = 1.
Proof. exact (replicate_once "n1" demoLinks 5 (pKey "DEL" "k") demoLinks_reach demoLinks_live). Defined.
