(* ===== verification/PeerGap.v ===== *)
(** * Package [peer], part 4: noticing replication events that never arrive
    (internal/peer/resync.go and [noteReplArrival] of service.go).

    [g_resyncs] are the requests made of the [ResyncRequester], newest first; the metrics are the
    server's, so never nil. *)

From S2P Require Import Prelude GoInt GoStr GoTime GoSort Resp Config Json StoreBase Repl PeerWire.

Definition gapGrace : Z := 5 * Second.
Definition gapTrackLimit : Z := 256.

(** The part of [Service] that follows the peers' sequence numbers. *)
Record Gaps := mkGaps {
  g_nodeID : string; g_requester : bool; g_originSeq : gmap string Z; g_missing : gmap string (gmap Z Z);
  g_gap : Z; g_lost : Z; g_late : Z; g_resyncs : list string }.

Definition addU64 (a b : Z) : Z := (a + b) mod 2 ^ 64.

(** ** [gapTracker] *)

Notation Missing := (gmap string (gmap Z Z)).

(** The sequence numbers from [from] up to but not including [got]. *)
Fixpoint noteLoop (n : nat) (from deadline : Z) (m : gmap Z Z) : gmap Z Z :=
  match n with
  | O => m
  | S n => noteLoop n (addU64 from 1) deadline (<[from := deadline]> m)
  end.

Definition note (now : Time) (origin : string) (prev got : Z) (g : Missing) : bool * Missing :=
  if got <=? addU64 prev 1 then (false, g)
  else if addU64 got (- prev - 1) >? gapTrackLimit then (true, g)
  else
    let deadline := ToUnixMilli (Add now gapGrace) in
    let m := default ∅ (g !! origin) in
    (false, <[origin := noteLoop (Z.to_nat (got - addU64 prev 1)) (addU64 prev 1) deadline m]> g).

(** An origin with nothing missing has no entry. *)
Definition keep (origin : string) (m : gmap Z Z) (g : Missing) : Missing :=
  if bool_decide (m = ∅) then delete origin g else <[origin := m]> g.

Definition arrived (origin : string) (seq : Z) (g : Missing) : Missing :=
  match g !! origin with Some m => keep origin (delete seq m) g | None => g end.

Definition expiredIn (cutoff : Z) (m : gmap Z Z) : gmap Z Z := filter (fun kv => snd kv <= cutoff) m.
Definition pendingIn (cutoff : Z) (m : gmap Z Z) : gmap Z Z := filter (fun kv => ~ snd kv <= cutoff) m.

(** How many never arrived per origin, and the tracker without them. *)
Definition expired (now : Time) (g : Missing) : gmap string Z * Missing :=
  let cutoff := ToUnixMilli now in
  (omap (fun m => let n := Z.of_nat (size (expiredIn cutoff m)) in if n =? 0 then None else Some n) g,
   omap (fun m => let m' := pendingIn cutoff m in if bool_decide (m' = ∅) then None else Some m') g).

(** ** The service *)

Definition withSeq (origin : string) (seq : Z) (s : Gaps) : Gaps :=
  mkGaps (g_nodeID s) (g_requester s) (<[origin := seq]> (g_originSeq s)) (g_missing s) (g_gap s) (g_lost s) (g_late s) (g_resyncs s).
Definition withMissing (m : Missing) (s : Gaps) : Gaps :=
  mkGaps (g_nodeID s) (g_requester s) (g_originSeq s) m (g_gap s) (g_lost s) (g_late s) (g_resyncs s).
(** [AddReplicationGap] counts gaps, not the events missing in them. *)
Definition addGap (s : Gaps) : Gaps :=
  mkGaps (g_nodeID s) (g_requester s) (g_originSeq s) (g_missing s) (g_gap s + 1) (g_lost s) (g_late s) (g_resyncs s).
Definition addLate (s : Gaps) : Gaps :=
  mkGaps (g_nodeID s) (g_requester s) (g_originSeq s) (g_missing s) (g_gap s) (g_lost s) (g_late s + 1) (g_resyncs s).

(** Loss is counted and a resync asked for, when there is someone to ask. *)
Definition reportLoss (n : Z) (reason : string) (s : Gaps) : Gaps :=
  mkGaps (g_nodeID s) (g_requester s) (g_originSeq s) (g_missing s) (g_gap s) (g_lost s + n) (g_late s)
    (if g_requester s then reason :: g_resyncs s else g_resyncs s).

Definition confirmLoss (missed : Z) (s : Gaps) : Gaps := reportLoss (wrap64 missed) "large replication gap" s.

(** [noteReplArrival] once it has loaded the position [prev]: the [switch]. *)
Definition noteFrom (now : Time) (origin : string) (seq prev : Z) (s : Gaps) : Gaps :=
  if seq =? addU64 prev 1 then withSeq origin seq s
  else if seq >? addU64 prev 1 then
    let missed := addU64 seq (- prev - 1) in
    let s := addGap (withSeq origin seq s) in
    match note now origin prev seq (g_missing s) with
    | (true, g) => confirmLoss missed (withMissing g s)
    | (false, g) => withMissing g s
    end
  else if seq =? 1 then withSeq origin seq s
  else addLate (withMissing (arrived origin seq (g_missing s)) s).

(** One goroutine reads a connection and calls this for each event; here the call is one step.  The code loads the
    position, compares and stores without a lock, which is as good as one step while a single connection delivers
    the events of an origin; two of them can interleave ([racing_arrivals_report_loss]). *)
Definition noteReplArrival (now : Time) (wr : wireRepl) (s : Gaps) : Gaps :=
  let origin := TrimSpace (r_Origin wr) in
  let seq := r_Seq wr in
  if sempty origin || (seq =? 0) || (origin =? g_nodeID s)%string then s
  else match g_originSeq s !! origin with
       | None => withSeq origin seq s
       | Some prev => noteFrom now origin seq prev s
       end.

(** One tick of [watchGaps]. *)
Definition sweepGaps (now : Time) (s : Gaps) : Gaps :=
  let '(lost, g) := expired now (g_missing s) in
  let s := withMissing g s in
  if bool_decide (lost = ∅) then s
  else reportLoss (map_fold (fun _ n acc => acc + n) 0 lost) "confirmed replication loss" s.

Definition ResetReplicationTracking (s : Gaps) : Gaps :=
  mkGaps (g_nodeID s) (g_requester s) ∅ ∅ (g_gap s) (g_lost s) (g_late s) (g_resyncs s).

Definition SetResyncRequester (on : bool) (s : Gaps) : Gaps :=
  mkGaps (g_nodeID s) on (g_originSeq s) (g_missing s) (g_gap s) (g_lost s) (g_late s) (g_resyncs s).
