(* ===== verification/PeerGapSpec.v ===== *)
(** * Loss detection: what is lost is reported, reordering alone is not. *)

From S2P Require Import Prelude GoInt GoStr GoTime GoSort Resp Config Json StoreBase Repl PeerWire PeerGap.

(** ** Runs *)

Inductive gapEvent :=
  | Arrive (t : Time) (w : wireRepl)
  | Sweep (t : Time).

Definition gapStep (s : Gaps) (e : gapEvent) : Gaps :=
  match e with
  | Arrive t w => noteReplArrival t w s
  | Sweep t => sweepGaps t s
  end.

Definition gapRun (es : list gapEvent) (s : Gaps) : Gaps := fold_left gapStep es s.

Definition originOf (w : wireRepl) : string := TrimSpace (r_Origin w).

(** ** The tracker *)

Lemma addU64_small a b : 0 <= a + b < 2 ^ 64 -> addU64 a b = a + b.
Proof. intros. unfold addU64. by rewrite Z.mod_small. Qed.

Lemma noteLoop_lookup n from d m s : 0 <= from -> from + Z.of_nat n <= 2 ^ 64 ->
  noteLoop n from d m !! s = if bool_decide (from <= s < from + Z.of_nat n) then Some d else m !! s.
Proof.
  revert from m. induction n as [|n IH]; intros from m H0 Hn; cbn [noteLoop].
  { rewrite bool_decide_false by lia. done. }
  destruct (decide (n = 0%nat)) as [->|Hne].
  { cbn [noteLoop]. destruct (decide (s = from)) as [->|]; [rewrite lookup_insert_eq, bool_decide_true by lia; done|].
    rewrite lookup_insert_ne, bool_decide_false by lia. done. }
  rewrite addU64_small by lia. rewrite IH by lia. destruct (decide (s = from)) as [->|].
  - rewrite lookup_insert_eq, (bool_decide_true (from <= from < from + _)), bool_decide_false by lia. done.
  - rewrite lookup_insert_ne by done. by rewrite (bool_decide_ext (from + 1 <= s < from + 1 + Z.of_nat n) (from <= s < from + Z.of_nat (S n))) by lia.
Qed.

Definition missingAt (g : Missing) (o : string) (s : Z) : option Z := g !! o ≫= (.!! s).

Lemma keep_at o m g o' s : missingAt (keep o m g) o' s = if bool_decide (o' = o) then m !! s else missingAt g o' s.
Proof.
  unfold missingAt, keep. case_bool_decide as Em; case_bool_decide as Eo; subst.
  - by rewrite lookup_delete_eq.
  - by rewrite lookup_delete_ne.
  - by rewrite lookup_insert_eq.
  - by rewrite lookup_insert_ne.
Qed.

Lemma arrived_at o seq g o' s :
  missingAt (arrived o seq g) o' s = if bool_decide (o' = o /\ s = seq) then None else missingAt g o' s.
Proof.
  unfold arrived. destruct (g !! o) as [m|] eqn:E.
  - rewrite keep_at. destruct (decide (o' = o)) as [->|Ho].
    + rewrite bool_decide_true by done. unfold missingAt. rewrite E. cbn. destruct (decide (s = seq)) as [->|Hs].
      * by rewrite lookup_delete_eq, bool_decide_true.
      * by rewrite lookup_delete_ne, bool_decide_false by naive_solver.
    + by rewrite !bool_decide_false by naive_solver.
  - case_bool_decide as H; [|done]. destruct H as [-> ->]. unfold missingAt. by rewrite E.
Qed.

(** A gap of at most [gapTrackLimit] is noted, a larger one is loss. *)
Lemma note_at now o prev got g : 0 <= prev -> prev + 1 < got -> got < 2 ^ 64 ->
  (gapTrackLimit < got - prev - 1 /\ note now o prev got g = (true, g)) \/
  (got - prev - 1 <= gapTrackLimit /\ exists g', note now o prev got g = (false, g') /\ forall o' s,
     missingAt g' o' s = if bool_decide (o' = o /\ prev < s < got) then Some (ToUnixMilli (Add now gapGrace)) else missingAt g o' s).
Proof.
  intros H0 H1 H2. unfold note. rewrite (addU64_small prev 1) by lia. replace (got <=? prev + 1) with false by (symmetry; apply Z.leb_gt; lia).
  rewrite addU64_small by lia. destruct (got + (- prev - 1) >? gapTrackLimit) eqn:E; zify_bool.
  - left. split; [lia|done].
  - right. split; [lia|]. eexists. split; [reflexivity|]. intros o' s. unfold missingAt.
    destruct (decide (o' = o)) as [->|Ho]; [|rewrite lookup_insert_ne, bool_decide_false by naive_solver; done].
    rewrite lookup_insert_eq. cbn. rewrite noteLoop_lookup by lia.
    rewrite (bool_decide_ext (prev + 1 <= s < prev + 1 + Z.of_nat (Z.to_nat (got - (prev + 1)))) (o = o /\ prev < s < got)) by (split; [intros; split; [done|lia]|lia]).
    case_bool_decide; [done|]. by destruct (g !! o).
Qed.

Lemma expired_at now g o s : missingAt (snd (expired now g)) o s =
  match missingAt g o s with Some d => if d <=? ToUnixMilli now then None else Some d | None => None end.
Proof.
  unfold missingAt, expired. cbn. rewrite lookup_omap. destruct (g !! o) as [m|]; [|done]. cbn.
  set (m' := pendingIn (ToUnixMilli now) m).
  assert (m' !! s = match m !! s with Some d => if d <=? ToUnixMilli now then None else Some d | None => None end) as Hm.
  { unfold m', pendingIn. rewrite map_lookup_filter. destruct (m !! s) as [d|]; [|done]. cbn.
    destruct (d <=? ToUnixMilli now) eqn:E; zify_bool; case_guard; try done; cbn in *; lia. }
  case_bool_decide as Em; [rewrite <- Hm, Em; by rewrite lookup_empty|]. cbn. done.
Qed.


(** ** What a sweep counts *)







(** Loss of [n] events is counted and, where someone can be asked, one resync asked for. *)
Definition countsLoss (n : Z) (why : string) (s s' : Gaps) : Prop :=
  g_lost s' = g_lost s + n /\ g_resyncs s' = if g_requester s then why :: g_resyncs s else g_resyncs s.

Definition unreported (s s' : Gaps) : Prop := g_lost s' = g_lost s /\ g_resyncs s' = g_resyncs s.

Lemma sweep_keeps t s : g_missing (sweepGaps t s) = snd (expired t (g_missing s)) /\ g_originSeq (sweepGaps t s) = g_originSeq s /\
  g_nodeID (sweepGaps t s) = g_nodeID s.
Proof. unfold sweepGaps. destruct (expired t (g_missing s)) as [lost g]. by case_bool_decide. Qed.


Lemma sweep_silent t s : (forall o x d, missingAt (g_missing s) o x = Some d -> ToUnixMilli t < d) -> unreported s (sweepGaps t s).
Proof.
  intros Hs. unfold sweepGaps. destruct (expired t (g_missing s)) as [lost g] eqn:E.
  assert (lost = ∅) as ->; [|by rewrite bool_decide_true]. apply map_eq. intros o. rewrite lookup_empty.
  apply (f_equal fst) in E. cbn [fst expired] in E. subst lost. rewrite lookup_omap. destruct (g_missing s !! o) as [m|] eqn:Em; [|done]. cbn.
  assert (expiredIn (ToUnixMilli t) m = ∅) as ->; [|done]. apply map_eq. intros x. rewrite lookup_empty.
  destruct (expiredIn _ m !! x) as [d|] eqn:Ed; [|done]. apply map_lookup_filter_Some in Ed as [Ed Hd]. cbn in Hd.
  specialize (Hs o x d). unfold missingAt in Hs. rewrite Em in Hs. specialize (Hs Ed). lia.
Qed.

(** ** One arrival *)

Definition valid (w : wireRepl) : Prop := 0 < r_Seq w < MaxUint64.

(** The cases of [noteReplArrival]. *)
Lemma arrival_other t w s o : originOf w <> o ->
  g_originSeq (noteReplArrival t w s) !! o = g_originSeq s !! o /\
  (forall seq, missingAt (g_missing (noteReplArrival t w s)) o seq = missingAt (g_missing s) o seq).
Proof.
  intros Ho. unfold noteReplArrival, noteFrom. fold (originOf w). destruct (_ || _); [done|].
  assert (forall seq s, g_originSeq (withSeq (originOf w) seq s) !! o = g_originSeq s !! o) as Hs by (intros; cbn; by rewrite lookup_insert_ne).
  destruct (g_originSeq s !! originOf w) as [prev|]; [|by rewrite Hs]. destruct (_ =? _); [by rewrite Hs|].
  destruct (_ >? _).
  - unfold note. cbn [g_missing addGap withSeq]. destruct (_ <=? _); [by cbn; rewrite lookup_insert_ne|]. destruct (_ >? _); cbn; rewrite lookup_insert_ne by done; (split; [done|]); [done|].
    intros seq. unfold missingAt. by rewrite lookup_insert_ne.
  - destruct (_ =? 1); [by rewrite Hs|]. split; [done|]. intros seq. cbn [g_missing addLate withMissing]. rewrite arrived_at.
    by rewrite bool_decide_false by naive_solver.
Qed.

(** The counters are int64: a number above has no true count. *)
Definition countable (w : wireRepl) : Prop := 0 <= r_Seq w <= MaxInt64.

Lemma missed_counted seq prev : 0 <= seq <= MaxInt64 -> seq > addU64 prev 1 ->
  wrap64 (addU64 seq (- prev - 1)) = addU64 seq (- prev - 1) /\ 0 <= addU64 seq (- prev - 1).
Proof.
  unfold MaxInt64, addU64. intros Hs Hp. replace (seq + (- prev - 1)) with (seq - (prev + 1)) by lia.
  pose proof (Z.mod_pos_bound (prev + 1) (2 ^ 64) ltac:(lia)).
  rewrite <- Zminus_mod_idemp_r, (Z.mod_small (seq - _)) by lia. split; [|lia]. apply wrap64_id. unfold is_int64, MinInt64, MaxInt64.
  apply andb_true_iff. rewrite !Z.leb_le. lia.
Qed.

Lemma arrival_node t w s : g_nodeID (noteReplArrival t w s) = g_nodeID s.
Proof.
  unfold noteReplArrival, noteFrom. destruct (_ || _); [done|]. destruct (g_originSeq s !! _) as [prev|]; [|done].
  destruct (_ =? _); [done|]. destruct (_ >? _); [|by destruct (_ =? 1)]. by destruct (note _ _ _ _ _) as [[] g].
Qed.

Lemma arrival_own t w s last : let o := originOf w in let seq := r_Seq w in let s' := noteReplArrival t w s in
  o <> EmptyString -> o <> g_nodeID s -> valid w -> seq <> 1 -> g_originSeq s !! o = Some last -> 0 < last < MaxUint64 ->
  (seq = last + 1 /\ g_originSeq s' !! o = Some seq /\ unreported s s' /\ g_missing s' = g_missing s) \/
  (last + 1 < seq /\ g_originSeq s' !! o = Some seq /\ gapTrackLimit < seq - last - 1 /\ (countable w -> countsLoss (seq - last - 1) "large replication gap" s s') /\ g_missing s' = g_missing s) \/
  (last + 1 < seq /\ g_originSeq s' !! o = Some seq /\ seq - last - 1 <= gapTrackLimit /\ unreported s s' /\ forall o' x,
     missingAt (g_missing s') o' x = if bool_decide (o' = o /\ last < x < seq) then Some (ToUnixMilli (Add t gapGrace)) else missingAt (g_missing s) o' x) \/
  (seq <= last /\ g_originSeq s' !! o = Some last /\ unreported s s' /\ forall o' x,
     missingAt (g_missing s') o' x = if bool_decide (o' = o /\ x = seq) then None else missingAt (g_missing s) o' x).
Proof.
  intros o seq s' He Hnode Hv H1 Hlast Hb. unfold valid, MaxUint64 in *. subst s'. unfold noteReplArrival, noteFrom. fold (originOf w) o. fold seq in Hv |- *.
  assert (sempty o || (seq =? 0) || (o =? g_nodeID s)%string = false) as ->.
  { apply orb_false_iff; split; [apply orb_false_iff; split; [by destruct o|apply Z.eqb_neq; lia]|by apply String.eqb_neq]. }
  rewrite Hlast, addU64_small by lia. destruct (seq =? last + 1) eqn:E1; zify_bool.
  { left. split_and!; [done|cbn; by rewrite lookup_insert_eq|done|done]. }
  destruct (seq >? last + 1) eqn:E2; zify_bool.
  - right. destruct (note_at t o last seq (g_missing s)) as [[Hbig Hn]|(Hsmall & g' & Hn & Hg)]; [lia|lia|lia|left|right; left];
      cbn [g_missing addGap withSeq]; rewrite Hn; cbn [g_originSeq confirmLoss reportLoss withMissing addGap withSeq g_missing]; rewrite lookup_insert_eq.
    + split_and!; [lia|done|lia| |done]. intros Hc. destruct (missed_counted seq last Hc) as [Hw _]; [rewrite addU64_small by lia; lia|].
      split; [|done]. cbn [g_lost confirmLoss reportLoss withMissing addGap withSeq]. rewrite Hw, addU64_small by lia. lia.
    + split_and!; [lia|done|lia|done|exact Hg].
  - right; right; right. destruct (seq =? 1) eqn:E3; zify_bool; [done|]. split_and!; [lia|done|done|]. intros o' x. apply arrived_at.
Qed.

(** ** What is lost is reported *)




Lemma gapRun_snoc es e s : gapRun (es ++ [e]) s = gapStep (gapRun es s) e.
Proof. unfold gapRun. by rewrite fold_left_app. Qed.

Definition arrivalsOf (o : string) (es : list gapEvent) (x : Z) : Prop :=
  exists t w, Arrive t w ∈ es /\ originOf w = o /\ r_Seq w = x.

(** Number [x] was skipped by an event that came at [t]. *)
Definition skippedAt (o : string) (es : list gapEvent) (x : Z) (t : Time) : Prop :=
  exists w, Arrive t w ∈ es /\ originOf w = o /\ x < r_Seq w.


(** A run of arrivals and sweeps, from the first event of [o], numbered [a], on. *)
Section run.
Context (o : string) (s0 : Gaps) (t1 : Time) (w1 : wireRepl).
Hypothesis Ho : originOf w1 = o.
Hypothesis He : o <> EmptyString.
Hypothesis Hn : o <> g_nodeID s0.
Hypothesis Hv : valid w1.
Hypothesis Hs : g_originSeq s0 !! o = None.
Hypothesis Hm : g_missing s0 !! o = None.

Let a := r_Seq w1.
Let s1 := noteReplArrival t1 w1 s0.

Lemma first_arrival : s1 = withSeq o a s0.
Proof.
  unfold s1, a, noteReplArrival. fold (originOf w1). rewrite Ho. unfold valid in Hv. rewrite Hs.
  replace (sempty o || (r_Seq w1 =? 0) || (o =? g_nodeID s0)%string) with false; [done|]. symmetry.
  apply orb_false_iff; split; [apply orb_false_iff; split; [by destruct o|apply Z.eqb_neq; lia]|by apply String.eqb_neq].
Qed.

(** What is known after the steps [es]: nothing that came is awaited, and a deadline is that of an event that skipped
    the number. *)
Record following (es : list gapEvent) (s : Gaps) (last : Z) : Prop := {
  fo_node : g_nodeID s = g_nodeID s0;
  fo_last : g_originSeq s !! o = Some last;
  fo_range : 0 < last < MaxUint64 /\ a <= last;
  fo_here : forall x, arrivalsOf o es x -> x <= last;
  fo_awaited : forall x d, missingAt (g_missing s) o x = Some d ->
    a < x <= last /\ ~ arrivalsOf o es x /\ exists t, skippedAt o es x t /\ d = ToUnixMilli (Add t gapGrace);
}.

Lemma following_first : following [] s1 a.
Proof.
  rewrite first_arrival. unfold valid in Hv. constructor; cbn; [done|by rewrite lookup_insert_eq|unfold a; lia| |].
  - by intros x (t & w & ?%not_elem_of_nil & _).
  - intros x d. unfold missingAt. by rewrite Hm.
Qed.

Lemma arrivalsOf_snoc es e x : arrivalsOf o (es ++ [e]) x <-> arrivalsOf o es x \/ exists t w, e = Arrive t w /\ originOf w = o /\ r_Seq w = x.
Proof.
  unfold arrivalsOf. split.
  - intros (t & w & [Hin|Hin%list_elem_of_singleton]%elem_of_app & H1 & H2); [left|right]; exists t, w; by subst.
  - intros [(t & w & Hin & H1 & H2)|(t & w & -> & H1 & H2)]; exists t, w; (split; [|done]); set_solver.
Qed.

Lemma skippedAt_snoc es e x t : skippedAt o es x t -> skippedAt o (es ++ [e]) x t.
Proof. intros (w & Hin & Hr). exists w. split; [set_solver|done]. Qed.

Lemma following_other es s last e : following es s last ->
  match e with Arrive t w => originOf w <> o | Sweep _ => True end -> following (es ++ [e]) (gapStep s e) last.
Proof.
  intros [F1 F2 F3 F4 F5] Hothers.
  assert (forall x, arrivalsOf o (es ++ [e]) x <-> arrivalsOf o es x) as Hh.
  { intros x. rewrite arrivalsOf_snoc. split; [intros [?|(t & w & -> & ? & ?)]; [done|contradiction]|tauto]. }
  assert (g_nodeID (gapStep s e) = g_nodeID s /\ g_originSeq (gapStep s e) !! o = g_originSeq s !! o /\
    forall x d, missingAt (g_missing (gapStep s e)) o x = Some d -> missingAt (g_missing s) o x = Some d) as (H1 & H2 & H3).
  { destruct e as [t w|t]; cbn [gapStep].
    - destruct (arrival_other t w s o Hothers) as [H2 H3]. split; [apply arrival_node|]. split; [done|]. intros x d. by rewrite H3.
    - destruct (sweep_keeps t s) as (-> & -> & ->). split_and!; [done|done|]. intros x d. rewrite expired_at.
      destruct (missingAt _ o x); [|done]. by destruct (_ <=? _). }
  constructor; [congruence|congruence|done|by intros x ?%Hh; apply F4|].
  intros x d Hx%H3. destruct (F5 x d Hx) as (Hr & Hno & t & Ht & ->). split; [done|]. split; [by rewrite Hh|].
  exists t. split; [by apply skippedAt_snoc|done].
Qed.

(** The cases of an event of [o]. *)
Lemma following_own es s last t w : following es s last -> originOf w = o -> valid w -> r_Seq w <> 1 ->
  let s' := noteReplArrival t w s in
  exists last', following (es ++ [Arrive t w]) s' last' /\ last' = Z.max last (r_Seq w) /\
    (gapTrackLimit < r_Seq w - last - 1 /\ (countable w -> countsLoss (r_Seq w - last - 1) "large replication gap" s s') \/
     r_Seq w - last - 1 <= gapTrackLimit /\ unreported s s') /\
    (forall x, a < x <= last' -> arrivalsOf o (es ++ [Arrive t w]) x \/ is_Some (missingAt (g_missing s') o x) \/
       (x <= last /\ missingAt (g_missing s) o x = None) \/ (last < x < r_Seq w /\ gapTrackLimit < r_Seq w - last - 1)) /\
    (forall o' x, o' <> o -> missingAt (g_missing s') o' x = missingAt (g_missing s) o' x).
Proof.
  intros [F1 F2 F3 F4 F5] Hw Hvw H1 s'. assert (arrivalsOf o (es ++ [Arrive t w]) (r_Seq w)) as Hin by (apply arrivalsOf_snoc; right; eauto).
  assert (forall x, arrivalsOf o (es ++ [Arrive t w]) x <-> arrivalsOf o es x \/ x = r_Seq w) as Hh.
  { intros x. rewrite arrivalsOf_snoc. split; [intros [?|(t' & w' & [= <- <-] & _ & <-)]; tauto|intros [?| ->]; [tauto|right; eauto]]. }
  assert (forall x d, missingAt (g_missing s) o x = Some d -> x <> r_Seq w ->
    ~ arrivalsOf o (es ++ [Arrive t w]) x /\ exists t0, skippedAt o (es ++ [Arrive t w]) x t0 /\ d = ToUnixMilli (Add t0 gapGrace)) as Hold.
  { intros x d Hx Hne. destruct (F5 x d Hx) as (_ & Hno & t0 & Ht0 & ->). split; [rewrite Hh; tauto|]. exists t0. split; [by apply skippedAt_snoc|done]. }
  assert (g_nodeID s' = g_nodeID s0) as Hnode by (unfold s'; by rewrite arrival_node).
  assert (originOf w <> EmptyString /\ originOf w <> g_nodeID s) as [Hw1 Hw2] by (rewrite Hw, F1; done).
  destruct F3 as [F3 Fa]. pose proof Hvw as Hvw'. unfold valid in Hvw'.
  destruct (arrival_own t w s last Hw1 Hw2 Hvw H1 ltac:(by rewrite Hw) F3) as [(E & Hq & Hu & Hmi)|[(E & Hq & Hbig & Hc & Hmi)|[(E & Hq & Hsm & Hu & Hmi)|(E & Hq & Hu & Hmi)]]];
    fold s' in Hq, Hmi; rewrite Hw in *; eexists; (split; [constructor; [done|exact Hq|lia| |]|split; [lia|]]).
  all: try (intros x [?%F4| ->]%Hh; lia).
  all: try (intros x d Hx; rewrite Hmi in Hx).
  - destruct (F5 x d Hx). split; [lia|]. apply (Hold x d Hx). lia.
  - split_and!; [right; split; [unfold gapTrackLimit; lia|done]| |by intros; rewrite Hmi].
    intros x Hx. destruct (decide (x = r_Seq w)) as [->|]; [by left|]. right. rewrite Hmi. destruct (missingAt _ o x); [left; by eexists|right; left; split; [lia|done]].
  - destruct (F5 x d Hx). split; [lia|]. apply (Hold x d Hx). lia.
  - split_and!; [by left| |by intros; rewrite Hmi].
    intros x Hx. destruct (decide (x = r_Seq w)) as [->|]; [by left|]. right. rewrite Hmi. destruct (missingAt _ o x); [left; by eexists|right].
    destruct (decide (x <= last)); [left; done|right; lia].
  - case_bool_decide as Hr; [injection Hx as <-|].
    + split; [lia|]. split; [rewrite Hh; intros [?%F4|?]; lia|]. exists t. split; [|done]. exists w. split; [set_solver|]. split; [done|lia].
    + destruct (F5 x d Hx). split; [lia|]. apply (Hold x d Hx). lia.
  - split_and!; [right; done| |by intros; rewrite Hmi, bool_decide_false by naive_solver].
    intros x Hx. destruct (decide (x = r_Seq w)) as [->|]; [by left|]. right. rewrite Hmi. case_bool_decide as Hr; [left; by eexists|].
    destruct (missingAt _ o x); [left; by eexists|right; left; split; [|done]]. apply Z.nlt_ge. intros ?. apply Hr. split; [done|lia].
  - case_bool_decide as Hr; [done|]. destruct (F5 x d Hx). split; [lia|]. apply (Hold x d Hx). naive_solver.
  - split_and!; [right; split; [unfold gapTrackLimit; lia|done]| |by intros; rewrite Hmi, bool_decide_false by naive_solver].
    intros x Hx. rewrite Hmi. case_bool_decide as Hr; [destruct Hr as [_ ->]; by left|]. right. destruct (missingAt _ o x); [left; by eexists|right; left; split; [lia|done]].
Qed.


(** ** Reordering is no loss *)

(** Events of [o] alone, in an order in which none jumps more than [gapTrackLimit] numbers past all that came before
    it, with sweeps between them that find no number still missing a grace period after it was skipped. *)
Definition nearby (es : list gapEvent) : Prop := forall es1 t w es2, es = es1 ++ Arrive t w :: es2 ->
  originOf w = o /\ valid w /\ r_Seq w <> 1 /\ exists y, (y = a \/ arrivalsOf o es1 y) /\ r_Seq w - y - 1 <= gapTrackLimit.
Definition timely (es : list gapEvent) : Prop := forall es1 t es2 x t', es = es1 ++ Sweep t :: es2 ->
  a < x -> skippedAt o es1 x t' -> ToUnixMilli (Add t' gapGrace) <= ToUnixMilli t -> arrivalsOf o es1 x.

Lemma reordered_run es : g_missing s0 = ∅ -> nearby es -> timely es -> exists last, following es (gapRun es s1) last /\
  unreported s0 (gapRun es s1) /\ forall o' x, o' <> o -> missingAt (g_missing (gapRun es s1)) o' x = None.
Proof.
  intros H0. induction es as [|e es IH] using rev_ind; intros Hnear Htime.
  { exists a. split; [apply following_first|]. cbn. rewrite first_arrival. split; [done|]. intros o' x _. unfold missingAt. cbn. by rewrite H0, lookup_empty. }
  destruct IH as (last & Hf & [Hu1 Hu2] & Hoth).
  { intros es1 t w es2 ->. apply (Hnear es1 t w (es2 ++ [e])). by rewrite <- app_assoc. }
  { intros es1 t es2 x t' ->. apply (Htime es1 t (es2 ++ [e])). by rewrite <- app_assoc. }
  rewrite gapRun_snoc. set (s := gapRun es s1) in *. destruct e as [t w|t]; cbn [gapStep].
  - destruct (Hnear es t w [] eq_refl) as (Hw & Hvw & H1 & y & Hy & Hjump).
    destruct (following_own es s last t w Hf Hw Hvw H1) as (last' & Hf' & _ & Hrep & _ & Hoth'). exists last'. split; [exact Hf'|].
    assert (y <= last) by (destruct Hy as [->|Hy]; [apply (fo_range _ _ _ Hf)|by apply (fo_here _ _ _ Hf)]).
    destruct Hrep as [[? _]|[_ [Hr1 Hr2]]]; [lia|]. split; [split; congruence|]. intros o' x Hne. by rewrite Hoth', Hoth.
  - exists last. split; [by apply (following_other es s last (Sweep t))|]. destruct (sweep_keeps t s) as (Hk & _ & _). split.
    + destruct (sweep_silent t s) as [Hr1 Hr2]; [|split; congruence]. intros o' x d Hx.
      destruct (decide (o' = o)) as [->|Hne]; [|by rewrite Hoth in Hx].
      destruct (fo_awaited _ _ _ Hf x d Hx) as (Hr & Hno & t' & Hsk & ->). apply Z.nle_gt. intros Hle. apply Hno.
      apply (Htime es t [] x t'); [done|lia|done|done].
    + intros o' x Hne. by rewrite Hk, expired_at, Hoth.
Qed.
End run.


(** C39: Reordering alone is never taken for loss.  Events of a peer that arrive in any order, none of them numbered 1
    or more than [gapTrackLimit] numbers ahead of all that came before it, with sweeps anywhere between them, count no
    loss and ask for no resync, provided every number has arrived by the first sweep that comes a grace period after it
    was skipped; and only numbers that have not arrived are still awaited. *)
Theorem reordering_is_no_loss o s0 t1 w1 es :
  originOf w1 = o -> o <> EmptyString -> o <> g_nodeID s0 -> valid w1 -> g_originSeq s0 !! o = None -> g_missing s0 = ∅ ->
  nearby o w1 es -> timely o w1 es ->
  let s := gapRun es (noteReplArrival t1 w1 s0) in
  unreported s0 s /\ forall x, is_Some (missingAt (g_missing s) o x) -> r_Seq w1 < x /\ ~ arrivalsOf o es x.
Proof.
  intros Ho He Hn Hv Hs Hm Hnear Htime s. assert (g_missing s0 !! o = None) as Hm' by (by rewrite Hm, lookup_empty).
  destruct (reordered_run o s0 t1 w1 Ho He Hn Hv Hs Hm' es Hm Hnear Htime) as (last & Hf & Hu & _). split; [done|].
  intros x [d Hd]. destruct (fo_awaited _ _ _ _ _ _ Hf x d Hd) as (? & ? & _). split; [lia|done].
Qed.

(** ** A straggler numbered 1 is taken for a restart *)

Definition demoArrival (seq : Z) : wireRepl := mkRepl "DEL" "k" None 0 0 EmptyString ∅ [] 1 seq "n2".
Definition demoGaps : Gaps := mkGaps "n1" true ∅ ∅ 0 0 0 [].
Definition demoTime (seconds : Z) : Time := Unix (1700000000 + seconds) 0.

(** The first event of a peer arriving second is mistaken for a restart: of the events 1, 2 and 3
    all three arrive, 2 before 1, and yet the sweep after the grace period counts one as lost and asks
    for a full resync. *)
Theorem late_first_event_is_reported_lost :
  let s := gapRun [Arrive (demoTime 0) (demoArrival 2); Arrive (demoTime 0) (demoArrival 1); Arrive (demoTime 0) (demoArrival 3);
                   Sweep (demoTime 6)] demoGaps in
  g_lost s = 1 /\ g_resyncs s = ["confirmed replication loss"%string].
Proof. vm_compute. done. Qed.

(** Two connections of one peer deliver its events 6 and 7 at once: both load the position 5, the one with 7 moves it
    and awaits 6, and the other, for which 6 is the next number, moves it back and does not strike 6 off.  Everything
    arrived, and the sweep after the grace period counts 6 as lost. *)
Lemma racing_arrivals_report_loss :
  let s := noteReplArrival (demoTime 0) (demoArrival 5) demoGaps in
  let s := noteFrom (demoTime 0) "n2" 6 5 (noteFrom (demoTime 0) "n2" 7 5 s) in
  g_originSeq s !! "n2"%string = Some 6 /\ g_lost (sweepGaps (demoTime 6) s) = 1.
Proof. vm_compute. done. Qed.

(** ** Witnesses *)




(** Events 5, 7 and 6 with a sweep before and one after the last. *)
Definition demoReorder : list gapEvent :=
  [Arrive (demoTime 1) (demoArrival 7); Sweep (demoTime 2); Arrive (demoTime 3) (demoArrival 6); Sweep (demoTime 9)].

Lemma reordering_is_no_loss_witness :
  let s := gapRun demoReorder (noteReplArrival (demoTime 0) (demoArrival 5) demoGaps) in
  unreported demoGaps s /\ forall x, is_Some (missingAt (g_missing s) "n2" x) -> 5 < x /\ ~ arrivalsOf "n2" demoReorder x.
Proof.
  apply (reordering_is_no_loss "n2" demoGaps (demoTime 0) (demoArrival 5) demoReorder);
    [reflexivity|done|done|by vm_compute|reflexivity|reflexivity| |].
  - intros es1 t w es2 E. unfold demoReorder in E.
    destruct es1 as [|? [|? [|? [|? [|? ?]]]]]; cbn in E; try discriminate E; injection E; intros; subst;
      (split; [reflexivity|]; split; [by vm_compute|]; split; [discriminate|]; exists 5; split; [by left|unfold gapTrackLimit; cbn; lia]).
  - intros es1 t es2 x t' E Hx (w & Hin & _ & Hw) Hd. unfold demoReorder in E.
    destruct es1 as [|? [|? [|? [|? [|? ?]]]]]; cbn in E; try discriminate E; injection E; intros; subst;
      rewrite !elem_of_cons, elem_of_nil in Hin.
    + destruct Hin as [[= -> ->]|?]; [|done]. vm_compute in Hd. by destruct Hd.
    + cbn in Hx. assert (x = 6) as ->.
      { destruct Hin as [[= -> ->]|[?|[[= -> ->]|?]]]; [|done| |done]; cbn in Hw; lia. }
      exists (demoTime 3), (demoArrival 6). split; [set_solver|]. by split.
Defined.
