(* ===== verification/PeerMembers.v ===== *)
(** * Package [peer], part 5: the peers this node knows
    (internal/peer/service.go, forget.go, outbound.go, peer_state.go). *)

From S2P Require Import Prelude GoInt GoStr GoTime GoSort Resp Config Json GoNet ConfigValid StoreBase Repl PeerWire.

(** ** Data *)

Inductive PeerSource := SourceConfig | SourceManual | SourceDiscovery | SourceLearned.

#[export] Instance PeerSource_eq : EqDecision PeerSource.
Proof. solve_decision. Defined.

Definition forgettable (p : PeerSource) : bool :=
  match p with SourceDiscovery | SourceLearned => true | SourceConfig | SourceManual => false end.

Record peerMeta := mkMeta { pm_addr : string; pm_source : PeerSource; pm_added : Z; pm_lastOK : Z }.

(** The part of [Service] that holds membership.  [mb_dial] is [activeDial], [None] before [Run]; an
    entry tells whether its dial loop has been cancelled, and goes when that loop ends. *)
Record Members := mkMembers {
  mb_nodeID : string; mb_advertise : string; mb_cfg : Config;
  mb_meta : gmap string peerMeta; mb_dial : option (gmap string bool) }.

Definition setPeers (ps : list string) (c : Config) : Config :=
  mkConfig (ClientBind c) (ClientPort c) (PeerBind c) (PeerPort c) ps (NodeID c) (AdvertiseAddr c) (BootstrapPeer c) (SharedSecret c)
    (ClusterID c) (MaxMemory c) (MaxMemoryPolicy c) (AuthPassword c) (ClientIdleTimeout c) (LogLevel c) (LogOutput c) (LogFormat c)
    (MetricsBind c) (MetricsPort c) (BootstrapQueueDepth c) (PeerQueueDepth c) (HeartbeatInterval c) (HeartbeatTimeout c) (MgmtSocket c)
    (MgmtTCPBind c) (MgmtTCPPort c) (GossipPeers c) (AutoDiscoverPeers c) (DiscoveryInterval c) (HetznerAPIToken c) (HetznerLabelSelector c)
    (HetznerNetworkID c) (HetznerAPIURL c) (AnnounceLeave c) (ResyncOnGap c) (ResyncMinInterval c) (PeerForgetAfter c) (PeerStateFile c)
    (ReplShutdownSpillPath c) (ClientTLSCertFile c) (ClientTLSKeyFile c) (ClientTLSMinVersion c) (PeerTLSCertFile c) (PeerTLSKeyFile c)
    (PeerTLSCAFile c) (PeerTLSMinVersion c).

Definition SetConfig (c : Config) (s : Members) : Members :=
  mkMembers (mb_nodeID s) (mb_advertise s) c (mb_meta s) (mb_dial s).
Definition setMeta (m : gmap string peerMeta) (s : Members) : Members :=
  mkMembers (mb_nodeID s) (mb_advertise s) (mb_cfg s) m (mb_dial s).
Definition setDial (d : option (gmap string bool)) (s : Members) : Members :=
  mkMembers (mb_nodeID s) (mb_advertise s) (mb_cfg s) (mb_meta s) d.
Definition SetAdvertiseAddr (addr : string) (s : Members) : Members :=
  mkMembers (mb_nodeID s) (TrimSpace addr) (mb_cfg s) (mb_meta s) (mb_dial s).

(** [ConfigPeerAddrs]. *)
Definition ConfigPeerAddrs (s : Members) : list string := Peers (mb_cfg s).

Definition isSelf (nodeID addr : string) (s : Members) : bool :=
  (negb (sempty nodeID) && (nodeID =? mb_nodeID s)%string)
  || (negb (sempty (mb_advertise s)) && negb (sempty addr)
      && (NormalizePeerAddr (mb_advertise s) =? NormalizePeerAddr addr)%string).

(** ** Records *)

Definition recordPeerMeta (now : Time) (addr : string) (src : PeerSource) (s : Members) : Members :=
  let key := NormalizePeerAddr addr in
  match mb_meta s !! key with
  | Some m => if forgettable src then s else setMeta (<[key := mkMeta (pm_addr m) src (pm_added m) (pm_lastOK m)]> (mb_meta s)) s
  | None => setMeta (<[key := mkMeta addr src (ToUnixMilli now) 0]> (mb_meta s)) s
  end.

Definition markPeerReachable (now : Time) (addr : string) (s : Members) : Members :=
  let key := NormalizePeerAddr addr in
  match mb_meta s !! key with
  | Some m => setMeta (<[key := mkMeta (pm_addr m) (pm_source m) (pm_added m) (ToUnixMilli now)]> (mb_meta s)) s
  | None => s
  end.

Definition NoteConfigPeers (now : Time) (addrs : list string) (s : Members) : Members :=
  fold_left (fun s a => let a := TrimSpace a in if sempty a then s else recordPeerMeta now a SourceConfig s) addrs s.

Definition PeerSourceOf (addr : string) (s : Members) : option PeerSource := pm_source <$> mb_meta s !! NormalizePeerAddr addr.

(** ** Dial loops *)

(** [Run] sets the map up and starts a loop per configured peer. *)
Definition ensureDial (addr : string) (s : Members) : option error * Members :=
  let addr := TrimSpace addr in
  if sempty addr then (None, s)
  else match mb_dial s with
       | None => (Some (New "peer dial map not initialized"), s)
       | Some d => match d !! addr with
                   | Some _ => (None, s)
                   | None => (None, setDial (Some (<[addr := false]> d)) s)
                   end
       end.

Definition SyncPeersFromConfig (peers : list string) (s : Members) : Members :=
  fold_left (fun s p => snd (ensureDial p s)) peers s.

Definition startDials (s : Members) : Members := SyncPeersFromConfig (Peers (mb_cfg s)) (setDial (Some ∅) s).

(** The goroutine of [ensureDial] after its dial loop has returned. *)
Definition dialEnds (addr : string) (s : Members) : Members := setDial (delete addr <$> mb_dial s) s.

(** ** Adding and removing *)

Definition known (addr : string) (c : Config) : bool :=
  let want := NormalizePeerAddr addr in
  existsb (fun p => (p =? addr)%string || (NormalizePeerAddr p =? want)%string) (Peers c).

Definition AddPeerFrom (now : Time) (addr : string) (src : PeerSource) (s : Members) : option error * Members :=
  let addr := TrimSpace addr in
  match ValidatePeerAddr addr with
  | Some err => (Some err, s)
  | None =>
      if isSelf EmptyString addr s then (Some (New ("peer " +++ addr +++ " is this node")), s)
      else if known addr (mb_cfg s) then (Some (New ("peer " +++ addr +++ " already configured")), s)
      else ensureDial addr (recordPeerMeta now addr src (SetConfig (setPeers (Peers (mb_cfg s) ++ [addr]) (mb_cfg s)) s))
  end.

Definition AddPeer (now : Time) (addr : string) : Members -> option error * Members := AddPeerFrom now addr SourceManual.

Definition RemovePeer (addr : string) (s : Members) : Members :=
  let addr := TrimSpace addr in
  let d := match mb_dial s with
           | Some d => match d !! addr with Some _ => Some (<[addr := true]> d) | None => Some d end
           | None => None
           end in
  SetConfig (setPeers (List.filter (fun p => negb (p =? addr)%string) (Peers (mb_cfg s))) (mb_cfg s)) (setDial d s).

(** ** Forgetting *)

(** The loop of [forgetCandidates] over the known addresses. *)
Fixpoint forgetLoop (want : peerMeta -> bool -> bool) (connected : gset string) (addrs : list string) (remaining : Z)
    (meta : gmap string peerMeta) : list string * gmap string peerMeta :=
  match addrs with
  | [] => ([], meta)
  | addr :: rest =>
      if remaining <=? 1 then ([], meta)
      else
        let key := NormalizePeerAddr addr in
        match meta !! key with
        | None => forgetLoop want connected rest remaining meta
        | Some m =>
            if negb (forgettable (pm_source m)) then forgetLoop want connected rest remaining meta
            else if negb (want m (bool_decide (key ∈ connected))) then forgetLoop want connected rest remaining meta
            else let '(drop, meta) := forgetLoop want connected rest (remaining - 1) (delete key meta) in (addr :: drop, meta)
        end
  end.

Definition forgetCandidates (want : peerMeta -> bool -> bool) (connected : gset string) (s : Members) : list string * Members :=
  let known := ConfigPeerAddrs s in
  let '(drop, meta) := forgetLoop want connected known (Z.of_nat (List.length known)) (mb_meta s) in
  (drop, setMeta meta s).

(** The callers remove what was found. *)
Definition forget (want : peerMeta -> bool -> bool) (connected : gset string) (s : Members) : list string * Members :=
  let '(drop, s) := forgetCandidates want connected s in
  (drop, fold_left (fun s addr => RemovePeer addr s) drop s).

Definition ForgetUnreachablePeers (now : Time) (after : Z) (connected : gset string) (s : Members) : list string * Members :=
  if after <=? 0 then ([], s)
  else
    let cutoff := ToUnixMilli (Add now (- after)) in
    forget (fun m connected =>
      if connected then false
      else let last := if pm_lastOK m =? 0 then pm_added m else pm_lastOK m in last <? cutoff) connected s.

Definition listing (listed : list string) : gset string :=
  list_to_set (map (fun a => NormalizePeerAddr (TrimSpace a)) (List.filter (fun a => negb (sempty (TrimSpace a))) listed)).

Definition ForgetPeersMissingFrom (listed : list string) (connected : gset string) (s : Members) : list string * Members :=
  let present := listing listed in
  forget (fun m connected =>
    if connected || negb (bool_decide (pm_source m = SourceDiscovery)) then false
    else negb (bool_decide (NormalizePeerAddr (pm_addr m) ∈ present))) connected s.

(** A peer says it is shutting down; [connAddr] is the address of the connection it said so on. *)
Definition handleLeave (msg : PeerMessage) (connAddr : string) (connected : gset string) (s : Members) : list string * Members :=
  match Unmarshal zeroLeave leaveFields (m_Payload msg) with
  | (_, false) => ([], s)
  | (lv, true) =>
      let addr := TrimSpace (l_Advertise lv) in
      let addr := if sempty addr then TrimSpace connAddr else addr in
      if sempty addr || isSelf (TrimSpace (l_NodeID lv)) addr s then ([], s)
      else let want := NormalizePeerAddr addr in
           forget (fun m _ => (NormalizePeerAddr (pm_addr m) =? want)%string) connected s
  end.

(** ** Learning *)

Definition fallbackAdvertiseAddr (remoteAddr : string) (s : Members) : string :=
  match SplitHostPort (TrimSpace remoteAddr) with
  | inl _ => EmptyString
  | inr (host, _) =>
      match ParseIP host with
      | None => EmptyString
      | Some ip => if IsLoopback ip || IsUnspecified ip then EmptyString
                   else JoinHostPort host (FormatInt (PeerPort (mb_cfg s)))
      end
  end.

(** [learnPeerFromInbound]; the connection has a remote address. *)
Definition learnPeerFromInbound (now : Time) (nodeID advertise remoteAddr : string) (s : Members) : Members :=
  if negb (AutoDiscoverPeersEnabled (Some (mb_cfg s))) then s
  else
    let addr := TrimSpace advertise in
    let addr := if sempty addr then fallbackAdvertiseAddr remoteAddr s else addr in
    if sempty addr then s
    else if isSelf nodeID addr s then s
    else snd (AddPeerFrom now addr SourceLearned s).

Definition learnAll (now : Time) (peers : list string) (s : Members) : Members :=
  fold_left (fun s p => snd (AddPeerFrom now p SourceLearned s)) peers s.

(** [consumeOptionalPeerAnnounce] and [tryConsumePeerAnnounceBootstrap], which differ in the texts of
    their errors: the frame a peer with gossip sends first.  No frame in time is no error. *)
Definition consumePeerAnnounce (badType badOp : string) (now : Time) (read : res PeerMessage) (s : Members) : option error * Members :=
  if negb (GossipPeers (mb_cfg s)) then (None, s)
  else match read with
       | inl _ => (None, s)
       | inr msg =>
           let msg := NormalizePeerMessage msg in
           if negb (m_Type msg =? MsgTypeNodeList)%string then (Some (New badType), s)
           else match Unmarshal zeroAnnounce announceFields (m_Payload msg) with
                | (pa, ok) =>
                    if negb ok || negb (EqualFold (pa_Op pa) wireOpPeerAnnounce) then (Some (New badOp), s)
                    else (None, learnAll now (pa_Peers pa) s)
                end
       end.

Definition consumeOptionalPeerAnnounce : Time -> res PeerMessage -> Members -> option error * Members :=
  consumePeerAnnounce "peer: expected NODE_LIST when gossip_peers is enabled" "peer: expected PEER_ANNOUNCE when gossip_peers is enabled".
Definition tryConsumePeerAnnounceBootstrap : Time -> res PeerMessage -> Members -> option error * Members :=
  consumePeerAnnounce "invalid PEER_ANNOUNCE" "invalid PEER_ANNOUNCE".

(** ** The peer state file *)

Definition stateFields : list (field (list string)) := [("peers"%string, fun s j => dSlice EmptyString dString s j)].

Definition SavePeerStateFile (peers : list string) : json :=
  JObj [("peers"%string, if bool_decide (peers = []) then JNull else jStrings peers)].

Definition LoadPeerStateFile (data : res string) : res (list string) :=
  match data with
  | inl err => inl err
  | inr text => match Unmarshal [] stateFields (parse text) with
                | (peers, true) => inr peers
                | (_, false) => inl (New "parse peer state: invalid json")
                end
  end.
