(* ===== verification/PeerMembersSpec.v ===== *)
(** * Membership: the known peers stay valid and distinct, and forgetting keeps what it must. *)

From S2P Require Import Prelude GoInt GoStr GoTime GoSort Resp Config Json GoNet ConfigValid ConfigSpec StoreBase Repl PeerWire.
From S2P Require Import PeerMembers.

(** ** The invariant *)

Record membersInv (s : Members) : Prop := {
  mi_valid : Forall (fun p => ValidatePeerAddr p = None) (Peers (mb_cfg s));
  mi_trim : Forall (fun p => TrimSpace p = p) (Peers (mb_cfg s));
  mi_distinct : NoDup (map NormalizePeerAddr (Peers (mb_cfg s)));
}.

Lemma inv_same s s' : Peers (mb_cfg s') = Peers (mb_cfg s) -> membersInv s -> membersInv s'.
Proof. intros E [H1 H2 H3]. constructor; by rewrite E. Qed.

Lemma record_peers now a src s : Peers (mb_cfg (recordPeerMeta now a src s)) = Peers (mb_cfg s).
Proof. unfold recordPeerMeta. destruct (mb_meta s !! _); [|done]. by destruct (forgettable src). Qed.

Lemma mark_peers now a s : Peers (mb_cfg (markPeerReachable now a s)) = Peers (mb_cfg s).
Proof. unfold markPeerReachable. by destruct (mb_meta s !! _). Qed.

Lemma dial_peers a s : Peers (mb_cfg (snd (ensureDial a s))) = Peers (mb_cfg s).
Proof. unfold ensureDial. destruct (sempty _); [done|]. destruct (mb_dial s) as [d|]; [|done]. by destruct (d !! _). Qed.

(** [AddPeerFrom] adds one address or none. *)
Lemma add_peers now a src s : Peers (mb_cfg (snd (AddPeerFrom now a src s))) = Peers (mb_cfg s) \/
  (Peers (mb_cfg (snd (AddPeerFrom now a src s))) = Peers (mb_cfg s) ++ [TrimSpace a] /\
   ValidatePeerAddr (TrimSpace a) = None /\ known (TrimSpace a) (mb_cfg s) = false).
Proof.
  unfold AddPeerFrom. destruct (ValidatePeerAddr _); [by left|]. destruct (isSelf _ _ _); [by left|].
  destruct (known _ _) eqn:E; [by left|]. right. by rewrite dial_peers, record_peers.
Qed.

Lemma add_inv now a src s : membersInv s -> membersInv (snd (AddPeerFrom now a src s)).
Proof.
  intros Hi. destruct (add_peers now a src s) as [E|(E & Hv & Hk)]; [by eapply inv_same|]. destruct Hi as [H1 H2 H3]. constructor; rewrite E.
  - by apply Forall_app_2; [|constructor; [|constructor]].
  - apply Forall_app_2; [done|]. constructor; [apply TrimSpace_idemp|constructor].
  - rewrite map_app. cbn [map]. apply NoDup_app. split_and!; [done| |apply NoDup_singleton]. intros k (p & -> & Hp)%list_elem_of_fmap Hin.
    apply list_elem_of_singleton in Hin. unfold known in Hk. apply not_true_iff_false in Hk. destruct Hk. apply existsb_exists. exists p.
    split; [by apply list_elem_of_In|]. apply orb_true_iff. right. by apply String.eqb_eq.
Qed.

Lemma removed_peers a s : Peers (mb_cfg (RemovePeer a s)) = List.filter (fun p => negb (p =? TrimSpace a)%string) (Peers (mb_cfg s)).
Proof. done. Qed.

Lemma sublist_inv s s' : sublist (Peers (mb_cfg s')) (Peers (mb_cfg s)) -> membersInv s -> membersInv s'.
Proof.
  intros Hs [H1 H2 H3]. constructor; [by eapply Forall_sublist|by eapply Forall_sublist|].
  eapply sublist_NoDup; [exact H3|]. by apply (fmap_sublist NormalizePeerAddr).
Qed.

Lemma remove_inv a s : membersInv s -> membersInv (RemovePeer a s).
Proof. apply sublist_inv. rewrite removed_peers. apply filter_sublist. Qed.

Lemma removeAll_inv l s : membersInv s -> membersInv (fold_left (fun s a => RemovePeer a s) l s).
Proof. revert s. induction l as [|a l IH]; intros s Hi; [done|]. cbn. by apply IH, remove_inv. Qed.

Lemma forgetCandidates_peers want c s : Peers (mb_cfg (snd (forgetCandidates want c s))) = Peers (mb_cfg s).
Proof. unfold forgetCandidates. by destruct (forgetLoop _ _ _ _ _). Qed.

Lemma forget_inv want c s : membersInv s -> membersInv (snd (forget want c s)).
Proof.
  intros Hi. unfold forget. pose proof (forgetCandidates_peers want c s) as E. destruct (forgetCandidates want c s) as [l s1]. cbn in *.
  apply removeAll_inv. by apply (inv_same s).
Qed.

Lemma learnAll_inv now l s : membersInv s -> membersInv (learnAll now l s).
Proof. unfold learnAll. revert s. induction l as [|a l IH]; intros s Hi; [done|]. cbn. by apply IH, add_inv. Qed.

Lemma announce_inv x y now r s : membersInv s -> membersInv (snd (consumePeerAnnounce x y now r s)).
Proof.
  intros Hi. unfold consumePeerAnnounce. destruct (negb _); [done|]. destruct r as [|msg]; [done|]. cbv zeta.
  destruct (negb _); [done|]. destruct (Unmarshal _ _ _) as [pa ok]. destruct (_ || _); [done|]. by apply learnAll_inv.
Qed.

Lemma sync_peers l s : Peers (mb_cfg (SyncPeersFromConfig l s)) = Peers (mb_cfg s).
Proof. unfold SyncPeersFromConfig. revert s. induction l as [|a l IH]; intros s; [done|]. cbn. by rewrite IH, dial_peers. Qed.

Lemma note_peers now l s : Peers (mb_cfg (NoteConfigPeers now l s)) = Peers (mb_cfg s).
Proof.
  unfold NoteConfigPeers. revert s. induction l as [|a l IH]; intros s; [done|]. cbn. rewrite IH. by destruct (sempty _); rewrite ?record_peers.
Qed.

(** The peers of a file: [Validate] accepts each of them; that they have no white space around them and name each
    endpoint once is up to the operator ([repeated_peer_is_accepted]). *)
Definition tidy (peers : list string) : Prop :=
  Forall (fun p => ValidatePeerAddr p = None) peers /\ Forall (fun p => TrimSpace p = p) peers /\ NoDup (map NormalizePeerAddr peers).

(** The membership part of [ApplyHotReload]. *)
Definition reloadMembers (c : Config) (s : Members) : Members := SyncPeersFromConfig (Peers c) (SetConfig c s).

(** Everything that changes membership while a node runs. *)
Inductive memberStep : Members -> Members -> Prop :=
  | ms_start s : memberStep s (startDials s)
  | ms_advertise a s : memberStep s (SetAdvertiseAddr a s)
  | ms_note now l s : memberStep s (NoteConfigPeers now l s)
  | ms_reachable now a s : memberStep s (markPeerReachable now a s)
  | ms_dialEnds a s : memberStep s (dialEnds a s)
  | ms_reload c s : tidy (Peers c) -> memberStep s (reloadMembers c s)
  | ms_add now a src s : memberStep s (snd (AddPeerFrom now a src s))
  | ms_remove a s : memberStep s (RemovePeer a s)
  | ms_unreachable now after c s : memberStep s (snd (ForgetUnreachablePeers now after c s))
  | ms_unlisted l c s : memberStep s (snd (ForgetPeersMissingFrom l c s))
  | ms_leave msg a c s : memberStep s (snd (handleLeave msg a c s))
  | ms_learn now id adv remote s : memberStep s (learnPeerFromInbound now id adv remote s)
  | ms_announce now r s : memberStep s (snd (consumeOptionalPeerAnnounce now r s))
  | ms_bootAnnounce now r s : memberStep s (snd (tryConsumePeerAnnounceBootstrap now r s)).

Inductive memberReach (s0 : Members) : Members -> Prop :=
  | mr_here : memberReach s0 s0
  | mr_step s s' : memberReach s0 s -> memberStep s s' -> memberReach s0 s'.

Lemma memberStep_inv s s' : memberStep s s' -> membersInv s -> membersInv s'.
Proof.
  intros Hs Hi. destruct Hs; try (by apply (inv_same s)).
  - unfold startDials. apply (inv_same s); [by rewrite sync_peers|done].
  - apply (inv_same s); [apply note_peers|done].
  - apply (inv_same s); [apply mark_peers|done].
  - destruct H as (? & ? & ?). constructor; unfold reloadMembers; by rewrite sync_peers.
  - by apply add_inv.
  - by apply remove_inv.
  - unfold ForgetUnreachablePeers. destruct (_ <=? _); [done|]. by apply forget_inv.
  - by apply forget_inv.
  - unfold handleLeave. destruct (Unmarshal _ _ _) as [lv []]; [|done]. cbv zeta. destruct (_ || _); [done|]. by apply forget_inv.
  - unfold learnPeerFromInbound. destruct (negb _); [done|]. cbv zeta. destruct (sempty _); [done|]. destruct (isSelf _ _ _); [done|]. by apply add_inv.
  - by apply announce_inv.
  - by apply announce_inv.
Qed.

(** C33: Whatever nodes connect, leave, are discovered, announced, added or removed, and however often the
    configuration is reloaded, in any order, the peers a node knows are always addresses it can dial, and no endpoint
    is listed twice, however it is spelled; provided the peer list of the configuration it starts on and of every one it
    reloads is tidy, that is valid, without white space around the addresses and naming no endpoint twice. *)
Theorem peers_valid_distinct s0 s : membersInv s0 -> memberReach s0 s ->
  Forall dialable (Peers (mb_cfg s)) /\ NoDup (map NormalizePeerAddr (Peers (mb_cfg s))).
Proof.
  intros Hi Hr. assert (membersInv s) as [H1 _ H3] by (induction Hr; [done|by eapply memberStep_inv]).
  split; [|done]. eapply Forall_impl; [exact H1|]. apply ValidatePeerAddr_dialable.
Qed.

(** ** Forgetting *)

Lemma forgetLoop_spec want c addrs n meta l meta' : forgetLoop want c addrs n meta = (l, meta') ->
  meta' ⊆ meta /\ sublist l addrs /\ Z.of_nat (List.length l) <= Z.max 0 (n - 1) /\
  Forall (fun a => exists m, meta !! NormalizePeerAddr a = Some m /\ forgettable (pm_source m) = true /\
                             want m (bool_decide (NormalizePeerAddr a ∈ c)) = true) l.
Proof.
  revert n meta l meta'. induction addrs as [|a addrs IH]; intros n meta l meta'; cbn [forgetLoop].
  { intros [= <- <-]. split_and!; [done|constructor|cbn; lia|constructor]. }
  destruct (n <=? 1) eqn:En; zify_bool; [intros [= <- <-]; split_and!; [done|apply sublist_nil_l|cbn; lia|constructor]|].
  assert (forall meta', forgetLoop want c addrs n meta = (l, meta') ->
    meta' ⊆ meta /\ sublist l (a :: addrs) /\ Z.of_nat (List.length l) <= Z.max 0 (n - 1) /\
    Forall (fun a => exists m, meta !! NormalizePeerAddr a = Some m /\ forgettable (pm_source m) = true /\
      want m (bool_decide (NormalizePeerAddr a ∈ c)) = true) l) as Hskip.
  { intros m2 E. destruct (IH _ _ _ _ E) as (? & ? & ? & ?). split_and!; [done|by constructor|done|done]. }
  destruct (meta !! NormalizePeerAddr a) as [m|] eqn:Em; [|apply Hskip].
  destruct (forgettable (pm_source m)) eqn:Ef; cbn [negb]; [|apply Hskip].
  destruct (want m _) eqn:Ew; cbn [negb]; [|apply Hskip].
  destruct (forgetLoop want c addrs (n - 1) (delete _ meta)) as [l1 m1] eqn:E. intros [= <- <-].
  destruct (IH _ _ _ _ E) as (H1 & H2 & H3 & H4). split_and!.
  - etransitivity; [exact H1|apply delete_subseteq].
  - by constructor.
  - cbn [List.length]. lia.
  - constructor; [eauto|]. eapply Forall_impl; [exact H4|]. intros x (mx & Hx & ?). exists mx. split; [|done].
    by apply lookup_delete_Some in Hx as [_ ?].
Qed.

Lemma removeAll_peers l s : Forall (fun p => TrimSpace p = p) l ->
  Peers (mb_cfg (fold_left (fun s a => RemovePeer a s) l s)) = List.filter (fun p => negb (bool_decide (p ∈ l))) (Peers (mb_cfg s)).
Proof.
  revert s. induction l as [|a l IH]; intros s Ht; cbn [fold_left].
  - induction (Peers (mb_cfg s)) as [|p ps IHp]; [done|]. cbn. by f_equal.
  - apply Forall_cons in Ht as [Ha Ht]. rewrite IH, removed_peers, Ha by done. clear. induction (Peers (mb_cfg s)) as [|p ps IHp]; [done|]. cbn.
    destruct (String.eqb_spec p a) as [->|Hp]; cbn.
    + by rewrite bool_decide_true by set_solver.
    + rewrite (bool_decide_ext (p ∈ a :: l) (p ∈ l)) by set_solver. destruct (bool_decide (p ∈ l)); cbn; by rewrite IHp.
Qed.

Lemma filter_length_out {A} `{EqDecision A} (ps l : list A) : NoDup ps -> sublist l ps ->
  (List.length (List.filter (fun p => negb (bool_decide (p ∈ l))) ps) + List.length l = List.length ps)%nat.
Proof.
  intros Hn Hs. induction Hs as [|x l ps Hs IH|x l ps Hs IH]; [done| |]; apply NoDup_cons in Hn as [Hx Hn]; cbn [List.filter List.length].
  - rewrite bool_decide_true by set_solver. cbn [negb]. rewrite <- (IH Hn).
    assert (List.filter (fun p => negb (bool_decide (p ∈ x :: l))) ps = List.filter (fun p => negb (bool_decide (p ∈ l))) ps) as ->; [|lia].
    clear -Hx. induction ps as [|p ps IHp]; [done|]. cbn. apply not_elem_of_cons in Hx as [Hp Hx]. rewrite IHp by done.
    by rewrite (bool_decide_ext (p ∈ x :: l) (p ∈ l)) by set_solver.
  - rewrite bool_decide_false; [cbn [negb List.length]; rewrite <- (IH Hn); lia|]. intros Hin. apply Hx. by eapply elem_of_sublist.
Qed.

(** C32: Forgetting is safe whatever the reason it is done for: only peers recorded as discovered or
    learned, and that the reason applies to, are dropped; every other peer, and so every address recorded as coming
    from the configuration or an operator, stays, in its place; and a node that knows a peer never forgets its last one.
    What the file names is recorded when the node starts, not when it is reloaded ([reloaded_peer_is_forgotten]). *)
Theorem forget_safe want c s l s' : membersInv s -> forget want c s = (l, s') ->
  Peers (mb_cfg s') = List.filter (fun p => negb (bool_decide (p ∈ l))) (Peers (mb_cfg s)) /\
  Forall (fun a => exists m, mb_meta s !! NormalizePeerAddr a = Some m /\ forgettable (pm_source m) = true /\
                             want m (bool_decide (NormalizePeerAddr a ∈ c)) = true) l /\
  (Peers (mb_cfg s) <> [] -> Peers (mb_cfg s') <> []).
Proof.
  intros [_ Ht Hd]. unfold forget, forgetCandidates, ConfigPeerAddrs. destruct (forgetLoop _ _ _ _ _) as [drop meta] eqn:E. intros [= <- <-].
  destruct (forgetLoop_spec _ _ _ _ _ _ _ E) as (_ & Hs & Hlen & HF).
  assert (Peers (mb_cfg (fold_left (fun s a => RemovePeer a s) drop (setMeta meta s))) = List.filter (fun p => negb (bool_decide (p ∈ drop))) (Peers (mb_cfg s))) as Hp
    by (rewrite removeAll_peers; [done|by eapply Forall_sublist]).
  rewrite Hp. split_and!; [done|done|]. intros Hne Hnil.
  pose proof (filter_length_out (Peers (mb_cfg s)) drop (NoDup_fmap_1 _ _ Hd) Hs) as Hl. rewrite Hnil in Hl. cbn in Hl.
  destruct (Peers (mb_cfg s)) as [|p ps]; [done|]. cbn in *. lia.
Qed.

(** ** A peer removed and added again at once is no longer dialled *)

Definition demoMembers : Members := mkMembers "n1" "10.0.0.1:7379" (setPeers ["10.0.0.9:7379"%string] zeroConfig) ∅ (Some {["10.0.0.9:7379"%string := false]}).

(** A peer that is removed and added back before its dial loop has wound down stays configured but is
    never dialled again: the new loop is not started because the old one is still on record, and the
    record goes when the old loop ends. *)
Theorem readded_peer_is_not_dialled :
  let a := "10.0.0.2:7379"%string in
  let s1 := snd (AddPeer 0 a demoMembers) in
  let s2 := RemovePeer a s1 in
  let '(err, s3) := AddPeer 0 a s2 in
  let s4 := dialEnds a s3 in
  err = None /\ (a ∈ Peers (mb_cfg s4)) /\ (mb_dial s4 ≫= (.!! a)) = None.
Proof. vm_compute. split; [done|]. split; [set_solver|done]. Qed.

(** ** What a reload leaves as it was *)

(** A peer that was learned and that the operator then puts into the file is still recorded as learned after a hot
    reload, and is forgotten like one. *)
Lemma reloaded_peer_is_forgotten :
  let a := "10.0.0.2:7379"%string in
  let s := snd (AddPeerFrom 0 a SourceLearned demoMembers) in
  let s' := reloadMembers (setPeers ["10.0.0.9:7379"%string; a] zeroConfig) s in
  let '(l, s2) := ForgetUnreachablePeers (100 * Second) (10 * Second) ∅ s' in
  PeerSourceOf a s' = Some SourceLearned /\ l = [a] /\ Peers (mb_cfg s2) = ["10.0.0.9:7379"%string].
Proof. vm_compute. done. Qed.

(** A file that names one endpoint twice, in two spellings, loads. *)
Lemma repeated_peer_is_accepted : exists c, @Load demoFS (inr (fileConfig ["node-a:7379"; "NODE-A:7379"]%string)) = inr c /\
  ~ NoDup (map NormalizePeerAddr (Peers c)).
Proof.
  eexists. split; [vm_compute; reflexivity|]. vm_compute. intros [Hn _]%NoDup_cons. apply Hn. set_solver.
Qed.

(** ** Witnesses *)

Definition demoForget : Members :=
  mkMembers "n1" "10.0.0.1:7379" (setPeers ["10.0.0.2:7379"; "10.0.0.3:7379"]%string zeroConfig)
    {["10.0.0.2:7379"%string := mkMeta "10.0.0.2:7379" SourceLearned 0 0; "10.0.0.3:7379"%string := mkMeta "10.0.0.3:7379" SourceLearned 0 0]} (Some ∅).

Lemma demoForget_inv : membersInv demoForget.
Proof. constructor; cbn; [repeat constructor..|]. apply NoDup_cons. split; [by vm_compute; set_solver|apply NoDup_singleton]. Qed.

Lemma peers_valid_distinct_witness :
  let s := reloadMembers (setPeers ["10.0.0.5:7379"%string] zeroConfig) (snd (AddPeerFrom 0 " 10.0.0.4:7379" SourceDiscovery demoForget)) in
  Forall dialable (Peers (mb_cfg s)) /\ NoDup (map NormalizePeerAddr (Peers (mb_cfg s))).
Proof.
  intros s. apply (peers_valid_distinct demoForget s demoForget_inv). eapply mr_step; [eapply mr_step; [apply mr_here|apply ms_add]|].
  apply ms_reload. split_and!; [repeat constructor..|apply NoDup_singleton].
Defined.

Lemma forget_safe_witness :
  let want := fun (_ : peerMeta) (_ : bool) => true in
  let '(l, s') := forget want ∅ demoForget in
  Peers (mb_cfg s') = List.filter (fun p => negb (bool_decide (p ∈ l))) (Peers (mb_cfg demoForget)) /\
  Forall (fun a => exists m, mb_meta demoForget !! NormalizePeerAddr a = Some m /\ forgettable (pm_source m) = true /\
                             want m (bool_decide (NormalizePeerAddr a ∈ (∅ : gset string))) = true) l /\
  (Peers (mb_cfg demoForget) <> [] -> Peers (mb_cfg s') <> []).
Proof.
  intros want. destruct (forget want ∅ demoForget) as [l s'] eqn:E. exact (forget_safe want ∅ demoForget l s' demoForget_inv E).
Defined.
