(* ===== verification/PeerAuth.v ===== *)
(** * Package [peer], part 6: authentication
    (internal/peer/auth_crypto.go and both sides of the handshake in service.go).

    A side of the handshake is a function of the bytes the other side sends: what it writes, whom it
    met or why it failed, and the bytes left.  Writing does not fail; an error reply that cannot be
    encoded is not sent, as in the source. *)

From S2P Require Import Prelude GoInt GoStr GoTime GoSort Resp Config Json GoNet GoCrypto ConfigValid StoreBase Repl PeerWire.

Definition CapCluster : string := "cluster".
Definition CapDuplex : string := "duplex".
Definition clusterBindTag : string := "|supercache-cluster|".

Definition authCaps (clusterID : string) : list string := if sempty (TrimSpace clusterID) then [] else [CapCluster].
Definition localCaps : list string := [CapDuplex].

Definition hasCap (caps : list string) (want : string) : bool := existsb (fun c => EqualFold (TrimSpace c) want) caps.

Definition bindClusterID (peerCaps : list string) (clusterID : string) : string :=
  let clusterID := TrimSpace clusterID in
  if sempty clusterID || negb (hasCap peerCaps CapCluster) then EmptyString else clusterID.

Record peerIdentity := mkIdentity { id_NodeID : string; id_Advertise : string; id_Duplex : bool; id_Cluster : bool; id_Version : Z }.

Definition peerHMAC (secret nonce clusterID : string) : string :=
  hmacSHA256 secret (if sempty clusterID then nonce else nonce +++ clusterBindTag +++ clusterID).

Definition peerHMACHex (secret nonce clusterID : string) : string := hexEncode (peerHMAC secret nonce clusterID).

(** The constant-time comparison tells whether the bytes are equal. *)
Definition verifyPeerHMAC (secret hmacHex nonce clusterID : string) : bool :=
  let want := peerHMAC secret nonce clusterID in
  match hexDecode hmacHex with
  | None => false
  | Some got => if negb (len got =? len want) then false else (want =? got)%string
  end.

(** ** The node's side *)

(** What a handshake uses of [Service]: [s.nodeID], [s.AdvertiseAddr()] and the configuration. *)
Record Node := mkNode { nd_nodeID : string; nd_advertise : string; nd_cfg : Config }.

Definition message (typ nodeID : string) (payload : json) : PeerMessage := mkMsg 1 typ nodeID 0 0 (Some payload).

(** A write whose error is ignored. *)
Definition send (out : string) (msg : PeerMessage) : string := match WriteMessage out msg with inr out => out | inl _ => out end.

Definition sendHelloAck (out : string) (ack : wireHelloAck) : string := send out (message MsgTypeHelloAck EmptyString (helloAckJSON ack)).
Definition sendAck (out : string) (ack : wireAck) : string := send out (message MsgTypeAck EmptyString (ackJSON ack)).

Definition refusal (ver : Z) (why : string) : wireHelloAck :=
  mkHelloAck wireOpHelloAck false ver EmptyString why EmptyString EmptyString [].

Definition versionOK (v : Z) : bool := negb ((v <? MinPeerProtocolVersion) || (v >? PeerProtocolVersion)).

Definition orElse (a b : string) : string := if sempty a then b else a.

(** What a side says about itself, the capabilities it was asked to offer included. *)
Definition helloOf (caps : list string) (n : Node) : wireHello :=
  mkHello wireOpHello PeerProtocolVersion (nd_nodeID n) (nd_advertise n) (caps ++ authCaps (ClusterID (nd_cfg n))).
Definition challengeOf (nonce : string) (n : Node) : wireHelloAck :=
  mkHelloAck wireOpHelloAck true PeerProtocolVersion (hexEncode nonce) EmptyString (nd_nodeID n) (nd_advertise n)
    (localCaps ++ authCaps (ClusterID (nd_cfg n))).

(** ** Accepting *)

(** The first half: a HELLO that can be answered gives the peer's identity and capabilities. *)
Definition acceptHello (msg : PeerMessage) : (wireHelloAck * error) + (peerIdentity * list string) :=
  let msg := NormalizePeerMessage msg in
  if negb (m_Type msg =? MsgTypeHello)%string then inl (refusal 0 "expected HELLO", New "expected HELLO")
  else match Unmarshal zeroHello helloFields (m_Payload msg) with
       | (_, false) => inl (refusal 0 "invalid HELLO", New "hello json: invalid json")
       | (hello, true) =>
           if negb (EqualFold (h_Op hello) wireOpHello) then inl (refusal 0 "expected HELLO", New "expected HELLO")
           else if negb (versionOK (h_Ver hello)) then
             inl (refusal PeerProtocolVersion "unsupported protocol version", New "unsupported protocol version")
           else inr (mkIdentity (orElse (TrimSpace (h_NodeID hello)) (TrimSpace (m_NodeID msg))) (TrimSpace (h_Advertise hello))
                       (hasCap (h_Caps hello) CapDuplex) (hasCap (h_Caps hello) CapCluster) (h_Ver hello), h_Caps hello)
       end.

(** The second half: the reason to refuse the proof, for the peer and for the log. *)
Definition checkProof (cfg : Config) (nonce : string) (caps : list string) (msg : PeerMessage) : option (string * error) :=
  let msg := NormalizePeerMessage msg in
  if negb (m_Type msg =? MsgTypeAuth)%string then Some ("invalid auth frame"%string, New "expected AUTH")
  else match Unmarshal zeroProof proofFields (m_Payload msg) with
       | (_, false) => Some ("invalid auth frame"%string, New "auth proof json: invalid json")
       | (proof, true) =>
           if negb (EqualFold (a_Op proof) wireOpAuth) || negb (versionOK (a_Ver proof)) then
             Some ("bad auth"%string, New "bad auth proof")
           else if negb (verifyPeerHMAC (SharedSecret cfg) (a_Hmac proof) nonce (bindClusterID caps (ClusterID cfg))) then
             Some ("bad auth"%string, New "hmac mismatch")
           else None
       end.

Definition runInboundHandshakeInfo (n : Node) (nonce : res string) (s : stream) : string * res peerIdentity * stream :=
  let fail err := inl (wrapErr "peer handshake: " err) in
  match ReadMessage s with
  | (inl err, s) => (EmptyString, fail err, s)
  | (inr msg, s) =>
      match acceptHello msg with
      | inl (ack, err) => (sendHelloAck EmptyString ack, inl err, s)
      | inr (id, caps) =>
          match nonce with
          | inl err => (EmptyString, inl err, s)
          | inr nonce =>
              match WriteMessage EmptyString (message MsgTypeHelloAck EmptyString (helloAckJSON (challengeOf nonce n))) with
              | inl err => (EmptyString, fail err, s)
              | inr out =>
                  match ReadMessage s with
                  | (inl err, s) => (out, fail err, s)
                  | (inr msg2, s) =>
                      match checkProof (nd_cfg n) nonce caps msg2 with
                      | Some (why, err) => (sendAck out (mkAck false why), inl err, s)
                      | None =>
                          match WriteMessage out (message MsgTypeAck EmptyString (ackJSON (mkAck true EmptyString))) with
                          | inl err => (out, fail err, s)
                          | inr out => (out, inr id, s)
                          end
                      end
                  end
              end
          end
      end
  end.

(** ** Dialling *)

(** The challenge in the reply to our HELLO: its nonce and the peer's capabilities and identity. *)
Definition readChallenge (msg : PeerMessage) : res (string * wireHelloAck * PeerMessage) :=
  let msg := NormalizePeerMessage msg in
  if negb (m_Type msg =? MsgTypeHelloAck)%string then inl (New "peer: expected HELLO_ACK")
  else match Unmarshal zeroHelloAck helloAckFields (m_Payload msg) with
       | (_, false) => inl (New "hello_ack: invalid json")
       | (ack, true) =>
           if negb (EqualFold (ha_Op ack) wireOpHelloAck) then inl (New "peer: expected HELLO_ACK")
           else if negb (ha_OK ack) || negb (sempty (ha_Err ack)) then
             inl (New (if sempty (ha_Err ack) then "peer hello failed"%string else "peer hello: " +++ ha_Err ack))
           else match hexDecode (ha_Nonce ack) with
                | None => inl (New "peer nonce: invalid hex")
                | Some nonce => inr (nonce, ack, msg)
                end
       end.

Definition readVerdict (msg : PeerMessage) : option error :=
  let msg := NormalizePeerMessage msg in
  if negb (m_Type msg =? MsgTypeAck)%string then Some (New "peer: expected ACK after AUTH")
  else match Unmarshal zeroAck ackFields (m_Payload msg) with
       | (_, false) => Some (New "auth ack: invalid json")
       | (final, true) =>
           if negb (k_OK final) || negb (sempty (k_Err final)) then
             Some (New (if sempty (k_Err final) then "peer auth failed"%string else "peer auth: " +++ k_Err final))
           else None
       end.

Definition proofOf (n : Node) (nonce : string) (caps : list string) : wireAuthProof :=
  mkProof wireOpAuth PeerProtocolVersion (peerHMACHex (SharedSecret (nd_cfg n)) nonce (bindClusterID caps (ClusterID (nd_cfg n)))).

Definition handshakeOutCaps (n : Node) (caps : list string) (s : stream) : string * res peerIdentity * stream :=
  let fail err := inl (wrapErr "peer handshake: " err) in
  match WriteMessage EmptyString (message MsgTypeHello (nd_nodeID n) (helloJSON (helloOf caps n))) with
  | inl err => (EmptyString, fail err, s)
  | inr out =>
      match ReadMessage s with
      | (inl err, s) => (out, fail err, s)
      | (inr msg, s) =>
          match readChallenge msg with
          | inl err => (out, inl err, s)
          | inr (nonce, ack, msg) =>
              match WriteMessage out (message MsgTypeAuth (nd_nodeID n) (proofJSON (proofOf n nonce (ha_Caps ack)))) with
              | inl err => (out, fail err, s)
              | inr out =>
                  match ReadMessage s with
                  | (inl err, s) => (out, fail err, s)
                  | (inr msg3, s) =>
                      match readVerdict msg3 with
                      | Some err => (out, inl err, s)
                      | None =>
                          (out, inr (mkIdentity (orElse (TrimSpace (ha_NodeID ack)) (TrimSpace (m_NodeID msg))) (TrimSpace (ha_Advertise ack))
                                       (hasCap (ha_Caps ack) CapDuplex) (hasCap (ha_Caps ack) CapCluster) (ha_Ver ack)), s)
                      end
                  end
              end
          end
      end
  end.

(** [handshakeOutInfo]. *)
Definition handshakeOutInfo (n : Node) : stream -> string * res peerIdentity * stream := handshakeOutCaps n localCaps.
