(* ===== verification/PeerAuthSpec.v ===== *)
(** * The handshake: honest nodes of one cluster meet, and nobody else gets in. *)

From S2P Require Import Prelude GoInt GoStr GoTime GoSort Resp RespSpec Config Json JsonSpec GoNet GoCrypto ConfigValid StoreBase.
From S2P Require Import Repl PeerWire PeerWireSpec PeerAuth.

(** ** Frames *)

Definition fits (m : PeerMessage) : Prop := len (print (msgJSON m)) <= MaxPeerPayload.
Definition frame (m : PeerMessage) : string :=
  putUint32 PeerMagic +++ putUint32 (len (print (msgJSON m))) +++ print (msgJSON m).

Lemma WriteMessage_frame w m : fits m -> WriteMessage w m = inr (w +++ frame m).
Proof.
  unfold fits, WriteMessage, frame. intros Hf. destruct (_ >? _) eqn:E; [zify_bool; lia|]. by rewrite !sapp_assoc.
Qed.

Lemma ReadMessage_frame d m r e : wfMsg m -> wfText d m -> Z.of_nat (S d) <= maxNestingDepth -> fits m ->
  ReadMessage (mkStream (frame m +++ r) e) = (inr m, mkStream r e).
Proof. intros. unfold frame. rewrite !sapp_assoc. by apply (read_frame d m). Qed.

(** ** Payloads *)

Lemma unmarshal_hello h : is_int64 (h_Ver h) = true -> Unmarshal zeroHello helloFields (Some (helloJSON h)) = (h, true).
Proof.
  destruct h as [op ver nid adv caps]. intros Hv. unfold Unmarshal, dStruct, helloJSON, zeroHello.
  cbn [app h_Op h_Ver h_NodeID h_Advertise h_Caps] in *.
  do 4 (next; cbn [h_Op h_Ver h_NodeID h_Advertise h_Caps]). rewrite unless_last. by next.
Qed.

Lemma unmarshal_helloAck h : is_int64 (ha_Ver h) = true -> Unmarshal zeroHelloAck helloAckFields (Some (helloAckJSON h)) = (h, true).
Proof.
  destruct h as [op ok ver nonce err nid adv caps]. intros Hv. unfold Unmarshal, dStruct, helloAckJSON, zeroHelloAck.
  cbn [app ha_Op ha_OK ha_Ver ha_Nonce ha_Err ha_NodeID ha_Advertise ha_Caps] in *.
  do 7 (next; cbn [ha_Op ha_OK ha_Ver ha_Nonce ha_Err ha_NodeID ha_Advertise ha_Caps]). rewrite unless_last. by next.
Qed.

Lemma unmarshal_proof p : is_int64 (a_Ver p) = true -> Unmarshal zeroProof proofFields (Some (proofJSON p)) = (p, true).
Proof.
  destruct p as [op ver mac]. intros Hv. unfold Unmarshal, dStruct, proofJSON, zeroProof. cbn [a_Op a_Ver a_Hmac] in *.
  by do 3 (next; cbn [a_Op a_Ver a_Hmac]).
Qed.

Lemma unmarshal_ack k : Unmarshal zeroAck ackFields (Some (ackJSON k)) = (k, true).
Proof. destruct k as [[] [|c err]]; reflexivity. Qed.

Lemma hexDigit_spec n : 0 <= n < 16 -> hexVal (hexDigit n) = Some n /\ code (hexDigit n) <? 0x80 = true.
Proof.
  intros Hn. assert (In n [0; 1; 2; 3; 4; 5; 6; 7; 8; 9; 10; 11; 12; 13; 14; 15]) as Hin by (cbn; lia).
  repeat (destruct Hin as [<-|Hin]; [by vm_compute|]). destruct Hin.
Qed.
Lemma hexVal_hexDigit n : 0 <= n < 16 -> hexVal (hexDigit n) = Some n.
Proof. intros. by apply hexDigit_spec. Qed.
Lemma hexDigit_ascii n : 0 <= n < 16 -> code (hexDigit n) <? 0x80 = true.
Proof. intros. by apply hexDigit_spec. Qed.

Lemma hexEncode_ascii s : utf8 (hexEncode s) = true.
Proof.
  apply text_utf8. induction s as [|c s IH]; [done|]. cbn [hexEncode sall]. pose proof (code_range c).
  rewrite !hexDigit_ascii by (Z.to_euclidean_division_equations; lia). done.
Qed.

Lemma hexDecode_hexEncode s : hexDecode (hexEncode s) = Some s.
Proof.
  induction s as [|c s IH]; [done|]. cbn [hexEncode hexDecode]. pose proof (code_range c).
  rewrite !hexVal_hexDigit by (Z.to_euclidean_division_equations; lia). rewrite IH. do 2 f_equal.
  apply code_inj. rewrite code_chr; Z.to_euclidean_division_equations; lia.
Qed.

(** ** Messages of the handshake *)

(** A side whose texts JSON carries. *)
Definition speaks (n : Node) : Prop := utf8 (nd_nodeID n) = true /\ utf8 (nd_advertise n) = true.

Lemma caps_utf8 caps n : Forall (fun s => utf8 s = true) caps -> Forall (fun s => utf8 s = true) (caps ++ authCaps (ClusterID (nd_cfg n))).
Proof. intros. apply Forall_app_2; [done|]. unfold authCaps. destruct (sempty _); repeat constructor. Qed.

Lemma wfText_message typ nodeID p : utf8 typ = true -> utf8 nodeID = true -> wfJson 2 p -> wfText 2 (message typ nodeID p).
Proof. intros. split_and!; [done|done|]. by intros ? [= <-]. Qed.

Lemma wfMsg_message typ nodeID p : wfMsg (message typ nodeID p).
Proof. split_and!; done. Qed.

Lemma wf_hello h : is_int64 (h_Ver h) = true -> utf8 (h_Op h) = true -> utf8 (h_NodeID h) = true -> utf8 (h_Advertise h) = true ->
  Forall (fun s => utf8 s = true) (h_Caps h) -> wfJson 2 (helloJSON h).
Proof. intros. apply wf_obj. cbn [app]. rewrite (unless_last (bool_decide (h_Caps h = []))). do 5 wfMember. done. Qed.

Lemma wf_helloAck h : is_int64 (ha_Ver h) = true -> utf8 (ha_Op h) = true -> utf8 (ha_Nonce h) = true -> utf8 (ha_Err h) = true ->
  utf8 (ha_NodeID h) = true -> utf8 (ha_Advertise h) = true -> Forall (fun s => utf8 s = true) (ha_Caps h) -> wfJson 2 (helloAckJSON h).
Proof. intros. apply wf_obj. cbn [app]. rewrite (unless_last (bool_decide (ha_Caps h = []))). do 8 wfMember. done. Qed.

Lemma wf_proof p : is_int64 (a_Ver p) = true -> utf8 (a_Op p) = true -> utf8 (a_Hmac p) = true -> wfJson 2 (proofJSON p).
Proof. intros. apply wf_obj. do 3 wfMember. done. Qed.

Lemma wf_ack k : utf8 (k_Err k) = true -> wfJson 2 (ackJSON k).
Proof. intros. apply wf_obj. rewrite (unless_last (sempty (k_Err k))). do 2 wfMember. done. Qed.

Lemma ReadMessage_message typ nodeID p r e : utf8 typ = true -> utf8 nodeID = true -> wfJson 2 p -> fits (message typ nodeID p) ->
  ReadMessage (mkStream (frame (message typ nodeID p) +++ r) e) = (inr (message typ nodeID p), mkStream r e).
Proof. intros. apply (ReadMessage_frame 2); [apply wfMsg_message|by apply wfText_message|done|done]. Qed.

(** ** The exchange of two nodes *)

Section exchange.
Context (n1 n2 : Node) (caps : list string) (nonce : string).

Definition caps1 : list string := caps ++ authCaps (ClusterID (nd_cfg n1)).
Definition caps2 : list string := localCaps ++ authCaps (ClusterID (nd_cfg n2)).

Definition helloMsg : PeerMessage := message MsgTypeHello (nd_nodeID n1) (helloJSON (helloOf caps n1)).
Definition challengeMsg : PeerMessage := message MsgTypeHelloAck EmptyString (helloAckJSON (challengeOf nonce n2)).
Definition authMsg : PeerMessage := message MsgTypeAuth (nd_nodeID n1) (proofJSON (proofOf n1 nonce caps2)).
Definition verdictMsg (ok : bool) : PeerMessage :=
  message MsgTypeAck EmptyString (ackJSON (if ok then mkAck true EmptyString else mkAck false "bad auth")).

(** Both sides computed the same proof. *)
Definition agree : bool :=
  (peerHMAC (SharedSecret (nd_cfg n2)) nonce (bindClusterID caps1 (ClusterID (nd_cfg n2))) =?
   peerHMAC (SharedSecret (nd_cfg n1)) nonce (bindClusterID caps2 (ClusterID (nd_cfg n1))))%string.

Definition identityOf (n : Node) (offered : list string) : peerIdentity :=
  mkIdentity (TrimSpace (nd_nodeID n)) (TrimSpace (nd_advertise n)) (hasCap offered CapDuplex) (hasCap offered CapCluster) PeerProtocolVersion.

Record honest : Prop := {
  ho_dialer : speaks n1;
  ho_acceptor : speaks n2;
  ho_caps : Forall (fun s => utf8 s = true) caps;
  ho_hello : fits helloMsg;
  ho_challenge : fits challengeMsg;
  ho_auth : fits authMsg;
}.

Lemma fits_verdict ok : fits (verdictMsg ok).
Proof. destruct ok; vm_compute; discriminate. Qed.

Lemma verify_agree : verifyPeerHMAC (SharedSecret (nd_cfg n2)) (peerHMACHex (SharedSecret (nd_cfg n1)) nonce (bindClusterID caps2 (ClusterID (nd_cfg n1))))
    nonce (bindClusterID caps1 (ClusterID (nd_cfg n2))) = agree.
Proof.
  unfold verifyPeerHMAC, peerHMACHex. rewrite hexDecode_hexEncode. unfold peerHMAC at 1 2, len. by rewrite !hmac_length.
Qed.

Lemma orElse_same s : orElse s s = s.
Proof. unfold orElse. by destruct (sempty s). Qed.

Lemma accept_hello : acceptHello helloMsg = inr (identityOf n1 caps1, caps1).
Proof.
  unfold acceptHello. change (NormalizePeerMessage helloMsg) with helloMsg. change (m_Payload helloMsg) with (Some (helloJSON (helloOf caps n1))).
  rewrite unmarshal_hello by done. unfold identityOf. cbn [h_NodeID h_Advertise h_Caps h_Ver h_Op helloOf]. by rewrite orElse_same.
Qed.

Lemma check_auth : checkProof (nd_cfg n2) nonce caps1 authMsg = if agree then None else Some ("bad auth"%string, New "hmac mismatch").
Proof.
  unfold checkProof. change (NormalizePeerMessage authMsg) with authMsg. change (m_Payload authMsg) with (Some (proofJSON (proofOf n1 nonce caps2))).
  rewrite unmarshal_proof by done. cbn [a_Hmac proofOf a_Op a_Ver]. rewrite verify_agree. by destruct agree.
Qed.

Lemma read_challenge : readChallenge challengeMsg = inr (nonce, challengeOf nonce n2, challengeMsg).
Proof.
  unfold readChallenge. change (NormalizePeerMessage challengeMsg) with challengeMsg. change (m_Payload challengeMsg) with (Some (helloAckJSON (challengeOf nonce n2))).
  rewrite unmarshal_helloAck by done. cbn [ha_OK ha_Err ha_Nonce ha_Op challengeOf]. by rewrite hexDecode_hexEncode.
Qed.

Lemma read_verdict ok : readVerdict (verdictMsg ok) = if ok then None else Some (New "peer auth: bad auth").
Proof. by destruct ok. Qed.

Lemma rd_hello r e : honest -> ReadMessage (mkStream (frame helloMsg +++ r) e) = (inr helloMsg, mkStream r e).
Proof.
  intros [[Hn Ha] _ Hc Hf _ _]. apply ReadMessage_message; [done|done| |done]. apply wf_hello; try done. by apply caps_utf8.
Qed.
Lemma rd_challenge r e : honest -> ReadMessage (mkStream (frame challengeMsg +++ r) e) = (inr challengeMsg, mkStream r e).
Proof.
  intros [_ [Hn Ha] _ _ Hf _]. apply ReadMessage_message; [done|done| |done]. apply wf_helloAck; try done; [apply hexEncode_ascii|].
  apply caps_utf8. repeat constructor.
Qed.
Lemma rd_auth r e : honest -> ReadMessage (mkStream (frame authMsg +++ r) e) = (inr authMsg, mkStream r e).
Proof. intros [[Hn Ha] _ _ _ _ Hf]. apply ReadMessage_message; [done|done| |done]. apply wf_proof; [done|done|apply hexEncode_ascii]. Qed.
Lemma rd_verdict ok r e : ReadMessage (mkStream (frame (verdictMsg ok) +++ r) e) = (inr (verdictMsg ok), mkStream r e).
Proof. apply ReadMessage_message; [done|done|apply wf_ack; by destruct ok|apply fits_verdict]. Qed.

Lemma exchange_outcome r1 r2 e : honest ->
  runInboundHandshakeInfo n2 (inr nonce) (mkStream (frame helloMsg +++ frame authMsg +++ r1) e) =
    (frame challengeMsg +++ frame (verdictMsg agree), if agree then inr (identityOf n1 caps1) else inl (New "hmac mismatch"), mkStream r1 e) /\
  handshakeOutCaps n1 caps (mkStream (frame challengeMsg +++ frame (verdictMsg agree) +++ r2) e) =
    (frame helloMsg +++ frame authMsg, if agree then inr (identityOf n2 caps2) else inl (New "peer auth: bad auth"), mkStream r2 e).
Proof.
  intros Hh. pose proof Hh as [_ _ _ Hf1 Hf2 Hf3]. split.
  - unfold runInboundHandshakeInfo. rewrite rd_hello by done. rewrite accept_hello.
    rewrite (WriteMessage_frame _ challengeMsg) by done. rewrite sapp_nil_l, rd_auth by done. rewrite check_auth.
    destruct agree.
    + by rewrite (WriteMessage_frame _ (verdictMsg true)) by apply (fits_verdict true).
    + unfold sendAck, send. by rewrite (WriteMessage_frame _ (verdictMsg false)) by apply (fits_verdict false).
  - unfold handshakeOutCaps. rewrite (WriteMessage_frame _ helloMsg) by done. rewrite sapp_nil_l, rd_challenge by done.
    rewrite read_challenge. cbn [ha_Caps challengeOf]. fold caps2. rewrite (WriteMessage_frame _ authMsg) by done.
    rewrite rd_verdict, read_verdict. destruct agree; [|done]. unfold identityOf. cbn [ha_NodeID ha_Advertise ha_Caps ha_Ver challengeOf m_NodeID challengeMsg message]. fold caps2.
    unfold orElse. by destruct (TrimSpace (nd_nodeID n2)).
Qed.
End exchange.

(** ** What the handshake guarantees *)

(** Neither side names a cluster, or both name the same. *)
Definition compatible (c1 c2 : Config) : Prop :=
  TrimSpace (ClusterID c1) = EmptyString \/ TrimSpace (ClusterID c2) = EmptyString \/ TrimSpace (ClusterID c1) = TrimSpace (ClusterID c2).

Lemma hasCap_auth caps c : hasCap caps CapCluster = false -> hasCap (caps ++ authCaps c) CapCluster = negb (sempty (TrimSpace c)).
Proof. intros Hc. unfold hasCap in *. rewrite existsb_app, Hc. unfold authCaps. by destruct (sempty (TrimSpace c)). Qed.

Lemma agree_same n1 n2 caps nonce : SharedSecret (nd_cfg n1) = SharedSecret (nd_cfg n2) -> compatible (nd_cfg n1) (nd_cfg n2) ->
  hasCap caps CapCluster = false -> agree n1 n2 caps nonce = true.
Proof.
  intros Hs Hc Hcaps. unfold agree, caps1, caps2. apply String.eqb_eq. rewrite Hs. f_equal. unfold bindClusterID.
  rewrite !hasCap_auth, !negb_involutive by done.
  unfold compatible in Hc. destruct (TrimSpace (ClusterID (nd_cfg n1))), (TrimSpace (ClusterID (nd_cfg n2))); cbn [sempty orb]; try done.
  by destruct Hc as [|[|]].
Qed.

(** C30: Two nodes of one cluster always meet: whatever session capabilities the dialler offers, when the
    secrets are equal and the cluster names do not contradict each other, each side, run on exactly
    the bytes the other writes, authenticates the other, learns its identity and address, and leaves
    the bytes that follow unread. *)
Theorem handshake_completes n1 n2 caps nonce r1 r2 e : honest n1 n2 caps nonce ->
  SharedSecret (nd_cfg n1) = SharedSecret (nd_cfg n2) -> compatible (nd_cfg n1) (nd_cfg n2) -> hasCap caps CapCluster = false ->
  exists sent1 sent2,
    runInboundHandshakeInfo n2 (inr nonce) (mkStream (sent1 +++ r1) e) = (sent2, inr (identityOf n1 (caps1 n1 caps)), mkStream r1 e) /\
    handshakeOutCaps n1 caps (mkStream (sent2 +++ r2) e) = (sent1, inr (identityOf n2 (caps2 n2)), mkStream r2 e).
Proof.
  intros Hh Hs Hc Hcaps. destruct (exchange_outcome n1 n2 caps nonce r1 r2 e Hh) as [H1 H2]. rewrite (agree_same n1 n2) in H1, H2 by done.
  exists (frame (helloMsg n1 caps) +++ frame (authMsg n1 n2 nonce)), (frame (challengeMsg n2 nonce) +++ frame (verdictMsg true)).
  by rewrite !sapp_assoc.
Qed.

(** C31: Nodes whose proofs differ, for a wrong secret or another cluster, both fail, with the same error
    in either case, so that a stranger learns nothing about the cluster's name. *)
Theorem handshake_refuses n1 n2 caps nonce r1 r2 e : honest n1 n2 caps nonce -> agree n1 n2 caps nonce = false ->
  exists sent1 sent2,
    runInboundHandshakeInfo n2 (inr nonce) (mkStream (sent1 +++ r1) e) = (sent2, inl (New "hmac mismatch"), mkStream r1 e) /\
    handshakeOutCaps n1 caps (mkStream (sent2 +++ r2) e) = (sent1, inl (New "peer auth: bad auth"), mkStream r2 e).
Proof.
  intros Hh Ha. destruct (exchange_outcome n1 n2 caps nonce r1 r2 e Hh) as [H1 H2]. rewrite Ha in H1, H2.
  exists (frame (helloMsg n1 caps) +++ frame (authMsg n1 n2 nonce)), (frame (challengeMsg n2 nonce) +++ frame (verdictMsg false)).
  by rewrite !sapp_assoc.
Qed.

(** C23: Whatever bytes a connection brings, the acceptor takes the peer in only after an AUTH message
    whose proof is the HMAC of this connection's nonce, and of the cluster's name when both sides have
    one, under the shared secret. *)
Theorem inbound_requires_proof n nonce s out id s' : runInboundHandshakeInfo n (inr nonce) s = (out, inr id, s') ->
  exists m1 s1 m2 caps proof, ReadMessage s = (inr m1, s1) /\ acceptHello m1 = inr (id, caps) /\
    ReadMessage s1 = (inr m2, s') /\ m_Type (NormalizePeerMessage m2) = MsgTypeAuth /\
    Unmarshal zeroProof proofFields (m_Payload (NormalizePeerMessage m2)) = (proof, true) /\
    hexDecode (a_Hmac proof) = Some (peerHMAC (SharedSecret (nd_cfg n)) nonce (bindClusterID caps (ClusterID (nd_cfg n)))).
Proof.
  unfold runInboundHandshakeInfo. destruct (ReadMessage s) as [[|m1] s1]; [done|]. destruct (acceptHello m1) as [[]|[id1 caps]] eqn:Ea; [done|].
  destruct (WriteMessage EmptyString _); [done|]. destruct (ReadMessage s1) as [[|m2] s2] eqn:Er; [done|].
  destruct (checkProof _ _ _ _) as [[]|] eqn:Ec; [done|]. destruct (WriteMessage _ _); [done|]. intros [= <- <- <-].
  unfold checkProof in Ec. cbv zeta in Ec. destruct (m_Type _ =? MsgTypeAuth)%string eqn:Et; cbn [negb] in Ec; [|done].
  destruct (Unmarshal _ _ _) as [proof []] eqn:Eu; [|done]. destruct (_ || _); [done|].
  destruct (verifyPeerHMAC _ _ _ _) eqn:Ev; cbn [negb] in Ec; [|done].
  exists m1, s1, m2, caps, proof. split_and!; try done; [by apply String.eqb_eq|].
  unfold verifyPeerHMAC in Ev. destruct (hexDecode _) as [got|]; [|done]. destruct (negb _); [done|]. apply String.eqb_eq in Ev. by rewrite Ev.
Qed.

(** ** Witnesses *)

Definition demoNode (id secret cluster : string) : Node :=
  mkNode id "10.0.0.1:7379" (let e := EmptyString in
    mkConfig e 0 e 0 [] e e e secret cluster e e e 0 e e e e 0 0 0 0 0 e e 0 false None 0 e e 0 e None None 0 0 e e e e e e e e e).

Lemma demo_honest : honest (demoNode "n1" "0123456789abcdef0123456789abcdef" "prod") (demoNode "n2" "0123456789abcdef0123456789abcdef" EmptyString) localCaps "nonce".
Proof. constructor; [by split|by split|by repeat constructor|vm_compute; discriminate..]. Qed.

Lemma handshake_completes_witness :
  let n1 := demoNode "n1" "0123456789abcdef0123456789abcdef" "prod" in
  let n2 := demoNode "n2" "0123456789abcdef0123456789abcdef" EmptyString in
  exists sent1 sent2,
    runInboundHandshakeInfo n2 (inr "nonce"%string) (mkStream (sent1 +++ "next") io_EOF) =
      (sent2, inr (identityOf n1 (caps1 n1 localCaps)), mkStream "next" io_EOF) /\
    handshakeOutCaps n1 localCaps (mkStream (sent2 +++ "more") io_EOF) = (sent1, inr (identityOf n2 (caps2 n2)), mkStream "more" io_EOF).
Proof. intros n1 n2. apply (handshake_completes n1 n2 localCaps "nonce" "next" "more" io_EOF demo_honest); [done|right; left; reflexivity|done]. Defined.

Lemma stranger_honest : honest (demoNode "n1" "a-guess-at-the-secret-of-another" "prod") (demoNode "n2" "0123456789abcdef0123456789abcdef" "prod") localCaps "nonce".
Proof. constructor; [by split|by split|by repeat constructor|vm_compute; discriminate..]. Qed.

Lemma handshake_refuses_witness :
  let n1 := demoNode "n1" "a-guess-at-the-secret-of-another" "prod" in
  let n2 := demoNode "n2" "0123456789abcdef0123456789abcdef" "prod" in
  exists sent1 sent2,
    runInboundHandshakeInfo n2 (inr "nonce"%string) (mkStream (sent1 +++ "next") io_EOF) = (sent2, inl (New "hmac mismatch"), mkStream "next" io_EOF) /\
    handshakeOutCaps n1 localCaps (mkStream (sent2 +++ "more") io_EOF) = (sent1, inl (New "peer auth: bad auth"), mkStream "more" io_EOF).
Proof.
  intros n1 n2. apply (handshake_refuses n1 n2 localCaps "nonce" "next" "more" io_EOF stranger_honest). vm_compute. reflexivity.
Defined.

Definition demoConversation : stream :=
  let n1 := demoNode "n1" "0123456789abcdef0123456789abcdef" "prod" in
  let n2 := demoNode "n2" "0123456789abcdef0123456789abcdef" EmptyString in
  mkStream (frame (helloMsg n1 localCaps) +++ frame (authMsg n1 n2 "nonce")) io_EOF.

Lemma inbound_requires_proof_witness :
  let n2 := demoNode "n2" "0123456789abcdef0123456789abcdef" EmptyString in
  exists m1 s1 m2 caps proof, ReadMessage demoConversation = (inr m1, s1) /\
    acceptHello m1 = inr (identityOf (demoNode "n1" "0123456789abcdef0123456789abcdef" "prod") ["duplex"; "cluster"]%string, caps) /\
    ReadMessage s1 = (inr m2, mkStream EmptyString io_EOF) /\ m_Type (NormalizePeerMessage m2) = MsgTypeAuth /\
    Unmarshal zeroProof proofFields (m_Payload (NormalizePeerMessage m2)) = (proof, true) /\
    hexDecode (a_Hmac proof) = Some (peerHMAC (SharedSecret (nd_cfg n2)) "nonce" (bindClusterID caps (ClusterID (nd_cfg n2)))).
Proof.
  intros n2. apply (inbound_requires_proof n2 "nonce" demoConversation (fst (fst (runInboundHandshakeInfo n2 (inr "nonce"%string) demoConversation)))).
  vm_compute. reflexivity.
Defined.
