(* ===== verification/PeerBoot.v ===== *)
(** * Package [peer], part 7: bootstrap
    (internal/peer/bootstrap.go, and the snapshot stream and the inbound buffer of service.go).

    Contexts are not cancelled and connections not closed from outside; progress counters are left out. *)

From S2P Require Import Prelude GoInt GoStr GoTime GoSort Resp Config Json GoNet GoCrypto ConfigValid StoreBase Eviction StoreString.
From S2P Require Import StoreHash StoreList StoreSet StoreKeys Repl PeerWire PeerMembers PeerAuth.

(** ** The buffer for writes that arrive during a pull *)

Record Boot := mkBoot { b_active : bool; b_buf : list wireRepl; b_maxCap : Z }.

Definition SetBootstrapInboundActive (active : bool) (maxCap : Z) (b : Boot) : Boot :=
  if active then mkBoot true (b_buf b) (if maxCap <? 1 then 1 else maxCap) else mkBoot false [] (b_maxCap b).

Definition enqueueBootstrapRepl (wr : wireRepl) (b : Boot) : option error * Boot :=
  let max := if b_maxCap b <? 1 then 1 else b_maxCap b in
  if Z.of_nat (List.length (b_buf b)) >=? max then (Some (New "bootstrap queue full"), b)
  else (None, mkBoot (b_active b) (b_buf b ++ [wr]) (b_maxCap b)).

Definition refuseBootstrapWhileSyncing (b : Boot) : bool := b_active b.

(** ** Serving a snapshot *)

Definition chunkMsg (nodeID : string) (ent : SnapshotEntry) : PeerMessage := message MsgTypeBootstrapChunk nodeID (snapJSON ent).
Definition doneMsg : PeerMessage := message MsgTypeBootstrapDone EmptyString (opJSON wireOpBootstrapEnd).

(** The entries a snapshot delivers, one frame each, then the end marker. *)
Fixpoint serveBootstrapSnapshot (nodeID : string) (out : string) (entries : list SnapshotEntry) : string * option error :=
  match entries with
  | [] => match WriteMessage out doneMsg with
          | inr out => (out, None)
          | inl err => (out, Some (wrapErr "peer bootstrap: " err))
          end
  | ent :: entries =>
      match WriteMessage out (chunkMsg nodeID ent) with
      | inr out => serveBootstrapSnapshot nodeID out entries
      | inl err => (out, Some (wrapErr "peer bootstrap: " err))
      end
  end.

Section pull.
Context `{MapOrder}.

(** ** Pulling a snapshot *)

(** [flush]: apply the batch in order. *)
Fixpoint flushBatch (batch : list SnapshotEntry) : M (option error) :=
  match batch with
  | [] => mret None
  | ent :: batch =>
      r ← ApplySnapshotEntry ent;
      match r with
      | Some err => mret (Some (wrapErr "bootstrap apply: " err))
      | None => flushBatch batch
      end
  end.

(** After [flush], when it succeeded. *)
Definition flushThen (batch : list SnapshotEntry) (k : M (option error)) : M (option error) :=
  r ← flushBatch batch;
  match r with Some err => mret (Some err) | None => k end.

(** The read loop; every message takes bytes off the stream. *)
Fixpoint pullLoop (fuel : nat) (depth : Z) (batch : list SnapshotEntry) (s : stream) : M (option error) :=
  match fuel with
  | O => mret (Some (New "out of fuel"))
  | S fuel =>
      match ReadMessage s with
      | (inl err, _) =>
          flushThen batch (mret (Some (if Is err EOF then New "bootstrap: unexpected EOF before end marker"
                                       else wrapErr "bootstrap read: " err)))
      | (inr msg, s) =>
          let msg := NormalizePeerMessage msg in
          if (m_Type msg =? MsgTypeBootstrapDone)%string then flushBatch batch
          else if (m_Type msg =? MsgTypeBootstrapChunk)%string then
            match Unmarshal zeroSnap snapFields (m_Payload msg) with
            | (_, false) => mret (Some (New "bootstrap entry: invalid json"))
            | (ent, true) =>
                let batch := batch ++ [ent] in
                if Z.of_nat (List.length batch) >=? depth then flushThen batch (pullLoop fuel depth [] s)
                else pullLoop fuel depth batch s
            end
          else mret (Some (New ("bootstrap: unexpected message type " +++ Quote (m_Type msg))))
      end
  end.

Definition requestMsg (nodeID : string) : PeerMessage :=
  message MsgTypeBootstrapReq nodeID (replJSON (mkRepl wireOpBootstrap EmptyString None 0 0 EmptyString ∅ [] 0 0 EmptyString)).

(** Up to and with the request: what is written, the membership after the announce, the bytes left or
    the error.  [timely] tells whether the announce, awaited when gossip is on, came in time. *)
Definition requestSnapshot (n : Node) (now : Time) (timely : bool) (dial : res stream) (mb : Members)
    : string * Members * (error + stream) :=
  match dial with
  | inl err => (EmptyString, mb, inl (wrapErr "bootstrap dial: " err))
  | inr s =>
      let '(out, who, s) := handshakeOutCaps n [] s in
      match who with
      | inl err => (out, mb, inl (wrapErr "bootstrap auth: " err))
      | inr _ =>
          let '(read, s) :=
            if GossipPeers (nd_cfg n) && timely then ReadMessage s else (inl (New "i/o timeout"), s) in
          let '(err, mb) := tryConsumePeerAnnounceBootstrap now read mb in
          match err with
          | Some err => (out, mb, inl (wrapErr "bootstrap announce: " err))
          | None =>
              match WriteMessage out (requestMsg (nd_nodeID n)) with
              | inl err => (out, mb, inl (wrapErr "bootstrap request: " err))
              | inr out => (out, mb, inr s)
              end
          end
      end
  end.

(** The store's part, on the bytes after the request: it is emptied, then filled. *)
Definition receiveSnapshot (n : Node) (r : error + stream) : M (option error) :=
  match r with
  | inl err => mret (Some err)
  | inr s =>
      let depth := BootstrapQueueDepth (nd_cfg n) in
      let depth := if depth <? 1 then 1 else depth in
      _ ← FlushDB; pullLoop (S (String.length (s_bytes s))) depth [] s
  end.

Definition pullSnapshotOnce (n : Node) (now : Time) (timely : bool) (dial : res stream) (mb : Members)
    : string * Members * M (option error) :=
  let '(out, mb, r) := requestSnapshot n now timely dial mb in (out, mb, receiveSnapshot n r).

(** [PullSnapshotFailover]: the attempts in order, each the pull from one address. *)
Fixpoint failover (attempts : list (string * M (option error))) (lastErr : option error) : M (option error) :=
  match attempts with
  | [] => mret (Some (match lastErr with
                      | Some err => wrapErr "bootstrap: all sources failed: " err
                      | None => New "bootstrap: no sources"
                      end))
  | (addr, attempt) :: attempts =>
      if sempty (TrimSpace addr) then failover attempts lastErr
      else r ← attempt;
           match r with
           | None => mret None
           | Some err => _ ← FlushDB; failover attempts (Some err)
           end
  end.

Definition PullSnapshotFailover (attempts : list (string * M (option error))) : M (option error) := failover attempts None.

(** ** Applying what was buffered *)

(** The inner loop of [DrainBootstrapInboundQueue]: [arrivals] are the events the workers append before
    each time the loop takes the lock.  It ends when the buffer is found empty. *)
Fixpoint drainLoop (fuel : nat) (arrivals : list (list wireRepl)) (drained : bool) (b : Boot)
    : M (outcome (option error) * bool * Boot * list (list wireRepl)) :=
  match fuel with
  | O => mret (Ret None, drained, b, arrivals)
  | S fuel =>
      let '(batch, arrivals) := match arrivals with [] => ([], []) | x :: l => (x, l) end in
      let b := fold_left (fun b wr => snd (enqueueBootstrapRepl wr b)) batch b in
      match b_buf b with
      | [] => mret (Ret None, drained, b, arrivals)
      | wr :: rest =>
          let b := mkBoot (b_active b) rest (b_maxCap b) in
          r ← applyWireRepl wr;
          match r with
          | Ret None => drainLoop fuel arrivals true b
          | r => mret (r, true, b, arrivals)
          end
      end
  end.

(** Rounds follow each other until one finds nothing, 500 at most. *)
Fixpoint drainRounds (rounds fuel : nat) (arrivals : list (list wireRepl)) (b : Boot) : M (outcome (option error) * Boot) :=
  match rounds with
  | O => mret (Ret None, b)
  | S rounds =>
      x ← drainLoop fuel arrivals false b;
      let '(r, drained, b, arrivals) := x in
      match r with
      | Ret None => if drained : bool then drainRounds rounds fuel arrivals b else mret (Ret None, b)
      | r => mret (r, b)
      end
  end.

Definition DrainBootstrapInboundQueue (fuel : nat) (arrivals : list (list wireRepl)) (b : Boot) : M (outcome (option error) * Boot) :=
  drainRounds 500 fuel arrivals b.
End pull.
