(* ===== verification/PeerBootSpec.v ===== *)
(** * Bootstrap: the snapshot a peer streams makes the joining node's keyspace that of the peer. *)

From S2P Require Import Prelude GoInt GoStr GoTime GoSort Resp RespSpec Config Json JsonSpec GoNet GoCrypto ConfigValid StoreBase.
From S2P Require Import Eviction StoreString StoreHash StoreList StoreSet StoreKeys StoreOps StoreHoare StoreView StoreInvOps.
From S2P Require Import StoreWf StoreExec StoreSpec StoreRefine StoreRefineColl StoreRefineKeys StoreTrace Repl ReplApply.
From S2P Require Import PeerWire PeerWireSpec PeerMembers PeerAuth PeerAuthSpec PeerBoot.

(** ** Entries on the wire *)

Definition wfSnap (e : SnapshotEntry) : Prop :=
  is_int64 (sn_TTLMs e) = true /\ (sn_Type e <> "hash"%string -> sn_Fields e = ∅) /\
  (sn_Type e <> "set"%string -> sn_Members e = []) /\ (sn_Type e <> "list"%string -> sn_Elements e = []).

Lemma unmarshal_snap e : wfSnap e -> Unmarshal zeroSnap snapFields (Some (snapJSON e)) = (e, true).
Proof.
  destruct e as [k t v f m el ttl]. intros (Ht & Hf & Hm & He). unfold Unmarshal, dStruct, snapJSON, zeroSnap.
  cbn [sn_Key sn_Type sn_Value sn_Fields sn_Members sn_Elements sn_TTLMs] in *.
  do 3 (next; cbn [sn_Key sn_Type sn_Value sn_Fields sn_Members sn_Elements sn_TTLMs]).
  erewrite (field_always _ _ _ _ _ _ _ _ f); [|reflexivity|].
  2: { cbn [sn_Fields]. destruct (t =? "hash")%string eqn:E; [by apply d_map|]. apply String.eqb_neq in E. by rewrite Hf. }
  erewrite (field_always _ _ _ _ _ _ _ _ m); [|reflexivity|].
  2: { cbn [sn_Members]. destruct (t =? "set")%string eqn:E; [by apply d_byteSlices|]. apply String.eqb_neq in E. by rewrite Hm. }
  erewrite (field_always _ _ _ _ _ _ _ _ el); [|reflexivity|].
  2: { cbn [sn_Elements]. destruct (t =? "list")%string eqn:E; [by apply d_byteSlices|]. apply String.eqb_neq in E. by rewrite He. }
  by next.
Qed.

(** Keys, and names of hash fields, that JSON carries. *)
Definition textual (k : string) (v : gvalue) : Prop :=
  utf8 k = true /\ match v with VHash h => forall f, is_Some (h !! f) -> utf8 f = true | _ => True end.

Lemma ttl_int64 now t : is_int64 (if IsZero t then 0 else Z.max 0 (Milliseconds (Sub t now))) = true.
Proof.
  destruct (IsZero t); [done|]. unfold is_int64, Milliseconds, Sub, Millisecond, MinInt64, MaxInt64.
  set (x := Z.max _ (Z.min _ (t - now))). assert (-9223372036854775808 <= x <= 9223372036854775807) as Hx by lia.
  pose proof (Z.quot_rem' x 1000000). pose proof (Z.rem_bound_abs x 1000000 ltac:(lia)). apply andb_true_iff. rewrite !Z.leb_le. lia.
Qed.

Lemma snapshotOf_wf now k v t e : snapshotOf now (k, (v, t)) e -> wfSnap e.
Proof.
  unfold snapshotOf. pose proof (ttl_int64 now t). destruct v; [intros ->..|intros (ms & _ & ->)]; split_and!; done.
Qed.

Lemma wf_snapJSON now k v t e d : snapshotOf now (k, (v, t)) e -> textual k v -> wfJson (S (S d)) (snapJSON e).
Proof.
  unfold snapshotOf. pose proof (ttl_int64 now t). intros He [Hk Hv].
  destruct v; [subst e..|destruct He as (ms & _ & ->)]; apply wf_obj; repeat (apply Forall_cons; split; [split; [reflexivity|]|]);
    try apply Forall_nil_2; cbn [snd sn_Key sn_Type sn_Value sn_Fields sn_Members sn_Elements sn_TTLMs]; eauto with wire; try (by apply wf_str);
    [by apply wf_map|apply wf_byteSlices|apply wf_byteSlices].
Qed.

(** ** The stream *)

Lemma serve_frames nodeID out entries : Forall (fun e => fits (chunkMsg nodeID e)) entries ->
  serveBootstrapSnapshot nodeID out entries =
    (out +++ foldr (fun e acc => frame (chunkMsg nodeID e) +++ acc) (frame doneMsg) entries, None).
Proof.
  intros Hf. revert out. induction Hf as [|e entries He _ IH]; intros out; cbn [serveBootstrapSnapshot foldr].
  - rewrite WriteMessage_frame; [done|]. vm_compute. discriminate.
  - rewrite WriteMessage_frame by done. by rewrite IH, sapp_assoc.
Qed.

Lemma serve_fits nodeID out entries bytes : serveBootstrapSnapshot nodeID out entries = (bytes, None) ->
  Forall (fun e => fits (chunkMsg nodeID e)) entries.
Proof.
  revert out. induction entries as [|e entries IH]; intros out; [constructor|]. cbn [serveBootstrapSnapshot]. unfold WriteMessage at 1.
  destruct (_ >? _) eqn:E; [done|]. intros Hs. constructor; [unfold fits; zify_bool; lia|by eapply IH].
Qed.

Lemma done_fits : fits doneMsg.
Proof. vm_compute. discriminate. Qed.

(** An entry the peer can read. *)
Definition readable (nodeID : string) (e : SnapshotEntry) : Prop :=
  wfSnap e /\ wfJson 2 (snapJSON e) /\ fits (chunkMsg nodeID e).

Lemma read_chunk nodeID e r err : utf8 nodeID = true -> readable nodeID e ->
  ReadMessage (mkStream (frame (chunkMsg nodeID e) +++ r) err) = (inr (chunkMsg nodeID e), mkStream r err).
Proof. intros Hn (_ & Hj & Hf). by apply ReadMessage_message. Qed.

Lemma read_done r err : ReadMessage (mkStream (frame doneMsg +++ r) err) = (inr doneMsg, mkStream r err).
Proof. apply ReadMessage_message; [done|done| |apply done_fits]. apply wf_obj. by wfMember. Qed.

Section transfer.
Context (now : Time) `{MapOrder}.

Lemma load_app l1 l2 m m1 : load now l1 m = (None, m1) -> load now (l1 ++ l2) m = load now l2 m1.
Proof.
  revert m. induction l1 as [|e l1 IH]; intros m; cbn; [by intros [= ->]|]. destruct (loadEntry now e m) as [[] m']; [done|]. apply IH.
Qed.

Lemma load_prefix l1 l2 m m2 : load now (l1 ++ l2) m = (None, m2) -> exists m1, load now l1 m = (None, m1).
Proof.
  revert m. induction l1 as [|e l1 IH]; intros m; cbn; [eauto|]. destruct (loadEntry now e m) as [[] m']; [done|]. apply IH.
Qed.

Lemma d_flushBatch l m m' : load now l m = (None, m') -> does now m (flushBatch l) (None, m').
Proof.
  revert m. induction l as [|e l IH]; intros m; cbn [load flushBatch]; [intros [= ->]; by apply d_ret|].
  destruct (loadEntry now e m) as [err m1] eqn:E. destruct err; [done|]. intros Hl.
  apply (d_after now _ None m m1); [|by apply IH]. rewrite <- E. apply d_apply.
Qed.

Lemma d_pullLoop nodeID depth entries : utf8 nodeID = true -> Forall (readable nodeID) entries ->
  forall fuel batch m m' r err, (List.length entries < fuel)%nat -> load now (batch ++ entries) m = (None, m') ->
  does now m (pullLoop fuel depth batch
    (mkStream (foldr (fun e acc => frame (chunkMsg nodeID e) +++ acc) (frame doneMsg) entries +++ r) err)) (None, m').
Proof.
  intros Hn HF. induction HF as [|e entries He HF IH]; intros fuel batch m m' r err Hfuel Hl; (destruct fuel as [|fuel]; [cbn in Hfuel; lia|]); cbn [pullLoop foldr].
  - rewrite read_done. change (m_Type (NormalizePeerMessage doneMsg) =? MsgTypeBootstrapDone)%string with true. cbv iota.
    rewrite app_nil_r in Hl. by apply d_flushBatch.
  - rewrite sapp_assoc, read_chunk by done. change (NormalizePeerMessage (chunkMsg nodeID e)) with (chunkMsg nodeID e). cbv zeta.
    change (m_Type (chunkMsg nodeID e) =? MsgTypeBootstrapDone)%string with false.
    change (m_Type (chunkMsg nodeID e) =? MsgTypeBootstrapChunk)%string with true. cbv iota.
    change (m_Payload (chunkMsg nodeID e)) with (Some (snapJSON e)). destruct He as (Hw & _). rewrite unmarshal_snap by done.
    rewrite (cons_middle e), app_assoc in Hl. cbn in Hfuel. destruct (_ >=? depth).
    + destruct (load_prefix _ _ _ _ Hl) as [m1 Hm1]. rewrite (load_app _ _ _ _ Hm1) in Hl. unfold flushThen.
      apply (d_after now _ None m m1); [by apply d_flushBatch|]. apply IH; [lia|done].
    + apply IH; [lia|done].
Qed.

Lemma snapshot_readable m st out st' nodeID : quiet now st -> reps now m (db st) -> SnapshotCtx st = (out, st') ->
  (forall k v t, m !! k = Some (v, t) -> textual k v) -> Forall (fun e => fits (chunkMsg nodeID e)) out -> Forall (readable nodeID) out.
Proof.
  intros Hq Hr E Ht Hf. destruct (snapshot_loads now m st out st' Hq Hr E) as (_ & l & Hl & HF).
  apply Forall_forall. intros e He. rewrite Forall_forall in Hf. split_and!; [| |by apply Hf];
    apply list_elem_of_lookup in He as [i Hi]; destruct (Forall2_lookup_r _ _ _ _ _ HF Hi) as ([k [v t]] & Hkv & Hs).
  - by eapply snapshotOf_wf.
  - apply (wf_snapJSON now k v t); [done|]. apply (Ht k v t). apply elem_of_map_to_list. rewrite <- Hl. by eapply list_elem_of_lookup_2.
Qed.

Lemma frames_length nodeID entries : (List.length entries < String.length (foldr (fun e acc => frame (chunkMsg nodeID e) +++ acc) (frame doneMsg) entries))%nat.
Proof.
  assert (forall m, (8 <= String.length (frame m))%nat) as Hlen by (intros; unfold frame; rewrite !slength_app, !putUint32_length; lia).
  induction entries as [|e entries IH]; cbn [foldr List.length]; [specialize (Hlen doneMsg); lia|]. rewrite slength_app. specialize (Hlen (chunkMsg nodeID e)). lia.
Qed.

(** C7: A joining node ends with its peer's data.  The bytes a node streams for a snapshot of its store,
    received by another node at the same instant, whatever that one held, in batches of any size, leave it
    without error and with the first node's keyspace: same keys and values, every expiry kept to the millisecond
    below, and none for a key with less than a millisecond to live ([reloadAt]).  Keys and field names are valid
    UTF-8, neither store has a memory limit and no other goroutine works on them. *)
Theorem bootstrap_transfers m m2 st out st' st2 nodeID bytes n r err :
  quiet now st -> reps now m (db st) -> SnapshotCtx st = (out, st') ->
  (forall k v t, m !! k = Some (v, t) -> textual k v) -> utf8 nodeID = true ->
  serveBootstrapSnapshot nodeID EmptyString out = (bytes, None) ->
  quiet now st2 -> reps now m2 (db st2) ->
  let '(e, st2') := receiveSnapshot n (inr (mkStream (bytes +++ r) err)) st2 in
  e = None /\ quiet now st2' /\ reps now (reloaded now m) (db st2').
Proof.
  intros Hq Hr E Ht Hn Hs Hq2 Hr2. pose proof (serve_fits _ _ _ _ Hs) as Hfit.
  rewrite serve_frames, sapp_nil_l in Hs by done. apply (f_equal fst) in Hs. cbn [fst] in Hs. subst bytes.
  pose proof (snapshot_readable m st out st' nodeID Hq Hr E Ht Hfit) as Hread.
  destruct (snapshot_loads now m st out st' Hq Hr E) as [Hl _].
  destruct (receiveSnapshot n _ st2) as [e st2'] eqn:E2.
  assert (does now m2 (receiveSnapshot n (inr (mkStream (foldr (fun e acc => frame (chunkMsg nodeID e) +++ acc) (frame doneMsg) out +++ r) err))) (None, reloaded now m)) as Hd.
  { unfold receiveSnapshot. eapply t_bind; [apply (t_FlushDB now)|]. intros []. apply d_pullLoop; [done|done| |done].
    cbn [s_bytes]. rewrite slength_app. pose proof (frames_length nodeID out). lia. }
  destruct (Hd st2 e st2' E2 Hq2 Hr2) as (Hq' & -> & Hr'). done.
Qed.
End transfer.

(** ** Witness *)

Definition oneKey : St := snd (@Set_ idOrder "k" (Some "v"%string) noTTL (mkSt emptyStore (calmEnv 1))).
Definition oneKeyspace : keyspace := {["k"%string := (VString (Some "v"%string), noTTL)]}.

Lemma oneKey_ok : quiet 1 oneKey /\ reps 1 oneKeyspace (db oneKey).
Proof.
  destruct (@Set_ idOrder "k" (Some "v"%string) noTTL (mkSt emptyStore (calmEnv 1))) as [e s] eqn:E.
  destruct (@d_Set 1 idOrder ∅ "k" (Some "v"%string) noTTL _ e s E empty_quiet (empty_reps 1)) as (Hq & _ & Hr).
  unfold oneKey. rewrite E. split; [exact Hq|exact Hr].
Qed.

Definition oneStream : string := fst (serveBootstrapSnapshot "n1" EmptyString (fst (@SnapshotCtx idOrder oneKey))).

Lemma bootstrap_transfers_witness :
  let '(e, st2') := @receiveSnapshot idOrder (demoNode "n2" EmptyString EmptyString) (inr (mkStream oneStream io_EOF)) (mkSt emptyStore (calmEnv 1)) in
  e = None /\ quiet 1 st2' /\ reps 1 (reloaded 1 oneKeyspace) (db st2').
Proof.
  destruct oneKey_ok as [Hq Hr]. rewrite <- (sapp_nil_r oneStream).
  apply (@bootstrap_transfers 1 idOrder oneKeyspace ∅ oneKey (fst (@SnapshotCtx idOrder oneKey)) (snd (@SnapshotCtx idOrder oneKey))
           (mkSt emptyStore (calmEnv 1)) "n1" oneStream (demoNode "n2" EmptyString EmptyString) EmptyString io_EOF Hq Hr).
  - apply surjective_pairing.
  - intros k v t Hk. unfold oneKeyspace in Hk. apply lookup_singleton_Some in Hk as [<- [= <- <-]]. by split.
  - done.
  - vm_compute. reflexivity.
  - apply empty_quiet.
  - apply empty_reps.
Defined.
