(* ===== verification/PeerSession.v ===== *)
(** * Package [peer], part 8: what a node does with the messages on its links
    (the read loops [serveInbound] and [outboundPeerSession], the worker pool that applies inbound
    events, the dial loop and its back-off: internal/peer/service.go, outbound.go, backoff.go, forget.go). *)

From S2P Require Import Prelude GoInt GoStr GoTime GoSort Resp Config Json GoNet GoCrypto ConfigValid StoreBase Eviction StoreString.
From S2P Require Import StoreHash StoreList StoreSet StoreKeys Repl PeerWire PeerLinks PeerGap PeerMembers PeerAuth PeerBoot.

(** [Service], by component.  [sv_shards] are the queues of the worker pool, one per worker. *)
Record Service := mkService {
  sv_members : Members; sv_links : Links; sv_gaps : Gaps; sv_boot : Boot; sv_shards : list (list wireRepl);
  sv_inboundLastHB : gmap string Z; sv_inboundCount : Z }.

Definition onMembers (f : Members -> Members) (s : Service) : Service :=
  mkService (f (sv_members s)) (sv_links s) (sv_gaps s) (sv_boot s) (sv_shards s) (sv_inboundLastHB s) (sv_inboundCount s).
Definition onLinks (f : Links -> Links) (s : Service) : Service :=
  mkService (sv_members s) (f (sv_links s)) (sv_gaps s) (sv_boot s) (sv_shards s) (sv_inboundLastHB s) (sv_inboundCount s).
Definition onGaps (f : Gaps -> Gaps) (s : Service) : Service :=
  mkService (sv_members s) (sv_links s) (f (sv_gaps s)) (sv_boot s) (sv_shards s) (sv_inboundLastHB s) (sv_inboundCount s).
Definition onBoot (f : Boot -> Boot) (s : Service) : Service :=
  mkService (sv_members s) (sv_links s) (sv_gaps s) (f (sv_boot s)) (sv_shards s) (sv_inboundLastHB s) (sv_inboundCount s).
Definition onShards (f : list (list wireRepl) -> list (list wireRepl)) (s : Service) : Service :=
  mkService (sv_members s) (sv_links s) (sv_gaps s) (sv_boot s) (f (sv_shards s)) (sv_inboundLastHB s) (sv_inboundCount s).

(** ** The worker pool *)

(** FNV-1a over 32 bits. *)
Fixpoint fnv (h : Z) (key : string) : Z :=
  match key with
  | EmptyString => h
  | String c key => fnv (Z.lxor h (code c) * 16777619 mod 2 ^ 32) key
  end.

Definition inboundShardFor (shards : nat) (origin remote : string) : option nat :=
  if (shards =? 0)%nat then None
  else
    let key := TrimSpace origin in
    let key := if sempty key then remote else key in
    if (shards =? 1)%nat then Some 0%nat
    else Some (Z.to_nat (fnv 2166136261 key mod (Z.of_nat shards mod 2 ^ 32))).

(** Whether the event was handed to a worker; the queues do not lose events, a full one makes the
    reader wait. *)
Definition enqueueInbound (remote : string) (wr : wireRepl) (s : Service) : bool * Service :=
  match inboundShardFor (List.length (sv_shards s)) (r_Origin wr) remote with
  | None => (false, s)
  | Some i => (true, onShards (fun q => <[i := default [] (q !! i) ++ [wr]]> q) s)
  end.

Section work.
Context `{MapOrder}.

(** One turn of [inboundWorkerLoop] on a shard: during a pull the event is kept for later, or dropped
    when the buffer is full; otherwise it is applied.  Errors are logged only. *)
Definition workStep (i : nat) (s : Service) : M (outcome Service) :=
  match sv_shards s !! i with
  | Some (wr :: rest) =>
      let s := onShards (fun q => <[i := rest]> q) s in
      if b_active (sv_boot s) then mret (Ret (onBoot (fun b => snd (enqueueBootstrapRepl wr b)) s))
      else r ← applyWireRepl wr;
           mret (match r with Panic => Panic | Ret _ => Ret s end)
  | _ => mret (Ret s)
  end.
End work.

(** ** Accepted connections *)

(** What the read loop does with the connection or the store after it has looked at a message: nothing,
    answer a heartbeat, apply an event itself because there is no worker pool, stream a snapshot and
    close, or close. *)
Inductive action := ReadOn | AnswerHeartbeat | ApplyInline (wr : wireRepl) | ServeSnapshot | Close.

Definition heartbeatOp (msg : PeerMessage) : string :=
  ToUpper (TrimSpace (fst (Unmarshal EmptyString opFields (m_Payload msg)))).

Definition heartbeatMsg (op : string) : PeerMessage := message MsgTypeHeartbeat EmptyString (opJSON op).

(** A request for a snapshot, in either of its two forms: the link's writer stops before the stream. *)
Definition bootstrapRequest (link : option Z) (s : Service) : action * Service :=
  if refuseBootstrapWhileSyncing (sv_boot s) then (Close, s)
  else (ServeSnapshot, match link with Some l => onLinks (stopInboundReplLink l) s | None => s end).

(** An event for the workers, or for the reader when there are none. *)
Definition handOver (remote : string) (wr : wireRepl) (s : Service) : action * Service :=
  match enqueueInbound remote wr s with
  | (true, s) => (ReadOn, s)
  | (false, s) => (ApplyInline wr, s)
  end.

Definition noteHeartbeat (now : Time) (remote : string) (s : Service) : Service :=
  mkService (sv_members s) (sv_links s) (sv_gaps s) (sv_boot s) (sv_shards s)
    (<[remote := ToUnixMilli now]> (sv_inboundLastHB s)) (sv_inboundCount s).

(** One message of [serveInbound]: [remote] is the connection's address, [id] what the handshake told,
    [link] the replication link over this connection, if any. *)
Definition serveInboundMessage (now : Time) (remote : string) (id : peerIdentity) (link : option Z) (msg : PeerMessage) (s : Service)
    : action * Service :=
  let msg := NormalizePeerMessage msg in
  let case t := (m_Type msg =? t)%string in
  if case MsgTypeHeartbeat then
    let s := noteHeartbeat now remote s in
    let op := heartbeatOp msg in
    if (op =? wireOpHeartbeatAck)%string then (ReadOn, s)
    else if (op =? wireOpHeartbeat)%string || sempty op then (AnswerHeartbeat, s)
    else (ReadOn, s)
  else if case MsgTypeLeave then
    (ReadOn, onMembers (fun m => snd (handleLeave msg (id_Advertise id) (connectedAddrs (sv_links s)) m)) s)
  else if case MsgTypeBootstrapReq then bootstrapRequest link s
  else if case MsgTypeReplicate then
    match Unmarshal zeroRepl replFields (m_Payload msg) with
    | (_, false) => (ReadOn, s)
    | (wr, true) =>
        let s := onGaps (noteReplArrival now wr) s in
        if EqualFold (r_Op wr) wireOpBootstrap then bootstrapRequest link s else handOver remote wr s
    end
  else (ReadOn, s).

Definition countInbound (d : Z) (s : Service) : Service :=
  mkService (sv_members s) (sv_links s) (sv_gaps s) (sv_boot s) (sv_shards s) (sv_inboundLastHB s) (sv_inboundCount s + d).

Definition startInboundReplLink (remote : string) (id : peerIdentity) (s : Service) : Z * Service :=
  let addr := TrimSpace (id_Advertise id) in
  let addr := if sempty addr then remote else addr in
  let s := onLinks (registerOut addr (id_NodeID id) true (PeerQueueDepth (mb_cfg (sv_members s)))) s in
  (k_linkSeq (sv_links s), s).

(** [serveInbound] between the handshake and the loop: the peer is learned, the announce goes out first
    when gossip is on, then the link is registered when the peer takes writes on it.  The bytes written
    and the link, or the error that ends the session. *)
Definition beginInbound (now : Time) (remote : string) (id : peerIdentity) (s : Service) : res (string * option Z) * Service :=
  let s := onMembers (learnPeerFromInbound now (id_NodeID id) (id_Advertise id) remote) s in
  let m := sv_members s in
  let announce :=
    if GossipPeers (mb_cfg m) then
      WriteMessage EmptyString (message MsgTypeNodeList (mb_nodeID m) (announceJSON (mkAnnounce wireOpPeerAnnounce (Peers (mb_cfg m)))))
    else inr EmptyString in
  match announce with
  | inl err => (inl err, s)
  | inr out =>
      if id_Duplex id && negb (isSelf (id_NodeID id) (id_Advertise id) m) then
        let '(link, s) := startInboundReplLink remote id s in (inr (out, Some link), countInbound 1 s)
      else (inr (out, None), countInbound 1 s)
  end.

(** Its deferred calls, when the loop has ended. *)
Definition endInbound (link : option Z) (s : Service) : Service :=
  let s := countInbound (-1) s in
  match link with Some l => onLinks (stopInboundReplLink l) s | None => s end.

(** What [refreshMetrics] reports after each change: accepted connections, addresses dialled. *)
Definition refreshMetrics (s : Service) : Z * list string := (sv_inboundCount s, outboundAddrs (sv_links s)).

(** The time a connection may be silent. *)
Definition inboundTimeout (cfg : Config) : Z :=
  let timeout := wrap64 (HeartbeatTimeout cfg * Second) in if timeout <? Second then Second else timeout.

Section serve.
Context `{MapOrder}.

(** The loop over the messages of a connection until reading fails or the loop returns; the bytes
    written so far are [out].  Every message takes bytes off the stream. *)
Fixpoint serveLoop (fuel : nat) (now : Time) (remote : string) (id : peerIdentity) (link : option Z) (out : string) (r : stream) (s : Service)
    : M (outcome (string * Service)) :=
  match fuel with
  | O => mret (Ret (out, s))
  | S fuel =>
      match ReadMessage r with
      | (inl _, _) => mret (Ret (out, s))
      | (inr msg, r) =>
          match serveInboundMessage now remote id link msg s with
          | (ReadOn, s) => serveLoop fuel now remote id link out r s
          | (AnswerHeartbeat, s) => serveLoop fuel now remote id link (send out (heartbeatMsg wireOpHeartbeatAck)) r s
          | (ApplyInline wr, s) =>
              o ← applyWireRepl wr;
              match o with Panic => mret Panic | Ret _ => serveLoop fuel now remote id link out r s end
          | (ServeSnapshot, s) =>
              entries ← SnapshotCtx;
              mret (Ret (fst (serveBootstrapSnapshot (mb_nodeID (sv_members s)) out entries), s))
          | (Close, s) => mret (Ret (out, s))
          end
      end
  end.

(** [serveInbound]: the handshake decides whether anything else happens. *)
Definition serveInbound (now : Time) (remote : string) (nonce : res string) (r : stream) (s : Service) : M (outcome (string * Service)) :=
  let m := sv_members s in
  match runInboundHandshakeInfo (mkNode (mb_nodeID m) (mb_advertise m) (mb_cfg m)) nonce r with
  | (out, inl _, _) => mret (Ret (out, s))
  | (out, inr id, r) =>
      match beginInbound now remote id s with
      | (inl _, s) => mret (Ret (out, s))
      | (inr (announce, link), s) =>
          o ← serveLoop (String.length (s_bytes r)) now remote id link (out +++ announce) r s;
          mret (match o with Panic => Panic | Ret (out, s) => Ret (out, endInbound link s) end)
      end
  end.
End serve.

(** ** Dialled connections *)

Definition markHeartbeat (now : Time) (target : Z) (s : Links) : Links :=
  setLinks (map (fun p => if l_linkSeq p =? target
                          then mkLink (l_addr p) (l_remoteID p) (l_inbound p) (l_linkSeq p) (l_replStop p) (l_cap p) (l_replCh p) (ToUnixMilli now)
                          else p) (k_out s)) s.

Definition handleDuplexRepl (now : Time) (addr : string) (msg : PeerMessage) (s : Service) : action * Service :=
  match Unmarshal zeroRepl replFields (m_Payload msg) with
  | (_, false) => (ReadOn, s)
  | (wr, true) => handOver addr wr (onGaps (noteReplArrival now wr) s)
  end.

(** One message of [outboundPeerSession] on the link [link] to [addr]. *)
Definition outboundMessage (now : Time) (addr : string) (link : Z) (msg : PeerMessage) (s : Service) : action * Service :=
  let msg := NormalizePeerMessage msg in
  if (m_Type msg =? MsgTypeReplicate)%string then handleDuplexRepl now addr msg s
  else if (m_Type msg =? MsgTypeLeave)%string then
    (ReadOn, onMembers (fun m => snd (handleLeave msg addr (connectedAddrs (sv_links s)) m)) s)
  else if negb (m_Type msg =? MsgTypeHeartbeat)%string then (ReadOn, s)
  else
    let op := heartbeatOp msg in
    let s := onLinks (markHeartbeat now link) s in
    if (op =? wireOpHeartbeatAck)%string then (ReadOn, s)
    else if (op =? wireOpHeartbeat)%string || sempty op then (AnswerHeartbeat, s)
    else (ReadOn, s).

(** How often heartbeats go out on a dialled link, and how long it may be silent. *)
Definition outboundTimes (cfg : Config) : Z * Z :=
  let interval := wrap64 (HeartbeatInterval cfg * Second) in
  let timeout := wrap64 (HeartbeatTimeout cfg * Second) in
  let interval := if interval <? Second then Second else interval in
  (interval, if timeout <=? interval then wrap64 (interval * 2) else timeout).

Section dialled.
Context `{MapOrder}.

Fixpoint outboundLoop (fuel : nat) (now : Time) (addr : string) (link : Z) (out : string) (r : stream) (s : Service)
    : M (outcome (string * Service)) :=
  match fuel with
  | O => mret (Ret (out, s))
  | S fuel =>
      match ReadMessage r with
      | (inl _, _) => mret (Ret (out, s))
      | (inr msg, r) =>
          match outboundMessage now addr link msg s with
          | (AnswerHeartbeat, s) => outboundLoop fuel now addr link (send out (heartbeatMsg wireOpHeartbeatAck)) r s
          | (ApplyInline wr, s) =>
              o ← applyWireRepl wr;
              match o with Panic => mret Panic | Ret _ => outboundLoop fuel now addr link out r s end
          | (_, s) => outboundLoop fuel now addr link out r s
          end
      end
  end.

(** [outboundPeerSession]; the heartbeats and frames its goroutines write are not among the bytes. *)
Definition outboundPeerSession (now : Time) (addr : string) (id : peerIdentity) (r : stream) (s : Service) : M (outcome (string * Service)) :=
  let s := onLinks (registerOut addr (id_NodeID id) false (PeerQueueDepth (mb_cfg (sv_members s)))) s in
  let link := k_linkSeq (sv_links s) in
  o ← outboundLoop (String.length (s_bytes r)) now addr link EmptyString r s;
  mret (match o with Panic => Panic | Ret (out, s) => Ret (out, onLinks (stopInboundReplLink link) s) end).
End dialled.

(** ** Dialling *)

Definition backoffInitial : Z := Second.
Definition backoffMax : Z := 30 * Second.

(** The delay doubles per attempt up to the cap. *)
Fixpoint backoffBase (attempt : nat) (d : Z) : Z :=
  match attempt with
  | O => d
  | S attempt =>
      if d <? backoffMax then
        let d := d * 2 in if d >? backoffMax then backoffMax else backoffBase attempt d
      else d
  end.

(** [backoffSleep]: the time it waits, given the random jitter drawn below a quarter of the delay. *)
Definition backoffDelay (attempt : nat) (rand : Z -> Z) : Z :=
  let d := backoffBase attempt backoffInitial in
  let d := if d >? backoffMax then backoffMax else d in
  d + rand (d / 4).

(** What one turn of [dialLoop] meets, and what it does: wait after [attempt] failures, stop for good, or
    run a session and start over. *)
Inductive dialResult := DialFailed | HandshakeFailed | Met (id : peerIdentity) (announce : res PeerMessage).
Inductive dialNext := Retry (delay : Z) (attempt : nat) | Stop | Session (id : peerIdentity).

Definition dialTurn (now : Time) (addr : string) (attempt : nat) (rand : Z -> Z) (r : dialResult) (m : Members) : dialNext * Members :=
  match r with
  | DialFailed => (Retry (backoffDelay attempt rand) (S attempt), m)
  | HandshakeFailed => (Retry (backoffDelay 0 rand) 1, m)
  | Met id announce =>
      if negb (sempty (id_NodeID id)) && (id_NodeID id =? mb_nodeID m)%string then (Stop, m)
      else
        let m := markPeerReachable now addr m in
        match consumeOptionalPeerAnnounce now announce m with
        | (Some _, m) => (Retry (backoffDelay 0 rand) 1, m)
        | (None, m) => (Session id, m)
        end
  end.

(** ** Leaving *)

Definition leaveMsg (m : Members) : PeerMessage :=
  message MsgTypeLeave (mb_nodeID m) (leaveJSON (mkLeave wireOpLeave (mb_nodeID m) (mb_advertise m))).

(** [AnnounceLeave]: what goes out on which link, every registered one. *)
Definition announceLeave (s : Service) : list (Z * string) :=
  map (fun l => (l_linkSeq l, send EmptyString (leaveMsg (sv_members s)))) (k_out (sv_links s)).

(** ** Running *)

(** [NewService], then [Run] with [workers] processors, before the first connection. *)
Definition startService (nodeID advertise : string) (cfg : Config) (workers : nat) : Service :=
  mkService (startDials (mkMembers nodeID advertise cfg ∅ None)) (mkLinks nodeID 0 0 0 None [] 0) (mkGaps nodeID false ∅ ∅ 0 0 0 []) (mkBoot false [] 0)
    (repeat [] (Nat.max 1 workers)) ∅ 0.
