(* ===== verification/PeerSessionSpec.v ===== *)
(** * Sessions: events of one origin are applied in the order they were sent, and a replica that reads a
    primary's frames ends with the primary's keyspace. *)

From S2P Require Import Prelude GoInt GoStr GoTime GoSort Resp RespSpec Config Json JsonSpec GoNet GoCrypto ConfigValid ConfigSpec StoreBase.
From S2P Require Import Eviction StoreString StoreHash StoreList StoreSet StoreKeys StoreOps StoreHoare StoreView StoreInvOps.
From S2P Require Import StoreWf StoreExec StoreSpec StoreRefine StoreRefineColl StoreRefineKeys Session Repl ReplApply CmdBase Conn StoreTrace.
From S2P Require Import CmdString CmdHash CmdList CmdSet CmdGeneric CmdServer CmdTxn CmdFrame CmdWithin ConnInv CmdReply ConnSpec TxnSpec.
From S2P Require Import Sync Converge ConvergeAll PeerWire PeerWireSpec PeerLinks PeerGap PeerMembers PeerAuth PeerBoot PeerSession.

(** ** The worker pool *)

(** [inboundShardFor] names a queue that exists. *)
Lemma shard_lt n origin remote i : inboundShardFor n origin remote = Some i -> Z.of_nat n < 2 ^ 32 -> (i < n)%nat.
Proof.
  unfold inboundShardFor. destruct (n =? 0)%nat eqn:E0; [done|]. apply Nat.eqb_neq in E0. destruct (n =? 1)%nat eqn:E1.
  - apply Nat.eqb_eq in E1. intros [= <-] _. lia.
  - intros E Hn. injection E as <-. rewrite (Z.mod_small (Z.of_nat n)) by lia.
    match goal with |- context [?h mod Z.of_nat n] => pose proof (Z.mod_pos_bound h (Z.of_nat n) ltac:(lia)) end. lia.
Qed.

Definition from (o : string) (wr : wireRepl) : bool := (TrimSpace (r_Origin wr) =? o)%string.

(** The queue of a named origin does not depend on the connection. *)
Lemma shard_origin n o wr remote : o <> EmptyString -> from o wr = true ->
  inboundShardFor n (r_Origin wr) remote = inboundShardFor n o o.
Proof.
  unfold from. intros Ho Hf%String.eqb_eq. unfold inboundShardFor. rewrite Hf.
  assert (TrimSpace o = o) as -> by (rewrite <- Hf; apply TrimSpace_idemp). destruct o; done.
Qed.

Section pool.
Context `{MapOrder}.

(** The life of the pool: events handed over by any connection, turns of any worker, and anything that
    leaves the queues alone.  [arrived] is what was handed over, [worked] what the workers took. *)
Inductive poolRun : list wireRepl -> list wireRepl -> Service -> St -> Prop :=
  | pool_start s st : Forall (fun q => q = []) (sv_shards s) -> sv_shards s <> [] -> Z.of_nat (List.length (sv_shards s)) < 2 ^ 32 ->
      poolRun [] [] s st
  | pool_arrive a w s st remote wr : poolRun a w s st -> poolRun (a ++ [wr]) w (snd (enqueueInbound remote wr s)) st
  | pool_work a w s st i wr rest s' st' : poolRun a w s st -> sv_shards s !! i = Some (wr :: rest) ->
      workStep i s st = (Ret s', st') -> poolRun a (w ++ [wr]) s' st'
  | pool_other a w s st s' st' : poolRun a w s st -> sv_shards s' = sv_shards s -> poolRun a w s' st'.

Definition queued (o : string) (s : Service) : list wireRepl := List.filter (from o) (List.concat (sv_shards s)).

(** Only its own queue holds events of an origin, after those the workers took. *)
Definition ordered (o : string) (a w : list wireRepl) (shards : list (list wireRepl)) : Prop :=
  exists i q, inboundShardFor (List.length shards) o o = Some i /\ shards !! i = Some q /\
    (forall j q', shards !! j = Some q' -> j <> i -> List.filter (from o) q' = []) /\
    List.filter (from o) a = List.filter (from o) w ++ List.filter (from o) q.

Lemma filter_one o wr : List.filter (from o) [wr] = if from o wr then [wr] else [].
Proof. done. Qed.

Lemma shard_some n o : n <> 0%nat -> exists i, inboundShardFor n o o = Some i.
Proof. intros Hn. unfold inboundShardFor. rewrite (proj2 (Nat.eqb_neq n 0) Hn). destruct (n =? 1)%nat; eauto. Qed.

Lemma ordered_start o shards : Forall (fun q => q = []) shards -> shards <> [] -> Z.of_nat (List.length shards) < 2 ^ 32 ->
  ordered o [] [] shards.
Proof.
  intros HF Hne Hlt. destruct (shard_some (List.length shards) o) as [i Hi]; [by destruct shards|].
  destruct (lookup_lt_is_Some_2 shards i (shard_lt _ _ _ _ Hi Hlt)) as [q Hq]. rewrite Forall_lookup in HF.
  exists i, q. split_and!; [done|done| |by rewrite (HF _ _ Hq)]. intros j q' Hj _. by rewrite (HF _ _ Hj).
Qed.

Lemma ordered_arrive o a w shards k wr remote : o <> EmptyString -> inboundShardFor (List.length shards) (r_Origin wr) remote = Some k ->
  ordered o a w shards -> ordered o (a ++ [wr]) w (<[k := default [] (shards !! k) ++ [wr]]> shards).
Proof.
  intros Ho Hk (i & q & Hi & Hq & Hoth & Hf). destruct (from o wr) eqn:Ew.
  - rewrite (shard_origin _ o wr remote Ho Ew), Hi in Hk. injection Hk as <-. rewrite Hq. cbn [default].
    exists i, (q ++ [wr]). rewrite length_insert. split_and!; [done| | |].
    + apply list_lookup_insert_eq. by eapply lookup_lt_Some.
    + intros j q' Hj Hne. rewrite list_lookup_insert_ne in Hj by done. by eapply Hoth.
    + by rewrite !List.filter_app, Hf, app_assoc.
  - destruct (decide (k = i)) as [->|Hne].
    + rewrite Hq. cbn [default]. exists i, (q ++ [wr]). rewrite length_insert. split_and!; [done| | |].
      * apply list_lookup_insert_eq. by eapply lookup_lt_Some.
      * intros j q' Hj Hji. rewrite list_lookup_insert_ne in Hj by done. by eapply Hoth.
      * by rewrite !List.filter_app, Hf, filter_one, Ew, !app_nil_r.
    + exists i, q. rewrite length_insert. split_and!; [done|by rewrite list_lookup_insert_ne| |].
      * intros j q' Hj Hji. destruct (decide (j = k)) as [->|Hjk]; [|rewrite list_lookup_insert_ne in Hj by done; by eapply Hoth].
        apply list_lookup_insert_Some in Hj as [(_ & <- & _)|[? _]]; [|done]. rewrite List.filter_app, filter_one, Ew, app_nil_r.
        destruct (shards !! k) as [q0|] eqn:E; [by eapply Hoth|done].
      * by rewrite !List.filter_app, Hf, filter_one, Ew, app_nil_r.
Qed.

Lemma ordered_work o a w shards k wr rest : shards !! k = Some (wr :: rest) ->
  ordered o a w shards -> ordered o a (w ++ [wr]) (<[k := rest]> shards).
Proof.
  intros Hk (i & q & Hi & Hq & Hoth & Hf). destruct (decide (k = i)) as [->|Hne].
  - rewrite Hq in Hk. injection Hk as ->. exists i, rest. rewrite length_insert. split_and!; [done| | |].
    + apply list_lookup_insert_eq. by eapply lookup_lt_Some.
    + intros j q' Hj Hji. rewrite list_lookup_insert_ne in Hj by done. by eapply Hoth.
    + rewrite Hf, List.filter_app, <- app_assoc. f_equal. apply (List.filter_app (from o) [wr] rest).
  - assert (from o wr = false /\ List.filter (from o) rest = []) as [Ew Er].
    { specialize (Hoth k _ Hk Hne). cbn in Hoth. by destruct (from o wr). }
    exists i, q. rewrite length_insert. split_and!; [done|by rewrite list_lookup_insert_ne| |].
    + intros j q' Hj Hji. apply list_lookup_insert_Some in Hj as [(-> & <- & _)|[_ Hj]]; [done|by eapply Hoth].
    + by rewrite List.filter_app, filter_one, Ew, app_nil_r.
Qed.

Lemma workStep_shards i s st s' st' wr rest : sv_shards s !! i = Some (wr :: rest) -> workStep i s st = (Ret s', st') ->
  sv_shards s' = <[i := rest]> (sv_shards s).
Proof.
  intros Hs. unfold workStep. rewrite Hs. cbv zeta. destruct (b_active _); [by intros [= <- _]|].
  unfold mbind, M_bind. destruct (applyWireRepl wr st) as [[e|] st1]; [by intros [= <- _]|done].
Qed.

Lemma pool_ordered a w s st o : o <> EmptyString -> poolRun a w s st -> ordered o a w (sv_shards s).
Proof.
  intros Ho. induction 1 as [s st HF Hne Hlt|a w s st remote wr _ IH|a w s st i wr rest s' st' _ IH Hs Hw|a w s st s' st' _ IH Hs].
  - by apply ordered_start.
  - unfold enqueueInbound. destruct (inboundShardFor _ _ _) as [k|] eqn:E; [by eapply ordered_arrive|].
    destruct IH as (i & q & Hi & _). unfold inboundShardFor in E, Hi. destruct (_ =? 0)%nat; [done|]. by destruct (_ =? 1)%nat.
  - rewrite (workStep_shards _ _ _ _ _ _ _ Hs Hw). by apply ordered_work.
  - by rewrite Hs.
Qed.

Lemma ordered_queued o shards i q : shards !! i = Some q ->
  (forall j q', shards !! j = Some q' -> j <> i -> List.filter (from o) q' = []) ->
  List.filter (from o) (List.concat shards) = List.filter (from o) q.
Proof.
  revert i. induction shards as [|q0 shards IH]; intros i Hi Hoth; [done|]. cbn [List.concat]. rewrite List.filter_app.
  destruct i as [|i]; [injection Hi as ->|].
  - assert (List.filter (from o) (List.concat shards) = []) as ->; [|apply app_nil_r].
    assert (forall j q', shards !! j = Some q' -> List.filter (from o) q' = []) as Hall by (intros j q' Hj; by apply (Hoth (S j))).
    clear -Hall. induction shards as [|q1 shards IH]; [done|]. cbn [List.concat]. rewrite List.filter_app, (Hall 0%nat q1 eq_refl). apply IH.
    intros j. apply (Hall (S j)).
  - rewrite (Hoth 0%nat q0 eq_refl ltac:(done)). apply (IH i Hi). intros j q' Hj Hne. apply (Hoth (S j)); [done|lia].
Qed.

(** C9: Events of one origin are worked on in the order they arrived.  Over any interleaving of
    connections handing over events and workers taking them, for every origin: the events the workers
    have taken, followed by those still queued, are the events that arrived, in order; none is lost,
    duplicated or overtaken. *)
Theorem origin_order a w s st o : poolRun a w s st -> o <> EmptyString ->
  List.filter (from o) a = List.filter (from o) w ++ queued o s.
Proof.
  intros Hr Ho. destruct (pool_ordered _ _ _ _ _ Ho Hr) as (i & q & _ & Hq & Hoth & ->). unfold queued. by rewrite (ordered_queued _ _ i q).
Qed.
End pool.

(** ** From the primary's queue to the replica's store *)

(** What a link's writer puts on the socket for the payloads replicated after event [seq]. *)
Fixpoint writeFrames (nodeID : string) (seq ts : Z) (ps : list ReplicatePayload) : res string :=
  match ps with
  | [] => inr EmptyString
  | p :: ps =>
      match frameBytes nodeID ts (wireOf nodeID (seq + 1) p), writeFrames nodeID (seq + 1) ts ps with
      | inr f, inr rest => inr (f +++ rest)
      | inl err, _ => inl err
      | _, inl err => inl err
      end
  end.

(** Payloads JSON carries unchanged, and which are no request for a snapshot. *)
Definition carriable (p : ReplicatePayload) : Prop := wfPayload p /\ EqualFold (p_Op p) wireOpBootstrap = false.

Section converge.
Context (now : Time) `{MapOrder}.

Definition sameEffect (w : wireRepl) (p : ReplicatePayload) : Prop := forall st, applyWireRepl w st = applyReplicatePayload p st.

(** Workers running, nothing queued, no pull under way. *)
Definition idle (s : Service) : Prop :=
  Forall (fun q => q = []) (sv_shards s) /\ sv_shards s <> [] /\ Z.of_nat (List.length (sv_shards s)) < 2 ^ 32 /\ b_active (sv_boot s) = false.

(** [n] turns of one worker. *)
Fixpoint work (n i : nat) (s : Service) : M (outcome Service) :=
  match n with
  | O => mret (Ret s)
  | S n => o ← workStep i s; match o with Panic => mret Panic | Ret s => work n i s end
  end.

Lemma serve_replicated remote id link msg wr s i q : NormalizePeerMessage msg = msg -> m_Type msg = MsgTypeReplicate ->
  Unmarshal zeroRepl replFields (m_Payload msg) = (wr, true) -> EqualFold (r_Op wr) wireOpBootstrap = false ->
  inboundShardFor (List.length (sv_shards s)) (r_Origin wr) remote = Some i -> sv_shards s !! i = Some q ->
  exists s', serveInboundMessage now remote id link msg s = (ReadOn, s') /\
    sv_shards s' = <[i := q ++ [wr]]> (sv_shards s) /\ sv_boot s' = sv_boot s.
Proof.
  intros Hn Ht Hu Hb Hi Hq. unfold serveInboundMessage. rewrite Hn. cbv zeta. rewrite Ht.
  change (MsgTypeReplicate =? MsgTypeHeartbeat)%string with false. change (MsgTypeReplicate =? MsgTypeLeave)%string with false.
  change (MsgTypeReplicate =? MsgTypeBootstrapReq)%string with false. rewrite String.eqb_refl, Hu. cbv iota. rewrite Hb.
  unfold handOver, enqueueInbound, onShards. cbn [sv_shards sv_boot onGaps]. rewrite Hi, Hq. eexists. split_and!; reflexivity.
Qed.

Lemma frameBytes_pos nodeID ts w f : frameBytes nodeID ts w = inr f -> (0 < String.length f)%nat.
Proof.
  unfold frameBytes, EncodeMessage. remember (print _) as body. destruct (_ >? MaxPeerPayload); [done|]. intros <-%inr_eq.
  rewrite !slength_app, putUint32_length. lia.
Qed.

(** Reading the frames fills one queue and touches neither the other queues nor the store. *)
Lemma serve_stream nodeID ts remote id link err i : utf8 nodeID = true -> is_int64 ts = true -> forall ps seq bytes s q fuel st,
  Forall carriable ps -> 0 <= seq -> seq + Z.of_nat (List.length ps) <= MaxUint64 -> writeFrames nodeID seq ts ps = inr bytes ->
  inboundShardFor (List.length (sv_shards s)) nodeID remote = Some i -> sv_shards s !! i = Some q -> (String.length bytes <= fuel)%nat ->
  exists s' ws, serveLoop fuel now remote id link EmptyString (mkStream bytes err) s st = (Ret (EmptyString, s'), st) /\
    Forall2 sameEffect ws ps /\ sv_shards s' = <[i := q ++ ws]> (sv_shards s) /\ sv_boot s' = sv_boot s.
Proof.
  intros Hn Hts. induction ps as [|p ps IH]; intros seq bytes s q fuel st HF Hs0 Hs Hw Hi Hq Hfuel; cbn [writeFrames] in Hw.
  - injection Hw as <-. exists s, []. rewrite app_nil_r, list_insert_id by done. split_and!; [by destruct fuel|constructor|done|done].
  - inversion HF as [|? ? [Hp Hb] HF']; subst. cbn [List.length] in Hs.
    destruct (frameBytes _ _ _) as [|f] eqn:Ef; [done|]. destruct (writeFrames _ (seq + 1) _ _) as [|rest] eqn:Er; [done|].
    apply inr_eq in Hw. subst bytes. pose proof (frameBytes_pos _ _ _ _ Ef) as Hpos. rewrite slength_app in Hfuel. destruct fuel as [|fuel]; [lia|].
    destruct (read_replicated nodeID (seq + 1) ts p f rest err Hp Hn ltac:(lia) Hts Ef)
      as (msg & wr & Hread & Hnorm & Htype & _ & Hu & _ & Horig & Hop & Heff).
    rewrite <- Hop in Hb. rewrite <- Horig in Hi.
    destruct (serve_replicated remote id link msg wr s i q Hnorm Htype Hu Hb Hi Hq) as (s1 & E1 & Hs1 & Hb1).
    destruct (IH (seq + 1) rest s1 (q ++ [wr]) fuel st HF') as (s' & ws & E2 & HW & Hs2 & Hb2); try done; try lia.
    + by rewrite Hs1, length_insert, <- Horig.
    + rewrite Hs1. apply list_lookup_insert_eq. by eapply lookup_lt_Some.
    + exists s', (wr :: ws). cbn [serveLoop]. rewrite Hread, E1. split_and!; [done|by constructor| |congruence].
      by rewrite Hs2, Hs1, list_insert_insert_eq, <- app_assoc.
Qed.

(** A worker empties its queue into the store, in order. *)
Lemma work_applies i : forall ws ps s st o st', Forall2 sameEffect ws ps -> b_active (sv_boot s) = false -> sv_shards s !! i = Some ws ->
  applyAll ps st = (Ret o, st') ->
  exists s', work (List.length ps) i s st = (Ret s', st') /\ sv_shards s' = <[i := []]> (sv_shards s) /\ sv_boot s' = sv_boot s.
Proof.
  intros ws ps s st o st' HW. revert s st. induction HW as [|wr p ws ps Hwp HW IH]; intros s st Hb Hq Ha; cbn [List.length work].
  - exists s. cbn in Ha. rewrite list_insert_id by done. split_and!; [by injection Ha as _ ->|done|done].
  - cbn [applyAll] in Ha. unfold mbind, M_bind in Ha |- *. unfold workStep. rewrite Hq. cbn [sv_boot onShards]. rewrite Hb.
    unfold mbind, M_bind. rewrite (Hwp st). destruct (applyReplicatePayload p st) as [[e|] st1]; [|done]. cbn.
    destruct (IH (onShards (fun q => <[i := ws]> q) s) st1 Hb) as (s' & E & Hs & Hb').
    + cbn [sv_shards onShards]. apply list_lookup_insert_eq. by eapply lookup_lt_Some.
    + done.
    + exists s'. split_and!; [done| |done]. rewrite Hs. cbn [sv_shards onShards]. by rewrite list_insert_insert_eq.
Qed.

Lemma idle_shard s origin remote : idle s ->
  exists i, inboundShardFor (List.length (sv_shards s)) origin remote = Some i /\ sv_shards s !! i = Some [].
Proof.
  intros (HF & Hne & Hlt & _). assert (List.length (sv_shards s) <> 0%nat) as Hn by by destruct (sv_shards s).
  assert (exists i, inboundShardFor (List.length (sv_shards s)) origin remote = Some i) as [i Hi].
  { unfold inboundShardFor. rewrite (proj2 (Nat.eqb_neq _ 0) Hn). destruct (_ =? 1)%nat; eauto. }
  destruct (lookup_lt_is_Some_2 (sv_shards s) i (shard_lt _ _ _ _ Hi Hlt)) as [q Hq]. exists i. split; [done|].
  rewrite Forall_lookup in HF. by rewrite <- (HF _ _ Hq).
Qed.

(** C6: End to end, a replica follows its primary over the wire.  When the two hold the same keyspace and
    the primary executes a replicable request, a replica with idle workers that reads the frames of the
    payloads the request replicated, from a connection that then ends, queues them all for one worker
    without touching its store, and once this worker has taken as many turns as there were events its
    queue is empty again and its keyspace is the primary's: same keys, values and expiries.  The events are
    applied at the instant the request ran, neither store has a memory limit or another goroutine at work, no key
    is due at that instant and no stored collection is empty, and the keys, destinations and field names of the
    payloads are valid UTF-8. *)
Theorem wire_converges `{Floats} m v w r w' :
  quiet now (w_st w) -> reps now m (db (w_st w)) -> settled now m ->
  (forall a rest, ValueToArgs v = inr (a :: rest) -> replicable m (ToLower (sbytes a)) (a :: rest)) ->
  Dispatch 2 v w = (Val r, w') ->
  exists m' ps, reps now m' (db (w_st w')) /\ w_repl w' = w_repl w ++ ps /\
    forall nodeID seq ts bytes remote id link err s st, Forall carriable ps -> utf8 nodeID = true -> is_int64 ts = true ->
    0 <= seq -> seq + Z.of_nat (List.length ps) <= MaxUint64 -> writeFrames nodeID seq ts ps = inr bytes ->
    idle s -> quiet now st -> reps now m (db st) ->
    exists i s1 s2 st', serveLoop (String.length bytes) now remote id link EmptyString (mkStream bytes err) s st = (Ret (EmptyString, s1), st) /\
      work (List.length ps) i s1 st = (Ret s2, st') /\ idle s2 /\ quiet now st' /\ reps now m' (db st').
Proof.
  intros Hq Hr Hm Hv Hd. destruct (y_Dispatch now 2 v m Hm Hv w r w' Hd Hq Hr) as (m' & ps & _ & Hr' & Hp & Hf).
  exists m', ps. split_and!; [done..|]. intros nodeID seq ts bytes remote id link err s st HF Hn Hts Hs0 Hs Hw Hi Hqs Hrs.
  destruct (idle_shard s nodeID remote Hi) as (i & Hsh & He).
  destruct (serve_stream nodeID ts remote id link err i Hn Hts ps seq bytes s [] (String.length bytes) st HF Hs0 Hs Hw Hsh He ltac:(done))
    as (s1 & ws & E1 & HW & Hs1 & Hb1).
  destruct Hi as (HFs & Hne & Hlt & Hb). destruct (applyAll ps st) as [o st'] eqn:Ea.
  destruct (applyAll_follows now ps m m' Hf st o st' Ea Hqs Hrs) as (Hq' & -> & Hr2).
  assert (sv_shards s1 !! i = Some ws) as Hws by (rewrite Hs1; apply list_lookup_insert_eq; by eapply lookup_lt_Some).
  destruct (work_applies i ws ps s1 st tt st' HW ltac:(by rewrite Hb1) Hws Ea) as (s2 & E2 & Hs2 & Hb2).
  assert (sv_shards s2 = sv_shards s) as Hsame by (by rewrite Hs2, Hs1, list_insert_insert_eq, list_insert_id).
  exists i, s1, s2, st'. split_and!; [done|done| |done|done]. unfold idle. by rewrite Hsame, Hb2, Hb1.
Qed.
End converge.

(** ** Witnesses *)

Definition event (origin : string) (seq : Z) : wireRepl := mkRepl "INCR" "n" None 0 0 EmptyString ∅ [] 1 seq origin.
Definition demoService : Service := startService "n1" "10.0.0.1:7379" zeroConfig 4.

(** Two origins interleaved, one event of each taken. *)
Definition demoPool : Service :=
  snd (enqueueInbound "c1" (event "n3" 2) (snd (enqueueInbound "c2" (event "n2" 1) (snd (enqueueInbound "c1" (event "n3" 1) demoService))))).

Lemma origin_order_witness :
  List.filter (from "n3") [event "n3" 1; event "n2" 1; event "n3" 2] = [] ++ queued "n3" demoPool.
Proof.
  apply (@origin_order idOrder _ [] demoPool (mkSt emptyStore (calmEnv 1)) "n3"); [|done].
  apply (pool_arrive [event "n3" 1; event "n2" 1]), (pool_arrive [event "n3" 1]), (pool_arrive []).
  apply pool_start; [|done|done]. by repeat constructor.
Defined.

Definition demoReplicated : list ReplicatePayload := w_repl (snd (@Dispatch idOrder demoFloats 2 setRequest (demoWorld []))).
Definition demoFrames : string := match writeFrames "n2" 0 1 demoReplicated with inr b => b | inl _ => EmptyString end.

Lemma wire_converges_witness :
  let w' := snd (@Dispatch idOrder demoFloats 2 setRequest (demoWorld [])) in
  let st := mkSt emptyStore (calmEnv 1) in
  exists m' i s1 s2 st', reps 1 m' (db (w_st w')) /\
    @serveLoop idOrder (String.length demoFrames) 1 "c1" (mkIdentity "n2" EmptyString true false 2) None EmptyString
      (mkStream demoFrames io_EOF) demoService st = (Ret (EmptyString, s1), st) /\
    @work idOrder (List.length demoReplicated) i s1 st = (Ret s2, st') /\ idle s2 /\ quiet 1 st' /\ reps 1 m' (db st').
Proof.
  intros w' st. destruct (@wire_converges 1 idOrder demoFloats ∅ setRequest (demoWorld []) None w' empty_quiet (empty_reps 1))
    as (m' & ps & Hr & Hp & Hall).
  - intros k v t Hk. by rewrite lookup_empty in Hk.
  - intros a rest [= <- <-] o Ho. vm_compute in Ho. injection Ho as <-. by vm_compute.
  - assert (fst (@Dispatch idOrder demoFloats 2 setRequest (demoWorld [])) = Val None) as E by (vm_compute; reflexivity).
    rewrite <- E. apply surjective_pairing.
  - change (demoReplicated = ps) in Hp. subst ps. exists m'.
    destruct (Hall "n2"%string 0 1 demoFrames "c1"%string (mkIdentity "n2" EmptyString true false 2) None io_EOF demoService st) as (i & s1 & s2 & st' & ?).
    + assert (demoReplicated = [mkPayload "SET" "k" (Some "v"%string) 10000 0 EmptyString ∅ []]) as -> by (vm_compute; reflexivity).
      repeat constructor. intros k [v Hv]. change ((∅ : gmap string slice) !! k = Some v) in Hv. by rewrite lookup_empty in Hv.
    + done.
    + done.
    + done.
    + vm_compute. discriminate.
    + vm_compute. reflexivity.
    + split_and!; [by repeat constructor|done|done|done].
    + apply empty_quiet.
    + apply empty_reps.
    + exists i, s1, s2, st'. done.
Defined.
