(* ===== verification/Stats.v ===== *)
(** * The server's counters (internal/server/stats.go) and the metrics made of them (metrics.go).

    The counters are 64-bit and wrap.  Uptime, a float in the source, is the argument [secs] of the
    functions that use it: the whole seconds since the start. *)

From S2P Require Import Prelude GoInt GoStr GoTime GoSort Resp Config Json GoNet ConfigValid StoreBase.
From S2P Require Import Session Repl CmdBase Conn PeerLinks.

Record stats := mkStats {
  s_nodeID : string; s_clientPort : Z; s_buildVersion : string; s_activeClients : Z; s_totalConns : Z; s_totalCmds :
  Z; s_keyspaceHits : Z; s_keyspaceMisses : Z; s_peerInbound : Z; s_peerOutAddrs : list string; s_bootstrapState :
  string; s_bootstrapBytes : Z; s_bootstrapKeys : Z; s_bootstrapReplDepth : Z; s_replDropped : Z; s_replSendErrors :
  Z; s_discoveredPeers : Z; s_resyncs : Z; s_replGapEvents : Z; s_replMissedEvents : Z; s_replLateEvents : Z }.

Definition newStats (nodeID : string) (clientPort : Z) : stats :=
  mkStats nodeID clientPort EmptyString 0 0 0 0 0 0 [] "standalone" 0 0 0 0 0 0 0 0 0 0.

Definition setBootstrapState (state : string) (s : stats) : stats :=
  mkStats (s_nodeID s) (s_clientPort s) (s_buildVersion s) (s_activeClients s) (s_totalConns s) (s_totalCmds s)
    (s_keyspaceHits s) (s_keyspaceMisses s) (s_peerInbound s) (s_peerOutAddrs s) state (s_bootstrapBytes s)
    (s_bootstrapKeys s) (s_bootstrapReplDepth s) (s_replDropped s) (s_replSendErrors s) (s_discoveredPeers s) (s_resyncs
    s) (s_replGapEvents s) (s_replMissedEvents s) (s_replLateEvents s).
Definition clientConnected (s : stats) : stats :=
  mkStats (s_nodeID s) (s_clientPort s) (s_buildVersion s) (wrap64 (s_activeClients s + 1)) (wrap64 (s_totalConns s +
    1)) (s_totalCmds s) (s_keyspaceHits s) (s_keyspaceMisses s) (s_peerInbound s) (s_peerOutAddrs s) (s_bootstrapState s)
    (s_bootstrapBytes s) (s_bootstrapKeys s) (s_bootstrapReplDepth s) (s_replDropped s) (s_replSendErrors s)
    (s_discoveredPeers s) (s_resyncs s) (s_replGapEvents s) (s_replMissedEvents s) (s_replLateEvents s).
Definition clientDisconnected (s : stats) : stats :=
  mkStats (s_nodeID s) (s_clientPort s) (s_buildVersion s) (wrap64 (s_activeClients s + -1)) (s_totalConns s)
    (s_totalCmds s) (s_keyspaceHits s) (s_keyspaceMisses s) (s_peerInbound s) (s_peerOutAddrs s) (s_bootstrapState s)
    (s_bootstrapBytes s) (s_bootstrapKeys s) (s_bootstrapReplDepth s) (s_replDropped s) (s_replSendErrors s)
    (s_discoveredPeers s) (s_resyncs s) (s_replGapEvents s) (s_replMissedEvents s) (s_replLateEvents s).
Definition commandExecuted (s : stats) : stats :=
  mkStats (s_nodeID s) (s_clientPort s) (s_buildVersion s) (s_activeClients s) (s_totalConns s) (wrap64 (s_totalCmds s +
    1)) (s_keyspaceHits s) (s_keyspaceMisses s) (s_peerInbound s) (s_peerOutAddrs s) (s_bootstrapState s)
    (s_bootstrapBytes s) (s_bootstrapKeys s) (s_bootstrapReplDepth s) (s_replDropped s) (s_replSendErrors s)
    (s_discoveredPeers s) (s_resyncs s) (s_replGapEvents s) (s_replMissedEvents s) (s_replLateEvents s).
Definition SetReplicationStats (inbound : Z) (addrs : list string) (s : stats) : stats :=
  mkStats (s_nodeID s) (s_clientPort s) (s_buildVersion s) (s_activeClients s) (s_totalConns s) (s_totalCmds s)
    (s_keyspaceHits s) (s_keyspaceMisses s) inbound addrs (s_bootstrapState s) (s_bootstrapBytes s) (s_bootstrapKeys s)
    (s_bootstrapReplDepth s) (s_replDropped s) (s_replSendErrors s) (s_discoveredPeers s) (s_resyncs s) (s_replGapEvents
    s) (s_replMissedEvents s) (s_replLateEvents s).
Definition SetBootstrapInboundQueueDepth (depth : Z) (s : stats) : stats :=
  mkStats (s_nodeID s) (s_clientPort s) (s_buildVersion s) (s_activeClients s) (s_totalConns s) (s_totalCmds s)
    (s_keyspaceHits s) (s_keyspaceMisses s) (s_peerInbound s) (s_peerOutAddrs s) (s_bootstrapState s) (s_bootstrapBytes s)
    (s_bootstrapKeys s) depth (s_replDropped s) (s_replSendErrors s) (s_discoveredPeers s) (s_resyncs s) (s_replGapEvents
    s) (s_replMissedEvents s) (s_replLateEvents s).
Definition AddReplicationDropped (n : Z) (s : stats) : stats :=
  mkStats (s_nodeID s) (s_clientPort s) (s_buildVersion s) (s_activeClients s) (s_totalConns s) (s_totalCmds s)
    (s_keyspaceHits s) (s_keyspaceMisses s) (s_peerInbound s) (s_peerOutAddrs s) (s_bootstrapState s) (s_bootstrapBytes s)
    (s_bootstrapKeys s) (s_bootstrapReplDepth s) (wrap64 (s_replDropped s + n)) (s_replSendErrors s) (s_discoveredPeers s)
    (s_resyncs s) (s_replGapEvents s) (s_replMissedEvents s) (s_replLateEvents s).
Definition AddReplicationSendError (n : Z) (s : stats) : stats :=
  mkStats (s_nodeID s) (s_clientPort s) (s_buildVersion s) (s_activeClients s) (s_totalConns s) (s_totalCmds s)
    (s_keyspaceHits s) (s_keyspaceMisses s) (s_peerInbound s) (s_peerOutAddrs s) (s_bootstrapState s) (s_bootstrapBytes s)
    (s_bootstrapKeys s) (s_bootstrapReplDepth s) (s_replDropped s) (wrap64 (s_replSendErrors s + n)) (s_discoveredPeers s)
    (s_resyncs s) (s_replGapEvents s) (s_replMissedEvents s) (s_replLateEvents s).
Definition setDiscoveredPeers (n : Z) (s : stats) : stats :=
  mkStats (s_nodeID s) (s_clientPort s) (s_buildVersion s) (s_activeClients s) (s_totalConns s) (s_totalCmds s)
    (s_keyspaceHits s) (s_keyspaceMisses s) (s_peerInbound s) (s_peerOutAddrs s) (s_bootstrapState s) (s_bootstrapBytes s)
    (s_bootstrapKeys s) (s_bootstrapReplDepth s) (s_replDropped s) (s_replSendErrors s) n (s_resyncs s) (s_replGapEvents
    s) (s_replMissedEvents s) (s_replLateEvents s).
Definition addResync (n : Z) (s : stats) : stats :=
  mkStats (s_nodeID s) (s_clientPort s) (s_buildVersion s) (s_activeClients s) (s_totalConns s) (s_totalCmds s)
    (s_keyspaceHits s) (s_keyspaceMisses s) (s_peerInbound s) (s_peerOutAddrs s) (s_bootstrapState s) (s_bootstrapBytes s)
    (s_bootstrapKeys s) (s_bootstrapReplDepth s) (s_replDropped s) (s_replSendErrors s) (s_discoveredPeers s) (wrap64
    (s_resyncs s + n)) (s_replGapEvents s) (s_replMissedEvents s) (s_replLateEvents s).
(** A gap counts once, however many events it misses. *)
Definition AddReplicationGap (s : stats) : stats :=
  mkStats (s_nodeID s) (s_clientPort s) (s_buildVersion s) (s_activeClients s) (s_totalConns s) (s_totalCmds s)
    (s_keyspaceHits s) (s_keyspaceMisses s) (s_peerInbound s) (s_peerOutAddrs s) (s_bootstrapState s) (s_bootstrapBytes s)
    (s_bootstrapKeys s) (s_bootstrapReplDepth s) (s_replDropped s) (s_replSendErrors s) (s_discoveredPeers s) (s_resyncs
    s) (wrap64 (s_replGapEvents s + 1)) (s_replMissedEvents s) (s_replLateEvents s).
Definition AddReplicationLost (n : Z) (s : stats) : stats :=
  mkStats (s_nodeID s) (s_clientPort s) (s_buildVersion s) (s_activeClients s) (s_totalConns s) (s_totalCmds s)
    (s_keyspaceHits s) (s_keyspaceMisses s) (s_peerInbound s) (s_peerOutAddrs s) (s_bootstrapState s) (s_bootstrapBytes s)
    (s_bootstrapKeys s) (s_bootstrapReplDepth s) (s_replDropped s) (s_replSendErrors s) (s_discoveredPeers s) (s_resyncs
    s) (s_replGapEvents s) (wrap64 (s_replMissedEvents s + n)) (s_replLateEvents s).
Definition AddReplicationLate (n : Z) (s : stats) : stats :=
  mkStats (s_nodeID s) (s_clientPort s) (s_buildVersion s) (s_activeClients s) (s_totalConns s) (s_totalCmds s)
    (s_keyspaceHits s) (s_keyspaceMisses s) (s_peerInbound s) (s_peerOutAddrs s) (s_bootstrapState s) (s_bootstrapBytes s)
    (s_bootstrapKeys s) (s_bootstrapReplDepth s) (s_replDropped s) (s_replSendErrors s) (s_discoveredPeers s) (s_resyncs
    s) (s_replGapEvents s) (s_replMissedEvents s) (wrap64 (s_replLateEvents s + n)).
Definition RecordHit (n : Z) (s : stats) : stats :=
  mkStats (s_nodeID s) (s_clientPort s) (s_buildVersion s) (s_activeClients s) (s_totalConns s) (s_totalCmds s) (if n >?
    0 then wrap64 (s_keyspaceHits s + n) else s_keyspaceHits s) (s_keyspaceMisses s) (s_peerInbound s) (s_peerOutAddrs s)
    (s_bootstrapState s) (s_bootstrapBytes s) (s_bootstrapKeys s) (s_bootstrapReplDepth s) (s_replDropped s)
    (s_replSendErrors s) (s_discoveredPeers s) (s_resyncs s) (s_replGapEvents s) (s_replMissedEvents s) (s_replLateEvents
    s).
Definition RecordMiss (n : Z) (s : stats) : stats :=
  mkStats (s_nodeID s) (s_clientPort s) (s_buildVersion s) (s_activeClients s) (s_totalConns s) (s_totalCmds s)
    (s_keyspaceHits s) (if n >? 0 then wrap64 (s_keyspaceMisses s + n) else s_keyspaceMisses s) (s_peerInbound s)
    (s_peerOutAddrs s) (s_bootstrapState s) (s_bootstrapBytes s) (s_bootstrapKeys s) (s_bootstrapReplDepth s)
    (s_replDropped s) (s_replSendErrors s) (s_discoveredPeers s) (s_resyncs s) (s_replGapEvents s) (s_replMissedEvents s)
    (s_replLateEvents s).
Definition SetBuildVersion (v : string) (s : stats) : stats :=
  mkStats (s_nodeID s) (s_clientPort s) (TrimSpace v) (s_activeClients s) (s_totalConns s) (s_totalCmds s)
    (s_keyspaceHits s) (s_keyspaceMisses s) (s_peerInbound s) (s_peerOutAddrs s) (s_bootstrapState s) (s_bootstrapBytes s)
    (s_bootstrapKeys s) (s_bootstrapReplDepth s) (s_replDropped s) (s_replSendErrors s) (s_discoveredPeers s) (s_resyncs
    s) (s_replGapEvents s) (s_replMissedEvents s) (s_replLateEvents s).
Definition ResetBootstrapStats (s : stats) : stats :=
  mkStats (s_nodeID s) (s_clientPort s) (s_buildVersion s) (s_activeClients s) (s_totalConns s) (s_totalCmds s)
    (s_keyspaceHits s) (s_keyspaceMisses s) (s_peerInbound s) (s_peerOutAddrs s) (s_bootstrapState s) 0 0
    (s_bootstrapReplDepth s) (s_replDropped s) (s_replSendErrors s) (s_discoveredPeers s) (s_resyncs s) (s_replGapEvents
    s) (s_replMissedEvents s) (s_replLateEvents s).
Definition AddBootstrapBytes (n : Z) (s : stats) : stats :=
  mkStats (s_nodeID s) (s_clientPort s) (s_buildVersion s) (s_activeClients s) (s_totalConns s) (s_totalCmds s)
    (s_keyspaceHits s) (s_keyspaceMisses s) (s_peerInbound s) (s_peerOutAddrs s) (s_bootstrapState s) (if n >? 0 then
    wrap64 (s_bootstrapBytes s + n) else s_bootstrapBytes s) (s_bootstrapKeys s) (s_bootstrapReplDepth s) (s_replDropped
    s) (s_replSendErrors s) (s_discoveredPeers s) (s_resyncs s) (s_replGapEvents s) (s_replMissedEvents s)
    (s_replLateEvents s).
Definition AddBootstrapKeys (n : Z) (s : stats) : stats :=
  mkStats (s_nodeID s) (s_clientPort s) (s_buildVersion s) (s_activeClients s) (s_totalConns s) (s_totalCmds s)
    (s_keyspaceHits s) (s_keyspaceMisses s) (s_peerInbound s) (s_peerOutAddrs s) (s_bootstrapState s) (s_bootstrapBytes s)
    (if n >? 0 then wrap64 (s_bootstrapKeys s + n) else s_bootstrapKeys s) (s_bootstrapReplDepth s) (s_replDropped s)
    (s_replSendErrors s) (s_discoveredPeers s) (s_resyncs s) (s_replGapEvents s) (s_replMissedEvents s) (s_replLateEvents
    s).

(** [OpsPerSec]: the commands so far over the seconds so far, at least one. *)
Definition opsPerSec (secs : Z) (s : stats) : Z := opsPerSecond (s_totalCmds s) secs.

Definition BootstrapStatusMap (queueDepthConfig : Z) (s : stats) : json :=
  JObj [("bootstrap_queue_depth_config"%string, jInt queueDepthConfig); ("bytes_received"%string, jInt (s_bootstrapBytes s));
        ("keys_applied"%string, jInt (s_bootstrapKeys s)); ("queue_depth"%string, jInt (s_bootstrapReplDepth s))].

(** What the commands see of the counters; the rest of the record is the platform's. *)
Definition infoProvider (secs : Z) (os arch : string) (pid : Z) (exe : string) (s : stats) : InfoProvider :=
  mkInfo (s_clientPort s) secs (s_activeClients s) (s_totalConns s) (s_totalCmds s) (opsPerSec secs s) (s_peerInbound s)
    (s_peerOutAddrs s) (s_nodeID s) (s_bootstrapState s) (s_replDropped s) (s_replSendErrors s) (s_replMissedEvents s)
    (s_buildVersion s) os arch pid exe.

(** What a connection counts in the view it has of the counters is what the server counts. *)
Lemma infoProvider_counts secs os arch pid exe s :
  let view := infoProvider secs os arch pid exe in
  view (clientConnected s) = clientIn (view s) /\ view (clientDisconnected s) = clientOut (view s) /\
  view (commandExecuted s) = commandDone (view s).
Proof. done. Qed.

(** ** Metrics *)

Inductive metricKind := Gauge | Counter.
Record family := mkFamily { mf_kind : metricKind; mf_name : string; mf_help : string; mf_value : Z }.

(** The families [runPrometheusMetrics] registers, in the namespace "supercache", with the value each
    reads; [mem] and [keys] are the store's. *)
Definition metricFamilies (secs mem keys : Z) (s : stats) : list family :=
  [
   mkFamily Gauge "connected_clients" "Current number of open RESP client connections." (s_activeClients s);
   mkFamily Counter "commands_processed_total" "Total commands processed since process start." (s_totalCmds s);
   mkFamily Counter "connections_received_total" "Total TCP client connections accepted since process start." (s_totalConns s);
   mkFamily Counter "keyspace_hits_total" "Total keyspace hits recorded for INFO." (s_keyspaceHits s);
   mkFamily Counter "keyspace_misses_total" "Total keyspace misses recorded for INFO." (s_keyspaceMisses s);
   mkFamily Gauge "instantaneous_ops_per_second" "Approximate commands per second since process start (same basis as INFO)." (opsPerSec secs s);
   mkFamily Gauge "uptime_seconds" "Approximate process uptime in seconds." (secs);
   mkFamily Gauge "used_memory_bytes" "Approximate memory used by the store." (mem);
   mkFamily Gauge "db_keys" "Number of keys in the logical database." (keys);
   mkFamily Gauge "replication_inbound_connections" "Inbound peer replication connections." (s_peerInbound s);
   mkFamily Gauge "replication_outbound_peers" "Number of active outbound peer mesh connections." (Z.of_nat (List.length (s_peerOutAddrs s)));
   mkFamily Counter "replication_dropped_total" "Replication events discarded because a peer's outbound queue was full. Any increase means this node and that peer have diverged." (s_replDropped s);
   mkFamily Counter "replication_send_errors_total" "Replication events whose socket write failed. Any increase means this node and that peer have diverged." (s_replSendErrors s);
   mkFamily Counter "replication_missed_events_total" "Replication events confirmed never to have arrived, after waiting for them. Any increase means this node is genuinely missing data the cluster has." (s_replMissedEvents s);
   mkFamily Counter "replication_gap_events_total" "Times a peer's sequence skipped forward. Expected under concurrent writes and usually resolves on its own; only replication_missed_events_total means data was lost." (s_replGapEvents s);
   mkFamily Counter "replication_late_events_total" "Replication events arriving at or below a sequence already seen, expected in small numbers when a link to a peer is replaced." (s_replLateEvents s);
   mkFamily Counter "replication_resyncs_total" "Times this node refetched the dataset after confirming replication events were lost. Any increase means data was missed, not merely delayed." (s_resyncs s);
   mkFamily Gauge "discovered_peers" "Addresses returned by the last peer discovery listing. Zero on a fleet that should have peers means discovery is answering but finding nothing." (s_discoveredPeers s);
   mkFamily Gauge "bootstrap_inbound_queue_depth" "Depth of inbound replication queue during bootstrap (0 when idle)." (s_bootstrapReplDepth s);
   mkFamily Gauge "bootstrap_keys_applied" "Keys applied during the last bootstrap pull (0 if none)." (s_bootstrapKeys s)].

(** The label of the constant metric "build_info". *)
Definition buildLabel (s : stats) : string := let ver := TrimSpace (s_buildVersion s) in if sempty ver then "unknown" else ver.

(** Where the endpoint listens, if it does. *)
Definition metricsAddr (c : Config) : option string :=
  if MetricsPort c <=? 0 then None
  else let bind := TrimSpace (MetricsBind c) in
       Some (JoinHostPort (if sempty bind then "0.0.0.0"%string else bind) (FormatInt (MetricsPort c))).

Definition fullName (f : family) : string := "supercache_" +++ mf_name f.

(** Registering a name twice would panic: the names differ from each other and from "build_info". *)
Lemma metrics_register secs mem keys s : NoDup ("supercache_build_info"%string :: map fullName (metricFamilies secs mem keys s)).
Proof. change (map fullName _) with (map fullName (metricFamilies 0 0 0 (newStats EmptyString 0))). by apply (bool_decide_eq_true_1 _). Qed.
