(* ===== verification/Discovery.v ===== *)
(** * Peer discovery (internal/discovery/hetzner.go, internal/server/discovery.go).

    The service that answers is a parameter: [fetch] gives the response to a request for an endpoint
    with a token. *)

From S2P Require Import Prelude GoInt GoStr GoTime GoSort Resp Config Json GoNet ConfigValid StoreBase Repl PeerWire PeerMembers Stats.

(** ** The provider *)

Definition DefaultHetznerBaseURL : string := "https://api.hetzner.cloud".
Definition maxHetznerPages : nat := 40.
Definition hetznerPageSize : Z := 50.

Record Hetzner := mkHetzner { hz_Token : string; hz_LabelSelector : string; hz_NetworkID : Z; hz_Port : Z; hz_BaseURL : string }.

Record privateNet := mkNet { pn_Network : Z; pn_IP : string }.
Record hetznerServer := mkServer { hs_Name : string; hs_Status : string; hs_PrivateNet : list privateNet }.
Record hetznerListResponse := mkListing { hl_Servers : list hetznerServer; hl_NextPage : Z }.

Definition netFields : list (field privateNet) :=
  [("network"%string, into pn_Network (fun x n => mkNet x (pn_IP n)) dInt);
   ("ip"%string, into pn_IP (fun x n => mkNet (pn_Network n) x) dString)].
Definition serverFields : list (field hetznerServer) :=
  [("name"%string, into hs_Name (fun x s => mkServer x (hs_Status s) (hs_PrivateNet s)) dString);
   ("status"%string, into hs_Status (fun x s => mkServer (hs_Name s) x (hs_PrivateNet s)) dString);
   ("private_net"%string, into hs_PrivateNet (fun x s => mkServer (hs_Name s) (hs_Status s) x) (dSlice (mkNet 0 EmptyString) (dStruct netFields)))].
(** [Meta] and its [Pagination] are structs with one field each. *)
Definition pageFields : list (field Z) := [("next_page"%string, fun n j => dInt n j)].
Definition metaFields : list (field Z) := [("pagination"%string, fun n j => dStruct pageFields n j)].
Definition listingFields : list (field hetznerListResponse) :=
  [("servers"%string, into hl_Servers (fun x l => mkListing x (hl_NextPage l)) (dSlice (mkServer EmptyString EmptyString []) (dStruct serverFields)));
   ("meta"%string, into hl_NextPage (fun x l => mkListing (hl_Servers l) x) (dStruct metaFields))].

(** [strings.TrimRight(s, "/")]. *)
Definition trimSlashes (s : string) : string :=
  let fix drop (s : string) : string := match s with String c r => if code c =? 47 then drop r else s | EmptyString => s end in
  srev (drop (srev s)).

Definition baseURL (h : Hetzner) : string :=
  if negb (sempty (TrimSpace (hz_BaseURL h))) then trimSlashes (TrimSpace (hz_BaseURL h)) else DefaultHetznerBaseURL.

(** [url.QueryEscape]. *)
Definition upperHex (n : Z) : ascii := upperByte (hexDigit n).
Definition escapeQueryByte (c : ascii) : string :=
  let n := code c in
  if is_digit c || ((65 <=? n) && (n <=? 90)) || ((97 <=? n) && (n <=? 122)) || (n =? 45) || (n =? 95) || (n =? 46) || (n =? 126) then one c
  else if n =? 32 then "+" else "%" +++ one (upperHex (n / 16)) +++ one (upperHex (n mod 16)).
Fixpoint QueryEscape (s : string) : string :=
  match s with EmptyString => EmptyString | String c s => escapeQueryByte c +++ QueryEscape s end.

(** The query's parameters are encoded in the order of their names. *)
Definition endpoint (h : Hetzner) (page : Z) : string :=
  let sel := TrimSpace (hz_LabelSelector h) in
  baseURL h +++ "/v1/servers?"
    +++ (if sempty sel then EmptyString else "label_selector=" +++ QueryEscape sel +++ "&")
    +++ "page=" +++ FormatInt page +++ "&per_page=" +++ FormatInt hetznerPageSize.

Record response := mkResponse { rs_StatusCode : Z; rs_Status : string; rs_Body : res string }.

Definition bodyLimit : Z := Z.shiftl 8 20.

Section provider.
Context (fetch : string -> string -> res response).

Definition listPage (h : Hetzner) (page : Z) : res hetznerListResponse :=
  match fetch (endpoint h page) (hz_Token h) with
  | inl err => inl (wrapErr "hetzner discovery: " err)
  | inr r =>
      match rs_Body r with
      | inl err => inl (wrapErr "hetzner discovery: read body: " err)
      | inr body =>
          let body := if len body <=? bodyLimit then body else stake (Z.to_nat bodyLimit) body in
          if negb (rs_StatusCode r =? 200) then inl (New ("hetzner discovery: api returned " +++ rs_Status r))
          else match Unmarshal (mkListing [] 0) listingFields (parse body) with
               | (_, false) => inl (New "hetzner discovery: decode response: invalid json")
               | (l, true) => inr l
               end
      end
  end.

Fixpoint pickIP (network : Z) (nets : list privateNet) : string :=
  match nets with
  | [] => EmptyString
  | n :: nets =>
      let ip := TrimSpace (pn_IP n) in
      if sempty ip then pickIP network nets
      else if negb (network =? 0) && negb (pn_Network n =? network) then pickIP network nets
      else ip
  end.

Definition privateIP (h : Hetzner) (srv : hetznerServer) : string := pickIP (hz_NetworkID h) (hs_PrivateNet srv).

(** One server of a page: the addresses so far, which are the keys of [seen]. *)
Definition addServer (h : Hetzner) (out : list string) (srv : hetznerServer) : list string :=
  if negb (hs_Status srv =? "running")%string then out
  else
    let ip := privateIP h srv in
    if sempty ip then out
    else
      let addr := JoinHostPort ip (FormatInt (hz_Port h)) in
      if bool_decide (addr ∈ out) then out else out ++ [addr].

Fixpoint listPages (fuel : nat) (h : Hetzner) (page : Z) (out : list string) : res (list string) :=
  match fuel with
  | O => inr out
  | S fuel =>
      if page <=? 0 then inr out
      else match listPage h page with
           | inl err => inl err
           | inr l => listPages fuel h (hl_NextPage l) (fold_left (addServer h) (hl_Servers l) out)
           end
  end.

(** [Peers]. *)
Definition hetznerPeers (h : Hetzner) : res (list string) :=
  if sempty (TrimSpace (hz_Token h)) then inl (New "hetzner discovery: no api token")
  else if hz_Port h <=? 0 then inl (New "hetzner discovery: no peer port")
  else listPages maxHetznerPages h 1 [].

(** ** The server's use of it *)

Definition discoveryProviders (c : option Config) (env : string) : list Hetzner :=
  match c with
  | None => []
  | Some c =>
      let token := TrimSpace (HetznerAPIToken c) in
      let token := if sempty token then TrimSpace env else token in
      if sempty token then []
      else [mkHetzner token (TrimSpace (HetznerLabelSelector c)) (HetznerNetworkID c) (PeerPort c) (TrimSpace (HetznerAPIURL c))]
  end.

(** One listing of [discoverOnce]: whether a provider answered, the membership and the counters.
    [connected] are the addresses with a link. *)
Definition applyListing (now : Time) (connected : gset string) (addrs : list string) (m : Members) : Members :=
  snd (ForgetPeersMissingFrom addrs connected (fold_left (fun m a => snd (AddPeerFrom now a SourceDiscovery m)) addrs m)).

Fixpoint discoverOnce (now : Time) (connected : gset string) (providers : list Hetzner) (listed : bool) (m : Members) (s : stats)
    : bool * Members * stats :=
  match providers with
  | [] => (listed, m, s)
  | p :: providers =>
      match hetznerPeers p with
      | inl _ => discoverOnce now connected providers listed m s
      | inr addrs =>
          discoverOnce now connected providers true (applyListing now connected addrs m) (setDiscoveredPeers (Z.of_nat (List.length addrs)) s)
      end
  end.
End provider.

(** How often [runPeerDiscovery] lists, if it does. *)
Definition discoveryEvery (c : Config) : option Z :=
  let interval := wrap64 (DiscoveryInterval c * Second) in if interval <=? 0 then None else Some interval.

(** [runPeerReaper]: the age at which a peer is forgotten and how often that is looked for. *)
Definition reaperTimes (c : Config) : option (Z * Z) :=
  let after := wrap64 (PeerForgetAfter c * Second) in
  if after <=? 0 then None
  else let every := Z.quot after 10 in Some (after, if every <? 60 * Second then 60 * Second else every).

(** ** What a listing contributes *)

Section listed.
Context (fetch : string -> string -> res response).

(** A running server on some page, with the address picked for it. *)
Definition serverAddr (h : Hetzner) (srv : hetznerServer) (addr : string) : Prop :=
  hs_Status srv = "running"%string /\ exists n, n ∈ hs_PrivateNet srv /\ TrimSpace (pn_IP n) <> EmptyString /\
    (hz_NetworkID h = 0 \/ pn_Network n = hz_NetworkID h) /\ addr = JoinHostPort (TrimSpace (pn_IP n)) (FormatInt (hz_Port h)).

Lemma pickIP_spec network nets : pickIP network nets <> EmptyString ->
  exists n, n ∈ nets /\ TrimSpace (pn_IP n) = pickIP network nets /\ (network = 0 \/ pn_Network n = network).
Proof.
  induction nets as [|n nets IH]; cbn [pickIP]; [done|]. destruct (sempty (TrimSpace (pn_IP n))) eqn:E.
  - intros Hp. destruct (IH Hp) as (x & ? & ? & ?). exists x. split_and!; [by right|done|done].
  - destruct (negb (network =? 0) && negb (pn_Network n =? network)) eqn:E2.
    + intros Hp. destruct (IH Hp) as (x & ? & ? & ?). exists x. split_and!; [by right|done|done].
    + intros _. exists n. split_and!; [by left|done|]. zify_bool. lia.
Qed.

Lemma addServer_spec h out srv : NoDup out -> NoDup (addServer h out srv) /\
  (forall a, a ∈ addServer h out srv -> a ∈ out \/ serverAddr h srv a).
Proof.
  intros Hn. unfold addServer. destruct (hs_Status srv =? "running")%string eqn:E; cbn [negb]; [|auto]. apply String.eqb_eq in E.
  destruct (sempty (privateIP h srv)) eqn:Ei; [auto|]. case_bool_decide as Hin; [auto|]. split.
  - apply NoDup_app. split_and!; [done| |apply NoDup_singleton]. intros x Hx Hy%list_elem_of_singleton. by subst.
  - intros a [?| ->%list_elem_of_singleton]%elem_of_app; [by left|right]. split; [done|].
    destruct (pickIP_spec (hz_NetworkID h) (hs_PrivateNet srv)) as (n & Hn' & He & Hnet); [intros Hp; unfold privateIP in Ei; by rewrite Hp in Ei|].
    exists n. rewrite He. split_and!; [done| |tauto|done]. intros Hp. unfold privateIP in Ei. by rewrite Hp in Ei.
Qed.

Definition onPage (h : Hetzner) (srv : hetznerServer) : Prop := exists page l, listPage fetch h page = inr l /\ srv ∈ hl_Servers l.

Lemma listPages_spec fuel h page out addrs : NoDup out -> (forall a, a ∈ out -> exists srv, onPage h srv /\ serverAddr h srv a) ->
  listPages fetch fuel h page out = inr addrs -> NoDup addrs /\ forall a, a ∈ addrs -> exists srv, onPage h srv /\ serverAddr h srv a.
Proof.
  revert page out. induction fuel as [|fuel IH]; intros page out Hn Ha; cbn [listPages]; [by intros [= <-]|].
  destruct (page <=? 0); [by intros [= <-]|]. destruct (listPage fetch h page) as [|l] eqn:E; [done|]. apply IH.
  - clear Ha E IH. revert out Hn. induction (hl_Servers l) as [|srv ss IH]; intros out Hn; [done|]. cbn. apply IH. by apply addServer_spec.
  - assert (forall srv, srv ∈ hl_Servers l -> onPage h srv) as Hon by (intros srv ?; by exists page, l).
    clear E IH. revert out Hn Ha. induction (hl_Servers l) as [|srv ss IH]; intros out Hn Ha; [done|]. cbn. apply IH.
    + intros ? ?. apply Hon. by right.
    + by apply addServer_spec.
    + intros a Hin. destruct (addServer_spec h out srv Hn) as [_ Hs]. destruct (Hs a Hin) as [?|?]; [by apply Ha|].
      exists srv. split; [apply Hon; by left|done].
Qed.

(** Discovery reports no address twice, and only private addresses of running servers the service
    listed, on the configured network when one is. *)
Lemma hetzner_lists_private h addrs : hetznerPeers fetch h = inr addrs ->
  NoDup addrs /\ forall a, a ∈ addrs -> exists srv, onPage h srv /\ serverAddr h srv a.
Proof.
  unfold hetznerPeers. destruct (sempty _); [done|]. destruct (_ <=? 0); [done|]. apply listPages_spec; [constructor|].
  by intros a ?%elem_of_nil.
Qed.
End listed.
