(* ===== verification/Lifecycle.v ===== *)
(** * The server's life (internal/server/server.go, the resync of discovery.go): when it serves, how it
    synchronises, reloads and stops.

    Goroutines that run side by side are steps of LifecycleSpec.v; contexts are cancelled by no one but
    the shutdown. *)

From S2P Require Import Prelude GoInt GoStr GoTime GoSort Resp Config Json GoNet GoCrypto ConfigValid StoreBase Eviction StoreString.
From S2P Require Import StoreHash StoreList StoreSet StoreKeys Repl PeerWire PeerLinks PeerGap PeerMembers PeerAuth PeerBoot PeerSession Stats.

(** The part of [Server] that decides whether clients are served. *)
Record Server := mkServer {
  v_clientReady : bool; v_stats : stats; v_resyncing : bool; v_lastResync : Z; v_resyncPending : bool;
  v_discoveryEnabled : bool; v_discoveryListed : bool; v_foundCluster : bool; v_running : bool }.

(** [New], before [Run]. *)
Definition newServer (st : stats) (found : bool) : Server := mkServer true st false 0 false false false found false.

Definition setReady (b : bool) (state : string) (s : Server) : Server :=
  mkServer b (setBootstrapState state (v_stats s)) (v_resyncing s) (v_lastResync s) (v_resyncPending s)
    (v_discoveryEnabled s) (v_discoveryListed s) (v_foundCluster s) (v_running s).
Definition setResync (busy : bool) (last : Z) (pending : bool) (s : Server) : Server :=
  mkServer (v_clientReady s) (v_stats s) busy last pending (v_discoveryEnabled s) (v_discoveryListed s) (v_foundCluster s) (v_running s).
Definition setListed (s : Server) : Server :=
  mkServer (v_clientReady s) (v_stats s) (v_resyncing s) (v_lastResync s) (v_resyncPending s) (v_discoveryEnabled s) true (v_foundCluster s) (v_running s).

(** ** Where to synchronise from *)

Fixpoint addSeeds (seeds : list string) (seen : gset string) : list string :=
  match seeds with
  | [] => []
  | seed :: seeds =>
      if bool_decide (NormalizePeerAddr seed ∈ seen) then addSeeds seeds seen
      else seed :: addSeeds seeds ({[NormalizePeerAddr seed]} ∪ seen)
  end.

Definition bootstrapSources (c : Config) (m : Members) (seeds : list string) : list string :=
  let out := BootstrapCandidates (Some c) ++ ConfigPeerAddrs m in
  out ++ addSeeds seeds (list_to_set (map NormalizePeerAddr out)).

(** ** One attempt *)

Definition errNoPeerLink : error := mkError "no peer link established" (Some ErrNoPeerLink).

(** [awaitPeerLink]: the numbers of links it sees until its deadline. *)
Fixpoint awaitPeerLink (counts : list Z) : option error :=
  match counts with
  | [] => Some (mkError (errText errNoPeerLink +++ " within 15s; cannot sync without one") (errIs errNoPeerLink))
  | n :: counts => if n >? 0 then None else awaitPeerLink counts
  end.

Section attempt.
Context `{MapOrder}.

(** [bootstrapOnce]: buffering is on for its duration, whatever its end; the workers' arrivals while it
    drains are [arrivals]. *)
Definition bootstrapOnce (depth : Z) (counts : list Z) (attempts : list (string * M (option error))) (fuel : nat)
    (arrivals : list (list wireRepl)) (b : Boot) : M (outcome (option error) * Boot) :=
  let b := SetBootstrapInboundActive true depth b in
  let finish r b := mret (r, SetBootstrapInboundActive false 0 b) in
  match awaitPeerLink counts with
  | Some err => finish (Ret (Some err)) b
  | None =>
      r ← PullSnapshotFailover attempts;
      match r with
      | Some err => finish (Ret (Some err)) b
      | None => x ← DrainBootstrapInboundQueue fuel arrivals b; let '(o, b) := x in finish o b
      end
  end.
End attempt.

(** ** Until it is synchronised *)

Definition minBackoff : Z := 500 * Millisecond.
Definition maxBackoff : Z := 30 * Second.
Definition nextBackoff (b : Z) : Z := let b := b * 2 in if b >? maxBackoff then maxBackoff else b.

(** One turn of [bootstrapUntilSynced], given the sources it finds and what the attempt on them gave: the
    wait before the next turn, or the end. *)
Definition bootstrapTurn (sources : list string) (err : option error) (backoff : Z) (s : Server) : option Z * Server :=
  if bool_decide (sources = []) then
    if v_discoveryListed s then (None, setReady true "standalone" s) else (Some (nextBackoff backoff), s)
  else match err with
       | None => (None, setReady true "ready" s)
       | Some e =>
           if Is e ErrNoPeerLink && v_foundCluster s then (None, setReady true "standalone" s)
           else (Some (nextBackoff backoff), s)
       end.

(** [Run] from the peer listener being up to the client listener: whether [bootstrapUntilSynced] was
    started.  [providers] tells whether discovery has any. *)
Definition startServing (providers : bool) (sources : list string) (s : Server) : bool * Server :=
  let s := mkServer (v_clientReady s) (v_stats s) (v_resyncing s) (v_lastResync s) (v_resyncPending s)
             (providers || v_discoveryEnabled s) (v_discoveryListed s) (v_foundCluster s) true in
  if bool_decide (sources = []) && negb (v_discoveryEnabled s) then
    (false, mkServer true (v_stats s) (v_resyncing s) (v_lastResync s) (v_resyncPending s)
              (v_discoveryEnabled s) (v_discoveryListed s) (v_foundCluster s) (v_running s))
  else (true, setReady false "syncing" s).

(** ** Resynchronising *)

(** [RequestResync]: whether a resync was started. *)
Definition RequestResync (c : Config) (now : Time) (s : Server) : bool * Server :=
  if negb (ResyncOnGapEnabled (Some c)) then (false, s)
  else if v_resyncing s then (false, setResync true (v_lastResync s) true s)
  else
    let minGap := wrap64 (ResyncMinInterval c * Second) in
    let last := v_lastResync s in
    if negb (last =? 0) && (Sub now (UnixMilli last) <? minGap) then (false, setResync false last true s)
    else if negb (v_running s) then (false, setResync false last (v_resyncPending s) s)
    else
      let s := setReady false "syncing" (setResync true (ToUnixMilli now) false s) in
      (true, mkServer (v_clientReady s) (addResync 1 (v_stats s)) (v_resyncing s) (v_lastResync s) (v_resyncPending s)
               (v_discoveryEnabled s) (v_discoveryListed s) (v_foundCluster s) (v_running s)).

(** The end of the goroutine a resync runs in. *)
Definition resyncDone (s : Server) : Server := setResync false (v_lastResync s) (v_resyncPending s) s.

(** A tick of [runResyncDeferred]. *)
Definition resyncTick (c : Config) (now : Time) (s : Server) : bool * Server :=
  if v_resyncPending s then RequestResync c now s else (false, s).

(** ** Reloading *)

(** [ApplyHotReload], on the parts that hold a configuration. *)
Definition ApplyHotReload (cfg : Config) (db : Store) (m : Members) : Config * Store * Members :=
  (cfg, ReplaceConfig (Some cfg) db, SyncPeersFromConfig (Peers cfg) (SetConfig cfg m)).

(** [ReloadFromDisk]: [loaded] is what loading the file gave. *)
Definition ReloadFromDisk (configPath : string) (loaded : res Config) (cur : Config) (db : Store) (m : Members)
    : res (list string) * (Config * Store * Members) :=
  if sempty configPath then (inl (New "config path not set"), (cur, db, m))
  else match Reload (Some cur) loaded with
       | inl err => (inl err, (cur, db, m))
       | inr (cfg, changed) => (inr changed, ApplyHotReload cfg db m)
       end.

(** ** Accepting clients *)

Inductive acceptError := ListenerClosed | Timeout | EMFILE | ENFILE | ENOBUFS | ENOMEM | ECONNABORTED | EINTR | OtherAcceptError.

Definition isTransientAcceptError (e : acceptError) : bool :=
  match e with
  | Timeout | EMFILE | ENFILE | ENOBUFS | ENOMEM | ECONNABORTED | EINTR => true
  | _ => false
  end.

Inductive acceptNext := Serve | RetryAfter (delay : Z) | StopRun (fatal : bool).

(** One turn of the accept loop, given the delay of the last one and whether the run was cancelled: what
    happens and the delay to remember. *)
Definition acceptTurn (r : option acceptError) (cancelled : bool) (acceptDelay : Z) : acceptNext * Z :=
  match r with
  | None => (Serve, 0)
  | Some e =>
      if match e with ListenerClosed => true | _ => false end || cancelled then (StopRun false, acceptDelay)
      else if isTransientAcceptError e then
        let d := if acceptDelay =? 0 then 10 * Millisecond else if acceptDelay <? Second then acceptDelay * 2 else acceptDelay in
        (RetryAfter d, d)
      else (StopRun true, acceptDelay)
  end.

(** ** Stopping *)

Definition replSpillPathResolved (c : Config) (configPath tmp : string) : string :=
  let p := TrimSpace (ReplShutdownSpillPath c) in
  if (p =? "-")%string then EmptyString
  else if negb (sempty p) then p
  else
    let dir := if negb (sempty configPath) then Dir configPath else tmp in
    Clean (dir +++ "/supercache-repl-spill.json").

Inductive shutdownStep :=
  | CloseClientListener | ClosePeerListener | DrainOutbound | SayLeave | ClosePeerConnections | NudgeHandlers | CancelRun
  | Finalize (spillPath : string).

(** How waiting for the client handlers ends: they finish; the wait times out and then they finish, or do
    not; the wait is cancelled; or it times out and then the deadline of the whole shutdown passes. *)
Inductive drained := AllDone | Nudged (inTime : bool) | WaitCancelled | OutOfTime.

(** [Shutdown]: what it does, in order; [late] tells at which stages it finds its deadline passed. *)
Definition Shutdown (c : Config) (configPath tmp : string) (late : string -> bool) (handlers : drained) : list shutdownStep :=
  let stage name rest := if late name then [] else rest in
  [CloseClientListener; ClosePeerListener] ++
  stage "close listeners"%string
    ((if AnnounceLeaveEnabled (Some c) then [DrainOutbound; SayLeave] else []) ++
     stage "announce leave"%string
       (ClosePeerConnections ::
        stage "close peer connections"%string
          (let rest := stage "after waitgroup"%string
                         (CancelRun :: stage "cancel run context"%string [Finalize (replSpillPathResolved c configPath tmp)]) in
           match handlers with
           | AllDone => rest
           | Nudged _ => NudgeHandlers :: rest
           | WaitCancelled => []
           | OutOfTime => [NudgeHandlers]
           end))).

(** [CloseActiveConnections]: every session's reader fails, and the session ends by removing its link. *)
Definition closeActiveConnections (s : Links) : Links := fold_left (fun s l => stopInboundReplLink (l_linkSeq l) s) (k_out s) s.

Definition savePeerState (c : Config) (m : Members) : option (string * json) :=
  let p := TrimSpace (PeerStateFile c) in
  if sempty p then None else Some (p, SavePeerStateFile (ConfigPeerAddrs m)).
