(* ===== verification/LifecycleSpec.v ===== *)
(** * The server's life: it serves only when it is synchronised, a resync it owes is not forgotten and
    resyncs keep their distance; what overlapping synchronisations and a shutdown do instead. *)

From S2P Require Import Prelude GoInt GoStr GoTime GoSort Resp Config Json GoNet GoCrypto ConfigValid StoreBase Eviction StoreString.
From S2P Require Import StoreHash StoreList StoreSet StoreKeys Repl PeerWire PeerLinks PeerGap PeerMembers PeerAuth PeerBoot PeerSession Stats.
From S2P Require Import PeerMembersSpec Lifecycle.

(** ** Synchronisations side by side *)

(** A running [bootstrapUntilSynced]: of a resync or of the start; between attempts, or with a pull
    under way, which has emptied the store and not filled it yet. *)
Inductive phase := Waiting | Pulling.
Record task := mkTask { tk_resync : bool; tk_phase : phase; tk_backoff : Z }.

(** How the last synchronisation that ended went: where the attempt had got to, the sources it was made on, its error,
    and whether discovery had answered. *)
Record attempt := mkAttempt { at_phase : phase; at_sources : list string; at_err : option error; at_listed : bool }.
Record System := mkSystem { sy_server : Server; sy_tasks : list task; sy_last : option attempt }.

(** Without a link an attempt ends before the pull; with one it does not end for want of a link. *)
Definition possible (p : phase) (sources : list string) (err : option error) : Prop :=
  match p with
  | Waiting => sources = [] \/ exists e, err = Some e /\ Is e ErrNoPeerLink = true
  | Pulling => sources <> [] /\ forall e, err = Some e -> Is e ErrNoPeerLink = false
  end.

Definition started (b : bool) : list task := if b then [mkTask true Waiting minBackoff] else [].

Inductive sysStep : System -> System -> Prop :=
  | sys_pull s ts h i r b : ts !! i = Some (mkTask r Waiting b) -> sysStep (mkSystem s ts h) (mkSystem s (<[i := mkTask r Pulling b]> ts) h)
  | sys_retry s ts h i t sources err b s' : ts !! i = Some t -> possible (tk_phase t) sources err ->
      bootstrapTurn sources err (tk_backoff t) s = (Some b, s') -> sysStep (mkSystem s ts h) (mkSystem s' (<[i := mkTask (tk_resync t) Waiting b]> ts) h)
  | sys_finish s ts h i t sources err s' : ts !! i = Some t -> possible (tk_phase t) sources err ->
      bootstrapTurn sources err (tk_backoff t) s = (None, s') ->
      sysStep (mkSystem s ts h)
        (mkSystem (if tk_resync t then resyncDone s' else s') (delete i ts) (Some (mkAttempt (tk_phase t) sources err (v_discoveryListed s))))
  | sys_request s ts h c now b s' : RequestResync c now s = (b, s') -> sysStep (mkSystem s ts h) (mkSystem s' (ts ++ started b) h)
  | sys_tick s ts h c now b s' : resyncTick c now s = (b, s') -> sysStep (mkSystem s ts h) (mkSystem s' (ts ++ started b) h)
  | sys_listed s ts h : sysStep (mkSystem s ts h) (mkSystem (setListed s) ts h).

(** No resync is asked for while the first synchronisation runs. *)
Definition orderly (y y' : System) : Prop :=
  List.Exists (fun t => tk_resync t = false) (sy_tasks y) -> (List.length (sy_tasks y') <= List.length (sy_tasks y))%nat.

Inductive sysReach (y0 : System) : System -> Prop :=
  | sys_here : sysReach y0 y0
  | sys_more y y' : sysReach y0 y -> sysStep y y' -> orderly y y' -> sysReach y0 y'.

(** A node that has just started. *)
Definition startSystem (providers : bool) (sources : list string) (s : Server) : System :=
  let '(b, s) := startServing providers sources s in mkSystem s (if b then [mkTask false Waiting minBackoff] else []) None.

Definition bootState (y : System) : string := s_bootstrapState (v_stats (sy_server y)).

(** Why a node may serve.  Before any synchronisation has ended: there was no one to synchronise with, [alone].  After
    one: it pulled a snapshot from a source without an error; or there was no source, and discovery had answered; or no
    source could be reached, and the node was launched to found a cluster. *)
Definition entitled (alone : Prop) (y : System) : Prop :=
  match sy_last y with
  | None => alone
  | Some a =>
      (at_phase a = Pulling /\ at_sources a <> [] /\ at_err a = None) \/
      (at_sources a = [] /\ at_listed a = true) \/
      (at_sources a <> [] /\ (exists e, at_err a = Some e /\ Is e ErrNoPeerLink = true) /\ v_foundCluster (sy_server y) = true)
  end.

Definition gateInv (alone : Prop) (y : System) : Prop :=
  (sy_tasks y = [] /\ v_resyncing (sy_server y) = false /\ (v_clientReady (sy_server y) = true -> entitled alone y)) \/
  (exists t, sy_tasks y = [t] /\ v_resyncing (sy_server y) = tk_resync t /\ v_clientReady (sy_server y) = false).

Lemma turn_retry sources err b b' s s' : bootstrapTurn sources err b s = (Some b', s') -> s' = s.
Proof. unfold bootstrapTurn. case_bool_decide; [by destruct (v_discoveryListed s); intros [=]|]. destruct err as [e|]; [|done]. by destruct (_ && _); intros [=]. Qed.

Lemma turn_finish alone p sources err b s s' ts : possible p sources err -> bootstrapTurn sources err b s = (None, s') ->
  v_resyncing s' = v_resyncing s /\ entitled alone (mkSystem s' ts (Some (mkAttempt p sources err (v_discoveryListed s)))).
Proof.
  unfold bootstrapTurn, entitled, possible. cbn. intros Hp. case_bool_decide as Hs.
  - destruct (v_discoveryListed s) eqn:E; [|done]. intros [= <-]. tauto.
  - destruct err as [e|].
    + destruct (Is e ErrNoPeerLink) eqn:Ee; [|done]. destruct (v_foundCluster s) eqn:E; [|done]. intros [= <-]. split; [done|].
      right; right. split_and!; [done|by exists e|done].
    + intros [= <-]. split; [done|]. left. destruct p; [|tauto]. destruct Hp as [?|(e & ? & _)]; done.
Qed.

(** A request starts a resync, or leaves all but the reminder as it was. *)
Lemma request_cases c now s b s' : RequestResync c now s = (b, s') ->
  (b = true /\ v_resyncing s = false /\ v_resyncing s' = true /\ v_clientReady s' = false) \/
  (b = false /\ exists p, s' = setResync (v_resyncing s) (v_lastResync s) p s).
Proof.
  unfold RequestResync. destruct (ResyncOnGapEnabled _); cbn [negb].
  2: { intros [= <- <-]. right. split; [done|]. exists (v_resyncPending s). by destruct s. }
  destruct (v_resyncing s) eqn:E; [intros [= <- <-]; right; eauto|]. destruct (_ && _); [intros [= <- <-]; right; eauto|].
  destruct (v_running s); cbn [negb]; [|intros [= <- <-]; right; eauto]. intros [= <- <-]. by left.
Qed.

Lemma tick_cases c now s b s' : resyncTick c now s = (b, s') ->
  (b = true /\ v_resyncing s = false /\ v_resyncing s' = true /\ v_clientReady s' = false) \/
  (b = false /\ exists p, s' = setResync (v_resyncing s) (v_lastResync s) p s).
Proof.
  unfold resyncTick. destruct (v_resyncPending s) eqn:E; [apply request_cases|]. intros [= <- <-]. right. split; [done|]. exists false.
  rewrite <- E. by destruct s.
Qed.

Lemma gate_request alone s ts h b s' : orderly (mkSystem s ts h) (mkSystem s' (ts ++ started b) h) -> gateInv alone (mkSystem s ts h) ->
  ((b = true /\ v_resyncing s = false /\ v_resyncing s' = true /\ v_clientReady s' = false) \/
   (b = false /\ exists p, s' = setResync (v_resyncing s) (v_lastResync s) p s)) -> gateInv alone (mkSystem s' (ts ++ started b) h).
Proof.
  intros Ho Hg [(-> & H1 & H2 & H3)|(-> & p & ->)].
  - destruct Hg as [(Ht & _ & _)|(t & Ht & Hr & _)]; cbn in Ht; subst ts; [right; eexists; by split_and!|].
    cbn in Hr. exfalso. unfold orderly in Ho. cbn in Ho. assert (2 <= 1)%nat; [|lia]. apply Ho. left. congruence.
  - unfold started. rewrite app_nil_r. exact Hg.
Qed.

Lemma gate_step alone y y' : sysStep y y' -> orderly y y' -> gateInv alone y -> gateInv alone y'.
Proof.
  intros Hst Ho Hg. destruct Hst as [s ts h i r b Hi|s ts h i t sources err b s' Hi Hp Hb|s ts h i t sources err s' Hi Hp Hb|s ts h c now b s' Hb|s ts h c now b s' Hb|s ts h].
  - destruct Hg as [(Ht & _)|(t & Ht & Hr & Hc)]; cbn in Ht; subst ts; [done|]. destruct i; [|done]. injection Hi as ->. right. eexists. by split_and!.
  - apply turn_retry in Hb as ->. destruct Hg as [(Ht & _)|(t' & Ht & Hr & Hc)]; cbn in Ht; subst ts; [done|]. destruct i; [|done]. injection Hi as ->.
    right. eexists. by split_and!.
  - destruct (turn_finish alone _ sources err _ s s' (delete i ts) Hp Hb) as (Hr' & He).
    destruct Hg as [(Ht & _)|(t' & Ht & Hr & Hc)]; cbn in Ht; subst ts; [done|]. destruct i; [|done]. injection Hi as ->. left.
    split; [done|]. destruct (tk_resync t) eqn:E; [split; [done|]; intros _; exact He|]. split; [cbn in Hr; cbn; congruence|done].
  - apply (gate_request alone s ts h); [done|done|by eapply request_cases].
  - apply (gate_request alone s ts h); [done|done|by eapply tick_cases].
  - destruct Hg as [(Ht & Hr & Hc)|(t & Ht & Hr & Hc)]; [left|right; by exists t]. split_and!; [done|done|exact Hc].
Qed.

Lemma gate_start providers sources s : v_resyncing s = false ->
  gateInv (sources = [] /\ providers || v_discoveryEnabled s = false) (startSystem providers sources s).
Proof.
  intros Hr. unfold startSystem, startServing. cbn [v_discoveryEnabled]. destruct (bool_decide (sources = []) && negb (providers || v_discoveryEnabled s)) eqn:E.
  - left. split_and!; [done|done|]. intros _. apply andb_true_iff in E as [E1%bool_decide_eq_true E2%negb_true_iff]. done.
  - right. eexists. by split_and!.
Qed.

(** C8: A node serves only what it has.  From its start on, whatever attempts to synchronise fail or
    succeed, resyncs are asked for or put off, and discovery answers: whenever clients are served no
    synchronisation is under way, so the store is never one that was emptied and not filled again, and the last
    synchronisation that ended pulled a snapshot from a source without an error, or had no source after discovery had
    answered, or reached none of its sources on a node launched to found a cluster; before any has ended, there was
    neither a source nor discovery at the start.  Resyncs are asked for after the first synchronisation has ended. *)
Theorem serves_only_synced providers sources s0 y : v_resyncing s0 = false -> sysReach (startSystem providers sources s0) y ->
  v_clientReady (sy_server y) = true ->
  sy_tasks y = [] /\ entitled (sources = [] /\ providers || v_discoveryEnabled s0 = false) y.
Proof.
  intros H0 Hr Hready. assert (gateInv (sources = [] /\ providers || v_discoveryEnabled s0 = false) y) as Hg.
  { clear Hready. induction Hr as [|y y' _ IH Hst Ho]; [by apply gate_start|by eapply gate_step]. }
  destruct Hg as [(Ht & _ & Hc)|(t & _ & _ & Hc)]; [by auto|congruence].
Qed.

(** ** A resync that is owed *)

(** What happens to the server between a request and the tick that honours it. *)
Inductive event := EvRequest (now : Time) | EvTick (now : Time) | EvDone | EvListed | EvTurn (sources : list string) (err : option error) (backoff : Z).

Definition happens (c : Config) (e : event) (s : Server) : bool * Server :=
  match e with
  | EvRequest now => RequestResync c now s
  | EvTick now => resyncTick c now s
  | EvDone => (false, resyncDone s)
  | EvListed => (false, setListed s)
  | EvTurn sources err backoff => (false, snd (bootstrapTurn sources err backoff s))
  end.

(** The resyncs a sequence of events starts, and the server after it. *)
Fixpoint history (c : Config) (es : list event) (s : Server) : nat * Server :=
  match es with
  | [] => (0%nat, s)
  | e :: es => let '(b, s) := happens c e s in let '(n, s) := history c es s in ((if b then S n else n), s)
  end.

(** The distance between resyncs that the configuration asks for. *)
Definition apart (c : Config) (last now : Z) : Prop := last = 0 \/ wrap64 (ResyncMinInterval c * Second) <= Sub now (UnixMilli last).

Definition owed (last : Z) (s : Server) : Prop := v_resyncPending s = true /\ v_running s = true /\ v_lastResync s = last.

Lemma turn_keeps last sources err b s : owed last s -> owed last (snd (bootstrapTurn sources err b s)).
Proof. unfold bootstrapTurn. case_bool_decide; [by destruct (v_discoveryListed s)|]. destruct err; [by destruct (_ && _)|done]. Qed.

Lemma request_owes c now s s' : ResyncOnGapEnabled (Some c) = true -> v_running s = true -> RequestResync c now s = (false, s') ->
  owed (v_lastResync s) s'.
Proof.
  intros Hon Hrun. unfold RequestResync. rewrite Hon. cbn [negb]. destruct (v_resyncing s); [by intros [= <-]|].
  destruct (_ && _); [by intros [= <-]|]. rewrite Hrun. done.
Qed.

Lemma event_keeps c last e s s' : ResyncOnGapEnabled (Some c) = true -> owed last s -> happens c e s = (false, s') -> owed last s'.
Proof.
  intros Hon Ho He. destruct e as [now|now| | |sources err b]; cbn [happens] in He.
  1,2: destruct Ho as (Hp & Hrun & <-); try (unfold resyncTick in He; rewrite Hp in He); by eapply request_owes.
  all: injection He as <-; first [exact Ho | by apply turn_keeps].
Qed.

Lemma history_keeps c last es s s' : ResyncOnGapEnabled (Some c) = true -> owed last s -> history c es s = (0%nat, s') -> owed last s'.
Proof.
  intros Hon. revert s. induction es as [|e es IH]; intros s Ho; cbn [history]; [by intros [= <-]|].
  destruct (happens c e s) as [b s1] eqn:E1, (history c es s1) as [n s2] eqn:E2. destruct b; [done|]. intros [= -> <-].
  eapply IH; [by eapply event_keeps|done].
Qed.

(** A request finds no resync running and the last one far enough back: it starts one. *)
Lemma request_starts c now s : ResyncOnGapEnabled (Some c) = true -> v_running s = true -> v_resyncing s = false -> apart c (v_lastResync s) now ->
  exists s', RequestResync c now s = (true, s') /\ v_resyncing s' = true /\ v_clientReady s' = false.
Proof.
  intros Hon Hrun Hr Ha. unfold RequestResync. rewrite Hon, Hr, Hrun. cbn [negb].
  replace (negb (v_lastResync s =? 0) && _) with false; [eauto|]. symmetry. apply andb_false_iff.
  destruct Ha as [->|Ha]; [by left|right]. apply Z.ltb_ge. exact Ha.
Qed.

(** C25: A resync that is put off is not forgotten.  A request that the server refuses, because a resync is
    running or the last one is too recent, is honoured at the first tick that finds no resync running and
    the interval over, unless one has been started in between: whatever further requests, ticks, attempts
    and listings come in between. *)
Theorem resync_not_forgotten c now s s1 es s2 now' : ResyncOnGapEnabled (Some c) = true -> v_running s = true ->
  RequestResync c now s = (false, s1) -> history c es s1 = (0%nat, s2) -> v_resyncing s2 = false -> apart c (v_lastResync s) now' ->
  exists s3, resyncTick c now' s2 = (true, s3) /\ v_resyncing s3 = true /\ v_clientReady s3 = false /\ v_resyncPending s3 = false.
Proof.
  intros Hon Hrun Hreq Hes Hr Ha. pose proof (request_owes _ _ _ _ Hon Hrun Hreq) as Ho.
  destruct (history_keeps c _ es s1 s2 Hon Ho Hes) as (Hp & Hrun2 & Hl). rewrite <- Hl in Ha.
  destruct (request_starts c now' s2 Hon Hrun2 Hr Ha) as (s3 & H3 & ? & ?). exists s3. unfold resyncTick. rewrite Hp. split_and!; try done.
  revert H3. unfold RequestResync. rewrite Hon, Hr, Hrun2. cbn [negb]. destruct (_ && _); by intros [= <-].
Qed.

(** A resync that starts is as far from the last one as the configuration asks for, and is remembered. *)
Lemma resync_apart c now s s' : RequestResync c now s = (true, s') -> apart c (v_lastResync s) now /\ v_lastResync s' = ToUnixMilli now.
Proof.
  unfold RequestResync, apart. destruct (ResyncOnGapEnabled _), (v_resyncing s); cbn [negb]; try done.
  destruct (_ && _) eqn:E; [done|]. destruct (v_running s); cbn [negb]; [|done]. intros [= <-]. split; [|done].
  apply andb_false_iff in E as [E%negb_false_iff%Z.eqb_eq|E%Z.ltb_ge]; [by left|by right].
Qed.

(** ** What goes wrong *)

Definition demoServer : Server := newServer (newStats "n1" 6379) false.
Definition demoPulling : task := mkTask false Pulling minBackoff.

Inductive sysSteps : System -> System -> Prop :=
  | sys_none y : sysSteps y y
  | sys_cons y y' z : sysStep y y' -> sysSteps y' z -> sysSteps y z.

(** The first synchronisation does not count as a resync, so a gap noticed meanwhile starts a second one
    beside it; when the first ends, clients are served while the second has the store emptied. *)
Lemma overlapping_syncs : exists y, sysSteps (startSystem false ["10.0.0.2:7379"%string] demoServer) y /\
  v_clientReady (sy_server y) = true /\ List.Exists (fun t => tk_phase t = Pulling) (sy_tasks y).
Proof.
  eexists. split; [|split].
  - eapply sys_cons; [eapply (sys_pull _ _ _ 0); reflexivity|]. eapply sys_cons; [eapply (sys_request _ _ _ zeroConfig 1); reflexivity|].
    eapply sys_cons; [eapply (sys_pull _ _ _ 1); reflexivity|].
    eapply sys_cons; [eapply (sys_finish _ _ _ 0 demoPulling ["10.0.0.2:7379"%string] None); [reflexivity|split; [discriminate|discriminate]|reflexivity]|].
    apply sys_none.
  - reflexivity.
  - left. reflexivity.
Qed.

Lemma stop_seqs i s : map l_linkSeq (k_out (stopInboundReplLink i s)) = List.filter (fun n => negb (n =? i)) (map l_linkSeq (k_out s)).
Proof.
  unfold stopInboundReplLink, unregisterLink, stopLink. cbn [k_out relink setLinks]. induction (k_out s) as [|p ps IH]; [done|]. cbn [map List.filter].
  destruct (l_linkSeq p =? i) eqn:E; cbn [l_linkSeq]; rewrite E; cbn [negb map]; [exact IH|]. by rewrite IH.
Qed.

Lemma close_seqs ls s n : n ∈ map l_linkSeq (k_out (fold_left (fun s l => stopInboundReplLink (l_linkSeq l) s) ls s)) ->
  n ∈ map l_linkSeq (k_out s) /\ n ∉ map l_linkSeq ls.
Proof.
  revert s. induction ls as [|l ls IH]; intros s; cbn [fold_left map]; [set_solver|]. intros [H1 H2]%IH. rewrite stop_seqs in H1.
  apply list_elem_of_In, filter_In in H1 as [H1%list_elem_of_In H3%negb_true_iff%Z.eqb_neq]. set_solver.
Qed.

Lemma closed_links s : k_out (closeActiveConnections s) = [].
Proof.
  destruct (k_out (closeActiveConnections s)) as [|p ps] eqn:E; [done|exfalso].
  destruct (close_seqs (k_out s) s (l_linkSeq p)) as [H1 H2]; [|done]. fold (closeActiveConnections s). rewrite E. left.
Qed.

(** [Shutdown] closes the peers' connections before it waits for the clients' handlers and before it
    collects what is still queued; the sessions that end take their queues with them, so nothing queued by
    then is sent or written to the spill file. *)
Lemma shutdown_discards c path now err s : exists w, fst (FinalizeGracefulShutdown c path now err (closeActiveConnections s)) = NothingPending w.
Proof. unfold FinalizeGracefulShutdown, collectPending. rewrite closed_links. eexists. reflexivity. Qed.

Lemma shutdown_order c path tmp : AnnounceLeaveEnabled (Some c) = false ->
  Shutdown c path tmp (fun _ => false) AllDone =
  [CloseClientListener; ClosePeerListener; ClosePeerConnections; CancelRun; Finalize (replSpillPathResolved c path tmp)].
Proof. intros H. unfold Shutdown. by rewrite H. Qed.

(** A reload puts the file's list of peers in the place of the running one: a peer learned since is gone. *)
Lemma reload_drops_learned cfg db m : ConfigPeerAddrs (snd (ApplyHotReload cfg db m)) = Peers cfg.
Proof. apply sync_peers. Qed.

(** The delay between attempts to accept doubles from 10 ms and stops growing past a second. *)
Lemma accept_delay_bounded r cancelled d : 0 <= d < 2 * Second -> 0 <= snd (acceptTurn r cancelled d) < 2 * Second.
Proof.
  intros H. unfold acceptTurn. destruct r as [e|]; [|cbn [snd]; lia]. destruct (_ || cancelled); [done|]. destruct (isTransientAcceptError e); [|done].
  cbn [snd]. unfold Second, Millisecond in *. destruct (Z.eqb_spec d 0); [lia|]. case_match eqn:E; try apply Z.ltb_lt in E; lia.
Qed.

(** ** Witnesses *)

Definition demoPulled : attempt := mkAttempt Pulling ["10.0.0.2:7379"%string] None false.
Definition demoReady : System :=
  mkSystem (setReady true "ready" (snd (startServing false ["10.0.0.2:7379"%string] demoServer))) [] (Some demoPulled).

Lemma serves_only_synced_witness : bootState demoReady = "ready"%string /\
  sy_tasks demoReady = [] /\ entitled (["10.0.0.2:7379"%string] = [] /\ false || v_discoveryEnabled demoServer = false) demoReady.
Proof.
  split; [reflexivity|].
  apply (serves_only_synced false ["10.0.0.2:7379"%string] demoServer demoReady eq_refl); [|reflexivity].
  pose (s := snd (startServing false ["10.0.0.2:7379"%string] demoServer)).
  apply (sys_more _ (mkSystem s [demoPulling] None)); [apply (sys_more _ (mkSystem s [mkTask false Waiting minBackoff] None)); [apply sys_here| |]| |].
  - exact (sys_pull s [mkTask false Waiting minBackoff] None 0 false minBackoff eq_refl).
  - intros _. cbn. lia.
  - refine (sys_finish s [demoPulling] None 0 demoPulling ["10.0.0.2:7379"%string] None _ eq_refl _ eq_refl). split; discriminate.
  - intros _. cbn. lia.
Defined.

(** A resync runs from second 100; a gap at second 110 has to wait for its end, and the tick at second 500 honours it. *)
Definition demoBusy : Server := snd (RequestResync zeroConfig (100 * Second) (snd (startServing false [] demoServer))).

Lemma resync_not_forgotten_witness : exists s3,
  resyncTick zeroConfig (500 * Second) (resyncDone (snd (RequestResync zeroConfig (110 * Second) demoBusy))) = (true, s3) /\
  v_resyncing s3 = true /\ v_clientReady s3 = false /\ v_resyncPending s3 = false.
Proof.
  apply (resync_not_forgotten zeroConfig (110 * Second) demoBusy (snd (RequestResync zeroConfig (110 * Second) demoBusy)) [EvTick (115 * Second); EvDone]);
    [reflexivity|reflexivity|reflexivity|reflexivity|reflexivity|right; vm_compute; discriminate].
Defined.
