(* ===== verification/Mgmt.v ===== *)
(** * The management socket (internal/mgmt: protocol.go, handlers.go, extended.go, mgmt.go) and what the
    server answers on it (internal/server/mgmt.go, [SampleKeysForDebug] of store_scan.go).

    [Handler] and [ExtendedHandler] are the source's interfaces, over any state.  A connection is the
    text the other side sends; the answer to it is text.  The text of a JSON error is not modelled. *)

From S2P Require Import Prelude GoInt GoStr GoTime GoSort Resp Config Json GoNet GoCrypto ConfigValid StoreBase Eviction StoreString.
From S2P Require Import StoreHash StoreList StoreSet StoreKeys Repl PeerWire PeerLinks PeerGap PeerMembers PeerAuth PeerBoot PeerSession Stats Lifecycle CmdServer.

(** ** The protocol *)

Record MgmtRequest := mkRequest { mq_Secret : string; mq_Cmd : string; mq_Args : option json }.
Record MgmtResponse := mkMgmtResponse { mr_OK : bool; mr_Data : option json; mr_Error : string }.

Definition requestFields : list (field MgmtRequest) :=
  [("secret"%string, into mq_Secret (fun x r => mkRequest x (mq_Cmd r) (mq_Args r)) dString);
   ("cmd"%string, into mq_Cmd (fun x r => mkRequest (mq_Secret r) x (mq_Args r)) dString);
   ("args"%string, into mq_Args (fun x r => mkRequest (mq_Secret r) (mq_Cmd r) x) dRaw)].
Definition requestJSON (r : MgmtRequest) : json :=
  JObj ([("secret"%string, JStr (mq_Secret r)); ("cmd"%string, JStr (mq_Cmd r))]
        ++ match mq_Args r with Some a => [("args"%string, a)] | None => [] end).

Definition responseJSON (r : MgmtResponse) : json :=
  JObj ([("ok"%string, JBool (mr_OK r))] ++ match mr_Data r with Some d => [("data"%string, d)] | None => [] end
        ++ unless (sempty (mr_Error r)) "error" (JStr (mr_Error r))).

Definition newline : string := byte1 10.

(** [readLine] on what the other side sends before it closes: the line, or the end comes first. *)
Fixpoint untilNewline (s : string) : option string :=
  match s with
  | EmptyString => None
  | String c s => if code c =? 10 then Some EmptyString else String c <$> untilNewline s
  end.
Definition trimCR (s : string) : string :=
  match srev s with String c r => if code c =? 13 then srev r else s | EmptyString => s end.
Definition readLine (s : string) : option string := trimCR <$> untilNewline s.

Definition writeLine (j : json) : string := print j +++ newline.

(** ** The handlers *)

Class Handler (S : Type) := { Ping : S -> string * S; Info : S -> json * S }.

Class ExtendedHandler (S : Type) := {
  ReloadConfig : S -> res (list string) * S;
  Status : S -> json * S;
  PeersList : S -> json * S;
  PeersAdd : string -> S -> option error * S;
  PeersRemove : string -> S -> option error * S;
  DebugKeyspace : Z -> S -> res json * S;
  BootstrapStatus : S -> json * S;
  RequestShutdown : bool -> S -> option error * S }.

(** A slice of strings that is nil when it is empty. *)
Definition jStringsOrNil (l : list string) : json := if bool_decide (l = []) then JNull else jStrings l.

Definition ok (d : json) : MgmtResponse := mkMgmtResponse true (Some d) EmptyString.
Definition refusal (text : string) : MgmtResponse := mkMgmtResponse false None text.
Definition orRefusal {A} (f : A -> json) (r : res A) : MgmtResponse :=
  match r with inl err => refusal (errText err) | inr x => ok (f x) end.
Definition answering (d : json) (err : option error) : MgmtResponse :=
  match err with Some e => refusal (errText e) | None => ok d end.

Section handlers.
Context {S : Type}.

(** An operation of a handler that may be missing. *)
Definition supported {H : Type} (h : option H) (what : string) (f : H -> S -> MgmtResponse * S) (s : S) : MgmtResponse * S :=
  match h with Some h => f h s | None => (refusal (what +++ " not supported"), s) end.
Definition answer {A} (f : A -> MgmtResponse) (x : A * S) : MgmtResponse * S := (f (fst x), snd x).

Definition HandlePing (h : option (Handler S)) : S -> MgmtResponse * S :=
  supported h "ping" (fun h s => answer (fun t => ok (JStr t)) (Ping s)).
Definition HandleInfo (h : option (Handler S)) : S -> MgmtResponse * S :=
  supported h "info" (fun h s => answer ok (Info s)).
Definition HandleStatus (ext : option (ExtendedHandler S)) : S -> MgmtResponse * S :=
  supported ext "status" (fun h s => answer ok (Status s)).
Definition HandleReloadConfig (ext : option (ExtendedHandler S)) : S -> MgmtResponse * S :=
  supported ext "reload" (fun h s => answer (orRefusal jStringsOrNil) (ReloadConfig s)).
Definition HandlePeersList (ext : option (ExtendedHandler S)) : S -> MgmtResponse * S :=
  supported ext "peers list" (fun h s => answer ok (PeersList s)).

(** The struct with the one field [addr]. *)
Definition addrFields : list (field string) := [("addr"%string, fun a j => dString a j)].
Definition argAddr (args : option json) : option string :=
  let '(addr, decoded) := Unmarshal EmptyString addrFields args in
  if negb decoded || sempty (TrimSpace addr) then None else Some addr.

Definition HandlePeersAdd (ext : option (ExtendedHandler S)) (args : option json) : S -> MgmtResponse * S :=
  supported ext "peers add" (fun h s =>
    match argAddr args with
    | None => (refusal "missing addr in args", s)
    | Some addr => answer (answering (JObj [("addr"%string, JStr addr)])) (PeersAdd (TrimSpace addr) s)
    end).
Definition HandlePeersRemove (ext : option (ExtendedHandler S)) (args : option json) : S -> MgmtResponse * S :=
  supported ext "peers remove" (fun h s =>
    match argAddr args with
    | None => (refusal "missing addr in args", s)
    | Some addr => answer (answering (JStr "OK")) (PeersRemove (TrimSpace addr) s)
    end).

(** A [*bool]: [null] makes it nil. *)
Definition dBoolPtr : decoder (option bool) := fun cur j =>
  match j with JBool b => (Some b, true) | JNull => (None, true) | _ => (cur, false) end.
Definition gracefulFields : list (field (option bool)) := [("graceful"%string, fun b j => dBoolPtr b j)].
Definition countFields : list (field Z) := [("count"%string, fun n j => dInt n j)].

Definition HandleShutdown (ext : option (ExtendedHandler S)) (args : option json) : S -> MgmtResponse * S :=
  supported ext "shutdown" (fun h s =>
    let graceful := default true (fst (Unmarshal None gracefulFields args)) in
    answer (answering (JStr "OK")) (RequestShutdown graceful s)).
Definition HandleDebugKeyspace (ext : option (ExtendedHandler S)) (args : option json) : S -> MgmtResponse * S :=
  supported ext "debug keyspace" (fun h s =>
    let count := fst (Unmarshal 0 countFields args) in
    answer (orRefusal id) (DebugKeyspace (if count >? 0 then count else 10) s)).
Definition HandleBootstrapStatus (ext : option (ExtendedHandler S)) : S -> MgmtResponse * S :=
  supported ext "bootstrap status" (fun h s => answer ok (BootstrapStatus s)).

Definition DispatchMgmt (h : option (Handler S)) (ext : option (ExtendedHandler S)) (req : MgmtRequest) (s : S) : MgmtResponse * S :=
  let cmd := ToUpper (TrimSpace (mq_Cmd req)) in
  if (cmd =? "PING")%string then HandlePing h s
  else if (cmd =? "INFO")%string then HandleInfo h s
  else if (cmd =? "STATUS")%string then HandleStatus ext s
  else if (cmd =? "RELOAD_CONFIG")%string then HandleReloadConfig ext s
  else if (cmd =? "PEERS_LIST")%string then HandlePeersList ext s
  else if (cmd =? "PEERS_ADD")%string then HandlePeersAdd ext (mq_Args req) s
  else if (cmd =? "PEERS_REMOVE")%string then HandlePeersRemove ext (mq_Args req) s
  else if (cmd =? "SHUTDOWN")%string then HandleShutdown ext (mq_Args req) s
  else if (cmd =? "DEBUG_KEYSPACE")%string then HandleDebugKeyspace ext (mq_Args req) s
  else if (cmd =? "BOOTSTRAP_STATUS")%string then HandleBootstrapStatus ext s
  else (refusal "unknown command", s).

(** ** The server *)

(** [subtle.ConstantTimeCompare] of texts of one length. *)
Fixpoint differing (a b : string) : Z :=
  match a, b with
  | String x a, String y b => Z.lor (Z.lxor (code x) (code y)) (differing a b)
  | _, _ => 0
  end.
Definition secretEqual (a b : string) : bool :=
  if negb (len a =? len b) then false else differing a b =? 0.

(** [serveConn]: what is written to the connection before it is closed. *)
Definition serveConn (secret : string) (h : option (Handler S)) (ext : option (ExtendedHandler S)) (input : string) (s : S) : string * S :=
  match readLine input with
  | None => (EmptyString, s)
  | Some line =>
      match Unmarshal (mkRequest EmptyString EmptyString None) requestFields (parse line) with
      | (_, false) => (writeLine (responseJSON (refusal "invalid json")), s)
      | (req, true) =>
          if negb (secretEqual (mq_Secret req) secret) then (writeLine (responseJSON (refusal "bad auth")), s)
          else let '(resp, s) := DispatchMgmt h ext req s in (writeLine (responseJSON resp), s)
      end
  end.
End handlers.

(** [Run]: the listeners it opens, the Unix one first. *)
Definition listeners (unixPath tcpAddr : string) : res (list (string * string)) :=
  let u := TrimSpace unixPath in
  let t := TrimSpace tcpAddr in
  let skipUnix := sempty u || (u =? "-")%string in
  if skipUnix && sempty t then inl (New "mgmt: no listeners")
  else inr ((if skipUnix then [] else [("unix"%string, u)]) ++ (if sempty t then [] else [("tcp"%string, t)])).

(** What [Server.Run] passes to it: the addresses, unless there is none. *)
Definition mgmtAddrs (c : Config) : option (string * string) :=
  let unix := TrimSpace (MgmtSocket c) in
  let bind := TrimSpace (MgmtTCPBind c) in
  let tcp := if MgmtTCPPort c >? 0 then JoinHostPort (if sempty bind then DefaultMgmtTCPBind else bind) (FormatInt (MgmtTCPPort c)) else EmptyString in
  if (negb (sempty unix) && negb (unix =? "-")%string) || negb (sempty tcp) then Some (unix, tcp) else None.

(** ** The client *)

Section client.
(** How a number literal comes out of a [float64]: [None] when it does not fit one. *)
Context (refloat : string -> option string).

(** The last value of a repeated key, keys in order: a Go map printed. *)
Definition lastOf (k : string) (l : list (string * json)) : json := default JNull ((list_to_map (reverse l) : gmap string json) !! k).
Definition asMap (l : list (string * json)) : json :=
  JObj (map (fun k => (k, lastOf k l)) (sortStrings (remove_dups (map fst l)))).

(** A value decoded into an [interface{}] and encoded again; [None] is a decoding error. *)
Fixpoint reencode (j : json) : option json :=
  match j with
  | JNum lit => JNum <$> refloat lit
  | JArr l => JArr <$> mapM reencode l
  | JObj l => asMap <$> mapM (fun kv => pair (fst kv) <$> reencode (snd kv)) l
  | j => Some j
  end.

Record reply := mkReply { rp_OK : bool; rp_Data : json; rp_Error : string }.
Definition dAny : decoder json := fun cur j => match reencode j with Some j => (j, true) | None => (JNull, false) end.
Definition replyFields : list (field reply) :=
  [("ok"%string, into rp_OK (fun x r => mkReply x (rp_Data r) (rp_Error r)) dBool);
   ("data"%string, into rp_Data (fun x r => mkReply (rp_OK r) x (rp_Error r)) dAny);
   ("error"%string, into rp_Error (fun x r => mkReply (rp_OK r) (rp_Data r) x) dString)].

(** The line [clientCallRaw] sends, and what it makes of the text that comes back. *)
Definition requestLine (secret cmd : string) (args : option json) : string :=
  writeLine (requestJSON (mkRequest secret (ToUpper (TrimSpace cmd)) args)).
Definition readReply (input : string) : res json :=
  match readLine input with
  | None => inl io_EOF
  | Some line =>
      match Unmarshal (mkReply false JNull EmptyString) replyFields (parse line) with
      | (_, false) => inl (New "response json: invalid json")
      | (r, true) =>
          if rp_OK r then inr (rp_Data r)
          else inl (New (if sempty (rp_Error r) then "mgmt error" else rp_Error r))
      end
  end.

(** [clientCallRaw] over a connection that [dial] gives: what the other side answers to a text. *)
Definition clientCallRaw {S} (dial : string -> S -> string * S) (secret cmd : string) (args : option json) (s : S) : res json * S :=
  let '(out, s) := dial (requestLine secret cmd args) s in (readReply out, s).

(** How the calls read the result back. *)
Definition asString (j : json) : res string :=
  match dString EmptyString j with (s, true) => inr s | (_, false) => inl (New "decode result: invalid json") end.
Definition asObject (what : string) (j : json) : res json :=
  match j, reencode j with
  | JObj _, Some j | JNull, Some j => inr j
  | _, _ => inl (New ("decode " +++ what +++ ": invalid json"))
  end.
Definition asRows (j : json) : res json :=
  let row r := match r with JObj _ | JNull => true | _ => false end in
  match j, reencode j with
  | JNull, Some j => inr j
  | JArr l, Some j => if forallb row l then inr j else inl (New "decode peers list: invalid json")
  | _, _ => inl (New "decode peers list: invalid json")
  end.

Inductive call :=
  | ClientPing | ClientInfo | ClientReloadConfig | ClientStatus | ClientPeersList | ClientPeersAdd (addr : string)
  | ClientPeersRemove (addr : string) | ClientDebugKeyspace (count : Z) | ClientBootstrapStatus | ClientShutdown (graceful : bool).

Definition callCmd (c : call) : string * option json :=
  match c with
  | ClientPing => ("PING", None)
  | ClientInfo => ("INFO", None)
  | ClientReloadConfig => ("RELOAD_CONFIG", None)
  | ClientStatus => ("STATUS", None)
  | ClientPeersList => ("PEERS_LIST", None)
  | ClientPeersAdd addr => ("PEERS_ADD", Some (JObj [("addr", JStr addr)]))
  | ClientPeersRemove addr => ("PEERS_REMOVE", Some (JObj [("addr", JStr addr)]))
  | ClientDebugKeyspace count => ("DEBUG_KEYSPACE", Some (JObj [("count", jInt count)]))
  | ClientBootstrapStatus => ("BOOTSTRAP_STATUS", None)
  | ClientShutdown graceful => ("SHUTDOWN", Some (JObj [("graceful", JBool graceful)]))
  end%string.

(** What the call returns: a value to show, or nothing. *)
Definition shown {A} (f : A -> json) (r : res A) : res (option json) := match r with inl err => inl err | inr x => inr (Some (f x)) end.
Definition callResult (c : call) (j : json) : res (option json) :=
  match c with
  | ClientPing => shown JStr (asString j)
  | ClientInfo => shown id (asObject "info" j)
  | ClientStatus => shown id (asObject "status" j)
  | ClientPeersList => shown id (asRows j)
  | ClientDebugKeyspace _ => shown id (asObject "debug keyspace" j)
  | ClientBootstrapStatus => shown id (asObject "bootstrap status" j)
  | _ => inr None
  end.

Definition clientCall {S} (dial : string -> S -> string * S) (secret : string) (c : call) (s : S) : res (option json) * S :=
  let '(cmd, args) := callCmd c in
  let '(r, s) := clientCallRaw dial secret cmd args s in
  (match r with inl err => inl err | inr j => callResult c j end, s).
End client.

(** ** The node's answers *)

Section sample.
Context `{MapOrder}.

Fixpoint sampleRows (keys : list string) : M (list json) :=
  match keys with
  | [] => mret []
  | k :: keys =>
      _ ← yield;
      t ← Type_ k;
      _ ← yield;
      n ← TTL k;
      l ← sampleRows keys;
      mret (JObj [("key"%string, JStr k); ("ttl_seconds"%string, jInt n); ("type"%string, JStr t)] :: l)
  end.

Definition SampleKeysForDebug (max : Z) : M (list json) :=
  let max := if max <=? 0 then 10 else max in
  keys ← Keys "*";
  let keys := sortStrings keys in
  sampleRows (if Z.of_nat (List.length keys) >? max then take (Z.to_nat max) keys else keys).

(** What the handlers read and change: the parts of the server, the calls of the reload hook, and the way
    the process is asked to stop.  [nd_wired] tells whether the run can be cancelled. *)
Record Node := mkNode {
  nd_server : Server; nd_cfg : Config; nd_configPath : string; nd_st : St; nd_links : Links; nd_members : Members;
  nd_reloads : list (list string); nd_wired : bool; nd_stop : option bool }.

Definition withSt (st : St) (n : Node) : Node :=
  mkNode (nd_server n) (nd_cfg n) (nd_configPath n) st (nd_links n) (nd_members n) (nd_reloads n) (nd_wired n) (nd_stop n).
Definition withMembers (m : Members) (n : Node) : Node :=
  mkNode (nd_server n) (nd_cfg n) (nd_configPath n) (nd_st n) (nd_links n) m (nd_reloads n) (nd_wired n) (nd_stop n).
Definition withStop (graceful : bool) (n : Node) : Node :=
  mkNode (nd_server n) (nd_cfg n) (nd_configPath n) (nd_st n) (nd_links n) (nd_members n) (nd_reloads n) (nd_wired n) (Some graceful).
Definition onStore {A} (m : M A) (n : Node) : A * Node := let '(x, st) := m (nd_st n) in (x, withSt st n).

(** The uptime in whole seconds, the time, and what loading the configuration file gives now. *)
Context (secs : Z) (now : Time) (loaded : res Config).

Definition serverInfo (n : Node) : json * Node :=
  let c := nd_cfg n in
  let st := v_stats (nd_server n) in
  let '(used, n) := onStore MemBytes n in
  let '(size, n) := onStore DBSize n in
  let bind := TrimSpace (MetricsBind c) in
  (JObj ([("bootstrap"%string, JStr (s_bootstrapState st)); ("client_tls_enabled"%string, JBool (ClientTLSEnabled c));
          ("connected_clients"%string, jInt (s_activeClients st)); ("db_size"%string, jInt size)]
         ++ (if MetricsPort c >? 0
             then [("metrics_bind"%string, JStr (if sempty bind then "0.0.0.0"%string else bind)); ("metrics_port"%string, jInt (MetricsPort c))]
             else [])
         ++ [("node_id"%string, JStr (s_nodeID st)); ("peer_tls_enabled"%string, JBool (PeerTLSEnabled c));
             ("replication_inbound"%string, jInt (s_peerInbound st)); ("replication_outbound"%string, jStringsOrNil (s_peerOutAddrs st));
             ("supercache_version"%string, JStr (s_buildVersion st)); ("tcp_port"%string, jInt (s_clientPort st));
             ("total_commands"%string, jInt (s_totalCmds st)); ("total_connections"%string, jInt (s_totalConns st));
             ("uptime_sec"%string, jInt secs); ("used_memory"%string, jInt used)]), n).

Definition serverStatus (n : Node) : json * Node :=
  let st := v_stats (nd_server n) in
  let '(used, n) := onStore MemBytes n in
  let '(size, n) := onStore DBSize n in
  (JObj [("bootstrap_state"%string, JStr (s_bootstrapState st)); ("clients_connected"%string, jInt (s_activeClients st));
         ("key_count"%string, jInt size); ("mem_used_bytes"%string, jInt used); ("node_id"%string, JStr (s_nodeID st));
         ("peers_connected"%string, jInt (wrap64 (s_peerInbound st + Z.of_nat (List.length (s_peerOutAddrs st)))));
         ("uptime_sec"%string, jInt secs)], n).

Definition peerRow (p : peerInfo) : json :=
  JObj [("address"%string, JStr (pi_address p)); ("connected"%string, JBool (pi_connected p));
        ("last_heartbeat_ms"%string, match pi_lastHeartbeat p with Some ms => jInt ms | None => JNull end)].

Definition serverReload (n : Node) : res (list string) * Node :=
  match ReloadFromDisk (nd_configPath n) loaded (nd_cfg n) (db (nd_st n)) (nd_members n) with
  | (inl err, _) => (inl err, n)
  | (inr changed, (cfg, s, m)) =>
      (inr changed, mkNode (nd_server n) cfg (nd_configPath n) (mkSt s (env (nd_st n))) (nd_links n) m (nd_reloads n ++ [changed]) (nd_wired n) (nd_stop n))
  end.

Definition serverDebugKeyspace (maxKeys : Z) (n : Node) : res json * Node :=
  let maxKeys := if maxKeys <=? 0 then 10 else maxKeys in
  let maxKeys := if maxKeys >? 10000 then 10000 else maxKeys in
  let '(sample, n) := onStore (SampleKeysForDebug maxKeys) n in
  (inr (JObj [("keys"%string, JArr sample); ("sample_size"%string, jInt (Z.of_nat (List.length sample)))]), n).

Definition serverShutdown (graceful : bool) (n : Node) : option error * Node :=
  if nd_wired n then (None, withStop graceful n) else (Some (New "shutdown not wired"), n).

#[global] Instance node_handler : Handler Node := {| Ping := fun n => ("PONG"%string, n); Info := serverInfo |}.

#[global] Instance node_extended : ExtendedHandler Node := {|
  ReloadConfig := serverReload;
  Status := serverStatus;
  PeersList := fun n => (JArr (map peerRow (PeersInfo (mb_cfg (nd_members n)) (nd_links n))), n);
  PeersAdd := fun addr n => let '(err, m) := AddPeer now addr (nd_members n) in (err, withMembers m n);
  PeersRemove := fun addr n => (None, withMembers (RemovePeer addr (nd_members n)) n);
  DebugKeyspace := serverDebugKeyspace;
  BootstrapStatus := fun n => (BootstrapStatusMap (BootstrapQueueDepth (nd_cfg n)) (v_stats (nd_server n)), n);
  RequestShutdown := serverShutdown |}.
End sample.
