(* ===== verification/MgmtSpec.v ===== *)
(** * The management socket: without the secret it tells nothing and changes nothing; a call brings back
    what the handler answered. *)

From S2P Require Import Prelude GoInt GoStr GoTime GoSort Resp Config Json JsonSpec GoNet GoCrypto ConfigValid StoreBase Eviction StoreString.
From S2P Require Import StoreHash StoreList StoreSet StoreKeys Repl PeerWire PeerWireSpec PeerLinks PeerGap PeerMembers PeerAuth PeerBoot PeerSession Stats Lifecycle.
From S2P Require Import StoreOps Mgmt.

(** ** The secret *)

Lemma differing_spec a b : len a = len b -> differing a b = 0 <-> a = b.
Proof.
  unfold len. revert b. induction a as [|x a IH]; intros [|y b] Hl; cbn [differing String.length] in *; try lia; [done|].
  rewrite Z.lor_eq_0_iff, Z.lxor_eq_0_iff, IH by lia. split; [by intros [->%code_inj ->]|by intros [= -> ->]].
Qed.

Lemma secretEqual_spec a b : secretEqual a b = true <-> a = b.
Proof.
  unfold secretEqual. destruct (Z.eqb_spec (len a) (len b)) as [H|H]; cbn [negb].
  - rewrite Z.eqb_eq. by apply differing_spec.
  - split; [done|]. by intros ->.
Qed.

Definition zeroRequest : MgmtRequest := mkRequest EmptyString EmptyString None.

(** The request a connection carries. *)
Definition requestOf (input : string) : option MgmtRequest :=
  match readLine input with
  | Some line => match Unmarshal zeroRequest requestFields (parse line) with (req, true) => Some req | _ => None end
  | None => None
  end.

(** C26: Without the cluster's secret the management socket neither tells nor changes anything.  To a
    connection whose first line is not a request with exactly that secret, the answer is the same
    whatever the node, its handlers and its state, and the state stays as it is. *)
Theorem mgmt_requires_secret secret input : (forall req, requestOf input = Some req -> mq_Secret req <> secret) ->
  exists out, forall S (h : option (Handler S)) (ext : option (ExtendedHandler S)) (s : S), serveConn secret h ext input s = (out, s).
Proof.
  unfold requestOf, serveConn. destruct (readLine input) as [line|]; [|by eauto].
  destruct (Unmarshal zeroRequest _ _) as [req [|]] eqn:E; [|by unfold zeroRequest in E; rewrite E; eauto]. intros H. specialize (H req eq_refl).
  unfold zeroRequest in E. rewrite E. destruct (secretEqual (mq_Secret req) secret) eqn:Es; [|by eauto]. by apply secretEqual_spec in Es.
Qed.

(** ** Lines *)

Definition visible (c : ascii) : bool := 32 <=? code c.

Lemma stake_visible n s : (forall k, (k < n)%nat -> exists b, byteAt k s = Some b /\ 32 <= b) -> sall visible (stake n s) = true.
Proof.
  revert s. induction n as [|n IH]; intros s H; [done|]. destruct s as [|c s]; [done|]. cbn [stake sall]. apply andb_true_iff. split.
  - destruct (H 0%nat) as (b & [= <-] & Hb); [lia|]. by apply Z.leb_le.
  - apply IH. intros k Hk. apply (H (S k)). lia.
Qed.

Lemma cont_visible o lo hi x : 0x80 <= lo -> cont o lo hi = Some x -> exists b, o = Some b /\ 32 <= b.
Proof.
  intros Hlo Hx. destruct o as [b|]; [|done]. exists b. split; [done|]. cbn in Hx. destruct (between lo b hi) eqn:E; [|done]. unfold between in E. zify_bool. lia.
Qed.

Lemma rune_visible c r : code c <? 0x80 = false -> badRune (String c r) = false -> sall visible (stake (runeWidth (String c r)) (String c r)) = true.
Proof.
  intros Hc Hb. apply stake_visible. set (s := String c r) in *. unfold badRune, runeWidth, decodeRune in *. fold s in Hb |- *. unfold s in Hb |- * at 1. cbv iota zeta in *.
  rewrite Hc in *. assert (exists b, byteAt 0 s = Some b /\ 32 <= b) as H0 by (exists (code c); zify_bool; split; [done|lia]).
  repeat case_match; try done; cbn [snd]; intros [|[|[|[|k]]]] Hk; try lia; try done;
    (eapply cont_visible; [|eassumption]; repeat case_match; lia).
Qed.

Lemma escapeByte_visible c : code c <? 0x80 = true -> htmlSafe c = false -> sall visible (escapeByte c) = true.
Proof. destruct c as [[] [] [] [] [] [] [] []]; intros H1 H2; first [discriminate H1 | discriminate H2 | reflexivity]. Qed.

Lemma escape_visible fuel s : sall visible (escape fuel s) = true.
Proof.
  revert s. induction fuel as [|fuel IH]; intros [|c s]; try done. cbn [escape]. destruct (code c <? 0x80) eqn:Hc.
  - rewrite sall_app, IH, andb_true_r. destruct (htmlSafe c) eqn:Hs; [|by apply escapeByte_visible].
    unfold htmlSafe in Hs. rewrite !andb_true_iff in Hs. cbn. unfold visible. by rewrite (proj1 (proj1 (proj1 (proj1 (proj1 Hs))))).
  - destruct (badRune _) eqn:Hb; [rewrite !sall_app, IH; reflexivity|]. destruct (lineSeparator _) as [d|] eqn:Hl.
    + rewrite !sall_app, IH, andb_true_r. unfold lineSeparator in Hl. destruct (hasPrefix _ _); [by injection Hl as <-|]. by destruct (hasPrefix _ _); [injection Hl as <-|].
    + by rewrite sall_app, IH, rune_visible.
Qed.

(** ** Values that come back as they are *)

(** [Forall], as a function. *)
Definition every {A} (P : A -> Prop) (l : list A) : Prop := fold_right (fun x Q => P x /\ Q) True l.

Lemma every_elem {A} (P : A -> Prop) l : every P l <-> forall x, x ∈ l -> P x.
Proof. unfold every. rewrite <- Forall_fold_right. apply Forall_forall. Qed.

(** Integers a [float64] holds exactly, and objects with their keys in order. *)
Fixpoint plain (j : json) : Prop :=
  match j with
  | JNum lit => exists n, lit = FormatInt n /\ Z.abs n <= 2 ^ 53
  | JArr l => every plain l
  | JObj l => StronglySorted slt (map fst l) /\ every (fun kv => plain (snd kv)) l
  | _ => True
  end.

(** Numbers are integers; what [plain] implies and a request needs no more than. *)
Fixpoint integral (j : json) : Prop :=
  match j with
  | JNum lit => exists n, lit = FormatInt n /\ is_int64 n = true
  | JArr l => every integral l
  | JObj l => every (fun kv => integral (snd kv)) l
  | _ => True
  end.

Lemma plain_integral j : plain j -> integral j.
Proof.
  induction j as [|b|lit|s|l IH|l IH] using json_rect'; cbn; try done.
  - intros (n & -> & Hn). exists n. split; [done|]. unfold is_int64, MinInt64, MaxInt64. zify_bool. lia.
  - rewrite !every_elem. rewrite Forall_forall in IH. auto.
  - rewrite !every_elem. rewrite Forall_forall in IH. intros [_ H]. auto.
Qed.

Lemma join_visible l : Forall (fun s => sall visible s = true) l -> sall visible (join "," l) = true.
Proof.
  induction 1 as [|x l Hx Hl IH]; [done|]. destruct l as [|y l]; [exact Hx|]. change (join "," (x :: y :: l)) with (x +++ "," +++ join "," (y :: l)).
  by rewrite !sall_app, Hx, IH.
Qed.

Lemma quoted_visible s : sall visible (quoted s) = true.
Proof. unfold quoted. by rewrite !sall_app, escape_visible. Qed.

Lemma print_visible j : integral j -> sall visible (print j) = true.
Proof.
  induction j as [|b|lit|s|l IH|l IH] using json_rect'; intros H; cbn [print integral] in *.
  - done.
  - by destruct b.
  - destruct H as (n & -> & Hn). eapply sall_impl, FormatInt_graphic, Hn. intros c Hc. unfold graphic in Hc. unfold visible. zify_bool. lia.
  - apply quoted_visible.
  - rewrite !sall_app, join_visible; [done|]. rewrite every_elem in H. rewrite Forall_map. rewrite Forall_forall in *. auto.
  - rewrite !sall_app, join_visible; [done|]. rewrite every_elem in H. rewrite Forall_map. rewrite Forall_forall in *. intros kv Hkv. rewrite !sall_app, quoted_visible, IH; auto.
Qed.

Lemma untilNewline_line s r : sall visible s = true -> untilNewline (s +++ newline +++ r) = Some s.
Proof.
  induction s as [|c s IH]; [done|]. cbn [sall]. intros [Hc Hs]%andb_true_iff. change (String c s +++ ?t) with (String c (s +++ t)). cbn [untilNewline].
  unfold visible in Hc. destruct (Z.eqb_spec (code c) 10); [zify_bool; lia|]. by rewrite IH.
Qed.

Lemma trimCR_visible s : sall visible s = true -> trimCR s = s.
Proof.
  intros Hs. unfold trimCR. rewrite <- sall_srev in Hs. destruct (srev s) as [|c r]; [done|]. cbn [sall] in Hs. apply andb_true_iff in Hs as [Hc _].
  unfold visible in Hc. destruct (Z.eqb_spec (code c) 13); [zify_bool; lia|done].
Qed.

(** A line that is written is the line that is read. *)
Lemma line_roundtrip d j : wfJson d j -> integral j -> Z.of_nat d <= maxNestingDepth -> exists line, readLine (writeLine j) = Some line /\ parse line = Some j.
Proof.
  intros Hw Hi Hd. exists (print j). split; [|by eapply parse_print]. unfold readLine, writeLine. rewrite <- (sapp_nil_r newline).
  rewrite untilNewline_line by by apply print_visible. cbn. f_equal. by apply trimCR_visible, print_visible.
Qed.

Section client.
Context (refloat : string -> option string).
Hypothesis refloat_exact : forall n, Z.abs n <= 2 ^ 53 -> refloat (FormatInt n) = Some (FormatInt n).

Lemma sorted_nodup l : StronglySorted slt l -> NoDup l.
Proof.
  induction 1 as [|x l _ IH Hx]; constructor; [|done]. intros Hin. rewrite Forall_forall in Hx. specialize (Hx x Hin). unfold slt in Hx. by rewrite sltb_irrefl in Hx.
Qed.

Lemma sorted_id l : StronglySorted slt l -> sortStrings l = l.
Proof.
  intros H. apply (StronglySorted_unique sle); [apply sortStrings_sorted| |apply sortStrings_perm].
  induction H as [|x l _ IH Hx]; constructor; [done|]. rewrite Forall_forall in *. intros y Hy. unfold sle.
  destruct (sltb y x) eqn:E; [|done]. pose proof (sltb_trans _ _ _ E (Hx y Hy)) as Hbad. by rewrite sltb_irrefl in Hbad.
Qed.

Lemma remove_dups_id (l : list string) : NoDup l -> remove_dups l = l.
Proof. induction 1 as [|x l Hx _ IH]; [done|]. cbn. destruct (decide_rel elem_of x l); [done|]. by rewrite IH. Qed.

Lemma asMap_id l : StronglySorted slt (map fst l) -> asMap l = JObj l.
Proof.
  intros H. pose proof (sorted_nodup _ H) as Hn. unfold asMap. rewrite remove_dups_id by done. rewrite sorted_id by done. f_equal.
  rewrite map_map. rewrite <- (map_id l) at 2. apply map_ext_in. intros [k v] Hin%list_elem_of_In. cbn [fst]. f_equal. unfold lastOf.
  rewrite (elem_of_list_to_map_1 (M := gmap string) (reverse l) k v); [done| |by apply elem_of_reverse].
  rewrite fmap_reverse. by rewrite reverse_Permutation.
Qed.

Lemma mapM_id {A} (f : A -> option A) l : Forall (fun x => f x = Some x) l -> mapM f l = Some l.
Proof. intros H. apply mapM_Some. induction H; constructor; auto. Qed.

Lemma reencode_plain j : plain j -> reencode refloat j = Some j.
Proof.
  induction j as [|b|lit|s|l IH|l IH] using json_rect'; intros H; cbn [reencode plain] in *; try done.
  - destruct H as (n & -> & Hn). by rewrite refloat_exact.
  - rewrite every_elem in H. rewrite mapM_id; [done|]. rewrite Forall_forall in *. auto.
  - destruct H as [Hs H]. rewrite every_elem in H. rewrite mapM_id; [cbn; f_equal; by apply asMap_id|]. rewrite Forall_forall in *. intros [k v] Hin. pose proof (IH _ Hin (H _ Hin)) as Hv. cbn [fst snd] in *. by rewrite Hv.
Qed.

(** ** Calls *)

(** A value with a text that can be read back. *)
Definition sendable (d : nat) (j : json) : Prop := wfJson d j /\ integral j.

Lemma request_read d secret cmd args : utf8 secret = true -> utf8 cmd = true -> (forall a, args = Some a -> sendable d a) -> Z.of_nat d < maxNestingDepth ->
  requestOf (writeLine (requestJSON (mkRequest secret cmd args))) = Some (mkRequest secret cmd args).
Proof.
  intros Hs Hc Ha Hd. destruct (line_roundtrip (S d) (requestJSON (mkRequest secret cmd args))) as (line & Hl & Hp); [| |lia|].
  - apply wf_obj. cbn [mq_Secret mq_Cmd mq_Args app]. do 2 wfMember. destruct args as [a|]; [|done]. constructor; [|done]. split; [done|by apply Ha].
  - cbn. destruct args as [a|]; cbn; [|done]. split_and!; try done. by apply Ha.
  - unfold requestOf. rewrite Hl, Hp. by destruct args.
Qed.

Definition sendableResponse (d : nat) (r : MgmtResponse) : Prop :=
  utf8 (mr_Error r) = true /\ forall j, mr_Data r = Some j -> wfJson d j /\ plain j.

(** What the caller is told. *)
Definition told (r : MgmtResponse) : res json :=
  if mr_OK r then inr (default JNull (mr_Data r)) else inl (New (if sempty (mr_Error r) then "mgmt error" else mr_Error r)).

Lemma response_read d r : sendableResponse d r -> Z.of_nat d < maxNestingDepth -> readReply refloat (writeLine (responseJSON r)) = told r.
Proof.
  intros [He Hj] Hd. destruct (line_roundtrip (S d) (responseJSON r)) as (line & Hl & Hp); [| |lia|].
  - apply wf_obj. rewrite unless_last. destruct (mr_Data r) as [j|]; cbn [app]; [|by repeat wfMember].
    wfMember. constructor; [split; [done|by apply Hj]|]. by wfMember.
  - cbn [responseJSON integral]. unfold every. rewrite <- Forall_fold_right. apply Forall_app. split; [by constructor|]. apply Forall_app. split.
    + destruct (mr_Data r) as [j|]; [|done]. constructor; [|done]. by apply plain_integral, Hj.
    + destruct (sempty (mr_Error r)); [done|]. by constructor.
  - unfold readReply. rewrite Hl, Hp. unfold Unmarshal, responseJSON, dStruct. cbn [app].
    rewrite (field_always _ rp_OK (fun x r => mkReply x (rp_Data r) (rp_Error r)) dBool _ _ _ _ (mr_OK r)) by done.
    assert (forall l x, dMembers (replyFields refloat) (mkReply (mr_OK r) JNull EmptyString) (match mr_Data r with Some d => [("data"%string, d)] | None => [] end ++ l) = x
      <-> dMembers (replyFields refloat) (mkReply (mr_OK r) (default JNull (mr_Data r)) EmptyString) l = x) as Hdata.
    { intros l x. destruct (mr_Data r) as [j|]; [|done]. cbn [app]. erewrite (field_always _ rp_Data (fun x r => mkReply (rp_OK r) x (rp_Error r)) (dAny refloat) _ _ _ _ j); [done|done|].
      unfold dAny. rewrite reencode_plain; [done|]. by apply Hj. }
    rewrite (proj2 (Hdata _ _) eq_refl). rewrite unless_last.
    rewrite (field_unless _ rp_Error (fun x r => mkReply (rp_OK r) (rp_Data r) x) dString _ _ _ _ _ (mr_Error r)); [|done|done|].
    + cbn [dMembers rp_OK rp_Data rp_Error]. unfold told. by destruct (mr_OK r).
    + intros E. destruct (mr_Error r); [done|discriminate E].
Qed.

Context {S : Type} (h : option (Handler S)) (ext : option (ExtendedHandler S)).

Lemma served_request secret input s req : requestOf input = Some req -> secretEqual (mq_Secret req) secret = true ->
  serveConn secret h ext input s = let '(resp, s') := DispatchMgmt h ext req s in (writeLine (responseJSON resp), s').
Proof.
  unfold requestOf, serveConn, zeroRequest. destruct (readLine input) as [line|]; [|discriminate]. destruct (Unmarshal _ _ _) as [r [|]]; [|discriminate].
  intros Hr%Some_inj Hs. subst r. rewrite Hs. reflexivity.
Qed.

Lemma refused_request secret input s req : requestOf input = Some req -> secretEqual (mq_Secret req) secret = false ->
  serveConn secret h ext input s = (writeLine (responseJSON (refusal "bad auth")), s).
Proof.
  unfold requestOf, serveConn, zeroRequest. destruct (readLine input) as [line|]; [|discriminate]. destruct (Unmarshal _ _ _) as [r [|]]; [|discriminate].
  intros Hr%Some_inj Hs. subst r. rewrite Hs. reflexivity.
Qed.

(** C27: A management call brings back what the handler answered, and does to the node what the handler
    does: the data when it succeeds, its error when not, for every command and every data of integers a
    [float64] holds, valid strings and maps.  With another secret the call fails, and the node stays as
    it was. *)
Theorem mgmt_call d secret cmd args s resp s' : utf8 secret = true -> utf8 (ToUpper (TrimSpace cmd)) = true ->
  (forall a, args = Some a -> sendable d a) -> Z.of_nat d < maxNestingDepth ->
  DispatchMgmt h ext (mkRequest secret (ToUpper (TrimSpace cmd)) args) s = (resp, s') -> sendableResponse d resp ->
  clientCallRaw refloat (serveConn secret h ext) secret cmd args s = (told resp, s') /\
  forall other, utf8 other = true -> other <> secret ->
    clientCallRaw refloat (serveConn secret h ext) other cmd args s = (inl (New "bad auth"), s).
Proof.
  intros Hs Hc Ha Hd Hrun Hresp. split.
  - unfold clientCallRaw, requestLine. rewrite (served_request _ _ _ _ (request_read d secret _ args Hs Hc Ha Hd)) by (by apply secretEqual_spec).
    rewrite Hrun. by rewrite (response_read d).
  - intros other Ho Hne. unfold clientCallRaw, requestLine. rewrite (refused_request _ _ _ _ (request_read d other _ args Ho Hc Ha Hd)).
    + by rewrite (response_read 0).
    + destruct (secretEqual _ _) eqn:E; [|done]. by apply secretEqual_spec in E.
Qed.
End client.

(** ** Witnesses *)

Definition demoConfig : Config :=
  let e := EmptyString in
  ApplyDefaults (mkConfig e 0 e 0 [] e e e "open sesame" e e e e 0 e e e e 0 0 0 0 0 e e 7380 false None 0 e e 0 e None None 0 0 e e e e e e e e e).

Definition demoNode : Node :=
  mkNode (newServer (newStats "n1" 6379) false) demoConfig EmptyString (mkSt emptyStore (calmEnv 1)) (mkLinks "n1" 0 0 0 None [] 0)
    (mkMembers "n1" "10.0.0.1:7379" demoConfig ∅ (Some ∅)) [] true None.

(** A shutdown asked for with the wrong secret. *)
Lemma mgmt_requires_secret_witness : exists out, forall S (h : option (Handler S)) (ext : option (ExtendedHandler S)) (s : S),
  serveConn "open sesame" h ext (requestLine "open" "shutdown" None) s = (out, s).
Proof. apply mgmt_requires_secret. intros req. vm_compute. intros [= <-]. discriminate. Defined.

(** With the right one, at once. *)
Definition demoArgs : option json := snd (callCmd (ClientShutdown false)).

Lemma mgmt_call_witness :
  clientCallRaw Some (serveConn "open sesame" (Some (node_handler 0)) (Some (node_extended 0 1 (inr demoConfig)))) "open sesame" "shutdown" demoArgs demoNode
  = (inr (JStr "OK"), withStop false demoNode).
Proof.
  refine (proj1 (mgmt_call Some (fun n _ => eq_refl) (Some (node_handler 0)) (Some (node_extended 0 1 (inr demoConfig))) 1 "open sesame" "shutdown" demoArgs demoNode
    (ok (JStr "OK")) _ eq_refl eq_refl _ _ eq_refl _)).
  - intros a [= <-]. split; [|done]. apply wf_obj. by wfMember.
  - done.
  - split; [done|]. intros j [= <-]. done.
Defined.
