(* ===== verification/Program.v ===== *)
(** * The programs: the server's start and end (cmd/supercache/main.go), the command-line client
    (cmd/supercache-cli/main.go), logging and TLS set-up (internal/logging, internal/tlsconfig).

    Loading certificates, opening log files and dialling are arguments.  The flags are already parsed. *)

From S2P Require Import Prelude GoInt GoStr GoTime GoSort Resp Config Json GoNet GoCrypto ConfigValid StoreBase Eviction StoreString.
From S2P Require Import StoreHash StoreList StoreSet StoreKeys StoreOps Repl PeerWire PeerLinks PeerGap PeerMembers PeerAuth PeerBoot PeerSession Stats Lifecycle CmdServer Mgmt MgmtSpec.

(** ** TLS *)

Definition VersionTLS12 : Z := 0x0303.
Definition VersionTLS13 : Z := 0x0304.

Definition ParseMinVersion (s : string) : res Z :=
  let v := TrimSpace (ToLower s) in
  if sempty v || (v =? "1.2")%string then inr VersionTLS12
  else if (v =? "1.3")%string then inr VersionTLS13
  else inl (New "tls min version must be 1.2 or 1.3").

Section tls.
Context {Cert Pool : Type} (LoadX509KeyPair : string -> string -> res Cert) (ReadFile : string -> res string) (AppendCertsFromPEM : string -> option Pool).

Definition LoadServerTLS (certFile keyFile : string) (minVersion : Z) : res (Z * Cert) :=
  match LoadX509KeyPair certFile keyFile with
  | inl err => inl (wrapErr "load tls certificate: " err)
  | inr cert => inr (minVersion, cert)
  end.

Definition LoadClientTLS (caFile : string) (minVersion : Z) : res (Z * Pool) :=
  match ReadFile caFile with
  | inl err => inl (wrapErr "read tls CA file: " err)
  | inr pem => match AppendCertsFromPEM pem with
               | None => inl (New "tls CA file: no PEM certificates found")
               | Some pool => inr (minVersion, pool)
               end
  end.

(** The client listener of [Server.Run]: plain, or with TLS. *)
Definition clientListenerTLS (c : Config) : res (option (Z * Cert)) :=
  if negb (ClientTLSEnabled c) then inr None
  else match ParseMinVersion (ClientTLSMinVersion c) with
       | inl err => inl (wrapErr "client tls min version: " err)
       | inr v => match LoadServerTLS (ClientTLSCertFile c) (ClientTLSKeyFile c) v with
                  | inl err => inl (wrapErr "client tls: " err)
                  | inr t => inr (Some t)
                  end
       end.
End tls.

(** ** Logging *)

Inductive Level := LevelDebug | LevelInfo | LevelWarn | LevelError.
Inductive sink := Stdout | Stderr | LogFile (path : string).
Inductive handlerKind := TextHandler | JSONHandler.

Definition parseLevel (s : string) : Level :=
  if (s =? "debug")%string then LevelDebug
  else if (s =? "info")%string then LevelInfo
  else if (s =? "warn")%string || (s =? "warning")%string then LevelWarn
  else if (s =? "error")%string then LevelError
  else LevelInfo.

Section logging.
(** Opening a file for appending. *)
Context (openAppend : string -> option error).

Definition OpenLogFile (c : Config) : res sink :=
  if negb (LogOutputIsFile c) then inl (New "log_output is not a file path")
  else match openAppend (LogOutput c) with
       | Some err => inl (wrapErr "open log file: " err)
       | None => inr (LogFile (LogOutput c))
       end.

Definition writerFor (c : Config) : res sink :=
  let lo := ToLower (TrimSpace (LogOutput c)) in
  if sempty lo || (lo =? "stdout")%string then inr Stdout
  else if (lo =? "stderr")%string then inr Stderr
  else OpenLogFile c.

Definition Init (c : Config) : res (handlerKind * sink * Level) :=
  match writerFor c with
  | inl err => inl err
  | inr w =>
      let kind := if (ToLower (TrimSpace (LogFormat c)) =? "json")%string then JSONHandler else TextHandler in
      inr (kind, w, parseLevel (NormalizeLogLevel c))
  end.

(** The hook [main] sets for reloads: the new logger, when a field of the logger changed and it can be made. *)
Definition needsLog (changed : list string) : bool :=
  existsb (fun ch => (ch =? "log_level")%string || (ch =? "log_output")%string || (ch =? "log_format")%string) changed.
Definition onReload (c : Config) (changed : list string) (cur : handlerKind * sink * Level) : handlerKind * sink * Level :=
  if negb (needsLog changed) then cur else match Init c with inl _ => cur | inr l => l end.
End logging.

(** ** The server program *)

Section main.
Context `{FileSystem}.

(** The configuration [main] starts with; [read] gives what reading and parsing a configuration file gave,
    and [readState] the peer state file. *)
Definition startConfig (read : string -> res Config) (readState : string -> res string) (configFlag : string) : res (string * Config) :=
  let path := ResolveConfigPathForLoad (TrimSpace configFlag) in
  match Load (read path) with
  | inl err => inl (wrapErr "load config: " err)
  | inr cfg =>
      let sp := TrimSpace (PeerStateFile cfg) in
      if sempty sp then inr (path, cfg)
      else match LoadPeerStateFile (readState sp) with
           | inr (p :: extra) =>
               let cfg := setPeers (MergePeerLists (Peers cfg) (p :: extra)) cfg in
               match Validate cfg with
               | Some err => inl (wrapErr "peer state merge invalid: " err)
               | None => inr (path, cfg)
               end
           | _ => inr (path, cfg)
           end
  end.
End main.

(** The status of the process, once [Run] has returned and a shutdown begun by a signal has ended. *)
Definition exitCode (runErr : option error) (cancelled : bool) : Z :=
  match runErr with Some _ => if cancelled then 0 else 1 | None => 0 end.

(** ** The command-line client *)

Definition indentation (n : nat) : string := newline +++ String.concat EmptyString (replicate n "  "%string).

(** [json.MarshalIndent] with two spaces. *)
Fixpoint printIndent (n : nat) (j : json) : string :=
  match j with
  | JArr (x :: l) => "[" +++ join "," (map (fun j => indentation (S n) +++ printIndent (S n) j) (x :: l)) +++ indentation n +++ "]"
  | JObj (x :: l) =>
      "{" +++ join "," (map (fun kv => indentation (S n) +++ quoted (fst kv) +++ ": " +++ printIndent (S n) (snd kv)) (x :: l)) +++ indentation n +++ "}"
  | j => print j
  end.

Definition formatOutputTo (resp : MgmtResponse) (jsonMode : bool) : res string :=
  if jsonMode then inr (writeLine (responseJSON resp))
  else if negb (mr_OK resp) then inl (New (if sempty (mr_Error resp) then "request failed"%string else mr_Error resp))
  else match mr_Data resp with
       | None => inr ("OK" +++ newline)
       | Some d => inr (printIndent 0 d +++ newline)
       end.

(** The flags, with what the environment gives for those that are not set. *)
Record cliFlags := mkFlags { fl_config : string; fl_socket : string; fl_mgmtTCP : string; fl_secret : string; fl_json : bool }.

(** How the client ends: what it prints and its status. *)
Record ending := mkEnding { en_code : Z; en_stdout : string; en_stderr : string }.
Definition failing (code : Z) (text : string) : ending := mkEnding code EmptyString (text +++ newline).

Section cli.
Context `{FileSystem}.

Definition resolveConfigPath (flagPath env : string) : string :=
  let p := TrimSpace flagPath in
  if negb (sempty p) then p
  else let p := TrimSpace env in if negb (sempty p) then p else FirstExistingDefaultConfigPath.

Definition defaultSocket : string := "/var/run/supercache.sock".

(** The secret, the network and the address of the calls. *)
Definition resolveTarget (f : cliFlags) (loaded : option Config) : res (string * (string * string)) :=
  let sec := TrimSpace (fl_secret f) in
  let sock := TrimSpace (fl_socket f) in
  let sec := match loaded with Some c => if sempty sec then SharedSecret c else sec | None => sec end in
  let sock := match loaded with
              | Some c => if sempty sock && negb (sempty (MgmtSocket c)) && negb (MgmtSocket c =? "-")%string then MgmtSocket c else sock
              | None => sock
              end in
  let sock := if sempty sock then defaultSocket else sock in
  if sempty sec then inl (New "missing secret: use -secret, SUPERCACHE_SECRET, or -config with shared_secret")
  else
    let mt := TrimSpace (fl_mgmtTCP f) in
    if negb (sempty mt) then inr (sec, ("tcp"%string, mt))
    else match loaded with
         | Some c =>
             if MgmtTCPPort c >? 0 then
               let bind := TrimSpace (MgmtTCPBind c) in
               inr (sec, ("tcp"%string, JoinHostPort (if sempty bind then DefaultMgmtTCPBind else bind) (FormatInt (MgmtTCPPort c))))
             else inr (sec, ("unix"%string, sock))
         | None => inr (sec, ("unix"%string, sock))
         end.
End cli.

(** The loop over the arguments of [debug keyspace]. *)
Fixpoint debugCount (args : list string) (count : Z) : res Z :=
  match args with
  | a :: (n :: rest) as tl =>
      if (a =? "--count")%string then
        match ParseInt n with
        | inl e => inl (wrapErr "bad count: " (numErrorA n e))
        | inr count => debugCount rest count
        end
      else debugCount tl count
  | _ => inr count
  end.

Definition immediate (a : string) : bool :=
  let a := ToLower (TrimSpace a) in (a =? "--immediate")%string || (a =? "--force")%string || (a =? "-i")%string.

(** The call that the arguments ask for, or the usage error. *)
Definition parseCommand (args : list string) : res call :=
  match args with
  | [] => inl (New "usage")
  | c :: rest =>
      let cmd := ToLower (TrimSpace c) in
      if (cmd =? "ping")%string then inr ClientPing
      else if (cmd =? "info")%string then inr ClientInfo
      else if (cmd =? "status")%string then inr ClientStatus
      else if (cmd =? "reload-config")%string then inr ClientReloadConfig
      else if (cmd =? "peers")%string then
        match rest with
        | [] => inl (New "usage: peers list|add <addr>|remove <addr>")
        | s :: rest =>
            let sub := ToLower (TrimSpace s) in
            if (sub =? "list")%string then inr ClientPeersList
            else if (sub =? "add")%string then
              match rest with [] => inl (New "usage: peers add <host:port>") | a :: _ => inr (ClientPeersAdd (TrimSpace a)) end
            else if (sub =? "remove")%string then
              match rest with [] => inl (New "usage: peers remove <host:port>") | a :: _ => inr (ClientPeersRemove (TrimSpace a)) end
            else inl (New ("unknown peers subcommand " +++ Quote sub))
        end
      else if (cmd =? "shutdown")%string then inr (ClientShutdown (negb (existsb immediate rest)))
      else if (cmd =? "debug")%string then
        match rest with
        | k :: rest =>
            if negb (ToLower k =? "keyspace")%string then inl (New "usage: debug keyspace [--count N]")
            else match debugCount rest 10 with inl err => inl err | inr n => inr (ClientDebugKeyspace n) end
        | [] => inl (New "usage: debug keyspace [--count N]")
        end
      else if (cmd =? "bootstrap-status")%string then inr ClientBootstrapStatus
      else inl (New ("unknown command " +++ Quote cmd))
  end.

(** What is shown of a result: nothing but OK for the calls that return none. *)
Definition showResult (jsonMode : bool) (r : res (option json)) : ending :=
  match r with
  | inl err => failing 1 (errText err)
  | inr None => mkEnding 0 ("OK" +++ newline) EmptyString
  | inr (Some d) =>
      match formatOutputTo (ok d) jsonMode with
      | inl err => failing 1 (errText err)
      | inr out => mkEnding 0 out EmptyString
      end
  end.

Section cliMain.
Context `{FileSystem} (refloat : string -> option string) {S : Type}.

Definition usage (version : string) : string :=
  "supercache-cli version " +++ version +++ newline
  +++ "usage: supercache-cli [-config path] [-socket path] [-mgmt-tcp host:port] [-secret s] <command> [args...]" +++ newline
  +++ "commands: ping, info, status, reload-config, peers list|add|remove, shutdown, debug keyspace, bootstrap-status".

(** [main]: [dial] connects to an address, or not; what answers there works on a state. *)
Definition cliMain (version env : string) (read : string -> res Config) (dial : string -> string -> res (string -> S -> string * S))
    (f : cliFlags) (args : list string) (s : S) : ending * S :=
  if bool_decide (args = []) then (failing 2 (usage version), s)
  else
    let path := resolveConfigPath (fl_config f) env in
    match (if sempty path then inr None else match Load (read path) with inl err => inl err | inr c => inr (Some c) end) with
    | inl err => (failing 1 ("load config: " +++ errText err), s)
    | inr loaded =>
        match resolveTarget f loaded with
        | inl err => (failing 1 (errText err), s)
        | inr (sec, (network, address)) =>
            match parseCommand args with
            | inl err => (failing 2 (errText err), s)
            | inr c =>
                match dial network address with
                | inl err => (failing 1 (errText err), s)
                | inr conn => let '(r, s) := clientCall refloat conn sec c s in (showResult (fl_json f) r, s)
                end
            end
        end
    end.
End cliMain.

(** ** What the programs rely on of each other *)

(** The validation of a configuration and the listeners accept the same versions. *)
Lemma tls_versions_agree s : (exists v, parseTLSMinVersionString s = inr v) <-> exists v, ParseMinVersion s = inr v.
Proof.
  unfold parseTLSMinVersionString, ParseMinVersion. destruct (sempty _), (_ =? "1.2")%string, (_ =? "1.3")%string; cbn [orb];
    split; intros [v Hv]; first [by eauto | discriminate Hv].
Qed.

(** A reload that changes no field of the logger leaves it as it is, and one that cannot open the new log
    keeps the old one. *)
Lemma reload_keeps_logger open c changed cur : needsLog changed = false \/ (exists err, Init open c = inl err) -> onReload open c changed cur = cur.
Proof. unfold onReload. intros [->|[err ->]]; [done|]. by destruct (needsLog changed). Qed.

Lemma joined_graphic host port : sall graphic host = true -> sall graphic port = true -> sall graphic (JoinHostPort host port) = true.
Proof. intros Hh Hp. unfold JoinHostPort. case_match; rewrite !sall_app, Hh, Hp; reflexivity. Qed.

Lemma joined_nonempty host port : sempty (JoinHostPort host port) = false.
Proof. unfold JoinHostPort. case_match; [done|]. by destruct host. Qed.

(** C38: The client that reads a node's configuration, with no flag and no SUPERCACHE_ variable that gives the secret
    or an address, calls the node with its secret at an address where the node listens, whenever the configuration gives
    it one.  The socket path of the configuration has no white space around it, its management bind is printable, and
    its port is an int. *)
Theorem cli_reaches_node f c unix tcp :
  TrimSpace (fl_secret f) = EmptyString -> TrimSpace (fl_socket f) = EmptyString -> TrimSpace (fl_mgmtTCP f) = EmptyString ->
  SharedSecret c <> EmptyString -> TrimSpace (MgmtSocket c) = MgmtSocket c ->
  sall graphic (TrimSpace (MgmtTCPBind c)) = true -> is_int64 (MgmtTCPPort c) = true ->
  mgmtAddrs c = Some (unix, tcp) ->
  exists target ls, resolveTarget f (Some c) = inr (SharedSecret c, target) /\ listeners unix tcp = inr ls /\ target ∈ ls.
Proof.
  intros Hsec Hsock Htcp Hs Hu Hb Hp. unfold mgmtAddrs, resolveTarget, listeners. rewrite Hsec, Hsock, Htcp, Hu. cbn [sempty negb andb].
  replace (sempty (SharedSecret c)) with false by (by destruct (SharedSecret c)). destruct (MgmtTCPPort c >? 0).
  - rewrite joined_nonempty, orb_true_r. intros [= <- <-]. rewrite Hu. eexists _, _. split; [reflexivity|].
    rewrite TrimSpace_graphic by (apply joined_graphic; [by destruct (sempty _)|by apply FormatInt_graphic]).
    rewrite joined_nonempty, andb_false_r. split; [reflexivity|]. apply elem_of_app. right. by left.
  - rewrite orb_false_r. destruct (negb (sempty (MgmtSocket c)) && negb (MgmtSocket c =? "-")%string) eqn:E; [|done].
    intros [= <- <-]. rewrite Hu. apply andb_true_iff in E as [E1%negb_true_iff E2%negb_true_iff]. rewrite E1, E2. eexists _, _.
    split; [reflexivity|]. split; [reflexivity|]. by left.
Qed.

(** ** Witnesses *)

Definition noFlags : cliFlags := mkFlags EmptyString EmptyString EmptyString EmptyString false.

Lemma cli_reaches_node_witness : exists target ls, resolveTarget noFlags (Some demoConfig) = inr ("open sesame"%string, target) /\
  listeners "/var/run/supercache.sock" "127.0.0.1:7380" = inr ls /\ target ∈ ls.
Proof. by apply (cli_reaches_node noFlags demoConfig). Defined.

(** The client and the server together: a peer added from the command line. *)
#[local] Instance noFiles : FileSystem := {| fsStat _ := inl (New "no such file"); fsCreateTemp _ := None; fsIsNotExist _ := true |}.

Definition demoCli (args : list string) : ending * Node :=
  cliMain Some "dev" EmptyString (fun _ => inl (New "no file"))
    (fun _ _ => inr (serveConn "open sesame" (Some (node_handler 0)) (Some (node_extended 0 1 (inr demoConfig)))))
    (mkFlags EmptyString EmptyString EmptyString "open sesame" false) args demoNode.

Example cli_adds_peer : let '(e, n) := demoCli ["peers"; "add"; " 10.0.0.2:7379 "]%string in
  e = mkEnding 0 ("OK" +++ newline) EmptyString /\ ConfigPeerAddrs (nd_members n) = ["10.0.0.2:7379"%string].
Proof. vm_compute. split; reflexivity. Qed.

Example cli_pings : fst (demoCli ["ping"%string]) = mkEnding 0 (quoted "PONG" +++ newline) EmptyString.
Proof. vm_compute. reflexivity. Qed.
